(* ===== verification/_CoqProject ===== *)
-Q . S2P
Prelude.v
GoErrors.v
Prog.v
Abi.v
Contract.v
Reference.v
Pump.v
Calls.v
PumpSystem.v
Handle.v
Deadline.v
Streams.v
StreamClose.v
GoStrings.v
Registry.v
Keys.v
Netip.v
Addr.v
RustAddr.v
Conn.v
Endpoint.v
Shim.v
ShimInv.v
ShimRefines.v
ShimIds.v
ShimPump.v
ShimRuns.v
Creates.v
ShimErrors.v
ShimAccount.v
ShimLeaks.v
ShimThreads.v
ShimOptions.v
Echo.v
NetConn.v
Listener.v
LibFiles.v
Embed.v
Load.v
Iroh.v
EchoMain.v
EchoProcess.v
