(* ===== verification/Prelude.v ===== *)
(** * iroh-go: a verification development

    The Go package [iroh] binds the Rust library iroh (peer-to-peer QUIC)
    without CGO: a shared library, [irohgo-ffi], is found or extracted,
    opened, and called through function pointers.  Calls that wait return an
    operation id at once; one goroutine, the pump, receives the completions and
    wakes whoever waits.  On top of that are the keys, addresses, endpoints,
    connections and streams a user sees, and adapters to [net.Conn] and
    [net.Listener].

    ** Files and code

    Foundations
    - [Prelude]     notations, hint databases, tactics, list and integer lemmas
    - [GoErrors]    [errors.go], Go's [errors] package
    - [Prog]        effectful Go code as programs over events, run by handlers
                    and proved against protocols ([wp], [wp_run])
    - [GoStrings]   Go's [strings], [strconv], [encoding/hex]
    - [Netip]       Go's [net/netip] as a type class, with an IPv4 instance

    The boundary
    - [Abi]         [internal/ffi/ffi.go]: constants, function table, symbols;
                    every C function as an event
    - [Contract]    what the Go code owes the library and may assume of it, as a
                    protocol over the state a goroutine owns
    - [Reference]   an executable library that keeps the contract, for the
                    theorems that run Go code on some library
    - [Pump]        [internal/ffi/pump.go], [internal/ffi/errors.go]
    - [PumpSystem]  the pump, waiting goroutines, library and contexts
                    interleaved
    - [Calls]       [internal/ffi/calls.go], all of it
    - [Load]        [Load] and [load] of [internal/ffi/ffi.go]
    - [LibFiles]    [internal/lib/lib.go], [open_unix.go], [open_windows.go]
    - [Embed]       [internal/lib/embed_*.go] and [libs/*/lib.go]

    The package
    - [Handle]      [handle.go]
    - [Deadline]    the [deadline] of [stream.go]
    - [Streams]     [SendStream] and [RecvStream] of [stream.go]
    - [StreamClose] the two [Close]s of [stream.go] under calls in flight
    - [Keys], [Addr], [Conn], [Endpoint], [Iroh]
                    [keys.go], [addr.go], [conn.go], [endpoint.go], [iroh.go]
    - [NetConn]     [StreamConn] of [netconn.go]
    - [Listener]    [Listener] of [netconn.go] and its goroutines
    - [Echo]        [serve] and [dial] of [examples/echo/main.go]
    - [EchoMain]    its [listen] and [main]
    - [EchoProcess] [main]'s goroutine, one of [serve] for each peer, and the
                    native library, in any order

    The native library, [rust/irohgo-ffi/src]
    - [Registry]    [registry.rs], [error.rs]: handle tables as a type class with
                    laws, the sharded table and a plain map
    - [RustAddr]    [addr.rs] against the text [Addr] reads and writes
    - [Shim]        everything else: [ops.rs], [ffi.rs], [lib.rs], [stream.rs],
                    [conn.rs], [endpoint.rs], [keys.rs]; one definition per
                    exported function, and the steps of its tasks
    - [ShimInv]     the library's invariant, and what it owes two goroutines
    - [ShimRefines] every call and task keeps [Contract]
    - [ShimIds]     what calls take of the counter, and leave alone
    - [ShimPump]    the library is the one of [PumpSystem]
    - [ShimRuns]    Go programs run on the library
    - [Creates]     which calls of the package make Go objects
    - [ShimErrors]  errors on their way from the library to Go's [errors.Is]
    - [ShimAccount] what is in the library, and whose it is
    - [ShimLeaks]   runs lose nothing
    - [ShimThreads] many goroutines on one library, in any order
    - [ShimOptions] the options of [Bind] on their way to the iroh builder

    The doc comment before a definition names the lines it translates.
    Exported methods whose names several types share carry the type's name as
    a prefix ([SendStream_Close]).

    ** How the model is built

    A Go function with effects is a [prog] over events: a tree that ends in a
    result or a panic.  The event signatures are those of the library and run
    time ([goE]), of the [net.Conn] adapter, which adds its own cells to them
    ([nE]), of the listener ([Listener]), of the operating system ([osE]), of
    the loader ([Load]), and of the echo example, which adds the statement
    [go serve(ctx, conn)] ([spE]).  Go values are immutable results; what the code
    shares by address (the handle cell, mutex, deadline and cached id of an
    object) is named by the object's number and reached by events.

    Sequential reasoning is [wp] against a [Protocol].  For the library the
    protocol is [Contract.abi_protocol], and its state [owned] has a field per
    thing a goroutine can leak: operations, registered channels, buffers, error
    handles, library objects, locks and deadline registrations.  "Nothing is
    leaked" is an equation between the state before and after ([quiet],
    [frame], [same_debts]).  The contract allows what the Rust side documents,
    failures included; [Shim] keeps it ([ShimRefines]), and [wp_run] turns a
    [wp] into a statement about runs of any handler that keeps it, the native
    library among them ([ShimRuns.go_runs_on_the_shim]).

    The native library is a monad of state, panic and blocking.  [ShimInv.sound]
    says that a state is in order and holds what two goroutines own, apart from
    each other: one that calls and any other, so that a call's effect on the
    rest of the program is part of every theorem.

    Concurrency is a step relation wherever the code relies on it: one critical
    section, one channel operation or one call per step ([PumpSystem],
    [Deadline], [StreamClose], [Listener], [ShimThreads], [EchoProcess]), with invariants by
    induction over reachable states, and a rely-guarantee protocol for processes
    that share a cache directory ([LibFiles]).

    ** What is shown

    - Completions: every operation's completion reaches exactly the goroutine
      that waits for it, however registration, delivery, cancellation and
      context expiry interleave, and when nothing can move every wait is over but
      those whose operation still runs ([PumpSystem]).  The interleaved threads run the very program [Pump.await]
      ([threads_run_await]).
    - The 56 entry points meet every obligation of the ABI on every path
      ([Calls.entry_points_settle]); constructors hand each library object to
      exactly one owner; closers free it exactly once ([Handle], [Streams],
      [Conn], [Endpoint]).
    - Streams: [Write] and [Read] report exactly what moved, across partial
      transfers, cancellations that race a completion and deadline changes, and
      terminate; deadlines reach the calls in flight; closing does not wait
      behind them ([Streams], [Deadline], [StreamClose]); the same through the
      [net.Conn] adapter ([NetConn]), whose closers agree on one error also when
      they come at once ([concurrent_closers_agree]), and end to end in [Echo].
    - The echo process: each connection accepted gets a goroutine of its own, and
      every goroutine, next to all the others on the one library, ends as it
      should, can go on, or waits for an operation still in flight
      ([EchoProcess]); its witness is a computed run from [main] to the bytes
      echoed.
    - The listener serves no refused peer, gives every stream to one caller or
      closes it, survives misbehaving peers, agrees on one error after it
      failed, decided by whether it was closed by then, and winds down
      ([Listener]).
    - Texts: addresses, tickets, paths and remote reports are read back as they
      were written; keys and ids print as fixed-length hex ([Addr], [Conn],
      [Endpoint], [Keys]).
    - Loading: every field of the function table is bound to its own symbol,
      the ABI version is checked before anything else is called, a failed load
      is final ([Abi], [Load]); concurrent extraction never exposes an
      incomplete or altered library ([LibFiles]); each build embeds the module
      of its platform and only that ([Embed]).

    - The native library: each of its 66 entry points, called as the contract
      asks, returns without a panic or a deadlock, answers as the contract says
      and touches nothing another goroutine owns; tasks, aborts and supervisors
      keep that ([ShimRefines]).  Posting, waiting and aborting are those of the
      pump system ([ShimPump]).  The sharded handle table is a map ([Registry]);
      addresses cross the boundary unchanged both ways ([RustAddr]).  So every
      [wp] of the package holds of its runs on the library ([ShimRuns]);
      [ShimRuns.a_session] computes one, from [Bind] to the last [Close].
      Such runs lose nothing: once no operation is open, the library's tables
      hold what Go owns and nothing else ([ShimAccount], [ShimLeaks]).  Any number
      of goroutines, each with such a program and an account of its own, share
      one library in any order of their steps and of the library's tasks: none
      gets in another's way, each can go on or waits for an operation still in
      flight, and the account of all of them balances ([ShimThreads]).  What
      [Bind] was told is what the iroh builder gets ([ShimOptions]).  An error of
      each of the library's kinds comes out of [takeError] as one that only its own
      sentinel matches, with its message, and leaves nothing behind
      ([ShimErrors]).

    ** Bounds, fuel and assumptions

    - [Write] and [Read] resume when their deadline is changed under them.
      Their fuel is the number of such changes plus one: the contract counts the
      changes still to come ([o_changes]), and the theorems hold for all fuel
      above it, where the panic that marks the end of the fuel is not reached.
      [write_loop]'s fuel, the length of the buffer plus one, is computed by
      [WriteContext] and proved sufficient.
    - [Echo]'s copies last as long as the peer sends; they take a number of
      rounds and may answer "not done yet", and the theorem covers that answer;
      so does [listen]'s accept loop ([EchoMain]).
    - [Deadline] and [StreamClose] bound the number of steps by 2^64, the range
      of the registration counter; below it no id is reused.
    - Lengths are below 2^63, as Go's are.  Object and operation ids are
      positive and fresh: the library counts them up in 64 bits.  A call takes
      at most one and a task at most two ([ShimIds]); the theorems about the
      library ask for that many to be left ([room]), and a run of fewer than 2^62
      events always has them ([early]).
    - [nothing_is_lost] and [pool_loses_nothing] take the runtime to start when
      an operation asks for it ([runtime_starts]):
      [ShimLeaks.spawn_without_runtime] shows what is left behind when it does
      not.
    - In [ShimThreads] and [EchoProcess] the handles kept by Go objects are one set for all
      goroutines, and several may hold the same object; the other cells of an
      object (mutex, deadline, cached id) are in each goroutine's account, and
      their interleaving is in [Deadline] and [StreamClose].  A goroutine of the
      echo process starts with the objects and contexts its creator knows
      ([EchoProcess.told]); one that reads an object's handle may find it already
      taken by another.
    - [Listener] and [PumpSystem] need no fairness assumption: their liveness
      is a bound on the steps the goroutines can still take on their own
      ([remaining]), together with what holds once none can move.
    - [sha256.Sum256], [filepath], [net/netip] and the library are parameters;
      what is used of them are the laws of [NetIP] and of the contract.

    ** Not modelled

    - Inside the iroh crates.  What iroh answers in a call or a task is an
      argument of [Shim]'s definitions ([says]); parsers, keys, tickets and urls
      are the classes [Iroh] and [IrohCrates] with the laws [IrohLaws] and
      [CratesLaws], kept by the small instances the witnesses run.
    - Inside one call of the native library.  A call, and a step of a task, is
      atomic: what they share is behind locks held only inside one of them, and
      no two shards are locked at once but where [remove] drops an operation,
      which [Shim.release] models.  That an [Arc] another call still holds
      delays a drop is not modelled.
    - When the garbage collector runs a cleanup.  That a cleanup holds the only
      reference when it runs is [runtime.AddCleanup]'s promise; [RAddCleanup]
      hands the object over to it.  [runtime.KeepAlive] only stops the collector.
    - [purego]'s calling of C functions, and the platform's loader.
    - Parsing the example's flags, signals and printing.  [_test.go] files,
      scripts and the release tooling. *)

From Stdlib Require Export ZArith Lia Ascii String.
From stdpp Require Export base tactics option list gmap strings numbers.

(** ** Notations *)

(** Go's [string] and [[]byte] are both byte sequences. *)
Abbreviation bytes := (list ascii).

(** A string literal of the Go source. *)
Definition lit (s : string) : bytes := String.list_ascii_of_string s.

Declare Scope go_scope.
Delimit Scope go_scope with go.
Notation "'$' s" := (lit s%string) (at level 1, s at level 0, format "$ s") : go_scope.

(** ** Machine integers *)

Definition two64 : Z := 18446744073709551616.
Definition two63 : Z := 9223372036854775808.

(** [uint64(z)] and [int64(z)]: Go's conversions wrap around. *)
Definition wrap_u64 (z : Z) : Z := (z `mod` two64)%Z.
Definition wrap_i64 (z : Z) : Z := ((z + two63) `mod` two64 - two63)%Z.

(** ** Hint databases and tactics

    [go] carries the lemmas that close the routine side conditions of the
    components: membership, lengths and integer ranges. *)
Create HintDb go discriminated.
Create HintDb ffi discriminated.
#[export] Set Warnings "-register-all,-clear-no-such-hyp".

(** Case analysis on the innermost [match] of the goal or of a hypothesis,
    keeping the equation. *)
Ltac case_goal :=
  match goal with
  | |- context [match ?x with _ => _ end] =>
      lazymatch x with context [match _ with _ => _ end] => fail | _ => destruct x eqn:? end
  end.
Ltac case_hyp H :=
  match type of H with
  | context [match ?x with _ => _ end] =>
      lazymatch x with context [match _ with _ => _ end] => fail | _ => destruct x eqn:? end
  end.

(** Simplify everything that is an equation between constructors and close the
    goal when it is routine. *)
Ltac crush := repeat (simplify_eq/= || case_goal); eauto with go; try done; try lia.

(** ** Machine integers: lemmas *)

Lemma wrap_u64_range z : (0 <= wrap_u64 z < two64)%Z.
Proof. apply Z.mod_pos_bound. reflexivity. Qed.

Lemma wrap_u64_id z : (0 <= z < two64)%Z -> wrap_u64 z = z.
Proof. apply Z.mod_small. Qed.

Lemma wrap_i64_range z : (- two63 <= wrap_i64 z < two63)%Z.
Proof.
  unfold wrap_i64.
  pose proof (Z.mod_pos_bound (z + two63) two64 ltac:(reflexivity)).
  unfold two63, two64 in *. lia.
Qed.

Lemma wrap_i64_id z : (- two63 <= z < two63)%Z -> wrap_i64 z = z.
Proof.
  intros Hz. unfold wrap_i64. rewrite Z.mod_small; unfold two63, two64 in *; lia.
Qed.

#[export] Hint Resolve wrap_u64_range wrap_i64_range : go.

(** ** Lists: lemmas *)

(** What [append(dst, src[:n]...)] moved and what it left. *)
Lemma take_drop_split {A} (n : nat) (l : list A) : l = take n l ++ drop n l.
Proof. symmetry. apply take_drop. Qed.

Lemma drop_take_app {A} (i n : nat) (l : list A) :
  take i l ++ take n (drop i l) = take (i + n) l.
Proof.
  revert i. induction l as [|a l IH]; intros [|i]; simpl;
    rewrite ?take_nil, ?app_nil_r; auto. by f_equal.
Qed.

Lemma Forall_elem {A} (P : A -> Prop) (l : list A) x : Forall P l -> x ∈ l -> P x.
Proof. induction 1; [by intros ?%not_elem_of_nil|]. intros [->|?]%elem_of_cons; auto. Qed.

Lemma lit_nil : lit "" = [].
Proof. reflexivity. Qed.

Lemma lit_inj s1 s2 : lit s1 = lit s2 -> s1 = s2.
Proof.
  intros H. rewrite <-(String.string_of_list_ascii_of_string s1),
    <-(String.string_of_list_ascii_of_string s2).
  unfold lit in H. by rewrite H.
Qed.

(** ** Maps *)

(** The sum of a weight over a map. *)
Definition msum {A} (f : A -> nat) (m : gmap Z A) : nat :=
  map_fold (fun _ a n => (f a + n)%nat) 0%nat m.

Lemma msum_insert {A} (f : A -> nat) m i x :
  m !! i = None -> msum f (<[i := x]> m) = (f x + msum f m)%nat.
Proof. intros H. unfold msum. rewrite map_fold_insert_L; [done| |done]. intros. lia. Qed.

Lemma msum_update {A} (f : A -> nat) m i x y :
  m !! i = Some x -> (msum f (<[i := y]> m) + f x = msum f m + f y)%nat.
Proof.
  intros H. rewrite <-(insert_delete_id m i x H) at 2. rewrite <-insert_delete_eq.
  rewrite !msum_insert by apply lookup_delete_eq. lia.
Qed.

Lemma msum_take {A} (f : A -> nat) m i x :
  m !! i = Some x -> msum f m = (f x + msum f (delete i m))%nat.
Proof.
  intros H. rewrite <-(insert_delete_id m i x H) at 1. by apply msum_insert, lookup_delete_eq.
Qed.
