(* ===== verification/GoErrors.v ===== *)
(** Errors: [errors.go], the error half of [internal/ffi/errors.go], and the
    part of Go's [errors] package they rest on ([errors.Is], [errors.Join]).

    A Go [error] value is [option gerror], [None] being [nil].  Sentinels are
    the package-level variables callers compare with; [IrohError] is the
    public [*Error]; [WrapError] is what [fmt.Errorf] builds, with the operand
    of a percent-w verb if there is one; [JoinError] is [errors.Join]'s. *)
From S2P Require Import Prelude.
Local Open Scope Z_scope.

(** ** Kinds *)

(** [src/errors.go:12-30 Kind] The kinds are consecutive integers from 0. *)
Definition Kind := Z.
(** [src/errors.go:16-16 KindInternal] *)
Definition KindInternal : Kind := 0.
(** [src/errors.go:17-17 KindInvalidInput] *)
Definition KindInvalidInput : Kind := 1.
(** [src/errors.go:18-18 KindKeyParsing] *)
Definition KindKeyParsing : Kind := 2.
(** [src/errors.go:19-19 KindTicketParsing] *)
Definition KindTicketParsing : Kind := 3.
(** [src/errors.go:20-20 KindBind] *)
Definition KindBind : Kind := 4.
(** [src/errors.go:21-21 KindConnect] *)
Definition KindConnect : Kind := 5.
(** [src/errors.go:22-22 KindConnection] *)
Definition KindConnection : Kind := 6.
(** [src/errors.go:23-23 KindStream] *)
Definition KindStream : Kind := 7.
(** [src/errors.go:24-24 KindDatagram] *)
Definition KindDatagram : Kind := 8.
(** [src/errors.go:25-25 KindALPN] *)
Definition KindALPN : Kind := 9.
(** [src/errors.go:26-26 KindRelay] *)
Definition KindRelay : Kind := 10.
(** [src/errors.go:27-27 KindClosed] *)
Definition KindClosed : Kind := 11.
(** [src/errors.go:28-28 KindTimeout] *)
Definition KindTimeout : Kind := 12.
(** [src/errors.go:29-29 KindCancelled] *)
Definition KindCancelled : Kind := 13.

(** ** Sentinels *)

(** [src/errors.go:35-50 ErrInternal] The package's sentinel variables,
    followed by the standard library's that this code compares with. *)
Inductive sentinel : Set :=
| ErrInternal | ErrInvalidInput | ErrKeyParsing | ErrTicketParsing
| ErrBind | ErrConnect | ErrConnection | ErrStream | ErrDatagram
| ErrALPN | ErrRelay | ErrClosed | ErrTimeout | ErrCancelled
| CtxCanceled | CtxDeadlineExceeded | OsErrDeadlineExceeded
| NetErrClosed | IoEOF | FsErrNotExist
| ErrNoEmbeddedLibrary (GOOS GOARCH : bytes). (* of the platform the program was built for *)

#[export] Instance sentinel_eq_dec : EqDecision sentinel.
Proof. solve_decision. Defined.

(** [src/errors.go:36-49 errors.New] The text each of the package's sentinels
    was created with; that of [ErrNoEmbeddedLibrary] is [src/internal/lib/lib.go:47]. *)
Definition sentinel_text (s : sentinel) : string :=
  match s with
  | ErrInternal => "iroh: internal error"
  | ErrInvalidInput => "iroh: invalid input"
  | ErrKeyParsing => "iroh: key parsing failed"
  | ErrTicketParsing => "iroh: ticket parsing failed"
  | ErrBind => "iroh: bind failed"
  | ErrConnect => "iroh: connect failed"
  | ErrConnection => "iroh: connection lost"
  | ErrStream => "iroh: stream error"
  | ErrDatagram => "iroh: datagram error"
  | ErrALPN => "iroh: alpn error"
  | ErrRelay => "iroh: relay error"
  | ErrClosed => "iroh: closed"
  | ErrTimeout => "iroh: timed out"
  | ErrCancelled => "iroh: cancelled"
  | CtxCanceled => "context canceled"
  | CtxDeadlineExceeded => "context deadline exceeded"
  | OsErrDeadlineExceeded => "i/o timeout"
  | NetErrClosed => "use of closed network connection"
  | IoEOF => "EOF"
  | FsErrNotExist => "file does not exist"
  | ErrNoEmbeddedLibrary GOOS GOARCH =>
      "iroh: no embedded library for " ++ string_of_list_ascii GOOS ++ "/" ++ string_of_list_ascii GOARCH
  end.

(** ** Error values *)

(** An error text. [MFmt f args] is [fmt.Sprintf(f, args...)], kept as the call
    it is: nothing in this code inspects a rendered message beyond asking
    whether it is empty. [MQuote] is the operand of a percent-q verb. *)
Inductive gomsg : Set :=
| MText (s : string)
| MBytes (b : bytes)
| MQuote (b : bytes)
| MInt (z : Z)
| MCat (a b : gomsg)
| MFmt (format : string) (args : list gomsg).

(** [msg == ""]. Every format string of the code starts with literal text, so
    a formatted message is empty only if its format is. *)
Fixpoint msg_empty (m : gomsg) : bool :=
  match m with
  | MText s => String.eqb s ""
  | MBytes b => bool_decide (b = [])
  | MQuote _ | MInt _ => false
  | MCat a b => msg_empty a && msg_empty b
  | MFmt f _ => String.eqb f ""
  end.

(** [src/errors.go:71-74 Error] [IrohError] is the public [Error] struct. *)
Inductive gerror : Set :=
| Sentinel (s : sentinel)
| IrohError (kind : Kind) (msg : gomsg)
| WrapError (msg : gomsg) (wrapped : option gerror)
| JoinError (es : list gerror).

Abbreviation error := (option gerror).
Abbreviation nil_error := (None : error).

(** [src/errors.go:52-67 sentinels] *)
Definition sentinels : gmap Z sentinel :=
  list_to_map
    [ (KindInternal, ErrInternal);
      (KindInvalidInput, ErrInvalidInput);
      (KindKeyParsing, ErrKeyParsing);
      (KindTicketParsing, ErrTicketParsing);
      (KindBind, ErrBind);
      (KindConnect, ErrConnect);
      (KindConnection, ErrConnection);
      (KindStream, ErrStream);
      (KindDatagram, ErrDatagram);
      (KindALPN, ErrALPN);
      (KindRelay, ErrRelay);
      (KindClosed, ErrClosed);
      (KindTimeout, ErrTimeout);
      (KindCancelled, ErrCancelled) ].

(** [src/errors.go:92-97 sentinelFor] *)
Definition sentinelFor (k : Kind) : sentinel :=
  match sentinels !! k with
  | Some s => s
  | None => ErrInternal
  end.

(** [src/errors.go:76-86 Error.Error] The text of an iroh error: its kind's
    text, then its message if it has one. *)
Definition Error_Error (kind : Kind) (msg : gomsg) : gomsg :=
  let text := sentinel_text (sentinelFor kind) in
  if msg_empty msg then MText text else MCat (MCat (MText text) (MText ": ")) msg.

(** [err.Error()] for any error value. *)
Fixpoint error_text (e : gerror) : gomsg :=
  match e with
  | Sentinel s => MText (sentinel_text s)
  | IrohError k m => Error_Error k m
  | WrapError m _ => m
  | JoinError es =>
      (fix join (l : list gerror) : gomsg :=
         match l with
         | [] => MText ""
         | [e'] => error_text e'
         | e' :: l' => MCat (error_text e') (MCat (MBytes [ascii_of_nat 10]) (join l'))
         end) es
  end.

(** [src/errors.go:90-90 Error.Unwrap] *)
Definition Error_Unwrap (kind : Kind) : gerror := Sentinel (sentinelFor kind).

(** [errors.Is(err, target)] with a sentinel as target: equal, or some error
    of the tree that [Unwrap] spans is. *)
Fixpoint is_error (e : gerror) (t : sentinel) : bool :=
  match e with
  | Sentinel s => bool_decide (s = t)
  | IrohError k _ => bool_decide (sentinelFor k = t)
  | WrapError _ (Some e') => is_error e' t
  | WrapError _ None => false
  | JoinError es =>
      (fix any (l : list gerror) : bool :=
         match l with [] => false | e' :: l' => is_error e' t || any l' end) es
  end.
Definition errors_Is (err : error) (t : sentinel) : bool :=
  match err with Some e => is_error e t | None => false end.

(** [errors.Join]: nil operands are dropped, and all nil is nil. *)
Definition errors_Join (errs : list error) : error :=
  match omap id errs with [] => None | es => Some (JoinError es) end.

(** [src/errors.go:102-104 ffi.NewError] What the init function installs as the
    error constructor of the internal package. *)
Definition NewError (kind : Z) (msg : gomsg) : gerror := IrohError kind msg.

(** [src/errors.go:108-110 errKind] *)
Definition errKind (kind : Kind) (format : string) (args : list gomsg) : gerror :=
  IrohError kind (MFmt format args).

(** [fmt.Errorf("...: %w", ..., err)] *)
Definition wrapf (format : string) (args : list gomsg) (err : gerror) : gerror :=
  WrapError (MFmt format (args ++ [error_text err])) (Some err).
(** [fmt.Errorf] without a wrapped error. *)
Definition plainf (format : string) (args : list gomsg) : gerror := WrapError (MFmt format args) None.

(** The sentinels of [ErrInternal .. ErrCancelled]: those a kind can stand
    for. *)
Definition kind_sentinels : list sentinel :=
  [ErrInternal; ErrInvalidInput; ErrKeyParsing; ErrTicketParsing; ErrBind;
   ErrConnect; ErrConnection; ErrStream; ErrDatagram; ErrALPN; ErrRelay;
   ErrClosed; ErrTimeout; ErrCancelled].

(** ** Lemmas *)

Lemma sentinelFor_table (n : nat) s :
  kind_sentinels !! n = Some s -> sentinelFor (Z.of_nat n) = s.
Proof.
  intros H.
  unfold kind_sentinels in H.
  do 14 (destruct n as [|n]; [injection H as <-; reflexivity|]). by destruct n.
Qed.

Lemma sentinelFor_unknown k : ~ (0 <= k <= 13) -> sentinelFor k = ErrInternal.
Proof.
  intros Hk. unfold sentinelFor.
  case_match eqn:E; [|done]. unfold sentinels in E.
  apply elem_of_list_to_map_2 in E.
  repeat (apply elem_of_cons in E as [[= -> ->]|E];
    [exfalso; apply Hk; unfold KindInternal, KindInvalidInput, KindKeyParsing, KindTicketParsing, KindBind, KindConnect, KindConnection, KindStream, KindDatagram, KindALPN, KindRelay, KindClosed, KindTimeout, KindCancelled; lia|]).
  by apply not_elem_of_nil in E.
Qed.

Lemma sentinelFor_known k : 0 <= k <= 13 ->
  kind_sentinels !! Z.to_nat k = Some (sentinelFor k).
Proof.
  intros Hk. destruct (kind_sentinels !! Z.to_nat k) as [s|] eqn:E.
  - apply sentinelFor_table in E. rewrite Z2Nat.id in E by lia. by rewrite E.
  - apply lookup_ge_None in E. simpl in E. lia.
Qed.

Lemma sentinelFor_elem k : sentinelFor k ∈ kind_sentinels.
Proof.
  destruct (decide (0 <= k <= 13)) as [Hk|Hk].
  - eapply list_elem_of_lookup_2, sentinelFor_known, Hk.
  - rewrite sentinelFor_unknown by done. by left.
Qed.

(** An error of the library is none of the foreign sentinels. *)
Lemma iroh_not_foreign k m t : t ∉ kind_sentinels -> is_error (IrohError k m) t = false.
Proof. intros Ht. apply bool_decide_eq_false. intros <-. apply Ht, sentinelFor_elem. Qed.

Lemma errors_Join_nil : errors_Join [None; None] = None.
Proof. reflexivity. Qed.

Lemma errors_Is_join2 a b t :
  errors_Is (errors_Join [a; b]) t = errors_Is a t || errors_Is b t.
Proof. destruct a, b; simpl; by rewrite ?orb_false_r. Qed.

Lemma errors_Is_sentinel s t : errors_Is (Some (Sentinel s)) t = bool_decide (s = t).
Proof. reflexivity. Qed.
