(* ===== verification/Prog.v ===== *)
(** Effectful Go code as programs over an event signature.

    A Go function that calls the native library, a mutex, a channel or an
    atomic is a [prog E A]: a tree of events of the signature [E : Type -> Type]
    ([E X] is an event answered with an [X]) ending in a result or in a Go
    run-time panic.  A program is run by a [handler] (an executable
    environment) and reasoned about against a [Protocol]: what the code owes
    before an event ([pre]) and what the other side may answer ([post]), over a
    state that records what the goroutine owns.  [wp_run] is the link: a
    program proved against a protocol behaves accordingly under every handler
    that implements it. *)
From S2P Require Import Prelude.

(** ** Programs *)

Inductive prog (E : Type -> Type) (A : Type) : Type :=
| Ret (a : A)
| Vis {X : Type} (e : E X) (k : X -> prog E A)
| Panic (why : string).
Arguments Ret {E A} a.
Arguments Vis {E A X} e k.
Arguments Panic {E A} why.

Fixpoint bind {E A B} (p : prog E A) (f : A -> prog E B) : prog E B :=
  match p with
  | Ret a => f a
  | Vis e k => Vis e (fun x => bind (k x) f)
  | Panic why => Panic why
  end.

#[export] Instance prog_ret {E} : MRet (prog E) := @Ret E.
#[export] Instance prog_bind {E} : MBind (prog E) := fun A B f p => @bind E A B p f.

Definition trigger {E X} (e : E X) : prog E X := Vis e Ret.

(** A Go [for] loop over a slice whose body may return early: [Some r] from the
    body is [return r]. *)
Fixpoint for_range {E A R} (l : list A) (body : A -> prog E (option R))
    : prog E (option R) :=
  match l with
  | [] => Ret None
  | a :: l' => r ← body a; match r with Some v => Ret (Some v) | None => for_range l' body end
  end.

(** ** Running *)

Definition handler (E : Type -> Type) (W : Type) : Type := forall X, E X -> W -> X * W.

(** [None] is a panic. *)
Fixpoint run {E W A} (h : handler E W) (p : prog E A) (w : W) : option A * W :=
  match p with
  | Ret a => (Some a, w)
  | Vis e k => let '(x, w') := h _ e w in run h (k x) w'
  | Panic _ => (None, w)
  end.

(** A partial environment: events it does not serve end the run. *)
Definition partial_handler (E : Type -> Type) (W : Type) : Type :=
  forall X, E X -> W -> option (X * W).

Fixpoint prun {E W A} (h : partial_handler E W) (p : prog E A) (w : W) : option (A * W) :=
  match p with
  | Ret a => Some (a, w)
  | Vis e k => match h _ e w with Some (x, w') => prun h (k x) w' | None => None end
  | Panic _ => None
  end.

(** ** Protocols *)

Class Protocol (E : Type -> Type) (S : Type) := {
  pre : forall {X}, S -> E X -> Prop;
  post : forall {X}, S -> E X -> X -> S -> Prop
}.

(** [wp s p Q]: from [s], [p] never panics, never breaks its side of the
    protocol, and ends with a result and a state that satisfy [Q]. *)
Fixpoint wp {E S} `{Protocol E S} {A} (s : S) (p : prog E A) (Q : A -> S -> Prop) : Prop :=
  match p with
  | Ret a => Q a s
  | Vis e k => pre s e /\ forall x s', post s e x s' -> wp s' (k x) Q
  | Panic _ => False
  end.

(** A handler implements a protocol through a simulation [R] between its own
    world and the protocol's state. *)
Definition implements {E S W} `{Protocol E S} (h : handler E W) (R : W -> S -> Prop) : Prop :=
  forall X (e : E X) w s, R w s -> pre s e ->
    exists s', post s e (h X e w).1 s' /\ R (h X e w).2 s'.

(** ** Lemmas *)

Section Rules.
Context {E : Type -> Type} {S : Type} `{!Protocol E S}.

Lemma wp_mono {A} (p : prog E A) : forall s (Q Q' : A -> S -> Prop),
  wp s p Q -> (forall a s', Q a s' -> Q' a s') -> wp s p Q'.
Proof.
  induction p as [a|X e k IH|w]; simpl; intros s Q Q' H HQ; eauto.
  destruct H as [Hpre H]. split; eauto.
Qed.

Lemma wp_bind {A B} (p : prog E A) (f : A -> prog E B) : forall s (Q : B -> S -> Prop),
  wp s p (fun a s' => wp s' (f a) Q) -> wp s (p ≫= f) Q.
Proof.
  unfold mbind, prog_bind.
  induction p as [a|X e k IH|w]; simpl; intros s Q H; eauto.
  destruct H as [Hpre H]. split; eauto.
Qed.

Lemma wp_bind_inv {A B} (p : prog E A) (f : A -> prog E B) : forall s (Q : B -> S -> Prop),
  wp s (p ≫= f) Q -> wp s p (fun a s' => wp s' (f a) Q).
Proof.
  unfold mbind, prog_bind.
  induction p as [a|X e k IH|w]; simpl; intros s Q H; eauto.
  destruct H as [Hpre H]. split; eauto.
Qed.

Lemma wp_trigger {X} (e : E X) s (Q : X -> S -> Prop) :
  pre s e -> (forall x s', post s e x s' -> Q x s') -> wp s (trigger e) Q.
Proof. simpl. eauto. Qed.

(** Use of a lemma about a called function: its post-condition has to imply
    what the rest of the caller needs. *)
Lemma wp_call {A B} (p : prog E A) (f : A -> prog E B) s (P : A -> S -> Prop)
    (Q : B -> S -> Prop) :
  wp s p P -> (forall a s', P a s' -> wp s' (f a) Q) -> wp s (p ≫= f) Q.
Proof. intros Hp Hf. apply wp_bind. eapply wp_mono; eauto. Qed.

Lemma wp_conj {A} (p : prog E A) : forall s (Q1 Q2 : A -> S -> Prop),
  wp s p Q1 -> wp s p Q2 -> wp s p (fun a s' => Q1 a s' /\ Q2 a s').
Proof.
  induction p as [a|X e k IH|w]; simpl; intros s Q1 Q2 H1 H2; eauto.
  destruct H1 as [? H1], H2 as [? H2]. eauto.
Qed.

(** A loop invariant for [for_range]: it holds before each element, and the
    body either keeps it for the elements left or returns with [Q]. *)
Lemma wp_for_range {A R} (body : A -> prog E (option R)) (Q : option R -> S -> Prop)
    (I : list A -> S -> Prop) : forall l s,
  I l s ->
  (forall a l' s', I (a :: l') s' ->
     wp s' (body a) (fun r s'' => match r with Some v => Q (Some v) s'' | None => I l' s'' end)) ->
  (forall s', I [] s' -> Q None s') ->
  wp s (for_range l body) Q.
Proof.
  induction l as [|a l IH]; intros s HI Hbody Hend; simpl; [by auto|].
  eapply wp_call; [by apply Hbody|].
  intros [v|] s' HP; simpl; eauto.
Qed.

Theorem wp_run {W A} (h : handler E W) (R : W -> S -> Prop) (p : prog E A) :
  implements h R -> forall w s Q, R w s -> wp s p Q ->
  exists a s', (run h p w).1 = Some a /\ R (run h p w).2 s' /\ Q a s'.
Proof.
  intros Himp. induction p as [a|X e k IH|why]; simpl; intros w s Q HR Hwp.
  - eauto.
  - destruct Hwp as [Hpre Hk].
    destruct (Himp X e w s HR Hpre) as (s' & Hpost & HR').
    destruct (h X e w) as [x w'] eqn:Eh. simpl in *. eauto.
  - done.
Qed.

(** The same for a handler that keeps the protocol only while [ok] lasts, which
    once lost does not come back. *)
Theorem wp_run_while {W A} (h : handler E W) (ok : W -> Prop) (R : W -> S -> Prop) (p : prog E A) :
  (forall X (e : E X) w, ok (h X e w).2 -> ok w) ->
  (forall X (e : E X) w s, R w s -> pre s e -> ok (h X e w).2 ->
     exists s', post s e (h X e w).1 s' /\ R (h X e w).2 s') ->
  forall w s Q, R w s -> wp s p Q -> ok (run h p w).2 ->
  exists a s', (run h p w).1 = Some a /\ R (run h p w).2 s' /\ Q a s'.
Proof.
  intros Hback Himp.
  assert (Hok : forall A (p : prog E A) w, ok (run h p w).2 -> ok w).
  { intros A0 p0. induction p0 as [a|X e k IH|why]; simpl; intros w Hw; [done| |done].
    apply (Hback X e). destruct (h X e w) as [x w'] eqn:Eh. simpl. by eapply IH. }
  induction p as [a|X e k IH|why]; simpl; intros w s Q HR Hwp Hend.
  - eauto.
  - destruct Hwp as [Hpre Hk]. specialize (Himp X e w s HR Hpre).
    destruct (h X e w) as [x w'] eqn:Eh. simpl in *.
    destruct Himp as (s' & Hpost & HR'); [by eapply Hok|]. eauto.
  - done.
Qed.

End Rules.

Lemma run_bind {E W A B} (h : handler E W) (p : prog E A) (f : A -> prog E B) : forall w,
  run h (p ≫= f) w =
    match run h p w with (Some a, w') => run h (f a) w' | (None, w') => (None, w') end.
Proof.
  unfold mbind, prog_bind.
  induction p as [a|X e k IH|why]; simpl; intros w; try done.
  destruct (h X e w) as [x w']. apply IH.
Qed.

Lemma prun_bind {E W A B} (h : partial_handler E W) (p : prog E A) (f : A -> prog E B) : forall w,
  prun h (p ≫= f) w = match prun h p w with Some (a, w') => prun h (f a) w' | None => None end.
Proof.
  unfold mbind, prog_bind.
  induction p as [a|X e k IH|why]; simpl; intros w; try done.
  destruct (h X e w) as [[x w']|]; [apply IH|done].
Qed.

(** [wp_step] runs the events of the goal that are not calls of a function
    with a lemma of its own. *)
Ltac wp_event := apply wp_trigger; [|intros ? ? ?].
