(* ===== verification/Abi.v ===== *)
(** The ABI of the native library as the Go side sees it: [internal/ffi/ffi.go]
    and the calling conventions it cites from [rust/irohgo-ffi/src/ffi.rs].

    Every C function is an event.  The ABI's calling conventions are the
    families of the signature: asynchronous calls return an operation id
    ([CStart]); fallible synchronous calls return a status and a trailing error
    out-parameter around what they write ([answer]); frees return nothing.
    Library buffers are [cbuf]s: the pointer and the memory behind it. *)
From S2P Require Import Prelude GoErrors Prog.
Local Open Scope Z_scope.

(** ** Constants *)

(** [src/internal/ffi/ffi.go:23-23 ABIVersion] *)
Definition ABIVersion : Z := 5.

(** [src/internal/ffi/ffi.go:27-27 StatusOK] *)
Definition StatusOK : Z := 0.
(** [src/internal/ffi/ffi.go:28-28 StatusErr] *)
Definition StatusErr : Z := 1.
(** [src/internal/ffi/ffi.go:29-29 StatusCancelled] *)
Definition StatusCancelled : Z := 2.

(** [src/internal/ffi/ffi.go:33-48 KindInternal] The kinds as they cross the
    boundary, in declaration order. *)
Definition ffi_kinds : list (string * Z) :=
  imap (fun i name => (name, Z.of_nat i))
    ["KindInternal"; "KindInvalidInput"; "KindKeyParsing"; "KindTicketParsing";
     "KindBind"; "KindConnect"; "KindConnection"; "KindStream"; "KindDatagram";
     "KindAlpn"; "KindRelay"; "KindClosed"; "KindTimeout"; "KindCancelled"]%string.

(** [src/internal/ffi/ffi.go:52-52 PresetEmpty] *)
Definition ffi_PresetEmpty : Z := 0.
(** [src/internal/ffi/ffi.go:53-53 PresetMinimal] *)
Definition ffi_PresetMinimal : Z := 1.
(** [src/internal/ffi/ffi.go:54-54 PresetN0] *)
Definition ffi_PresetN0 : Z := 2.
(** [src/internal/ffi/ffi.go:55-55 PresetN0DisableRelay] *)
Definition ffi_PresetN0DisableRelay : Z := 3.
(** [src/internal/ffi/ffi.go:59-59 RelayDefault] *)
Definition ffi_RelayDefault : Z := 0.
(** [src/internal/ffi/ffi.go:60-60 RelayDisabled] *)
Definition ffi_RelayDisabled : Z := 1.
(** [src/internal/ffi/ffi.go:61-61 RelayStaging] *)
Definition ffi_RelayStaging : Z := 2.
(** [src/internal/ffi/ffi.go:62-62 RelayCustom] *)
Definition ffi_RelayCustom : Z := 3.

(** [src/internal/ffi/ffi.go:66-66 StatsLen] *)
Definition StatsLen : nat := 6.
(** [src/internal/ffi/ffi.go:69-69 NoStopCode] *)
Definition NoStopCode : Z := two64 - 1.

(** ** The function table *)

(** [src/internal/ffi/ffi.go:71-147 api] The fields of the [api] struct. *)
Inductive api_fn : Set :=
| f_abiVersion | f_irohVersion | f_initRuntime | f_setLogLevel | f_freeBytes
| f_handleCount | f_completionWait | f_completionWake | f_opCancel | f_opFree
| f_opResultHandle | f_opResultHandle2 | f_opResultU64 | f_opResultBytes
| f_opResultErr | f_errorTake | f_secretKeyGenerate | f_secretKeyPublic
| f_secretKeySign | f_endpointIDVerify | f_endpointIDFormat
| f_endpointIDParse | f_addrNormalize | f_ticketEncode | f_ticketDecode
| f_optionsNew | f_optionsFree | f_optionsSetSecretKey | f_optionsAddALPN
| f_optionsSetRelayMode | f_optionsAddRelayURL | f_optionsAddBindAddr
| f_endpointBind | f_endpointID | f_endpointAddr | f_endpointSockets
| f_endpointOnline | f_endpointHomeRelay | f_endpointRemoteInfo
| f_endpointConnect | f_endpointAccept | f_endpointClose | f_endpointFree
| f_connOpenBi | f_connAcceptBi | f_connOpenUni | f_connAcceptUni
| f_connSendDatagram | f_connReadDatagram | f_connMaxDatagramSize
| f_connRemoteID | f_connALPN | f_connStats | f_connPaths | f_connClose
| f_connClosed | f_connFree | f_sendWrite | f_sendFinish | f_sendReset
| f_sendSetPriority | f_sendStopped | f_sendFree | f_recvRead | f_recvStop
| f_recvFree.

#[export] Instance api_fn_eq_dec : EqDecision api_fn.
Proof. solve_decision. Defined.

(** Every field of the struct, in its order. *)
Definition api_fields : list api_fn := [
   f_abiVersion; f_irohVersion; f_initRuntime; f_setLogLevel; f_freeBytes;
   f_handleCount; f_completionWait; f_completionWake; f_opCancel; f_opFree;
   f_opResultHandle; f_opResultHandle2; f_opResultU64; f_opResultBytes;
   f_opResultErr; f_errorTake; f_secretKeyGenerate; f_secretKeyPublic;
   f_secretKeySign; f_endpointIDVerify; f_endpointIDFormat;
   f_endpointIDParse; f_addrNormalize; f_ticketEncode; f_ticketDecode;
   f_optionsNew; f_optionsFree; f_optionsSetSecretKey; f_optionsAddALPN;
   f_optionsSetRelayMode; f_optionsAddRelayURL; f_optionsAddBindAddr;
   f_endpointBind; f_endpointID; f_endpointAddr; f_endpointSockets;
   f_endpointOnline; f_endpointHomeRelay; f_endpointRemoteInfo;
   f_endpointConnect; f_endpointAccept; f_endpointClose; f_endpointFree;
   f_connOpenBi; f_connAcceptBi; f_connOpenUni; f_connAcceptUni;
   f_connSendDatagram; f_connReadDatagram; f_connMaxDatagramSize;
   f_connRemoteID; f_connALPN; f_connStats; f_connPaths; f_connClose;
   f_connClosed; f_connFree; f_sendWrite; f_sendFinish; f_sendReset;
   f_sendSetPriority; f_sendStopped; f_sendFree; f_recvRead; f_recvStop;
   f_recvFree ].

(** [src/internal/ffi/ffi.go:203-273 symbols] The symbol each field is bound
    to. *)
Definition symbols : list (string * api_fn) := ([
   ("iroh_abi_version", f_abiVersion); ("iroh_version", f_irohVersion);
   ("iroh_init", f_initRuntime); ("iroh_set_log_level", f_setLogLevel);
   ("iroh_free_bytes", f_freeBytes);
   ("iroh_debug_handle_count", f_handleCount);
   ("iroh_completion_wait", f_completionWait);
   ("iroh_completion_wake", f_completionWake); ("iroh_op_cancel", f_opCancel);
   ("iroh_op_free", f_opFree); ("iroh_op_result_handle", f_opResultHandle);
   ("iroh_op_result_handle2", f_opResultHandle2);
   ("iroh_op_result_u64", f_opResultU64);
   ("iroh_op_result_bytes", f_opResultBytes);
   ("iroh_op_result_err", f_opResultErr); ("iroh_error_take", f_errorTake);
   ("iroh_secret_key_generate", f_secretKeyGenerate);
   ("iroh_secret_key_public", f_secretKeyPublic);
   ("iroh_secret_key_sign", f_secretKeySign);
   ("iroh_endpoint_id_verify", f_endpointIDVerify);
   ("iroh_endpoint_id_format", f_endpointIDFormat);
   ("iroh_endpoint_id_parse", f_endpointIDParse);
   ("iroh_addr_normalize", f_addrNormalize);
   ("iroh_ticket_encode", f_ticketEncode);
   ("iroh_ticket_decode", f_ticketDecode); ("iroh_options_new", f_optionsNew);
   ("iroh_options_free", f_optionsFree);
   ("iroh_options_set_secret_key", f_optionsSetSecretKey);
   ("iroh_options_add_alpn", f_optionsAddALPN);
   ("iroh_options_set_relay_mode", f_optionsSetRelayMode);
   ("iroh_options_add_relay_url", f_optionsAddRelayURL);
   ("iroh_options_add_bind_addr", f_optionsAddBindAddr);
   ("iroh_endpoint_bind", f_endpointBind); ("iroh_endpoint_id", f_endpointID);
   ("iroh_endpoint_addr", f_endpointAddr);
   ("iroh_endpoint_bound_sockets", f_endpointSockets);
   ("iroh_endpoint_online", f_endpointOnline);
   ("iroh_endpoint_home_relay", f_endpointHomeRelay);
   ("iroh_endpoint_remote_info", f_endpointRemoteInfo);
   ("iroh_endpoint_connect", f_endpointConnect);
   ("iroh_endpoint_accept", f_endpointAccept);
   ("iroh_endpoint_close", f_endpointClose);
   ("iroh_endpoint_free", f_endpointFree);
   ("iroh_conn_open_bi", f_connOpenBi);
   ("iroh_conn_accept_bi", f_connAcceptBi);
   ("iroh_conn_open_uni", f_connOpenUni);
   ("iroh_conn_accept_uni", f_connAcceptUni);
   ("iroh_conn_send_datagram", f_connSendDatagram);
   ("iroh_conn_read_datagram", f_connReadDatagram);
   ("iroh_conn_max_datagram_size", f_connMaxDatagramSize);
   ("iroh_conn_remote_id", f_connRemoteID); ("iroh_conn_alpn", f_connALPN);
   ("iroh_conn_stats", f_connStats); ("iroh_conn_paths", f_connPaths);
   ("iroh_conn_close", f_connClose); ("iroh_conn_closed", f_connClosed);
   ("iroh_conn_free", f_connFree); ("iroh_send_write", f_sendWrite);
   ("iroh_send_finish", f_sendFinish); ("iroh_send_reset", f_sendReset);
   ("iroh_send_set_priority", f_sendSetPriority);
   ("iroh_send_stopped", f_sendStopped); ("iroh_send_free", f_sendFree);
   ("iroh_recv_read", f_recvRead); ("iroh_recv_stop", f_recvStop);
   ("iroh_recv_free", f_recvFree) ])%string.

(** The name the field [f] is bound to by the registration loop of [load]. *)
Definition bound_symbol (f : api_fn) : option string :=
  fst <$> find (fun p => bool_decide (p.2 = f)) symbols.

(** ** Data that crosses the boundary *)

(** A buffer the library allocated: its address and its contents.  Its length,
    which crosses as a separate [uintptr], is the length of the contents. *)
Record cbuf : Set := mkBuf { buf_ptr : Z; buf_data : bytes }.
Definition buf_len (b : cbuf) : Z := Z.of_nat (length (buf_data b)).
Definition nil_buf : cbuf := mkBuf 0 [].

(** [unsafe.Pointer(&b[0])], [len(b)]: the memory an input buffer exposes. An
    empty slice is the null pointer with length zero. *)
Abbreviation answer X := (Z * X * Z)%type (only parsing).

(** Calls that start an operation and return its id. *)
Inductive startcall : Set :=
| endpointBind (options : Z)
| endpointOnline (h : Z)
| endpointRemoteInfo (h : Z) (id : bytes)
| endpointConnect (h : Z) (addr alpn : bytes)
| endpointAccept (h : Z)
| endpointClose (h : Z)
| connOpenBi (h : Z) | connAcceptBi (h : Z) | connOpenUni (h : Z) | connAcceptUni (h : Z)
| connReadDatagram (h : Z)
| connClosed (h : Z)
| sendWrite (h : Z) (data : bytes)
| sendFinish (h : Z)
| sendReset (h code : Z)
| sendSetPriority (h priority : Z)
| sendStopped (h : Z)
| recvRead (h maxLen : Z)
| recvStop (h code : Z).

(** Fallible synchronous calls with no result beyond their status. *)
Inductive unitcall : Set :=
| endpointIDVerify (id msg sig : bytes)
| optionsSetSecretKey (h : Z) (key : bytes)
| optionsAddALPN (h : Z) (alpn : bytes)
| optionsSetRelayMode (h mode : Z)
| optionsAddRelayURL (h : Z) (url : bytes)
| optionsAddBindAddr (h : Z) (addr : bytes)
| connSendDatagram (h : Z) (data : bytes)
| connClose (h code : Z) (reason : bytes).

(** Fallible synchronous calls that hand out a buffer. *)
Inductive textcall : Set :=
| endpointIDFormat (id : bytes)
| addrNormalize (text : bytes) | ticketEncode (text : bytes) | ticketDecode (s : bytes)
| endpointAddr (h : Z) | endpointSockets (h : Z) | endpointHomeRelay (h : Z)
| connALPN (h : Z) | connPaths (h : Z).

(** Fallible synchronous calls that fill an array of the caller. *)
Inductive outcall : Set :=
| secretKeyPublic (key : bytes)
| secretKeySign (key msg : bytes)
| endpointIDParse (s : bytes)
| endpointID (h : Z)
| connRemoteID (h : Z).

(** Calls that drop an object. *)
Inductive freecall : Set :=
| optionsFree (h : Z) | endpointFree (h : Z) | connFree (h : Z)
| sendFree (h : Z) | recvFree (h : Z).

Definition freed_handle (f : freecall) : Z :=
  match f with
  | optionsFree h | endpointFree h | connFree h | sendFree h | recvFree h => h
  end.

(** The C functions, answered with what they return and write. *)
Inductive cE : Type -> Type :=
| abiVersion : cE Z
| irohVersion : cE cbuf
| initRuntime : cE Z
| setLogLevel (level : Z) : cE Z
| freeBytes (ptr len : Z) : cE unit
| handleCount : cE Z
| completionWait (timeoutMS : Z) : cE (Z * Z * Z)
| completionWake : cE unit
| opCancel (op : Z) : cE unit
| opFree (op : Z) : cE unit
| opResultHandle (op : Z) : cE (answer Z)
| opResultHandle2 (op : Z) : cE (answer (Z * Z))
| opResultU64 (op : Z) : cE (answer Z)
| opResultBytes (op : Z) : cE (answer (cbuf * Z))
| opResultErr (op : Z) : cE (answer unit)
| errorTake (err : Z) : cE (Z * cbuf)
| secretKeyGenerate : cE bytes
| optionsNew (preset : Z) : cE Z
| connMaxDatagramSize (h : Z) : cE (answer Z)
| connStats (h cap : Z) : cE (answer (list Z))
| CStart (f : startcall) : cE Z
| CUnit (f : unitcall) : cE (answer unit)
| CText (f : textcall) : cE (answer cbuf)
| COut (f : outcall) : cE (answer bytes)
| CFree (f : freecall) : cE unit.

(** The field of [api] an event calls through. *)
Definition start_fn (f : startcall) : api_fn :=
  match f with
  | endpointBind _ => f_endpointBind | endpointOnline _ => f_endpointOnline
  | endpointRemoteInfo _ _ => f_endpointRemoteInfo
  | endpointConnect _ _ _ => f_endpointConnect | endpointAccept _ => f_endpointAccept
  | endpointClose _ => f_endpointClose
  | connOpenBi _ => f_connOpenBi | connAcceptBi _ => f_connAcceptBi
  | connOpenUni _ => f_connOpenUni | connAcceptUni _ => f_connAcceptUni
  | connReadDatagram _ => f_connReadDatagram | connClosed _ => f_connClosed
  | sendWrite _ _ => f_sendWrite | sendFinish _ => f_sendFinish
  | sendReset _ _ => f_sendReset | sendSetPriority _ _ => f_sendSetPriority
  | sendStopped _ => f_sendStopped | recvRead _ _ => f_recvRead
  | recvStop _ _ => f_recvStop
  end.
Definition unit_fn (f : unitcall) : api_fn :=
  match f with
  | endpointIDVerify _ _ _ => f_endpointIDVerify
  | optionsSetSecretKey _ _ => f_optionsSetSecretKey
  | optionsAddALPN _ _ => f_optionsAddALPN
  | optionsSetRelayMode _ _ => f_optionsSetRelayMode
  | optionsAddRelayURL _ _ => f_optionsAddRelayURL
  | optionsAddBindAddr _ _ => f_optionsAddBindAddr
  | connSendDatagram _ _ => f_connSendDatagram | connClose _ _ _ => f_connClose
  end.
Definition text_fn (f : textcall) : api_fn :=
  match f with
  | endpointIDFormat _ => f_endpointIDFormat | addrNormalize _ => f_addrNormalize
  | ticketEncode _ => f_ticketEncode | ticketDecode _ => f_ticketDecode
  | endpointAddr _ => f_endpointAddr | endpointSockets _ => f_endpointSockets
  | endpointHomeRelay _ => f_endpointHomeRelay | connALPN _ => f_connALPN
  | connPaths _ => f_connPaths
  end.
Definition out_fn (f : outcall) : api_fn :=
  match f with
  | secretKeyPublic _ => f_secretKeyPublic | secretKeySign _ _ => f_secretKeySign
  | endpointIDParse _ => f_endpointIDParse | endpointID _ => f_endpointID
  | connRemoteID _ => f_connRemoteID
  end.
Definition free_fn (f : freecall) : api_fn :=
  match f with
  | optionsFree _ => f_optionsFree | endpointFree _ => f_endpointFree
  | connFree _ => f_connFree | sendFree _ => f_sendFree | recvFree _ => f_recvFree
  end.
Definition called_fn {X} (e : cE X) : api_fn :=
  match e with
  | abiVersion => f_abiVersion | irohVersion => f_irohVersion
  | initRuntime => f_initRuntime | setLogLevel _ => f_setLogLevel
  | freeBytes _ _ => f_freeBytes | handleCount => f_handleCount
  | completionWait _ => f_completionWait | completionWake => f_completionWake
  | opCancel _ => f_opCancel | opFree _ => f_opFree
  | opResultHandle _ => f_opResultHandle | opResultHandle2 _ => f_opResultHandle2
  | opResultU64 _ => f_opResultU64 | opResultBytes _ => f_opResultBytes
  | opResultErr _ => f_opResultErr | errorTake _ => f_errorTake
  | secretKeyGenerate => f_secretKeyGenerate | optionsNew _ => f_optionsNew
  | connMaxDatagramSize _ => f_connMaxDatagramSize | connStats _ _ => f_connStats
  | CStart f => start_fn f | CUnit f => unit_fn f | CText f => text_fn f
  | COut f => out_fn f | CFree f => free_fn f
  end.

(** ** The Go run time

    Events on shared Go objects.  An object is named by an address; the handle
    cell, mutex and deadline of a stream share the stream's.  A [time.Time] is
    [None] when zero and otherwise an instant in nanoseconds. *)
Abbreviation gotime := (option Z).

Inductive rtE : Type -> Type :=
| RNew : rtE Z                                   (* &T{...} *)
| RLoad : rtE error                              (* Load() *)
| RShutdownGuard : rtE (error * bool)            (* loadErr, completionWake != nil *)
| RRegister (op : Z) : rtE Z                     (* register(op) *)
| RSelect (ch ctx : Z) : rtE (Z + unit)          (* select over ch and ctx.Done() *)
| RRecv (ch : Z) : rtE Z                         (* <-ch *)
| RCtxErr (ctx : Z) : rtE error                  (* ctx.Err() *)
| RStore (o v : Z) : rtE unit                    (* h.v.Store(v) *)
| RLoadHandle (o : Z) : rtE Z                    (* h.v.Load() *)
| RSwap (o v : Z) : rtE Z                        (* h.v.Swap(v) *)
| RAddCleanup (o : Z) (f : freecall) : rtE unit  (* runtime.AddCleanup(o, f) *)
| RLock (m : Z) : rtE unit
| RUnlock (m : Z) : rtE unit
| RArm (d : Z) : rtE (Z * Z)                     (* d.arm(): context, registration *)
| RRelease (d id : Z) : rtE unit                 (* the release func of arm *)
| RSetDeadline (d : Z) (t : gotime) : rtE unit   (* d.set(t) *)
| RGetRemote (o : Z) : rtE bytes                 (* c.remote *)
| RSetRemote (o : Z) (id : bytes) : rtE unit.

Inductive goE : Type -> Type :=
| C {X} (e : cE X) : goE X
| R {X} (e : rtE X) : goE X.

Abbreviation go := (prog goE).
Definition call {X} (e : cE X) : go X := trigger (C e).
Definition rt {X} (e : rtE X) : go X := trigger (R e).

(** ** Lemmas *)

Lemma symbols_names_NoDup : NoDup (symbols.*1).
Proof. apply (bool_decide_unpack _). vm_compute. exact I. Qed.

Lemma symbols_fields_NoDup : NoDup (symbols.*2).
Proof. apply (bool_decide_unpack _). vm_compute. exact I. Qed.

Lemma symbols_cover f : f ∈ symbols.*2.
Proof. destruct f; apply (bool_decide_unpack _); vm_compute; exact I. Qed.

(** In a table whose keys are distinct, a key has one row. *)
Lemma NoDup_fmap_row {A B} (g : A -> B) (l : list A) x y :
  NoDup (g <$> l) -> x ∈ l -> y ∈ l -> g x = g y -> x = y.
Proof.
  intros Hnd Hx Hy Hg.
  apply list_elem_of_lookup in Hx as [i Hi], Hy as [j Hj].
  assert (E1 : (g <$> l) !! i = Some (g x)) by by rewrite list_lookup_fmap, Hi.
  assert (E2 : (g <$> l) !! j = Some (g x)) by by rewrite list_lookup_fmap, Hj, Hg.
  pose proof (NoDup_lookup _ _ _ _ Hnd E1 E2). by simplify_eq.
Qed.

Lemma bound_symbol_spec f : exists name, bound_symbol f = Some name /\ (name, f) ∈ symbols.
Proof.
  unfold bound_symbol. destruct (find _ symbols) as [[name f']|] eqn:E.
  - apply find_some in E as [Hin Hf]. apply bool_decide_eq_true in Hf. simpl in Hf. subst.
    exists name. split; [done|]. by apply list_elem_of_In.
  - exfalso. pose proof (symbols_cover f) as Hf.
    apply list_elem_of_fmap in Hf as ([n f'] & -> & Hin). apply list_elem_of_In in Hin.
    pose proof (find_none _ _ E _ Hin) as Hn. by apply bool_decide_eq_false in Hn.
Qed.

(** ** Properties *)

(** The symbol table is a bijection between the fields of the function
    table and the names bound: every field is bound, to the one name the table
    pairs with it, no name is bound twice, and so no call of the package goes
    through a nil function pointer once the table is registered. *)
Theorem symbols_bind_every_field :
  (forall f : api_fn, exists name, bound_symbol f = Some name /\ (name, f) ∈ symbols) /\
  (forall r1 r2, r1 ∈ symbols -> r2 ∈ symbols -> r1.1 = r2.1 \/ r1.2 = r2.2 -> r1 = r2) /\
  (forall X (e : cE X), is_Some (bound_symbol (called_fn e))).
Proof.
  split; [exact bound_symbol_spec|]. split.
  - intros r1 r2 H1 H2 [E|E].
    + eapply NoDup_fmap_row; eauto using symbols_names_NoDup.
    + eapply NoDup_fmap_row; eauto using symbols_fields_NoDup.
  - intros X e. destruct (bound_symbol_spec (called_fn e)) as (n & -> & _). eauto.
Qed.

Example symbols_bind_every_field_witness :
  ("iroh_send_write", f_sendWrite)%string = ("iroh_send_write", f_sendWrite)%string.
Proof.
  apply (proj1 (proj2 symbols_bind_every_field)).
  - apply (bool_decide_unpack _). vm_compute. exact I.
  - apply (bool_decide_unpack _). vm_compute. exact I.
  - left. reflexivity.
Defined.
