(* ===== verification/Contract.v ===== *)
(** The contract of the ABI, as a protocol for one goroutine.

    The state [owned] is what the goroutine owes the library and what the
    library owes it: the operations it has started, the buffers and error
    handles it must release, the options and library objects it holds, the
    locks and deadline registrations it has taken.  The [pre] half is the
    obligations of the Go code (an operation's result is collected once, with
    the collector of its kind, and only after its completion was seen; nothing
    is freed twice or with the wrong length; [Bind] is given options; pointers of fixed-size arguments
    cover the memory the library reads).  The [post] half is what the library
    documents in [rust/irohgo-ffi/src/{ffi,ops,stream}.rs]: ids of live
    objects are fresh, statuses are those of [error.rs], a completed write took
    the prefix it reports and a cancelled one nothing, a read returns no more
    than was asked for.  Ids are counted up from 1 by one 64-bit counter
    ([registry.rs]); the contract takes it never to have wrapped, so that a new
    id is a positive number not in use. *)
From S2P Require Import Prelude GoErrors Prog Abi.
Local Open Scope Z_scope.

(** ** Operations *)

(** What an operation yields when it succeeds. *)
Inductive opkind : Set :=
| KUnit | KHandle | KHandle2 | KU64 | KBytes
| KWrite (h : Z) (data : bytes)
| KRead (h maxLen : Z).

(** [OpValue] of [ops.rs]; [VNone] stands for an [Err]. *)
Inductive opvalue : Set :=
| VUnit | VHandle (h : Z) | VHandle2 (a b : Z) | VU64 (v : Z) | VBytes (b : bytes) | VEof
| VNone.

Inductive opst : Set :=
| OpRunning (k : opkind)
| OpWaiting (k : opkind)
| OpDone (k : opkind) (status : Z) (v : opvalue)
| OpTaken.

Definition kind_of (f : startcall) : opkind :=
  match f with
  | endpointBind _ | endpointConnect _ _ _ | endpointAccept _
  | connOpenUni _ | connAcceptUni _ => KHandle
  | connOpenBi _ | connAcceptBi _ => KHandle2
  | endpointOnline _ | endpointClose _ | sendFinish _ | sendReset _ _
  | sendSetPriority _ _ | recvStop _ _ => KUnit
  | endpointRemoteInfo _ _ | connReadDatagram _ | connClosed _ => KBytes
  | sendStopped _ => KU64
  | sendWrite h data => KWrite h data
  | recvRead h m => KRead h m
  end.

(** The value a successful operation of each kind carries. *)
Definition value_ok (k : opkind) (v : opvalue) : Prop :=
  match k, v with
  | KUnit, VUnit => True
  | KHandle, VHandle h => 0 < h
  | KHandle2, VHandle2 a b => 0 < a /\ 0 < b /\ a <> b
  | KU64, VU64 n => 0 <= n < two64
  | KBytes, VBytes b => Z.of_nat (length b) < two63
  | KWrite _ data, VU64 n => 0 <= n <= Z.of_nat (length data)
  | KRead _ m, VBytes b => Z.of_nat (length b) <= m
  | KRead _ _, VEof => True
  | _, _ => False
  end.
Definition outcome_ok (k : opkind) (status : Z) (v : opvalue) : Prop :=
  if decide (status = StatusOK) then value_ok k v
  else (status = StatusErr \/ status = StatusCancelled) /\ v = VNone.

(** ** What a goroutine owns *)

Inductive ctxst : Set :=
| CtxUser                    (* a context of the caller, not done yet *)
| CtxArmed                   (* a context armed by a deadline, not done yet *)
| CtxDone (e : sentinel).

Record owned := mkOwned {
  o_loaded : bool;           (* Load has succeeded *)
  o_ops : gmap Z opst;       (* operations started and not freed *)
  o_chans : gmap Z Z;        (* channels registered, and their operation *)
  o_bufs : gmap Z Z;         (* library buffers to free, with their length *)
  o_errs : gset Z;           (* error handles to take *)
  o_handles : gset Z;        (* library objects to free or hand to a Go object *)
  o_opts : gset Z;           (* the handles that were given out for options *)
  o_locks : gset Z;          (* mutexes held *)
  o_armed : gset (Z * Z);    (* deadline registrations to release *)
  o_ctx : gmap Z ctxst;      (* contexts in use *)
  o_changes : nat;           (* deadline changes still to come *)
  o_sent : gmap Z bytes;     (* bytes each send stream accepted *)
  o_rcvd : gmap Z bytes;     (* bytes taken off each receive stream *)
  o_objs : gmap Z Z          (* the library object behind each Go object *)
}.

Definition set_loaded x s := mkOwned x (o_ops s) (o_chans s) (o_bufs s) (o_errs s) (o_handles s) (o_opts s) (o_locks s) (o_armed s) (o_ctx s) (o_changes s) (o_sent s) (o_rcvd s) (o_objs s).
Definition set_ops x s := mkOwned (o_loaded s) x (o_chans s) (o_bufs s) (o_errs s) (o_handles s) (o_opts s) (o_locks s) (o_armed s) (o_ctx s) (o_changes s) (o_sent s) (o_rcvd s) (o_objs s).
Definition set_chans x s := mkOwned (o_loaded s) (o_ops s) x (o_bufs s) (o_errs s) (o_handles s) (o_opts s) (o_locks s) (o_armed s) (o_ctx s) (o_changes s) (o_sent s) (o_rcvd s) (o_objs s).
Definition set_bufs x s := mkOwned (o_loaded s) (o_ops s) (o_chans s) x (o_errs s) (o_handles s) (o_opts s) (o_locks s) (o_armed s) (o_ctx s) (o_changes s) (o_sent s) (o_rcvd s) (o_objs s).
Definition set_errs x s := mkOwned (o_loaded s) (o_ops s) (o_chans s) (o_bufs s) x (o_handles s) (o_opts s) (o_locks s) (o_armed s) (o_ctx s) (o_changes s) (o_sent s) (o_rcvd s) (o_objs s).
Definition set_handles x s := mkOwned (o_loaded s) (o_ops s) (o_chans s) (o_bufs s) (o_errs s) x (o_opts s) (o_locks s) (o_armed s) (o_ctx s) (o_changes s) (o_sent s) (o_rcvd s) (o_objs s).
Definition set_opts x s := mkOwned (o_loaded s) (o_ops s) (o_chans s) (o_bufs s) (o_errs s) (o_handles s) x (o_locks s) (o_armed s) (o_ctx s) (o_changes s) (o_sent s) (o_rcvd s) (o_objs s).
Definition set_locks x s := mkOwned (o_loaded s) (o_ops s) (o_chans s) (o_bufs s) (o_errs s) (o_handles s) (o_opts s) x (o_armed s) (o_ctx s) (o_changes s) (o_sent s) (o_rcvd s) (o_objs s).
Definition set_armed x s := mkOwned (o_loaded s) (o_ops s) (o_chans s) (o_bufs s) (o_errs s) (o_handles s) (o_opts s) (o_locks s) x (o_ctx s) (o_changes s) (o_sent s) (o_rcvd s) (o_objs s).
Definition set_ctx x s := mkOwned (o_loaded s) (o_ops s) (o_chans s) (o_bufs s) (o_errs s) (o_handles s) (o_opts s) (o_locks s) (o_armed s) x (o_changes s) (o_sent s) (o_rcvd s) (o_objs s).
Definition set_changes x s := mkOwned (o_loaded s) (o_ops s) (o_chans s) (o_bufs s) (o_errs s) (o_handles s) (o_opts s) (o_locks s) (o_armed s) (o_ctx s) x (o_sent s) (o_rcvd s) (o_objs s).
Definition set_sent x s := mkOwned (o_loaded s) (o_ops s) (o_chans s) (o_bufs s) (o_errs s) (o_handles s) (o_opts s) (o_locks s) (o_armed s) (o_ctx s) (o_changes s) x (o_rcvd s) (o_objs s).
Definition set_rcvd x s := mkOwned (o_loaded s) (o_ops s) (o_chans s) (o_bufs s) (o_errs s) (o_handles s) (o_opts s) (o_locks s) (o_armed s) (o_ctx s) (o_changes s) (o_sent s) x (o_objs s).
Definition set_objs x s := mkOwned (o_loaded s) (o_ops s) (o_chans s) (o_bufs s) (o_errs s) (o_handles s) (o_opts s) (o_locks s) (o_armed s) (o_ctx s) (o_changes s) (o_sent s) (o_rcvd s) x.

Definition sent_on (h : Z) (s : owned) : bytes := default [] (o_sent s !! h).
Definition rcvd_on (h : Z) (s : owned) : bytes := default [] (o_rcvd s !! h).

Definition add_op op st s := set_ops (<[op := st]> (o_ops s)) s.
Definition drop_op op s := set_ops (delete op (o_ops s)) s.
Definition add_handles hs s := set_handles (list_to_set hs ∪ o_handles s) s.
Definition add_options h s := set_opts ({[h]} ∪ o_opts s) (add_handles [h] s).
Definition drop_handle h s := set_handles (o_handles s ∖ {[h]}) s.

(** The effect of a completion on the streams. *)
Definition apply_effect (k : opkind) (v : opvalue) (s : owned) : owned :=
  match k, v with
  | KWrite h data, VU64 n =>
      set_sent (<[h := sent_on h s ++ take (Z.to_nat n) data]> (o_sent s)) s
  | KRead h _, VBytes b => set_rcvd (<[h := rcvd_on h s ++ b]> (o_rcvd s)) s
  | _, _ => s
  end.

(** The completion of the operation behind channel [ch] is received. *)
Definition completes (s : owned) (ch status : Z) (s' : owned) : Prop :=
  exists op k v,
    o_chans s !! ch = Some op /\ o_ops s !! op = Some (OpWaiting k) /\
    outcome_ok k status v /\
    s' = apply_effect k v
           (set_chans (delete ch (o_chans s)) (add_op op (OpDone k status v) s)).

(** [context.Background()], which is never done. *)
Definition background : Z := 0.

(** Context [ctx] is found done, with error [e].  One that was armed ends
    either because its deadline passed or because the deadline was changed under
    it, and each change of the deadline ends it once.  [c], [n] are the contexts
    and the changes to come before, [c'], [n'] after. *)
Definition ctx_fires (c : gmap Z ctxst) (n : nat) (ctx : Z) (e : sentinel)
    (c' : gmap Z ctxst) (n' : nat) : Prop :=
  ctx <> background /\
  (e = CtxCanceled \/ e = CtxDeadlineExceeded) /\ c' = <[ctx := CtxDone e]> c /\
  match c !! ctx with
  | Some (CtxDone e') => e = e' /\ n' = n
  | Some CtxArmed => if decide (e = CtxCanceled) then n = S n' else n' = n
  | _ => n' = n
  end.

Definition upd_ctx (c : gmap Z ctxst) (n : nat) (s : owned) : owned :=
  set_ctx c (set_changes n s).

Definition fires (s : owned) (ctx : Z) (e : sentinel) (s' : owned) : Prop :=
  exists c n, ctx_fires (o_ctx s) (o_changes s) ctx e c n /\ s' = upd_ctx c n s.

(** What waiting under [ctx] may have done to the contexts. *)
Definition waited (s : owned) (ctx : Z) (s' : owned) : Prop :=
  s' = s \/ exists e, fires s ctx e s'.

(** A buffer handed out: null exactly when empty, and otherwise at an address
    that is not in use. *)
Definition gets_buf (s : owned) (b : cbuf) (s' : owned) : Prop :=
  (buf_ptr b = 0 <-> buf_data b = []) /\ 0 <= buf_len b < two63 /\
  (buf_data b <> [] -> o_bufs s !! buf_ptr b = None) /\
  s' = if decide (buf_data b = []) then s
       else set_bufs (<[buf_ptr b := buf_len b]> (o_bufs s)) s.

(** An error out-parameter: zero, or a fresh error handle. *)
Definition gets_err (s : owned) (e : Z) (s' : owned) : Prop :=
  0 <= e /\ (e <> 0 -> e ∉ o_errs s) /\
  s' = if decide (e = 0) then s else set_errs ({[e]} ∪ o_errs s) s.

(** Status and error of a fallible call: no error handle on success. *)
Definition gets_rc (s : owned) (rc e : Z) (s' : owned) : Prop :=
  if decide (rc = 0) then e = 0 /\ s' = s else gets_err s e s'.

(** A fallible call that hands out a buffer. *)
Definition gets_text (s : owned) (rc : Z) (b : cbuf) (e : Z) (s' : owned) : Prop :=
  if decide (rc = 0) then e = 0 /\ gets_buf s b s'
  else b = nil_buf /\ gets_err s e s'.

(** Whether collecting the result of a completed operation can still fail.
    Stream reads and writes must not: the bytes have already moved. *)
Definition may_fail (k : opkind) : Prop :=
  match k with KWrite _ _ | KRead _ _ => False | _ => True end.

(** Collecting a result: the value, or (for the kinds that may) an error. *)
Definition collects (s : owned) (op : Z) (k : opkind) (rc e : Z)
    (ok : owned -> owned -> Prop) (s' : owned) : Prop :=
  (rc = 0 /\ e = 0 /\ ok (add_op op OpTaken s) s') \/
  (rc <> 0 /\ may_fail k /\ gets_err (add_op op OpTaken s) e s').

(** ** Obligations *)

Definition live_op (s : owned) (op : Z) : Prop := is_Some (o_ops s !! op).

(** An operation is freed once it is over and holds no library object: freeing
    one that does can block ([ShimRefines.free_of_unclaimed_handle_blocks]). *)
Definition emptied (st : opst) : Prop :=
  match st with
  | OpTaken => True
  | OpDone _ _ v => match v with VHandle _ | VHandle2 _ _ => False | _ => True end
  | _ => False
  end.

Definition start_pre (s : owned) (f : startcall) : Prop :=
  match f with
  | endpointBind options => options ∈ o_handles s /\ options ∈ o_opts s
  | endpointRemoteInfo h id => h <> 0 /\ length id = 32%nat
  | recvRead h m => h <> 0 /\ 0 < m < two63
  | endpointOnline h | endpointConnect h _ _ | endpointAccept h | endpointClose h
  | connOpenBi h | connAcceptBi h | connOpenUni h | connAcceptUni h
  | connReadDatagram h | connClosed h | sendWrite h _ | sendFinish h
  | sendReset h _ | sendSetPriority h _ | sendStopped h | recvStop h _ => h <> 0
  end.

Definition unit_pre (f : unitcall) : Prop :=
  match f with
  | endpointIDVerify id _ sig => length id = 32%nat /\ length sig = 64%nat
  | optionsSetSecretKey h key => h <> 0 /\ length key = 32%nat
  | optionsAddALPN h _ | optionsSetRelayMode h _ | optionsAddRelayURL h _
  | optionsAddBindAddr h _ | connSendDatagram h _ | connClose h _ _ => h <> 0
  end.

Definition text_pre (f : textcall) : Prop :=
  match f with
  | endpointIDFormat id => length id = 32%nat
  | addrNormalize _ | ticketEncode _ | ticketDecode _ => True
  | endpointAddr h | endpointSockets h | endpointHomeRelay h | connALPN h | connPaths h => h <> 0
  end.

Definition out_pre (f : outcall) : Prop :=
  match f with
  | secretKeyPublic key | secretKeySign key _ => length key = 32%nat
  | endpointIDParse _ => True
  | endpointID h | connRemoteID h => h <> 0
  end.

(** The size of the array the library fills. *)
Definition out_size (f : outcall) : nat :=
  match f with secretKeySign _ _ => 64 | _ => 32 end.

Definition c_pre {X} (s : owned) (e : cE X) : Prop :=
  match e with
  | abiVersion => True
  | completionWait _ => False                   (* the pump's alone *)
  | freeBytes ptr len => o_loaded s = true /\ o_bufs s !! ptr = Some len
  | opCancel op => o_loaded s = true /\ live_op s op
  | opFree op => o_loaded s = true /\ exists st, o_ops s !! op = Some st /\ emptied st
  | opResultHandle op => o_loaded s = true /\ (exists h, o_ops s !! op = Some (OpDone KHandle StatusOK (VHandle h)))
  | opResultHandle2 op => o_loaded s = true /\ exists a b, o_ops s !! op = Some (OpDone KHandle2 StatusOK (VHandle2 a b))
  | opResultU64 op => o_loaded s = true /\ exists k v, o_ops s !! op = Some (OpDone k StatusOK (VU64 v))
  | opResultBytes op => o_loaded s = true /\ exists k v, o_ops s !! op = Some (OpDone k StatusOK v) /\
      (match v with VBytes _ | VEof => True | _ => False end)
  | opResultErr op => o_loaded s = true /\ exists k st, o_ops s !! op = Some (OpDone k st VNone) /\ st <> StatusOK
  | errorTake err => o_loaded s = true /\ err ∈ o_errs s
  | irohVersion | initRuntime | setLogLevel _ | handleCount | completionWake
  | secretKeyGenerate | optionsNew _ => o_loaded s = true
  | connMaxDatagramSize h => o_loaded s = true /\ h <> 0
  | connStats h cap => o_loaded s = true /\ h <> 0 /\ cap = Z.of_nat StatsLen
  | CStart f => o_loaded s = true /\ start_pre s f
  | CUnit f => o_loaded s = true /\ unit_pre f
  | CText f => o_loaded s = true /\ text_pre f
  | COut f => o_loaded s = true /\ out_pre f
  | CFree f => o_loaded s = true /\ freed_handle f ∈ o_handles s
  end.

(** ** Guarantees *)

(** Starting an operation: zero (it could not be started), or a fresh id. Bind
    consumes its options either way. *)
Definition starts (s : owned) (f : startcall) (op : Z) (s' : owned) : Prop :=
  let s1 := match f with endpointBind o => drop_handle o s | _ => s end in
  0 <= op /\
  (op = 0 /\ s' = s1 \/
   op <> 0 /\ o_ops s !! op = None /\ s' = add_op op (OpRunning (kind_of f)) s1).

Definition fresh_handles (s : owned) (hs : list Z) : Prop :=
  Forall (fun h => h ∉ o_handles s) hs.

Definition c_post {X} (s : owned) (e : cE X) : X -> owned -> Prop :=
  match e in cE X return X -> owned -> Prop with
  | abiVersion => fun v s' => 0 <= v < two64 /\ s' = s
  | irohVersion => fun b s' => gets_buf s b s'
  | initRuntime | setLogLevel _ => fun rc s' => s' = s
  | handleCount => fun n s' => 0 <= n < two64 /\ s' = s
  | completionWait _ => fun _ s' => s' = s
  | completionWake => fun _ s' => s' = s
  | freeBytes ptr _ => fun _ s' => s' = set_bufs (delete ptr (o_bufs s)) s
  | opCancel _ => fun _ s' => s' = s
  | opFree op => fun _ s' => s' = drop_op op s
  | opResultHandle op => fun '(rc, h, e) s' =>
      exists h0, o_ops s !! op = Some (OpDone KHandle StatusOK (VHandle h0)) /\
        collects s op KHandle rc e
          (fun s1 s2 => h = h0 /\ fresh_handles s1 [h] /\ s2 = add_handles [h] s1) s'
  | opResultHandle2 op => fun '(rc, (a, b), e) s' =>
      exists a0 b0, o_ops s !! op = Some (OpDone KHandle2 StatusOK (VHandle2 a0 b0)) /\
        collects s op KHandle2 rc e
          (fun s1 s2 => a = a0 /\ b = b0 /\ fresh_handles s1 [a; b] /\ s2 = add_handles [a; b] s1) s'
  | opResultU64 op => fun '(rc, v, e) s' =>
      exists k v0, o_ops s !! op = Some (OpDone k StatusOK (VU64 v0)) /\
        collects s op k rc e (fun s1 s2 => v = v0 /\ s2 = s1) s'
  | opResultBytes op => fun '(rc, (b, eof), e) s' =>
      exists k v0, o_ops s !! op = Some (OpDone k StatusOK v0) /\
        collects s op k rc e
          (fun s1 s2 => match v0 with
             | VBytes d => buf_data b = d /\ eof = 0 /\ gets_buf s1 b s2
             | VEof => b = nil_buf /\ eof = 1 /\ s2 = s1
             | _ => False end) s'
  | opResultErr op => fun '(rc, _, e) s' => gets_err (add_op op OpTaken s) e s'
  | errorTake err => fun '(kind, b) s' =>
      0 <= kind <= 13 /\ gets_buf (set_errs (o_errs s ∖ {[err]}) s) b s'
  | secretKeyGenerate => fun key s' => length key = 32%nat /\ s' = s
  | optionsNew _ => fun h s' => 0 < h /\ (h ∉ o_handles s) /\ s' = add_options h s
  | connMaxDatagramSize _ => fun '(rc, n, e) s' => 0 <= n < two63 /\ gets_rc s rc e s'
  | connStats _ cap => fun '(rc, l, e) s' => length l = Z.to_nat cap /\ gets_rc s rc e s'
  | CStart f => fun op s' => starts s f op s'
  | CUnit f => fun '(rc, _, e) s' => gets_rc s rc e s'
  | CText f => fun '(rc, b, e) s' => gets_text s rc b e s'
  | COut f => fun '(rc, out, e) s' => length out = out_size f /\ gets_rc s rc e s'
  | CFree f => fun _ s' => s' = drop_handle (freed_handle f) s
  end.

(** ** The run time *)

Definition r_pre {X} (s : owned) (e : rtE X) : Prop :=
  match e with
  | RRegister op => exists k, o_ops s !! op = Some (OpRunning k)
  | RSelect ch _ | RRecv ch =>
      exists op k, o_chans s !! ch = Some op /\ o_ops s !! op = Some (OpWaiting k)
  | RAddCleanup _ f => freed_handle f ∈ o_handles s
  | RLock m => m ∉ o_locks s
  | RUnlock m => m ∈ o_locks s
  | RRelease d id => (d, id) ∈ o_armed s
  | _ => True
  end.

Definition r_post {X} (s : owned) (e : rtE X) : X -> owned -> Prop :=
  match e in rtE X return X -> owned -> Prop with
  | RNew => fun o s' => o_objs s !! o = None /\ s' = s
  | RLoad => fun err s' => s' = match err with None => set_loaded true s | Some _ => s end
  | RShutdownGuard => fun '(err, bound) s' =>
      s' = s /\ (err = None -> bound = true -> o_loaded s = true)
  | RRegister op => fun ch s' =>
      o_chans s !! ch = None /\
      exists k, o_ops s !! op = Some (OpRunning k) /\
        s' = set_chans (<[ch := op]> (o_chans s)) (add_op op (OpWaiting k) s)
  | RSelect ch ctx => fun r s' =>
      match r with inl status => completes s ch status s' | inr _ => exists e, fires s ctx e s' end
  | RRecv ch => fun status s' => completes s ch status s'
  | RCtxErr ctx => fun err s' =>
      match o_ctx s !! ctx, err with
      | Some (CtxDone e), _ => err = Some (Sentinel e) /\ s' = s
      | _, None => s' = s
      | _, Some e => exists c, e = Sentinel c /\ fires s ctx c s'
      end
  | RStore o v => fun _ s' => s' = set_objs (<[o := v]> (o_objs s)) s
  | RLoadHandle o => fun h s' => (h = 0 \/ o_objs s !! o = Some h) /\ s' = s
  | RSwap o _ => fun h s' =>
      (h = 0 \/ o_objs s !! o = Some h) /\ (h <> 0 -> h ∉ o_handles s) /\
      s' = if decide (h = 0) then s else add_handles [h] s
  | RAddCleanup _ f => fun _ s' => s' = drop_handle (freed_handle f) s
  | RLock m => fun _ s' => s' = set_locks ({[m]} ∪ o_locks s) s
  | RUnlock m => fun _ s' => s' = set_locks (o_locks s ∖ {[m]}) s
  | RArm d => fun '(ctx, id) s' =>
      ((d, id) ∉ o_armed s) /\ o_ctx s !! ctx = None /\ ctx <> background /\
      exists st, (st = CtxArmed \/ st = CtxDone CtxDeadlineExceeded) /\
        s' = set_ctx (<[ctx := st]> (o_ctx s)) (set_armed ({[(d, id)]} ∪ o_armed s) s)
  | RRelease d id => fun _ s' => s' = set_armed (o_armed s ∖ {[(d, id)]}) s
  | RSetDeadline _ _ => fun _ s' => s' = s
  | RGetRemote _ => fun id s' => length id = 32%nat /\ s' = s
  | RSetRemote _ id => fun _ s' => s' = s
  end.

#[export] Instance abi_protocol : Protocol goE owned := {|
  pre := fun X s e => match e with C e => c_pre s e | R e => r_pre s e end;
  post := fun X s e => match e in goE X return X -> owned -> Prop with
                       | C e => c_post s e | R e => r_post s e end
|}.

(** ** Lemmas *)

Lemma owned_eta s :
  s = mkOwned (o_loaded s) (o_ops s) (o_chans s) (o_bufs s) (o_errs s) (o_handles s) (o_opts s)
        (o_locks s) (o_armed s) (o_ctx s) (o_changes s) (o_sent s) (o_rcvd s) (o_objs s).
Proof. by destruct s. Qed.

(** Two states are equal when their fields are: the proof of every "nothing is
    left behind" equation below is [owned_norm] and the map equations it
    needs. *)
Ltac owned_norm :=
  repeat match goal with s : owned |- _ => destruct s end;
  cbv [add_op drop_op add_handles add_options drop_handle upd_ctx set_ops set_chans set_bufs
    set_errs set_handles set_opts set_locks set_armed set_ctx set_changes set_sent set_rcvd set_objs
    set_loaded sent_on rcvd_on o_loaded o_ops o_chans o_bufs o_errs o_handles o_opts o_locks o_armed
    o_ctx o_changes o_sent o_rcvd o_objs] in *;
  simpl in *.

Lemma drop_add_op op st s : o_ops s !! op = None -> drop_op op (add_op op st s) = s.
Proof. intros H. owned_norm. by rewrite delete_insert_id. Qed.

Lemma add_add_op op st st' s : add_op op st' (add_op op st s) = add_op op st' s.
Proof. owned_norm. by rewrite insert_insert_eq. Qed.

Lemma lookup_add_op op st s : o_ops (add_op op st s) !! op = Some st.
Proof. apply lookup_insert_eq. Qed.

Lemma drop_add_op_drop op st s : drop_op op (add_op op st s) = drop_op op s.
Proof. owned_norm. by rewrite delete_insert_eq. Qed.

Lemma drop_add_op_handles op st hs s :
  drop_op op (add_handles hs (add_op op st s)) = drop_op op (add_handles hs s).
Proof. owned_norm. by rewrite delete_insert_eq. Qed.

(** An operation registered on a channel and completed on it leaves only the
    fact that it is done. *)
Lemma unregister s op ch W D c n M :
  o_chans s !! ch = None ->
  set_chans (delete ch (<[ch := op]> (o_chans s)))
    (add_op op D (upd_ctx c n (set_chans M (add_op op W s)))) = add_op op D (upd_ctx c n s).
Proof. intros H. owned_norm. by rewrite insert_insert_eq, delete_insert_id. Qed.

Lemma gets_buf_free s b s' :
  gets_buf s b s' -> buf_data b <> [] ->
  o_bufs s' !! buf_ptr b = Some (buf_len b) /\
  set_bufs (delete (buf_ptr b) (o_bufs s')) s' = s.
Proof.
  intros (Hnil & Hlen & Hfresh & ->) Hne. rewrite decide_False by done. simpl.
  rewrite lookup_insert_eq. split; [done|]. specialize (Hfresh Hne).
  owned_norm. by rewrite delete_insert_id.
Qed.

Lemma gets_err_take s e s' :
  gets_err s e s' -> e <> 0 ->
  e ∈ o_errs s' /\ set_errs (o_errs s' ∖ {[e]}) s' = s.
Proof.
  intros (_ & Hfresh & ->) Hne. rewrite decide_False by done. specialize (Hfresh Hne).
  split; [simpl; set_solver|].
  assert (Heq : (({[e]} ∪ o_errs s) ∖ {[e]} : gset Z) = o_errs s) by set_solver.
  simpl. rewrite Heq. by destruct s.
Qed.

Lemma gets_buf_loaded s b s' : gets_buf s b s' -> o_loaded s' = o_loaded s.
Proof. intros (_ & _ & _ & ->). by case_decide. Qed.

Lemma gets_err_loaded s e s' : gets_err s e s' -> o_loaded s' = o_loaded s.
Proof. intros (_ & _ & ->). by case_decide. Qed.

Lemma apply_effect_add_op k v op st s :
  apply_effect k v (add_op op st s) = add_op op st (apply_effect k v s).
Proof. by destruct k, v. Qed.

Lemma apply_effect_drop_op k v op s :
  apply_effect k v (drop_op op s) = drop_op op (apply_effect k v s).
Proof. by destruct k, v. Qed.

Lemma apply_effect_none k s : apply_effect k VNone s = s.
Proof. by destruct k. Qed.

Lemma apply_effect_loaded k v s : o_loaded (apply_effect k v s) = o_loaded s.
Proof. by destruct k, v. Qed.

Lemma waited_loaded s ctx s' : waited s ctx s' -> o_loaded s' = o_loaded s.
Proof. by intros [->|(e & c & n & _ & ->)]. Qed.

Lemma waited_ops s ctx s' : waited s ctx s' -> o_ops s' = o_ops s.
Proof. by intros [->|(e & c & n & _ & ->)]. Qed.


Lemma gets_err_drop_op s op st e s' :
  gets_err (add_op op st s) e s' -> gets_err (drop_op op s) e (drop_op op s').
Proof.
  intros (Hr & Hf & ->). split; [done|]. split; [done|].
  case_decide; [apply drop_add_op_drop|]. owned_norm. by rewrite delete_insert_eq.
Qed.

Lemma gets_buf_drop_op s op st b s' :
  gets_buf (add_op op st s) b s' -> gets_buf (drop_op op s) b (drop_op op s').
Proof.
  intros (Hn & Hl & Hf & ->). repeat (split; [done|]).
  case_decide; [apply drop_add_op_drop|]. owned_norm. by rewrite delete_insert_eq.
Qed.

Lemma waited_loaded_true s ctx s' : waited s ctx s' -> o_loaded s = true -> o_loaded s' = true.
Proof. intros H <-. by eapply waited_loaded. Qed.

Lemma fires_waited s ctx e s' : fires s ctx e s' -> waited s ctx s'.
Proof. right. eauto. Qed.

#[export] Hint Resolve waited_loaded_true fires_waited : go.

(** How an operation can fail: the library reports an error, or the context it
    was waited for under is done. *)
Definition op_fails (s : owned) (ctx : Z) (e : gerror) (s' : owned) : Prop :=
  (waited s ctx s' /\ exists k m, e = IrohError k m) \/
  (exists e0, fires s ctx e0 s' /\ e = Sentinel e0).

Lemma op_fails_waited s ctx e s' : op_fails s ctx e s' -> waited s ctx s'.
Proof. intros [[? _]|(? & ? & _)]; eauto with go. Qed.

#[export] Hint Resolve op_fails_waited : go.

(** What an operation started in [s] did to the contexts is seen from [s]. *)
Lemma fires_drop_op s op st ctx e s1 :
  o_ops s !! op = None -> fires (add_op op st s) ctx e s1 -> fires s ctx e (drop_op op s1).
Proof.
  intros Hop (c & n & Hf & ->). exists c, n. split; [exact Hf|].
  transitivity (upd_ctx c n (drop_op op (add_op op st s))); [done|]. by rewrite drop_add_op.
Qed.

Lemma waited_drop_op s op st ctx s1 :
  o_ops s !! op = None -> waited (add_op op st s) ctx s1 -> waited s ctx (drop_op op s1).
Proof.
  intros Hop [->|[e Hf]]; [left; by apply drop_add_op|].
  right. exists e. by eapply fires_drop_op.
Qed.

Lemma op_fails_drop_op s op st ctx e s1 :
  o_ops s !! op = None -> op_fails (add_op op st s) ctx e s1 -> op_fails s ctx e (drop_op op s1).
Proof.
  intros Hop [[Hw Hi]|(e0 & Hf & ->)].
  - left. split; [by eapply waited_drop_op|done].
  - right. exists e0. split; [by eapply fires_drop_op|done].
Qed.

Lemma waited_refl s ctx : waited s ctx s.
Proof. by left. Qed.

Lemma op_fails_now s ctx k m : op_fails s ctx (IrohError k m) s.
Proof. left. split; [apply waited_refl|eauto]. Qed.

#[export] Hint Resolve fires_drop_op waited_drop_op op_fails_drop_op waited_refl op_fails_now : go.

(** Nothing of what a goroutine owes differs between two states. *)
Definition same_debts (s s' : owned) : Prop :=
  o_ops s' = o_ops s /\ o_chans s' = o_chans s /\ o_bufs s' = o_bufs s /\
  o_errs s' = o_errs s /\ o_locks s' = o_locks s /\ o_armed s' = o_armed s.

#[export] Instance same_debts_equiv : Equivalence same_debts.
Proof.
  split; unfold same_debts.
  - by intros s.
  - by intros s t (-> & -> & -> & -> & -> & ->).
  - intros s t u (? & ? & ? & ? & ? & ?) (-> & -> & -> & -> & -> & ->). done.
Qed.

Lemma waited_debts s ctx s' :
  waited s ctx s' -> same_debts s s' /\ o_handles s' = o_handles s.
Proof. by intros [->|(e & c & n & _ & ->)]. Qed.

Lemma apply_effect_debts k v s :
  same_debts s (apply_effect k v s) /\ o_handles (apply_effect k v s) = o_handles s.
Proof. by destruct k, v. Qed.
