(* ===== verification/Reference.v ===== *)
(** A library that keeps the contract.

    [ref_handler] is an executable environment for every event of [Abi]: it
    allocates, completes every operation (writes in chunks), and loses no
    handle.  [ref_implements] shows that it implements [Contract.abi_protocol],
    so the contract can be kept, and the theorems stated with it speak about
    actual runs. *)
From S2P Require Import Prelude GoErrors Prog Abi Contract.
Local Open Scope Z_scope.

(** ** Allocation *)

(** A positive number that is not in [X]. *)
Definition next_id (X : gset Z) : Z := 1 + set_fold Z.max 0 X.

Lemma set_fold_max (X : gset Z) : 0 <= set_fold Z.max 0 X /\ forall x, x ∈ X -> x <= set_fold Z.max 0 X.
Proof.
  apply (set_fold_ind_L (fun r X => 0 <= r /\ forall x, x ∈ X -> x <= r)).
  - split; [lia|]. set_solver.
  - intros x Y r _ [H0 H]. split; [lia|]. intros y [->%elem_of_singleton|Hy]%elem_of_union; [lia|].
    apply H in Hy. lia.
Qed.

Lemma next_id_pos X : 0 < next_id X.
Proof. pose proof (set_fold_max X) as [H _]. unfold next_id. lia. Qed.

Lemma next_id_fresh X : next_id X ∉ X.
Proof. intros H. pose proof (proj2 (set_fold_max X) _ H). unfold next_id in *. lia. Qed.

Lemma next_id_fresh_map {A} (m : gmap Z A) : m !! next_id (dom m) = None.
Proof. apply not_elem_of_dom, next_id_fresh. Qed.

(** ** The handler *)

Section Reference.
(** How many bytes a write or a read moves at most. *)
Context (chunk : nat).

(** The contract's state, and the cells that were taken. *)
Definition world : Type := owned * gset Z.

Definition value_of (k : opkind) (s : owned) : opvalue :=
  match k with
  | KUnit => VUnit
  | KHandle => VHandle (next_id (o_handles s))
  | KHandle2 => VHandle2 (next_id (o_handles s)) (next_id (o_handles s) + 1)
  | KU64 => VU64 0
  | KBytes => VBytes []
  | KWrite _ data => VU64 (Z.of_nat (Nat.min chunk (length data)))
  | KRead _ m => VBytes (replicate (Nat.min chunk (Z.to_nat m)) "x"%char)
  end.

(** The operation behind [ch] completes. *)
Definition complete (ch : Z) (cancelled : bool) (s : owned) : Z * owned :=
  match o_chans s !! ch with
  | Some op =>
      match o_ops s !! op with
      | Some (OpWaiting k) =>
          let status := if cancelled then StatusCancelled else StatusOK in
          let v := if cancelled then VNone else value_of k s in
          (status, apply_effect k v
             (set_chans (delete ch (o_chans s)) (add_op op (OpDone k status v) s)))
      | _ => (StatusOK, s)
      end
  | None => (StatusOK, s)
  end.

Definition alloc_buf (d : bytes) (s : owned) : cbuf * owned :=
  match d with
  | [] => (nil_buf, s)
  | _ => let ptr := next_id (dom (o_bufs s)) in
         (mkBuf ptr d, set_bufs (<[ptr := Z.of_nat (length d)]> (o_bufs s)) s)
  end.

Definition zeros (n : nat) : bytes := replicate n "000"%char.

Definition ref_c {X} (e : cE X) (s : owned) : X * owned :=
  match e in cE X return X * owned with
  | abiVersion => (ABIVersion, s)
  | irohVersion => alloc_buf (lit "1.0.3") s
  | initRuntime | setLogLevel _ => (0, s)
  | handleCount => (0, s)
  | completionWait _ => ((0, 0, 0), s)
  | completionWake | opCancel _ => (tt, s)
  | freeBytes ptr _ => (tt, set_bufs (delete ptr (o_bufs s)) s)
  | opFree op => (tt, drop_op op s)
  | opResultHandle op =>
      match o_ops s !! op with
      | Some (OpDone KHandle _ (VHandle h)) =>
          if decide (h ∈ o_handles s) then ((1, 0, 0), add_op op OpTaken s)
          else ((0, h, 0), add_handles [h] (add_op op OpTaken s))
      | _ => ((1, 0, 0), s)
      end
  | opResultHandle2 op =>
      match o_ops s !! op with
      | Some (OpDone KHandle2 _ (VHandle2 a b)) =>
          if decide (a ∈ o_handles s \/ b ∈ o_handles s) then ((1, (0, 0), 0), add_op op OpTaken s)
          else ((0, (a, b), 0), add_handles [a; b] (add_op op OpTaken s))
      | _ => ((1, (0, 0), 0), s)
      end
  | opResultU64 op =>
      match o_ops s !! op with
      | Some (OpDone _ _ (VU64 v)) => ((0, v, 0), add_op op OpTaken s)
      | _ => ((1, 0, 0), s)
      end
  | opResultBytes op =>
      match o_ops s !! op with
      | Some (OpDone _ _ (VBytes d)) =>
          let '(b, s') := alloc_buf d (add_op op OpTaken s) in ((0, (b, 0), 0), s')
      | Some (OpDone _ _ VEof) => ((0, (nil_buf, 1), 0), add_op op OpTaken s)
      | _ => ((1, (nil_buf, 0), 0), s)
      end
  | opResultErr op => ((0, tt, 0), add_op op OpTaken s)
  | errorTake err => ((KindConnection, nil_buf), set_errs (o_errs s ∖ {[err]}) s)
  | secretKeyGenerate => (zeros 32, s)
  | optionsNew _ => let h := next_id (o_handles s) in (h, add_options h s)
  | connMaxDatagramSize _ => ((0, 1200, 0), s)
  | connStats _ cap => ((0, replicate (Z.to_nat cap) 0, 0), s)
  | CStart f =>
      let s1 := match f with endpointBind o => drop_handle o s | _ => s end in
      let op := next_id (dom (o_ops s)) in
      (op, add_op op (OpRunning (kind_of f)) s1)
  | CUnit _ => ((0, tt, 0), s)
  | CText _ => ((0, nil_buf, 0), s)
  | COut f => ((0, zeros (out_size f), 0), s)
  | CFree f => (tt, drop_handle (freed_handle f) s)
  end.

(** The error a context is done with, if it is one that can be waited for. *)
Definition done_with (ctx : Z) (s : owned) : option sentinel :=
  match o_ctx s !! ctx with
  | Some (CtxDone e) =>
      if decide (ctx <> background /\ (e = CtxCanceled \/ e = CtxDeadlineExceeded)) then Some e else None
  | _ => None
  end.

Definition ref_r {X} (e : rtE X) (w : world) : X * world :=
  let s := w.1 in
  match e in rtE X return X * world with
  | RNew => (next_id (dom (o_objs s)), w)
  | RLoad => (None, (set_loaded true s, w.2))
  | RShutdownGuard => ((None, o_loaded s), w)
  | RRegister op =>
      let ch := next_id (dom (o_chans s)) in
      match o_ops s !! op with
      | Some (OpRunning k) =>
          (ch, (set_chans (<[ch := op]> (o_chans s)) (add_op op (OpWaiting k) s), w.2))
      | _ => (ch, w)
      end
  | RSelect ch ctx =>
      match done_with ctx s with
      | Some e => (inr tt, (upd_ctx (<[ctx := CtxDone e]> (o_ctx s)) (o_changes s) s, w.2))
      | None => let '(status, s') := complete ch false s in (inl status, (s', w.2))
      end
  | RRecv ch => let '(status, s') := complete ch true s in (status, (s', w.2))
  | RCtxErr ctx =>
      (match o_ctx s !! ctx with Some (CtxDone e) => Some (Sentinel e) | _ => None end, w)
  | RStore o v => (tt, (set_objs (<[o := v]> (o_objs s)) s, w.2 ∖ {[o]}))
  | RLoadHandle o => (if decide (o ∈ w.2) then 0 else default 0 (o_objs s !! o), w)
  | RSwap o v =>
      let h := if decide (o ∈ w.2) then 0 else default 0 (o_objs s !! o) in
      if decide (h = 0 \/ h ∈ o_handles s) then (0, w)
      else (h, (add_handles [h] s, {[o]} ∪ w.2))
  | RAddCleanup _ f => (tt, (drop_handle (freed_handle f) s, w.2))
  | RLock m => (tt, (set_locks ({[m]} ∪ o_locks s) s, w.2))
  | RUnlock m => (tt, (set_locks (o_locks s ∖ {[m]}) s, w.2))
  | RArm d =>
      let ctx := next_id (dom (o_ctx s)) in
      let id := next_id (set_map snd (o_armed s)) in
      ((ctx, id), (set_ctx (<[ctx := CtxArmed]> (o_ctx s)) (set_armed ({[(d, id)]} ∪ o_armed s) s), w.2))
  | RRelease d id => (tt, (set_armed (o_armed s ∖ {[(d, id)]}) s, w.2))
  | RSetDeadline _ _ => (tt, w)
  | RGetRemote _ => (zeros 32, w)
  | RSetRemote _ _ => (tt, w)
  end.

Definition ref_handler : handler goE world := fun X e w =>
  match e in goE X return X * world with
  | C e => let '(x, s') := ref_c e w.1 in (x, (s', w.2))
  | R e => ref_r e w
  end.

(** ** It implements the contract *)

(** Operations carry sizes that fit, and results that are results of theirs. *)
Definition kind_fits (k : opkind) : Prop :=
  match k with KRead _ m => 0 < m < two63 | _ => True end.
Definition op_fits (st : opst) : Prop :=
  match st with
  | OpRunning k | OpWaiting k => kind_fits k
  | OpDone k status v => kind_fits k /\ outcome_ok k status v
  | OpTaken => True
  end.
Definition ref_rel (w : world) (s : owned) : Prop :=
  w.1 = s /\ forall op st, o_ops s !! op = Some st -> op_fits st.

(** ** Lemmas *)

Definition ops_fit (s : owned) : Prop := forall op st, o_ops s !! op = Some st -> op_fits st.

Lemma ops_fit_add op st s : ops_fit s -> op_fits st -> ops_fit (add_op op st s).
Proof. intros Hs Hst op' st'. simpl. intros [[<- <-]|[_ H]]%lookup_insert_Some; [done|by eapply Hs]. Qed.

Lemma ops_fit_drop op s : ops_fit s -> ops_fit (drop_op op s).
Proof. intros Hs op' st'. simpl. intros [_ H]%lookup_delete_Some. by eapply Hs. Qed.

Lemma ops_fit_eq s s' : o_ops s' = o_ops s -> ops_fit s -> ops_fit s'.
Proof. intros E Hs op st. rewrite E. apply Hs. Qed.

Lemma alloc_buf_spec d s : Z.of_nat (length d) < two63 ->
  buf_data (alloc_buf d s).1 = d /\ gets_buf s (alloc_buf d s).1 (alloc_buf d s).2.
Proof.
  intros Hd. destruct d as [|c d]; simpl.
  - split; [done|]. split; [done|]. split; [unfold buf_len; simpl; unfold two63; lia|]. split; [done|].
    by rewrite decide_True.
  - split; [done|]. pose proof (next_id_pos (dom (o_bufs s))) as Hp. split.
    { split; [intros H; simpl in H; lia|done]. }
    split; [unfold buf_len; simpl; simpl in Hd; lia|]. split; [|done].
    intros _. apply next_id_fresh_map.
Qed.

Lemma alloc_buf_ops d s : o_ops (alloc_buf d s).2 = o_ops s.
Proof. by destruct d. Qed.

Lemma gets_err_none s : gets_err s 0 s.
Proof. split; [done|]. split; [done|]. by rewrite decide_True. Qed.

Lemma value_of_ok k s : kind_fits k -> value_ok k (value_of k s).
Proof.
  pose proof (next_id_pos (o_handles s)).
  destruct k; simpl; intros Hk; try done; try lia; try (by unfold two63, two64; lia).
  rewrite length_replicate. lia.
Qed.

Lemma complete_spec ch b s :
  ops_fit s -> (exists op k, o_chans s !! ch = Some op /\ o_ops s !! op = Some (OpWaiting k)) ->
  completes s ch (complete ch b s).1 (complete ch b s).2 /\ ops_fit (complete ch b s).2.
Proof.
  intros Hs (op & k & Hc & Ho). unfold complete. rewrite Hc, Ho. simpl.
  assert (Hk : kind_fits k) by apply (Hs op _ Ho).
  assert (Hout : outcome_ok k (if b then StatusCancelled else StatusOK)
                   (if b then VNone else value_of k s)).
  { unfold outcome_ok. destruct b; simpl; [by split; [right|]|]. by apply value_of_ok. }
  split.
  - by exists op, k, (if b then VNone else value_of k s).
  - eapply ops_fit_eq; [|apply (ops_fit_add op (OpDone k (if b then StatusCancelled else StatusOK)
      (if b then VNone else value_of k s))); [exact Hs|done]].
    by destruct k, b.
Qed.

Lemma done_with_spec ctx s e : done_with ctx s = Some e ->
  fires s ctx e (upd_ctx (<[ctx := CtxDone e]> (o_ctx s)) (o_changes s) s).
Proof.
  unfold done_with. destruct (o_ctx s !! ctx) as [[| |e']|] eqn:E; try done.
  case_decide as D; [|done]. intros [= <-]. destruct D as [D1 D2].
  exists (<[ctx := CtxDone e']> (o_ctx s)), (o_changes s). split; [|done].
  split; [done|]. split; [done|]. split; [done|]. by rewrite E.
Qed.

Lemma ref_result_bytes_spec op s : ops_fit s -> c_pre s (opResultBytes op) ->
  c_post s (opResultBytes op) (ref_c (opResultBytes op) s).1 (ref_c (opResultBytes op) s).2 /\
  ops_fit (ref_c (opResultBytes op) s).2.
Proof.
  intros Hs [_ (k & v & Hop & Hv)]. unfold c_post, ref_c. rewrite Hop.
  pose proof (Hs _ _ Hop) as [Hk Hok]. unfold outcome_ok in Hok. rewrite decide_True in Hok by done.
  destruct v as [| | | |d| |]; try done; simpl.
  - assert (Hd : Z.of_nat (length d) < two63) by (destruct k; simpl in *; try done; lia).
    pose proof (alloc_buf_spec d (add_op op OpTaken s) Hd) as [E Hb].
    pose proof (alloc_buf_ops d (add_op op OpTaken s)) as Eo.
    destruct (alloc_buf d (add_op op OpTaken s)) as [b s'] eqn:Ea. simpl in *. split.
    + exists k, (VBytes d). split; [done|]. left. by split_and!.
    + apply (ops_fit_eq (add_op op OpTaken s)); [exact Eo|]. by apply ops_fit_add.
  - split; [|by apply ops_fit_add]. exists k, VEof. split; [done|]. left. by split_and!.
Qed.

Lemma ref_c_spec X (e : cE X) s : ops_fit s -> c_pre s e ->
  c_post s e (ref_c e s).1 (ref_c e s).2 /\ ops_fit (ref_c e s).2.
Proof.
  intros Hs Hpre. destruct e; simpl in Hpre; try (simpl; split; [done|exact Hs]).
  - (* irohVersion *)
    split; [apply (alloc_buf_spec _ s); reflexivity|exact Hs].
  - split; [done|by apply ops_fit_drop].
  - (* opResultHandle *)
    destruct Hpre as [_ [h Hop]]. unfold c_post, ref_c. rewrite Hop. case_decide as D; simpl.
    + split; [|by apply ops_fit_add]. exists h. split; [done|]. right. split; [done|].
      split; [done|]. apply gets_err_none.
    + split; [|by apply (ops_fit_add op OpTaken)]. exists h. split; [done|]. left.
      split; [done|]. split; [done|]. split; [done|]. split; [|done]. by repeat constructor.
  - (* opResultHandle2 *)
    destruct Hpre as [_ (a & b & Hop)]. unfold c_post, ref_c. rewrite Hop. case_decide as D; simpl.
    + split; [|by apply ops_fit_add]. exists a, b. split; [done|]. right. split; [done|].
      split; [done|]. apply gets_err_none.
    + split; [|by apply (ops_fit_add op OpTaken)]. exists a, b. split; [done|]. left.
      split; [done|]. split; [done|]. split; [done|]. split; [done|]. split; [|done].
      repeat constructor; naive_solver.
  - (* opResultU64 *)
    destruct Hpre as [_ (k & v & Hop)]. unfold c_post, ref_c. rewrite Hop. simpl.
    split; [|by apply ops_fit_add]. exists k, v. split; [done|]. by left.
  - by apply ref_result_bytes_spec.
  - split; [apply gets_err_none|by apply ops_fit_add].
  - (* optionsNew *)
    split; [|exact Hs]. split; [apply next_id_pos|]. split; [apply next_id_fresh|done].
  - (* connStats *)
    split; [|exact Hs]. split; [apply length_replicate|done].
  - (* CStart *)
    destruct Hpre as [_ Hpre]. pose proof (next_id_pos (dom (o_ops s))) as Hp. split.
    + unfold c_post, ref_c, starts. cbn [fst snd]. split; [lia|]. right. split; [lia|].
      split; [apply next_id_fresh_map|done].
    + apply (ops_fit_add _ (OpRunning (kind_of f))); [by destruct f|].
      destruct f; try done. simpl in *. lia.
  - (* COut *)
    split; [|exact Hs]. split; [apply length_replicate|done].
Qed.

Lemma ref_r_spec X (e : rtE X) w : ops_fit w.1 -> r_pre w.1 e ->
  r_post w.1 e (ref_r e w).1 (ref_r e w).2.1 /\ ops_fit (ref_r e w).2.1.
Proof.
  destruct w as [s taken]. simpl fst. intros Hs Hpre.
  destruct e; simpl in Hpre; try (split; [done|exact Hs]).
  - split; [|exact Hs]. split; [apply next_id_fresh_map|done].
  - (* RRegister *)
    destruct Hpre as [k Hop]. unfold r_post, ref_r. simpl fst. rewrite Hop. simpl. split.
    + split; [apply next_id_fresh_map|]. by exists k.
    + eapply ops_fit_eq; [|apply (ops_fit_add op (OpWaiting k)); [exact Hs|apply (Hs op _ Hop)]]. done.
  - (* RSelect *)
    unfold r_post, ref_r. simpl fst. destruct (done_with ctx s) as [e|] eqn:E; simpl.
    + split; [|exact Hs]. exists e. by apply done_with_spec.
    + pose proof (complete_spec ch false s Hs Hpre) as Hc.
      by destruct (complete ch false s) as [status s'].
  - (* RRecv *)
    unfold r_post, ref_r. simpl fst. pose proof (complete_spec ch true s Hs Hpre) as Hc.
    by destruct (complete ch true s) as [status s'].
  - (* RCtxErr *)
    split; [|exact Hs]. simpl. by destruct (o_ctx s !! ctx) as [[]|].
  - (* RLoadHandle *)
    split; [|exact Hs]. split; [|done]. simpl. case_decide; [by left|].
    destruct (o_objs s !! o); [by right|by left].
  - (* RSwap *)
    unfold r_post, ref_r. simpl fst. case_decide as D; simpl.
    + split; [|exact Hs]. split; [by left|done].
    + split; [|exact Hs]. split; [|split; [intros _ H; apply D; by right|]].
      * case_decide; [by left|]. destruct (o_objs s !! o); [by right|by left].
      * set (h := if decide (o ∈ taken) then 0 else default 0 (o_objs s !! o)) in *.
        rewrite (decide_False (P := h = 0)); [done|]. intros H. apply D. by left.
  - (* RArm *)
    split; [|exact Hs]. simpl. split; [|split; [|split]].
    + intros H. apply (next_id_fresh (set_map snd (o_armed s))).
      apply elem_of_map. by exists (d, next_id (set_map snd (o_armed s))).
    + apply next_id_fresh_map.
    + pose proof (next_id_pos (dom (o_ctx s))). unfold background. lia.
    + exists CtxArmed. split; [by left|done].
Qed.

(** The contract can be kept. *)
Lemma ref_implements : implements ref_handler ref_rel.
Proof.
  intros X e w s [<- Hs] Hpre. destruct e as [X e|X e]; simpl in Hpre.
  - destruct (ref_c_spec X e w.1 Hs Hpre) as [Hpost Hs'].
    unfold ref_handler. destruct (ref_c e w.1) as [x s']. simpl in *. exists s'. by split.
  - destruct (ref_r_spec X e w Hs Hpre) as [Hpost Hs'].
    exists (ref_r e w).2.1. split; [exact Hpost|]. by split.
Qed.

End Reference.
