(* ===== verification/Pump.v ===== *)
(** The completion pump and the [Await] functions: [internal/ffi/pump.go], with
    [takeError], [takeBytes] and [takeString] of [internal/ffi/errors.go].

    [deliver] and [register] are the critical sections on the pump's two
    tables, as functions on [pump_state]; their interleavings with the
    goroutines that wait are the subject of [PumpSystem].  [await] and what is
    built on it are programs over the ABI's events, proved against
    [Contract.abi_protocol]. *)
From S2P Require Import Prelude GoErrors Prog Abi Contract.
Local Open Scope Z_scope.

(** ** The tables *)

(** [src/internal/ffi/pump.go:22-33 pump] Channels are named by addresses. *)
Record pump_state := mkPump {
  waiters : gmap Z Z;
  unclaimed : gmap Z Z
}.

Definition pump_init : pump_state := mkPump ∅ ∅.

(** [src/internal/ffi/pump.go:63-76 deliver] The new tables, and the channel
    the status is then sent on, outside the lock. *)
Definition deliver (op status : Z) (p : pump_state) : pump_state * option Z :=
  match waiters p !! op with
  | Some ch => (mkPump (delete op (waiters p)) (unclaimed p), Some ch)
  | None => (mkPump (waiters p) (<[op := status]> (unclaimed p)), None)
  end.

(** [src/internal/ffi/pump.go:78-89 register] The new tables, and what the
    fresh channel [ch] already holds. *)
Definition register (op ch : Z) (p : pump_state) : pump_state * option Z :=
  match unclaimed p !! op with
  | Some status => (mkPump (waiters p) (delete op (unclaimed p)), Some status)
  | None => (mkPump (<[op := ch]> (waiters p)) (unclaimed p), None)
  end.

(** [src/internal/ffi/pump.go:258-262 PendingOps] *)
Definition PendingOps (p : pump_state) : nat :=
  (size (waiters p) + size (unclaimed p))%nat.

(** ** Errors and buffers *)

(** [src/internal/ffi/errors.go:44-52 takeBytes] *)
Definition takeBytes (b : cbuf) : go bytes :=
  if (buf_ptr b =? 0) || (buf_len b =? 0) then Ret []
  else
    call (freeBytes (buf_ptr b) (buf_len b));;
    Ret (buf_data b).

(** [src/internal/ffi/errors.go:55-57 takeString] *)
Definition takeString (b : cbuf) : go bytes := takeBytes b.

(** [src/internal/ffi/errors.go:20-31 takeError] *)
Definition takeError (handle : Z) : go gerror :=
  if handle =? 0 then
    Ret (NewError KindInternal (MText "iroh: call failed without reporting a reason"))
  else
    '(kind, msg) ← call (errorTake handle);
    text ← takeBytes msg;
    Ret (NewError kind (MBytes text)).

(** ** Waiting *)

(** [src/internal/ffi/pump.go:103-121 await] *)
Definition await (ctx op : Z) : go (Z * error) :=
  if op =? 0 then
    Ret (0, Some (NewError KindInternal (MText "iroh: operation could not be started")))
  else
    ch ← rt (RRegister op);
    r ← rt (RSelect ch ctx);
    match r with
    | inl status => Ret (status, None)
    | inr _ =>
        call (opCancel op);;
        status ← rt (RRecv ch);
        if status =? StatusOK then Ret (status, None)
        else
          call (opFree op);;
          err ← rt (RCtxErr ctx);
          Ret (0, err)
    end.

(** [src/internal/ffi/pump.go:124-133 finish] *)
Definition finish (op status : Z) : go error :=
  if status =? StatusOK then Ret None
  else
    '(_, _, errh) ← call (opResultErr op);
    err ← takeError errh;
    call (opFree op);;
    Ret (Some err).

(** [src/internal/ffi/pump.go:136-146 AwaitUnit] *)
Definition AwaitUnit (ctx op : Z) : go error :=
  '(status, err) ← await ctx op;
  match err with
  | Some e => Ret (Some e)
  | None =>
      err ← finish op status;
      match err with
      | Some e => Ret (Some e)
      | None => call (opFree op);; Ret None
      end
  end.

(** [src/internal/ffi/pump.go:149-164 AwaitHandle] *)
Definition AwaitHandle (ctx op : Z) : go (Z * error) :=
  '(status, err) ← await ctx op;
  match err with
  | Some e => Ret (0, Some e)
  | None =>
      err ← finish op status;
      match err with
      | Some e => Ret (0, Some e)
      | None =>
          '(rc, handle, errh) ← call (opResultHandle op);
          call (opFree op);;
          if negb (rc =? 0) then err ← takeError errh; Ret (0, Some err)
          else Ret (handle, None)
      end
  end.

(** [src/internal/ffi/pump.go:168-183 AwaitHandle2] *)
Definition AwaitHandle2 (ctx op : Z) : go (Z * Z * error) :=
  '(status, err) ← await ctx op;
  match err with
  | Some e => Ret (0, 0, Some e)
  | None =>
      err ← finish op status;
      match err with
      | Some e => Ret (0, 0, Some e)
      | None =>
          '(rc, (a, b), errh) ← call (opResultHandle2 op);
          call (opFree op);;
          if negb (rc =? 0) then err ← takeError errh; Ret (0, 0, Some err)
          else Ret (a, b, None)
      end
  end.

(** [src/internal/ffi/pump.go:186-201 AwaitU64] *)
Definition AwaitU64 (ctx op : Z) : go (Z * error) :=
  '(status, err) ← await ctx op;
  match err with
  | Some e => Ret (0, Some e)
  | None =>
      err ← finish op status;
      match err with
      | Some e => Ret (0, Some e)
      | None =>
          '(rc, value, errh) ← call (opResultU64 op);
          call (opFree op);;
          if negb (rc =? 0) then err ← takeError errh; Ret (0, Some err)
          else Ret (value, None)
      end
  end.

(** [src/internal/ffi/pump.go:205-225 AwaitBytes] *)
Definition AwaitBytes (ctx op : Z) : go (bytes * bool * error) :=
  '(status, err) ← await ctx op;
  match err with
  | Some e => Ret ([], false, Some e)
  | None =>
      err ← finish op status;
      match err with
      | Some e => Ret ([], false, Some e)
      | None =>
          '(rc, (b, eof), errh) ← call (opResultBytes op);
          call (opFree op);;
          if negb (rc =? 0) then err ← takeError errh; Ret ([], false, Some err)
          else data ← takeBytes b; Ret (data, negb (eof =? 0), None)
      end
  end.

(** Go's [copy(dst, src)]: the count, and [dst] afterwards. *)
Definition go_copy (dst src : bytes) : nat * bytes :=
  let n := Nat.min (length dst) (length src) in
  (n, take n src ++ drop n dst).

(** [src/internal/ffi/pump.go:229-254 AwaitBytesInto] Besides its results, the
    contents of [dst] when it returns. *)
Definition AwaitBytesInto (ctx op : Z) (dst : bytes) : go (Z * bool * error * bytes) :=
  '(status, err) ← await ctx op;
  match err with
  | Some e => Ret (0, false, Some e, dst)
  | None =>
      err ← finish op status;
      match err with
      | Some e => Ret (0, false, Some e, dst)
      | None =>
          '(rc, (b, eof), errh) ← call (opResultBytes op);
          call (opFree op);;
          if negb (rc =? 0) then err ← takeError errh; Ret (0, false, Some err, dst)
          else
            if negb (buf_ptr b =? 0) && (0 <? buf_len b) then
              let '(copied, dst') := go_copy dst (buf_data b) in
              call (freeBytes (buf_ptr b) (buf_len b));;
              Ret (Z.of_nat copied, negb (eof =? 0), None, dst')
            else Ret (0, negb (eof =? 0), None, dst)
      end
  end.

(** ** Lemmas: errors and buffers *)

Lemma takeBytes_spec s b s' :
  o_loaded s = true -> gets_buf s b s' ->
  wp s' (takeBytes b) (fun d s'' => d = buf_data b /\ s'' = s).
Proof.
  intros Hl Hb. pose proof Hb as (Hnil & Hlen & Hfresh & E). unfold takeBytes, buf_len.
  destruct (decide (buf_data b = [])) as [Hd|Hd].
  - rewrite (proj2 Hnil Hd). simpl. by rewrite Hd.
  - destruct (Z.eqb_spec (buf_ptr b) 0) as [Hp|Hp]; [by apply Hnil in Hp|].
    destruct (Z.eqb_spec (Z.of_nat (length (buf_data b))) 0) as [Hz|Hz];
      [destruct (buf_data b); [done|discriminate]|].
    destruct (gets_buf_free _ _ _ Hb Hd) as [Hlook Hset].
    simpl. split.
    + rewrite (gets_buf_loaded _ _ _ Hb). auto.
    + intros [] s'' ->. auto.
Qed.

Lemma takeError_spec s e s' :
  o_loaded s = true -> gets_err s e s' ->
  wp s' (takeError e) (fun err s'' => s'' = s /\ exists k m, err = IrohError k m).
Proof.
  intros Hl He. unfold takeError. destruct (Z.eqb_spec e 0) as [->|Hne].
  - destruct He as (_ & _ & ->). simpl. unfold NewError. eauto.
  - destruct (gets_err_take _ _ _ He Hne) as [Hin Hset].
    apply wp_bind, wp_trigger; [simpl; by rewrite (gets_err_loaded _ _ _ He)|].
    intros [kind b] s1 [_ Hb]. simpl in Hb. rewrite Hset in Hb.
    eapply wp_call; [by eapply takeBytes_spec|].
    intros text s2 [-> ->]. simpl. unfold NewError. eauto.
Qed.

(** ** Lemmas: waiting *)

Section Await.
Context (s : owned) (ctx op : Z) (k : opkind).
Hypothesis Hloaded : o_loaded s = true.
Hypothesis Hnz : op <> 0.
Hypothesis Hop : o_ops s !! op = Some (OpRunning k).

Definition done_state (status : Z) (v : opvalue) (s1 : owned) : owned :=
  add_op op (OpDone k status v) (apply_effect k v s1).

(** The two states in which an operation is freed. *)
Lemma freeable_done status v s1 : match v with VHandle _ | VHandle2 _ _ => False | _ => True end ->
  exists st, o_ops (done_state status v s1) !! op = Some st /\ emptied st.
Proof. intros Hv. exists (OpDone k status v). split; [apply lookup_insert_eq|exact Hv]. Qed.

Lemma freeable_taken s1 s2 : o_ops s2 = o_ops (add_op op OpTaken s1) ->
  exists st, o_ops s2 !! op = Some st /\ emptied st.
Proof. intros ->. exists OpTaken. split; [apply lookup_insert_eq|done]. Qed.

Lemma completes_registered ch c n status s' :
  o_chans s !! ch = None ->
  completes (upd_ctx c n (set_chans (<[ch := op]> (o_chans s)) (add_op op (OpWaiting k) s)))
    ch status s' ->
  exists v, outcome_ok k status v /\ s' = done_state status v (upd_ctx c n s).
Proof.
  intros Hch (op' & k' & v & Hc & Ho & Hv & ->). simpl in Hc.
  rewrite lookup_insert_eq in Hc. simplify_eq.
  simpl in Ho. rewrite lookup_insert_eq in Ho. simplify_eq.
  exists v. split; [done|]. unfold done_state. rewrite <-apply_effect_add_op. f_equal.
  by apply unregister.
Qed.

Lemma await_spec :
  wp s (await ctx op) (fun '(status, err) s' =>
    match err with
    | None => exists v s1, waited s ctx s1 /\ outcome_ok k status v /\
                s' = done_state status v s1
    | Some e => exists e0 s1, fires s ctx e0 s1 /\ e = Sentinel e0 /\ s' = drop_op op s1
    end).
Proof.
  unfold await. rewrite (proj2 (Z.eqb_neq op 0) Hnz).
  apply wp_bind, wp_trigger; [simpl; eauto|].
  intros ch s1 (Hch & k' & Hk & ->). assert (k' = k) as -> by congruence. clear Hk.
  apply wp_bind, wp_trigger.
  { simpl. exists op, k. by rewrite !lookup_insert_eq. }
  intros [status|[]] s2 H2.
  - apply (completes_registered ch (o_ctx s) (o_changes s)) in H2 as (v & Hv & ->); [|done].
    simpl. exists v, s. replace (upd_ctx (o_ctx s) (o_changes s) s) with s by by destruct s.
    split; [by left|auto].
  - destruct H2 as (e0 & c & n & Hf & ->). simpl in Hf.
    set (s1 := upd_ctx c n s). assert (Hs1 : fires s ctx e0 s1) by (exists c, n; auto).
    assert (Hctx : c !! ctx = Some (CtxDone e0)).
    { destruct Hf as (_ & _ & -> & _). by rewrite lookup_insert_eq. }
    apply wp_bind, wp_trigger.
    { simpl. split; [done|]. unfold live_op. simpl. rewrite lookup_insert_eq. eauto. }
    intros [] s3 ->. apply wp_bind, wp_trigger.
    { simpl. exists op, k. by rewrite !lookup_insert_eq. }
    intros status s4 H4. apply (completes_registered ch c n) in H4 as (v & Hv & ->); [|done].
    destruct (Z.eqb_spec status StatusOK) as [->|Hst].
    + simpl. exists v, s1. split; [|auto]. right. eauto.
    + unfold outcome_ok in Hv. rewrite decide_False in Hv by done. destruct Hv as [_ ->].
      apply wp_bind, wp_trigger.
      { split; [simpl; by rewrite apply_effect_loaded|]. by apply freeable_done. }
      intros [] s5 ->. apply wp_bind, wp_trigger; [done|].
      intros err s6 Herr. simpl in Herr. rewrite apply_effect_none in Herr. simpl in Herr.
      rewrite Hctx in Herr. destruct Herr as [-> ->]. simpl. exists e0, s1. split; [done|]. split; [done|].
      unfold done_state. rewrite apply_effect_none. apply drop_add_op_drop.
Qed.

(** What every Await function does before it collects: report a failure with
    the operation freed, or go on with a successful one. *)
Lemma await_finish_spec {A} (onerr : gerror -> A) (K : go A) (Q : A -> owned -> Prop) :
  (forall e s1, op_fails s ctx e s1 -> Q (onerr e) (drop_op op s1)) ->
  (forall v s1, waited s ctx s1 -> value_ok k v -> wp (done_state StatusOK v s1) K Q) ->
  wp s ('(status, err) ← await ctx op;
        match err with
        | Some e => Ret (onerr e)
        | None => err ← finish op status;
                  match err with Some e => Ret (onerr e) | None => K end
        end) Q.
Proof.
  intros Hfail Hok. eapply wp_call; [apply await_spec|].
  intros [status [e|]] s'.
  - intros (e0 & s1 & Hf & -> & ->). simpl. apply Hfail. right. eauto.
  - intros (v & s1 & Hw & Hv & ->). unfold finish.
    destruct (Z.eqb_spec status StatusOK) as [->|Hst].
    + simpl. apply Hok; [done|]. unfold outcome_ok in Hv. by rewrite decide_True in Hv.
    + unfold outcome_ok in Hv. rewrite decide_False in Hv by done. destruct Hv as [_ ->].
      unfold done_state. rewrite apply_effect_none.
      apply wp_bind, wp_bind, wp_trigger.
      { simpl. split; [by eauto with go|]. exists k, status. by rewrite lookup_insert_eq. }
      intros [[rc []] errh] s2 He. simpl in He. rewrite add_add_op in He.
      eapply wp_call; [eapply takeError_spec; [|done]; simpl; by eauto with go|].
      intros err s3 (-> & kk & m & ->). apply wp_bind, wp_trigger.
      { split; [simpl; by eauto with go|]. by eapply freeable_taken. }
      intros [] s4 ->. simpl. rewrite drop_add_op_drop. apply Hfail. left. eauto.
Qed.

(** Collecting fails: the operation is freed first, the error taken next. *)
Lemma collect_error {A} (s1 : owned) (e : Z) (s2 : owned) (f : gerror -> A) (Q : A -> owned -> Prop) :
  o_loaded s1 = true -> waited s ctx s1 ->
  gets_err (add_op op OpTaken s1) e s2 ->
  (forall err s3, op_fails s ctx err s3 -> Q (f err) (drop_op op s3)) ->
  wp (drop_op op s2) (err ← takeError e; Ret (f err)) Q.
Proof.
  intros Hl Hw He Hfail. apply gets_err_drop_op in He.
  eapply wp_call; [eapply takeError_spec; [|exact He]; done|].
  intros err s3 (-> & kk & m & ->). simpl. apply Hfail. left. eauto.
Qed.

(** ** The Await functions *)

(** Only a failing kind can fail to be collected, and it has no effect on a
    stream. *)
Lemma may_fail_effect v s1 : may_fail k -> apply_effect k v s1 = s1.
Proof. by destruct k, v. Qed.

Lemma collects_ops rc e ok s1 s2 st :
  collects (add_op op st s1) op k rc e ok s2 ->
  (forall s3 s4, ok s3 s4 -> o_ops s4 = o_ops s3 /\ o_loaded s4 = o_loaded s3) ->
  o_ops s2 = o_ops (add_op op OpTaken s1) /\ o_loaded s2 = o_loaded s1.
Proof.
  intros Hc Hok. unfold collects in Hc. rewrite add_add_op in Hc.
  destruct Hc as [(_ & _ & H)|(_ & _ & H)]; [by apply Hok in H|].
  destruct H as (_ & _ & ->). by case_decide.
Qed.

(** The common end of the collectors: free the operation, then either take the
    error or return what was collected. *)
Lemma collect_free_spec {A} rc e ok v s1 s2 (onerr : gerror -> A) (K : go A)
    (Q : A -> owned -> Prop) :
  waited s ctx s1 ->
  collects (done_state StatusOK v s1) op k rc e ok s2 ->
  (forall s3 s4, ok s3 s4 -> o_ops s4 = o_ops s3 /\ o_loaded s4 = o_loaded s3) ->
  (forall err s3, op_fails s ctx err s3 -> Q (onerr err) (drop_op op s3)) ->
  (ok (add_op op OpTaken (apply_effect k v s1)) s2 -> wp (drop_op op s2) K Q) ->
  wp s2 (call (opFree op);;
         if negb (rc =? 0) then err ← takeError e; Ret (onerr err) else K) Q.
Proof.
  intros Hw Hc Hokops Hfail HK.
  destruct (collects_ops _ _ _ _ _ _ Hc Hokops) as [Hops Hld].
  rewrite apply_effect_loaded in Hld.
  apply wp_bind, wp_trigger.
  { split; [simpl; rewrite Hld; by eauto with go|]. eapply freeable_taken, Hops. }
  intros [] s3 ->. unfold collects, done_state in Hc. rewrite add_add_op in Hc.
  destruct Hc as [(-> & -> & H)|(Hrc & Hmay & H)]; [by apply HK|].
  rewrite (proj2 (Z.eqb_neq rc 0) Hrc). simpl. rewrite (may_fail_effect v s1 Hmay) in H.
  eapply (collect_error s1); [by eauto with go|done|exact H|done].
Qed.

Lemma lookup_done v s1 : o_ops (done_state StatusOK v s1) !! op = Some (OpDone k StatusOK v).
Proof. apply lookup_insert_eq. Qed.

Lemma done_loaded v s1 : waited s ctx s1 -> o_loaded (done_state StatusOK v s1) = true.
Proof. intros Hw. simpl. rewrite apply_effect_loaded. eauto with go. Qed.

Lemma AwaitUnit_spec : k = KUnit ->
  wp s (AwaitUnit ctx op) (fun err s' => exists s1, s' = drop_op op s1 /\
    match err with None => waited s ctx s1 | Some e => op_fails s ctx e s1 end).
Proof.
  intros Hk. unfold AwaitUnit. apply await_finish_spec; [eauto|].
  intros v s1 Hw Hv. apply wp_bind, wp_trigger.
  { split; [simpl; rewrite apply_effect_loaded; by eauto with go|].
    apply freeable_done. rewrite Hk in Hv. by destruct v. }
  intros [] s2 ->. simpl. unfold done_state. rewrite drop_add_op_drop.
  rewrite may_fail_effect by (by rewrite Hk). eauto.
Qed.

Lemma AwaitHandle_spec : k = KHandle ->
  wp s (AwaitHandle ctx op) (fun '(h, err) s' => exists s1,
    match err with
    | None => waited s ctx s1 /\ 0 < h /\ (h ∉ o_handles s1) /\
              s' = drop_op op (add_handles [h] s1)
    | Some e => h = 0 /\ op_fails s ctx e s1 /\ s' = drop_op op s1
    end).
Proof.
  intros Hk. unfold AwaitHandle. apply (await_finish_spec (fun e => (0, Some e))); [eauto|].
  intros v s1 Hw Hv. rewrite Hk in Hv. destruct v; try done.
  apply wp_bind, wp_trigger.
  { split; [by apply done_loaded|]. exists h. rewrite lookup_done. by rewrite Hk. }
  intros [[rc h'] e] s2 (h0 & Hl & Hc). rewrite lookup_done, Hk in Hl. simplify_eq.
  rewrite <-Hk in Hc.
  eapply (collect_free_spec _ _ _ _ _ _ (fun e => (0, Some e))); [done|exact Hc| | |].
  - by intros s3 s4 (_ & _ & ->).
  - eauto.
  - intros (-> & Hfresh & ->). simpl. rewrite may_fail_effect in * by (by rewrite Hk).
    exists s1. split; [done|]. split; [done|]. split; [by inversion Hfresh|].
    apply drop_add_op_handles.
Qed.

Lemma AwaitHandle2_spec : k = KHandle2 ->
  wp s (AwaitHandle2 ctx op) (fun '(a, b, err) s' => exists s1,
    match err with
    | None => waited s ctx s1 /\ 0 < a /\ 0 < b /\ a <> b /\
              (a ∉ o_handles s1) /\ (b ∉ o_handles s1) /\
              s' = drop_op op (add_handles [a; b] s1)
    | Some e => a = 0 /\ b = 0 /\ op_fails s ctx e s1 /\ s' = drop_op op s1
    end).
Proof.
  intros Hk. unfold AwaitHandle2. apply (await_finish_spec (fun e => (0, 0, Some e))); [eauto|].
  intros v s1 Hw Hv. rewrite Hk in Hv. destruct v; try done.
  apply wp_bind, wp_trigger.
  { split; [by apply done_loaded|]. exists a, b. rewrite lookup_done. by rewrite Hk. }
  intros [[rc [a' b']] e] s2 (a0 & b0 & Hl & Hc). rewrite lookup_done, Hk in Hl. simplify_eq.
  rewrite <-Hk in Hc.
  eapply (collect_free_spec _ _ _ _ _ _ (fun e => (0, 0, Some e))); [done|exact Hc| | |].
  - by intros s3 s4 (_ & _ & _ & ->).
  - eauto 6.
  - intros (-> & -> & Hfresh & ->). simpl. rewrite may_fail_effect in * by (by rewrite Hk).
    destruct Hv as (? & ? & ?). inversion Hfresh as [|? ? Ha Hb']; subst.
    inversion Hb'; subst. exists s1. split_and!; try done; try lia. apply drop_add_op_handles.
Qed.

Lemma AwaitU64_spec : (k = KU64 \/ exists h d, k = KWrite h d) ->
  wp s (AwaitU64 ctx op) (fun '(n, err) s' => exists s1,
    match err with
    | None => waited s ctx s1 /\ value_ok k (VU64 n) /\
              s' = drop_op op (apply_effect k (VU64 n) s1)
    | Some e => n = 0 /\ op_fails s ctx e s1 /\ s' = drop_op op s1
    end).
Proof.
  intros Hk. unfold AwaitU64. apply (await_finish_spec (fun e => (0, Some e))); [eauto|].
  intros v s1 Hw Hv.
  assert (exists n, v = VU64 n) as [n ->].
  { destruct Hk as [->|(? & ? & ->)]; destruct v; try done; eauto. }
  apply wp_bind, wp_trigger.
  { split; [by apply done_loaded|]. exists k, n. by rewrite lookup_done. }
  intros [[rc n'] e] s2 (k0 & n0 & Hl & Hc). rewrite lookup_done in Hl. simplify_eq.
  eapply (collect_free_spec _ _ _ _ _ _ (fun e => (0, Some e))); [done|exact Hc| | |].
  - by intros s3 s4 (_ & ->).
  - eauto.
  - intros (-> & ->). simpl. exists s1. split; [done|]. split; [done|].
    apply drop_add_op_drop.
Qed.

(** What a byte operation yields to the two byte collectors. *)
Definition bytes_value (v : opvalue) (d : bytes) (eof : bool) : Prop :=
  (v = VBytes d /\ eof = false) \/ (v = VEof /\ d = [] /\ eof = true).

Lemma collect_bytes_ok v b eof s1 s2 :
  match v with
  | VBytes d => buf_data b = d /\ eof = 0 /\ gets_buf (add_op op OpTaken s1) b s2
  | VEof => b = nil_buf /\ eof = 1 /\ s2 = add_op op OpTaken s1
  | _ => False
  end ->
  bytes_value v (buf_data b) (negb (eof =? 0)) /\ gets_buf (drop_op op s1) b (drop_op op s2).
Proof.
  intros H. destruct v; try done.
  - destruct H as (<- & -> & Hb). split; [by left|]. by eapply gets_buf_drop_op.
  - destruct H as (-> & -> & ->). split; [by right|]. rewrite drop_add_op_drop.
    split; [done|]. split; [done|]. by rewrite decide_True.
Qed.

Lemma collect_bytes_frame v b eof s3 s4 :
  match v with
  | VBytes d => buf_data b = d /\ eof = 0 /\ gets_buf s3 b s4
  | VEof => b = nil_buf /\ eof = 1 /\ s4 = s3
  | _ => False
  end -> o_ops s4 = o_ops s3 /\ o_loaded s4 = o_loaded s3.
Proof.
  destruct v; try done; intros (_ & _ & H); [|by subst].
  destruct H as (_ & _ & _ & ->). by case_decide.
Qed.

Lemma AwaitBytes_spec : (k = KBytes \/ exists h m, k = KRead h m) ->
  wp s (AwaitBytes ctx op) (fun '(d, eof, err) s' => exists s1,
    match err with
    | None => exists v, waited s ctx s1 /\ value_ok k v /\ bytes_value v d eof /\
                s' = drop_op op (apply_effect k v s1)
    | Some e => d = [] /\ eof = false /\ op_fails s ctx e s1 /\ s' = drop_op op s1
    end).
Proof.
  intros Hk. unfold AwaitBytes. apply (await_finish_spec (fun e => ([], false, Some e))); [eauto|].
  intros v s1 Hw Hv.
  assert (match v with VBytes _ | VEof => True | _ => False end).
  { destruct Hk as [->|(? & ? & ->)]; by destruct v. }
  apply wp_bind, wp_trigger.
  { split; [by apply done_loaded|]. exists k, v. by rewrite lookup_done. }
  intros [[rc [b eof]] e] s2 (k0 & v0 & Hl & Hc). rewrite lookup_done in Hl.
  injection Hl as <- <-.
  eapply (collect_free_spec _ _ _ _ _ _ (fun e => ([], false, Some e))); [done|exact Hc| | |].
  - intros s3 s4. apply collect_bytes_frame.
  - eauto.
  - intros Hb. apply collect_bytes_ok in Hb as [Hbv Hb].
    eapply wp_call; [eapply takeBytes_spec; [|exact Hb]|].
    { simpl. rewrite apply_effect_loaded. eauto with go. }
    intros d s3 (-> & ->). simpl. eauto 7.
Qed.

Lemma AwaitBytesInto_spec dst h : k = KRead h (Z.of_nat (length dst)) ->
  wp s (AwaitBytesInto ctx op dst) (fun '(n, eof, err, dst') s' => exists s1,
    match err with
    | None => exists v d, waited s ctx s1 /\ value_ok k v /\ bytes_value v d eof /\
                n = Z.of_nat (length d) /\ dst' = d ++ drop (length d) dst /\
                s' = drop_op op (apply_effect k v s1)
    | Some e => n = 0 /\ eof = false /\ dst' = dst /\ op_fails s ctx e s1 /\ s' = drop_op op s1
    end).
Proof.
  intros Hk. unfold AwaitBytesInto.
  apply (await_finish_spec (fun e => (0, false, Some e, dst))); [eauto 6|].
  intros v s1 Hw Hv.
  assert (match v with VBytes _ | VEof => True | _ => False end).
  { rewrite Hk in Hv. by destruct v. }
  apply wp_bind, wp_trigger.
  { split; [by apply done_loaded|]. exists k, v. by rewrite lookup_done. }
  intros [[rc [b eof]] e] s2 (k0 & v0 & Hl & Hc). rewrite lookup_done in Hl.
  injection Hl as <- <-.
  eapply (collect_free_spec _ _ _ _ _ _ (fun e => (0, false, Some e, dst)));
    [done|exact Hc| |eauto 6|].
  { intros s3 s4. apply collect_bytes_frame. }
  intros Hb. apply collect_bytes_ok in Hb as [Hbv Hb].
  assert (Hlen : (length (buf_data b) <= length dst)%nat).
  { rewrite Hk in Hv. destruct Hbv as [[-> _]|(_ & -> & _)]; simpl in *; lia. }
  pose proof Hb as (Hnil & _ & _ & Hs2).
  destruct (decide (buf_data b = [])) as [Hd|Hd].
  - rewrite (proj2 Hnil Hd). simpl. exists s1, v, []. rewrite Hd in Hbv.
    rewrite Hs2. by split_and!.
  - destruct (Z.eqb_spec (buf_ptr b) 0) as [Hp|Hp]; [by apply Hnil in Hp|].
    destruct (gets_buf_free _ _ _ Hb Hd) as [Hlook Hset].
    destruct (Z.ltb_spec 0 (buf_len b)) as [Hz|Hz];
      [|unfold buf_len in Hz; destruct (buf_data b); [done|simpl in Hz; lia]].
    simpl negb. cbv iota. unfold go_copy. simpl andb. cbv iota.
    apply wp_bind, wp_trigger.
    { split; [|done]. rewrite (gets_buf_loaded _ _ _ Hb). simpl.
      rewrite apply_effect_loaded. eauto with go. }
    intros [] s3 ->. exists s1, v, (buf_data b).
    rewrite Nat.min_r by done. rewrite take_ge by done. by rewrite Hset.
Qed.

End Await.
