(* ===== verification/Calls.v ===== *)
(** The wrappers of the C functions: [internal/ffi/calls.go].

    A Go slice passed down as pointer and length is the bytes it exposes; a
    slice the library fills comes back as a result, next to the error.
    [runtime.KeepAlive] has no counterpart: it only stops the collector. *)
From S2P Require Import Prelude GoErrors Prog Abi Contract Pump.
Local Open Scope Z_scope.

(** ** Shapes shared by the wrappers *)

(** [if rc != 0 { return takeError(errh) }; return nil] *)
Definition rcError (rc errh : Z) : go error :=
  if negb (rc =? 0) then err ← takeError errh; Ret (Some err) else Ret None.

(** A synchronous call with no result. *)
Definition unit_sync (f : unitcall) : go error :=
  '(rc, _, errh) ← call (CUnit f);
  rcError rc errh.

(** A synchronous call that fills an array. *)
Definition out_sync (f : outcall) : go (bytes * error) :=
  '(rc, out, errh) ← call (COut f);
  err ← rcError rc errh;
  Ret (out, err).

(** A synchronous call that hands out a buffer. *)
Definition text_sync (f : textcall) : go (bytes * error) :=
  '(rc, b, errh) ← call (CText f);
  if negb (rc =? 0) then err ← takeError errh; Ret ([], Some err)
  else s ← takeString b; Ret (s, None).

(** [if err := Load(); err != nil { return ..., err }] *)
Definition loaded {A} (onerr : gerror -> A) (p : go A) : go A :=
  err ← rt RLoad;
  match err with Some e => Ret (onerr e) | None => p end.

(** ** Library-wide *)

(** [src/internal/ffi/calls.go:16-24 SetLogLevel] *)
Definition SetLogLevel (level : Z) : go error :=
  loaded Some (
    rc ← call (setLogLevel level);
    if negb (rc =? 0)
    then Ret (Some (NewError KindInvalidInput (MText "iroh: could not set log level")))
    else Ret None).

(** [src/internal/ffi/calls.go:28-38 IrohVersion] *)
Definition IrohVersion : go (bytes * error) :=
  loaded (fun e => ([], Some e)) (
    b ← call irohVersion;
    s ← takeString b;
    Ret (s, None)).

(** [src/internal/ffi/calls.go:41-46 HandleCount] *)
Definition HandleCount : go (Z * error) :=
  loaded (fun e => (0, Some e)) (n ← call handleCount; Ret (n, None)).

(** [src/internal/ffi/calls.go:53-57 Shutdown] *)
Definition Shutdown : go unit :=
  '(loadErr, bound) ← rt RShutdownGuard;
  match loadErr with
  | None => if bound : bool then call completionWake else Ret tt
  | Some _ => Ret tt
  end.

(** ** Keys *)

(** What a slice holds once the library wrote [b] from its first byte on.  An
    empty slice is a null pointer, which the library leaves alone; of what goes
    past the end of a shorter one only the slice's own part is seen here. *)
Definition fill (out b : bytes) : bytes := take (length out) b ++ drop (length b) out.

(** [src/internal/ffi/calls.go:61-68 SecretKeyGenerate] *)
Definition SecretKeyGenerate (out : bytes) : go (bytes * error) :=
  loaded (fun e => (out, Some e)) (key ← call secretKeyGenerate; Ret (fill out key, None)).

(** A call that fills [out]. *)
Definition fill_sync (out : bytes) (f : outcall) : go (bytes * error) :=
  loaded (fun e => (out, Some e)) ('(b, err) ← out_sync f; Ret (fill out b, err)).

(** [src/internal/ffi/calls.go:70-82 SecretKeyPublic] *)
Definition SecretKeyPublic (key outID : bytes) : go (bytes * error) :=
  fill_sync outID (secretKeyPublic key).

(** [src/internal/ffi/calls.go:84-97 SecretKeySign] *)
Definition SecretKeySign (key msg outSig : bytes) : go (bytes * error) :=
  fill_sync outSig (secretKeySign key msg).

(** [src/internal/ffi/calls.go:99-112 EndpointIDVerify] *)
Definition EndpointIDVerify (id msg sig : bytes) : go error :=
  loaded Some (unit_sync (endpointIDVerify id msg sig)).

(** [src/internal/ffi/calls.go:114-129 EndpointIDFormat] *)
Definition EndpointIDFormat (id : bytes) : go (bytes * error) :=
  loaded (fun e => ([], Some e)) (text_sync (endpointIDFormat id)).

(** [src/internal/ffi/calls.go:131-144 EndpointIDParse] *)
Definition EndpointIDParse (s outID : bytes) : go (bytes * error) :=
  fill_sync outID (endpointIDParse s).

(** ** Addresses and tickets *)

(** [src/internal/ffi/calls.go:150-165 textCall] *)
Definition textCall (input : bytes) (f : bytes -> textcall) : go (bytes * error) :=
  loaded (fun e => ([], Some e)) (text_sync (f input)).

(** [src/internal/ffi/calls.go:168-172 AddrNormalize] *)
Definition AddrNormalize (text : bytes) : go (bytes * error) := textCall text addrNormalize.
(** [src/internal/ffi/calls.go:175-179 TicketEncode] *)
Definition TicketEncode (text : bytes) : go (bytes * error) := textCall text ticketEncode.
(** [src/internal/ffi/calls.go:182-186 TicketDecode] *)
Definition TicketDecode (ticket : bytes) : go (bytes * error) := textCall ticket ticketDecode.

(** ** Options *)

(** [src/internal/ffi/calls.go:190-195 OptionsNew] *)
Definition OptionsNew (preset : Z) : go (Z * error) :=
  loaded (fun e => (0, Some e)) (h ← call (optionsNew preset); Ret (h, None)).

(** [src/internal/ffi/calls.go:197-197 OptionsFree] *)
Definition OptionsFree (h : Z) : go unit := call (CFree (optionsFree h)).

(** [src/internal/ffi/calls.go:199-207 OptionsSetSecretKey] *)
Definition OptionsSetSecretKey (h : Z) (key : bytes) : go error :=
  unit_sync (optionsSetSecretKey h key).
(** [src/internal/ffi/calls.go:209-217 OptionsAddALPN] *)
Definition OptionsAddALPN (h : Z) (alpn : bytes) : go error := unit_sync (optionsAddALPN h alpn).
(** [src/internal/ffi/calls.go:219-225 OptionsSetRelayMode] *)
Definition OptionsSetRelayMode (h mode : Z) : go error := unit_sync (optionsSetRelayMode h mode).
(** [src/internal/ffi/calls.go:227-236 OptionsAddRelayURL] *)
Definition OptionsAddRelayURL (h : Z) (url : bytes) : go error :=
  unit_sync (optionsAddRelayURL h url).
(** [src/internal/ffi/calls.go:238-247 OptionsAddBindAddr] *)
Definition OptionsAddBindAddr (h : Z) (addr : bytes) : go error :=
  unit_sync (optionsAddBindAddr h addr).

(** ** Endpoint *)

(** [src/internal/ffi/calls.go:252-254 EndpointBind] *)
Definition EndpointBind (ctx options : Z) : go (Z * error) :=
  op ← call (CStart (endpointBind options)); AwaitHandle ctx op.

(** [src/internal/ffi/calls.go:256-264 EndpointID] *)
Definition ffi_EndpointID (h : Z) : go (bytes * error) := out_sync (endpointID h).
(** [src/internal/ffi/calls.go:266-276 EndpointAddr] *)
Definition ffi_EndpointAddr (h : Z) : go (bytes * error) := text_sync (endpointAddr h).
(** [src/internal/ffi/calls.go:278-288 EndpointBoundSockets] *)
Definition EndpointBoundSockets (h : Z) : go (bytes * error) := text_sync (endpointSockets h).

(** [src/internal/ffi/calls.go:290-295 EndpointRemoteInfo] *)
Definition EndpointRemoteInfo (ctx h : Z) (id : bytes) : go (bytes * error) :=
  op ← call (CStart (endpointRemoteInfo h id));
  '(text, _, err) ← AwaitBytes ctx op;
  Ret (text, err).

(** [src/internal/ffi/calls.go:297-299 EndpointOnline] *)
Definition EndpointOnline (ctx h : Z) : go error :=
  op ← call (CStart (endpointOnline h)); AwaitUnit ctx op.
(** [src/internal/ffi/calls.go:301-311 EndpointHomeRelay] *)
Definition EndpointHomeRelay (h : Z) : go (bytes * error) := text_sync (endpointHomeRelay h).
(** [src/internal/ffi/calls.go:313-319 EndpointConnect] *)
Definition EndpointConnect (ctx h : Z) (addr alpn : bytes) : go (Z * error) :=
  op ← call (CStart (endpointConnect h addr alpn)); AwaitHandle ctx op.
(** [src/internal/ffi/calls.go:321-323 EndpointAccept] *)
Definition EndpointAccept (ctx h : Z) : go (Z * error) :=
  op ← call (CStart (endpointAccept h)); AwaitHandle ctx op.
(** [src/internal/ffi/calls.go:325-327 EndpointClose] *)
Definition EndpointClose (ctx h : Z) : go error :=
  op ← call (CStart (endpointClose h)); AwaitUnit ctx op.
(** [src/internal/ffi/calls.go:329-329 EndpointFree] *)
Definition EndpointFree (h : Z) : go unit := call (CFree (endpointFree h)).

(** ** Connection *)

(** [src/internal/ffi/calls.go:333-335 ConnOpenBi] *)
Definition ConnOpenBi (ctx h : Z) : go (Z * Z * error) :=
  op ← call (CStart (connOpenBi h)); AwaitHandle2 ctx op.
(** [src/internal/ffi/calls.go:337-339 ConnAcceptBi] *)
Definition ConnAcceptBi (ctx h : Z) : go (Z * Z * error) :=
  op ← call (CStart (connAcceptBi h)); AwaitHandle2 ctx op.
(** [src/internal/ffi/calls.go:341-343 ConnOpenUni] *)
Definition ConnOpenUni (ctx h : Z) : go (Z * error) :=
  op ← call (CStart (connOpenUni h)); AwaitHandle ctx op.
(** [src/internal/ffi/calls.go:345-347 ConnAcceptUni] *)
Definition ConnAcceptUni (ctx h : Z) : go (Z * error) :=
  op ← call (CStart (connAcceptUni h)); AwaitHandle ctx op.
(** [src/internal/ffi/calls.go:349-357 ConnSendDatagram] *)
Definition ConnSendDatagram (h : Z) (data : bytes) : go error :=
  unit_sync (connSendDatagram h data).
(** [src/internal/ffi/calls.go:359-362 ConnReadDatagram] *)
Definition ConnReadDatagram (ctx h : Z) : go (bytes * error) :=
  op ← call (CStart (connReadDatagram h));
  '(data, _, err) ← AwaitBytes ctx op;
  Ret (data, err).
(** [src/internal/ffi/calls.go:364-370 ConnMaxDatagramSize] *)
Definition ConnMaxDatagramSize (h : Z) : go (Z * error) :=
  '(rc, size, errh) ← call (connMaxDatagramSize h);
  if negb (rc =? 0) then err ← takeError errh; Ret (0, Some err) else Ret (size, None).
(** [src/internal/ffi/calls.go:372-380 ConnRemoteID] *)
Definition ConnRemoteID (h : Z) : go (bytes * error) := out_sync (connRemoteID h).
(** [src/internal/ffi/calls.go:382-392 ConnALPN] *)
Definition ConnALPN (h : Z) : go (bytes * error) := text_sync (connALPN h).
(** [src/internal/ffi/calls.go:394-405 ConnStats] *)
Definition ffi_ConnStats (h : Z) : go (list Z * error) :=
  '(rc, stats, errh) ← call (connStats h (Z.of_nat StatsLen));
  err ← rcError rc errh;
  Ret (stats, err).
(** [src/internal/ffi/calls.go:407-417 ConnPaths] *)
Definition ConnPaths (h : Z) : go (bytes * error) := text_sync (connPaths h).
(** [src/internal/ffi/calls.go:419-427 ConnClose] *)
Definition ConnClose (h code : Z) (reason : bytes) : go error :=
  unit_sync (connClose h code reason).
(** [src/internal/ffi/calls.go:429-432 ConnClosed] *)
Definition ConnClosed (ctx h : Z) : go (bytes * error) :=
  op ← call (CStart (connClosed h));
  '(reason, _, err) ← AwaitBytes ctx op;
  Ret (reason, err).
(** [src/internal/ffi/calls.go:434-434 ConnFree] *)
Definition ConnFree (h : Z) : go unit := call (CFree (connFree h)).

(** ** Streams *)

(** [src/internal/ffi/calls.go:438-442 SendWrite] *)
Definition SendWrite (ctx h : Z) (data : bytes) : go (Z * error) :=
  op ← call (CStart (sendWrite h data)); AwaitU64 ctx op.
(** [src/internal/ffi/calls.go:444-446 SendFinish] *)
Definition SendFinish (ctx h : Z) : go error :=
  op ← call (CStart (sendFinish h)); AwaitUnit ctx op.
(** [src/internal/ffi/calls.go:448-450 SendReset] *)
Definition SendReset (ctx h code : Z) : go error :=
  op ← call (CStart (sendReset h code)); AwaitUnit ctx op.
(** [src/internal/ffi/calls.go:452-454 SendSetPriority] *)
Definition SendSetPriority (ctx h priority : Z) : go error :=
  op ← call (CStart (sendSetPriority h priority)); AwaitUnit ctx op.
(** [src/internal/ffi/calls.go:456-458 SendStopped] *)
Definition SendStopped (ctx h : Z) : go (Z * error) :=
  op ← call (CStart (sendStopped h)); AwaitU64 ctx op.
(** [src/internal/ffi/calls.go:460-460 SendFree] *)
Definition SendFree (h : Z) : go unit := call (CFree (sendFree h)).
(** [src/internal/ffi/calls.go:466-469 RecvRead] *)
Definition RecvRead (ctx h : Z) (dst : bytes) : go (Z * bool * error * bytes) :=
  op ← call (CStart (recvRead h (Z.of_nat (length dst)))); AwaitBytesInto ctx op dst.
(** [src/internal/ffi/calls.go:471-473 RecvStop] *)
Definition RecvStop (ctx h code : Z) : go error :=
  op ← call (CStart (recvStop h code)); AwaitUnit ctx op.
(** [src/internal/ffi/calls.go:475-475 RecvFree] *)
Definition RecvFree (h : Z) : go unit := call (CFree (recvFree h)).

(** ** The exported surface

    Every exported function of the file, run for what it leaves behind: its
    error, and the library objects it hands to its caller. *)
Inductive entry : Set :=
| ESetLogLevel (level : Z) | EIrohVersion | EHandleCount | EShutdown
| ESecretKeyGenerate (out : bytes) | ESecretKeyPublic (key outID : bytes)
| ESecretKeySign (key msg outSig : bytes) | EEndpointIDVerify (id msg sig : bytes)
| EEndpointIDFormat (id : bytes) | EEndpointIDParse (s outID : bytes)
| EAddrNormalize (text : bytes) | ETicketEncode (text : bytes) | ETicketDecode (text : bytes)
| EOptionsNew (preset : Z) | EOptionsFree (h : Z)
| EOptionsSetSecretKey (h : Z) (key : bytes) | EOptionsAddALPN (h : Z) (alpn : bytes)
| EOptionsSetRelayMode (h mode : Z) | EOptionsAddRelayURL (h : Z) (url : bytes)
| EOptionsAddBindAddr (h : Z) (addr : bytes)
| EEndpointBind (options : Z) | EEndpointID (h : Z) | EEndpointAddr (h : Z)
| EEndpointBoundSockets (h : Z) | EEndpointRemoteInfo (h : Z) (id : bytes)
| EEndpointOnline (h : Z) | EEndpointHomeRelay (h : Z)
| EEndpointConnect (h : Z) (addr alpn : bytes) | EEndpointAccept (h : Z)
| EEndpointClose (h : Z) | EEndpointFree (h : Z)
| EConnOpenBi (h : Z) | EConnAcceptBi (h : Z) | EConnOpenUni (h : Z) | EConnAcceptUni (h : Z)
| EConnSendDatagram (h : Z) (data : bytes) | EConnReadDatagram (h : Z)
| EConnMaxDatagramSize (h : Z) | EConnRemoteID (h : Z) | EConnALPN (h : Z)
| EConnStats (h : Z) | EConnPaths (h : Z) | EConnClose (h code : Z) (reason : bytes)
| EConnClosed (h : Z) | EConnFree (h : Z)
| ESendWrite (h : Z) (data : bytes) | ESendFinish (h : Z) | ESendReset (h code : Z)
| ESendSetPriority (h priority : Z) | ESendStopped (h : Z) | ESendFree (h : Z)
| ERecvRead (h : Z) (dst : bytes) | ERecvStop (h code : Z) | ERecvFree (h : Z).

Definition no_error (p : go unit) : go (error * list Z) := p;; Ret (None, []).
Definition just_error (p : go error) : go (error * list Z) := err ← p; Ret (err, []).
Definition drop_value {A} (p : go (A * error)) : go (error * list Z) :=
  '(_, err) ← p; Ret (err, []).
Definition gives_handle (p : go (Z * error)) : go (error * list Z) :=
  '(h, err) ← p; Ret (err, match err with None => [h] | Some _ => [] end).
Definition gives_handles (p : go (Z * Z * error)) : go (error * list Z) :=
  '(a, b, err) ← p; Ret (err, match err with None => [a; b] | Some _ => [] end).

Definition entry_run (ctx : Z) (e : entry) : go (error * list Z) :=
  match e with
  | ESetLogLevel level => just_error (SetLogLevel level)
  | EIrohVersion => drop_value IrohVersion
  | EHandleCount => drop_value HandleCount
  | EShutdown => no_error Shutdown
  | ESecretKeyGenerate out => drop_value (SecretKeyGenerate out)
  | ESecretKeyPublic key outID => drop_value (SecretKeyPublic key outID)
  | ESecretKeySign key msg outSig => drop_value (SecretKeySign key msg outSig)
  | EEndpointIDVerify id msg sig => just_error (EndpointIDVerify id msg sig)
  | EEndpointIDFormat id => drop_value (EndpointIDFormat id)
  | EEndpointIDParse s outID => drop_value (EndpointIDParse s outID)
  | EAddrNormalize text => drop_value (AddrNormalize text)
  | ETicketEncode text => drop_value (TicketEncode text)
  | ETicketDecode text => drop_value (TicketDecode text)
  | EOptionsNew preset => gives_handle (OptionsNew preset)
  | EOptionsFree h => no_error (OptionsFree h)
  | EOptionsSetSecretKey h key => just_error (OptionsSetSecretKey h key)
  | EOptionsAddALPN h alpn => just_error (OptionsAddALPN h alpn)
  | EOptionsSetRelayMode h mode => just_error (OptionsSetRelayMode h mode)
  | EOptionsAddRelayURL h url => just_error (OptionsAddRelayURL h url)
  | EOptionsAddBindAddr h addr => just_error (OptionsAddBindAddr h addr)
  | EEndpointBind options => gives_handle (EndpointBind ctx options)
  | EEndpointID h => drop_value (ffi_EndpointID h)
  | EEndpointAddr h => drop_value (ffi_EndpointAddr h)
  | EEndpointBoundSockets h => drop_value (EndpointBoundSockets h)
  | EEndpointRemoteInfo h id => drop_value (EndpointRemoteInfo ctx h id)
  | EEndpointOnline h => just_error (EndpointOnline ctx h)
  | EEndpointHomeRelay h => drop_value (EndpointHomeRelay h)
  | EEndpointConnect h addr alpn => gives_handle (EndpointConnect ctx h addr alpn)
  | EEndpointAccept h => gives_handle (EndpointAccept ctx h)
  | EEndpointClose h => just_error (EndpointClose ctx h)
  | EEndpointFree h => no_error (EndpointFree h)
  | EConnOpenBi h => gives_handles (ConnOpenBi ctx h)
  | EConnAcceptBi h => gives_handles (ConnAcceptBi ctx h)
  | EConnOpenUni h => gives_handle (ConnOpenUni ctx h)
  | EConnAcceptUni h => gives_handle (ConnAcceptUni ctx h)
  | EConnSendDatagram h data => just_error (ConnSendDatagram h data)
  | EConnReadDatagram h => drop_value (ConnReadDatagram ctx h)
  | EConnMaxDatagramSize h => drop_value (ConnMaxDatagramSize h)
  | EConnRemoteID h => drop_value (ConnRemoteID h)
  | EConnALPN h => drop_value (ConnALPN h)
  | EConnStats h => drop_value (ffi_ConnStats h)
  | EConnPaths h => drop_value (ConnPaths h)
  | EConnClose h code reason => just_error (ConnClose h code reason)
  | EConnClosed h => drop_value (ConnClosed ctx h)
  | EConnFree h => no_error (ConnFree h)
  | ESendWrite h data => drop_value (SendWrite ctx h data)
  | ESendFinish h => just_error (SendFinish ctx h)
  | ESendReset h code => just_error (SendReset ctx h code)
  | ESendSetPriority h priority => just_error (SendSetPriority ctx h priority)
  | ESendStopped h => drop_value (SendStopped ctx h)
  | ESendFree h => no_error (SendFree h)
  | ERecvRead h dst => '(_, _, err, _) ← RecvRead ctx h dst; Ret (err, [])
  | ERecvStop h code => just_error (RecvStop ctx h code)
  | ERecvFree h => no_error (RecvFree h)
  end.

(** What the callers of an entry point owe it: a loaded library where it does
    not load it itself, a handle where it takes one, arrays of the right size,
    and ownership of what it consumes. *)
Definition entry_pre (s : owned) (e : entry) : Prop :=
  match e with
  | ESetLogLevel _ | EIrohVersion | EHandleCount | EShutdown | ESecretKeyGenerate _
  | EEndpointIDParse _ _ | EAddrNormalize _ | ETicketEncode _ | ETicketDecode _
  | EOptionsNew _ => True
  | ESecretKeyPublic key _ | ESecretKeySign key _ _ => length key = 32%nat
  | EEndpointIDVerify id _ sig => length id = 32%nat /\ length sig = 64%nat
  | EEndpointIDFormat id => length id = 32%nat
  | EOptionsFree h | EEndpointFree h | EConnFree h | ESendFree h | ERecvFree h =>
      o_loaded s = true /\ h ∈ o_handles s
  | EEndpointBind h => o_loaded s = true /\ h ∈ o_handles s /\ h ∈ o_opts s
  | EOptionsSetSecretKey h key => o_loaded s = true /\ h <> 0 /\ length key = 32%nat
  | EEndpointRemoteInfo h id => o_loaded s = true /\ h <> 0 /\ length id = 32%nat
  | ERecvRead h dst => o_loaded s = true /\ h <> 0 /\ 0 < Z.of_nat (length dst) < two63
  | EOptionsAddALPN h _ | EOptionsSetRelayMode h _ | EOptionsAddRelayURL h _
  | EOptionsAddBindAddr h _ | EEndpointID h | EEndpointAddr h | EEndpointBoundSockets h
  | EEndpointOnline h | EEndpointHomeRelay h | EEndpointConnect h _ _ | EEndpointAccept h
  | EEndpointClose h | EConnOpenBi h | EConnAcceptBi h | EConnOpenUni h | EConnAcceptUni h
  | EConnSendDatagram h _ | EConnReadDatagram h | EConnMaxDatagramSize h | EConnRemoteID h
  | EConnALPN h | EConnStats h | EConnPaths h | EConnClose h _ _ | EConnClosed h
  | ESendWrite h _ | ESendFinish h | ESendReset h _ | ESendSetPriority h _ | ESendStopped h
  | ERecvStop h _ => o_loaded s = true /\ h <> 0
  end.

(** The objects an entry point takes from its caller. *)
Definition consumes (e : entry) : list Z :=
  match e with
  | EOptionsFree h | EEndpointFree h | EConnFree h | ESendFree h | ERecvFree h
  | EEndpointBind h => [h]
  | _ => []
  end.

(** Nothing left behind: the goroutine's debts are what they were, and the
    objects it holds are those it held, less what was consumed, plus what the
    call returned; an error returns none. *)
Definition settled (s : owned) (e : entry) (err : error) (hs : list Z) (s' : owned) : Prop :=
  same_debts s s' /\
  o_handles s' = list_to_set hs ∪ (o_handles s ∖ list_to_set (consumes e)) /\
  (err <> None -> hs = []).

(** ** Lemmas: synchronous calls *)

Definition is_iroh (e : gerror) : Prop := exists k m, e = IrohError k m.

Lemma loaded_spec {A} s (onerr : gerror -> A) (p : go A) Q :
  (forall e, Q (onerr e) s) -> wp (set_loaded true s) p Q -> wp s (loaded onerr p) Q.
Proof.
  intros He Hp. apply wp_bind, wp_trigger; [done|].
  intros [e|] s' ->; [apply He|exact Hp].
Qed.

Lemma rcError_spec s rc e s' :
  o_loaded s = true -> gets_rc s rc e s' ->
  wp s' (rcError rc e) (fun err s'' => s'' = s /\
    match err with None => rc = 0 | Some e' => rc <> 0 /\ is_iroh e' end).
Proof.
  intros Hl H. unfold rcError, gets_rc in *. destruct (Z.eqb_spec rc 0) as [->|Hrc].
  - rewrite decide_True in H by done. destruct H as [_ ->]. by simpl.
  - rewrite decide_False in H by done.
    eapply wp_call; [eapply takeError_spec; [|exact H]; done|].
    by intros err s'' [-> Hi].
Qed.

Lemma unit_sync_spec s f :
  o_loaded s = true -> unit_pre f ->
  wp s (unit_sync f) (fun err s' => s' = s /\ (forall e, err = Some e -> is_iroh e)).
Proof.
  intros Hl Hp. apply wp_bind, wp_trigger; [done|].
  intros [[rc []] e] s1 H. simpl in H.
  eapply wp_mono; [eapply rcError_spec; [|exact H]; done|].
  intros [e'|] s' [-> He]; (split; [done|]); intros e0 [= <-]. apply He.
Qed.

Lemma out_sync_spec s f :
  o_loaded s = true -> out_pre f ->
  wp s (out_sync f) (fun '(out, err) s' => s' = s /\ length out = out_size f /\
    (forall e, err = Some e -> is_iroh e)).
Proof.
  intros Hl Hp. apply wp_bind, wp_trigger; [done|].
  intros [[rc out] e] s1 [Hlen H]. simpl in H.
  eapply wp_call; [eapply rcError_spec; [|exact H]; done|].
  intros [e'|] s' [-> He]; simpl; (split; [done|]); (split; [done|]); intros e0 [= <-]. apply He.
Qed.

Lemma text_sync_spec s f :
  o_loaded s = true -> text_pre f ->
  wp s (text_sync f) (fun '(text, err) s' => s' = s /\
    (forall e, err = Some e -> text = [] /\ is_iroh e)).
Proof.
  intros Hl Hp. apply wp_bind, wp_trigger; [done|].
  intros [[rc b] e] s1 H. simpl in H. unfold gets_text in H.
  destruct (Z.eqb_spec rc 0) as [->|Hrc]; simpl.
  - rewrite decide_True in H by done. destruct H as [_ Hb].
    eapply wp_call; [eapply takeBytes_spec; [|exact Hb]; done|].
    intros d s' [-> ->]. by simpl.
  - rewrite decide_False in H by done. destruct H as [_ He].
    eapply wp_call; [eapply takeError_spec; [|exact He]; done|].
    intros e' s' [-> Hi]. simpl. split; [done|]. intros e0 [= <-]. done.
Qed.

(** ** Lemmas: operations *)

(** The state a start call is accounted from: bind has consumed its options. *)
Definition base (f : startcall) (s : owned) : owned :=
  match f with endpointBind o => drop_handle o s | _ => s end.

Lemma base_loaded f s : o_loaded (base f s) = o_loaded s.
Proof. by destruct f. Qed.

Section Start.
Context (s : owned) (ctx : Z) (f : startcall).
Hypothesis Hloaded : o_loaded s = true.
Hypothesis Hpre : start_pre s f.

(** Start, then wait: the wait runs on a fresh operation, or on none. *)
Lemma start_spec {A} (p : Z -> go A) (Q : A -> owned -> Prop) :
  wp (base f s) (p 0) Q ->
  (forall op, op <> 0 -> o_ops (base f s) !! op = None ->
     wp (add_op op (OpRunning (kind_of f)) (base f s)) (p op) Q) ->
  wp s (op ← call (CStart f); p op) Q.
Proof.
  intros H0 Hop. apply wp_bind, wp_trigger; [done|].
  intros op s' [Hr [(-> & ->)|(Hnz & Hnew & ->)]]; [exact H0|].
  apply Hop; [done|]. by destruct f.
Qed.

Lemma base_loaded_true : o_loaded (base f s) = true.
Proof. by rewrite base_loaded. Qed.

Lemma start_unit : kind_of f = KUnit ->
  wp s (op ← call (CStart f); AwaitUnit ctx op) (fun err s' =>
    match err with None => waited (base f s) ctx s' | Some e => op_fails (base f s) ctx e s' end).
Proof.
  intros Hk. apply start_spec; [apply op_fails_now|].
  intros op Hnz Hnew. eapply wp_mono.
  - apply (AwaitUnit_spec _ ctx op KUnit); try done.
    + apply base_loaded_true. + rewrite Hk. apply lookup_add_op.
  - intros [e|] s' (s1 & -> & H); eauto with go.
Qed.

Lemma start_handle : kind_of f = KHandle ->
  wp s (op ← call (CStart f); AwaitHandle ctx op) (fun '(h, err) s' =>
    match err with
    | None => exists s1, waited (base f s) ctx s1 /\ 0 < h /\ (h ∉ o_handles s1) /\
                s' = add_handles [h] s1
    | Some e => h = 0 /\ op_fails (base f s) ctx e s'
    end).
Proof.
  intros Hk. apply start_spec; [split; [done|apply op_fails_now]|].
  intros op Hnz Hnew. eapply wp_mono.
  - apply (AwaitHandle_spec _ ctx op KHandle); try done.
    + apply base_loaded_true. + rewrite Hk. apply lookup_add_op.
  - intros [h [e|]] s' (s1 & H).
    + destruct H as (-> & H & ->). eauto with go.
    + destruct H as (H & Hh & Hf & ->). exists (drop_op op s1). eauto with go.
Qed.

Lemma start_handle2 : kind_of f = KHandle2 ->
  wp s (op ← call (CStart f); AwaitHandle2 ctx op) (fun '(a, b, err) s' =>
    match err with
    | None => exists s1, waited (base f s) ctx s1 /\ 0 < a /\ 0 < b /\ a <> b /\
                (a ∉ o_handles s1) /\ (b ∉ o_handles s1) /\ s' = add_handles [a; b] s1
    | Some e => a = 0 /\ b = 0 /\ op_fails (base f s) ctx e s'
    end).
Proof.
  intros Hk. apply start_spec; [split_and!; try done; apply op_fails_now|].
  intros op Hnz Hnew. eapply wp_mono.
  - apply (AwaitHandle2_spec _ ctx op KHandle2); try done.
    + apply base_loaded_true. + rewrite Hk. apply lookup_add_op.
  - intros [[a b] [e|]] s' (s1 & H).
    + destruct H as (-> & -> & H & ->). eauto with go.
    + destruct H as (H & Ha & Hb & Hab & Hfa & Hfb & ->).
      exists (drop_op op s1).
      refine (conj _ (conj Ha (conj Hb (conj Hab (conj Hfa (conj Hfb eq_refl)))))).
      eauto with go.
Qed.

Lemma start_u64 : (kind_of f = KU64 \/ exists h d, kind_of f = KWrite h d) ->
  wp s (op ← call (CStart f); AwaitU64 ctx op) (fun '(n, err) s' =>
    match err with
    | None => exists s1, waited (base f s) ctx s1 /\ value_ok (kind_of f) (VU64 n) /\
                s' = apply_effect (kind_of f) (VU64 n) s1
    | Some e => n = 0 /\ op_fails (base f s) ctx e s'
    end).
Proof.
  intros Hk. apply start_spec; [split; [done|apply op_fails_now]|].
  intros op Hnz Hnew. eapply wp_mono.
  - apply (AwaitU64_spec _ ctx op (kind_of f)); try done.
    + apply base_loaded_true. + apply lookup_add_op.
  - intros [n [e|]] s' (s1 & H).
    + destruct H as (-> & H & ->). eauto with go.
    + destruct H as (H & Hv & ->). exists (drop_op op s1).
      rewrite <-apply_effect_drop_op. eauto with go.
Qed.

Lemma start_bytes : (kind_of f = KBytes \/ exists h m, kind_of f = KRead h m) ->
  wp s (op ← call (CStart f); AwaitBytes ctx op) (fun '(d, eof, err) s' =>
    match err with
    | None => exists s1 v, waited (base f s) ctx s1 /\ value_ok (kind_of f) v /\
                bytes_value v d eof /\ s' = apply_effect (kind_of f) v s1
    | Some e => d = [] /\ eof = false /\ op_fails (base f s) ctx e s'
    end).
Proof.
  intros Hk. apply start_spec; [split_and!; try done; apply op_fails_now|].
  intros op Hnz Hnew. eapply wp_mono.
  - apply (AwaitBytes_spec _ ctx op (kind_of f)); try done.
    + apply base_loaded_true. + apply lookup_add_op.
  - intros [[d eof] [e|]] s' (s1 & H).
    + destruct H as (-> & -> & H & ->). eauto with go.
    + destruct H as (v & H & Hv & Hb & ->). exists (drop_op op s1), v.
      rewrite <-apply_effect_drop_op. eauto with go.
Qed.

Lemma start_into dst h : kind_of f = KRead h (Z.of_nat (length dst)) ->
  wp s (op ← call (CStart f); AwaitBytesInto ctx op dst) (fun '(n, eof, err, dst') s' =>
    match err with
    | None => exists s1 v d, waited (base f s) ctx s1 /\ value_ok (kind_of f) v /\
                bytes_value v d eof /\ n = Z.of_nat (length d) /\
                dst' = d ++ drop (length d) dst /\ s' = apply_effect (kind_of f) v s1
    | Some e => n = 0 /\ eof = false /\ dst' = dst /\ op_fails (base f s) ctx e s'
    end).
Proof.
  intros Hk. apply start_spec; [split_and!; try done; apply op_fails_now|].
  intros op Hnz Hnew. eapply wp_mono.
  - apply (AwaitBytesInto_spec _ ctx op (kind_of f)) with (h := h); try done.
    + apply base_loaded_true. + apply lookup_add_op.
  - intros [[[n eof] [e|]] dst'] s' (s1 & H).
    + destruct H as (-> & -> & -> & H & ->). eauto with go.
    + destruct H as (v & d & H & Hv & Hb & -> & -> & ->). exists (drop_op op s1), v, d.
      rewrite <-apply_effect_drop_op. split_and!; eauto with go.
Qed.

End Start.

(** ** Lemmas: what each shape leaves behind *)

Definition quiet (s : owned) (s' : owned) : Prop :=
  same_debts s s' /\ o_handles s' = o_handles s.

Lemma quiet_waited s ctx s' : waited s ctx s' -> quiet s s'.
Proof. apply waited_debts. Qed.

Lemma quiet_fails s ctx e s' : op_fails s ctx e s' -> quiet s s'.
Proof. intros H. eapply quiet_waited, op_fails_waited, H. Qed.

Lemma quiet_effect s ctx k v s1 : waited s ctx s1 -> quiet s (apply_effect k v s1).
Proof.
  intros H. destruct (waited_debts _ _ _ H) as [H1 H2], (apply_effect_debts k v s1) as [H3 H4].
  split; [by transitivity s1|congruence].
Qed.

Lemma quiet_settled s e s' err : consumes e = [] -> quiet s s' -> settled s e err [] s'.
Proof. intros Hc [H1 H2]. split; [done|]. rewrite H2, Hc. simpl. split; [set_solver|done]. Qed.

#[export] Hint Resolve quiet_waited quiet_fails quiet_effect quiet_settled : go.

Lemma just_error_spec s (p : go error) e :
  consumes e = [] -> wp s p (fun _ s' => quiet s s') ->
  wp s (just_error p) (fun '(err, hs) s' => settled s e err hs s').
Proof. intros Hc Hp. eapply wp_call; [exact Hp|]. simpl. eauto with go. Qed.

Lemma drop_value_spec {A} s (p : go (A * error)) e :
  consumes e = [] -> wp s p (fun _ s' => quiet s s') ->
  wp s (drop_value p) (fun '(err, hs) s' => settled s e err hs s').
Proof. intros Hc Hp. eapply wp_call; [exact Hp|]. intros [a err] s' H. simpl. eauto with go. Qed.

Lemma free_spec s f e :
  o_loaded s = true -> freed_handle f ∈ o_handles s -> consumes e = [freed_handle f] ->
  wp s (no_error (call (CFree f))) (fun '(err, hs) s' => settled s e err hs s').
Proof.
  intros Hl Hh Hc. apply wp_bind, wp_trigger; [done|]. intros [] s' ->. simpl.
  split; [done|]. rewrite Hc. simpl. split; [set_solver|done].
Qed.

Lemma gives_handle_spec s ctx f e :
  o_loaded s = true -> start_pre s f -> kind_of f = KHandle ->
  o_handles (base f s) = o_handles s ∖ list_to_set (consumes e) ->
  wp s (gives_handle (op ← call (CStart f); AwaitHandle ctx op))
    (fun '(err, hs) s' => settled s e err hs s').
Proof.
  intros Hl Hp Hk Hb. eapply wp_call; [by apply start_handle|].
  assert (Hd : same_debts s (base f s)) by (by destruct f).
  intros [h [e'|]] s'.
  - intros [-> Hf]. apply quiet_fails in Hf as [H1 H2]. simpl.
    split; [by transitivity (base f s)|]. rewrite H2, Hb. simpl. split; [set_solver|done].
  - intros (s1 & Hw & _ & _ & ->). apply quiet_waited in Hw as [H1 H2]. simpl.
    split; [by transitivity (base f s)|]. simpl. rewrite H2, Hb. split; [set_solver|done].
Qed.

Lemma gives_handles_spec s ctx f e :
  o_loaded s = true -> start_pre s f -> kind_of f = KHandle2 -> consumes e = [] ->
  wp s (gives_handles (op ← call (CStart f); AwaitHandle2 ctx op))
    (fun '(err, hs) s' => settled s e err hs s').
Proof.
  intros Hl Hp Hk Hc. eapply wp_call; [by apply start_handle2|].
  assert (Hb : base f s = s) by (by destruct f). rewrite Hb.
  intros [[a b] [e'|]] s'.
  - intros (-> & -> & Hf). simpl. eauto with go.
  - intros (s1 & Hw & _ & _ & _ & _ & _ & ->). apply quiet_waited in Hw as [H1 H2]. simpl.
    split; [done|]. simpl. rewrite H2, Hc. split; [set_solver|done].
Qed.

Lemma unit_op_quiet s ctx f :
  o_loaded s = true -> start_pre s f -> kind_of f = KUnit ->
  wp s (op ← call (CStart f); AwaitUnit ctx op) (fun _ s' => quiet s s').
Proof.
  intros Hl Hp Hk. eapply wp_mono; [by apply start_unit|].
  assert (Hb : base f s = s) by (by destruct f). rewrite Hb.
  intros [e|] s' H; eauto with go.
Qed.

Lemma u64_op_quiet s ctx f :
  o_loaded s = true -> start_pre s f ->
  (kind_of f = KU64 \/ exists h d, kind_of f = KWrite h d) ->
  wp s (op ← call (CStart f); AwaitU64 ctx op) (fun _ s' => quiet s s').
Proof.
  intros Hl Hp Hk. eapply wp_mono; [by apply start_u64|].
  assert (Hb : base f s = s) by (destruct f; simpl in Hk; naive_solver). rewrite Hb.
  intros [n [e|]] s'; [intros (_ & H); eauto with go|].
  intros (s1 & Hw & _ & ->). eauto with go.
Qed.

Lemma bytes_op_quiet s ctx f :
  o_loaded s = true -> start_pre s f -> kind_of f = KBytes ->
  wp s (op ← call (CStart f); '(d, _, err) ← AwaitBytes ctx op; Ret (d, err))
    (fun _ s' => quiet s s').
Proof.
  intros Hl Hp Hk.
  assert (Hb : base f s = s) by (by destruct f).
  pose proof (start_bytes s ctx f Hl Hp (or_introl Hk)) as H. rewrite Hb in H.
  apply wp_bind_inv in H. apply wp_bind. eapply wp_mono; [exact H|].
  intros op s1 H1. eapply wp_call; [exact H1|].
  intros [[d eof] [e|]] s'; simpl; [intros (_ & _ & Hf); eauto with go|].
  intros (s2 & v & Hw & _ & _ & ->). eauto with go.
Qed.

Lemma sync_quiet {A} s (p : go A) (P : A -> Prop) :
  wp s p (fun a s' => s' = s /\ P a) -> wp s p (fun _ s' => quiet s s').
Proof. intros H. eapply wp_mono; [exact H|]. by intros a s' [-> _]. Qed.

Lemma loaded_quiet {A} s (onerr : gerror -> A) (p : go A) :
  wp (set_loaded true s) p (fun _ s' => quiet (set_loaded true s) s') ->
  wp s (loaded onerr p) (fun _ s' => quiet s s').
Proof. intros H. apply loaded_spec; [done|exact H]. Qed.

(** A call that may load the library first, and otherwise changes nothing. *)
Definition steady (s s' : owned) : Prop := s' = s \/ s' = set_loaded true s.

Lemma steady_quiet s s' : steady s s' -> quiet s s'.
Proof. by intros [->| ->]. Qed.

Lemma steady_refl s : steady s s.
Proof. by left. Qed.

Lemma steady_trans s t u : steady s t -> steady t u -> steady s u.
Proof. intros [->| ->] [->| ->]; unfold steady; auto. Qed.

Lemma steady_loaded s s' : o_loaded s = true -> steady s s' -> o_loaded s' = true.
Proof. by intros Hl [->| ->]. Qed.

Lemma steady_objs s s' : steady s s' -> o_objs s' = o_objs s.
Proof. by intros [->| ->]. Qed.

#[export] Hint Resolve steady_quiet steady_refl steady_loaded : go.

Lemma loaded_steady {A} s (onerr : gerror -> A) (p : go A) :
  wp (set_loaded true s) p (fun _ s' => s' = set_loaded true s) ->
  wp s (loaded onerr p) (fun _ s' => steady s s').
Proof.
  intros H. apply loaded_spec; [by left|]. eapply wp_mono; [exact H|]. intros a s' ->. by right.
Qed.

Lemma textCall_steady s input f : text_pre (f input) ->
  wp s (textCall input f) (fun _ s' => steady s s').
Proof.
  intros Hp. apply loaded_steady. eapply wp_mono; [by apply text_sync_spec|].
  by intros [? ?] s' [-> _].
Qed.

Lemma unit_sync_quiet s f : o_loaded s = true -> unit_pre f ->
  wp s (unit_sync f) (fun _ s' => quiet s s').
Proof. intros. eapply wp_mono; [by apply unit_sync_spec|]. by intros ? ? [-> _]. Qed.

Lemma out_sync_quiet s f : o_loaded s = true -> out_pre f ->
  wp s (out_sync f) (fun _ s' => quiet s s').
Proof. intros. eapply wp_mono; [by apply out_sync_spec|]. by intros [? ?] ? [-> _]. Qed.

Lemma fill_quiet s out f : o_loaded s = true -> out_pre f ->
  wp s ('(b, err) ← out_sync f; Ret (fill out b, err)) (fun _ s' => quiet s s').
Proof. intros. eapply wp_call; [by apply out_sync_spec|]. by intros [? ?] ? [-> _]. Qed.

Lemma text_sync_quiet s f : o_loaded s = true -> text_pre f ->
  wp s (text_sync f) (fun _ s' => quiet s s').
Proof. intros. eapply wp_mono; [by apply text_sync_spec|]. by intros [? ?] ? [-> _]. Qed.

#[export] Hint Resolve just_error_spec drop_value_spec free_spec unit_op_quiet u64_op_quiet
  bytes_op_quiet loaded_quiet unit_sync_quiet out_sync_quiet text_sync_quiet : ffi.

Lemma IrohVersion_quiet s : wp s IrohVersion (fun _ s' => quiet s s').
Proof.
  apply loaded_quiet. apply wp_bind, wp_trigger; [done|].
  intros b s' Hb. eapply wp_call; [eapply takeBytes_spec; [|exact Hb]; done|].
  by intros d s1 [_ ->].
Qed.

Lemma ConnMaxDatagramSize_spec s h : o_loaded s = true -> h <> 0 ->
  wp s (ConnMaxDatagramSize h) (fun '(n, err) s' => s' = s /\ 0 <= n < two63 /\
    (forall e, err = Some e -> n = 0 /\ is_iroh e)).
Proof.
  intros Hl Hh. apply wp_bind, wp_trigger; [done|].
  intros [[rc n] e] s1 [Hn H]. unfold gets_rc in H.
  destruct (Z.eqb_spec rc 0) as [->|Hrc]; simpl.
  - rewrite decide_True in H by done. by destruct H as [_ ->].
  - rewrite decide_False in H by done.
    eapply wp_call; [eapply takeError_spec; [|exact H]; done|].
    intros e' s' [-> Hi]. simpl. split; [done|]. split; [done|]. by intros e0 [= <-].
Qed.

Lemma ConnStats_spec s h : o_loaded s = true -> h <> 0 ->
  wp s (ffi_ConnStats h) (fun '(l, err) s' => s' = s /\ length l = StatsLen /\
    (forall e, err = Some e -> is_iroh e)).
Proof.
  intros Hl Hh. apply wp_bind, wp_trigger; [done|].
  intros [[rc l] e] s1 [Hn H].
  eapply wp_call; [eapply rcError_spec; [|exact H]; done|].
  intros [e'|] s' [-> He]; simpl; (split; [done|]); (split; [done|]); intros e0 [= <-]. apply He.
Qed.

Lemma RecvRead_quiet s ctx h dst : o_loaded s = true -> h <> 0 ->
  0 < Z.of_nat (length dst) < two63 ->
  wp s (RecvRead ctx h dst) (fun _ s' => quiet s s').
Proof.
  intros Hl Hh Hm. eapply wp_mono; [by apply (start_into s ctx _ Hl) with (h := h)|].
  intros [[[n eof] [e|]] dst'] s'; simpl; [intros (_ & _ & _ & H); eauto with go|].
  intros (s1 & v & d & Hw & _ & _ & _ & _ & ->).
  destruct v; try (by eapply quiet_waited); by eapply (quiet_effect _ ctx (KRead h 0) (VBytes b)).
Qed.

Lemma Shutdown_settles s e : consumes e = [] ->
  wp s (no_error Shutdown) (fun '(err, hs) s' => settled s e err hs s').
Proof.
  intros Hc. unfold no_error, Shutdown. apply wp_bind, wp_bind, wp_trigger; [done|].
  intros [[err|] [|]] s' [-> H]; simpl; try by apply quiet_settled.
  split; [by apply H|]. intros _ s' ->. by apply quiet_settled.
Qed.

Lemma OptionsNew_settles s preset e : consumes e = [] ->
  wp s (gives_handle (OptionsNew preset)) (fun '(err, hs) s' => settled s e err hs s').
Proof.
  intros Hc. unfold gives_handle. apply wp_bind, loaded_spec.
  - intros e'. simpl. by apply quiet_settled.
  - apply wp_bind, wp_trigger; [done|]. intros h s' (_ & _ & ->). simpl.
    split; [done|]. rewrite Hc. simpl. split; [set_solver|done].
Qed.

(** One entry point after the other, each by the lemma of its shape. *)
Ltac entry_shape :=
  first
    [ apply just_error_spec; [done|]
    | apply drop_value_spec; [done|]
    | eapply free_spec; done
    | apply gives_handle_spec; [done|done|done|simpl; set_solver]
    | apply gives_handles_spec; done ];
  first
    [ apply loaded_quiet | idtac ];
  first
    [ apply unit_op_quiet; done
    | apply bytes_op_quiet; done
    | apply u64_op_quiet; [done|done|by left]
    | apply u64_op_quiet; [done|done|right; by eexists _, _]
    | apply unit_sync_quiet; done
    | apply out_sync_quiet; done
    | apply fill_quiet; done
    | apply text_sync_quiet; done
    | apply wp_bind, wp_trigger; [done|]; intros ? ? Hx; destruct_and?; subst; simpl; try done;
        case_match; done ].

(** ** Properties *)

(** C3. No entry point of the FFI layer leaks or double-frees, whatever the
    library answers: on every path (success, library error, cancellation,
    operation that could not be started) the operations, buffers, error handles
    and registrations of the goroutine are what they were before the call, each
    operation it started was collected with the collector of its kind, only
    after its completion, and freed once, and the objects it holds changed by
    exactly what it consumed and what it returned, nothing on error. *)
Theorem entry_points_settle s ctx e :
  entry_pre s e ->
  wp s (entry_run ctx e) (fun '(err, hs) s' => settled s e err hs s').
Proof.
  intros Hpre.
  destruct e; simpl in Hpre; destruct_and?; cbn [entry_run]; try solve [entry_shape].
  - (* SetLogLevel *)
    apply just_error_spec; [done|]. apply loaded_quiet, wp_bind, wp_trigger; [done|].
    intros rc s' ->. simpl. by case_match.
  - apply drop_value_spec; [done|]. apply IrohVersion_quiet.
  - (* HandleCount *)
    apply drop_value_spec; [done|]. apply loaded_quiet, wp_bind, wp_trigger; [done|].
    by intros n s' [_ ->].
  - by apply Shutdown_settles.
  - (* SecretKeyGenerate *)
    apply drop_value_spec; [done|]. apply loaded_quiet, wp_bind, wp_trigger; [done|].
    by intros key s' [_ ->].
  - by apply OptionsNew_settles.
  - apply drop_value_spec; [done|]. eapply wp_mono; [by apply ConnMaxDatagramSize_spec|].
    by intros [n err] s' [-> _].
  - apply drop_value_spec; [done|]. eapply wp_mono; [by apply ConnStats_spec|].
    by intros [l err] s' [-> _].
  - eapply wp_call; [by apply RecvRead_quiet|].
    intros [[[n eof] err] dst'] s' Hq. simpl. eauto with go.
Qed.

Definition a_goroutine : owned :=
  mkOwned true ∅ ∅ ∅ ∅ {[7]} {[7]} ∅ ∅ (<[1 := CtxUser]> ∅) 0 ∅ ∅ ∅.

Example entry_points_settle_witness :
  wp a_goroutine (entry_run 1 (EEndpointBind 7))
    (fun '(err, hs) s' => settled a_goroutine (EEndpointBind 7) err hs s').
Proof.
  apply entry_points_settle. split; [reflexivity|].
  split; apply (bool_decide_unpack _); vm_compute; exact I.
Defined.
