(* ===== verification/PumpSystem.v ===== *)
(** The pump, the goroutines that wait and the library, interleaved.

    [Pump.deliver] and [Pump.register] are atomic on the tables; between them
    run the completion queue of [rust/irohgo-ffi/src/ops.rs], the pump goroutine
    (blocked in [iroh_completion_wait], in its critical section, or sending on
    a channel) and one goroutine per operation inside [await].  A [thread]'s
    phases are the points of [Pump.await] where it can be preempted:
    [phase_prog] gives the rest of the program at each, and
    [threads_run_await] shows that the steps of the relation are its steps.

    The argument is a token: the completion of an operation is in exactly one
    place, from the queue to the result of [await]. *)
From S2P Require Import Prelude GoErrors Prog Abi Contract Pump.
Local Open Scope Z_scope.

(** ** State *)

(** An operation in the library: its task is running, with or without an abort
    requested, or its single completion was posted. *)
Inductive libst : Set := LRun (cancelled : bool) | LDone (status : Z).

(** [src/internal/ffi/pump.go:35-61 startPump] Where the pump goroutine is. *)
Inductive pumpst : Set :=
| PumpWait                            (* inside iroh_completion_wait *)
| PumpGot (op status : Z)             (* case 1, before the lock *)
| PumpSend (op ch status : Z)         (* after the unlock, with a waiter found *)
| PumpStopped.                        (* default: the library is shutting down *)

(** Where a goroutine is inside [await ctx op]. *)
Inductive phase : Set :=
| Starting                            (* the operation was started *)
| Parked (ch : Z)                     (* in the select *)
| Cancelling (ch : Z)                 (* ctx.Done() was chosen *)
| Draining (ch : Z)                   (* after opCancel, at <-ch *)
| Freeing (status : Z)                (* a status other than OK was drained *)
| Reporting (status : Z)              (* at ctx.Err() *)
| Returned (status : Z) (cancelled : bool).

Record sys := mkSys {
  lib : gmap Z libst;
  queue : list (Z * Z);
  stopping : bool;
  pumpth : pumpst;
  tables : pump_state;
  chans : gmap Z (list Z);            (* buffered contents; capacity 1 *)
  threads : gmap Z phase              (* by operation *)
}.

Definition sys_init : sys := mkSys ∅ [] false PumpWait pump_init ∅ ∅.

Definition set_lib x s := mkSys x (queue s) (stopping s) (pumpth s) (tables s) (chans s) (threads s).
Definition set_queue x s := mkSys (lib s) x (stopping s) (pumpth s) (tables s) (chans s) (threads s).
Definition set_stopping x s := mkSys (lib s) (queue s) x (pumpth s) (tables s) (chans s) (threads s).
Definition set_pumpth x s := mkSys (lib s) (queue s) (stopping s) x (tables s) (chans s) (threads s).
Definition set_tables x s := mkSys (lib s) (queue s) (stopping s) (pumpth s) x (chans s) (threads s).
Definition set_chans x s := mkSys (lib s) (queue s) (stopping s) (pumpth s) (tables s) x (threads s).
Definition set_threads x s := mkSys (lib s) (queue s) (stopping s) (pumpth s) (tables s) (chans s) x.
Definition to_phase op ph s := set_threads (<[op := ph]> (threads s)) s.

(** ** Steps *)

(** [src/rust/irohgo-ffi/src/ops.rs:165-173 Op::post] *)
Definition post_completion (op status : Z) (s : sys) : sys :=
  set_queue (queue s ++ [(op, status)]) (set_lib (<[op := LDone status]> (lib s)) s).

(** [src/rust/irohgo-ffi/src/ops.rs:182-187 Op::cancel] *)
Definition request_cancel (op : Z) (s : sys) : sys :=
  match lib s !! op with
  | Some (LRun _) => set_lib (<[op := LRun true]> (lib s)) s
  | _ => s
  end.

(** The buffer of a channel after a send. *)
Definition chan_push (ch status : Z) (s : sys) : sys :=
  set_chans (<[ch := default [] (chans s !! ch) ++ [status]]> (chans s)) s.

(** The library and the callers: what the Go layer does not decide. *)
Inductive env_step : sys -> sys -> Prop :=
| EStart s op :                       (* an operation is started and awaited *)
    op <> 0 -> lib s !! op = None -> threads s !! op = None ->
    env_step s (to_phase op Starting (set_lib (<[op := LRun false]> (lib s)) s))
| EComplete s op c status :
    lib s !! op = Some (LRun c) ->
    (status = StatusOK \/ status = StatusErr \/ status = StatusCancelled) ->
    env_step s (post_completion op status s)
| ECtxDone s op ch :                  (* the select finds ctx.Done() ready *)
    threads s !! op = Some (Parked ch) -> env_step s (to_phase op (Cancelling ch) s)
| EShutdown s : stopping s = false -> env_step s (set_stopping true s).

(** The Go layer. *)
Inductive go_step : sys -> sys -> Prop :=
| PWait s op status q :               (* iroh_completion_wait returns 1 *)
    pumpth s = PumpWait -> queue s = (op, status) :: q ->
    go_step s (set_pumpth (PumpGot op status) (set_queue q s))
| PStop s :                           (* and returns a shutdown, on an empty queue *)
    pumpth s = PumpWait -> queue s = [] -> stopping s = true ->
    go_step s (set_pumpth PumpStopped s)
| PDeliver s op status t ch :         (* deliver's critical section *)
    pumpth s = PumpGot op status -> deliver op status (tables s) = (t, ch) ->
    go_step s (set_pumpth (match ch with Some ch => PumpSend op ch status | None => PumpWait end)
                 (set_tables t s))
| PSend s op ch status :              (* ch <- status: needs room in the buffer *)
    pumpth s = PumpSend op ch status -> chans s !! ch = Some [] ->
    go_step s (set_pumpth PumpWait (chan_push ch status s))
| TRegister s op ch t got :
    threads s !! op = Some Starting -> chans s !! ch = None ->
    register op ch (tables s) = (t, got) ->
    go_step s (to_phase op (Parked ch)
                 (set_chans (<[ch := match got with Some status => [status] | None => [] end]> (chans s))
                   (set_tables t s)))
| TSelect s op ch status buf :
    threads s !! op = Some (Parked ch) -> chans s !! ch = Some (status :: buf) ->
    go_step s (to_phase op (Returned status false) (set_chans (<[ch := buf]> (chans s)) s))
| TCancel s op ch :
    threads s !! op = Some (Cancelling ch) ->
    go_step s (to_phase op (Draining ch) (request_cancel op s))
| TDrain s op ch status buf :
    threads s !! op = Some (Draining ch) -> chans s !! ch = Some (status :: buf) ->
    go_step s (to_phase op (if status =? StatusOK then Returned status false else Freeing status)
                 (set_chans (<[ch := buf]> (chans s)) s))
| TFree s op status :
    threads s !! op = Some (Freeing status) -> go_step s (to_phase op (Reporting status) s)
| TReport s op status :
    threads s !! op = Some (Reporting status) ->
    go_step s (to_phase op (Returned status true) s).

Definition step (s s' : sys) : Prop := env_step s s' \/ go_step s s'.
Definition reachable (s : sys) : Prop := rtc step sys_init s.

(** ** The threads run [await] *)

Definition after_drain (ctx op ch : Z) : go (Z * error) :=
  status ← rt (RRecv ch);
  if status =? StatusOK then Ret (status, None)
  else call (opFree op);; err ← rt (RCtxErr ctx); Ret (0, err).

(** What is left of [await ctx op] in each phase; [e] is what [ctx.Err()]
    yields. *)
Definition phase_prog (ctx op : Z) (e : error) (ph : phase) : go (Z * error) :=
  match ph with
  | Starting => await ctx op
  | Parked ch =>
      r ← rt (RSelect ch ctx);
      match r with
      | inl status => Ret (status, None)
      | inr _ => call (opCancel op);; after_drain ctx op ch
      end
  | Cancelling ch => call (opCancel op);; after_drain ctx op ch
  | Draining ch => after_drain ctx op ch
  | Freeing _ => call (opFree op);; err ← rt (RCtxErr ctx); Ret (0, err)
  | Reporting _ => err ← rt (RCtxErr ctx); Ret (0, err)
  | Returned status c => if c then Ret (0, e) else Ret (status, None)
  end.

(** One event of a program, with its answer. *)
Definition takes {A} (p : go A) (p' : go A) : Prop :=
  exists X (ev : goE X) (k : X -> go A) (x : X), p = Vis ev k /\ p' = k x.

(** ** The invariant *)

Definition phase_chan (ph : phase) : option Z :=
  match ph with Parked ch | Cancelling ch | Draining ch => Some ch | _ => None end.
Definition waits_on (s : sys) (op ch : Z) : Prop :=
  exists ph, threads s !! op = Some ph /\ phase_chan ph = Some ch.

(** The places a completion can be in. *)
Definition queued (s : sys) (op : Z) : list Z :=
  omap (fun p => if decide (p.1 = op) then Some p.2 else None) (queue s).
Definition in_pump (s : sys) (op : Z) : list Z :=
  match pumpth s with
  | PumpGot o status | PumpSend o _ status => if decide (o = op) then [status] else []
  | _ => []
  end.
Definition held (s : sys) (op : Z) : list Z := option_list (unclaimed (tables s) !! op).
Definition buffered (s : sys) (op : Z) : list Z :=
  match threads s !! op ≫= phase_chan with Some ch => default [] (chans s !! ch) | None => [] end.
Definition phase_status (ph : phase) : list Z :=
  match ph with Freeing status | Reporting status | Returned status _ => [status] | _ => [] end.
Definition received (s : sys) (op : Z) : list Z := default [] (phase_status <$> threads s !! op).
Definition tokens (s : sys) (op : Z) : list Z :=
  queued s op ++ in_pump s op ++ held s op ++ buffered s op ++ received s op.
Definition posted (s : sys) (op : Z) : list Z :=
  match lib s !! op with Some (LDone status) => [status] | _ => [] end.

Record inv (s : sys) : Prop := {
  inv_token : forall op, tokens s op ≡ₚ posted s op;
  inv_known : forall op, lib s !! op = None <-> threads s !! op = None;
  inv_waiter : forall op ch, waiters (tables s) !! op = Some ch -> waits_on s op ch;
  inv_waits : forall op ch, waits_on s op ch ->
    is_Some (chans s !! ch) /\
    (waiters (tables s) !! op = Some ch \/
     (exists status, pumpth s = PumpSend op ch status) \/ exists status, chans s !! ch = Some [status]);
  inv_quiet : forall op ch, waiters (tables s) !! op = Some ch ->
    chans s !! ch = Some [] /\ forall ch' status, pumpth s <> PumpSend op ch' status;
  inv_held : forall op status, unclaimed (tables s) !! op = Some status ->
    threads s !! op = Some Starting;
  inv_own : forall op1 op2 ch, waits_on s op1 ch -> waits_on s op2 ch -> op1 = op2;
  inv_send : forall op ch status, pumpth s = PumpSend op ch status -> waits_on s op ch
}.

(** ** Lemmas: where a completion is *)

Lemma queued_app s q1 q2 op :
  queued (set_queue (q1 ++ q2) s) op = queued (set_queue q1 s) op ++ queued (set_queue q2 s) op.
Proof. unfold queued. simpl. apply omap_app. Qed.

Lemma waits_on_fun s op ch ch' : waits_on s op ch -> waits_on s op ch' -> ch = ch'.
Proof. intros (ph & H1 & H2) (ph' & H3 & H4). naive_solver. Qed.

Lemma buffered_waits s op ch :
  waits_on s op ch -> buffered s op = default [] (chans s !! ch).
Proof. intros (ph & H1 & H2). unfold buffered. by rewrite H1; simpl; rewrite H2. Qed.

Lemma buffered_none s op : (threads s !! op ≫= phase_chan) = None -> buffered s op = [].
Proof. unfold buffered. by intros ->. Qed.

Lemma waits_on_phase s op ph ch :
  threads s !! op = Some ph -> phase_chan ph = Some ch -> waits_on s op ch.
Proof. unfold waits_on. eauto. Qed.

(** A completion is in one place only. *)
Lemma tokens_le_one s op : inv s -> (length (tokens s op) <= 1)%nat.
Proof.
  intros I. rewrite (inv_token s I op). unfold posted.
  destruct (lib s !! op) as [[?|?]|]; simpl; lia.
Qed.

Lemma send_room s op ch status :
  inv s -> pumpth s = PumpSend op ch status -> chans s !! ch = Some [].
Proof.
  intros I Hp. pose proof (inv_send s I _ _ _ Hp) as Hw.
  destruct (inv_waits s I _ _ Hw) as [[buf Hb] _].
  pose proof (tokens_le_one s op I) as Hle. unfold tokens, in_pump in Hle.
  rewrite Hp, decide_True in Hle by done. rewrite (buffered_waits _ _ _ Hw), Hb in Hle.
  rewrite !length_app in Hle. simpl in Hle. destruct buf; [done|simpl in Hle; lia].
Qed.

(** When the pump holds a completion with no waiter, its goroutine has not
    registered yet. *)
Lemma got_unregistered s op status :
  inv s -> pumpth s = PumpGot op status -> waiters (tables s) !! op = None ->
  unclaimed (tables s) !! op = None /\ threads s !! op = Some Starting.
Proof.
  intros I Hp Hw. pose proof (tokens_le_one s op I) as Hle.
  pose proof (inv_token s I op) as Ht.
  unfold tokens, in_pump in Hle, Ht. rewrite Hp, decide_True in Hle, Ht by done.
  rewrite !length_app in Hle. simpl in Hle. split.
  { unfold held in Hle. destruct (unclaimed (tables s) !! op); [simpl in Hle; lia|done]. }
  destruct (threads s !! op) as [ph|] eqn:E.
  - destruct (phase_chan ph) as [ch|] eqn:Ec.
    + pose proof (waits_on_phase _ _ _ _ E Ec) as Hwo.
      destruct (inv_waits s I _ _ Hwo) as [_ [?|[[? ?]|[st Hst]]]]; [congruence|congruence|].
      rewrite (buffered_waits _ _ _ Hwo), Hst in Hle. simpl in Hle. lia.
    + unfold received in Hle. rewrite E in Hle. destruct ph; simpl in *; try lia; done.
  - apply (inv_known s I) in E. unfold posted in Ht. rewrite E in Ht.
    apply Permutation_nil_r in Ht. by apply (f_equal length) in Ht; rewrite !length_app in Ht; simpl in Ht; lia.
Qed.

Lemma perm_nil_token {A} (l : list A) : l ≡ₚ [] -> l = [].
Proof. apply Permutation_nil_r. Qed.

(** ** Lemmas: the invariant is preserved *)

Lemma waits_on_to_phase s op ph op' ch :
  waits_on (to_phase op ph s) op' ch <->
    if decide (op' = op) then phase_chan ph = Some ch else waits_on s op' ch.
Proof.
  unfold waits_on, to_phase. simpl. case_decide as E.
  - subst. rewrite lookup_insert_eq. naive_solver.
  - by rewrite lookup_insert_ne.
Qed.

(** The steps that change a thread's phase but not what it waits on. *)
Lemma inv_same_phase s op ph ph' :
  inv s -> threads s !! op = Some ph -> phase_chan ph' = phase_chan ph ->
  ph <> Starting ->
  phase_status ph' = phase_status ph ->
  inv (to_phase op ph' s).
Proof.
  intros I Ht Hc Hs Hr.
  assert (Hw : forall op' ch, waits_on (to_phase op ph' s) op' ch <-> waits_on s op' ch).
  { intros op' ch. rewrite waits_on_to_phase. case_decide as E; [subst|done].
    unfold waits_on. rewrite Ht, Hc. naive_solver. }
  constructor.
  - intros op'. rewrite <-(inv_token s I op'). unfold tokens. destruct (decide (op' = op)) as [->|Hne].
    + unfold buffered, received. simpl. rewrite lookup_insert_eq, Ht. simpl. by rewrite Hc, Hr.
    + unfold buffered, received. simpl. by rewrite !lookup_insert_ne by done.
  - intros op'. simpl. rewrite (inv_known s I). destruct (decide (op' = op)) as [->|Hne].
    + by rewrite lookup_insert_eq, Ht.
    + by rewrite lookup_insert_ne.
  - intros op' ch H. apply Hw. by apply (inv_waiter s I).
  - intros op' ch H%Hw. by apply (inv_waits s I).
  - apply (inv_quiet s I).
  - intros op' status H. simpl in *. destruct (decide (op' = op)) as [->|Hne].
    + pose proof (inv_held s I _ _ H). congruence.
    + rewrite lookup_insert_ne by done. by eapply (inv_held s I).
  - intros op1 op2 ch H1%Hw H2%Hw. by eapply (inv_own s I).
  - intros op' ch status H. apply Hw. by eapply (inv_send s I).
Qed.

Lemma inv_start s op :
  inv s -> lib s !! op = None -> threads s !! op = None ->
  inv (to_phase op Starting (set_lib (<[op := LRun false]> (lib s)) s)).
Proof.
  intros I Hl Ht.
  assert (Hw : forall op' ch,
    waits_on (to_phase op Starting (set_lib (<[op := LRun false]> (lib s)) s)) op' ch <->
    waits_on s op' ch).
  { intros op' ch. rewrite waits_on_to_phase. case_decide as E; [subst|done].
    unfold waits_on. rewrite Ht. simpl. naive_solver. }
  constructor.
  - intros op'. pose proof (inv_token s I op') as H. unfold tokens, posted, buffered, received in *.
    simpl. destruct (decide (op' = op)) as [->|Hne].
    + rewrite !lookup_insert_eq. by rewrite Hl, Ht in H.
    + by rewrite !lookup_insert_ne.
  - intros op'. simpl. destruct (decide (op' = op)) as [->|Hne].
    + by rewrite !lookup_insert_eq.
    + rewrite !lookup_insert_ne by done. apply (inv_known s I).
  - intros op' ch H. apply Hw. by apply (inv_waiter s I).
  - intros op' ch H%Hw. by apply (inv_waits s I).
  - apply (inv_quiet s I).
  - intros op' status H. simpl in *. destruct (decide (op' = op)) as [->|Hne].
    + by rewrite lookup_insert_eq.
    + rewrite lookup_insert_ne by done. by eapply (inv_held s I).
  - intros op1 op2 ch H1%Hw H2%Hw. by eapply (inv_own s I).
  - intros op' ch status H. apply Hw. by eapply (inv_send s I).
Qed.

(** A change of the library's side alone, completions included. *)
Lemma inv_lib s m q :
  inv s ->
  (forall op, m !! op = None <-> lib s !! op = None) ->
  (forall op, tokens (set_queue q (set_lib m s)) op ≡ₚ posted (set_queue q (set_lib m s)) op) ->
  inv (set_queue q (set_lib m s)).
Proof.
  intros I Hm Ht. constructor; try apply I; [done|].
  intros op. simpl. rewrite Hm. apply (inv_known s I).
Qed.

Lemma inv_complete s op c status :
  inv s -> lib s !! op = Some (LRun c) -> inv (post_completion op status s).
Proof.
  intros I Hl. apply inv_lib; [done| |].
  - intros op'. destruct (decide (op' = op)) as [->|Hne].
    + by rewrite lookup_insert_eq, Hl.
    + by rewrite lookup_insert_ne.
  - intros op'. pose proof (inv_token s I op') as H. unfold tokens, posted, queued in *.
    simpl. rewrite omap_app. simpl. destruct (decide (op' = op)) as [->|Hne].
    + rewrite lookup_insert_eq, decide_True by done. rewrite Hl in H. apply perm_nil_token in H.
      apply app_eq_nil in H as [-> H]. unfold in_pump, held, buffered, received in *. simpl.
      by rewrite H.
    + rewrite lookup_insert_ne, decide_False by done. by rewrite app_nil_r.
Qed.

Lemma inv_cancel_lib s op : inv s -> inv (request_cancel op s).
Proof.
  intros I. unfold request_cancel. destruct (lib s !! op) as [[c|?]|] eqn:E; [|done|done].
  replace (set_lib (<[op:=LRun true]> (lib s)) s)
    with (set_queue (queue s) (set_lib (<[op:=LRun true]> (lib s)) s)) by by destruct s.
  apply inv_lib; [done| |].
  - intros op'. destruct (decide (op' = op)) as [->|Hne].
    + by rewrite lookup_insert_eq, E.
    + by rewrite lookup_insert_ne.
  - intros op'. pose proof (inv_token s I op') as H. unfold tokens, posted in *. simpl.
    destruct (decide (op' = op)) as [->|Hne].
    + rewrite lookup_insert_eq. by rewrite E in H.
    + by rewrite lookup_insert_ne.
Qed.

(** Steps of the pump that leave tables and channels alone. *)
Lemma inv_pump s pt q :
  inv s ->
  (forall op ch status, pumpth s <> PumpSend op ch status) ->
  (forall op ch status, pt <> PumpSend op ch status) ->
  (forall op, tokens (set_pumpth pt (set_queue q s)) op ≡ₚ tokens s op) ->
  inv (set_pumpth pt (set_queue q s)).
Proof.
  intros I Hp Hpt Ht. constructor; try apply I.
  - intros op. rewrite Ht. apply (inv_token s I).
  - intros op ch H. destruct (inv_waits s I _ _ H) as [Hb [Hw|[[st Hst]|Hst]]].
    + auto. + by apply Hp in Hst. + auto.
  - intros op ch H. split; [by apply (inv_quiet s I) in H as [? _]|done].
  - intros op ch st H. by apply Hpt in H.
Qed.

Lemma inv_wait s op status q :
  inv s -> pumpth s = PumpWait -> queue s = (op, status) :: q ->
  inv (set_pumpth (PumpGot op status) (set_queue q s)).
Proof.
  intros I Hp Hq. apply inv_pump; [done|congruence|done|].
  intros op'. unfold tokens, queued, in_pump. rewrite Hp, Hq. simpl.
  case_decide; [|done]. simpl. by rewrite <-Permutation_middle.
Qed.

Lemma inv_stop s : inv s -> pumpth s = PumpWait -> inv (set_pumpth PumpStopped s).
Proof.
  intros I Hp. replace (set_pumpth PumpStopped s) with (set_pumpth PumpStopped (set_queue (queue s) s))
    by by destruct s.
  apply inv_pump; [done|congruence|done|].
  intros op'. unfold tokens, in_pump. by rewrite Hp.
Qed.

Lemma inv_deliver s op status t ch :
  inv s -> pumpth s = PumpGot op status -> deliver op status (tables s) = (t, ch) ->
  inv (set_pumpth (match ch with Some ch => PumpSend op ch status | None => PumpWait end)
         (set_tables t s)).
Proof.
  intros I Hp Hd. unfold deliver in Hd. destruct (waiters (tables s) !! op) as [ch0|] eqn:Hw.
  - injection Hd as <- <-. pose proof (inv_waiter s I _ _ Hw) as Hwo. constructor; simpl.
    + intros op'. rewrite <-(inv_token s I op'). unfold tokens, in_pump. simpl. by rewrite Hp.
    + apply (inv_known s I).
    + intros op' ch [Hne H]%lookup_delete_Some. by apply (inv_waiter s I).
    + intros op' ch H. destruct (inv_waits s I _ _ H) as [Hb Hcase]. split; [done|].
      destruct (decide (op' = op)) as [->|Hne].
      * right. left. exists status. by rewrite (waits_on_fun _ _ _ _ H Hwo).
      * rewrite lookup_delete_ne by done. destruct Hcase as [?|[[st Hst]|?]]; [auto|congruence|auto].
    + intros op' ch [Hne H]%lookup_delete_Some. split; [by apply (inv_quiet s I) in H as [? _]|].
      intros ch' st. naive_solver.
    + apply (inv_held s I).
    + apply (inv_own s I).
    + intros op' ch st [= <- <- <-]. done.
  - injection Hd as <- <-. destruct (got_unregistered _ _ _ I Hp Hw) as [Hu Ht]. constructor; simpl.
    + intros op'. rewrite <-(inv_token s I op'). unfold tokens, in_pump, held. simpl. rewrite Hp.
      destruct (decide (op' = op)) as [->|Hne].
      * rewrite lookup_insert_eq, Hu, decide_True by done. simpl. done.
      * rewrite lookup_insert_ne, decide_False by done. done.
    + apply (inv_known s I).
    + apply (inv_waiter s I).
    + intros op' ch H. destruct (inv_waits s I _ _ H) as [Hb [?|[[st Hst]|?]]];
        [auto|congruence|auto].
    + intros op' ch H. split; [by apply (inv_quiet s I) in H as [? _]|done].
    + intros op' st. destruct (decide (op' = op)) as [->|Hne]; [done|].
      rewrite lookup_insert_ne by done. apply (inv_held s I).
    + apply (inv_own s I).
    + done.
Qed.

Lemma inv_send_step s op ch status :
  inv s -> pumpth s = PumpSend op ch status ->
  inv (set_pumpth PumpWait (chan_push ch status s)).
Proof.
  intros I Hp. pose proof (send_room _ _ _ _ I Hp) as Hb. pose proof (inv_send s I _ _ _ Hp) as Hwo.
  unfold chan_push. rewrite Hb. simpl. constructor; simpl.
  - intros op'. rewrite <-(inv_token s I op'). unfold tokens, in_pump. rewrite Hp. simpl.
    destruct (decide (op' = op)) as [->|Hne].
    + rewrite decide_True by done. rewrite (buffered_waits _ _ _ Hwo), Hb.
      rewrite (buffered_waits _ op ch) by done. simpl. rewrite lookup_insert_eq. simpl.
      by rewrite Permutation_middle.
    + rewrite decide_False by done. unfold buffered. simpl.
      destruct (threads s !! op' ≫= phase_chan) as [ch'|] eqn:E; [|done].
      apply bind_Some in E as (ph & E1 & E2).
      rewrite lookup_insert_ne; [done|]. intros <-.
      apply Hne. eapply (inv_own s I); [|exact Hwo]. by eapply waits_on_phase.
  - apply (inv_known s I).
  - apply (inv_waiter s I).
  - intros op' ch' H. destruct (inv_waits s I _ _ H) as [Hc Hcase].
    destruct (decide (ch' = ch)) as [->|Hne].
    + rewrite lookup_insert_eq. eauto.
    + rewrite lookup_insert_ne by done. split; [done|].
      destruct Hcase as [?|[[st Hst]|?]]; [auto|congruence|auto].
  - intros op' ch' H. destruct (inv_quiet s I _ _ H) as [Hc Hns]. split; [|done].
    rewrite lookup_insert_ne; [done|]. intros <-.
    destruct (decide (op' = op)) as [->|Hne]; [by apply Hns in Hp|].
    apply Hne. eapply (inv_own s I); [by apply (inv_waiter s I)|done].
  - apply (inv_held s I).
  - apply (inv_own s I).
  - done.
Qed.

(** What registering does to the tables: the completion that was there first, if
    any, moves to the channel. *)
Definition got_buffer (got : option Z) : list Z :=
  match got with Some status => [status] | None => [] end.

Lemma register_spec op ch p t got : register op ch p = (t, got) ->
  (forall op' ch', waiters t !! op' = Some ch' -> (op' = op /\ ch' = ch) \/ waiters p !! op' = Some ch') /\
  (forall op' ch', op' <> op -> waiters p !! op' = Some ch' -> waiters t !! op' = Some ch') /\
  (forall op', option_list (unclaimed p !! op') =
     option_list (unclaimed t !! op') ++ (if decide (op' = op) then got_buffer got else [])) /\
  (forall op' status, unclaimed t !! op' = Some status -> op' <> op /\ unclaimed p !! op' = Some status) /\
  (waiters p !! op = None ->
     (waiters t !! op = Some ch /\ got = None) \/ (waiters t !! op = None /\ exists status, got = Some status)).
Proof.
  unfold register. destruct (unclaimed p !! op) as [st|] eqn:E; intros [= <- <-]; cbn.
  - split; [by right|]. split; [done|]. split; [|split; [|by right; eauto]].
    + intros op'. case_decide as D; subst; [by rewrite E, lookup_delete_eq|].
      by rewrite lookup_delete_ne, app_nil_r.
    + by intros op' status [? ?]%lookup_delete_Some.
  - split; [intros op' ch' H; apply lookup_insert_Some in H; naive_solver|].
    split; [intros op' ch' Hne H; by rewrite lookup_insert_ne|]. split; [|split].
    + intros op'. case_decide; by rewrite app_nil_r.
    + intros op' status H. split; [congruence|done].
    + left. by rewrite lookup_insert_eq.
Qed.

(** Registration moves a completion from the tables into the channel. *)
Lemma tokens_register s op ch t got : inv s -> threads s !! op = Some Starting -> chans s !! ch = None ->
  register op ch (tables s) = (t, got) ->
  forall op', tokens (to_phase op (Parked ch)
    (set_chans (<[ch := got_buffer got]> (chans s)) (set_tables t s))) op' = tokens s op'.
Proof.
  intros I Ht Hc Hr op'. destruct (register_spec _ _ _ _ _ Hr) as (_ & _ & Hheld & _).
  unfold tokens. unfold held at 2. rewrite (Hheld op'). unfold buffered, received, held. simpl.
  destruct (decide (op' = op)) as [->|Hne].
  - rewrite lookup_insert_eq, Ht. simpl. rewrite lookup_insert_eq. simpl. by rewrite <-!app_assoc.
  - rewrite lookup_insert_ne by done. rewrite app_nil_r.
    destruct (threads s !! op' ≫= phase_chan) as [ch'|] eqn:E; [|done].
    rewrite lookup_insert_ne; [done|]. intros <-. apply bind_Some in E as (ph & E1 & E2).
    destruct (inv_waits s I op' ch (waits_on_phase _ _ _ _ E1 E2)) as [[? ?] _]. congruence.
Qed.

Lemma inv_register s op ch t got :
  inv s -> threads s !! op = Some Starting -> chans s !! ch = None ->
  register op ch (tables s) = (t, got) ->
  inv (to_phase op (Parked ch)
         (set_chans (<[ch := match got with Some status => [status] | None => [] end]> (chans s))
           (set_tables t s))).
Proof.
  intros I Ht Hc Hr. destruct (register_spec _ _ _ _ _ Hr) as (Hwaiters & Hother & Hheld & Hun & Hself).
  change (match got with Some status => [status] | None => [] end) with (got_buffer got).
  assert (Hfresh : forall op', ~ waits_on s op' ch).
  { intros op' H. destruct (inv_waits s I _ _ H) as [[? ?] _]. congruence. }
  assert (Hno : forall ch', waiters (tables s) !! op <> Some ch').
  { intros ch' E. pose proof (inv_waiter s I _ _ E) as (ph & Hp & Hpc). rewrite Ht in Hp. by simplify_eq. }
  specialize (Hself (eq_None_ne_Some_2 _ Hno)).
  set (s' := to_phase _ _ _).
  assert (Hw : forall op' ch', waits_on s' op' ch' <->
    if decide (op' = op) then ch' = ch else waits_on s op' ch').
  { intros op' ch'. unfold s'. rewrite waits_on_to_phase. case_decide; [simpl; naive_solver|done]. }
  constructor.
  - intros op'. change (posted s' op') with (posted s op'). rewrite <-(inv_token s I op').
    unfold s'. by rewrite (tokens_register s op ch t got I Ht Hc Hr).
  - intros op'. simpl. rewrite (inv_known s I). destruct (decide (op' = op)) as [->|Hne].
    + by rewrite lookup_insert_eq, Ht.
    + by rewrite lookup_insert_ne.
  - intros op' ch' H. apply Hw. destruct (Hwaiters _ _ H) as [[-> ->]|H']; case_decide; try done.
    + subst. by apply Hno in H'.
    + by apply (inv_waiter s I).
  - intros op' ch' H%Hw. simpl. case_decide as D; subst.
    + rewrite lookup_insert_eq. split; [eauto|]. destruct Hself as [[? _]|[_ [st ->]]]; simpl; eauto.
    + destruct (inv_waits s I _ _ H) as [Hb Hcase].
      rewrite lookup_insert_ne by (intros <-; by apply Hfresh in H).
      split; [done|]. destruct Hcase as [?|[?|?]]; eauto.
  - intros op' ch' H. change (waiters t !! op' = Some ch') in H. simpl.
    destruct (decide (op' = op)) as [->|Hne].
    + destruct Hself as [[E ->]|[E _]]; [|congruence].
      assert (ch' = ch) as -> by congruence. rewrite lookup_insert_eq. split; [done|].
      intros ch' st Hp. pose proof (inv_send s I _ _ _ Hp) as (ph & H1 & H2).
      rewrite Ht in H1. by simplify_eq.
    + destruct (Hwaiters _ _ H) as [[? ?]|H']; [done|].
      destruct (inv_quiet s I _ _ H') as [Hb Hns]. split; [|done].
      rewrite lookup_insert_ne; [done|]. intros <-. by rewrite Hc in Hb.
  - intros op' st H. destruct (Hun _ _ H) as [Hne H']. simpl.
    rewrite lookup_insert_ne by done. by eapply (inv_held s I).
  - intros op1 op2 ch' H1%Hw H2%Hw. destruct (decide (op1 = op)), (decide (op2 = op)); subst; try done.
    + by apply Hfresh in H2. + by apply Hfresh in H1. + by eapply (inv_own s I).
  - intros op' ch' st H. apply Hw. pose proof (inv_send s I _ _ _ H) as H'. case_decide; [|done].
    subst. destruct H' as (ph & H1 & H2). rewrite Ht in H1. by simplify_eq.
Qed.

(** A buffered completion is the only trace of its operation. *)
Lemma buffered_alone s op ch status buf : inv s -> waits_on s op ch -> chans s !! ch = Some (status :: buf) ->
  buf = [] /\ received s op = [] /\ (forall ch' st, pumpth s <> PumpSend op ch' st) /\ waiters (tables s) !! op = None.
Proof.
  intros I Hwo Hb. pose proof (tokens_le_one s op I) as Hle. unfold tokens in Hle.
  rewrite (buffered_waits _ _ _ Hwo), Hb, !length_app in Hle. simpl in Hle. split_and!.
  - destruct buf; [done|simpl in Hle; lia].
  - destruct (received s op); [done|simpl in Hle; lia].
  - intros ch' st Hp. unfold in_pump in Hle. rewrite Hp, decide_True in Hle by done. simpl in Hle. lia.
  - destruct (waiters (tables s) !! op) as [ch'|] eqn:E; [|auto].
    assert (ch' = ch) as -> by exact (waits_on_fun _ _ _ _ (inv_waiter s I _ _ E) Hwo).
    destruct (inv_quiet s I _ _ E). congruence.
Qed.

(** Receiving from the channel. *)
Lemma inv_receive s op ph ph' ch status buf :
  inv s -> threads s !! op = Some ph -> phase_chan ph = Some ch ->
  chans s !! ch = Some (status :: buf) ->
  phase_chan ph' = None -> ph' <> Starting ->
  phase_status ph' = [status] ->
  inv (to_phase op ph' (set_chans (<[ch := buf]> (chans s)) s)).
Proof.
  intros I Ht Hc Hb Hc' Hs Hr. pose proof (waits_on_phase _ _ _ _ Ht Hc) as Hwo.
  destruct (buffered_alone s op ch status buf I Hwo Hb) as (-> & Hrv & Hnp & Hnw).
  set (s' := to_phase _ _ _).
  assert (Hw : forall op' ch', waits_on s' op' ch' <-> op' <> op /\ waits_on s op' ch').
  { intros op' ch'. unfold s'. rewrite waits_on_to_phase. case_decide; [subst; naive_solver|].
    unfold waits_on. simpl. naive_solver. }
  constructor.
  - intros op'. change (posted s' op') with (posted s op'). rewrite <-(inv_token s I op').
    unfold tokens. destruct (decide (op' = op)) as [->|Hne].
    + assert (received s' op = [status]) as ->.
      { unfold received. simpl. by rewrite lookup_insert_eq. }
      rewrite Hrv, (buffered_waits _ _ _ Hwo), Hb.
      rewrite (buffered_none s' op) by (simpl; by rewrite lookup_insert_eq). done.
    + unfold s', buffered, received. simpl. rewrite lookup_insert_ne by done.
      destruct (threads s !! op' ≫= phase_chan) as [ch'|] eqn:E; [|done].
      rewrite lookup_insert_ne; [done|]. intros <-. apply Hne.
      apply bind_Some in E as (ph0 & E1 & E2).
      eapply (inv_own s I); [|exact Hwo]. by eapply waits_on_phase.
  - intros op'. simpl. rewrite (inv_known s I). destruct (decide (op' = op)) as [->|Hne].
    + by rewrite lookup_insert_eq, Ht.
    + by rewrite lookup_insert_ne.
  - intros op' ch' H. simpl in H. apply Hw. split; [naive_solver|]. by apply (inv_waiter s I).
  - intros op' ch' [Hne H]%Hw. simpl. destruct (inv_waits s I _ _ H) as [? ?].
    rewrite lookup_insert_ne; [done|]. intros <-. apply Hne. by eapply (inv_own s I).
  - intros op' ch' H. simpl in *. destruct (inv_quiet s I _ _ H) as [Hq Hns]. split; [|done].
    rewrite lookup_insert_ne; [done|]. intros <-.
    assert (op' = op) as -> by (eapply (inv_own s I); [by apply (inv_waiter s I)|done]). congruence.
  - intros op' st H. simpl in *. rewrite lookup_insert_ne; [by eapply (inv_held s I)|].
    intros <-. pose proof (inv_held s I _ _ H). by destruct ph; simplify_eq.
  - intros op1 op2 ch' [_ H1]%Hw [_ H2]%Hw. by eapply (inv_own s I).
  - intros op' ch' st H. apply Hw. split; [|by eapply (inv_send s I)].
    intros ->. by apply Hnp in H.
Qed.

Lemma inv_init : inv sys_init.
Proof.
  constructor; simpl; try done.
  - by intros op ch (ph & H & _).
  - by intros op1 op2 ch (ph & H & _).
Qed.

Lemma inv_step s s' : inv s -> step s s' -> inv s'.
Proof.
  intros I [H|H]; destruct H.
  - by apply inv_start.
  - by eapply inv_complete.
  - by apply (inv_same_phase s op (Parked ch)).
  - destruct I. constructor; assumption.
  - by apply inv_wait.
  - by apply inv_stop.
  - by apply inv_deliver.
  - by eapply inv_send_step.
  - by apply inv_register.
  - by eapply inv_receive.
  - apply (inv_same_phase _ op (Cancelling ch)); try done.
    + by apply inv_cancel_lib.
    + unfold request_cancel. by repeat case_match.
  - eapply inv_receive; try done; by case_match.
  - by apply (inv_same_phase _ op (Freeing status)).
  - by apply (inv_same_phase _ op (Reporting status)).
Qed.

Lemma inv_reachable s : reachable s -> inv s.
Proof.
  unfold reachable. intros H. apply rtc_ind_r with (P := inv) in H; eauto using inv_init, inv_step.
Qed.

(** ** Lemmas: termination *)

Definition lib_weight (l : libst) : nat := match l with LRun _ => 4 | LDone _ => 0 end.
Definition phase_weight (ph : phase) : nat :=
  match ph with
  | Starting => 6 | Parked _ => 5 | Cancelling _ => 4 | Draining _ => 3
  | Freeing _ => 2 | Reporting _ => 1 | Returned _ _ => 0
  end.
Definition pump_weight (p : pumpst) : nat :=
  match p with PumpWait => 1 | PumpGot _ _ => 3 | PumpSend _ _ _ => 2 | PumpStopped => 0 end.

(** How many steps the operations started so far can still take. *)
Definition remaining (s : sys) : nat :=
  (msum lib_weight (lib s) + 3 * length (queue s) + pump_weight (pumpth s) +
   msum phase_weight (threads s) + (if stopping s then 0 else 1))%nat.

(** Steps other than the start of a new operation. *)
Definition internal (s s' : sys) : Prop := step s s' /\ dom (lib s') = dom (lib s).

Lemma request_cancel_weight s op :
  (msum lib_weight (lib (request_cancel op s)) = msum lib_weight (lib s))%nat.
Proof.
  unfold request_cancel. destruct (lib s !! op) as [[c|]|] eqn:E; try done. simpl.
  pose proof (msum_update lib_weight _ _ _ (LRun true) E) as H. simpl in H. lia.
Qed.

Lemma request_cancel_frame s op :
  queue (request_cancel op s) = queue s /\ pumpth (request_cancel op s) = pumpth s /\
  threads (request_cancel op s) = threads s /\ stopping (request_cancel op s) = stopping s.
Proof. unfold request_cancel. by repeat case_match. Qed.

Lemma phase_decreases s op ph ph' :
  threads s !! op = Some ph -> (phase_weight ph' < phase_weight ph)%nat ->
  (msum phase_weight (<[op := ph']> (threads s)) < msum phase_weight (threads s))%nat.
Proof.
  intros Ht Hlt. pose proof (msum_update phase_weight _ _ _ ph' Ht). lia.
Qed.

Lemma internal_decreases s s' : internal s s' -> (remaining s' < remaining s)%nat.
Proof.
  intros [[H|H] Hdom]; destruct H; unfold remaining; simpl in *.
  - exfalso. apply not_elem_of_dom in H0. rewrite <-Hdom in H0. set_solver.
  - pose proof (msum_update lib_weight _ _ _ (LDone status) H) as Hm. simpl in Hm.
    rewrite length_app. simpl. lia.
  - pose proof (phase_decreases s op _ (Cancelling ch) H ltac:(simpl; lia)). lia.
  - rewrite H. lia.
  - rewrite H, H0. simpl. lia.
  - rewrite H. simpl. lia.
  - rewrite H. destruct ch; simpl; lia.
  - rewrite H. simpl. lia.
  - pose proof (phase_decreases s op _ (Parked ch) H ltac:(simpl; lia)). lia.
  - pose proof (phase_decreases s op _ (Returned status false) H ltac:(simpl; lia)). lia.
  - destruct (request_cancel_frame s op) as (-> & -> & -> & ->). rewrite request_cancel_weight.
    pose proof (phase_decreases s op _ (Draining ch) H ltac:(simpl; lia)). lia.
  - assert (phase_weight (if (status =? StatusOK)%Z then Returned status false else Freeing status) < 3)%nat
      by (case_match; simpl; lia).
    pose proof (phase_decreases s op _
      (if status =? StatusOK then Returned status false else Freeing status) H ltac:(simpl; lia)). lia.
  - pose proof (phase_decreases s op _ (Reporting status) H ltac:(simpl; lia)). lia.
  - pose proof (phase_decreases s op _ (Returned status true) H ltac:(simpl; lia)). lia.
Qed.

(** ** Lemmas: quiescence *)

(** The Go layer has nothing left to do. *)
Definition quiescent (s : sys) : Prop := forall s', ~ go_step s s'.

Lemma fresh_chan s : exists ch, chans s !! ch = None.
Proof. exists (fresh (dom (chans s))). apply not_elem_of_dom, is_fresh. Qed.

Lemma quiescent_pump s :
  inv s -> quiescent s -> stopping s = false -> pumpth s <> PumpStopped ->
  pumpth s = PumpWait /\ queue s = [].
Proof.
  intros I Hq Hs Hstop. destruct (pumpth s) as [|op st|op ch st|] eqn:Hp; [| | |done].
  - split; [done|]. destruct (queue s) as [|[op st] q] eqn:E; [done|].
    exfalso. eapply Hq. by apply (PWait s op st q).
  - exfalso. destruct (deliver op st (tables s)) as [t ch] eqn:E. eapply Hq. by eapply PDeliver.
  - exfalso. eapply Hq. eapply PSend; [done|]. by eapply send_room.
Qed.

(** A goroutine that cannot move waits for an operation that is still running. *)
Lemma quiescent_thread s op ph :
  inv s -> quiescent s -> pumpth s = PumpWait -> queue s = [] -> threads s !! op = Some ph ->
  (exists status c, ph = Returned status c) \/
  exists ch c, (ph = Parked ch \/ ph = Draining ch) /\ lib s !! op = Some (LRun c) /\
    waiters (tables s) !! op = Some ch.
Proof.
  intros I Hq Hp Hqueue Ht.
  assert (Hwait : forall ch, (ph = Parked ch \/ ph = Draining ch) ->
    exists c, lib s !! op = Some (LRun c) /\ waiters (tables s) !! op = Some ch).
  { intros ch Hph. assert (phase_chan ph = Some ch) as Hc by by destruct Hph as [->| ->].
    pose proof (waits_on_phase _ _ _ _ Ht Hc) as Hwo.
    destruct (inv_waits s I _ _ Hwo) as [[buf Hb] Hcase].
    destruct buf as [|st buf].
    2:{ exfalso. destruct Hph as [->| ->]; eapply Hq; [by eapply TSelect|by eapply TDrain]. }
    destruct Hcase as [Hw|[[? ?]|[? ?]]]; [|congruence|congruence].
    pose proof (inv_token s I op) as Htok. unfold tokens, queued, in_pump, held in Htok.
    rewrite Hqueue, Hp, (buffered_waits _ _ _ Hwo), Hb in Htok. unfold received in Htok.
    rewrite Ht in Htok.
    assert (phase_status ph = []) as Hps by by destruct Hph as [->| ->].
    assert (unclaimed (tables s) !! op = None) as Hu.
    { destruct (unclaimed (tables s) !! op) eqn:E; [|done]. pose proof (inv_held s I _ _ E).
      destruct Hph; congruence. }
    rewrite Hu in Htok. simpl in Htok. rewrite Hps in Htok. apply Permutation_nil_l in Htok.
    unfold posted in Htok. destruct (lib s !! op) as [[c|]|] eqn:El; [eauto|done|].
    apply (inv_known s I) in El. congruence. }
  destruct ph as [|ch|ch|ch|st|st|st c].
  - exfalso. destruct (fresh_chan s) as [ch Hch].
    destruct (register op ch (tables s)) as [t got] eqn:E. eapply Hq. by eapply TRegister.
  - right. destruct (Hwait ch) as (c & H1 & H2); eauto 8.
  - exfalso. eapply Hq. by eapply TCancel.
  - right. destruct (Hwait ch) as (c & H1 & H2); eauto 8.
  - exfalso. eapply Hq. by eapply TFree.
  - exfalso. eapply Hq. by eapply TReport.
  - eauto.
Qed.

Lemma internal_steps_bounded n s s' : nsteps internal n s s' -> (n + remaining s' <= remaining s)%nat.
Proof.
  induction 1 as [s|n s1 s2 s3 H _ IH]; [lia|]. apply internal_decreases in H. lia.
Qed.

(** ** Lemmas: what the drained status says *)

Definition drained_bad (s : sys) : Prop :=
  forall op status, threads s !! op = Some (Freeing status) \/
    threads s !! op = Some (Reporting status) \/ threads s !! op = Some (Returned status true) ->
  status <> StatusOK.

Lemma drained_bad_phase s op ph m :
  drained_bad s -> threads m = <[op := ph]> (threads s) ->
  (forall status, ph = Freeing status \/ ph = Reporting status \/ ph = Returned status true ->
     status <> StatusOK) ->
  drained_bad m.
Proof.
  intros D Hm Hph op' status. rewrite Hm. destruct (decide (op' = op)) as [->|Hne].
  - rewrite lookup_insert_eq. naive_solver.
  - rewrite lookup_insert_ne by done. apply D.
Qed.

Lemma drained_bad_step s s' : drained_bad s -> step s s' -> drained_bad s'.
Proof.
  intros D [H|H]; destruct H; try exact D;
    try (eapply drained_bad_phase; [exact D|simpl; reflexivity|]; intros st Hst;
         destruct_or?; simplify_eq; eapply D; eauto; fail).
  - (* TCancel *)
    eapply (drained_bad_phase s op (Draining ch)); [exact D|simpl|naive_solver].
    destruct (request_cancel_frame s op) as (_ & _ & -> & _). reflexivity.
  - (* TDrain *)
    eapply drained_bad_phase; [exact D|reflexivity|]. intros st.
    destruct (Z.eqb_spec status StatusOK); naive_solver.
Qed.

Lemma drained_bad_reachable s : reachable s -> drained_bad s.
Proof.
  unfold reachable. intros H. apply rtc_ind_r with (P := drained_bad) in H; eauto using drained_bad_step.
  intros op st. simpl. rewrite !lookup_empty. naive_solver.
Qed.

Lemma stopped_step s s' :
  (pumpth s = PumpStopped -> stopping s = true) -> step s s' ->
  (pumpth s' = PumpStopped -> stopping s' = true).
Proof.
  intros D [H|H]; destruct H; simpl; try done; try (intros ?; simplify_eq; by eauto).
  - by destruct ch.
  - destruct (request_cancel_frame s op) as (_ & -> & _ & ->). done.
Qed.

Lemma stopped_reachable s : reachable s -> pumpth s = PumpStopped -> stopping s = true.
Proof.
  unfold reachable. intros H.
  apply rtc_ind_r with (P := fun s => pumpth s = PumpStopped -> stopping s = true) in H;
    eauto using stopped_step. done.
Qed.

(** ** Properties *)

(** C1. No wakeup is lost, under any interleaving of the pump, the goroutines
    in [await], the library and the contexts.  From any reachable state the
    operations already started allow only [remaining s] more steps; and when
    the Go layer has nothing left to do (the library not shutting down), every
    [await] has returned except those whose operation the library is still
    running, which are the only entries of the two tables: with no operation
    running, [PendingOps] is zero. *)
Theorem no_lost_wakeup s :
  reachable s ->
  (forall n s', nsteps internal n s s' -> (n <= remaining s)%nat) /\
  (quiescent s -> stopping s = false ->
   (forall op ph, threads s !! op = Some ph ->
      (exists status c, ph = Returned status c) \/
      ((exists ch, ph = Parked ch \/ ph = Draining ch) /\ exists c, lib s !! op = Some (LRun c))) /\
   unclaimed (tables s) = ∅ /\
   (forall op, is_Some (waiters (tables s) !! op) <-> exists c, lib s !! op = Some (LRun c)) /\
   ((forall op c, lib s !! op <> Some (LRun c)) -> PendingOps (tables s) = 0%nat)).
Proof.
  intros Hr. pose proof (inv_reachable s Hr) as I. split.
  { intros n s' H. pose proof (internal_steps_bounded _ _ _ H). lia. }
  intros Hq Hs. destruct (quiescent_pump s I Hq Hs) as [Hp Hqueue].
  { intros E. apply stopped_reachable in E; [congruence|done]. }
  assert (Hth := fun op ph => quiescent_thread s op ph I Hq Hp Hqueue).
  assert (Hun : unclaimed (tables s) = ∅).
  { apply map_empty. intros op. destruct (unclaimed (tables s) !! op) eqn:E; [|done].
    pose proof (Hth _ _ (inv_held s I _ _ E)). naive_solver. }
  assert (Hw : forall op, is_Some (waiters (tables s) !! op) <-> exists c, lib s !! op = Some (LRun c)).
  { intros op. split.
    - intros [ch Hch]. destruct (inv_waiter s I _ _ Hch) as (ph & Ht & Hc).
      destruct (Hth _ _ Ht) as [(? & ? & ->)|(? & c & _ & ? & _)]; [done|eauto].
    - intros [c Hc]. destruct (threads s !! op) as [ph|] eqn:Ht.
      + destruct (Hth _ _ Ht) as [(st & b & ->)|(ch & ? & _ & _ & ?)]; [|eauto].
        exfalso. pose proof (inv_token s I op) as Htok. unfold tokens, posted, received in Htok.
        rewrite Ht, Hc in Htok. apply perm_nil_token in Htok.
        apply (f_equal length) in Htok. rewrite !length_app in Htok. simpl in Htok. lia.
      + apply (inv_known s I) in Ht. congruence. }
  split_and!; [|done|done|].
  - intros op ph Ht. destruct (Hth _ _ Ht) as [?|(ch & c & ? & ? & _)]; [by left|right]; eauto.
  - intros Hn. unfold PendingOps. rewrite Hun, map_size_empty.
    assert (waiters (tables s) = ∅) as ->; [|by rewrite map_size_empty].
    apply map_empty. intros op. apply eq_None_not_Some. rewrite Hw. naive_solver.
Qed.

(** C2. What [await] returns is what the library posted for that operation: a
    returned status is the operation's single completion, never another's, a
    cancellation is reported only when the operation did not succeed (a success
    that was already posted wins), and the pump's send on a waiter's channel
    always finds room, so one slow goroutine never stalls the others. *)
Theorem await_reports_its_completion s :
  reachable s ->
  (forall op status c, threads s !! op = Some (Returned status c) ->
     lib s !! op = Some (LDone status) /\ (c = true -> status <> StatusOK)) /\
  (forall op ch status, pumpth s = PumpSend op ch status ->
     waits_on s op ch /\ exists s', go_step s s' /\ pumpth s' = PumpWait).
Proof.
  intros Hr. pose proof (inv_reachable s Hr) as I. split.
  - intros op status c Ht. split.
    + pose proof (inv_token s I op) as Htok. unfold tokens, received, posted in Htok.
      rewrite Ht in Htok. destruct (lib s !! op) as [[?|st]|]; simpl in Htok.
      * apply perm_nil_token, (f_equal length) in Htok. rewrite !length_app in Htok. simpl in Htok. lia.
      * symmetry in Htok. apply Permutation_singleton_l in Htok.
        assert (status ∈ [st]) as H%list_elem_of_singleton by (rewrite Htok; set_solver).
        by subst.
      * apply perm_nil_token, (f_equal length) in Htok. rewrite !length_app in Htok. simpl in Htok. lia.
    + intros ->. eapply drained_bad_reachable; eauto.
  - intros op ch status Hp. split; [by eapply inv_send|].
    eexists. split; [eapply PSend; [done|by eapply send_room]|done].
Qed.

(** C28. The threads of the system run [await]: a goroutine starts as the whole
    program, every step of the relation that moves a goroutine consumes exactly
    one event of its program and leaves the program of its next phase, and a
    returned goroutine has the program's result. *)
Theorem threads_run_await ctx op e :
  phase_prog ctx op e Starting = await ctx op /\
  (forall s s' ph ph', op <> 0 -> step s s' ->
     threads s !! op = Some ph -> threads s' !! op = Some ph' -> ph <> ph' ->
     takes (phase_prog ctx op e ph) (phase_prog ctx op e ph')) /\
  (forall status c, phase_prog ctx op e (Returned status c) =
     Ret (if c then (0, e) else (status, None))).
Proof.
  split; [done|]. split; [|by intros status [|]].
  assert (Hupd : forall (m : gmap Z phase) o ph1 ph2 ph ph', m !! o = Some ph1 -> m !! op = Some ph ->
    <[o := ph2]> m !! op = Some ph' -> ph <> ph' -> o = op /\ ph = ph1 /\ ph' = ph2).
  { intros m o ph1 ph2 ph ph' H1 H2 H3 Hne. destruct (decide (o = op)) as [->|Ho].
    - rewrite lookup_insert_eq in H3. naive_solver.
    - rewrite lookup_insert_ne in H3 by done. naive_solver. }
  intros s s' ph ph' Hop [H|H] Ht Ht' Hne; destruct H; simpl in Ht'; try congruence.
  - destruct (decide (op0 = op)) as [->|Ho]; [congruence|].
    rewrite lookup_insert_ne in Ht' by done. congruence.
  - destruct (Hupd _ _ _ _ _ _ H Ht Ht' Hne) as (-> & -> & ->).
    by eexists _, (R (RSelect ch ctx)), _, (inr tt).
  - destruct (Hupd _ _ _ _ _ _ H Ht Ht' Hne) as (-> & -> & ->).
    eexists _, (R (RRegister op)), _, ch. split.
    + simpl. unfold await. rewrite (proj2 (Z.eqb_neq op 0) Hop). reflexivity.
    + reflexivity.
  - destruct (Hupd _ _ _ _ _ _ H Ht Ht' Hne) as (-> & -> & ->).
    by eexists _, (R (RSelect ch ctx)), _, (inl status).
  - destruct (request_cancel_frame s op0) as (_ & _ & E & _). rewrite E in Ht'.
    destruct (Hupd _ _ _ _ _ _ H Ht Ht' Hne) as (-> & -> & ->).
    by eexists _, (C (opCancel op)), _, tt.
  - destruct (Hupd _ _ _ _ _ _ H Ht Ht' Hne) as (-> & -> & ->).
    eexists _, (R (RRecv ch)), _, status. split; [done|]. simpl. by destruct (status =? StatusOK).
  - destruct (Hupd _ _ _ _ _ _ H Ht Ht' Hne) as (-> & -> & ->).
    by eexists _, (C (opFree op)), _, tt.
  - destruct (Hupd _ _ _ _ _ _ H Ht Ht' Hne) as (-> & -> & ->).
    by eexists _, (R (RCtxErr ctx)), _, e.
Qed.

(** ** Witnesses *)

(** Operation 5 is started and its goroutine parked; it is still running. *)
Definition parked_state : sys :=
  to_phase 5 (Parked 1) (set_chans {[1 := []]} (set_tables (mkPump {[5 := 1]} ∅)
    (to_phase 5 Starting (set_lib {[5 := LRun false]} sys_init)))).

Lemma parked_reachable : reachable parked_state.
Proof.
  eapply rtc_l; [left; by apply (EStart sys_init 5)|].
  eapply rtc_l; [right; by eapply (TRegister _ 5 1)|]. simpl.
  replace parked_state with (to_phase 5 (Parked 1) (set_chans (<[1:=[]]> ∅)
    (set_tables (mkPump (<[5:=1]> ∅) ∅) (to_phase 5 Starting (set_lib (<[5:=LRun false]> ∅) sys_init))))).
  { apply rtc_refl. } reflexivity.
Qed.

Lemma parked_phase op ph : threads parked_state !! op = Some ph -> op = 5 /\ ph = Parked 1.
Proof.
  simpl. destruct (decide (op = 5)) as [->|Hne].
  - rewrite lookup_insert_eq. naive_solver.
  - by rewrite !lookup_insert_ne, lookup_empty.
Qed.

Lemma parked_quiescent : quiescent parked_state.
Proof.
  intros s' H. inversion H; subst; try done;
    match goal with Ht : threads parked_state !! _ = Some _ |- _ =>
      apply parked_phase in Ht as [-> Ht]; simplify_eq end.
Qed.

Example no_lost_wakeup_witness :
  is_Some (waiters (tables parked_state) !! 5) /\ unclaimed (tables parked_state) = ∅.
Proof.
  destruct (no_lost_wakeup parked_state parked_reachable) as [_ H].
  destruct (H parked_quiescent eq_refl) as (_ & Hu & Hw & _).
  split; [|exact Hu]. apply Hw. exists false. reflexivity.
Defined.

(** The whole life of an operation that completes before its goroutine
    registers. *)
Definition returned_state : sys :=
  mkSys {[5 := LDone StatusOK]} [] false PumpWait pump_init {[1 := []]} {[5 := Returned StatusOK false]}.

Lemma returned_reachable : reachable returned_state.
Proof.
  eapply rtc_l; [left; by apply (EStart sys_init 5)|].
  eapply rtc_l; [left; eapply (EComplete _ 5 false StatusOK); [done|by left]|].
  eapply rtc_l; [right; by eapply PWait|].
  eapply rtc_l; [right; by eapply PDeliver|].
  eapply rtc_l; [right; by eapply (TRegister _ 5 1)|].
  eapply rtc_l; [right; by eapply (TSelect _ 5 1)|].
  replace returned_state with (mkSys (<[5:=LDone StatusOK]> (<[5:=LRun false]> ∅)) [] false PumpWait
    (mkPump ∅ (delete 5 (<[5:=StatusOK]> ∅))) (<[1:=[]]> (<[1:=[StatusOK]]> ∅))
    (<[5:=Returned StatusOK false]> (<[5:=Parked 1]> (<[5:=Starting]> ∅)))).
  { apply rtc_refl. } reflexivity.
Qed.

Example await_reports_its_completion_witness : lib returned_state !! 5 = Some (LDone StatusOK).
Proof.
  apply (proj1 (await_reports_its_completion returned_state returned_reachable) 5 StatusOK false).
  reflexivity.
Defined.

Example threads_run_await_witness :
  takes (phase_prog 9 5 None Starting) (phase_prog 9 5 None (Parked 1)).
Proof.
  apply (proj1 (proj2 (threads_run_await 9 5 None)))
    with (s := to_phase 5 Starting (set_lib {[5 := LRun false]} sys_init)) (s' := parked_state);
    [discriminate| |reflexivity|reflexivity|discriminate].
  right. apply (TRegister (to_phase 5 Starting (set_lib {[5 := LRun false]} sys_init)) 5 1
    (mkPump {[5 := 1]} ∅) None); reflexivity.
Defined.
