(* ===== verification/Handle.v ===== *)
(** The handle cell of a Go object: [handle.go].

    [set], [get] and [take] are programs over the atomic's events.  [cell_run]
    is the atomic itself, so that a sequence of operations of any number of
    goroutines, which the atomic serialises, is a list. *)
From S2P Require Import Prelude GoErrors Prog Abi Contract.
Local Open Scope Z_scope.

(** ** Operations

    [handle.go:11-13]: the cell of the object at address [o]. *)

(** [src/handle.go:11-17 handle.set] *)
Definition handle_set (o id : Z) : go unit := rt (RStore o id).

(** [src/handle.go:19-24 handle.get] *)
Definition handle_get (o : Z) : go (Z * error) :=
  id ← rt (RLoadHandle o);
  if negb (id =? 0) then Ret (id, None) else Ret (0, Some (Sentinel ErrClosed)).

(** [src/handle.go:26-29 handle.take] *)
Definition handle_take (o : Z) : go Z := rt (RSwap o 0).

(** The guard of every method: [h, err := x.h.get(); if err != nil { return }]. *)
Definition with_handle {A} (o : Z) (onerr : gerror -> A) (p : Z -> go A) : go A :=
  '(h, err) ← handle_get o;
  match err with Some e => Ret (onerr e) | None => p h end.

(** ** The cell *)

(** The events of one cell, on its contents. *)
Definition cell_event (o : Z) : partial_handler goE Z := fun X e v =>
  match e in goE X return option (X * Z) with
  | R e =>
      match e in rtE X return option (X * Z) with
      | RStore o' v' => if o' =? o then Some (tt, v') else None
      | RLoadHandle o' => if o' =? o then Some (v, v) else None
      | RSwap o' v' => if o' =? o then Some (v, v') else None
      | _ => None
      end
  | C _ => None
  end.

(** A program that only touches the cell, run on it. *)
Definition cell_run {A} (o : Z) (p : go A) (v : Z) : option (A * Z) := prun (cell_event o) p v.

(** What the goroutines do with a published handle, in the order the atomic
    serialises it. *)
Inductive handle_op : Set := OpGet | OpTake.
Inductive handle_ans : Set := AnsGet (id : Z) (err : error) | AnsTake (id : Z).

Definition handle_step (o : Z) (op : handle_op) (v : Z) : option (handle_ans * Z) :=
  match op with
  | OpGet => r ← cell_run o (handle_get o) v; Some (AnsGet r.1.1 r.1.2, r.2)
  | OpTake => r ← cell_run o (handle_take o) v; Some (AnsTake r.1, r.2)
  end.

Fixpoint handle_trace (o : Z) (ops : list handle_op) (v : Z) : option (list handle_ans) :=
  match ops with
  | [] => Some []
  | op :: ops =>
      r ← handle_step o op v;
      l ← handle_trace o ops r.2;
      Some (r.1 :: l)
  end.

(** ** Lemmas *)

Lemma get_step o v :
  handle_step o OpGet v =
    Some (if v =? 0 then AnsGet 0 (Some (Sentinel ErrClosed)) else AnsGet v None, v).
Proof.
  unfold handle_step, cell_run. simpl. rewrite Z.eqb_refl. simpl.
  by destruct (Z.eqb_spec v 0) as [->|].
Qed.

Lemma take_step o v : handle_step o OpTake v = Some (AnsTake v, 0).
Proof. unfold handle_step, cell_run. simpl. by rewrite Z.eqb_refl. Qed.

(** What the sequence answers before and after its first [take]. *)
Definition live_answer (id : Z) (op : handle_op) : handle_ans :=
  match op with OpGet => AnsGet id None | OpTake => AnsTake id end.
Definition dead_answer (op : handle_op) : handle_ans :=
  match op with OpGet => AnsGet 0 (Some (Sentinel ErrClosed)) | OpTake => AnsTake 0 end.

Lemma dead_trace o ops : handle_trace o ops 0 = Some (dead_answer <$> ops).
Proof.
  induction ops as [|op ops IH]; [done|]. cbn [handle_trace].
  assert (handle_step o op 0 = Some (dead_answer op, 0)) as ->.
  { destruct op; [apply get_step|apply take_step]. }
  cbn. by rewrite IH.
Qed.

Lemma live_trace o id ops : id <> 0 -> OpTake ∉ ops ->
  handle_trace o ops id = Some (live_answer id <$> ops).
Proof.
  intros Hid. induction ops as [|op ops IH]; intros Hn; [done|].
  destruct op; [|set_solver]. cbn [handle_trace]. rewrite get_step.
  rewrite (proj2 (Z.eqb_neq id 0) Hid). cbn. by rewrite IH by set_solver.
Qed.

#[export] Instance handle_op_eq_dec : EqDecision handle_op.
Proof. solve_decision. Defined.

Lemma trace_app o ops1 ops2 v : handle_trace o (ops1 ++ ops2) v =
  (l1 ← handle_trace o ops1 v;
   l2 ← handle_trace o ops2 (if decide (OpTake ∈ ops1) then 0 else v);
   Some (l1 ++ l2)).
Proof.
  revert v. induction ops1 as [|op ops1 IH]; intros v.
  - simpl. by destruct (handle_trace o ops2 v).
  - cbn [handle_trace app]. destruct op; [rewrite get_step|rewrite take_step]; cbn.
    + rewrite IH. destruct (handle_trace o ops1 v); [|done]. cbn.
      replace (if decide (OpTake ∈ OpGet :: ops1) then 0 else v)
        with (if decide (OpTake ∈ ops1) then 0 else v)
        by (repeat case_decide; try done; exfalso; set_solver).
      by destruct (handle_trace o ops2 _).
    + rewrite IH. destruct (handle_trace o ops1 0); [|done]. cbn.
      replace (if decide (OpTake ∈ ops1) then 0 else 0) with 0 by by case_decide.
      rewrite decide_True by set_solver. by destruct (handle_trace o ops2 0).
Qed.

(** Under the contract, [get] gives the object's id or [ErrClosed]. *)
Lemma handle_get_spec s o :
  wp s (handle_get o) (fun '(h, err) s' => s' = s /\
    match err with
    | None => h <> 0 /\ o_objs s !! o = Some h
    | Some e => h = 0 /\ e = Sentinel ErrClosed
    end).
Proof.
  apply wp_bind, wp_trigger; [done|]. intros h s' [Hh ->]. simpl.
  destruct (Z.eqb_spec h 0) as [->|Hne]; simpl; [done|]. by destruct Hh.
Qed.

Lemma with_handle_spec {A} s o (onerr : gerror -> A) (p : Z -> go A) Q :
  Q (onerr (Sentinel ErrClosed)) s ->
  (forall h, h <> 0 -> o_objs s !! o = Some h -> wp s (p h) Q) ->
  wp s (with_handle o onerr p) Q.
Proof.
  intros He Hp. eapply wp_call; [apply handle_get_spec|].
  intros [h [e|]] s' (-> & H); simpl; [by destruct H as [_ ->]|].
  destruct H. by apply Hp.
Qed.

Lemma handle_take_spec s o :
  wp s (handle_take o) (fun h s' => (h = 0 /\ s' = s) \/
    (h <> 0 /\ o_objs s !! o = Some h /\ (h ∉ o_handles s) /\ s' = add_handles [h] s)).
Proof.
  apply wp_trigger; [done|]. intros h s' (Hh & Hf & ->). simpl.
  case_decide as E; [by left|]. right. destruct Hh as [|Hh]; [done|]. split_and!; try done. by apply Hf.
Qed.

(** ** Properties *)

(** A published handle is taken once: whatever sequence of [get]s and
    [take]s the goroutines using an object perform on it, everything up to the
    first [take] sees the id, that [take] obtains it, and from then on every
    [take] obtains zero and every [get] reports [ErrClosed], so no library
    object is freed by two closers and none is used by a caller that arrives
    after the close. *)
Theorem handle_taken_once (o id : Z) (before after : list handle_op) :
  id <> 0 -> OpTake ∉ before ->
  (r ← cell_run o (handle_set o id) 0; handle_trace o (before ++ OpTake :: after) r.2) =
    Some ((live_answer id <$> before) ++ AnsTake id :: (dead_answer <$> after)).
Proof.
  intros Hid Hb. unfold cell_run. simpl. rewrite Z.eqb_refl. simpl.
  rewrite trace_app. rewrite (live_trace _ _ _ Hid Hb). cbn [mbind option_bind].
  rewrite decide_False by done.
  cbn [handle_trace mbind option_bind]. rewrite take_step. cbn [mbind option_bind fst snd].
  by rewrite dead_trace.
Qed.

Example handle_taken_once_witness :
  (r ← cell_run 4 (handle_set 4 9) 0; handle_trace 4 ([OpGet] ++ OpTake :: [OpTake; OpGet]) r.2) =
    Some [AnsGet 9 None; AnsTake 9; AnsTake 0; AnsGet 0 (Some (Sentinel ErrClosed))].
Proof.
  apply (handle_taken_once 4 9 [OpGet] [OpTake; OpGet]);
    [discriminate|apply (bool_decide_unpack _); vm_compute; exact I].
Defined.
