(* ===== verification/Deadline.v ===== *)
(** The per-stream deadline: [deadline] of [stream.go], and [deadlineErr].

    [set], [arm] and the release function [arm] returns are critical sections
    of the deadline's mutex followed by calls of cancel functions outside it.
    [dstep] interleaves them, one critical section or one cancel at a time,
    with the passing of time. *)
From S2P Require Import Prelude GoErrors Prog Abi Contract.
Local Open Scope Z_scope.

(** ** The critical sections *)

(** [src/stream.go:26-34 deadline] [armed] maps a registration to the context
    whose cancel function it holds. *)
Record deadline := mkDeadline { d_t : gotime; d_armed : gmap Z Z; d_next : Z }.

Definition deadline_zero : deadline := mkDeadline None ∅ 0.

(** [src/stream.go:36-43 deadline.set] Under the lock: the new state, and the
    cancel functions collected. The order of a map's iteration does not matter
    to what follows. *)
Definition set_locked (t : gotime) (d : deadline) : deadline * list Z :=
  (mkDeadline t (d_armed d) (d_next d), (map_to_list (d_armed d)).*2).

(** [src/stream.go:54-73 deadline.arm] The registration of the context [ctx]. *)
Definition arm (ctx : Z) (d : deadline) : deadline * Z :=
  (mkDeadline (d_t d) (<[d_next d := ctx]> (d_armed d)) (wrap_u64 (d_next d + 1)), d_next d).

(** [src/stream.go:75-80 deadline.arm] The release function, under the lock. *)
Definition release (id : Z) (d : deadline) : deadline :=
  mkDeadline (d_t d) (delete id (d_armed d)) (d_next d).

(** [src/stream.go:85-85 pastDeadline] [time.Unix(1, 0)]. *)
Definition pastDeadline : gotime := Some 1000000000.

(** [src/stream.go:93-98 deadlineErr] *)
Definition deadlineErr (err : gerror) : gerror :=
  if is_error err CtxDeadlineExceeded then Sentinel OsErrDeadlineExceeded else err.

(** ** Contexts *)

(** A context of [arm]: the deadline it was derived under ([context.WithCancel]
    when none), the number of [set]s made before, and the error it is done
    with. *)
Record dctx := mkDctx { c_t : gotime; c_gen : nat; c_err : option sentinel }.

(** A cancel function: the first reason wins. *)
Definition cancel (c : dctx) : dctx :=
  mkDctx (c_t c) (c_gen c) (match c_err c with Some e => Some e | None => Some CtxCanceled end).

Definition expired (t : gotime) (now : Z) : bool :=
  match t with Some t => t <=? now | None => false end.

(** [context.WithDeadline] of a deadline already past is done at once. *)
Definition derive (t : gotime) (gen : nat) (now : Z) : dctx :=
  mkDctx t gen (if expired t now then Some CtxDeadlineExceeded else None).

(** ** The system *)

Record dsys := mkDsys {
  dl : deadline;
  dctxs : gmap Z dctx;
  calls : gmap Z Z;          (* contexts of the calls in flight, and their id *)
  cancels : list Z;          (* cancel functions about to be called *)
  sets : nat;                (* calls of set so far *)
  now : Z
}.

Definition dsys_init (now : Z) : dsys := mkDsys deadline_zero ∅ ∅ [] 0 now.

Definition do_set (t : gotime) (s : dsys) : dsys :=
  mkDsys (set_locked t (dl s)).1 (dctxs s) (calls s) (cancels s ++ (set_locked t (dl s)).2)
    (S (sets s)) (now s).
Definition do_arm (ctx : Z) (s : dsys) : dsys :=
  mkDsys (arm ctx (dl s)).1 (<[ctx := derive (d_t (dl s)) (sets s) (now s)]> (dctxs s))
    (<[ctx := (arm ctx (dl s)).2]> (calls s)) (cancels s) (sets s) (now s).
Definition do_release (ctx id : Z) (s : dsys) : dsys :=
  mkDsys (release id (dl s)) (dctxs s) (delete ctx (calls s)) (cancels s ++ [ctx]) (sets s) (now s).
Definition do_cancel (ctx : Z) (rest : list Z) (s : dsys) : dsys :=
  mkDsys (dl s) (alter cancel ctx (dctxs s)) (calls s) rest (sets s) (now s).
Definition do_expire (ctx : Z) (s : dsys) : dsys :=
  mkDsys (dl s) (alter (fun c => mkDctx (c_t c) (c_gen c) (Some CtxDeadlineExceeded)) ctx (dctxs s))
    (calls s) (cancels s) (sets s) (now s).
Definition do_tick (t : Z) (s : dsys) : dsys :=
  mkDsys (dl s) (dctxs s) (calls s) (cancels s) (sets s) t.

Inductive dstep : dsys -> dsys -> Prop :=
| DSet s t : dstep s (do_set t s)
| DArm s ctx : dctxs s !! ctx = None -> dstep s (do_arm ctx s)
| DRelease s ctx id : calls s !! ctx = Some id -> dstep s (do_release ctx id s)
| DCancel s ctx l1 l2 : cancels s = l1 ++ ctx :: l2 -> dstep s (do_cancel ctx (l1 ++ l2) s)
| DExpire s ctx c : dctxs s !! ctx = Some c -> c_err c = None -> expired (c_t c) (now s) = true ->
    dstep s (do_expire ctx s)
| DTick s t : now s <= t -> dstep s (do_tick t s).

(** ** The invariant *)

Record dinv (n : Z) (s : dsys) : Prop := {
  (* ids are those handed out so far, and none is shared *)
  dinv_next : 0 <= d_next (dl s) <= n;
  dinv_ids : forall ctx id, calls s !! ctx = Some id -> 0 <= id < d_next (dl s);
  dinv_known : forall ctx, is_Some (calls s !! ctx) -> is_Some (dctxs s !! ctx);
  dinv_cancels : forall ctx, ctx ∈ cancels s -> is_Some (dctxs s !! ctx);
  dinv_registered : forall ctx id, calls s !! ctx = Some id <-> d_armed (dl s) !! id = Some ctx;
  dinv_gen : forall ctx c, dctxs s !! ctx = Some c -> (c_gen c <= sets s)%nat;
  (* a live context of a call in flight was derived from the deadline in force,
     or its cancel function is about to be called *)
  dinv_live : forall ctx c, is_Some (calls s !! ctx) -> dctxs s !! ctx = Some c ->
    c_err c = None -> c_gen c = sets s \/ ctx ∈ cancels s;
  dinv_current : forall ctx c, dctxs s !! ctx = Some c -> c_gen c = sets s -> c_t c = d_t (dl s);
  (* a call in flight is only ever cancelled by a set made since it armed *)
  dinv_cancelled : forall ctx c, is_Some (calls s !! ctx) -> dctxs s !! ctx = Some c ->
    c_err c = Some CtxCanceled \/ ctx ∈ cancels s -> (c_gen c < sets s)%nat
}.

(** ** Lemmas *)

Lemma dinv_weaken n n' s : n <= n' -> dinv n s -> dinv n' s.
Proof. intros Hn []. constructor; auto; lia. Qed.

Lemma dinv_init t : dinv 0 (dsys_init t).
Proof.
  constructor; simpl; try done; try lia.
  - by intros ctx [id H].
  - by intros ctx H%not_elem_of_nil.
Qed.

(** The collected cancel functions are those of the calls in flight. *)
Lemma collected n s ctx :
  dinv n s -> ctx ∈ (map_to_list (d_armed (dl s))).*2 <-> is_Some (calls s !! ctx).
Proof.
  intros I. rewrite list_elem_of_fmap. split.
  - intros ([id c] & -> & H%elem_of_map_to_list). exists id. by apply (dinv_registered _ _ I).
  - intros [id H%(dinv_registered _ _ I)]. exists (id, ctx). split; [done|]. by apply elem_of_map_to_list.
Qed.

Lemma dinv_set n s t : dinv n s -> dinv n (do_set t s).
Proof.
  intros I. pose proof (collected n s) as Hcol. destruct I. constructor; simpl; try done.
  - intros ctx [H|H%Hcol]%elem_of_app; [by apply dinv_cancels0|by apply dinv_known0|by constructor].
  - intros ctx c Hc. apply dinv_gen0 in Hc. lia.
  - intros ctx c Hf Hc He. right. rewrite elem_of_app, Hcol by (constructor; done). by right.
  - intros ctx c Hc Hg. apply dinv_gen0 in Hc. lia.
  - intros ctx c _ Hc _. apply dinv_gen0 in Hc. lia.
Qed.

Lemma dinv_arm n s ctx :
  n + 1 < two64 -> dinv n s -> dctxs s !! ctx = None -> dinv (n + 1) (do_arm ctx s).
Proof.
  intros Hn I Hnew.
  assert (Hcall : calls s !! ctx = None).
  { destruct (calls s !! ctx) eqn:E; [|done]. destruct (dinv_known _ _ I ctx); [eauto|congruence]. }
  assert (Hnotin : forall id, d_armed (dl s) !! id = Some ctx -> False).
  { intros id H%(dinv_registered _ _ I). congruence. }
  assert (Hnextfree : forall c, d_armed (dl s) !! d_next (dl s) = Some c -> False).
  { intros c H%(dinv_registered _ _ I)%(dinv_ids _ _ I). lia. }
  destruct I. constructor; unfold do_arm, arm; simpl.
  - rewrite wrap_u64_id; lia.
  - intros c id. rewrite wrap_u64_id by lia. intros [[-> <-]|[_ H%dinv_ids0]]%lookup_insert_Some; lia.
  - intros c [id [[-> _]|[Hne H]]%lookup_insert_Some].
    + rewrite lookup_insert_eq. eauto.
    + rewrite lookup_insert_ne by done. eauto.
  - intros c H. destruct (decide (c = ctx)) as [->|]; [rewrite lookup_insert_eq; eauto|].
    rewrite lookup_insert_ne by done. auto.
  - intros c id. rewrite !lookup_insert_Some. split.
    + intros [[-> ->]|[Hne H%dinv_registered0]]; [auto|]. right. split; [|done].
      intros <-. by eapply Hnextfree.
    + intros [[-> ->]|[Hne H]]; [auto|]. right. split; [|by apply dinv_registered0].
      intros <-. by eapply Hnotin.
  - intros c x [[-> <-]|[_ H%dinv_gen0]]%lookup_insert_Some; [simpl; lia|done].
  - intros c x [id Hc] [[-> <-]|[Hne H]]%lookup_insert_Some He; [by left|].
    rewrite lookup_insert_ne in Hc by done. eauto.
  - intros c x [[-> <-]|[_ H]]%lookup_insert_Some; [done|]. eauto.
  - intros c x [id Hc] [[-> <-]|[Hne H]]%lookup_insert_Some He.
    + exfalso. destruct He as [He|[? He]%dinv_cancels0]; [|congruence].
      simpl in He. by case_match.
    + rewrite lookup_insert_ne in Hc by done. eauto.
Qed.

Lemma dinv_release n s ctx id :
  dinv n s -> calls s !! ctx = Some id -> dinv n (do_release ctx id s).
Proof.
  intros I Hc. pose proof (dinv_registered _ _ I) as Hreg. destruct I.
  assert (Hin : forall c x, is_Some (delete ctx (calls s) !! c) -> dctxs s !! c = Some x ->
    c <> ctx /\ is_Some (calls s !! c)).
  { intros c x [i [Hne Hl]%lookup_delete_Some] _. eauto. }
  constructor; simpl; try done.
  - intros c i [_ H]%lookup_delete_Some. eauto.
  - intros c [i [_ H]%lookup_delete_Some]. eauto.
  - intros c [H| ->%list_elem_of_singleton]%elem_of_app; [auto|]. apply dinv_known0. eauto.
  - intros c i. rewrite !lookup_delete_Some, <-Hreg. split.
    + intros [Hne H]. split; [|done]. intros <-. apply Hreg in H, Hc. congruence.
    + intros [Hne H]. split; [|done]. congruence.
  - intros c x Hf Hx He. destruct (Hin _ _ Hf Hx). destruct (dinv_live0 c x) as [?|?]; [done..| |]; set_solver.
  - intros c x Hf Hx He. destruct (Hin _ _ Hf Hx). apply (dinv_cancelled0 c x); [done..|]. set_solver.
Qed.

(** A context changes only by becoming done: the invariant needs why. *)
Lemma dinv_done n s ctx f l :
  dinv n s ->
  (forall c, c_t (f c) = c_t c /\ c_gen (f c) = c_gen c /\ c_err (f c) <> None) ->
  (forall c, is_Some (calls s !! ctx) -> dctxs s !! ctx = Some c -> c_err (f c) = Some CtxCanceled ->
     c_err c = Some CtxCanceled \/ ctx ∈ cancels s) ->
  (forall c, c ∈ l -> c ∈ cancels s) -> (forall c, c ∈ cancels s -> c = ctx \/ c ∈ l) ->
  dinv n (mkDsys (dl s) (alter f ctx (dctxs s)) (calls s) l (sets s) (now s)).
Proof.
  intros I Hf Hcan Hl1 Hl2. destruct I.
  assert (Hback : forall c x, alter f ctx (dctxs s) !! c = Some x ->
    exists y, dctxs s !! c = Some y /\ c_t x = c_t y /\ c_gen x = c_gen y /\
      (x = y /\ c <> ctx \/ x = f y /\ c = ctx)).
  { intros c x. destruct (decide (c = ctx)) as [->|Hne].
    - rewrite lookup_alter_eq. intros (y & Hy & ->)%fmap_Some. exists y. destruct (Hf y) as (? & ? & _). auto 6.
    - rewrite lookup_alter_ne by done. eauto 8. }
  assert (Hfwd : forall c, is_Some (dctxs s !! c) -> is_Some (alter f ctx (dctxs s) !! c)).
  { intros c. destruct (decide (c = ctx)) as [->|Hne]; [rewrite lookup_alter_eq|by rewrite lookup_alter_ne].
    by rewrite fmap_is_Some. }
  constructor; simpl; try done; try (by auto).
  - intros c x (y & Hy & _ & -> & _)%Hback. eauto.
  - intros c x Hc (y & Hy & _ & -> & [[-> Hne]|[-> ->]])%Hback He.
    + destruct (dinv_live0 c y Hc Hy He) as [?|Hin]; [by left|]. right.
      destruct (Hl2 _ Hin); [done|done].
    + destruct (Hf y) as (_ & _ & ?). done.
  - intros c x (y & Hy & -> & -> & _)%Hback. eauto.
  - intros c x Hc (y & Hy & _ & -> & [[-> Hne]|[-> ->]])%Hback He; apply (dinv_cancelled0 _ y Hc Hy).
    + destruct He; auto.
    + destruct He as [He|He]; [by eapply Hcan|auto].
Qed.

Lemma dinv_step n s s' : n + 1 < two64 -> dinv n s -> dstep s s' -> dinv (n + 1) s'.
Proof.
  intros Hn I H. destruct H; [| |apply (dinv_weaken n); [lia|]..].
  - apply (dinv_weaken n); [lia|by apply dinv_set].
  - by apply dinv_arm.
  - by apply dinv_release.
  - apply (dinv_done n s ctx cancel (l1 ++ l2)); try done.
    + intros c. split_and!; try done. simpl. by case_match.
    + intros c _ _ _. right. rewrite H. set_solver.
    + intros c. rewrite H. set_solver.
    + intros c. rewrite H. set_solver.
  - apply (dinv_done n s ctx _ (cancels s)); try done; auto.
  - destruct I. constructor; assumption.
Qed.

Lemma dinv_steps k : forall s s' n,
  nsteps dstep k s s' -> 0 <= n -> n + Z.of_nat k < two64 -> dinv n s -> dinv (n + Z.of_nat k) s'.
Proof.
  induction k as [|k IH]; intros s s' n Hk Hn Hlt I; inversion Hk as [|? ? s1 ? H1 H2]; subst.
  - by rewrite Z.add_0_r.
  - replace (n + Z.of_nat (S k)) with (n + 1 + Z.of_nat k) by lia.
    eapply IH; [exact H2|lia|lia|]. apply (dinv_step _ s); [lia|done|done].
Qed.

(** ** Properties *)

(** C13. A deadline reaches the calls already blocked: whatever the interleaving
    of [set]s, of calls arming and releasing, of cancels and of time, a call in
    flight (one that armed and has not released) whose context is still live
    waits under the deadline now in force, unless its cancel function is about
    to be called by a [set] that has not returned; it is registered under an id
    of its own, so every later [set] finds it; and its context is cancelled
    only by a [set] made since it armed, each of which ends it at most once, so
    a call that resumes on cancellation resumes once per change. *)
Theorem deadline_reaches_calls (t0 : Z) (k : nat) (s : dsys) :
  nsteps dstep k (dsys_init t0) s -> Z.of_nat k < two64 ->
  forall ctx id, calls s !! ctx = Some id ->
  exists c, dctxs s !! ctx = Some c /\ d_armed (dl s) !! id = Some ctx /\
    (c_err c = None -> c_t c = d_t (dl s) \/ ctx ∈ cancels s) /\
    (c_err c = Some CtxCanceled -> (c_gen c < sets s)%nat) /\
    (forall t, ctx ∈ cancels (do_set t s)).
Proof.
  intros Hk Hlt ctx id Hc. pose proof (dinv_steps k _ _ 0 Hk ltac:(lia) ltac:(lia) (dinv_init t0)) as I.
  destruct (dinv_known _ _ I ctx) as [c Hx]; [eauto|]. exists c. split_and!; [done| | | |].
  - by apply (dinv_registered _ _ I).
  - intros He. destruct (dinv_live _ _ I ctx c) as [Hg|?]; [eauto|done|done| |by right].
    left. by eapply (dinv_current _ _ I).
  - intros He. eapply (dinv_cancelled _ _ I); [|done|by left]. eauto.
  - intros t. simpl. rewrite elem_of_app, (collected _ _ ctx I). eauto.
Qed.

(** A call armed without a deadline, then a deadline is set. *)
Definition set_during_call : dsys := do_set (Some 50) (do_arm 7 (dsys_init 3)).

Example deadline_reaches_calls_witness :
  exists c, dctxs set_during_call !! 7 = Some c /\ d_armed (dl set_during_call) !! 0 = Some 7 /\
    (c_err c = None -> c_t c = d_t (dl set_during_call) \/ 7 ∈ cancels set_during_call) /\
    (c_err c = Some CtxCanceled -> (c_gen c < sets set_during_call)%nat) /\
    (forall t, 7 ∈ cancels (do_set t set_during_call)).
Proof.
  apply (deadline_reaches_calls 3 2 set_during_call); [|reflexivity|reflexivity].
  eapply nsteps_l; [apply (DArm (dsys_init 3) 7); reflexivity|].
  eapply nsteps_l; [apply DSet|constructor].
Defined.
