(* ===== verification/Streams.v ===== *)
(** QUIC streams: [stream.go].

    A stream object is its address: the handle cell, the mutex and the deadline
    inside it are named by it.  A Go [[]byte] argument that the method fills
    comes back as a last result.  [Write] and [Read] resume when their deadline
    is changed under them; each takes a bound on how often that happens, and
    the proofs give the bound ([o_changes]) from which it is never reached. *)
From S2P Require Import Prelude GoErrors Prog Abi Contract Pump Calls Handle Deadline.
Local Open Scope Z_scope.

(** ** Streams *)

(** [src/stream.go:104-112 SendStream] *)
Record SendStream := mkSend { send_obj : Z; send_conn : Z }.
(** [src/stream.go:243-249 RecvStream] *)
Record RecvStream := mkRecv { recv_obj : Z; recv_conn : Z }.

(** [src/stream.go:114-119 newSendStream] *)
Definition newSendStream (h conn : Z) : go SendStream :=
  o ← rt RNew;
  handle_set o h;;
  rt (RAddCleanup o (sendFree h));;
  Ret (mkSend o conn).

(** [src/stream.go:251-256 newRecvStream] *)
Definition newRecvStream (h conn : Z) : go RecvStream :=
  o ← rt RNew;
  handle_set o h;;
  rt (RAddCleanup o (recvFree h));;
  Ret (mkRecv o conn).

(** [x.mu.Lock(); defer x.mu.Unlock()] *)
Definition with_lock {A} (m : Z) (p : go A) : go A :=
  rt (RLock m);; a ← p; rt (RUnlock m);; Ret a.

(** Go's [int] of a [uint64]. *)
Definition to_int (n : Z) : Z := wrap_i64 n.

(** [p[written:]] *)
Definition from (written : Z) (p : bytes) : bytes := drop (Z.to_nat written) p.
Definition len (p : bytes) : Z := Z.of_nat (length p).

(** ** Sending *)

(** [src/stream.go:159-170 SendStream.WriteContext] The loop. Every round but
    the last takes a byte, so [fuel] beyond the bytes left is not used up. *)
Fixpoint write_loop (fuel : nat) (ctx h : Z) (p : bytes) (written : Z) : go (Z * error) :=
  match fuel with
  | O => Panic "out of fuel"
  | S fuel =>
      if written <? len p then
        '(n, err) ← SendWrite ctx h (from written p);
        let written := written + to_int n in
        match err with
        | Some e => Ret (written, Some e)
        | None =>
            if n =? 0 then Ret (written, Some (errKind KindStream "stream accepted no data" []))
            else write_loop fuel ctx h p written
        end
      else Ret (written, None)
  end.

(** [src/stream.go:144-171 SendStream.WriteContext] *)
Definition WriteContext (st : SendStream) (ctx : Z) (p : bytes) : go (Z * error) :=
  with_handle (send_obj st) (fun e => (0, Some e)) (fun h =>
    with_lock (send_obj st) (write_loop (S (length p)) ctx h p 0)).

(** [src/stream.go:125-142 SendStream.Write] *)
Fixpoint Write (fuel : nat) (st : SendStream) (p : bytes) (written : Z) : go (Z * error) :=
  match fuel with
  | O => Panic "out of fuel"
  | S fuel =>
      '(ctx, id) ← rt (RArm (send_obj st));
      '(n, err) ← WriteContext st ctx (from written p);
      rt (RRelease (send_obj st) id);;
      let written := written + n in
      match err with
      | None => Ret (written, None)
      | Some e =>
          if is_error e CtxCanceled && (written <? len p) then Write fuel st p written
          else Ret (written, Some (deadlineErr e))
      end
  end.

(** [src/stream.go:175-178 SendStream.SetWriteDeadline] *)
Definition SetWriteDeadline (st : SendStream) (t : gotime) : go error :=
  rt (RSetDeadline (send_obj st) t);; Ret None.

(** [src/stream.go:182-188 SendStream.SetPriority] *)
Definition SetPriority (st : SendStream) (ctx priority : Z) : go error :=
  with_handle (send_obj st) Some (fun h => SendSetPriority ctx h priority).

(** [src/stream.go:192-205 SendStream.Stopped] *)
Definition Stopped (st : SendStream) (ctx : Z) : go (Z * bool * error) :=
  with_handle (send_obj st) (fun e => (0, false, Some e)) (fun h =>
    '(code, err) ← SendStopped ctx h;
    match err with
    | Some e => Ret (0, false, Some e)
    | None => if code =? NoStopCode then Ret (0, false, None) else Ret (code, true, None)
    end).

(** [src/stream.go:208-215 SendStream.Reset] *)
Definition SendStream_Reset (st : SendStream) (ctx code : Z) : go error :=
  h ← handle_take (send_obj st);
  if h =? 0 then Ret None
  else err ← SendReset ctx h code; SendFree h;; Ret err.

(** [src/stream.go:231-239 SendStream.Close] *)
Definition SendStream_Close (st : SendStream) : go error :=
  h ← handle_take (send_obj st);
  if h =? 0 then Ret None
  else
    rt (RSetDeadline (send_obj st) pastDeadline);;
    err ← SendFinish background h;
    SendFree h;;
    Ret err.

(** ** Receiving *)

(** [src/stream.go:286-305 RecvStream.ReadContext] *)
Definition ReadContext (st : RecvStream) (ctx : Z) (p : bytes) : go (Z * error * bytes) :=
  with_handle (recv_obj st) (fun e => (0, Some e, p)) (fun h =>
    if len p =? 0 then Ret (0, None, p)
    else
      with_lock (recv_obj st) (
        '(n, eof, err, p') ← RecvRead ctx h p;
        match err with
        | Some e => Ret (n, Some e, p')
        | None => if eof : bool then Ret (n, Some (Sentinel IoEOF), p') else Ret (n, None, p')
        end)).

(** [src/stream.go:263-279 RecvStream.Read] *)
Fixpoint Read (fuel : nat) (st : RecvStream) (p : bytes) : go (Z * error * bytes) :=
  match fuel with
  | O => Panic "out of fuel"
  | S fuel =>
      '(ctx, id) ← rt (RArm (recv_obj st));
      '(n, err, p) ← ReadContext st ctx p;
      rt (RRelease (recv_obj st) id);;
      match err with
      | None => Ret (n, None, p)
      | Some e =>
          if 0 <? n then Ret (n, Some e, p)
          else if is_error e CtxCanceled then Read fuel st p
          else Ret (0, Some (deadlineErr e), p)
      end
  end.

(** [src/stream.go:309-312 RecvStream.SetReadDeadline] *)
Definition SetReadDeadline (st : RecvStream) (t : gotime) : go error :=
  rt (RSetDeadline (recv_obj st) t);; Ret None.

(** [src/stream.go:316-323 RecvStream.Stop] *)
Definition Stop (st : RecvStream) (ctx code : Z) : go error :=
  h ← handle_take (recv_obj st);
  if h =? 0 then Ret None
  else err ← RecvStop ctx h code; RecvFree h;; Ret err.

(** [src/stream.go:333-336 RecvStream.Close] *)
Definition RecvStream_Close (st : RecvStream) : go error :=
  rt (RSetDeadline (recv_obj st) pastDeadline);;
  Stop st background 0.

(** ** What a call moves *)

(** Everything a goroutine owes and holds, its streams' objects included. *)
Definition frame (s s' : owned) : Prop :=
  same_debts s s' /\ o_handles s' = o_handles s /\ o_loaded s' = o_loaded s /\
  o_objs s' = o_objs s.

(** The bytes a call put on the send streams and took off the receive streams,
    per library object. *)
Definition moved (s s' : owned) (out inn : Z -> bytes) : Prop :=
  (forall h, sent_on h s' = sent_on h s ++ out h) /\
  (forall h, rcvd_on h s' = rcvd_on h s ++ inn h).
Definition nothing : Z -> bytes := fun _ => [].
Definition only (h : Z) (d : bytes) : Z -> bytes := fun h' => if decide (h' = h) then d else [].

(** The library object a stream was created for. *)
Definition behind (s : owned) (o : Z) : Z := default 0 (o_objs s !! o).

(** What happened to the context of a call. *)
Definition ctx_moves (s : owned) (ctx : Z) (s' : owned) : Prop :=
  (o_ctx s' = o_ctx s /\ o_changes s' = o_changes s) \/
  exists e, ctx_fires (o_ctx s) (o_changes s) ctx e (o_ctx s') (o_changes s').

(** A call ends with an error of the library, or of a context that is done. *)
Definition io_error (ctx : Z) (s' : owned) (e : gerror) : Prop :=
  is_iroh e \/
  exists e0, e = Sentinel e0 /\ (e0 = CtxCanceled \/ e0 = CtxDeadlineExceeded) /\
    ctx <> background /\ o_ctx s' !! ctx = Some (CtxDone e0).

(** ** Lemmas *)

#[export] Instance frame_equiv : Equivalence frame.
Proof.
  split; unfold frame.
  - intros s. by split.
  - intros s t (H & -> & -> & ->). by split; [symmetry|].
  - intros s t u (D1 & ? & ? & ?) (D2 & -> & -> & ->). split; [by transitivity t|done].
Qed.

Lemma ctx_moves_refl s ctx : ctx_moves s ctx s.
Proof. by left. Qed.

Lemma ctx_moves_trans s ctx t u : ctx_moves s ctx t -> ctx_moves t ctx u -> ctx_moves s ctx u.
Proof.
  intros [[E1 E2]|[e H1]] [[E3 E4]|[e' H2]].
  - left. split; congruence.
  - right. exists e'. by rewrite <-E1, <-E2.
  - right. exists e. by rewrite E3, E4.
  - right. exists e. destruct H1 as (Hbg & He & Hc & Hn), H2 as (_ & He' & Hc' & Hn').
    rewrite Hc, lookup_insert_eq in Hn'. destruct Hn' as [-> Hn'].
    rewrite Hc' , Hc, insert_insert_eq, Hn'. by split_and!.
Qed.

Lemma waited_ctx_moves s ctx s' : waited s ctx s' -> ctx_moves s ctx s'.
Proof. intros [->|(e & c & n & Hf & ->)]; [by left|]. right. by exists e. Qed.

Lemma waited_frame s ctx s' : waited s ctx s' -> frame s s' /\ moved s s' nothing nothing.
Proof.
  unfold moved, nothing, sent_on, rcvd_on.
  intros [->|(e & c & n & _ & ->)]; (split; [done|]); split; intros h; by rewrite app_nil_r.
Qed.

Lemma op_fails_io s ctx e s' :
  op_fails s ctx e s' ->
  ctx_moves s ctx s' /\ frame s s' /\ moved s s' nothing nothing /\ io_error ctx s' e.
Proof.
  intros H. pose proof (op_fails_waited _ _ _ _ H) as Hw.
  destruct (waited_frame _ _ _ Hw). split_and!; [by apply waited_ctx_moves|done|done|].
  destruct H as [[_ Hi]|(e0 & (c & n & (Hbg & He & Hc & _) & ->) & ->)]; [by left|].
  right. exists e0. split_and!; try done. simpl. by rewrite Hc, lookup_insert_eq.
Qed.

Lemma moved_trans s t u out1 inn1 out2 inn2 out inn :
  moved s t out1 inn1 -> moved t u out2 inn2 ->
  (forall h, out h = out1 h ++ out2 h) -> (forall h, inn h = inn1 h ++ inn2 h) ->
  moved s u out inn.
Proof.
  intros [H1 H2] [H3 H4] Ho Hi.
  split; intros h; [rewrite H3, H1, Ho|rewrite H4, H2, Hi]; by rewrite app_assoc.
Qed.

Lemma moved_nothing s t u out inn :
  moved s t nothing nothing -> moved t u out inn -> moved s u out inn.
Proof. intros H1 H2. by eapply moved_trans. Qed.

Lemma moved_refl s : moved s s nothing nothing.
Proof. split; intros h; by rewrite app_nil_r. Qed.

Lemma only_nil h : forall h', only h [] h' = [].
Proof. intros h'. unfold only. by case_decide. Qed.

Lemma moved_only_nil s s' h inn : moved s s' nothing inn <-> moved s s' (only h []) inn.
Proof. unfold moved. split; intros [H1 H2]; (split; [|done]); intros h'; by rewrite H1, only_nil. Qed.

Lemma only_app h a b : forall h', only h (a ++ b) h' = only h a h' ++ only h b h'.
Proof. intros h'. unfold only. by case_decide. Qed.

Lemma write_effect s h data n :
  moved s (apply_effect (KWrite h data) (VU64 n) s) (only h (take (Z.to_nat n) data)) nothing /\
  frame s (apply_effect (KWrite h data) (VU64 n) s).
Proof.
  split; [|done]. unfold moved, only, nothing, sent_on, rcvd_on. simpl. split; intros h'.
  - case_decide as E; [subst; by rewrite lookup_insert_eq|].
    by rewrite lookup_insert_ne, app_nil_r.
  - by rewrite app_nil_r.
Qed.

Lemma read_effect s h m d :
  moved s (apply_effect (KRead h m) (VBytes d) s) nothing (only h d) /\
  frame s (apply_effect (KRead h m) (VBytes d) s).
Proof.
  split; [|done]. unfold moved, only, nothing, sent_on, rcvd_on. simpl. split; intros h'.
  - by rewrite app_nil_r.
  - case_decide as E; [subst; by rewrite lookup_insert_eq|].
    by rewrite lookup_insert_ne, app_nil_r.
Qed.

Lemma effect_ctx k v s :
  o_ctx (apply_effect k v s) = o_ctx s /\ o_changes (apply_effect k v s) = o_changes s.
Proof. by destruct k, v. Qed.

Lemma ctx_moves_effect s ctx s1 k v : ctx_moves s ctx s1 -> ctx_moves s ctx (apply_effect k v s1).
Proof. unfold ctx_moves. by destruct (effect_ctx k v s1) as [-> ->]. Qed.

(** ** Lemmas: the wrappers *)

Lemma SendWrite_spec s ctx h data :
  o_loaded s = true -> h <> 0 ->
  wp s (SendWrite ctx h data) (fun '(n, err) s' =>
    ctx_moves s ctx s' /\ frame s s' /\
    match err with
    | None => 0 <= n <= len data /\ moved s s' (only h (take (Z.to_nat n) data)) nothing
    | Some e => n = 0 /\ moved s s' nothing nothing /\ io_error ctx s' e
    end).
Proof.
  intros Hl Hh. eapply wp_mono.
  { apply (start_u64 s ctx (sendWrite h data)); [done|done|]. right. by eexists _, _. }
  intros [n [e|]] s'.
  - intros [-> (? & ? & ? & ?)%op_fails_io]. by split_and!.
  - intros (s1 & Hw & Hv & ->). destruct (waited_frame _ _ _ Hw) as [Hf Hm].
    destruct (write_effect s1 h data n) as [Hm' Hf']. split_and!.
    + by apply ctx_moves_effect, waited_ctx_moves.
    + by transitivity s1.
    + apply Hv. + apply Hv.
    + eapply moved_nothing; [exact Hm|exact Hm'].
Qed.

Lemma RecvRead_spec s ctx h p :
  o_loaded s = true -> h <> 0 -> 0 < len p < two63 ->
  wp s (RecvRead ctx h p) (fun '(n, eof, err, p') s' =>
    ctx_moves s ctx s' /\ frame s s' /\
    match err with
    | None => exists d, n = len d /\ n <= len p /\ p' = d ++ drop (length d) p /\
        (eof = true -> d = []) /\ moved s s' nothing (only h d)
    | Some e => n = 0 /\ p' = p /\ moved s s' nothing nothing /\ io_error ctx s' e
    end).
Proof.
  intros Hl Hh Hm. eapply wp_mono; [by apply (start_into s ctx (recvRead h (len p))) with (h := h)|].
  intros [[[n eof] [e|]] p'] s'.
  - intros (-> & -> & -> & (? & ? & ? & ?)%op_fails_io). by split_and!.
  - intros (s1 & v & d & Hw & Hv & Hb & -> & -> & ->).
    destruct (waited_frame _ _ _ Hw) as [Hf Hmo]. split_and!.
    + by apply ctx_moves_effect, waited_ctx_moves.
    + transitivity s1; [done|]. by destruct v.
    + exists d. destruct Hb as [[-> ->]|(-> & -> & ->)]; simpl in Hv; unfold len in *.
      * split_and!; try done. eapply moved_nothing; [exact Hmo|]. apply read_effect.
      * split_and!; try done; [simpl; lia|]. destruct Hmo as [H1 H2].
        split; intros h'; [apply H1|rewrite only_nil; apply H2].
Qed.

(** A lock taken and released around a program leaves the locks alone. *)
Lemma with_lock_spec {A} s m (p : go A) (Q : A -> owned -> Prop) :
  m ∉ o_locks s ->
  wp (set_locks ({[m]} ∪ o_locks s) s) p (fun a s' =>
    o_locks s' = {[m]} ∪ o_locks s /\ Q a (set_locks (o_locks s) s')) ->
  wp s (with_lock m p) Q.
Proof.
  intros Hm Hp. apply wp_bind, wp_trigger; [done|]. intros [] s1 ->.
  eapply wp_call; [exact Hp|]. intros a s' [Hl HQ].
  apply wp_bind, wp_trigger; [simpl; rewrite Hl; set_solver|].
  intros [] s2 ->. simpl.
  assert (o_locks s' ∖ {[m]} = o_locks s) as -> by (rewrite Hl; set_solver). exact HQ.
Qed.

(** What a locked section moved, seen from outside. *)
Lemma frame_unlock s s' l :
  frame (set_locks l s) s' -> o_locks s' = l /\ frame s (set_locks (o_locks s) s').
Proof. intros ((? & ? & ? & ? & ? & ?) & ? & ? & ?). by split_and!. Qed.

(** ** Lemmas: WriteContext *)

Lemma from_0 p : from 0 p = p.
Proof. reflexivity. Qed.

Lemma from_len w p : 0 <= w <= len p -> len (from w p) = len p - w.
Proof. intros H. unfold from, len in *. rewrite length_drop. lia. Qed.

Lemma from_from a b p : 0 <= a -> 0 <= b -> from b (from a p) = from (a + b) p.
Proof. intros Ha Hb. unfold from. rewrite drop_drop. f_equal. lia. Qed.

Lemma take_from a b p :
  0 <= a -> 0 <= b ->
  take (Z.to_nat (a + b)) p = take (Z.to_nat a) p ++ take (Z.to_nat b) (from a p).
Proof. intros Ha Hb. unfold from. rewrite drop_take_app. f_equal. lia. Qed.

Lemma to_int_id n : 0 <= n < two63 -> to_int n = n.
Proof. intros H. apply wrap_i64_id. unfold two63 in *. lia. Qed.

(** The state of a loop that has written [w] bytes of [p] on [h]. *)
Definition wrote (s : owned) (ctx h : Z) (p : bytes) (w : Z) (s' : owned) : Prop :=
  ctx_moves s ctx s' /\ frame s s' /\ moved s s' (only h (take (Z.to_nat w) p)) nothing.

Lemma write_loop_spec ctx h p s : len p < two63 -> h <> 0 -> o_loaded s = true ->
  forall fuel w s1,
  0 <= w <= len p -> len p - w < Z.of_nat fuel -> wrote s ctx h p w s1 ->
  wp s1 (write_loop fuel ctx h p w) (fun '(n, err) s' =>
    wrote s ctx h p n s' /\
    match err with
    | None => n = len p
    | Some e => 0 <= n < len p /\ io_error ctx s' e
    end).
Proof.
  intros Hp Hh Hl. induction fuel as [|fuel IH]; intros w s1 Hw Hfuel (Hc & Hf & Hm); [lia|].
  cbn [write_loop]. destruct (Z.ltb_spec w (len p)) as [Hlt|Hge].
  2:{ simpl. assert (w = len p) as -> by lia. by split_and!. }
  eapply wp_call.
  { apply SendWrite_spec; [|done]. destruct Hf as (_ & _ & -> & _). done. }
  intros [n [e|]] s2 (Hc2 & Hf2 & H).
  - destruct H as (-> & Hm2 & He). rewrite to_int_id by (unfold two63; lia). rewrite Z.add_0_r. simpl.
    split; [|split; [lia|done]]. split_and!; [by eapply ctx_moves_trans|by transitivity s1|].
    eapply moved_trans; [exact Hm|exact Hm2| |done]. intros h'. by rewrite app_nil_r.
  - destruct H as (Hn & Hm2). rewrite from_len in Hn by lia.
    rewrite to_int_id by lia.
    assert (Hw2 : wrote s ctx h p (w + n) s2).
    { split_and!; [by eapply ctx_moves_trans|by transitivity s1|].
      eapply moved_trans; [exact Hm|exact Hm2| |done].
      intros h'. rewrite take_from by lia. apply only_app. }
    destruct (Z.eqb_spec n 0) as [->|Hn0].
    + simpl. rewrite Z.add_0_r in *. split; [done|]. split; [lia|]. left. unfold is_iroh, errKind. eauto.
    + apply IH; [lia|lia|done].
Qed.

Lemma WriteContext_spec st s ctx p :
  o_loaded s = true -> send_obj st ∉ o_locks s -> len p < two63 ->
  wp s (WriteContext st ctx p) (fun '(n, err) s' =>
    ctx_moves s ctx s' /\ frame s s' /\ 0 <= n <= len p /\
    moved s s' (only (behind s (send_obj st)) (take (Z.to_nat n) p)) nothing /\
    match err with
    | None => n = len p /\ (0 < len p -> 0 < n)
    | Some e => (n = 0 /\ e = Sentinel ErrClosed) \/ (n < len p /\ io_error ctx s' e)
    end).
Proof.
  intros Hl Hlock Hp. apply with_handle_spec.
  { split_and!; [apply ctx_moves_refl|done|lia|unfold len; lia| |by left].
    rewrite <-moved_only_nil. apply moved_refl. }
  intros h Hh Hobj. apply with_lock_spec; [done|].
  set (s0 := set_locks _ s).
  eapply wp_mono.
  - apply (write_loop_spec ctx h p s0); try done; [unfold len; lia|unfold len; lia|].
    split_and!; [apply ctx_moves_refl|done|]. apply moved_only_nil, moved_refl.
  - intros [n err] s' ((Hc & Hf & Hm) & Herr). apply frame_unlock in Hf as [-> Hf].
    split; [done|].
    assert (Hn : 0 <= n <= len p) by (destruct err; unfold len in *; lia).
    split_and!; [done|done|lia|lia| |].
    + unfold behind. rewrite Hobj. exact Hm.
    + destruct err as [e|]; [right; split; [lia|apply Herr]|]. subst. done.
Qed.

(** ** Lemmas: calls under the stream's deadline *)

(** What a context of [arm] is. *)
Definition armed_ctx (s : owned) (ctx : Z) : Prop :=
  o_ctx s !! ctx = Some CtxArmed \/ o_ctx s !! ctx = Some (CtxDone CtxDeadlineExceeded).

Lemma arm_spec {B} s d (p : Z -> Z -> go B) (Q : B -> owned -> Prop) :
  (forall ctx id s1, armed_ctx s1 ctx -> o_changes s1 = o_changes s -> o_locks s1 = o_locks s ->
     frame s (set_armed (o_armed s) s1) -> o_armed s1 = {[(d, id)]} ∪ o_armed s ->
     ((d, id) ∉ o_armed s) -> moved s s1 nothing nothing ->
     wp s1 (p ctx id) Q) ->
  wp s ('(ctx, id) ← rt (RArm d); p ctx id) Q.
Proof.
  intros Hp. apply wp_bind, wp_trigger; [done|].
  intros [ctx id] s1 (Hid & Hc & Hbg & st & Hst & ->). apply Hp; try done.
  - unfold armed_ctx. simpl. rewrite lookup_insert_eq. destruct Hst as [-> | ->]; auto.
  - split; intros h; by rewrite app_nil_r.
Qed.

Lemma release_spec {B} s s1 s2 d id (p : go B) (Q : B -> owned -> Prop) :
  frame s (set_armed (o_armed s) s1) -> o_armed s1 = {[(d, id)]} ∪ o_armed s ->
  (d, id) ∉ o_armed s -> frame s1 s2 ->
  (frame s (set_armed (o_armed s) s2) -> wp (set_armed (o_armed s) s2) p Q) ->
  wp s2 (rt (RRelease d id);; p) Q.
Proof.
  intros ((F1 & F2 & F3 & F4 & F5 & _) & F7 & F8 & F9) Ha Hid
    ((G1 & G2 & G3 & G4 & G5 & G6) & G7 & G8 & G9) Hp.
  simpl in F1, F2, F3, F4, F5, F7, F8, F9.
  apply wp_bind, wp_trigger; [simpl; rewrite G6, Ha; set_solver|].
  intros [] s3 ->. simpl.
  assert (o_armed s2 ∖ {[(d, id)]} = o_armed s) as -> by (rewrite G6, Ha; set_solver).
  apply Hp. split_and!; simpl; try congruence. split_and!; simpl; congruence.
Qed.

Lemma ctx_moves_changes s ctx s' : ctx_moves s ctx s' -> (o_changes s' <= o_changes s)%nat.
Proof.
  intros [[_ ->]|(e & _ & _ & _ & H)]; [done|].
  destruct (o_ctx s !! ctx) as [[| |e']|]; [lia| |destruct H; lia|lia].
  case_decide; lia.
Qed.

(** How a call under an armed context can end. *)
Lemma armed_outcome s ctx s' e :
  armed_ctx s ctx -> ctx_moves s ctx s' -> io_error ctx s' e ->
  is_iroh e \/ e = Sentinel CtxDeadlineExceeded \/
  (e = Sentinel CtxCanceled /\ o_changes s = S (o_changes s')).
Proof.
  intros Ha Hm [?|(e0 & -> & He & _ & Hd)]; [by left|]. right.
  destruct Hm as [[E1 E2]|(e1 & _ & _ & Hc & Hn)].
  - rewrite E1 in Hd. destruct Ha as [Ha|Ha]; rewrite Ha in Hd; [done|]. left. congruence.
  - rewrite Hc, lookup_insert_eq in Hd. injection Hd as ->.
    destruct Ha as [Ha|Ha]; rewrite Ha in Hn.
    + case_decide; [right; by subst|]. destruct He; [done|left; by subst].
    + destruct Hn as [-> _]. by left.
Qed.

(** Once mapped by [deadlineErr], an error is one a [net.Conn] caller knows. *)
Definition stream_error (e : gerror) : Prop :=
  e = Sentinel ErrClosed \/ e = Sentinel OsErrDeadlineExceeded \/ is_iroh e.

Lemma iroh_not_ctx e : is_iroh e -> is_error e CtxCanceled = false /\ deadlineErr e = e.
Proof.
  intros (k & m & ->). unfold deadlineErr.
  rewrite !iroh_not_foreign by (apply (bool_decide_unpack _); vm_compute; exact I). done.
Qed.

(** ** Lemmas: Write *)

Lemma frame_behind s s' o : frame s s' -> behind s' o = behind s o.
Proof. intros (_ & _ & _ & E). unfold behind. by rewrite E. Qed.

Lemma Write_loop_spec st p s : o_loaded s = true -> (send_obj st ∉ o_locks s) -> len p < two63 ->
  forall fuel w s1,
  0 <= w <= len p -> (o_changes s1 < fuel)%nat -> frame s s1 ->
  moved s s1 (only (behind s (send_obj st)) (take (Z.to_nat w) p)) nothing ->
  wp s1 (Write fuel st p w) (fun '(n, err) s' =>
    frame s s' /\ 0 <= n <= len p /\
    moved s s' (only (behind s (send_obj st)) (take (Z.to_nat n) p)) nothing /\
    match err with None => n = len p | Some e => stream_error e end).
Proof.
  intros Hl Hlock Hp. induction fuel as [|fuel IH]; intros w s1 Hw Hfuel Hf Hm; [lia|].
  cbn [Write]. apply arm_spec. intros ctx id s2 Hctx Hch Hlk Hf2 Ha Hid Hm2.
  pose proof Hf as ((_ & _ & _ & _ & El & Ea) & _ & Eld & Eo).
  pose proof Hf2 as ((_ & _ & _ & _ & _ & _) & _ & Eld2 & Eo2). simpl in Eld2, Eo2.
  eapply wp_call.
  { apply WriteContext_spec; [congruence|congruence|]. rewrite from_len by lia. lia. }
  intros [n err] s3 (Hc3 & Hf3 & Hn & Hm3 & Herr). rewrite from_len in Hn, Herr by lia.
  eapply release_spec; [exact Hf2|exact Ha|exact Hid|exact Hf3|]. intros Hf4.
  assert (Hb : behind s2 (send_obj st) = behind s (send_obj st)).
  { unfold behind. congruence. }
  rewrite Hb in Hm3.
  assert (Hm4 : moved s (set_armed (o_armed s1) s3)
                  (only (behind s (send_obj st)) (take (Z.to_nat (w + n)) p)) nothing).
  { eapply moved_trans; [exact Hm|eapply moved_nothing; [exact Hm2|exact Hm3]| |done].
    intros h'. rewrite take_from by lia. apply only_app. }
  assert (Hfr : frame s (set_armed (o_armed s1) s3)) by by transitivity s1.
  pose proof (ctx_moves_changes _ _ _ Hc3) as Hle.
  destruct err as [e|].
  2:{ simpl. destruct Herr as [-> _]. split_and!; try done; lia. }
  destruct Herr as [[-> ->]|[Hlt Hio]].
  { simpl. split_and!; try done; try lia. by left. }
  destruct (armed_outcome _ _ _ _ Hctx Hc3 Hio) as [Hi|[->|[-> Hchg]]].
  - destruct (iroh_not_ctx _ Hi) as [-> ->]. simpl. split_and!; try done; try lia. by right; right.
  - simpl. split_and!; try done; try lia. by right; left.
  - rewrite (proj2 (Z.ltb_lt (w + n) (len p))) by lia.
    change (is_error (Sentinel CtxCanceled) CtxCanceled && true) with true. cbv iota.
    apply IH; [lia|simpl; lia|done|done].
Qed.

(** ** Lemmas: Read *)

(** [dst'] is [dst] with its first [n] bytes filled. *)
Definition filled (dst dst' : bytes) (n : Z) : Prop :=
  0 <= n <= len dst /\ len dst' = len dst /\ drop (Z.to_nat n) dst' = drop (Z.to_nat n) dst.

Lemma filled_0 p : filled p p 0.
Proof. split; [unfold len; lia|done]. Qed.

Lemma filled_app p d : len d <= len p -> filled p (d ++ drop (length d) p) (len d) /\
  take (length d) (d ++ drop (length d) p) = d.
Proof.
  unfold filled, len. intros H. rewrite Nat2Z.id, take_app_length, drop_app_length.
  split; [|done]. split; [lia|]. split; [|done]. rewrite length_app, length_drop. lia.
Qed.

Lemma ReadContext_spec st s ctx p :
  o_loaded s = true -> (recv_obj st ∉ o_locks s) -> len p < two63 ->
  wp s (ReadContext st ctx p) (fun '(n, err, p') s' =>
    ctx_moves s ctx s' /\ frame s s' /\ filled p p' n /\
    moved s s' nothing (only (behind s (recv_obj st)) (take (Z.to_nat n) p')) /\
    match err with
    | None => True
    | Some e => n = 0 /\ p' = p /\
        (e = Sentinel ErrClosed \/ e = Sentinel IoEOF \/ io_error ctx s' e)
    end).
Proof.
  intros Hl Hlock Hp.
  assert (Hidle : forall q, ctx_moves s ctx s /\ frame s s /\ filled p p 0 /\
    moved s s nothing (only (behind s (recv_obj st)) (take (Z.to_nat 0) q))).
  { intros q. split_and!; [apply ctx_moves_refl|done|apply filled_0|].
    split; intros h'; [|rewrite only_nil]; by rewrite app_nil_r. }
  apply with_handle_spec.
  { destruct (Hidle p) as (? & ? & ? & ?). split_and!; try done. by left. }
  intros h Hh Hobj. destruct (Z.eqb_spec (len p) 0) as [Hz|Hz].
  { destruct (Hidle p) as (? & ? & ? & ?). by split_and!. }
  apply with_lock_spec; [done|]. set (s0 := set_locks _ s).
  eapply wp_call; [apply (RecvRead_spec s0); [done|done|unfold len in *; lia]|].
  intros [[[n eof] [e|]] p'] s' (Hc & Hf & H); apply frame_unlock in Hf as [Hlk Hf].
  - destruct H as (-> & -> & [Hm1 Hm2] & He). simpl. split; [done|].
    split; [exact Hc|]. split; [exact Hf|]. split; [apply filled_0|]. split; [|by auto].
    split; intros h'; [apply Hm1|rewrite only_nil; apply Hm2].
  - destruct H as (d & -> & Hd & -> & Heof & Hm).
    destruct (filled_app p d Hd) as [Hfill Htake].
    assert (Hm' : moved s (set_locks (o_locks s) s') nothing
      (only (behind s (recv_obj st)) (take (Z.to_nat (len d)) (d ++ drop (length d) p)))).
    { unfold len at 1. rewrite Nat2Z.id, Htake. unfold behind. rewrite Hobj. exact Hm. }
    destruct eof.
    + rewrite (Heof eq_refl) in *. simpl. split; [done|]. by split_and!; auto.
    + simpl. split; [done|]. by split_and!.
Qed.

Lemma Read_loop_spec st p s : o_loaded s = true -> (recv_obj st ∉ o_locks s) -> len p < two63 ->
  forall fuel s1,
  (o_changes s1 < fuel)%nat -> frame s s1 -> moved s s1 nothing nothing ->
  wp s1 (Read fuel st p) (fun '(n, err, p') s' =>
    frame s s' /\ filled p p' n /\
    moved s s' nothing (only (behind s (recv_obj st)) (take (Z.to_nat n) p')) /\
    match err with
    | None => True
    | Some e => n = 0 /\ p' = p /\ (e = Sentinel IoEOF \/ stream_error e)
    end).
Proof.
  intros Hl Hlock Hp. induction fuel as [|fuel IH]; intros s1 Hfuel Hf Hm; [lia|].
  cbn [Read]. apply arm_spec. intros ctx id s2 Hctx Hch Hlk Hf2 Ha Hid Hm2.
  pose proof Hf as ((_ & _ & _ & _ & El & Ea) & _ & Eld & Eo).
  pose proof Hf2 as ((_ & _ & _ & _ & _ & _) & _ & Eld2 & Eo2). simpl in Eld2, Eo2.
  eapply wp_call; [apply ReadContext_spec; [congruence|congruence|done]|].
  intros [[n err] p'] s3 (Hc3 & Hf3 & Hfill & Hm3 & Herr).
  eapply release_spec; [exact Hf2|exact Ha|exact Hid|exact Hf3|]. intros Hf4.
  assert (Hb : behind s2 (recv_obj st) = behind s (recv_obj st)) by (unfold behind; congruence).
  rewrite Hb in Hm3.
  assert (Hm4 : moved s (set_armed (o_armed s1) s3) nothing
                  (only (behind s (recv_obj st)) (take (Z.to_nat n) p'))).
  { eapply moved_nothing; [exact Hm|]. eapply moved_nothing; [exact Hm2|exact Hm3]. }
  assert (Hfr : frame s (set_armed (o_armed s1) s3)) by by transitivity s1.
  pose proof (ctx_moves_changes _ _ _ Hc3) as Hle.
  destruct err as [e|]; [|by simpl].
  destruct Herr as (-> & -> & Hio). simpl Z.ltb. cbv iota.
  destruct Hio as [->|[->|Hio]]; [simpl; split_and!; by auto using filled_0; right; left|simpl; split_and!; by auto|].
  destruct (armed_outcome _ _ _ _ Hctx Hc3 Hio) as [Hi|[->|[-> Hchg]]].
  - destruct (iroh_not_ctx _ Hi) as [-> ->]. simpl. split_and!; try done. right. by right; right.
  - simpl. split_and!; try done. right. by right; left.
  - change (is_error (Sentinel CtxCanceled) CtxCanceled) with true. cbv iota.
    apply IH; [simpl; lia|done|].
    destruct Hm4 as [Hm5 Hm6]. split; intros h'; [apply Hm5|].
    rewrite Hm6. by rewrite only_nil.
Qed.

(** ** Lemmas: closing *)

Lemma drop_taken h s s' :
  h ∉ o_handles s -> frame (add_handles [h] s) s' -> frame s (drop_handle h s').
Proof.
  intros Hh (Hd & Ho & Hl & Hob). split; [exact Hd|]. simpl in *. rewrite Ho.
  split; [set_solver|done].
Qed.

(** The end of every closer: take the handle, tell the library, free. *)
Lemma closer_spec s ctx h f g :
  o_loaded s = true -> h <> 0 -> (h ∉ o_handles s) ->
  start_pre (add_handles [h] s) f -> kind_of f = KUnit -> base f (add_handles [h] s) = add_handles [h] s ->
  freed_handle g = h ->
  wp (add_handles [h] s) (err ← (op ← call (CStart f); AwaitUnit ctx op); call (CFree g);; Ret err)
    (fun err s' => frame s s' /\ moved s s' nothing nothing /\ ctx_moves s ctx s' /\
       forall e, err = Some e -> io_error ctx s' e).
Proof.
  intros Hl Hh0 Hh Hpre Hk Hbase Hg.
  eapply wp_call; [by apply (start_unit (add_handles [h] s) ctx f)|]. rewrite Hbase.
  intros err s1 H.
  assert (H' : ctx_moves s ctx s1 /\ frame (add_handles [h] s) s1 /\
    moved s s1 nothing nothing /\ forall e, err = Some e -> io_error ctx s1 e).
  { destruct err as [e|].
    - apply op_fails_io in H as (? & ? & ? & ?). split_and!; try done. by intros e0 [= <-].
    - destruct (waited_frame _ _ _ H). split_and!; try done. by apply waited_ctx_moves in H. }
  destruct H' as (Hc & Hf & Hm & He).
  apply wp_bind, wp_trigger.
  { destruct Hf as (_ & Ho & Hld & _). simpl. rewrite Hld, Ho, Hg. simpl. split; [done|set_solver]. }
  intros [] s2 ->. simpl. rewrite Hg.
  split; [by apply drop_taken|]. split; [exact Hm|]. split; [exact Hc|exact He].
Qed.

(** What a closer leaves behind: nothing, under any outcome. *)
Definition closed (s : owned) (ctx : Z) (err : error) (s' : owned) : Prop :=
  frame s s' /\ moved s s' nothing nothing /\ ctx_moves s ctx s' /\
  forall e, err = Some e -> io_error ctx s' e.

Lemma closed_refl s ctx : closed s ctx None s.
Proof.
  split; [done|]. split; [apply moved_refl|]. split; [apply ctx_moves_refl|done].
Qed.

Lemma taken_spec s ctx o (p : Z -> go error) :
  (forall h, h <> 0 -> (h ∉ o_handles s) -> wp (add_handles [h] s) (p h) (closed s ctx)) ->
  wp s (h ← handle_take o; if h =? 0 then Ret None else p h) (closed s ctx).
Proof.
  intros Hp. eapply wp_call; [apply handle_take_spec|].
  intros h s' [[-> ->]|(Hh & _ & Hf & ->)]; [apply closed_refl|].
  rewrite (proj2 (Z.eqb_neq h 0) Hh). by apply Hp.
Qed.

Lemma SendStream_Reset_spec st s ctx code : o_loaded s = true ->
  wp s (SendStream_Reset st ctx code) (closed s ctx).
Proof.
  intros Hl. apply taken_spec. intros h Hh Hf.
  by apply (closer_spec s ctx h (sendReset h code) (sendFree h)).
Qed.

Lemma SendStream_Close_spec st s : o_loaded s = true ->
  wp s (SendStream_Close st) (closed s background).
Proof.
  intros Hl. apply taken_spec. intros h Hh Hf. apply wp_bind, wp_trigger; [done|].
  intros [] s' ->. by apply (closer_spec s background h (sendFinish h) (sendFree h)).
Qed.

Lemma Stop_spec st s ctx code : o_loaded s = true -> wp s (Stop st ctx code) (closed s ctx).
Proof.
  intros Hl. apply taken_spec. intros h Hh Hf.
  by apply (closer_spec s ctx h (recvStop h code) (recvFree h)).
Qed.

Lemma RecvStream_Close_spec st s : o_loaded s = true ->
  wp s (RecvStream_Close st) (closed s background).
Proof.
  intros Hl. apply wp_bind, wp_trigger; [done|]. intros [] s' ->. by apply Stop_spec.
Qed.

(** Nothing ends [context.Background()]. *)
Lemma io_error_background s e : io_error background s e -> is_iroh e.
Proof. intros [?|(? & _ & _ & ? & _)]; done. Qed.

#[export] Hint Resolve SendStream_Reset_spec SendStream_Close_spec Stop_spec
  RecvStream_Close_spec : ffi.

(** ** Properties *)

(** C11. Writing is exact.  [SendStream.Write] returns after at most one more
    round than the deadline is changed under it, and its count is the truth:
    the library accepted exactly the first [n] bytes of [p] on this stream, in
    order, across partial writes, cancellations that raced a completed write
    and deadline changes; [n] is all of [p] when it reports no error; an error
    is one a [net.Conn] caller knows, never a context's; and every lock,
    deadline registration, operation and buffer it took is given back. *)
Theorem write_is_exact (st : SendStream) (s : owned) (p : bytes) (fuel : nat) :
  o_loaded s = true -> (send_obj st ∉ o_locks s) -> len p < two63 ->
  (o_changes s < fuel)%nat ->
  wp s (Write fuel st p 0) (fun '(n, err) s' =>
    frame s s' /\ 0 <= n <= len p /\
    moved s s' (only (behind s (send_obj st)) (take (Z.to_nat n) p)) nothing /\
    match err with None => n = len p | Some e => stream_error e end).
Proof.
  intros Hl Hlock Hp Hfuel. apply Write_loop_spec; try done; [unfold len; lia|].
  apply moved_only_nil, moved_refl.
Qed.

(** C12. Reading loses nothing.  [RecvStream.Read] returns after at most one
    more round than the deadline is changed under it; the [n] bytes it reports
    are the first [n] of the buffer, the rest of the buffer is untouched, and
    they are exactly the bytes taken off the stream: with an error (end of
    stream, deadline, close, failure) nothing was consumed, also when the
    cancellation raced a read that completed; and everything it took is given
    back. *)
Theorem read_is_exact (st : RecvStream) (s : owned) (p : bytes) (fuel : nat) :
  o_loaded s = true -> (recv_obj st ∉ o_locks s) -> len p < two63 ->
  (o_changes s < fuel)%nat ->
  wp s (Read fuel st p) (fun '(n, err, p') s' =>
    frame s s' /\ filled p p' n /\
    moved s s' nothing (only (behind s (recv_obj st)) (take (Z.to_nat n) p')) /\
    match err with
    | None => True
    | Some e => n = 0 /\ p' = p /\ (e = Sentinel IoEOF \/ stream_error e)
    end).
Proof. intros Hl Hlock Hp Hfuel. apply (Read_loop_spec st p s); try done. apply moved_refl. Qed.

(** C21. Closing a stream in any of the four ways frees its library object
    exactly once: the handle a closer takes is freed on every path, whatever
    the library answers and however its context ends, nothing else the
    goroutine holds changes, no bytes move, and the two [Close]s, which run
    under the background context, report only errors of the library.  A closer
    that finds the handle taken does nothing. *)
Theorem closers_free_once (ss : SendStream) (rs : RecvStream) (s : owned) (ctx code : Z) :
  o_loaded s = true ->
  wp s (SendStream_Reset ss ctx code) (closed s ctx) /\
  wp s (Stop rs ctx code) (closed s ctx) /\
  wp s (SendStream_Close ss) (fun err s' => closed s background err s' /\
    forall e, err = Some e -> is_iroh e) /\
  wp s (RecvStream_Close rs) (fun err s' => closed s background err s' /\
    forall e, err = Some e -> is_iroh e) /\
  cell_run (send_obj ss) (SendStream_Close ss) 0 = Some (None, 0) /\
  cell_run (send_obj ss) (SendStream_Reset ss ctx code) 0 = Some (None, 0) /\
  cell_run (recv_obj rs) (Stop rs ctx code) 0 = Some (None, 0).
Proof.
  intros Hl.
  assert (Hbg : forall p, wp s p (closed s background) ->
    wp s p (fun err s' => closed s background err s' /\ forall e, err = Some e -> is_iroh e)).
  { intros p Hp. eapply wp_mono; [exact Hp|]. intros err s' Hc. split; [done|].
    intros e He. destruct Hc as (_ & _ & _ & H). by eapply io_error_background, H. }
  refine (conj _ (conj _ (conj _ (conj _ (conj _ (conj _ _))))));
    [by auto with ffi..| | |]; unfold cell_run; simpl; by rewrite Z.eqb_refl.
Qed.

(** [SendStream.Stopped] tells a stop code from a clean end: it reports
    [(code, true)] for the code the peer gave, and [(0, false)] without an error
    exactly when the library answered the one value that is not a code, so no
    code a peer can send is mistaken for the other answer. *)
Theorem stopped_reports_code (st : SendStream) (s : owned) (ctx : Z) :
  o_loaded s = true ->
  wp s (Stopped st ctx) (fun '(code, stopped, err) s' => frame s s' /\
    match err with
    | Some e => code = 0 /\ stopped = false /\ (e = Sentinel ErrClosed \/ io_error ctx s' e)
    | None => if stopped : bool then 0 <= code < NoStopCode else code = 0
    end).
Proof.
  intros Hl. apply with_handle_spec; [split_and!; by auto|]. intros h Hh _.
  eapply wp_call; [apply (start_u64 s ctx (sendStopped h)); [done|done|by left]|].
  intros [code [e|]] s'.
  - intros [_ (_ & Hf & _ & He)%op_fails_io]. simpl. split_and!; auto.
  - intros (s1 & Hw & Hv & ->). destruct (waited_frame _ _ _ Hw) as [Hf _]. simpl in Hv.
    destruct (Z.eqb_spec code NoStopCode) as [->|Hne]; simpl; [done|].
    split; [exact Hf|]. unfold NoStopCode in *. lia.
Qed.

(** ** Witnesses *)

(** A goroutine that holds nothing, with a stream on object 7 whose deadline
    will be changed twice. *)
Definition a_writer : owned :=
  mkOwned true ∅ ∅ ∅ ∅ ∅ ∅ ∅ ∅ ∅ 2 ∅ ∅ {[40 := 7]}.

Example write_is_exact_witness :
  wp a_writer (Write 3 (mkSend 40 50) $"hello"%go 0) (fun '(n, err) s' =>
    frame a_writer s' /\ 0 <= n <= 5 /\
    moved a_writer s' (only 7 (take (Z.to_nat n) $"hello"%go)) nothing /\
    match err with None => n = 5 | Some e => stream_error e end).
Proof.
  apply (write_is_exact (mkSend 40 50) a_writer $"hello"%go 3);
    [reflexivity|apply (bool_decide_unpack _); vm_compute; exact I|reflexivity|simpl; lia].
Defined.

Example read_is_exact_witness :
  wp a_writer (Read 3 (mkRecv 40 50) $"....."%go) (fun '(n, err, p') s' =>
    frame a_writer s' /\ filled $"....."%go p' n /\
    moved a_writer s' nothing (only 7 (take (Z.to_nat n) p')) /\
    match err with
    | None => True
    | Some e => n = 0 /\ p' = $"....."%go /\ (e = Sentinel IoEOF \/ stream_error e)
    end).
Proof.
  apply (read_is_exact (mkRecv 40 50) a_writer $"....."%go 3);
    [reflexivity|apply (bool_decide_unpack _); vm_compute; exact I|reflexivity|simpl; lia].
Defined.

Example closers_free_once_witness :
  wp a_writer (Stop (mkRecv 40 50) 3 8) (closed a_writer 3).
Proof. apply (closers_free_once (mkSend 41 50) (mkRecv 40 50) a_writer 3 8). reflexivity. Defined.

Example stopped_reports_code_witness :
  wp a_writer (Stopped (mkSend 40 50) 3) (fun '(code, stopped, err) s' => frame a_writer s' /\
    match err with
    | Some e => code = 0 /\ stopped = false /\ (e = Sentinel ErrClosed \/ io_error 3 s' e)
    | None => if stopped : bool then 0 <= code < NoStopCode else code = 0
    end).
Proof. apply (stopped_reports_code (mkSend 40 50) a_writer 3). reflexivity. Defined.
