(* ===== verification/StreamClose.v ===== *)
(** Closing a stream under the calls in flight: the order of steps in
    [SendStream.Close] and [RecvStream.Close] of [stream.go].

    The library serves one call on a stream at a time, so the finish (or the
    stop) a [Close] ends with waits behind a read or write that is inside the
    library.  [Close] expires the deadline to end it.  [rsys] puts the closer,
    the calls (arm, get the handle, wait inside the library, return, release)
    and anyone else's deadline changes on top of the deadline's own interleaving
    ([Deadline.dstep]); the two relations [send_close] and [recv_close] are the
    two closers, which take the handle and expire the deadline in opposite
    orders. *)
From S2P Require Import Prelude GoErrors Deadline.
Local Open Scope Z_scope.

(** ** State *)

(** Where the closer is. [KCancelling l]: inside [set], its cancel functions
    those of [l]. [KFinishing]: at the library's finish or stop. *)
Inductive kphase : Set := KIdle | KTaken | KCancelling (l : list Z) | KFinishing.

Record rsys := mkRsys {
  rd : dsys;                 (* the deadline, and the calls that armed *)
  taken : bool;              (* the handle was taken *)
  inlib : gset Z;            (* the calls inside the library *)
  kph : kphase;
  others : nat               (* deadline changes by others since the closer's *)
}.

Definition rinit (t : Z) : rsys := mkRsys (dsys_init t) false ∅ KIdle 0.

Definition is_done (s : dsys) (ctx : Z) : Prop :=
  exists c, dctxs s !! ctx = Some c /\ c_err c <> None.

(** ** Steps *)

(** The calls, and deadline changes made by others. *)
Inductive user_step : rsys -> rsys -> Prop :=
| USet s t :
    user_step s (mkRsys (do_set t (rd s)) (taken s) (inlib s) (kph s) (S (others s)))
| UArm s ctx : dctxs (rd s) !! ctx = None ->
    user_step s (mkRsys (do_arm ctx (rd s)) (taken s) (inlib s) (kph s) (others s))
| UGet s ctx : is_Some (calls (rd s) !! ctx) -> taken s = false ->
    user_step s (mkRsys (rd s) (taken s) ({[ctx]} ∪ inlib s) (kph s) (others s))
| ULeave s ctx :
    user_step s (mkRsys (rd s) (taken s) (inlib s ∖ {[ctx]}) (kph s) (others s))
| URelease s ctx id : calls (rd s) !! ctx = Some id -> ctx ∉ inlib s ->
    user_step s (mkRsys (do_release ctx id (rd s)) (taken s) (inlib s) (kph s) (others s))
| UCancel s ctx l1 l2 : cancels (rd s) = l1 ++ ctx :: l2 ->
    user_step s (mkRsys (do_cancel ctx (l1 ++ l2) (rd s)) (taken s) (inlib s) (kph s) (others s))
| UExpire s ctx c : dctxs (rd s) !! ctx = Some c -> c_err c = None -> expired (c_t c) (now (rd s)) = true ->
    user_step s (mkRsys (do_expire ctx (rd s)) (taken s) (inlib s) (kph s) (others s))
| UTick s t : now (rd s) <= t ->
    user_step s (mkRsys (do_tick t (rd s)) (taken s) (inlib s) (kph s) (others s)).

(** The closer's [set(pastDeadline)]: the critical section. *)
Definition expire_locked (s : rsys) : rsys :=
  mkRsys (do_set pastDeadline (rd s)) (taken s) (inlib s)
    (KCancelling (set_locked pastDeadline (dl (rd s))).2) 0.

(** [src/stream.go:231-239 SendStream.Close] Take the handle, expire the
    deadline, finish. [set] returns once its cancel functions were called, which
    leaves their contexts done. *)
Inductive send_close : rsys -> rsys -> Prop :=
| SCTake s : kph s = KIdle -> taken s = false ->
    send_close s (mkRsys (rd s) true (inlib s) KTaken (others s))
| SCSet s : kph s = KTaken -> send_close s (expire_locked s)
| SCFinish s l : kph s = KCancelling l -> (forall ctx, ctx ∈ l -> is_done (rd s) ctx) ->
    send_close s (mkRsys (rd s) (taken s) (inlib s) KFinishing (others s)).

(** [src/stream.go:316-336 RecvStream.Close] Expire the deadline, then [Stop],
    which takes the handle. *)
Inductive recv_close : rsys -> rsys -> Prop :=
| RCSet s : kph s = KIdle -> recv_close s (expire_locked s)
| RCStop s l : kph s = KCancelling l -> (forall ctx, ctx ∈ l -> is_done (rd s) ctx) -> taken s = false ->
    recv_close s (mkRsys (rd s) true (inlib s) KFinishing (others s)).

Definition rstep (close : rsys -> rsys -> Prop) (s s' : rsys) : Prop := user_step s s' \/ close s s'.

(** ** Invariants *)

(** What holds whoever closes. *)
Record rinv (n : Z) (s : rsys) : Prop := {
  ri_deadline : dinv n (rd s);
  ri_inlib : forall ctx, ctx ∈ inlib s -> is_Some (calls (rd s) !! ctx);
  ri_now : 1000000000 <= now (rd s)
}.

Definition covered (s : rsys) (l : list Z) (P : Z -> Prop) : Prop :=
  forall ctx, P ctx -> is_done (rd s) ctx \/ ctx ∈ l.

(** What the closer of a send stream has achieved, by its phase. *)
Definition send_inv (s : rsys) : Prop :=
  match kph s with
  | KIdle => True
  | KTaken => taken s = true
  | KCancelling l => taken s = true /\ covered s l (fun ctx => ctx ∈ inlib s)
  | KFinishing => taken s = true /\ covered s [] (fun ctx => ctx ∈ inlib s)
  end.

(** The same for a receive stream: it holds while nobody else changes the
    deadline. *)
Definition expired_for_all (s : rsys) (l : list Z) : Prop :=
  others s = 0%nat ->
  d_t (dl (rd s)) = pastDeadline /\ covered s l (fun ctx => is_Some (calls (rd s) !! ctx)).
Definition recv_inv (s : rsys) : Prop :=
  match kph s with
  | KIdle | KTaken => True
  | KCancelling l => expired_for_all s l
  | KFinishing => expired_for_all s []
  end.

(** ** Lemmas *)

Lemma done_alter s f ctx ctx' :
  (forall c, c_err c <> None -> c_err (f c) <> None) ->
  is_done s ctx' ->
  exists c, alter f ctx (dctxs s) !! ctx' = Some c /\ c_err c <> None.
Proof.
  intros Hf (c & Hc & He). destruct (decide (ctx' = ctx)) as [->|Hne].
  - exists (f c). rewrite lookup_alter_eq, Hc. split; [done|by apply Hf].
  - exists c. by rewrite lookup_alter_ne.
Qed.

(** Contexts stay done, and the deadline moves as [Deadline] says. *)
Lemma user_done s s' ctx : user_step s s' -> is_done (rd s) ctx -> is_done (rd s') ctx.
Proof.
  intros H Hd. destruct H; simpl; try done.
  - destruct Hd as (c & Hc & He). exists c. simpl. split; [|done]. rewrite lookup_insert_ne by congruence. done.
  - apply done_alter; [|done]. intros c Hc. simpl. by destruct (c_err c).
  - apply done_alter; [|done]. by intros c' _.
Qed.

Lemma user_rinv n s s' : n + 1 < two64 -> rinv n s -> user_step s s' -> rinv (n + 1) s'.
Proof.
  intros Hn [Id Il Inow] H.
  assert (Iw : dinv (n + 1) (rd s)) by (apply (dinv_weaken n); [lia|done]).
  destruct H; (constructor; simpl; [|try done|try done]); try done.
  - by apply (dinv_step n (rd s)), DSet.
  - by apply (dinv_step n (rd s)), DArm.
  - intros c Hc. apply Il in Hc as [id Hc]. destruct (decide (c = ctx)) as [->|Hne];
      [rewrite lookup_insert_eq; eauto|rewrite lookup_insert_ne by done; eauto].
  - intros c [->%elem_of_singleton|Hc]%elem_of_union; [done|by apply Il].
  - intros c [Hc _]%elem_of_difference. by apply Il.
  - by apply (dinv_step n (rd s)), DRelease.
  - intros c Hc. rewrite lookup_delete_ne by congruence. by apply Il.
  - eapply (dinv_step n (rd s)); [done..|]. by apply DCancel.
  - eapply (dinv_step n (rd s)); [done..|]. by eapply DExpire.
  - by apply (dinv_step n (rd s)), DTick.
  - lia.
Qed.

(** No call enters the library once the handle is taken. *)
Lemma user_inlib s s' ctx : user_step s s' -> taken s = true -> ctx ∈ inlib s' -> ctx ∈ inlib s.
Proof. intros H Ht. destruct H; simpl; try done; [congruence|set_solver]. Qed.

Lemma user_phase s s' : user_step s s' -> kph s' = kph s /\ taken s' = taken s /\
  (others s' = 0%nat -> others s = 0%nat /\ d_t (dl (rd s')) = d_t (dl (rd s))).
Proof. intros H. destruct H; simpl; by split_and!. Qed.

Lemma user_send_inv s s' : user_step s s' -> send_inv s -> send_inv s'.
Proof.
  intros H. destruct (user_phase _ _ H) as (Ek & Et & _). unfold send_inv. rewrite Ek, Et.
  destruct (kph s) as [| |l|]; try done; intros [Ht Hc]; (split; [done|]); intros ctx Hin.
  - destruct (Hc ctx) as [?|?]; [by eapply user_inlib|left; by eapply user_done|by right].
  - destruct (Hc ctx) as [?|?]; [by eapply user_inlib|left; by eapply user_done|by right].
Qed.

(** A call that arms under the expired deadline is done at once. *)
Lemma user_calls n s s' ctx : rinv n s -> user_step s s' -> d_t (dl (rd s)) = pastDeadline ->
  is_Some (calls (rd s') !! ctx) -> is_Some (calls (rd s) !! ctx) \/ is_done (rd s') ctx.
Proof.
  intros I H Ht. destruct H; simpl; try (by left).
  - intros [id Hc]. destruct (decide (ctx0 = ctx)) as [->|Hne].
    + right. eexists. simpl. rewrite lookup_insert_eq. split; [done|]. rewrite Ht. unfold derive.
      simpl. rewrite (proj2 (Z.leb_le _ _)); [done|apply (ri_now _ _ I)].
    + rewrite lookup_insert_ne in Hc by done. left. eauto.
  - intros [i [_ Hc]%lookup_delete_Some]. left. eauto.
Qed.

Lemma user_expired n s s' l : rinv n s -> user_step s s' -> expired_for_all s l -> expired_for_all s' l.
Proof.
  intros I H Hl Ho. destruct (user_phase _ _ H) as (_ & _ & Hu). destruct (Hu Ho) as [Ho' Et].
  destruct (Hl Ho') as [Ht Hc]. split; [congruence|]. intros ctx Hcall.
  destruct (user_calls _ _ _ _ I H Ht Hcall) as [Hcall'|?]; [|by left].
  destruct (Hc ctx Hcall'); [left; by eapply user_done|by right].
Qed.

Lemma user_recv_inv n s s' : rinv n s -> user_step s s' -> recv_inv s -> recv_inv s'.
Proof.
  intros I H. destruct (user_phase _ _ H) as (Ek & _). unfold recv_inv. rewrite Ek.
  destruct (kph s); try done; by eapply user_expired.
Qed.

Lemma expire_rinv n s : n + 1 < two64 -> rinv n s -> rinv (n + 1) (expire_locked s).
Proof.
  intros Hn [Id Il Inow]. constructor; simpl; [|done|done]. by apply (dinv_step n (rd s)), DSet.
Qed.

Lemma expire_covers n s : rinv n s -> forall ctx, is_Some (calls (rd s) !! ctx) ->
  ctx ∈ (set_locked pastDeadline (dl (rd s))).2.
Proof. intros I ctx Hc. by apply (collected n (rd s) ctx (ri_deadline _ _ I)). Qed.

Lemma all_done s l (P : Z -> Prop) : covered s l P -> (forall ctx, ctx ∈ l -> is_done (rd s) ctx) ->
  covered s [] P.
Proof. intros Hc Hl ctx Hp. left. destruct (Hc ctx Hp); auto. Qed.

Lemma rinv_same n s s' : rd s' = rd s -> inlib s' = inlib s -> rinv n s -> rinv (n + 1) s'.
Proof.
  intros Ed El [Id Il Inow]. constructor; rewrite Ed, ?El; try done. apply (dinv_weaken n); [lia|done].
Qed.

Lemma send_step n s s' : n + 1 < two64 -> rinv n s -> send_inv s -> rstep send_close s s' ->
  rinv (n + 1) s' /\ send_inv s'.
Proof.
  intros Hn I J [H|H]; [split; [by eapply user_rinv|by eapply user_send_inv]|].
  destruct H as [s Hk Ht|s Hk|s l Hk Hl]; unfold send_inv in J; rewrite Hk in J.
  - split; [by apply (rinv_same n s)|done].
  - split; [by apply expire_rinv|]. split; [done|]. intros ctx Hin. right.
    eapply expire_covers; [done|]. by apply (ri_inlib _ _ I).
  - destruct J as [Ht Hc]. split; [by apply (rinv_same n s)|]. split; [done|]. by eapply (all_done s).
Qed.

Lemma recv_step n s s' : n + 1 < two64 -> rinv n s -> recv_inv s -> rstep recv_close s s' ->
  rinv (n + 1) s' /\ recv_inv s'.
Proof.
  intros Hn I J [H|H]; [split; [by eapply user_rinv|by eapply user_recv_inv]|].
  destruct H as [s Hk|s l Hk Hl Ht]; unfold recv_inv in J; rewrite Hk in J.
  - split; [by apply expire_rinv|]. intros _. split; [done|]. intros ctx Hin. right.
    by eapply expire_covers.
  - split; [by apply (rinv_same n s)|]. intros Ho. destruct (J Ho) as [Hp Hc]. split; [done|].
    by eapply (all_done s).
Qed.

Lemma steps_inv (close : rsys -> rsys -> Prop) (J : rsys -> Prop) :
  (forall n s s', n + 1 < two64 -> rinv n s -> J s -> rstep close s s' -> rinv (n + 1) s' /\ J s') ->
  forall k n s s', nsteps (rstep close) k s s' -> n + Z.of_nat k < two64 -> rinv n s -> J s ->
  rinv (n + Z.of_nat k) s' /\ J s'.
Proof.
  intros Hstep. induction k as [|k IH]; intros n s s' Hk Hn I Hj; inversion Hk as [|? ? s1 ? H1 H2]; subst.
  - by rewrite Z.add_0_r.
  - destruct (Hstep n s s1 ltac:(lia) I Hj H1) as [I1 J1].
    replace (n + Z.of_nat (S k)) with (n + 1 + Z.of_nat k) by lia. apply (IH _ s1); [done|lia|done|done].
Qed.

Lemma rinv_init t : 1000000000 <= t -> rinv 0 (rinit t).
Proof. intros Ht. constructor; simpl; [apply dinv_init|set_solver|done]. Qed.

(** ** The race

    A read is in flight; [RecvStream.Close] expires the deadline; somebody clears
    it; the read, resuming on its cancellation, arms without a deadline and gets
    the handle, which the closer takes only then. *)
Section Race.
Context (t : Z).

Definition race1 : rsys := mkRsys (do_arm 1 (rd (rinit t))) false ({[1]} ∪ ∅) KIdle 0.
Definition race2 : rsys := expire_locked race1.
Definition race3 : rsys := mkRsys (do_cancel 1 [] (rd race2)) false (inlib race2) (kph race2) 0.
Definition race4 : rsys := mkRsys (do_set None (rd race3)) false (inlib race3 ∖ {[1]}) (kph race3) 1.
Definition race5 : rsys := mkRsys (do_release 1 0 (rd race4)) false (inlib race4) (kph race4) 1.
Definition race6 : rsys := mkRsys (do_arm 2 (rd race5)) false ({[2]} ∪ inlib race5) (kph race5) 1.
Definition raced : rsys := mkRsys (rd race6) true (inlib race6) KFinishing 1.

Lemma raced_reachable : nsteps (rstep recv_close) 10 (rinit t) raced.
Proof.
  eapply nsteps_l; [left; by apply (UArm (rinit t) 1)|].
  eapply nsteps_l; [left; apply (UGet _ 1); [by eexists|done]|].
  change (nsteps (rstep recv_close) 8 race1 raced).
  eapply nsteps_l; [right; by apply RCSet|].
  eapply nsteps_l; [left; by apply (UCancel race2 1 [] [])|].
  eapply nsteps_l; [left; apply (USet race3 None)|].
  eapply nsteps_l; [left; apply (ULeave _ 1)|].
  eapply nsteps_l; [left; apply (URelease race4 1 0); [done|]; apply (bool_decide_unpack _); vm_compute; exact I|].
  eapply nsteps_l; [left; by apply (UArm race5 2)|].
  eapply nsteps_l; [left; apply (UGet _ 2); [by eexists|done]|].
  change (nsteps (rstep recv_close) 1 race6 raced).
  eapply nsteps_l; [right; apply (RCStop race6 [1]); [done| |done]|constructor].
  intros ctx ->%list_elem_of_singleton. eexists. split; [vm_compute; reflexivity|done].
Qed.

End Race.

(** ** Properties *)

(** C22. Closing does not wait behind a read or write that answers to the
    deadline.  When [SendStream.Close] comes to its finish, every call still
    inside the library has a context that is already done, whatever deadline
    changes, arming calls and expiries were interleaved with it, because it
    takes the handle before it expires the deadline.  [RecvStream.Close], which
    expires the deadline first, has the same guarantee as long as nobody else
    changes the read deadline meanwhile; when somebody clears it between the two
    steps, a read can be back inside the library with no deadline when the stop
    begins, and the stop waits behind it. *)
Theorem closers_outlast_calls (t : Z) :
  1000000000 <= t ->
  (forall k s, nsteps (rstep send_close) k (rinit t) s -> Z.of_nat k < two64 ->
     kph s = KFinishing -> forall ctx, ctx ∈ inlib s -> is_done (rd s) ctx) /\
  (forall k s, nsteps (rstep recv_close) k (rinit t) s -> Z.of_nat k < two64 ->
     kph s = KFinishing -> others s = 0%nat -> forall ctx, ctx ∈ inlib s -> is_done (rd s) ctx) /\
  (exists k s ctx c, nsteps (rstep recv_close) k (rinit t) s /\ kph s = KFinishing /\
     others s = 1%nat /\ ctx ∈ inlib s /\ dctxs (rd s) !! ctx = Some c /\ c_err c = None /\ c_t c = None).
Proof.
  intros Ht. split; [|split].
  - intros k s Hk Hlt Hp ctx Hin.
    destruct (steps_inv send_close send_inv send_step k 0 _ s Hk ltac:(lia) (rinv_init t Ht) I) as [_ J].
    unfold send_inv in J. rewrite Hp in J. destruct J as [_ Hc]. by destruct (Hc ctx Hin) as [?|?%not_elem_of_nil].
  - intros k s Hk Hlt Hp Ho ctx Hin.
    destruct (steps_inv recv_close recv_inv recv_step k 0 _ s Hk ltac:(lia) (rinv_init t Ht) I) as [Iv J].
    unfold recv_inv in J. rewrite Hp in J. destruct (J Ho) as [_ Hc].
    by destruct (Hc ctx (ri_inlib _ _ Iv ctx Hin)) as [?|?%not_elem_of_nil].
  - exists 10%nat, (raced t), 2, (mkDctx None 2 None). split; [apply raced_reachable|].
    split; [done|]. split; [done|]. split; [|done]. apply (bool_decide_unpack _). vm_compute. exact I.
Qed.

Example closers_outlast_calls_witness :
  exists k s ctx c, nsteps (rstep recv_close) k (rinit 2000000000) s /\ kph s = KFinishing /\
    others s = 1%nat /\ ctx ∈ inlib s /\ dctxs (rd s) !! ctx = Some c /\ c_err c = None /\ c_t c = None.
Proof. exact (proj2 (proj2 (closers_outlast_calls 2000000000 ltac:(lia)))). Defined.
