(* ===== verification/GoStrings.v ===== *)
(** What the source uses of Go's [strings], [strconv] and [encoding/hex], on
    byte sequences.

    [TrimSpace] follows Unicode: a space is the UTF-8 encoding of one of the
    White_Space code points, and bytes that decode to nothing are kept. *)
From S2P Require Import Prelude.
Local Open Scope Z_scope.

(** ** Characters *)

Definition ch (n : nat) : ascii := ascii_of_nat n.
Definition NL : ascii := ch 10.
Definition TAB : ascii := ch 9.
Definition SP : ascii := ch 32.

(** ** Splitting *)

(** [strings.Split(s, sep)] for a separator of one byte. *)
Fixpoint Split (s : bytes) (sep : ascii) : list bytes :=
  match s with
  | [] => [[]]
  | c :: s' =>
      if decide (c = sep) then [] :: Split s' sep
      else match Split s' sep with
           | [] => [[c]]
           | w :: ws => (c :: w) :: ws
           end
  end.

(** [strings.Cut(s, sep)]: before, after, found. *)
Fixpoint Cut (s : bytes) (sep : ascii) : bytes * bytes * bool :=
  match s with
  | [] => ([], [], false)
  | c :: s' =>
      if decide (c = sep) then ([], s', true)
      else let '(before, after, ok) := Cut s' sep in (c :: before, after, ok)
  end.

(** [strings.SplitN(s, sep, S n)]: the last piece is unsplit. *)
Fixpoint SplitN (s : bytes) (sep : ascii) (n : nat) : list bytes :=
  match n with
  | O => [s]
  | S n =>
      let '(before, after, ok) := Cut s sep in
      if ok : bool then before :: SplitN after sep n else [s]
  end.

(** Lines joined by [sep]. *)
Fixpoint join (sep : ascii) (l : list bytes) : bytes :=
  match l with
  | [] => []
  | [w] => w
  | w :: ws => w ++ sep :: join sep ws
  end.

(** ** Spaces *)

(** The UTF-8 encodings of the White_Space code points. *)
Definition spaces : list bytes :=
  [[ch 9]; [ch 10]; [ch 11]; [ch 12]; [ch 13]; [ch 32];
   [ch 194; ch 133]; [ch 194; ch 160]; [ch 225; ch 154; ch 128];
   [ch 226; ch 128; ch 128]; [ch 226; ch 128; ch 129]; [ch 226; ch 128; ch 130];
   [ch 226; ch 128; ch 131]; [ch 226; ch 128; ch 132]; [ch 226; ch 128; ch 133];
   [ch 226; ch 128; ch 134]; [ch 226; ch 128; ch 135]; [ch 226; ch 128; ch 136];
   [ch 226; ch 128; ch 137]; [ch 226; ch 128; ch 138]; [ch 226; ch 128; ch 168];
   [ch 226; ch 128; ch 169]; [ch 226; ch 128; ch 175]; [ch 226; ch 129; ch 159];
   [ch 227; ch 128; ch 128]].

(** [strip w s]: [s] without its prefix [w]. *)
Fixpoint strip (w s : bytes) : option bytes :=
  match w, s with
  | [], s => Some s
  | c :: w', d :: s' => if decide (c = d) then strip w' s' else None
  | _ :: _, [] => None
  end.

Fixpoint strip_any (ws : list bytes) (s : bytes) : option bytes :=
  match ws with
  | [] => None
  | w :: ws => match strip w s with Some s' => Some s' | None => strip_any ws s end
  end.

(** Remove prefixes among [ws]; each removal shortens [s]. *)
Fixpoint trim_prefixes (fuel : nat) (ws : list bytes) (s : bytes) : bytes :=
  match fuel with
  | O => s
  | S fuel => match strip_any ws s with Some s' => trim_prefixes fuel ws s' | None => s end
  end.

Definition trim_left (s : bytes) : bytes := trim_prefixes (length s) spaces s.
Definition trim_right (s : bytes) : bytes :=
  rev (trim_prefixes (length s) (map (@rev ascii) spaces) (rev s)).

(** [strings.TrimSpace] *)
Definition TrimSpace (s : bytes) : bytes := trim_right (trim_left s).

(** ** Numbers *)

Definition digit_val (c : ascii) : option Z :=
  let n := Z.of_nat (nat_of_ascii c) in
  if (48 <=? n) && (n <=? 57) then Some (n - 48) else None.

Fixpoint parse_digits (s : bytes) (acc : Z) : option Z :=
  match s with
  | [] => Some acc
  | c :: s' => d ← digit_val c; parse_digits s' (10 * acc + d)
  end.

(** [strconv.ParseInt(s, 10, 64)]: a value, or a syntax or range error. *)
Definition ParseInt (s : bytes) : option Z :=
  let '(neg, digits) :=
    match s with
    | c :: s' => if decide (c = ch 45) then (true, s')
                 else if decide (c = ch 43) then (false, s') else (false, s)
    | [] => (false, [])
    end in
  match digits with
  | [] => None
  | _ =>
      n ← parse_digits digits 0;
      let v := if neg : bool then - n else n in
      if (- two63 <=? v) && (v <? two63) then Some v else None
  end.

(** [hex.EncodeToString] *)
Definition hex_digit (n : nat) : ascii := ch (if (n <? 10)%nat then 48 + n else 87 + n).
Definition hex_byte (c : ascii) : bytes :=
  let n := nat_of_ascii c in [hex_digit (n / 16); hex_digit (n mod 16)].
Definition hex_encode (s : bytes) : bytes := flat_map hex_byte s.

(** ** Lemmas: splitting *)

Lemma Split_nonempty s sep : Split s sep <> [].
Proof. destruct s as [|c s]; simpl; [done|]. case_decide; [done|]. by destruct (Split s sep). Qed.

Lemma Split_nosep s sep : sep ∉ s -> Split s sep = [s].
Proof.
  induction s as [|c s IH]; intros H; simpl; [done|].
  rewrite decide_False by set_solver. by rewrite IH by set_solver.
Qed.

Lemma Split_app s t sep : sep ∉ s -> Split (s ++ sep :: t) sep = s :: Split t sep.
Proof.
  induction s as [|c s IH]; intros H; simpl.
  - by rewrite decide_True.
  - rewrite decide_False by set_solver. by rewrite IH by set_solver.
Qed.

(** Splitting undoes joining. *)
Lemma Split_join sep w ws :
  Forall (fun l => sep ∉ l) (w :: ws) -> Split (join sep (w :: ws)) sep = w :: ws.
Proof.
  revert w. induction ws as [|w' ws IH]; intros w [Hw Hws]%Forall_cons_1.
  - by apply Split_nosep.
  - change (join sep (w :: w' :: ws)) with (w ++ sep :: join sep (w' :: ws)).
    rewrite Split_app by done. by rewrite IH.
Qed.

Lemma join_nil sep w ws : join sep (w :: ws) = [] -> w = [].
Proof. destruct ws; simpl; [done|]. intros E. by apply app_eq_nil in E as [-> _]. Qed.

Lemma Split_pieces s sep w : w ∈ Split s sep -> sep ∉ w.
Proof.
  revert w. induction s as [|c s IH]; simpl; intros w Hw.
  { apply list_elem_of_singleton in Hw as ->. apply not_elem_of_nil. }
  case_decide as E.
  { apply elem_of_cons in Hw as [->|Hw]; [apply not_elem_of_nil|by apply IH]. }
  destruct (Split s sep) as [|v vs] eqn:Es.
  { by apply Split_nonempty in Es. }
  apply elem_of_cons in Hw as [->|Hw]; [|apply IH; by right].
  intros [?|H]%elem_of_cons; [congruence|]. revert H. apply IH. by left.
Qed.

Lemma Cut_found s t sep : sep ∉ s -> Cut (s ++ sep :: t) sep = (s, t, true).
Proof.
  induction s as [|c s IH]; intros H; simpl; [by rewrite decide_True|].
  rewrite decide_False by set_solver. by rewrite IH by set_solver.
Qed.

Lemma Cut_spec s sep before after :
  Cut s sep = (before, after, true) -> s = before ++ sep :: after /\ sep ∉ before.
Proof.
  revert before. induction s as [|c s IH]; simpl; intros before H; [done|].
  case_decide as E.
  - simplify_eq. split; [done|set_solver].
  - destruct (Cut s sep) as [[b a] ok]. simplify_eq.
    destruct (IH b eq_refl) as [-> Hn]. split; [done|]. set_solver.
Qed.

(** ** Lemmas: trimming *)

Lemma strip_spec w s s' : strip w s = Some s' <-> s = w ++ s'.
Proof.
  revert s. induction w as [|c w IH]; intros s; simpl; [naive_solver|].
  destruct s as [|d s]; [done|]. case_decide as E; [rewrite IH; naive_solver|naive_solver].
Qed.

Lemma strip_any_some ws s s' : strip_any ws s = Some s' -> exists w, w ∈ ws /\ s = w ++ s'.
Proof.
  induction ws as [|w ws IH]; simpl; [done|].
  destruct (strip w s) as [t|] eqn:E.
  - intros [= ->]. apply strip_spec in E. exists w. split; [by left|done].
  - intros (v & Hv & ->)%IH. exists v. split; [by right|done].
Qed.

(** [s] begins with none of [ws]. *)
Definition clean (ws : list bytes) (s : bytes) : Prop := forall w t, w ∈ ws -> s <> w ++ t.

Lemma strip_any_none ws s : strip_any ws s = None <-> clean ws s.
Proof.
  unfold clean. induction ws as [|w ws IH]; simpl.
  - split; [intros _ w t H; set_solver|done].
  - destruct (strip w s) as [t|] eqn:E.
    + split; [done|]. intros H. apply strip_spec in E. exfalso. eapply H; [by left|done].
    + rewrite IH. split; [|intros H v t Hv; apply H; by right].
      intros H v t [->|Hv]%elem_of_cons; [|by apply H]. intros ->.
      assert (strip w (w ++ t) = Some t) by by apply strip_spec. congruence.
Qed.

Lemma trim_prefixes_clean ws fuel s :
  [] ∉ ws -> (length s <= fuel)%nat -> clean ws (trim_prefixes fuel ws s).
Proof.
  intros Hws. revert s. induction fuel as [|fuel IH]; intros s Hl; simpl.
  - destruct s; [|simpl in Hl; lia]. intros [|c w] t Hw; [done|done].
  - destruct (strip_any ws s) as [s'|] eqn:E; [|by apply strip_any_none].
    apply IH. apply strip_any_some in E as (w & Hw & ->). rewrite length_app in Hl.
    destruct w; [done|simpl in Hl; lia].
Qed.

Lemma trim_prefixes_suffix ws fuel s : exists t, s = t ++ trim_prefixes fuel ws s.
Proof.
  revert s. induction fuel as [|fuel IH]; intros s; simpl; [by exists []|].
  destruct (strip_any ws s) as [s'|] eqn:E; [|by exists []].
  apply strip_any_some in E as (w & _ & ->). destruct (IH s') as [t Ht].
  exists (w ++ t). by rewrite <-app_assoc, <-Ht.
Qed.

Lemma trim_prefixes_id ws fuel s : clean ws s -> trim_prefixes fuel ws s = s.
Proof. intros H. destruct fuel; [done|]. simpl. by rewrite (proj2 (strip_any_none ws s) H). Qed.

(** Neither end is a space. *)
Definition trimmed (s : bytes) : Prop :=
  clean spaces s /\ clean (map (@rev ascii) spaces) (rev s).

Lemma spaces_nonempty : ([] ∉ spaces) /\ [] ∉ map (@rev ascii) spaces.
Proof. split; apply (bool_decide_unpack _); vm_compute; exact I. Qed.

Lemma TrimSpace_id s : trimmed s -> TrimSpace s = s.
Proof.
  intros [H1 H2]. unfold TrimSpace, trim_right, trim_left.
  rewrite !trim_prefixes_id by (rewrite ?trim_prefixes_id; done). apply rev_involutive.
Qed.

Lemma clean_prefix ws s t : clean ws (s ++ t) -> clean ws s.
Proof. intros H w u Hw ->. eapply H; [done|]. by rewrite <-app_assoc. Qed.

Lemma TrimSpace_trimmed s : trimmed (TrimSpace s).
Proof.
  destruct spaces_nonempty as [H1 H2]. unfold TrimSpace, trim_right.
  set (l := trim_left s). split.
  - destruct (trim_prefixes_suffix (map (@rev ascii) spaces) (length l) (rev l)) as [t Ht].
    apply (f_equal (@rev ascii)) in Ht. rewrite rev_involutive, rev_app_distr in Ht.
    apply (clean_prefix _ _ (rev t)). rewrite <-Ht. by apply trim_prefixes_clean.
  - rewrite rev_involutive. apply trim_prefixes_clean; [done|]. by rewrite length_rev.
Qed.

Lemma TrimSpace_idempotent s : TrimSpace (TrimSpace s) = TrimSpace s.
Proof. apply TrimSpace_id, TrimSpace_trimmed. Qed.

Lemma TrimSpace_elem s c : c ∈ TrimSpace s -> c ∈ s.
Proof.
  unfold TrimSpace, trim_right. set (l := trim_left s). intros H.
  assert (c ∈ l).
  { destruct (trim_prefixes_suffix (map (@rev ascii) spaces) (length l) (rev l)) as [t Ht].
    apply list_elem_of_In, in_rev, list_elem_of_In. rewrite Ht. apply elem_of_app. right.
    apply list_elem_of_In, in_rev, list_elem_of_In. done. }
  destruct (trim_prefixes_suffix spaces (length s) s) as [t Ht]. rewrite Ht.
  apply elem_of_app. by right.
Qed.

Lemma rev_space v : v ∈ spaces -> rev v ∈ map (@rev ascii) spaces.
Proof. intros H. apply list_elem_of_fmap. eauto. Qed.

(** A byte that no space holds except the space it is. *)
Definition breaks (c : ascii) : Prop := Forall (fun w => c ∈ w -> w = [c]) spaces.

Lemma breaks_NL : breaks NL.
Proof. apply (bool_decide_unpack _). vm_compute. exact I. Qed.
Lemma breaks_SP : breaks SP.
Proof. apply (bool_decide_unpack _). vm_compute. exact I. Qed.

(** A text whose last piece does not end in a space does not end in one. *)
Lemma clean_last_piece c s t :
  breaks c -> t <> [] -> clean (map (@rev ascii) spaces) (rev t) ->
  clean (map (@rev ascii) spaces) (rev (s ++ c :: t)).
Proof.
  intros Hbr Ht Hc w u Hw E.
  apply list_elem_of_fmap in Hw as (v & -> & Hv).
  rewrite rev_app_distr in E. simpl in E. rewrite <-app_assoc in E.
  apply app_eq_inv in E as [(k & E1 & E2)|(k & E1 & E2)].
  - eapply Hc; [|exact E1]. by apply rev_space.
  - destruct k as [|d k].
    + rewrite app_nil_r in E1. apply (Hc (rev v) []); [by apply rev_space|].
      by rewrite app_nil_r.
    + simpl in E2. injection E2 as <- _.
      assert (Hin : c ∈ v).
      { apply list_elem_of_In, in_rev. rewrite E1. apply in_or_app. right. by left. }
      pose proof (Forall_elem _ _ _ Hbr Hv Hin) as ->. simpl in E1.
      destruct (rev t) as [|e r] eqn:Er; [|destruct r; discriminate].
      apply (f_equal (@rev ascii)) in Er. rewrite rev_involutive in Er. done.
Qed.

(** ** Lemmas: hexadecimal *)

Lemma hex_byte_inj c d : hex_byte c = hex_byte d -> c = d.
Proof.
  assert (forall n, (n < 16)%nat -> nat_of_ascii (hex_digit n) = if (n <? 10)%nat then 48 + n else 87 + n)%nat
    as Hd.
  { intros n Hn. unfold hex_digit, ch. rewrite nat_ascii_embedding; [done|]. case_match; lia. }
  pose proof (nat_ascii_bounded c) as Bc. pose proof (nat_ascii_bounded d) as Bd.
  assert (Hinj : forall a b, (a < 16)%nat -> (b < 16)%nat -> hex_digit a = hex_digit b -> a = b).
  { intros a b Ha Hb E. apply (f_equal nat_of_ascii) in E. rewrite !Hd in E by done.
    destruct (Nat.ltb_spec a 10), (Nat.ltb_spec b 10); lia. }
  assert (Hl : forall a b a' b' : ascii, [a; b] = [a'; b'] -> a = a' /\ b = b') by naive_solver.
  unfold hex_byte. cbv zeta. intros [H1 H2]%Hl.
  apply Hinj in H1; [|apply Nat.Div0.div_lt_upper_bound; lia..].
  apply Hinj in H2; [|apply Nat.mod_upper_bound; lia..].
  rewrite <-(ascii_nat_embedding c), <-(ascii_nat_embedding d). f_equal.
  rewrite (Nat.div_mod_eq (nat_of_ascii c) 16), (Nat.div_mod_eq (nat_of_ascii d) 16). lia.
Qed.

Lemma hex_encode_inj s t : hex_encode s = hex_encode t -> s = t.
Proof.
  revert t. induction s as [|c s IH]; intros [|d t]; try done.
  change (hex_byte c ++ hex_encode s = hex_byte d ++ hex_encode t -> c :: s = d :: t).
  intros [->%hex_byte_inj E]%app_inj_1; [|done]. f_equal. by apply IH.
Qed.

Lemma hex_encode_length s : length (hex_encode s) = (2 * length s)%nat.
Proof. induction s as [|c s IH]; simpl; [done|]. fold (hex_encode s). lia. Qed.

(** The digits: 0-9 and a-f. *)
Definition hex_digits : list ascii := map hex_digit (seq 0 16).

Lemma hex_encode_digits s : Forall (fun c => c ∈ hex_digits) (hex_encode s).
Proof.
  assert (forall n, (n < 16)%nat -> hex_digit n ∈ hex_digits) as H.
  { intros n Hn. apply list_elem_of_fmap_2. apply elem_of_seq. lia. }
  induction s as [|c s IH]; [constructor|].
  change (Forall (fun c => c ∈ hex_digits) (hex_byte c ++ hex_encode s)).
  unfold hex_byte. cbv zeta. cbn [app]. pose proof (nat_ascii_bounded c) as Bc.
  constructor; [|constructor; [|exact IH]]; apply H.
  - apply Nat.Div0.div_lt_upper_bound. lia.
  - apply Nat.mod_upper_bound. lia.
Qed.

(** A text of digits is not touched by [TrimSpace] and holds no newline. *)
Lemma digit_clean ws c s :
  c ∈ hex_digits -> Forall (fun w => head w <> Some c \/ w = []) ws -> [] ∉ ws -> clean ws (c :: s).
Proof.
  intros Hc Hf Hn w t Hw E. destruct w as [|d w]; [done|].
  destruct (Forall_elem _ _ _ Hf Hw) as [H|H]; [|done]. simpl in *. congruence.
Qed.

Lemma digits_not_spaces c : c ∈ hex_digits ->
  Forall (fun w => head w <> Some c \/ w = []) spaces /\
  Forall (fun w => head w <> Some c \/ w = []) (map (@rev ascii) spaces) /\ c <> NL.
Proof.
  intros Hc.
  assert (Forall (fun c => Forall (fun w => head w <> Some c \/ w = []) spaces /\
    Forall (fun w => head w <> Some c \/ w = []) (map (@rev ascii) spaces) /\ c <> NL) hex_digits) as H.
  { apply (bool_decide_unpack _). vm_compute. exact I. }
  by apply (Forall_elem _ _ _ H).
Qed.

Lemma hex_no_newline s : NL ∉ hex_encode s.
Proof.
  intros H. pose proof (hex_encode_digits s) as Hd.
  apply (Forall_elem _ _ _ Hd), digits_not_spaces in H as (_ & _ & ?). done.
Qed.

Lemma hex_trimmed s : trimmed (hex_encode s).
Proof.
  destruct spaces_nonempty as [N1 N2]. pose proof (hex_encode_digits s) as Hd. split.
  - destruct (hex_encode s) as [|c l].
    + intros [|d w] t Hw; [done|done].
    + apply Forall_cons_1 in Hd as [Hc _]. destruct (digits_not_spaces c Hc) as (? & ? & _).
      by apply digit_clean.
  - apply Forall_rev in Hd. destruct (rev (hex_encode s)) as [|c l].
    + intros [|d w] t Hw; [done|done].
    + apply Forall_cons_1 in Hd as [Hc _]. destruct (digits_not_spaces c Hc) as (? & ? & _).
      by apply digit_clean.
Qed.

(** ** Decimals *)

(** The decimal form of a natural number of at most [fuel] digits. *)
Fixpoint decimal_aux (fuel : nat) (n : Z) (acc : bytes) : bytes :=
  match fuel with
  | O => acc
  | S fuel =>
      let acc' := ch (48 + Z.to_nat (n mod 10)) :: acc in
      if n / 10 =? 0 then acc' else decimal_aux fuel (n / 10) acc'
  end.
Definition decimal (n : Z) : bytes := decimal_aux 20 n [].

Definition dec_digits : list ascii := map (fun n => ch (48 + n)) (seq 0 10).

Lemma digit_val_ch d : 0 <= d < 10 -> digit_val (ch (48 + Z.to_nat d)) = Some d.
Proof.
  intros Hd. unfold digit_val, ch. rewrite nat_ascii_embedding by lia.
  replace (48 <=? Z.of_nat (48 + Z.to_nat d)) with true by (symmetry; apply Z.leb_le; lia).
  replace (Z.of_nat (48 + Z.to_nat d) <=? 57) with true by (symmetry; apply Z.leb_le; lia).
  simpl. f_equal. lia.
Qed.

Lemma parse_decimal_aux fuel : forall n acc, 0 <= n < 10 ^ Z.of_nat fuel -> fuel <> O ->
  parse_digits (decimal_aux fuel n acc) 0 = parse_digits acc n.
Proof.
  induction fuel as [|fuel IH]; intros n acc Hn Hf; [done|]. cbn [decimal_aux].
  pose proof (Z.mod_pos_bound n 10 ltac:(lia)) as Hm.
  pose proof (Z.div_mod n 10 ltac:(lia)) as Hdm.
  destruct (Z.eqb_spec (n / 10) 0) as [E|E].
  - cbn [parse_digits]. rewrite digit_val_ch by lia. cbn. f_equal. lia.
  - rewrite IH.
    + cbn [parse_digits]. rewrite digit_val_ch by lia. cbn. f_equal. lia.
    + rewrite Nat2Z.inj_succ, Z.pow_succ_r in Hn by lia. split; [apply Z.div_pos; lia|].
      apply Z.div_lt_upper_bound; lia.
    + intros ->. apply E. apply Z.div_small. simpl in Hn. lia.
Qed.

Lemma parse_decimal n : 0 <= n < two64 -> parse_digits (decimal n) 0 = Some n.
Proof. intros Hn. unfold decimal. rewrite parse_decimal_aux; [done| |done]. unfold two64 in Hn. simpl. lia. Qed.

Lemma decimal_aux_digits fuel : forall n acc, Forall (fun c => c ∈ dec_digits) acc ->
  Forall (fun c => c ∈ dec_digits) (decimal_aux fuel n acc).
Proof.
  induction fuel as [|fuel IH]; intros n acc Ha; [done|]. cbn [decimal_aux].
  pose proof (Z.mod_pos_bound n 10 ltac:(lia)) as Hm.
  assert (ch (48 + Z.to_nat (n mod 10)) ∈ dec_digits).
  { unfold dec_digits. apply list_elem_of_fmap. exists (Z.to_nat (n mod 10)).
    split; [done|]. apply elem_of_seq. lia. }
  case_match; [by constructor|]. apply IH. by constructor.
Qed.

Lemma decimal_digits n : Forall (fun c => c ∈ dec_digits) (decimal n).
Proof. apply decimal_aux_digits. constructor. Qed.

Lemma decimal_aux_nonempty fuel n acc : acc <> [] \/ fuel <> O -> decimal_aux fuel n acc <> [].
Proof.
  revert n acc. induction fuel as [|fuel IH]; intros n acc H; cbn [decimal_aux].
  - by destruct H.
  - case_match; [done|]. apply IH. by left.
Qed.

Lemma decimal_nonempty n : decimal n <> [].
Proof. apply decimal_aux_nonempty. by right. Qed.

(** A byte that is not a digit does not occur in a decimal. *)
Lemma decimal_without n c : c ∉ dec_digits -> c ∉ decimal n.
Proof. intros Hc H. apply Hc. by apply (Forall_elem _ _ _ (decimal_digits n)). Qed.

Lemma ParseInt_decimal n : 0 <= n < two63 -> ParseInt (decimal n) = Some n.
Proof.
  intros Hn. unfold ParseInt. pose proof (decimal_nonempty n) as Hne.
  pose proof (decimal_digits n) as Hd.
  pose proof (parse_decimal n ltac:(unfold two63, two64 in *; lia)) as Hp.
  destruct (decimal n) as [|c s] eqn:E; [done|]. apply Forall_cons_1 in Hd as [Hc _].
  assert (c <> ch 45 /\ c <> ch 43) as [H1 H2].
  { assert (Forall (fun c => c <> ch 45 /\ c <> ch 43) dec_digits) as H
      by (apply (bool_decide_unpack _); vm_compute; exact I).
    by apply (Forall_elem _ _ _ H). }
  rewrite !decide_False by done. rewrite Hp. cbn.
  rewrite (proj2 (Z.leb_le (- two63) n)), (proj2 (Z.ltb_lt n two63)) by (unfold two63 in *; lia).
  done.
Qed.
