(* ===== verification/Registry.v ===== *)
(** The handle table of the native library: [registry.rs], with the errors of
    [error.rs].

    What the rest of the library needs of the table is the class [Table] with
    its laws [TableLaws], stated over the map it stands for.  The sharded table
    of [registry.rs] is one implementation and a plain map another; clients are
    proved against the laws. *)
From S2P Require Import Prelude GoErrors GoStrings.
Local Open Scope Z_scope.
Local Open Scope go_scope.

(** ** Errors *)

(** [src/rust/irohgo-ffi/src/error.rs:16-31 ErrKind] *)
Inductive ErrKind : Set :=
| EInternal | EInvalidInput | EKeyParsing | ETicketParsing | EBind | EConnect | EConnection
| EStream | EDatagram | EAlpn | ERelay | EClosed | ETimeout | ECancelled.

#[export] Instance ErrKind_eq : EqDecision ErrKind.
Proof. solve_decision. Defined.

(** [e.kind as i32] *)
Definition kind_num (k : ErrKind) : Z :=
  match k with
  | EInternal => 0 | EInvalidInput => 1 | EKeyParsing => 2 | ETicketParsing => 3 | EBind => 4
  | EConnect => 5 | EConnection => 6 | EStream => 7 | EDatagram => 8 | EAlpn => 9 | ERelay => 10
  | EClosed => 11 | ETimeout => 12 | ECancelled => 13
  end.

(** [src/rust/irohgo-ffi/src/error.rs:34-37 Error] *)
Record rerror := mkError { e_kind : ErrKind; e_msg : bytes }.

(** [src/rust/irohgo-ffi/src/error.rs:47-49 Error::internal] *)
Definition internal (msg : bytes) : rerror := mkError EInternal msg.
(** [src/rust/irohgo-ffi/src/error.rs:51-53 Error::invalid] *)
Definition invalid (msg : bytes) : rerror := mkError EInvalidInput msg.
(** [src/rust/irohgo-ffi/src/error.rs:55-57 Error::closed] *)
Definition closed_error (msg : bytes) : rerror := mkError EClosed msg.

(** [Result<T>] *)
Abbreviation result T := (T + rerror)%type.

(** ** Tables *)

Definition NULL_HANDLE : Z := 0.

Class Table (T V : Type) := {
  t_empty : T;
  t_reserve : T -> Z * T;
  t_publish : Z -> V -> T -> T;
  t_slot : Z -> T -> option V;
  t_drop : Z -> T -> bool * T;
  t_len : T -> nat
}.

(** What a table stands for: a map from ids, the next id, and the shape its
    operations keep. *)
Class TableLaws (T V : Type) `{!Table T V} := {
  t_map : T -> gmap Z V;
  t_next : T -> Z;
  t_ok : T -> Prop;
  empty_law : t_ok t_empty /\ t_map t_empty = ∅ /\ t_next t_empty = 1;
  reserve_law : forall t, t_ok t ->
    t_ok (t_reserve t).2 /\ (t_reserve t).1 = t_next t /\
    t_map (t_reserve t).2 = t_map t /\ t_next (t_reserve t).2 = wrap_u64 (t_next t + 1);
  publish_law : forall h v t, t_ok t ->
    t_ok (t_publish h v t) /\ t_map (t_publish h v t) = <[h := v]> (t_map t) /\
    t_next (t_publish h v t) = t_next t;
  slot_law : forall h t, t_ok t -> t_slot h t = t_map t !! h;
  drop_law : forall h t, t_ok t ->
    t_ok (t_drop h t).2 /\ (t_drop h t).1 = bool_decide (is_Some (t_map t !! h)) /\
    t_map (t_drop h t).2 = delete h (t_map t) /\ t_next (t_drop h t).2 = t_next t;
  len_law : forall t, t_ok t -> t_len t = size (t_map t)
}.

Section Operations.
Context {T V : Type} `{!Table T V}.

(** [src/rust/irohgo-ffi/src/registry.rs:61-65 insert] *)
Definition insert_slot (v : V) (t : T) : Z * T :=
  let '(handle, t) := t_reserve t in
  (handle, t_publish handle v t).

(** [src/rust/irohgo-ffi/src/registry.rs:68-87 get] [as_A] is the downcast. *)
Definition get_slot {A} (as_A : V -> option A) (handle : Z) (t : T) : result A :=
  if handle =? NULL_HANDLE then inr (invalid $"null handle")
  else
    match t_slot handle t with
    | None => inr (closed_error ($"handle " ++ decimal handle ++ $" is not live"))
    | Some slot =>
        match as_A slot with
        | Some a => inl a
        | None => inr (invalid ($"handle " ++ decimal handle ++ $" has wrong type"))
        end
    end.

(** [src/rust/irohgo-ffi/src/registry.rs:90-100 remove] *)
Definition remove_slot (handle : Z) (t : T) : bool * T :=
  if handle =? NULL_HANDLE then (false, t) else t_drop handle t.

End Operations.

(** ** The sharded table *)

Section Sharded.
Context {V : Type}.

Definition SHARDS : nat := 16.

(** [src/rust/irohgo-ffi/src/registry.rs:22-25 Registry] *)
Record Registry := mkRegistry { shards : list (gmap Z V); next : Z }.

(** [src/rust/irohgo-ffi/src/registry.rs:27-33 registry] *)
Definition registry : Registry := mkRegistry (replicate SHARDS ∅) 1.

(** [src/rust/irohgo-ffi/src/registry.rs:36-38 Registry::shard] *)
Definition shard (handle : Z) : nat := Z.to_nat (handle `mod` Z.of_nat SHARDS).

(** [src/rust/irohgo-ffi/src/registry.rs:45-47 reserve] *)
Definition reserve (r : Registry) : Z * Registry :=
  (next r, mkRegistry (shards r) (wrap_u64 (next r + 1))).

(** [src/rust/irohgo-ffi/src/registry.rs:50-56 publish] *)
Definition publish (handle : Z) (v : V) (r : Registry) : Registry :=
  mkRegistry (alter (<[handle := v]>) (shard handle) (shards r)) (next r).

(** The slot of a handle, as [get] finds it. *)
Definition slot (handle : Z) (r : Registry) : option V := shards r !! shard handle ≫= lookup handle.

(** Its removal, as [remove] does it. *)
Definition drop_slot (handle : Z) (r : Registry) : bool * Registry :=
  (bool_decide (is_Some (slot handle r)),
   mkRegistry (alter (delete handle) (shard handle) (shards r)) (next r)).

(** [src/rust/irohgo-ffi/src/registry.rs:103-109 len] *)
Definition len_slots (r : Registry) : nat := sum_list_with size (shards r).

#[export] Instance registry_table : Table Registry V := {|
  t_empty := registry; t_reserve := reserve; t_publish := publish; t_slot := slot;
  t_drop := drop_slot; t_len := len_slots
|}.

(** ** Lemmas: the sharded table *)

(** Every handle is in its own shard. *)
Definition sharded (r : Registry) : Prop :=
  length (shards r) = SHARDS /\
  forall i m h, shards r !! i = Some m -> is_Some (m !! h) -> shard h = i.

Definition all_slots (r : Registry) : gmap Z V := ⋃ (shards r).

Lemma shard_lt h : (shard h < SHARDS)%nat.
Proof.
  unfold shard, SHARDS. pose proof (Z.mod_pos_bound h 16 ltac:(lia)). simpl Z.of_nat. lia.
Qed.

(** The union of maps that keep their keys apart. *)
Lemma union_list_lookup (l : list (gmap Z V)) (f : Z -> nat) h :
  (forall i m k, l !! i = Some m -> is_Some (m !! k) -> f k = i) ->
  (⋃ l : gmap Z V) !! h = l !! f h ≫= lookup h.
Proof.
  revert f. induction l as [|m l IH]; intros f Hf; simpl; [by rewrite lookup_empty|].
  destruct (m !! h) as [v|] eqn:E.
  - rewrite (lookup_union_Some_l _ _ _ v E). rewrite (Hf 0%nat m h eq_refl); [simpl; by rewrite E|by eexists].
  - rewrite lookup_union_r by done.
    rewrite (IH (fun k => pred (f k))).
    + destruct (f h) as [|j] eqn:Ej; simpl; [|done]. rewrite E.
      destruct l as [|m' l']; [done|]. simpl. destruct (m' !! h) as [v|] eqn:E'; [|done].
      by specialize (Hf 1%nat m' h eq_refl (mk_is_Some _ _ E')); rewrite Ej in Hf.
    + intros i m' k Hi Hk. by rewrite (Hf (S i) m' k).
Qed.

Lemma slot_all r h : sharded r -> slot h r = all_slots r !! h.
Proof. intros [_ H]. unfold all_slots, slot. by rewrite (union_list_lookup _ shard) by apply H. Qed.

(** A change of one handle in its shard. *)
Lemma alter_shard r h (f : gmap Z V -> gmap Z V) :
  sharded r -> (forall m k, k <> h -> f m !! k = m !! k) ->
  sharded (mkRegistry (alter f (shard h) (shards r)) (next r)) /\
  (forall k, k <> h -> all_slots (mkRegistry (alter f (shard h) (shards r)) (next r)) !! k = all_slots r !! k) /\
  exists m, shards r !! shard h = Some m /\ all_slots r !! h = m !! h /\
    all_slots (mkRegistry (alter f (shard h) (shards r)) (next r)) !! h = f m !! h.
Proof.
  intros [Hl H] Hf.
  destruct (lookup_lt_is_Some_2 (shards r) (shard h)) as [m Hm]; [rewrite Hl; apply shard_lt|].
  set (r' := mkRegistry _ _).
  assert (Hr' : sharded r').
  { split; [simpl; by rewrite length_alter|]. simpl. intros i m' k Hi Hk.
    destruct (decide (i = shard h)) as [->|Hne].
    - rewrite list_lookup_alter_eq, Hm in Hi. injection Hi as <-.
      destruct (decide (k = h)) as [->|Hkh]; [done|]. rewrite Hf in Hk by done. by eapply H.
    - rewrite list_lookup_alter_ne in Hi by done. by eapply H. }
  split; [exact Hr'|]. split.
  - intros k Hk. rewrite <-!slot_all by (done || by split). unfold slot. simpl.
    destruct (decide (shard k = shard h)) as [E|Hne].
    + rewrite E, list_lookup_alter_eq, Hm. simpl. by apply Hf.
    + by rewrite list_lookup_alter_ne.
  - exists m. rewrite <-!slot_all by (done || by split). unfold slot. simpl.
    by rewrite list_lookup_alter_eq, Hm.
Qed.

Lemma size_union_list (l : list (gmap Z V)) (f : Z -> nat) :
  (forall i m k, l !! i = Some m -> is_Some (m !! k) -> f k = i) ->
  sum_list_with size l = size (⋃ l : gmap Z V).
Proof.
  revert f. induction l as [|m l IH]; intros f Hf; simpl; [by rewrite map_size_empty|].
  rewrite (IH (fun k => pred (f k))).
  - rewrite map_size_disj_union; [done|]. apply map_disjoint_spec. intros k x y Hx Hy.
    rewrite (union_list_lookup l (fun k => pred (f k))) in Hy.
    2:{ intros i m' k' Hi Hk. by rewrite (Hf (S i) m' k'). }
    apply bind_Some in Hy as (m' & Hi & Hy).
    rewrite (Hf 0%nat m k eq_refl (mk_is_Some _ _ Hx)) in Hi. simpl in Hi.
    pose proof (Hf 1%nat m' k Hi (mk_is_Some _ _ Hy)) as E.
    by rewrite (Hf 0%nat m k eq_refl (mk_is_Some _ _ Hx)) in E.
  - intros i m' k Hi Hk. by rewrite (Hf (S i) m' k).
Qed.

Lemma registry_ok : sharded registry /\ all_slots registry = ∅ /\ next registry = 1.
Proof.
  assert (H : sharded registry).
  { split; [apply length_replicate|]. cbn [shards registry]. intros i m h [-> _]%lookup_replicate [x Hx].
    by rewrite lookup_empty in Hx. }
  split; [exact H|]. split; [|done]. apply map_empty. intros h. rewrite <-slot_all by exact H.
  unfold slot. cbn [shards registry].
  destruct (replicate SHARDS ∅ !! shard h) as [m|] eqn:E; [|done].
  apply lookup_replicate in E as [-> _]. apply lookup_empty.
Qed.

Lemma all_slots_reserve r n : all_slots (mkRegistry (shards r) n) = all_slots r.
Proof. done. Qed.

Lemma publish_ok h v r : sharded r ->
  sharded (publish h v r) /\ all_slots (publish h v r) = <[h := v]> (all_slots r).
Proof.
  intros Hr. destruct (alter_shard r h <[h := v]> Hr) as (Hs & Hne & m & Hm & _ & He).
  { intros m k Hk. by apply lookup_insert_ne. }
  split; [exact Hs|]. apply map_eq. intros k. destruct (decide (k = h)) as [->|Hk].
  - rewrite lookup_insert_eq. unfold publish. rewrite He. apply lookup_insert_eq.
  - rewrite lookup_insert_ne by done. by apply Hne.
Qed.

Lemma drop_ok h r : sharded r ->
  sharded (drop_slot h r).2 /\ all_slots (drop_slot h r).2 = delete h (all_slots r).
Proof.
  intros Hr. destruct (alter_shard r h (delete h) Hr) as (Hs & Hne & m & Hm & _ & He).
  { intros m k Hk. by apply lookup_delete_ne. }
  split; [exact Hs|]. apply map_eq. intros k. destruct (decide (k = h)) as [->|Hk].
  - rewrite lookup_delete_eq. unfold drop_slot. simpl. rewrite He. apply lookup_delete_eq.
  - rewrite lookup_delete_ne by done. by apply Hne.
Qed.

#[export] Instance registry_laws : TableLaws Registry V.
Proof.
  refine {| t_map := all_slots; t_next := next; t_ok := sharded |}.
  - exact registry_ok.
  - done.
  - intros h v r Hr. by destruct (publish_ok h v r Hr).
  - intros h r Hr. by apply slot_all.
  - intros h r Hr. destruct (drop_ok h r Hr) as [H1 H2]. split; [exact H1|]. split; [|by split].
    simpl. by rewrite slot_all.
  - intros r [_ H]. by apply size_union_list with (f := shard).
Defined.

End Sharded.

(** ** A plain map *)

Section Flat.
Context {V : Type}.

Record flat := mkFlat { f_map : gmap Z V; f_next : Z }.

#[export] Instance flat_table : Table flat V := {|
  t_empty := mkFlat ∅ 1;
  t_reserve := fun t => (f_next t, mkFlat (f_map t) (wrap_u64 (f_next t + 1)));
  t_publish := fun h v t => mkFlat (<[h := v]> (f_map t)) (f_next t);
  t_slot := fun h t => f_map t !! h;
  t_drop := fun h t => (bool_decide (is_Some (f_map t !! h)), mkFlat (delete h (f_map t)) (f_next t));
  t_len := fun t => size (f_map t)
|}.

#[export] Instance flat_laws : TableLaws flat V.
Proof. by refine {| t_map := f_map; t_next := f_next; t_ok := fun _ => True |}. Defined.

End Flat.
Arguments flat : clear implicits.
Arguments Registry : clear implicits.

(** ** Sequences of operations *)

Inductive table_op (V : Type) : Type :=
| TInsert (v : V)
| TReserve
| TPublish (h : Z) (v : V)
| TGet (h : Z)
| TRemove (h : Z)
| TLen.
Arguments TInsert {V} v. Arguments TReserve {V}. Arguments TPublish {V} h v.
Arguments TGet {V} h. Arguments TRemove {V} h. Arguments TLen {V}.

(** What an operation answers. *)
Inductive table_answer (A : Type) : Type :=
| AHandle (h : Z)
| ASlot (r : result A)
| ARemoved (b : bool)
| ACount (n : nat)
| ADone.
Arguments AHandle {A} h. Arguments ASlot {A} r. Arguments ARemoved {A} b.
Arguments ACount {A} n. Arguments ADone {A}.

Section Run.
Context {T V A : Type} `{!Table T V} (as_A : V -> option A).

Definition apply_op (o : table_op V) (t : T) : table_answer A * T :=
  match o with
  | TInsert v => let '(h, t) := insert_slot v t in (AHandle h, t)
  | TReserve => let '(h, t) := t_reserve t in (AHandle h, t)
  | TPublish h v => (ADone, t_publish h v t)
  | TGet h => (ASlot (get_slot as_A h t), t)
  | TRemove h => let '(b, t) := remove_slot h t in (ARemoved b, t)
  | TLen => (ACount (t_len t), t)
  end.

Fixpoint apply_ops (os : list (table_op V)) (t : T) : list (table_answer A) :=
  match os with
  | [] => []
  | o :: os => let '(a, t) := apply_op o t in a :: apply_ops os t
  end.

End Run.

(** ** Lemmas: any two tables agree *)

Section Agree.
Context {T1 T2 V A : Type} `{!Table T1 V, !Table T2 V, !TableLaws T1 V, !TableLaws T2 V}.
Context (as_A : V -> option A).

Definition agree (t1 : T1) (t2 : T2) : Prop :=
  t_ok t1 /\ t_ok t2 /\ t_map t1 = t_map t2 /\ t_next t1 = t_next t2.

Lemma agree_reserve t1 t2 : agree t1 t2 ->
  (t_reserve t1).1 = (t_reserve t2).1 /\ agree (t_reserve t1).2 (t_reserve t2).2.
Proof.
  intros (O1 & O2 & M & N).
  destruct (reserve_law t1 O1) as (? & E1 & M1 & N1), (reserve_law t2 O2) as (? & E2 & M2 & N2).
  split; [congruence|]. unfold agree. rewrite M1, M2, N1, N2. by split_and!; try congruence.
Qed.

Lemma agree_publish h v t1 t2 : agree t1 t2 -> agree (t_publish h v t1) (t_publish h v t2).
Proof.
  intros (O1 & O2 & M & N).
  destruct (publish_law h v t1 O1) as (? & M1 & N1), (publish_law h v t2 O2) as (? & M2 & N2).
  unfold agree. rewrite M1, M2, N1, N2. by split_and!; try congruence.
Qed.

Lemma agree_op o t1 t2 : agree t1 t2 ->
  (apply_op as_A o t1).1 = (apply_op as_A o t2).1 /\ agree (apply_op as_A o t1).2 (apply_op as_A o t2).2.
Proof.
  intros Ha. pose proof Ha as (O1 & O2 & M & N). destruct o; simpl.
  - unfold insert_slot. destruct (agree_reserve t1 t2 Ha) as [E Hr].
    destruct (t_reserve t1) as [h1 t1'], (t_reserve t2) as [h2 t2']. simpl in *. subst.
    split; [done|]. by apply agree_publish.
  - destruct (agree_reserve t1 t2 Ha) as [E Hr].
    destruct (t_reserve t1) as [h1 t1'], (t_reserve t2) as [h2 t2']. simpl in *. by subst.
  - split; [done|]. by apply agree_publish.
  - split; [|done]. unfold get_slot. by rewrite !slot_law, M.
  - unfold remove_slot. destruct (h =? NULL_HANDLE); [done|].
    destruct (drop_law h t1 O1) as (? & E1 & M1 & N1), (drop_law h t2 O2) as (? & E2 & M2 & N2).
    rewrite M in E1. destruct (t_drop h t1), (t_drop h t2). simpl in *.
    split; [congruence|]. unfold agree. rewrite M1, M2, N1, N2. by split_and!; try congruence.
  - split; [|done]. by rewrite !len_law, M.
Qed.

Lemma agree_ops os : forall t1 t2, agree t1 t2 -> apply_ops as_A os t1 = apply_ops as_A os t2.
Proof.
  induction os as [|o os IH]; intros t1 t2 Ha; simpl; [done|].
  destruct (agree_op o t1 t2 Ha) as [E H].
  destruct (apply_op as_A o t1) as [a1 t1'], (apply_op as_A o t2) as [a2 t2']. simpl in *.
  subst. f_equal. by apply IH.
Qed.

Lemma agree_empty : agree t_empty t_empty.
Proof.
  destruct (empty_law (T := T1)) as (? & M1 & N1), (empty_law (T := T2)) as (? & M2 & N2).
  unfold agree. rewrite M1, M2, N1, N2. done.
Qed.

End Agree.

(** ** Properties *)

(** C20. The sharded handle table is a map.  Over any sequence of inserts,
    reservations, publications, lookups, removals and counts, the sixteen locked
    shards of the registry and one flat map from ids to slots give the same
    answers: the same ids, the same values and the same errors (no such handle,
    a handle of another kind), whether a removal found anything, and the number
    of handles alive. *)
Theorem registry_is_a_map {V A} (as_A : V -> option A) (os : list (table_op V)) :
  apply_ops as_A os (t_empty : Registry V) = apply_ops as_A os (t_empty : flat V).
Proof. apply (agree_ops (T1 := Registry V) (T2 := flat V)), agree_empty. Qed.
