(* ===== verification/Keys.v ===== *)
(** Keys and identities: [keys.go].

    A fixed-size array is the byte sequence of its elements; [zero_key] is the
    zero value a method fills. *)
From S2P Require Import Prelude GoErrors Prog Abi Contract Pump Calls GoStrings.
Local Open Scope Z_scope.

(** ** Types *)

(** [src/keys.go:11-11 SecretKeySize] *)
Definition SecretKeySize : nat := 32.
(** [src/keys.go:12-12 EndpointIDSize] *)
Definition EndpointIDSize : nat := 32.
(** [src/keys.go:13-13 SignatureSize] *)
Definition SignatureSize : nat := 64.

(** [src/keys.go:16-20 SecretKey] *)
Definition SecretKey : Type := bytes.
(** [src/keys.go:49-51 EndpointID] *)
Definition EndpointID : Type := bytes.
(** [src/keys.go:80-81 Signature] *)
Definition Signature : Type := bytes.

Definition zero_bytes (n : nat) : bytes := replicate n (ch 0).

(** ** Operations *)

(** [src/keys.go:23-29 GenerateSecretKey] *)
Definition GenerateSecretKey : go (SecretKey * error) :=
  SecretKeyGenerate (zero_bytes SecretKeySize).

(** [src/keys.go:32-38 SecretKey.Public] *)
Definition Public (k : SecretKey) : go (EndpointID * error) :=
  SecretKeyPublic k (zero_bytes EndpointIDSize).

(** [src/keys.go:41-47 SecretKey.Sign] *)
Definition Sign (k : SecretKey) (msg : bytes) : go (Signature * error) :=
  SecretKeySign k msg (zero_bytes SignatureSize).

(** [src/keys.go:56-62 ParseEndpointID] *)
Definition ParseEndpointID (s : bytes) : go (EndpointID * error) :=
  EndpointIDParse s (zero_bytes EndpointIDSize).

(** [src/keys.go:66-66 EndpointID.String] *)
Definition EndpointID_String (id : EndpointID) : bytes := hex_encode id.

(** [src/keys.go:69-69 EndpointID.Short] *)
Definition Short (id : EndpointID) : bytes := hex_encode (take 5 id).

(** [src/keys.go:72-72 EndpointID.IsZero] *)
Definition IsZero (id : EndpointID) : bool := bool_decide (id = zero_bytes EndpointIDSize).

(** [src/keys.go:76-78 EndpointID.Verify] *)
Definition Verify (id : EndpointID) (msg : bytes) (sig : Signature) : go error :=
  EndpointIDVerify id msg sig.

(** [src/keys.go:84-84 Signature.String] *)
Definition Signature_String (s : Signature) : bytes := hex_encode s.

(** ** Lemmas *)

Lemma zero_bytes_length n : length (zero_bytes n) = n.
Proof. apply length_replicate. Qed.

Lemma hex_encode_app s t : hex_encode (s ++ t) = hex_encode s ++ hex_encode t.
Proof. unfold hex_encode. induction s as [|c s IH]; [done|]. simpl. by rewrite IH. Qed.

(** An out-parameter method leaves nothing behind and fills its array. *)
Lemma out_method_spec s f out :
  out_pre f -> length out = out_size f ->
  wp s (fill_sync out f) (fun '(v, err) s' => steady s s' /\ length v = out_size f).
Proof.
  intros Hp Hout. apply loaded_spec.
  { intros e. split; [by left|done]. }
  eapply wp_call; [by apply out_sync_spec|]. intros [v err] s' (-> & Hv & _). split; [by right|].
  unfold fill. rewrite length_app, length_take, length_drop. lia.
Qed.

Lemma ParseEndpointID_spec s text :
  wp s (ParseEndpointID text) (fun '(id, err) s' =>
    steady s s' /\ length id = EndpointIDSize).
Proof. apply (out_method_spec s (endpointIDParse text)); [done|apply zero_bytes_length]. Qed.

(** ** Properties *)

(** C37. The text forms of identities tell them apart: [String] renders an
    endpoint id (or a signature) as twice as many lowercase hex digits as it
    has bytes, no two values render alike, [Short] is the first ten characters
    of [String], and the text is a single line with nothing to trim, which is
    what lets an address carry it on a line of its own. *)
Theorem key_texts_faithful :
  (forall id1 id2, EndpointID_String id1 = EndpointID_String id2 -> id1 = id2) /\
  (forall sig1 sig2, Signature_String sig1 = Signature_String sig2 -> sig1 = sig2) /\
  (forall id, length (EndpointID_String id) = (2 * length id)%nat /\
     Forall (fun c => c ∈ hex_digits) (EndpointID_String id) /\
     Short id = take 10 (EndpointID_String id) /\
     TrimSpace (EndpointID_String id) = EndpointID_String id /\
     Split (EndpointID_String id) NL = [EndpointID_String id]).
Proof.
  split; [apply hex_encode_inj|]. split; [apply hex_encode_inj|].
  intros id. split; [apply hex_encode_length|]. split; [apply hex_encode_digits|].
  split; [|split; [apply TrimSpace_id, hex_trimmed|apply Split_nosep, hex_no_newline]].
  unfold Short, EndpointID_String. do 5 (destruct id as [|? id]; [done|]). done.
Qed.

Example key_texts_faithful_witness :
  $"ab"%go = [ascii_of_nat 97; ascii_of_nat 98].
Proof. apply (proj1 key_texts_faithful). vm_compute. reflexivity. Defined.
