(* ===== verification/Netip.v ===== *)
(** The interface of Go's [net/netip] the source relies on, as a type class, and
    an IPv4 implementation of it.

    The theorems about addresses are proved against the class; the instance
    shows its laws can hold and lets addresses be evaluated. *)
From S2P Require Import Prelude GoStrings.
Local Open Scope Z_scope.

(** ** The interface

    [netip.AddrPort], [netip.ParseAddrPort] (the error's text when it fails) and
    [AddrPort.String].  The laws are the documented ones: a valid value
    survives being formatted and parsed, what parses is valid, and the text has
    the shape [ip:port], so it does not begin or end in a space, and holds a
    newline only where a zone put one. *)
Class NetIP := {
  AddrPort : Type;
  AddrPort_eq_dec :: EqDecision AddrPort;
  ParseAddrPort : bytes -> AddrPort + bytes;
  AddrPort_String : AddrPort -> bytes;
  addr_valid : AddrPort -> Prop;
  parse_format : forall a, addr_valid a -> ParseAddrPort (AddrPort_String a) = inl a;
  parse_valid : forall s a, ParseAddrPort s = inl a -> addr_valid a;
  parse_newline : forall s a, ParseAddrPort s = inl a -> NL ∉ s -> NL ∉ AddrPort_String a;
  format_trimmed : forall a, addr_valid a ->
    AddrPort_String a <> [] /\ trimmed (AddrPort_String a)
}.

(** ** IPv4 *)

Definition DOT : ascii := ch 46.
Definition COLON : ascii := ch 58.

Record addr4 := mkAddr4 { a4_1 : Z; a4_2 : Z; a4_3 : Z; a4_4 : Z; a4_port : Z }.

#[export] Instance addr4_eq_dec : EqDecision addr4.
Proof. solve_decision. Defined.

(** A decimal field without a leading zero, up to [max]. *)
Definition parse_field (max : Z) (s : bytes) : option Z :=
  match s with
  | [] => None
  | c :: s' =>
      if decide (c = ch 48 /\ s' <> []) then None
      else n ← parse_digits s 0; if n <=? max then Some n else None
  end.

Definition format4 (a : addr4) : bytes :=
  join DOT [decimal (a4_1 a); decimal (a4_2 a); decimal (a4_3 a);
            decimal (a4_4 a) ++ COLON :: decimal (a4_port a)].

Definition bad_addr : bytes := lit "not an ip:port".

Definition parse4_fields (s : bytes) : option addr4 :=
  match Split s DOT with
  | [w1; w2; w3; w4] =>
      let '(d, p, ok) := Cut w4 COLON in
      a ← parse_field 255 w1;
      b ← parse_field 255 w2;
      c ← parse_field 255 w3;
      d ← parse_field 255 d;
      p ← parse_field 65535 p;
      if ok : bool then Some (mkAddr4 a b c d p) else None
  | _ => None
  end.

Definition valid4 (a : addr4) : Prop :=
  Forall (fun n => 0 <= n <= 255) [a4_1 a; a4_2 a; a4_3 a; a4_4 a] /\ 0 <= a4_port a <= 65535.

Definition parse4 (s : bytes) : addr4 + bytes :=
  match parse4_fields s with Some a => inl a | None => inr bad_addr end.

(** ** Lemmas *)

(** The first digit of a decimal is zero only when the number is. *)
Lemma decimal_aux_head fuel : forall n acc, 0 < n < 10 ^ Z.of_nat fuel ->
  head (decimal_aux fuel n acc) <> Some (ch 48).
Proof.
  induction fuel as [|fuel IH]; intros n acc Hn; [simpl in Hn; lia|]. cbn [decimal_aux].
  pose proof (Z.mod_pos_bound n 10 ltac:(lia)) as Hm.
  pose proof (Z.div_mod n 10 ltac:(lia)) as Hdm.
  destruct (Z.eqb_spec (n / 10) 0) as [E|E].
  - cbn [head]. intros [= H]. apply (f_equal digit_val) in H.
    change (digit_val (ch (48 + Z.to_nat (n mod 10))) = Some 0) in H.
    rewrite digit_val_ch in H by lia. injection H as H. lia.
  - apply IH. rewrite Nat2Z.inj_succ, Z.pow_succ_r in Hn by lia. split.
    + assert (0 <= n / 10) by (apply Z.div_pos; lia). lia.
    + apply Z.div_lt_upper_bound; lia.
Qed.

Lemma parse_field_decimal max n : 0 <= n <= max -> max < two64 -> parse_field max (decimal n) = Some n.
Proof.
  intros Hn Hmax. unfold parse_field.
  pose proof (parse_decimal n ltac:(lia)) as Hp.
  destruct (decimal n) as [|c s] eqn:E; [by apply decimal_nonempty in E|].
  rewrite decide_False.
  - rewrite Hp. cbn. by rewrite (proj2 (Z.leb_le n max)) by lia.
  - intros [-> Hs]. destruct (decide (n = 0)) as [->|Hn0].
    + vm_compute in E. by injection E as <-.
    + apply (decimal_aux_head 20 n []); [unfold two64 in Hmax; simpl; lia|].
      unfold decimal in E. by rewrite E.
Qed.

Lemma digit_val_range c d : digit_val c = Some d -> 0 <= d.
Proof. unfold digit_val. case_match eqn:E; [|done]. apply andb_true_iff in E as [E%Z.leb_le _]. intros [= <-]. lia. Qed.

Lemma parse_digits_range s : forall acc n, 0 <= acc -> parse_digits s acc = Some n -> 0 <= n.
Proof.
  induction s as [|c s IH]; intros acc n Ha; simpl; [by intros [= <-]|].
  destruct (digit_val c) as [d|] eqn:E; [|done]. apply digit_val_range in E. simpl.
  apply IH. lia.
Qed.

Lemma parse_field_range max s n : parse_field max s = Some n -> 0 <= n <= max.
Proof.
  unfold parse_field. destruct s as [|c s]; [done|]. case_decide; [done|].
  destruct (parse_digits (c :: s) 0) as [m|] eqn:E; [|done]. cbn.
  destruct (Z.leb_spec m max); [|done]. intros [= <-]. split; [|done].
  by eapply parse_digits_range.
Qed.

Lemma not_digit c : c = DOT \/ c = COLON \/ c = NL -> c ∉ dec_digits.
Proof. intros [-> |[-> | ->]]; apply (bool_decide_unpack _); vm_compute; exact I. Qed.

Lemma parse4_format a : valid4 a -> parse4 (format4 a) = inl a.
Proof.
  intros [Hf Hp]. unfold parse4, parse4_fields, format4.
  assert (Hd : forall n c, c = DOT \/ c = COLON \/ c = NL -> c ∉ decimal n).
  { intros n c Hc. by apply decimal_without, not_digit. }
  rewrite Split_join.
  - rewrite Cut_found by auto.
    repeat (apply Forall_cons_1 in Hf as [? Hf]).
    rewrite !parse_field_decimal by (unfold two64; lia). by destruct a.
  - repeat apply Forall_cons_2; try apply Forall_nil_2; auto.
    rewrite elem_of_app, elem_of_cons. intros [H|[H|H]]; [by apply Hd in H; auto|done|by apply Hd in H; auto].
Qed.

Lemma parse4_valid s a : parse4 s = inl a -> valid4 a.
Proof.
  unfold parse4. destruct (parse4_fields s) as [a'|] eqn:E; [|done]. intros [= ->].
  unfold parse4_fields in E.
  destruct (Split s DOT) as [|w1 [|w2 [|w3 [|w4 [|]]]]]; try done.
  destruct (Cut w4 COLON) as [[d p] ok].
  destruct (parse_field 255 w1) eqn:E1; [|done]; destruct (parse_field 255 w2) eqn:E2; [|done];
  destruct (parse_field 255 w3) eqn:E3; [|done]; destruct (parse_field 255 d) eqn:E4; [|done];
  destruct (parse_field 65535 p) eqn:E5; [|done]. cbn in E. destruct ok; [|done].
  injection E as <-. apply parse_field_range in E1, E2, E3, E4, E5.
  split; [|done]. repeat constructor; simpl; lia.
Qed.

(** The characters of an IPv4 text. *)
Definition chars4 : list ascii := DOT :: COLON :: dec_digits.

Lemma format4_chars a : Forall (fun c => c ∈ chars4) (format4 a).
Proof.
  assert (Hd : forall n, Forall (fun c => c ∈ chars4) (decimal n)).
  { intros n. eapply Forall_impl; [|apply decimal_digits]. intros c Hc. by do 2 right. }
  unfold format4. simpl.
  repeat first [apply Forall_app_2|apply Forall_cons_2|apply Hd|by left|by right; left].
Qed.

Lemma chars4_clean c s : c ∈ chars4 -> clean spaces (c :: s) /\
  clean (map (@rev ascii) spaces) (c :: s) /\ c <> NL.
Proof.
  intros Hc. destruct spaces_nonempty as [N1 N2].
  assert (Forall (fun c => Forall (fun w => head w <> Some c) spaces /\
    Forall (fun w => head w <> Some c) (map (@rev ascii) spaces) /\ c <> NL) chars4) as H.
  { apply (bool_decide_unpack _). vm_compute. exact I. }
  destruct (Forall_elem _ _ _ H Hc) as (H1 & H2 & H3). split_and!; [| |done].
  - intros [|d w] t Hw E; [done|]. apply (Forall_elem _ _ _ H1 Hw). simpl in *. congruence.
  - intros [|d w] t Hw E; [done|]. apply (Forall_elem _ _ _ H2 Hw). simpl in *. congruence.
Qed.

Lemma format4_nonempty a : format4 a <> [].
Proof.
  unfold format4. simpl. intros E. apply app_eq_nil in E as [_ E]. discriminate.
Qed.

Lemma format4_trimmed a : format4 a <> [] /\ trimmed (format4 a).
Proof.
  split; [apply format4_nonempty|]. pose proof (format4_chars a) as H. split.
  - pose proof (format4_nonempty a). destruct (format4 a) as [|c s]; [done|].
    apply Forall_cons_1 in H as [Hc _]. by apply (chars4_clean c s).
  - apply Forall_rev in H. pose proof (format4_nonempty a) as Hn.
    destruct (rev (format4 a)) as [|c s] eqn:E.
    { apply (f_equal (@rev ascii)) in E. by rewrite rev_involutive in E. }
    apply Forall_cons_1 in H as [Hc _]. by apply (chars4_clean c s).
Qed.

Lemma format4_newline a : NL ∉ format4 a.
Proof.
  intros H. apply (Forall_elem _ _ _ (format4_chars a)) in H.
  by apply (chars4_clean NL []) in H as (_ & _ & ?).
Qed.

#[export] Instance netip4 : NetIP := {|
  AddrPort := addr4;
  ParseAddrPort := parse4;
  AddrPort_String := format4;
  addr_valid := valid4;
  parse_format := parse4_format;
  parse_valid := parse4_valid;
  parse_newline := fun s a _ _ => format4_newline a;
  format_trimmed := fun a _ => format4_trimmed a
|}.
