(* ===== verification/Addr.v ===== *)
(** Endpoint addresses and tickets: [addr.go].

    Everything is stated for any implementation of [NetIP].  Decoding first asks
    the library to parse the id ([ParseEndpointID]) and then reads the lines,
    which is a pure function ([decode_lines]). *)
From S2P Require Import Prelude GoErrors Prog Abi Contract Pump Calls GoStrings Keys Netip.
Local Open Scope Z_scope.
Local Open Scope go_scope.

Section Addr.
Context {netip : NetIP}.

(** ** Addresses *)

(** [src/addr.go:17-32 EndpointAddr] *)
Record EndpointAddr := mkAddr {
  ID : EndpointID;
  RelayURL : bytes;
  DirectAddrs : list AddrPort;
  extra : list bytes
}.

(** [EndpointAddr{}] *)
Definition zero_addr : EndpointAddr := mkAddr (zero_bytes EndpointIDSize) [] [] [].

(** [src/addr.go:35-37 AddrOf] *)
Definition AddrOf (id : EndpointID) : EndpointAddr := mkAddr id [] [] [].

(** [src/addr.go:40-43 EndpointAddr.WithDirectAddrs] *)
Definition WithDirectAddrs (a : EndpointAddr) (addrs : list AddrPort) : EndpointAddr :=
  mkAddr (ID a) (RelayURL a) (DirectAddrs a ++ addrs) (extra a).

(** [src/addr.go:46-49 EndpointAddr.WithRelayURL] *)
Definition WithRelayURL (a : EndpointAddr) (url : bytes) : EndpointAddr :=
  mkAddr (ID a) url (DirectAddrs a) (extra a).

(** [src/addr.go:53-55 EndpointAddr.IsEmpty] *)
Definition IsEmpty (a : EndpointAddr) : bool :=
  bool_decide (RelayURL a = []) && (length (DirectAddrs a) =? 0)%nat && (length (extra a) =? 0)%nat.

(** [src/addr.go:59-75 EndpointAddr.encode] *)
Definition encode (a : EndpointAddr) : bytes :=
  let b := EndpointID_String (ID a) in
  let b := if decide (RelayURL a = []) then b else b ++ NL :: $"relay " ++ RelayURL a in
  let b := foldl (fun b addr => b ++ NL :: $"ip " ++ AddrPort_String addr) b (DirectAddrs a) in
  foldl (fun b line => b ++ NL :: line) b (extra a).

(** [src/addr.go:88-110 decodeAddr] One line after the first. *)
Definition decode_line (addr : EndpointAddr) (line : bytes) : EndpointAddr + gerror :=
  let line := TrimSpace line in
  if decide (line = []) then inl addr
  else
    let '(kind, rest, ok) := Cut line SP in
    if negb ok then inr (errKind KindInvalidInput "malformed address line %q" [MQuote line])
    else if decide (kind = $"relay" /\ RelayURL addr = []) then
      inl (mkAddr (ID addr) rest (DirectAddrs addr) (extra addr))
    else if decide (kind = $"ip") then
      match ParseAddrPort rest with
      | inr err => inr (errKind KindInvalidInput "bad direct address %q: %v" [MQuote rest; MBytes err])
      | inl ap => inl (mkAddr (ID addr) (RelayURL addr) (DirectAddrs addr ++ [ap]) (extra addr))
      end
    else inl (mkAddr (ID addr) (RelayURL addr) (DirectAddrs addr) (extra addr ++ [line])).

Fixpoint decode_lines (addr : EndpointAddr) (lines : list bytes) : EndpointAddr + gerror :=
  match lines with
  | [] => inl addr
  | line :: lines =>
      match decode_line addr line with
      | inl addr' => decode_lines addr' lines
      | inr err => inr err
      end
  end.

(** What [decodeAddr] returns once the id is parsed. *)
Definition decode_rest (id : EndpointID) (lines : list bytes) : EndpointAddr * error :=
  match decode_lines (AddrOf id) lines with
  | inl addr => (addr, None)
  | inr err => (zero_addr, Some err)
  end.

(** [src/addr.go:77-112 decodeAddr] *)
Definition decodeAddr (text : bytes) : go (EndpointAddr * error) :=
  let lines := Split (TrimSpace text) NL in
  match lines with
  | [] | [] :: _ =>
      Ret (zero_addr, Some (errKind KindInvalidInput "endpoint address is empty" []))
  | line0 :: lines =>
      '(id, err) ← ParseEndpointID (TrimSpace line0);
      match err with
      | Some e => Ret (zero_addr, Some e)
      | None => Ret (decode_rest id lines)
      end
  end.

(** [src/addr.go:117-123 EndpointAddr.Validate] *)
Definition Validate (a : EndpointAddr) : go (EndpointAddr * error) :=
  '(text, err) ← AddrNormalize (encode a);
  match err with Some e => Ret (zero_addr, Some e) | None => decodeAddr text end.

(** [src/addr.go:127-127 EndpointAddr.String] *)
Definition EndpointAddr_String (a : EndpointAddr) : bytes := encode a.

(** ** Tickets *)

(** [src/addr.go:141-141 Ticket] *)
Definition Ticket : Type := bytes.

(** [src/addr.go:131-137 EndpointAddr.Ticket] *)
Definition EndpointAddr_Ticket (a : EndpointAddr) : go (Ticket * error) :=
  '(s, err) ← TicketEncode (encode a);
  match err with Some e => Ret ([], Some e) | None => Ret (s, None) end.

(** [src/addr.go:153-159 Ticket.Addr] *)
Definition Ticket_Addr (t : Ticket) : go (EndpointAddr * error) :=
  '(text, err) ← TicketDecode t;
  match err with Some e => Ret (zero_addr, Some e) | None => decodeAddr text end.

(** [src/addr.go:144-150 ParseTicket] *)
Definition ParseTicket (s : bytes) : go (Ticket * error) :=
  let t := TrimSpace s in
  '(_, err) ← Ticket_Addr t;
  match err with Some e => Ret ([], Some e) | None => Ret (t, None) end.

(** [src/addr.go:161-161 Ticket.String] *)
Definition Ticket_String (t : Ticket) : bytes := t.

(** ** Well-formed addresses *)

(** A text that can stand at the end of a line: no newline in it, and no space
    at its end. *)
Definition line_end (s : bytes) : Prop :=
  (NL ∉ s) /\ clean (map (@rev ascii) spaces) (rev s).

(** A line kept verbatim: trimmed, with a kind of its own (a further relay needs
    a first one). *)
Definition extra_line (url : bytes) (line : bytes) : Prop :=
  line <> [] /\ trimmed line /\ (NL ∉ line) /\
  exists kind rest, Cut line SP = (kind, rest, true) /\ kind <> $"ip" /\
    (kind = $"relay" -> url <> []).

Definition well_formed (a : EndpointAddr) : Prop :=
  length (ID a) = EndpointIDSize /\ line_end (RelayURL a) /\
  Forall (fun ap => addr_valid ap /\ NL ∉ AddrPort_String ap) (DirectAddrs a) /\
  Forall (extra_line (RelayURL a)) (extra a).

(** ** Lemmas: encoding *)

Definition relay_lines (a : EndpointAddr) : list bytes :=
  if decide (RelayURL a = []) then [] else [$"relay " ++ RelayURL a].
Definition ip_lines (a : EndpointAddr) : list bytes :=
  map (fun ap => $"ip " ++ AddrPort_String ap) (DirectAddrs a).
Definition lines_of (a : EndpointAddr) : list bytes := relay_lines a ++ ip_lines a ++ extra a.

Lemma foldl_lines {A} (f : A -> bytes) (l : list A) b :
  foldl (fun b x => b ++ NL :: f x) b l = b ++ flat_map (fun w => NL :: w) (map f l).
Proof.
  revert b. induction l as [|x l IH]; intros b; simpl; [by rewrite app_nil_r|].
  rewrite IH. by rewrite <-!app_assoc.
Qed.

Lemma join_cons w ws : join NL (w :: ws) = w ++ flat_map (fun w => NL :: w) ws.
Proof.
  revert w. induction ws as [|v ws IH]; intros w; [by rewrite app_nil_r|].
  change (join NL (w :: v :: ws)) with (w ++ NL :: join NL (v :: ws)). by rewrite IH.
Qed.

Lemma encode_lines a : encode a = join NL (EndpointID_String (ID a) :: lines_of a).
Proof.
  unfold encode, lines_of, relay_lines, ip_lines. rewrite join_cons.
  rewrite (foldl_lines id (extra a)), map_id.
  rewrite (foldl_lines (fun ap => $"ip " ++ AddrPort_String ap)).
  rewrite !flat_map_app. case_decide; simpl; by rewrite <-?app_assoc.
Qed.

Lemma clean_back_nil : clean (map (@rev ascii) spaces) [].
Proof. destruct spaces_nonempty as [_ N]. intros [|c w] t Hw; done. Qed.

(** A line made of a keyword, a space and a text that can end a line. *)
Lemma keyword_line k s :
  k <> [] -> clean spaces (k ++ SP :: s) -> (NL ∉ k ++ [SP]) -> line_end s -> s <> [] ->
  trimmed (k ++ SP :: s) /\ NL ∉ k ++ SP :: s.
Proof.
  intros Hk Hc Hnl [Hs Hb] Hne. split; [split; [done|]|].
  - by apply clean_last_piece; [apply breaks_SP|..].
  - rewrite elem_of_app, elem_of_cons in *. set_solver.
Qed.

Lemma relay_trimmed url : line_end url -> url <> [] ->
  trimmed ($"relay " ++ url) /\ NL ∉ $"relay " ++ url.
Proof.
  intros Hl Hne. apply (keyword_line $"relay" url); try done.
  - intros w t Hw E. assert (Forall (fun w => head w <> Some (ch 114)) spaces) as Hf
      by (apply (bool_decide_unpack _); vm_compute; exact I).
    destruct w as [|c w]; [by apply spaces_nonempty in Hw|].
    apply (Forall_elem _ _ _ Hf Hw). simpl in *. by injection E as <- _.
  - apply (bool_decide_unpack _); vm_compute; exact I.
Qed.

Lemma ip_trimmed ap : addr_valid ap -> NL ∉ AddrPort_String ap ->
  trimmed ($"ip " ++ AddrPort_String ap) /\ NL ∉ $"ip " ++ AddrPort_String ap.
Proof.
  intros Hv Hnl. destruct (format_trimmed ap Hv) as [Hne [_ Hb]].
  apply (keyword_line $"ip" (AddrPort_String ap)); try done.
  - intros w t Hw E. assert (Forall (fun w => head w <> Some (ch 105)) spaces) as Hf
      by (apply (bool_decide_unpack _); vm_compute; exact I).
    destruct w as [|c w]; [by apply spaces_nonempty in Hw|].
    apply (Forall_elem _ _ _ Hf Hw). simpl in *. by injection E as <- _.
  - apply (bool_decide_unpack _); vm_compute; exact I.
Qed.

(** Every line of a well-formed address is a line. *)
Lemma lines_trimmed a : well_formed a ->
  Forall (fun l => l <> [] /\ trimmed l /\ NL ∉ l) (lines_of a).
Proof.
  intros (_ & Hu & Hd & He). unfold lines_of. repeat apply Forall_app_2.
  - unfold relay_lines. case_decide as E; [constructor|]. constructor; [|constructor].
    destruct (relay_trimmed _ Hu E). by split_and!.
  - unfold ip_lines. apply Forall_map. eapply Forall_impl; [|exact Hd].
    intros ap [Hv Hn]. destruct (ip_trimmed ap Hv Hn). by split_and!.
  - eapply Forall_impl; [|exact He]. intros l (? & ? & ? & _). by split_and!.
Qed.

(** The text of an address has nothing to trim. *)
Lemma join_back w ws :
  clean (map (@rev ascii) spaces) (rev w) ->
  Forall (fun l => l <> [] /\ trimmed l /\ NL ∉ l) ws ->
  clean (map (@rev ascii) spaces) (rev (join NL (w :: ws))).
Proof.
  revert w. induction ws as [|v ws IH]; intros w Hw Hf; [done|].
  apply Forall_cons_1 in Hf as [(Hne & [_ Hb] & Hnl) Hf].
  change (join NL (w :: v :: ws)) with (w ++ NL :: join NL (v :: ws)).
  apply clean_last_piece; [apply breaks_NL| |by apply IH].
  destruct ws; simpl; [done|]. intros E. by apply app_eq_nil in E as [_ ?].
Qed.

(** The text of a key and of lines. *)
Lemma join_trimmed k ws : length k = EndpointIDSize ->
  Forall (fun l => l <> [] /\ trimmed l /\ NL ∉ l) ws -> trimmed (join NL (hex_encode k :: ws)).
Proof.
  intros Hid Hl. destruct (hex_trimmed k) as [Hf Hb]. split; [|by apply join_back].
  rewrite join_cons.
  pose proof (hex_encode_digits k) as Hd. pose proof (hex_encode_length k) as Hlen.
  destruct (hex_encode k) as [|c s]; [rewrite Hid in Hlen; discriminate|].
  apply Forall_cons_1 in Hd as [Hc _]. destruct (digits_not_spaces c Hc) as (? & _ & _).
  by apply digit_clean; [| |apply spaces_nonempty].
Qed.

Lemma encode_trimmed a : well_formed a -> trimmed (encode a).
Proof.
  intros Hw. rewrite encode_lines. apply join_trimmed; [apply Hw|by apply lines_trimmed].
Qed.

(** ** Lemmas: decoding *)

Lemma decode_relay_line id url :
  line_end url -> url <> [] ->
  decode_line (AddrOf id) ($"relay " ++ url) = inl (mkAddr id url [] []).
Proof.
  intros Hu Hne. destruct (relay_trimmed _ Hu Hne) as [Ht _]. unfold decode_line.
  rewrite TrimSpace_id by done. rewrite decide_False by done.
  change ($"relay " ++ url) with ($"relay" ++ SP :: url).
  rewrite Cut_found by (apply (bool_decide_unpack _); vm_compute; exact I). simpl negb. cbv iota.
  by rewrite decide_True.
Qed.

Lemma decode_ip_line addr ap :
  addr_valid ap -> NL ∉ AddrPort_String ap ->
  decode_line addr ($"ip " ++ AddrPort_String ap) =
    inl (mkAddr (ID addr) (RelayURL addr) (DirectAddrs addr ++ [ap]) (extra addr)).
Proof.
  intros Hv Hnl. destruct (ip_trimmed _ Hv Hnl) as [Ht _]. unfold decode_line.
  rewrite TrimSpace_id by done. rewrite decide_False by done.
  change ($"ip " ++ AddrPort_String ap) with ($"ip" ++ SP :: AddrPort_String ap).
  rewrite Cut_found by (apply (bool_decide_unpack _); vm_compute; exact I). simpl negb. cbv iota.
  rewrite decide_False by (by intros [? _]). rewrite decide_True by done.
  by rewrite parse_format.
Qed.

Lemma decode_extra_line addr line :
  extra_line (RelayURL addr) line ->
  decode_line addr line =
    inl (mkAddr (ID addr) (RelayURL addr) (DirectAddrs addr) (extra addr ++ [line])).
Proof.
  intros (Hne & Ht & _ & kind & rest & Hc & Hip & Hrelay). unfold decode_line.
  rewrite TrimSpace_id by done. rewrite decide_False by done. rewrite Hc. simpl negb. cbv iota.
  rewrite decide_False by naive_solver. by rewrite decide_False.
Qed.

Lemma decode_lines_app addr l1 l2 addr' :
  decode_lines addr l1 = inl addr' -> decode_lines addr (l1 ++ l2) = decode_lines addr' l2.
Proof.
  revert addr. induction l1 as [|line l1 IH]; simpl; intros addr; [by intros [= ->]|].
  destruct (decode_line addr line); [apply IH|done].
Qed.

Lemma decode_ip_lines addr l :
  Forall (fun ap => addr_valid ap /\ NL ∉ AddrPort_String ap) l ->
  decode_lines addr (map (fun ap => $"ip " ++ AddrPort_String ap) l) =
    inl (mkAddr (ID addr) (RelayURL addr) (DirectAddrs addr ++ l) (extra addr)).
Proof.
  revert addr. induction l as [|ap l IH]; intros addr Hl.
  - simpl. rewrite app_nil_r. by destruct addr.
  - apply Forall_cons_1 in Hl as [[Hv Hn] Hl]. cbn [map decode_lines].
    rewrite decode_ip_line by done. rewrite IH by done. simpl. by rewrite <-app_assoc.
Qed.

Lemma decode_extra_lines addr l :
  Forall (extra_line (RelayURL addr)) l ->
  decode_lines addr l = inl (mkAddr (ID addr) (RelayURL addr) (DirectAddrs addr) (extra addr ++ l)).
Proof.
  revert addr. induction l as [|line l IH]; intros addr Hl.
  - simpl. rewrite app_nil_r. by destruct addr.
  - apply Forall_cons_1 in Hl as [Hline Hl]. cbn [decode_lines].
    rewrite decode_extra_line by done. rewrite IH by done. simpl. by rewrite <-app_assoc.
Qed.

Lemma decode_lines_of a id : well_formed a ->
  decode_lines (AddrOf id) (lines_of a) = inl (mkAddr id (RelayURL a) (DirectAddrs a) (extra a)).
Proof.
  intros (_ & Hu & Hd & He). unfold lines_of.
  assert (Hr : decode_lines (AddrOf id) (relay_lines a) = inl (mkAddr id (RelayURL a) [] [])).
  { unfold relay_lines. case_decide as E; [by rewrite E|]. cbn [decode_lines].
    by rewrite decode_relay_line. }
  rewrite (decode_lines_app _ _ _ _ Hr).
  rewrite (decode_lines_app _ _ _ _ (decode_ip_lines _ _ Hd)). simpl.
  by rewrite decode_extra_lines.
Qed.

Lemma line_end_suffix p s : line_end (p ++ s) -> line_end s.
Proof.
  intros [Hn Hc]. split; [rewrite elem_of_app in Hn; naive_solver|].
  rewrite rev_app_distr in Hc. by eapply clean_prefix.
Qed.

(** What a line adds to a well-formed address leaves it well-formed. *)
Lemma decode_line_well_formed addr line addr' :
  well_formed addr -> NL ∉ line -> decode_line addr line = inl addr' -> well_formed addr'.
Proof.
  intros (Hid & Hu & Hd & He) Hnl H. unfold decode_line in H.
  assert (Hnl' : NL ∉ TrimSpace line) by (intros Hin; by apply Hnl, TrimSpace_elem).
  pose proof (TrimSpace_trimmed line) as Ht. set (l := TrimSpace line) in *.
  case_decide as E; [by injection H as <-|].
  destruct (Cut l SP) as [[kind rest] ok] eqn:Hc. destruct ok; [|done]. simpl in H.
  pose proof (Cut_spec _ _ _ _ Hc) as [El Hk].
  assert (Hrest : line_end rest).
  { apply (line_end_suffix (kind ++ [SP])). rewrite <-app_assoc. simpl. rewrite <-El.
    split; [done|apply Ht]. }
  case_decide as E1; [|case_decide as E2].
  - destruct E1 as [_ E1]. injection H as <-. split_and!; try done; simpl; try apply Hrest.
    eapply Forall_impl; [|exact He]. intros l' (? & ? & ? & k & r & ? & ? & Hr). split_and!; try done.
    exists k, r. split_and!; try done. intros Hk'. by apply Hr in Hk'.
  - destruct (ParseAddrPort rest) as [ap|err] eqn:Hp; [|done]. injection H as <-.
    split; [done|]. split; [done|]. split; [|done]. apply Forall_app_2; [done|].
    constructor; [|constructor]. split; [by eapply parse_valid|].
    eapply parse_newline; [exact Hp|apply Hrest].
  - injection H as <-. split; [done|]. split; [done|]. split; [done|]. apply Forall_app_2; [done|].
    constructor; [|constructor]. split; [done|]. split; [done|]. split; [done|].
    exists kind, rest. split; [done|]. split; [done|]. simpl. naive_solver.
Qed.

Lemma decode_lines_well_formed lines : forall addr addr',
  well_formed addr -> Forall (fun l => NL ∉ l) lines ->
  decode_lines addr lines = inl addr' -> well_formed addr'.
Proof.
  induction lines as [|line lines IH]; intros addr addr' Hw Hl H; simpl in H; [by injection H as <-|].
  apply Forall_cons_1 in Hl as [Hline Hl].
  destruct (decode_line addr line) as [addr1|] eqn:E; [|done].
  eapply IH; [|exact Hl|exact H]. by eapply decode_line_well_formed.
Qed.

Lemma AddrOf_well_formed id : length id = EndpointIDSize -> well_formed (AddrOf id).
Proof.
  intros Hid. split; [done|]. split; [|split; constructor].
  split; [apply not_elem_of_nil|apply clean_back_nil].
Qed.

Lemma Split_Forall s sep : Forall (fun l => sep ∉ l) (Split s sep).
Proof. apply list.Forall_forall. intros w. apply Split_pieces. Qed.

Lemma decodeAddr_spec s text :
  wp s (decodeAddr text) (fun '(a, err) s' => steady s s' /\
    match err with None => well_formed a | Some _ => a = zero_addr end).
Proof.
  unfold decodeAddr. pose proof (Split_Forall (TrimSpace text) NL) as Hs.
  destruct (Split (TrimSpace text) NL) as [|[|c l0] lines]; [by split; [left|]|by split; [left|]|].
  apply Forall_cons_1 in Hs as [_ Hs].
  eapply wp_call; [apply ParseEndpointID_spec|].
  intros [id [e|]] s' (Hq & Hlen); simpl; [done|]. unfold decode_rest.
  destruct (decode_lines (AddrOf id) lines) as [a|e] eqn:E; simpl; [|done].
  split; [done|]. eapply decode_lines_well_formed; [by apply AddrOf_well_formed|exact Hs|exact E].
Qed.

Lemma Ticket_Addr_spec s t :
  wp s (Ticket_Addr t) (fun '(a, err) s' => steady s s' /\
    match err with None => well_formed a | Some _ => a = zero_addr end).
Proof.
  eapply wp_call; [by apply textCall_steady|]. intros [text [e|]] s1 H1; [done|].
  eapply wp_mono; [apply decodeAddr_spec|]. intros [a err] s2 [H2 Ha].
  split; [by eapply steady_trans|done].
Qed.

(** ** Properties *)

(** C17. Addresses round-trip: decoding the text of a well-formed address asks
    the library to parse exactly the id that was written, and then returns the
    address unchanged (every direct address, the relay, and the lines of kinds
    this type does not model, in order) around the id it parsed.  Nothing of an
    address is dropped, reordered or merged by a trip through its text. *)
Theorem encode_decode_roundtrip a :
  well_formed a ->
  decodeAddr (encode a) =
    ('(id, err) ← ParseEndpointID (EndpointID_String (ID a));
     match err with
     | Some e => Ret (zero_addr, Some e)
     | None => Ret (decode_rest id (lines_of a))
     end) /\
  (forall id, decode_rest id (lines_of a) =
     (mkAddr id (RelayURL a) (DirectAddrs a) (extra a), None)).
Proof.
  intros Hw. split; [|intros id; unfold decode_rest; by rewrite decode_lines_of].
  unfold decodeAddr. rewrite (TrimSpace_id (encode a)) by by apply encode_trimmed.
  rewrite encode_lines, Split_join.
  - pose proof (hex_encode_length (ID a)) as Hlen. rewrite (proj1 Hw) in Hlen.
    unfold EndpointID_String. rewrite (TrimSpace_id (hex_encode (ID a))) by apply hex_trimmed.
    by destruct (hex_encode (ID a)) as [|c l].
  - constructor; [apply hex_no_newline|]. eapply Forall_impl; [|by apply lines_trimmed].
    by intros l (_ & _ & ?).
Qed.

(** C18. Whatever text it is given, [decodeAddr] returns either an error with the
    zero address or an address that encodes faithfully: a successful decode is
    well-formed, so the round trip applies to it and a second encode and decode
    give the same address.  It leaves nothing behind in the library. *)
Theorem decode_gives_encodable s text :
  wp s (decodeAddr text) (fun '(a, err) s' => steady s s' /\
    match err with
    | None => well_formed a /\ forall id, decode_lines (AddrOf id) (lines_of a) =
                inl (mkAddr id (RelayURL a) (DirectAddrs a) (extra a))
    | Some _ => a = zero_addr
    end).
Proof.
  eapply wp_mono; [apply decodeAddr_spec|]. intros [a [e|]] s' [Hq H]; split; try done.
  split; [done|]. intros id. by apply decode_lines_of.
Qed.

End Addr.

(** ** Witnesses *)

(** An address with everything in it. *)
Definition an_address : EndpointAddr :=
  mkAddr (replicate 32 (ch 171)) $"https://relay.example/" [mkAddr4 192 0 2 7 443; mkAddr4 10 0 0 1 0]
    [$"relay https://second.example/"; $"custom 7_abc"].

Lemma an_address_well_formed : well_formed an_address.
Proof.
  assert (Hc : forall ws s, bool_decide (Forall (fun w => strip w s = None) ws) = true -> clean ws s).
  { intros ws s H w t Hw E. apply bool_decide_eq_true in H. apply (Forall_elem _ _ _ H) in Hw.
    assert (strip w s = Some t) by by apply strip_spec. congruence. }
  assert (Hn : forall s : bytes, bool_decide (NL ∉ s) = true -> NL ∉ s).
  { intros s H. by apply bool_decide_eq_true in H. }
  split; [reflexivity|]. split; [split; [apply Hn|apply Hc]; vm_compute; reflexivity|]. split.
  - repeat constructor; try (simpl; lia); apply Hn; vm_compute; reflexivity.
  - repeat apply Forall_cons_2; try apply Forall_nil_2;
      (split; [discriminate|]; split; [split; apply Hc; vm_compute; reflexivity|];
       split; [apply Hn; vm_compute; reflexivity|]).
    + exists $"relay", $"https://second.example/". split; [reflexivity|]. split; [discriminate|discriminate].
    + exists $"custom", $"7_abc". split; [reflexivity|]. split; discriminate.
Qed.

Example encode_decode_roundtrip_witness :
  decode_rest (ID an_address) (lines_of an_address) = (an_address, None).
Proof. exact (proj2 (encode_decode_roundtrip an_address an_address_well_formed) (ID an_address)). Defined.

(** Why the hypothesis: a relay url that holds a newline adds lines. *)
Example relay_newline_adds_lines :
  decode_lines (AddrOf (ID an_address))
    (lines_of (WithRelayURL (AddrOf (ID an_address)) ($"https://r/" ++ NL :: $"ip 10.0.0.1:1"))) =
    inl (mkAddr (ID an_address) ($"https://r/" ++ NL :: $"ip 10.0.0.1:1") [] []) /\
  decode_lines (AddrOf (ID an_address))
    (tail (Split (encode (WithRelayURL (AddrOf (ID an_address))
       ($"https://r/" ++ NL :: $"ip 10.0.0.1:1"))) NL)) =
    inl (mkAddr (ID an_address) $"https://r/" [mkAddr4 10 0 0 1 1] []).
Proof. split; reflexivity. Qed.
