(* ===== verification/RustAddr.v ===== *)
(** The address text of the native library: [addr.rs], the other end of the
    lines [Addr.encode] writes and [Addr.decodeAddr] reads.

    Keys, relay urls, socket addresses and the set of transports an address is
    made of belong to the iroh crates and are the class [Iroh]; its laws are
    that parsing undoes printing.  A Rust panic is [None]. *)
From S2P Require Import Prelude GoErrors Prog Abi Contract Pump Calls GoStrings Keys Netip Addr Registry.
Local Open Scope Z_scope.
Local Open Scope go_scope.

(** ** The iroh crates *)

(** [TransportAddr]; [TOther] is a variant this library does not know. *)
Inductive transport (U S : Type) : Type :=
| TRelay (url : U)
| TIp (sock : S)
| TCustom (id : Z) (data : bytes)
| TOther.
Arguments TRelay {U S} url. Arguments TIp {U S} sock. Arguments TCustom {U S} id data. Arguments TOther {U S}.

Class Iroh := {
  RelayUrl : Type;
  SocketAddr : Type;
  (** [PublicKey::from_str] and [PublicKey::from_bytes]: the key, or what the
      error displays. *)
  parse_key : bytes -> bytes + bytes;
  key_bytes : bytes -> bytes + bytes;
  show_key : bytes -> bytes;
  parse_url : bytes -> RelayUrl + bytes;
  show_url : RelayUrl -> bytes;
  parse_sock : bytes -> SocketAddr + bytes;
  show_sock : SocketAddr -> bytes;
  (** The addresses of [EndpointAddr::from_parts], which keeps a set. *)
  as_set : list (transport RelayUrl SocketAddr) -> list (transport RelayUrl SocketAddr);
  (** The Debug form of a [str]. *)
  debug : bytes -> bytes
}.

Section RustAddr.
Context {iroh : Iroh}.

(** [EndpointAddr] of the iroh crate. *)
Record raddr := mkRAddr { r_id : bytes; r_addrs : list (transport RelayUrl SocketAddr) }.
Definition from_parts (id : bytes) (l : list (transport RelayUrl SocketAddr)) : raddr := mkRAddr id (as_set l).

(** ** Rust's strings *)

Definition CR : ascii := ch 13.

(** A carriage return right before a line feed belongs to it. *)
Definition chomp (line : bytes) : bytes :=
  match rev line with c :: l => if decide (c = CR) then rev l else line | [] => [] end.

(** [str::lines]: the last piece is a line only when it is not empty, and its
    carriage return is its own. *)
Fixpoint rust_lines (pieces : list bytes) : list bytes :=
  match pieces with
  | [] => []
  | [last] => if decide (last = []) then [] else [last]
  | line :: pieces => chomp line :: rust_lines pieces
  end.
Definition lines (s : bytes) : list bytes := rust_lines (Split s NL).

(** What a [ParseIntError] displays. *)
Definition EmptyInt : bytes := $"cannot parse integer from empty string".
Definition InvalidDigit : bytes := $"invalid digit found in string".
Definition PosOverflow : bytes := $"number too large to fit in target type".

(** [str::parse::<u64>]: digit by digit, so the first thing wrong is reported. *)
Fixpoint u64_digits (s : bytes) (acc : Z) : Z + bytes :=
  match s with
  | [] => inl acc
  | c :: s' =>
      match digit_val c with
      | None => inr InvalidDigit
      | Some d => if 10 * acc + d <? two64 then u64_digits s' (10 * acc + d) else inr PosOverflow
      end
  end.
Definition parse_u64 (s : bytes) : Z + bytes :=
  match s with
  | [] => inr EmptyInt
  | c :: s' =>
      if decide (c = ch 43) then match s' with [] => inr InvalidDigit | _ => u64_digits s' 0 end
      else u64_digits s 0
  end.

(** A digit of [u8::from_str_radix(_, 16)]. *)
Definition hex_val (c : ascii) : option Z :=
  let n := Z.of_nat (nat_of_ascii c) in
  if (48 <=? n) && (n <=? 57) then Some (n - 48)
  else if (97 <=? n) && (n <=? 102) then Some (n - 87)
  else if (65 <=? n) && (n <=? 70) then Some (n - 55)
  else None.

(** [u8::from_str_radix(_, 16)] of two characters: a sign may stand for the
    first.  All that can go wrong with two is an [InvalidDigit]. *)
Definition from_hex2 (a b : ascii) : option ascii :=
  match (if decide (a = ch 43) then Some 0 else hex_val a), hex_val b with
  | Some x, Some y => Some (ch (Z.to_nat (16 * x + y)))
  | _, _ => None
  end.

(** A byte at which a [str] may be cut: it does not continue a character. *)
Definition boundary (c : ascii) : bool :=
  let n := Z.of_nat (nat_of_ascii c) in (n <? 128) || (192 <=? n).

(** ** addr.rs *)

(** [src/rust/irohgo-ffi/src/addr.rs:98-104 hex] *)
Definition hex (data : bytes) : bytes := hex_encode data.

(** [src/rust/irohgo-ffi/src/addr.rs:106-117 unhex] The loop. [&s[i..i + 2]]
    panics when either end is inside a character. *)
Fixpoint unhex_pairs (s : bytes) : option (result bytes) :=
  match s with
  | [] => Some (inl [])
  | [_] => None
  | a :: b :: s' =>
      if negb (boundary a && match s' with c :: _ => boundary c | [] => true end) then None
      else
        match from_hex2 a b with
        | None => Some (inr (invalid ($"bad hex payload: " ++ InvalidDigit)))
        | Some c => r ← unhex_pairs s'; Some (match r with inl d => inl (c :: d) | inr e => inr e end)
        end
  end.

(** [src/rust/irohgo-ffi/src/addr.rs:106-117 unhex] *)
Definition unhex (s : bytes) : option (result bytes) :=
  if negb (Nat.even (length s)) then Some (inr (invalid $"hex payload has odd length"))
  else unhex_pairs s.

(** [src/rust/irohgo-ffi/src/addr.rs:27-50 encode_addr] One transport. *)
Definition transport_line (t : transport RelayUrl SocketAddr) : bytes :=
  match t with
  | TRelay url => NL :: $"relay " ++ show_url url
  | TIp sock => NL :: $"ip " ++ show_sock sock
  | TCustom id data => NL :: $"custom " ++ decimal id ++ SP :: hex data
  | TOther => []
  end.

(** [src/rust/irohgo-ffi/src/addr.rs:25-52 encode_addr] *)
Definition encode_addr (a : raddr) : bytes :=
  foldl (fun out t => out ++ transport_line t) (show_key (r_id a)) (r_addrs a).

(** [src/rust/irohgo-ffi/src/addr.rs:66-93 decode_addr] The [match kind]. *)
Definition decode_transport (kind rest : bytes) : option (result (transport RelayUrl SocketAddr)) :=
  if decide (kind = $"relay") then
    Some (match parse_url rest with inl u => inl (TRelay u) | inr e => inr (mkError ERelay e) end)
  else if decide (kind = $"ip") then
    Some (match parse_sock rest with
          | inl a => inl (TIp a)
          | inr e => inr (invalid ($"bad socket address " ++ debug rest ++ $": " ++ e))
          end)
  else if decide (kind = $"custom") then
    let '(id, data, ok) := Cut rest SP in
    if negb ok then Some (inr (invalid $"custom address needs an id and payload"))
    else
      match parse_u64 id with
      | inr e => Some (inr (invalid ($"bad custom address id: " ++ e)))
      | inl id =>
          r ← unhex data;
          Some (match r with inl d => inl (TCustom id d) | inr e => inr e end)
      end
  else Some (inr (invalid ($"unknown address kind " ++ debug kind))).

(** [src/rust/irohgo-ffi/src/addr.rs:65-94 decode_addr] The loop over the lines
    after the first. *)
Fixpoint decode_transports (l : list bytes) : option (result (list (transport RelayUrl SocketAddr))) :=
  match l with
  | [] => Some (inl [])
  | line :: l =>
      let line := TrimSpace line in
      if decide (line = []) then decode_transports l
      else
        let '(kind, rest, ok) := Cut line SP in
        if negb ok then Some (inr (invalid ($"malformed address line: " ++ debug line)))
        else
          r ← decode_transport kind rest;
          match r with
          | inr e => Some (inr e)
          | inl t =>
              ts ← decode_transports l;
              Some (match ts with inl ts => inl (t :: ts) | inr e => inr e end)
          end
  end.

(** [src/rust/irohgo-ffi/src/addr.rs:54-96 decode_addr] *)
Definition decode_addr (text : bytes) : option (result raddr) :=
  match lines text with
  | [] => Some (inr (invalid $"endpoint address is empty"))
  | id_line :: l =>
      match parse_key (TrimSpace id_line) with
      | inr e => Some (inr (mkError EKeyParsing e))
      | inl id =>
          ts ← decode_transports l;
          Some (match ts with inl ts => inl (from_parts id ts) | inr e => inr e end)
      end
  end.

(** ** Both sides *)

(** The documented behaviour of the crates: parsing undoes printing, a key
    prints as hex, and what is printed fits on a line; a set is determined by
    its elements. *)
Class IrohLaws : Prop := {
  key_law : forall k, key_bytes k = inl k ->
    length k = EndpointIDSize /\ show_key k = hex_encode k /\ parse_key (hex_encode k) = inl k;
  url_law : forall u, parse_url (show_url u) = inl u /\ show_url u <> [] /\ line_end (show_url u);
  sock_law : forall a, parse_sock (show_sock a) = inl a /\ show_sock a <> [] /\ line_end (show_sock a);
  set_law : forall l l', (forall t, t ∈ l <-> t ∈ l') -> as_set l = as_set l';
  set_elements : forall l t, t ∈ as_set l <-> t ∈ l
}.

(** Socket addresses as Go holds them. *)
Class SameSockets {netip : NetIP} : Type := {
  go_sock : SocketAddr -> AddrPort;
  go_sock_law : forall a, AddrPort_String (go_sock a) = show_sock a /\ addr_valid (go_sock a)
}.

(** A transport both sides know, with an id that fits its field and a payload
    that shows. *)
Definition known (t : transport RelayUrl SocketAddr) : Prop :=
  match t with TCustom id data => 0 <= id < two64 /\ data <> [] | TOther => False | _ => True end.

Definition tline (t : transport RelayUrl SocketAddr) : bytes := tail (transport_line t).

(** How Go holds what it reads. *)
Definition go_step `{!NetIP, !SameSockets} (a : EndpointAddr) (t : transport RelayUrl SocketAddr) : EndpointAddr :=
  match t with
  | TRelay u =>
      if decide (RelayURL a = []) then mkAddr (ID a) (show_url u) (DirectAddrs a) (extra a)
      else mkAddr (ID a) (RelayURL a) (DirectAddrs a) (extra a ++ [tline t])
  | TIp s => mkAddr (ID a) (RelayURL a) (DirectAddrs a ++ [go_sock s]) (extra a)
  | TCustom _ _ => mkAddr (ID a) (RelayURL a) (DirectAddrs a) (extra a ++ [tline t])
  | TOther => a
  end.
Definition go_view `{!NetIP, !SameSockets} (r : raddr) : EndpointAddr :=
  foldl go_step (AddrOf (r_id r)) (r_addrs r).

(** ** Lemmas: Rust's strings *)

Lemma u64_digits_parse s : forall acc n, 0 <= acc -> parse_digits s acc = Some n -> n < two64 ->
  acc <= n /\ u64_digits s acc = inl n.
Proof.
  induction s as [|c s IH]; intros acc n Ha H Hn; cbn [parse_digits u64_digits] in *; [by simplify_eq|].
  destruct (digit_val c) as [d|] eqn:Ed; [|done]. cbn in H. pose proof (digit_val_range c d Ed) as Hd.
  destruct (IH (10 * acc + d) n ltac:(lia) H Hn) as [Hle ->]. split; [lia|].
  by rewrite (proj2 (Z.ltb_lt _ _)) by lia.
Qed.

Lemma parse_u64_decimal n : 0 <= n < two64 -> parse_u64 (decimal n) = inl n.
Proof.
  intros Hn. destruct (u64_digits_parse (decimal n) 0 n ltac:(lia) (parse_decimal n Hn) ltac:(lia)) as [_ Hp].
  unfold parse_u64. pose proof (decimal_nonempty n) as Hne. pose proof (decimal_digits n) as Hd.
  destruct (decimal n) as [|c s]; [done|]. apply Forall_cons_1 in Hd as [Hc _].
  assert (c <> ch 43) as H1.
  { assert (Forall (fun c => c <> ch 43) dec_digits) as H
      by (apply (bool_decide_unpack _); vm_compute; exact I).
    by apply (Forall_elem _ _ _ H). }
  by rewrite decide_False by done.
Qed.

Lemma hex_digit_facts n : (n < 16)%nat ->
  hex_val (hex_digit n) = Some (Z.of_nat n) /\ hex_digit n <> ch 43 /\ boundary (hex_digit n) = true.
Proof.
  intros Hn. do 16 (destruct n as [|n]; [by vm_compute|]). exfalso. lia.
Qed.

Lemma from_hex2_digits c :
  from_hex2 (hex_digit (nat_of_ascii c / 16)) (hex_digit (nat_of_ascii c mod 16)) = Some c /\
  boundary (hex_digit (nat_of_ascii c / 16)) = true.
Proof.
  pose proof (nat_ascii_bounded c) as Bc.
  destruct (hex_digit_facts (nat_of_ascii c / 16)) as (V1 & P1 & B1).
  { apply Nat.Div0.div_lt_upper_bound. lia. }
  destruct (hex_digit_facts (nat_of_ascii c mod 16)) as (V2 & P2 & B2).
  { apply Nat.mod_upper_bound. lia. }
  split; [|exact B1]. unfold from_hex2. rewrite decide_False by done. rewrite V1, V2. f_equal.
  transitivity (ch (nat_of_ascii c)); [|apply ascii_nat_embedding]. f_equal.
  pose proof (Nat.div_mod_eq (nat_of_ascii c) 16). lia.
Qed.

Lemma unhex_hex d : unhex (hex d) = Some (inl d).
Proof.
  unfold unhex, hex. rewrite hex_encode_length.
  replace (Nat.even (2 * length d)) with true by (symmetry; apply Nat.even_mul).
  cbn [negb]. induction d as [|c d IH]; [done|].
  change (hex_encode (c :: d)) with
    (hex_digit (nat_of_ascii c / 16) :: hex_digit (nat_of_ascii c mod 16) :: hex_encode d).
  destruct (from_hex2_digits c) as [Hc B1].
  cbn [unhex_pairs]. rewrite B1. cbn [andb].
  replace (match hex_encode d with c :: _ => boundary c | [] => true end) with true.
  2:{ destruct d as [|c' d]; [done|]. symmetry. apply from_hex2_digits. }
  cbn [negb]. rewrite Hc, IH. done.
Qed.

Lemma chomp_trimmed line : trimmed line -> chomp line = line.
Proof.
  intros [_ Hb]. unfold chomp. destruct (rev line) as [|c l] eqn:El.
  { apply (f_equal (@rev ascii)) in El. by rewrite rev_involutive in El. }
  case_decide as E; [|done]. subst. exfalso.
  apply (Hb [CR] l); [|done]. apply (rev_space [CR]).
  apply (bool_decide_unpack _). vm_compute. exact I.
Qed.

Lemma lines_join w ws :
  Forall (fun l => l <> [] /\ trimmed l /\ NL ∉ l) (w :: ws) -> lines (join NL (w :: ws)) = w :: ws.
Proof.
  intros Hf. unfold lines. rewrite Split_join by (eapply Forall_impl; [|exact Hf]; naive_solver).
  revert w Hf. induction ws as [|w' ws IH]; intros w Hf.
  - apply Forall_cons_1 in Hf as [[Hne _] _]. cbn. by rewrite decide_False.
  - apply Forall_cons_1 in Hf as [(_ & Ht & _) Hf].
    change (rust_lines (w :: w' :: ws)) with (chomp w :: rust_lines (w' :: ws)).
    by rewrite chomp_trimmed, IH.
Qed.

(** A text that begins with a byte no space begins with. *)
Lemma clean_head c s : Forall (fun w => head w <> Some c) spaces -> clean spaces (c :: s).
Proof.
  intros Hf w t Hw E. destruct w as [|d w]; [by apply spaces_nonempty in Hw|].
  apply (Forall_elem _ _ _ Hf Hw). simpl in *. by injection E as <- _.
Qed.

(** ** Lemmas: reading lines *)

(** [line] is read as [t]. *)
Definition reads (line : bytes) (t : transport RelayUrl SocketAddr) : Prop :=
  (line <> [] /\ trimmed line /\ NL ∉ line) /\
  exists kind rest, Cut line SP = (kind, rest, true) /\ decode_transport kind rest = Some (inl t).

Lemma reads_all ls ts : Forall2 reads ls ts -> decode_transports ls = Some (inl ts).
Proof.
  induction 1 as [|line t ls ts [(Hne & Ht & _) (kind & rest & Hc & Hd)] _ IH]; [done|].
  cbn [decode_transports]. rewrite TrimSpace_id, decide_False by done. rewrite Hc. cbn [negb].
  rewrite Hd. cbn. by rewrite IH.
Qed.

Lemma custom_line_ok id data : 0 <= id < two64 ->
  let line := $"custom " ++ decimal id ++ SP :: hex data in
  Cut line SP = ($"custom", decimal id ++ SP :: hex data, true) /\
  (data <> [] -> trimmed line) /\ NL ∉ line.
Proof.
  intros Hid line.
  assert (Hsp : SP ∉ decimal id) by (apply decimal_without; apply (bool_decide_unpack _); vm_compute; exact I).
  split; [|split].
  - apply (Cut_found $"custom"). apply (bool_decide_unpack _). vm_compute. exact I.
  - intros Hne. split.
    + apply clean_head. apply (bool_decide_unpack _). vm_compute. exact I.
    + unfold line. rewrite app_assoc. apply clean_last_piece; [apply breaks_SP| |apply hex_trimmed].
      destruct data as [|c d]; [done|]. discriminate.
  - unfold line. rewrite elem_of_app, elem_of_app, elem_of_cons. intros [H|[H|[H|H]]].
    + revert H. apply (bool_decide_unpack _). vm_compute. exact I.
    + revert H. apply decimal_without. apply (bool_decide_unpack _). vm_compute. exact I.
    + done.
    + by apply hex_no_newline in H.
Qed.

Context {laws : IrohLaws}.

Lemma known_reads t : known t -> reads (tline t) t.
Proof.
  destruct t as [u|a|id data|]; cbn [known]; intros Hk; [| | |done].
  - destruct (url_law u) as (Hp & Hne & Hl). destruct (relay_trimmed _ Hl Hne) as [Ht Hn].
    change (tline (TRelay u)) with ($"relay " ++ show_url u). split; [by split_and!|].
    exists $"relay", (show_url u). split.
    + apply (Cut_found $"relay"). apply (bool_decide_unpack _). vm_compute. exact I.
    + unfold decode_transport. rewrite decide_True by done. by rewrite Hp.
  - destruct (sock_law a) as (Hp & Hne & Hl).
    destruct (keyword_line $"ip" (show_sock a)) as [Ht Hn]; try done.
    { apply clean_head. apply (bool_decide_unpack _). vm_compute. exact I. }
    { apply (bool_decide_unpack _). vm_compute. exact I. }
    change (tline (TIp a)) with ($"ip " ++ show_sock a). split; [by split_and!|].
    exists $"ip", (show_sock a). split.
    + apply (Cut_found $"ip"). apply (bool_decide_unpack _). vm_compute. exact I.
    + unfold decode_transport. rewrite decide_False, decide_True by done. by rewrite Hp.
  - destruct Hk as [Hid Hne]. destruct (custom_line_ok id data Hid) as (Hc & Ht & Hn).
    change (tline (TCustom id data)) with ($"custom " ++ decimal id ++ SP :: hex data).
    split; [by split_and!; [|apply Ht|]|].
    exists $"custom", (decimal id ++ SP :: hex data). split; [exact Hc|].
    unfold decode_transport. rewrite decide_False, decide_False, decide_True by done.
    rewrite Cut_found by (apply decimal_without; apply (bool_decide_unpack _); vm_compute; exact I).
    cbn [negb]. rewrite parse_u64_decimal by done. by rewrite unhex_hex.
Qed.

Lemma known_all_read ts : Forall known ts -> Forall2 reads (map tline ts) ts.
Proof. induction 1; simpl; constructor; auto using known_reads. Qed.

Lemma reads_lines ls ts : Forall2 reads ls ts -> Forall (fun l => l <> [] /\ trimmed l /\ NL ∉ l) ls.
Proof. induction 1 as [|l t ls ts [H _] _ IH]; by constructor. Qed.

(** A text made of a key and of lines that are read. *)
Lemma decode_addr_lines k ls ts : key_bytes k = inl k -> Forall2 reads ls ts ->
  decode_addr (join NL (hex_encode k :: ls)) = Some (inl (from_parts k ts)).
Proof.
  intros Hk Hr. destruct (key_law k Hk) as (Hlen & _ & Hp). unfold decode_addr.
  rewrite lines_join.
  - rewrite TrimSpace_id by apply hex_trimmed. rewrite Hp, (reads_all ls ts Hr). done.
  - constructor; [|by eapply reads_lines]. split; [|split; [apply hex_trimmed|apply hex_no_newline]].
    intros E. apply (f_equal length) in E. rewrite hex_encode_length, Hlen in E. done.
Qed.

Lemma encode_addr_lines r : Forall known (r_addrs r) ->
  encode_addr r = join NL (show_key (r_id r) :: map tline (r_addrs r)).
Proof.
  intros Hk. unfold encode_addr. rewrite join_cons. generalize (show_key (r_id r)) as out.
  induction Hk as [|t l Ht _ IH]; intros out; simpl; [by rewrite app_nil_r|].
  rewrite IH, <-app_assoc. f_equal. by destruct t.
Qed.

(** ** Lemmas: Go's view *)

Section Go.
Context `{!NetIP, !SameSockets}.

(** Go's address written out again: lines that are read as what it was made
    of, in Go's order. *)
Definition holds_all (l : list (transport RelayUrl SocketAddr)) (a : EndpointAddr) : Prop :=
  well_formed a /\ exists ts, Forall2 reads (lines_of a) ts /\ forall t, t ∈ ts <-> t ∈ l.

Lemma tline_cut t kind rest : known t -> Cut (tline t) SP = (kind, rest, true) ->
  match t with
  | TRelay u => kind = $"relay" /\ rest = show_url u
  | TIp s => kind = $"ip" /\ rest = show_sock s
  | _ => kind = $"custom"
  end.
Proof.
  intros Hk E.
  assert (Hsp : forall k (r : bytes), bool_decide (SP ∉ k) = true ->
    Cut (k ++ SP :: r) SP = (kind, rest, true) -> kind = k /\ rest = r).
  { intros k r Hb%bool_decide_eq_true Hc. rewrite Cut_found in Hc by done. by simplify_eq. }
  destruct t as [u|s|id data|]; [| | |done].
  - by apply (Hsp $"relay").
  - by apply (Hsp $"ip").
  - by apply (Hsp $"custom" (decimal id ++ SP :: hex data)) in E as [-> _].
Qed.

(** Go reads a line as its own [go_step]. *)
Lemma go_reads a t : known t -> decode_line a (tline t) = inl (go_step a t).
Proof.
  intros Hk. destruct (known_reads t Hk) as [(Hne & Ht & _) (kind & rest & Hc & _)].
  unfold decode_line. rewrite TrimSpace_id, decide_False by done. rewrite Hc. cbn [negb].
  pose proof (tline_cut t kind rest Hk Hc) as Hcut. destruct t as [u|s|id data|]; [| | |done].
  - destruct Hcut as [-> ->]. unfold go_step. case_decide as D.
    + by rewrite decide_True by apply D.
    + rewrite decide_False by done. rewrite decide_False; [done|naive_solver].
  - destruct Hcut as [-> ->]. rewrite decide_False by naive_solver. rewrite decide_True by done.
    destruct (go_sock_law s) as [<- Hv]. by rewrite parse_format.
  - subst kind. by rewrite !decide_False by naive_solver.
Qed.

Lemma go_reads_all l : forall a, Forall known l ->
  decode_lines a (map tline l) = inl (foldl go_step a l).
Proof.
  induction l as [|t l IH]; intros a Hk; [done|]. apply Forall_cons_1 in Hk as [Ht Hk].
  cbn [map decode_lines foldl]. by rewrite go_reads, IH.
Qed.

Lemma extra_line_tline a t : known t -> (match t with TIp _ => False | TRelay _ => RelayURL a <> [] | _ => True end) ->
  extra_line (RelayURL a) (tline t).
Proof.
  intros Hk Ha. destruct (known_reads t Hk) as [(Hne & Ht & Hn) (kind & rest & Hc & _)].
  split; [done|]. split; [done|]. split; [done|]. exists kind, rest. split; [done|].
  pose proof (tline_cut t kind rest Hk Hc) as Hcut.
  destruct t as [u|s|id data|]; [| |by subst|done]; [|done].
  destruct Hcut as [-> _]. by split.
Qed.

Lemma holds_step l a t : known t -> holds_all l a -> holds_all (l ++ [t]) (go_step a t).
Proof.
  intros Hk ((Hid & Hu & Hd & He) & ts & Hr & Hin).
  assert (Hends : forall a', lines_of a' = lines_of a ++ [tline t] -> well_formed a' -> holds_all (l ++ [t]) a').
  { intros a' El Hw. split; [exact Hw|]. exists (ts ++ [t]). split.
    - rewrite El. apply Forall2_app; [done|]. constructor; [by apply known_reads|constructor].
    - intros t'. rewrite !elem_of_app, Hin. done. }
  destruct t as [u|s|id data|]; [| | |done]; unfold go_step.
  - case_decide as D.
    + destruct (url_law u) as (Hp & Hne & Hl). split.
      * split_and!; try done. simpl. eapply Forall_impl; [|exact He].
        intros line (? & ? & ? & k & r & ? & ? & _). split_and!; try done. by exists k, r.
      * exists (TRelay u :: ts). split.
        -- unfold lines_of, relay_lines in *. simpl. rewrite decide_True in Hr by done.
           rewrite decide_False by done. constructor; [apply (known_reads (TRelay u) I)|exact Hr].
        -- intros t'. rewrite elem_of_cons, elem_of_app, list_elem_of_singleton, Hin. tauto.
    + apply Hends.
      * unfold lines_of, relay_lines, ip_lines. simpl. by rewrite <-!app_assoc.
      * split_and!; try done. simpl. apply Forall_app_2; [done|]. constructor; [|constructor].
        by apply (extra_line_tline a (TRelay u)).
  - destruct (go_sock_law s) as [Hs Hv]. destruct (sock_law s) as (_ & Hne & Hl). split.
    + split_and!; try done. simpl. apply Forall_app_2; [done|]. constructor; [|constructor].
      split; [done|]. rewrite Hs. apply Hl.
    + unfold lines_of in *. apply Forall2_app_inv_l in Hr as (t1 & t23 & H1 & H23 & ->).
      apply Forall2_app_inv_l in H23 as (t2 & t3 & H2 & H3 & ->).
      exists (t1 ++ (t2 ++ [TIp s]) ++ t3). split.
      * apply Forall2_app; [exact H1|]. apply Forall2_app; [|exact H3].
        unfold ip_lines. simpl. rewrite map_app. apply Forall2_app; [exact H2|].
        constructor; [|constructor]. rewrite Hs. apply (known_reads (TIp s) I).
      * intros t'. rewrite !elem_of_app, <-Hin, !elem_of_app. tauto.
  - apply Hends.
    + unfold lines_of, relay_lines, ip_lines. simpl. by rewrite <-!app_assoc.
    + split_and!; try done. simpl. apply Forall_app_2; [done|]. constructor; [|constructor].
      by apply (extra_line_tline a (TCustom id data)).
Qed.

Lemma holds_go_view k l : length k = EndpointIDSize -> Forall known l ->
  holds_all l (go_view (mkRAddr k l)).
Proof.
  intros Hlen Hk. unfold go_view. cbn [r_id r_addrs].
  assert (Hgen : forall l0 a, holds_all l0 a -> holds_all (l0 ++ l) (foldl go_step a l)).
  { induction Hk as [|t l Ht _ IH]; intros l0 a Ha; simpl; [by rewrite app_nil_r|].
    rewrite cons_middle, app_assoc. apply IH. by apply holds_step. }
  apply (Hgen []). split; [by apply AddrOf_well_formed|]. exists []. split; [constructor|done].
Qed.

End Go.

(** ** Properties *)

(** C19. Addresses survive the boundary between Go and the native library.  An
    address of the library (keys, relays, sockets, and custom transports with a
    payload) is read back by the library as it was written; Go reads the same
    text as the same parts, keeping further relays and custom transports as they
    are; and what Go writes of that address is read by the library as the very
    address it came from, whatever order Go's fields put the lines in. *)
Theorem addresses_survive_the_boundary `{!NetIP, !SameSockets} (k : bytes)
    (l : list (transport RelayUrl SocketAddr)) :
  key_bytes k = inl k -> Forall known l ->
  let r := from_parts k l in
  decode_addr (encode_addr r) = Some (inl r) /\
  (exists lines, Split (TrimSpace (encode_addr r)) NL = EndpointID_String k :: lines /\
     decode_rest k lines = (go_view r, None)) /\
  decode_addr (encode (go_view r)) = Some (inl r).
Proof.
  intros Hk Hl r. destruct (key_law k Hk) as (Hlen & Hshow & _).
  assert (Hkn : Forall known (r_addrs r)).
  { apply list.Forall_forall. intros t Ht. change (t ∈ as_set l) in Ht. rewrite set_elements in Ht.
    by apply (Forall_elem _ _ _ Hl). }
  assert (Henc : encode_addr r = join NL (hex_encode k :: map tline (r_addrs r))).
  { rewrite encode_addr_lines by done. by rewrite <-Hshow. }
  assert (Hset : forall ts, (forall t, t ∈ ts <-> t ∈ r_addrs r) -> from_parts k ts = r).
  { intros ts Hts. unfold r, from_parts. f_equal. apply set_law. intros t.
    rewrite Hts. apply set_elements. }
  pose proof (reads_lines _ _ (known_all_read _ Hkn)) as Hlines.
  split; [|split].
  - rewrite Henc, (decode_addr_lines k _ (r_addrs r) Hk) by by apply known_all_read.
    by rewrite Hset.
  - exists (map tline (r_addrs r)). split.
    + rewrite Henc, TrimSpace_id by by apply join_trimmed. apply Split_join.
      constructor; [apply hex_no_newline|]. eapply Forall_impl; [|exact Hlines]. naive_solver.
    + unfold decode_rest. by rewrite go_reads_all.
  - destruct (holds_go_view k (r_addrs r) Hlen Hkn) as (Hw & ts & Hts & Hin).
    rewrite encode_lines.
    assert (ID (go_view r) = k) as Eid.
    { unfold go_view, r. cbn [r_id r_addrs from_parts]. generalize (as_set l).
      assert (Hid : forall l a, ID (foldl go_step a l) = ID a).
      { induction l0 as [|t l0 IH]; intros a; [done|]. cbn [foldl]. rewrite IH.
        destruct t; try done. cbn [go_step]. by case_decide. }
      intros l0. apply Hid. }
    rewrite Eid. unfold EndpointID_String.
    rewrite (decode_addr_lines k (lines_of (go_view r)) ts Hk Hts). by rewrite Hset.
Qed.

End RustAddr.

(** ** Witness *)

(** A small iroh: one relay, two sockets, keys of any 32 bytes. *)
#[export] Instance transport_eq {U S} `{EqDecision U, EqDecision S} : EqDecision (transport U S).
Proof. solve_decision. Defined.
#[export] Instance transport_countable {U S} `{Countable U, Countable S} : Countable (transport U S).
Proof.
  refine (inj_countable'
    (fun t => match t with
       | TRelay u => inl (inl u) | TIp s => inl (inr s) | TCustom i d => inr (Some (i, d)) | TOther => inr None
       end)
    (fun t => match t with
       | inl (inl u) => TRelay u | inl (inr s) => TIp s | inr (Some (i, d)) => TCustom i d | inr None => TOther
       end) _).
  by intros [].
Defined.

Fixpoint hex_decode (s : bytes) : option bytes :=
  match s with
  | [] => Some []
  | a :: b :: s' => c ← from_hex2 a b; d ← hex_decode s'; Some (c :: d)
  | _ => None
  end.

Lemma hex_decode_encode d : hex_decode (hex_encode d) = Some d.
Proof.
  induction d as [|c d IH]; [done|].
  change (hex_encode (c :: d)) with
    (hex_digit (nat_of_ascii c / 16) :: hex_digit (nat_of_ascii c mod 16) :: hex_encode d).
  cbn [hex_decode]. destruct (from_hex2_digits c) as [-> _]. cbn. by rewrite IH.
Qed.

Definition small_sock (b : bool) : addr4 := if b then mkAddr4 127 0 0 1 4433 else mkAddr4 192 0 2 7 443.

Definition small_key (k : bytes) : bytes + bytes :=
  if decide (length k = EndpointIDSize) then inl k else inr $"key".

#[export] Instance small_iroh : Iroh := {|
  RelayUrl := unit;
  SocketAddr := bool;
  parse_key := fun s => match hex_decode s with Some k => small_key k | None => inr $"key" end;
  key_bytes := small_key;
  show_key := hex_encode;
  parse_url := fun s => if decide (s = $"https://relay.example/") then inl tt else inr $"url";
  show_url := fun _ => $"https://relay.example/";
  parse_sock := fun s =>
    if decide (s = format4 (small_sock true)) then inl true
    else if decide (s = format4 (small_sock false)) then inl false else inr $"address";
  show_sock := fun b => format4 (small_sock b);
  as_set := fun l => elements (list_to_set l : gset (transport unit bool));
  debug := fun s => s
|}.

Lemma closed_line_end s : bool_decide (NL ∉ s) = true ->
  bool_decide (Forall (fun w => strip w (rev s) = None) (map (@rev ascii) spaces)) = true -> line_end s.
Proof.
  intros Hn%bool_decide_eq_true Hf%bool_decide_eq_true. split; [exact Hn|].
  intros w t Hw E. apply (Forall_elem _ _ _ Hf) in Hw.
  assert (strip w (rev s) = Some t) by by apply strip_spec. congruence.
Qed.

Lemma small_iroh_laws : IrohLaws.
Proof.
  split.
  - intros k. cbn [key_bytes parse_key show_key small_iroh]. unfold small_key at 1.
    case_decide as E; [|done]. intros _. split; [exact E|]. split; [done|].
    rewrite hex_decode_encode. unfold small_key. by rewrite decide_True.
  - intros []. split; [reflexivity|]. split; [discriminate|]. by apply closed_line_end; vm_compute.
  - intros []; (split; [vm_compute; reflexivity|]; split; [discriminate|]; by apply closed_line_end; vm_compute).
  - intros l l' H. cbn [as_set small_iroh].
    apply (f_equal elements). apply set_eq. intros t. by rewrite !elem_of_list_to_set.
  - intros l t. cbn [as_set small_iroh]. by rewrite elem_of_elements, elem_of_list_to_set.
Qed.

#[export] Instance small_sockets : SameSockets.
Proof.
  refine {| go_sock := (small_sock : @SocketAddr small_iroh -> @AddrPort netip4) |}.
  intros []; (split; [reflexivity|]); (split; [repeat constructor; simpl; lia|simpl; lia]).
Defined.

Definition a_transports : list (transport (@RelayUrl small_iroh) (@SocketAddr small_iroh)) :=
  [TRelay tt; TIp true; TIp false; TCustom 7 (lit "payload")].

Example addresses_survive_the_boundary_witness :
  let r := from_parts (replicate 32 (ch 171)) a_transports in
  decode_addr (encode_addr r) = Some (inl r) /\ decode_addr (encode (go_view r)) = Some (inl r).
Proof.
  destruct (addresses_survive_the_boundary (laws := small_iroh_laws) (replicate 32 (ch 171)) a_transports)
    as (H1 & _ & H2); [reflexivity| |exact (conj H1 H2)].
  unfold a_transports. repeat constructor; discriminate.
Defined.

(** A payload has to show: the line of an empty one is trimmed to less than the
    library reads. *)
Lemma empty_payload_lost :
  match decode_addr (encode_addr (mkRAddr (replicate 32 (ch 171)) [TCustom 7 []])) with
  | Some (inr e) => e = invalid $"custom address needs an id and payload"
  | _ => False
  end.
Proof. vm_compute. reflexivity. Qed.

(** A payload that is not ASCII cuts a character in two: the library panics,
    and its caller gets a failure without an error. *)
Lemma payload_panics :
  match decode_addr (hex_encode (replicate 32 (ch 171)) ++ NL :: $"custom 7 a" ++ [ch 195; ch 169] ++ $"b") with
  | None => True
  | _ => False
  end.
Proof. vm_compute. exact I. Qed.
