(* ===== verification/Conn.v ===== *)
(** Connections: [conn.go].

    The text the library reports paths in is parsed by a pure function
    ([parse_path]); [render_path] is its counterpart in
    [rust/irohgo-ffi/src/conn.rs]. *)
From S2P Require Import Prelude GoErrors Prog Abi Contract Pump Calls Handle.
From S2P Require Import Deadline Streams GoStrings Keys.
Local Open Scope Z_scope.
Local Open Scope go_scope.

(** ** Types *)

(** [src/endpoint.go:93-96 Endpoint] *)
Record Endpoint := mkEndpoint { ep_obj : Z; ep_id : EndpointID }.

(** [src/conn.go:18-30 Conn] The cached [remote] is in the heap, behind
    [conn_obj], with the handle cell and the mutex. *)
Record Conn := mkConn { conn_obj : Z; conn_endpoint : Endpoint }.

(** [src/conn.go:32-37 newConn] *)
Definition newConn (h : Z) (endpoint : Endpoint) : go Conn :=
  o ← rt RNew;
  handle_set o h;;
  rt (RAddCleanup o (connFree h));;
  Ret (mkConn o endpoint).

(** [src/endpoint.go:173-173 Endpoint.ID] *)
Definition Endpoint_ID (e : Endpoint) : EndpointID := ep_id e.

(** [src/conn.go:40-40 Conn.LocalID] *)
Definition LocalID (c : Conn) : EndpointID := Endpoint_ID (conn_endpoint c).

(** ** Identity *)

(** [src/conn.go:50-62 Conn.RemoteID] Under the lock. *)
Definition remote_id_locked (c : Conn) : go (EndpointID * error) :=
  remote ← rt (RGetRemote (conn_obj c));
  if negb (IsZero remote) then Ret (remote, None)
  else
    with_handle (conn_obj c) (fun e => (zero_bytes EndpointIDSize, Some e)) (fun h =>
      '(id, err) ← ConnRemoteID h;
      match err with
      | Some e => Ret (zero_bytes EndpointIDSize, Some e)
      | None => rt (RSetRemote (conn_obj c) id);; Ret (id, None)
      end).

(** [src/conn.go:47-63 Conn.RemoteID] *)
Definition RemoteID (c : Conn) : go (EndpointID * error) :=
  with_lock (conn_obj c) (remote_id_locked c).

(** [src/conn.go:66-72 Conn.ALPN] *)
Definition ALPN (c : Conn) : go (bytes * error) :=
  with_handle (conn_obj c) (fun e => ([], Some e)) ConnALPN.

(** ** Streams *)

(** [return newSendStream(send, c), newRecvStream(recv, c), nil] *)
Definition new_bi (r : Z * Z * error) (c : Conn) : go (option (SendStream * RecvStream) * error) :=
  let '(send, recv, err) := r in
  match err with
  | Some e => Ret (None, Some e)
  | None =>
      s ← newSendStream send (conn_obj c);
      r ← newRecvStream recv (conn_obj c);
      Ret (Some (s, r), None)
  end.

(** [src/conn.go:77-87 Conn.OpenBi] *)
Definition OpenBi (c : Conn) (ctx : Z) : go (option (SendStream * RecvStream) * error) :=
  with_handle (conn_obj c) (fun e => (None, Some e)) (fun h =>
    r ← ConnOpenBi ctx h; new_bi r c).

(** [src/conn.go:90-100 Conn.AcceptBi] *)
Definition AcceptBi (c : Conn) (ctx : Z) : go (option (SendStream * RecvStream) * error) :=
  with_handle (conn_obj c) (fun e => (None, Some e)) (fun h =>
    r ← ConnAcceptBi ctx h; new_bi r c).

(** [src/conn.go:103-113 Conn.OpenUni] *)
Definition OpenUni (c : Conn) (ctx : Z) : go (option SendStream * error) :=
  with_handle (conn_obj c) (fun e => (None, Some e)) (fun h =>
    '(send, err) ← ConnOpenUni ctx h;
    match err with
    | Some e => Ret (None, Some e)
    | None => s ← newSendStream send (conn_obj c); Ret (Some s, None)
    end).

(** [src/conn.go:116-126 Conn.AcceptUni] *)
Definition AcceptUni (c : Conn) (ctx : Z) : go (option RecvStream * error) :=
  with_handle (conn_obj c) (fun e => (None, Some e)) (fun h =>
    '(recv, err) ← ConnAcceptUni ctx h;
    match err with
    | Some e => Ret (None, Some e)
    | None => r ← newRecvStream recv (conn_obj c); Ret (Some r, None)
    end).

(** ** Datagrams and counters *)

(** [src/conn.go:133-139 Conn.SendDatagram] *)
Definition SendDatagram (c : Conn) (data : bytes) : go error :=
  with_handle (conn_obj c) Some (fun h => ConnSendDatagram h data).

(** [src/conn.go:142-148 Conn.ReadDatagram] *)
Definition ReadDatagram (c : Conn) (ctx : Z) : go (bytes * error) :=
  with_handle (conn_obj c) (fun e => ([], Some e)) (fun h => ConnReadDatagram ctx h).

(** [src/conn.go:152-159 Conn.MaxDatagramSize] *)
Definition MaxDatagramSize (c : Conn) : go (Z * error) :=
  with_handle (conn_obj c) (fun e => (0, Some e)) (fun h =>
    '(n, err) ← ConnMaxDatagramSize h; Ret (to_int n, err)).

(** [src/conn.go:162-169 ConnStats] *)
Record ConnStats := mkStats {
  SentDatagrams : Z; SentBytes : Z;
  ReceivedDatagrams : Z; ReceivedBytes : Z;
  LostPackets : Z; LostBytes : Z
}.
Definition zero_stats : ConnStats := mkStats 0 0 0 0 0 0.

(** [src/conn.go:172-189 Conn.Stats] *)
Definition Stats (c : Conn) : go (ConnStats * error) :=
  with_handle (conn_obj c) (fun e => (zero_stats, Some e)) (fun h =>
    '(v, err) ← ffi_ConnStats h;
    match err with
    | Some e => Ret (zero_stats, Some e)
    | None =>
        let at_ i := nth i v 0 in
        Ret (mkStats (at_ 0%nat) (at_ 1%nat) (at_ 2%nat) (at_ 3%nat) (at_ 4%nat) (at_ 5%nat), None)
    end).

(** ** Paths *)

(** [src/conn.go:192-203 PathKind] *)
Definition PathKind : Type := bytes.
Definition PathIP : PathKind := $"ip".
Definition PathRelay : PathKind := $"relay".
Definition PathCustom : PathKind := $"custom".

(** [src/conn.go:206-216 Path] [RTT] is a [time.Duration], in nanoseconds. *)
Record Path := mkPath { Kind_ : PathKind; Selected : bool; Remote : bytes; RTT : Z }.

(** [src/conn.go:220-220 pathFields] *)
Definition pathFields : nat := 4.

(** [time.Duration(micros) * time.Microsecond] *)
Definition micros_duration (micros : Z) : Z := wrap_i64 (micros * 1000).

(** [src/conn.go:247-262 Conn.Paths] One line. *)
Definition parse_path (line : bytes) : Path + gerror :=
  match SplitN line TAB (pathFields - 1) with
  | [kind; selected; micros; remote] =>
      match ParseInt micros with
      | None => inr (errKind KindInternal "unparsable path rtt %q: %v" [MQuote micros; MText "ParseInt"])
      | Some micros =>
          inl (mkPath kind (bool_decide (selected = $"1")) remote (micros_duration micros))
      end
  | _ => inr (errKind KindInternal "unparsable path %q" [MQuote line])
  end.

(** The loop of the line parsers: [append] each value, return at the first
    error. *)
Fixpoint parse_lines {A} (parse : bytes -> A + gerror) (lines : list bytes) : list A + gerror :=
  match lines with
  | [] => inl []
  | line :: lines =>
      match parse line with
      | inr err => inr err
      | inl a => match parse_lines parse lines with inl l => inl (a :: l) | inr err => inr err end
      end
  end.

(** [if text == "" { return nil, nil }], the split, and the loop. *)
Definition parse_report {A} (parse : bytes -> A + gerror) (text : bytes) : list A * error :=
  if decide (text = []) then ([], None)
  else match parse_lines parse (Split text NL) with
       | inl l => (l, None)
       | inr err => ([], Some err)
       end.

(** [src/conn.go:233-264 Conn.Paths] *)
Definition Paths (c : Conn) : go (list Path * error) :=
  with_handle (conn_obj c) (fun e => ([], Some e)) (fun h =>
    '(text, err) ← ConnPaths h;
    match err with Some e => Ret ([], Some e) | None => Ret (parse_report parse_path text) end).

(** [src/rust/irohgo-ffi/src/conn.rs:226-250 iroh_conn_paths] What the library
    writes for a path: the round-trip time in microseconds. *)
Definition render_path (kind : bytes) (selected : bool) (micros : Z) (remote : bytes) : bytes :=
  kind ++ TAB :: (if selected then $"1" else $"0") ++ TAB :: decimal micros ++ TAB :: remote.

(** ** Closing *)

(** [src/conn.go:271-281 Conn.Wait] *)
Definition Wait (c : Conn) (ctx : Z) : go error :=
  with_handle (conn_obj c) Some (fun h =>
    '(reason, err) ← ConnClosed ctx h;
    match err with
    | Some e => Ret (Some e)
    | None => Ret (Some (IrohError KindConnection (MBytes reason)))
    end).

(** [src/conn.go:288-295 Conn.CloseWithError] *)
Definition CloseWithError (c : Conn) (code : Z) (reason : bytes) : go error :=
  h ← handle_take (conn_obj c);
  if h =? 0 then Ret None
  else err ← ConnClose h code reason; ConnFree h;; Ret err.

(** [src/conn.go:298-298 Conn.Close] *)
Definition Conn_Close (c : Conn) : go error := CloseWithError c 0 [].

(** ** Lemmas: new objects *)

(** [o] is a live Go object for library object [h], and was not one before. *)
Definition new_object (s s' : owned) (o h : Z) : Prop :=
  o_objs s !! o = None /\ o_objs s' !! o = Some h.

(** The objects that existed still stand for what they did. *)
Definition objects_kept (s s' : owned) : Prop :=
  forall o h, o_objs s !! o = Some h -> o_objs s' !! o = Some h.

(** A constructor hands the library object over to the collector. *)
Lemma new_object_spec {A} s h f (mk : Z -> A) :
  freed_handle f = h -> h ∈ o_handles s ->
  wp s (o ← rt RNew; handle_set o h;; rt (RAddCleanup o f);; Ret (mk o)) (fun a s' =>
    exists o, a = mk o /\ new_object s s' o h /\ objects_kept s s' /\ same_debts s s' /\
      o_handles s' = o_handles s ∖ {[h]} /\ o_loaded s' = o_loaded s).
Proof.
  intros Hf Hh. apply wp_bind, wp_trigger; [done|]. intros o s1 [Ho ->].
  apply wp_bind, wp_trigger; [done|]. intros [] s2 ->.
  apply wp_bind, wp_trigger; [simpl; by rewrite Hf|]. intros [] s3 ->.
  simpl. rewrite Hf. exists o. split; [done|]. split; [split; [done|apply lookup_insert_eq]|].
  split; [|by split_and!]. intros o' h' H. simpl.
  rewrite lookup_insert_ne; [done|]. intros <-. congruence.
Qed.

Lemma newSendStream_spec s h conn : h ∈ o_handles s ->
  wp s (newSendStream h conn) (fun st s' =>
    new_object s s' (send_obj st) h /\ objects_kept s s' /\ same_debts s s' /\
    o_handles s' = o_handles s ∖ {[h]} /\ o_loaded s' = o_loaded s).
Proof.
  intros Hh. eapply wp_mono; [by apply (new_object_spec s h (sendFree h) (fun o => mkSend o conn))|].
  by intros st s' (o & -> & H).
Qed.

Lemma newRecvStream_spec s h conn : h ∈ o_handles s ->
  wp s (newRecvStream h conn) (fun st s' =>
    new_object s s' (recv_obj st) h /\ objects_kept s s' /\ same_debts s s' /\
    o_handles s' = o_handles s ∖ {[h]} /\ o_loaded s' = o_loaded s).
Proof.
  intros Hh. eapply wp_mono; [by apply (new_object_spec s h (recvFree h) (fun o => mkRecv o conn))|].
  by intros st s' (o & -> & H).
Qed.

Lemma newConn_spec s h ep : h ∈ o_handles s ->
  wp s (newConn h ep) (fun c s' =>
    new_object s s' (conn_obj c) h /\ objects_kept s s' /\ same_debts s s' /\
    o_handles s' = o_handles s ∖ {[h]} /\ o_loaded s' = o_loaded s).
Proof.
  intros Hh. eapply wp_mono; [by apply (new_object_spec s h (connFree h) (fun o => mkConn o ep))|].
  by intros c s' (o & -> & H).
Qed.

Lemma waited_objs s ctx s' : waited s ctx s' -> o_objs s' = o_objs s.
Proof. by intros [->|(e & c & n & _ & ->)]. Qed.

(** A handle operation started under a live handle, and the object made of its
    result. *)
Lemma open_one_spec {A} s ctx f (mk : Z -> go A) (onerr : gerror -> option A * error) (obj : A -> Z) :
  o_loaded s = true -> start_pre s f -> kind_of f = KHandle -> base f s = s ->
  (forall e, onerr e = (None, Some e)) ->
  (forall s1 h, h ∈ o_handles s1 -> wp s1 (mk h) (fun a s' =>
     new_object s1 s' (obj a) h /\ objects_kept s1 s' /\ same_debts s1 s' /\
     o_handles s' = o_handles s1 ∖ {[h]} /\ o_loaded s' = o_loaded s1)) ->
  wp s ('(h, err) ← (op ← call (CStart f); AwaitHandle ctx op);
        match err with
        | Some e => Ret (onerr e)
        | None => a ← mk h; Ret (Some a, None)
        end) (fun '(r, err) s' => quiet s s' /\
    match err with
    | Some _ => r = None /\ o_objs s' = o_objs s
    | None => exists a h, r = Some a /\ h <> 0 /\ new_object s s' (obj a) h /\ objects_kept s s'
    end).
Proof.
  intros Hl Hp Hk Hb Herr Hmk. eapply wp_call; [by apply (start_handle s ctx f)|]. rewrite Hb.
  intros [h [e|]] s1.
  - intros [-> Hf]. rewrite Herr. simpl. pose proof (op_fails_waited _ _ _ _ Hf) as Hw.
    split; [by eapply quiet_waited|]. split; [done|by eapply waited_objs].
  - intros (s2 & Hw & Hh & Hf & ->). pose proof (quiet_waited _ _ _ Hw) as [Hd2 Ho2].
    pose proof (waited_objs _ _ _ Hw) as Hob.
    eapply wp_call; [apply Hmk; simpl; set_solver|].
    intros a s' ([Hn1 Hn2] & Hkept & Hd & Ho & _). simpl. split.
    + split; [by transitivity (add_handles [h] s2); [done|]|]. rewrite Ho. simpl. rewrite <-Ho2. set_solver.
    + exists a, h. split; [done|]. split; [lia|]. simpl in *. rewrite Hob in *.
      split; [done|]. intros o h' H. apply Hkept. simpl. congruence.
Qed.

Lemma new_bi_spec s a b err c : o_loaded s = true ->
  (err = None -> a <> 0 /\ b <> 0 /\ a <> b /\ a ∈ o_handles s /\ b ∈ o_handles s) ->
  wp s (new_bi (a, b, err) c) (fun '(r, err') s' => err' = err /\
    match err with
    | Some _ => r = None /\ s' = s
    | None => exists st rt, r = Some (st, rt) /\ new_object s s' (send_obj st) a /\
        new_object s s' (recv_obj rt) b /\ send_obj st <> recv_obj rt /\ objects_kept s s' /\
        same_debts s s' /\ o_handles s' = o_handles s ∖ {[a; b]}
    end).
Proof.
  intros Hl Hh. destruct err as [e|]; [done|].
  destruct (Hh eq_refl) as (Ha & Hb & Hab & Hina & Hinb).
  eapply wp_call; [by apply newSendStream_spec|].
  intros st s1 ([N1 N2] & K1 & D1 & O1 & L1).
  eapply wp_call; [apply newRecvStream_spec; rewrite O1; set_solver|].
  intros r s2 ([N3 N4] & K2 & D2 & O2 & L2). simpl. split; [done|]. exists st, r.
  assert (Hne : send_obj st <> recv_obj r) by congruence.
  split; [done|]. split; [split; [done|by apply K2]|].
  split; [split; [|done]; destruct (o_objs s !! recv_obj r) eqn:E; [apply K1 in E; congruence|done]|].
  split; [done|]. split; [intros o h H; by apply K2, K1|].
  split; [by transitivity s1|]. rewrite O2, O1. set_solver.
Qed.

Lemma open_bi_spec s ctx f c :
  o_loaded s = true -> start_pre s f -> kind_of f = KHandle2 -> base f s = s ->
  wp s (r ← (op ← call (CStart f); AwaitHandle2 ctx op); new_bi r c) (fun '(r, err) s' =>
    quiet s s' /\
    match err with
    | Some _ => r = None /\ o_objs s' = o_objs s
    | None => exists st rt a b, r = Some (st, rt) /\ a <> 0 /\ b <> 0 /\ a <> b /\
        new_object s s' (send_obj st) a /\ new_object s s' (recv_obj rt) b /\
        send_obj st <> recv_obj rt /\ objects_kept s s'
    end).
Proof.
  intros Hl Hp Hk Hb. eapply wp_call; [by apply (start_handle2 s ctx f)|]. rewrite Hb.
  intros [[a b] [e|]] s1.
  - intros (-> & -> & Hf). pose proof (op_fails_waited _ _ _ _ Hf) as Hw. simpl.
    split; [by eapply quiet_waited|]. split; [done|by eapply waited_objs].
  - intros (s2 & Hw & Ha & Hb' & Hab & Hfa & Hfb & ->).
    pose proof (quiet_waited _ _ _ Hw) as [Hd2 Ho2]. pose proof (waited_objs _ _ _ Hw) as Hob.
    eapply wp_mono.
    { apply (new_bi_spec (add_handles [a; b] s2) a b None c).
      - simpl. by rewrite (waited_loaded _ _ _ Hw).
      - intros _. simpl. split_and!; try lia; set_solver. }
    intros [r err'] s' (-> & st & rt & -> & [N1 N2] & [N3 N4] & Hne & K & D & O).
    simpl in N1, N3, O. rewrite Hob in N1, N3. split.
    + split; [by transitivity (add_handles [a; b] s2)|]. rewrite O, <-Ho2. set_solver.
    + exists st, rt, a, b. split; [done|]. split; [lia|]. split; [lia|]. split; [done|].
      split; [done|]. split; [done|]. split; [done|]. intros o h H. apply K. simpl. congruence.
Qed.

(** ** Lemmas: the other methods *)

Lemma quiet_refl s : quiet s s.
Proof. by split. Qed.

Lemma with_handle_quiet {A} s o (onerr : gerror -> A) (p : Z -> go A) :
  (forall h, h <> 0 -> wp s (p h) (fun _ s' => quiet s s')) ->
  wp s (with_handle o onerr p) (fun _ s' => quiet s s').
Proof. intros Hp. apply with_handle_spec; [apply quiet_refl|]. intros h Hh _. by apply Hp. Qed.

Lemma with_lock_quiet {A} s m (p : go A) :
  (m ∉ o_locks s) ->
  (forall l, wp (set_locks l s) p (fun _ s' => quiet (set_locks l s) s')) ->
  wp s (with_lock m p) (fun _ s' => quiet s s').
Proof.
  intros Hm Hp. apply with_lock_spec; [done|]. eapply wp_mono; [apply Hp|].
  intros a s' ((? & ? & ? & ? & Hl & ?) & Ho). by split_and!.
Qed.

Lemma remote_id_locked_quiet s c : o_loaded s = true ->
  wp s (remote_id_locked c) (fun _ s' => quiet s s').
Proof.
  intros Hl. apply wp_bind, wp_trigger; [done|]. intros remote s1 [_ ->].
  case_match; [by apply quiet_refl|]. apply with_handle_quiet. intros h Hh.
  eapply wp_call; [by apply (out_sync_spec s (connRemoteID h))|].
  intros [id [e|]] s1 (-> & _); [by apply quiet_refl|].
  apply wp_bind, wp_trigger; [done|]. intros [] s2 ->. by apply quiet_refl.
Qed.

(** The methods of a connection that make no Go object. *)
Inductive conn_method : Set :=
| MRemoteID | MALPN | MSendDatagram (data : bytes) | MReadDatagram | MMaxDatagramSize
| MStats | MPaths | MWait.

Definition method_error {A} (p : go (A * error)) : go error := '(_, err) ← p; Ret err.

Definition run_method (c : Conn) (ctx : Z) (m : conn_method) : go error :=
  match m with
  | MRemoteID => method_error (RemoteID c)
  | MALPN => method_error (ALPN c)
  | MSendDatagram data => SendDatagram c data
  | MReadDatagram => method_error (ReadDatagram c ctx)
  | MMaxDatagramSize => method_error (MaxDatagramSize c)
  | MStats => method_error (Stats c)
  | MPaths => method_error (Paths c)
  | MWait => Wait c ctx
  end.

(** A connection that was closed, as its methods see it: its handle is zero and
    nothing answers for the library. *)
Definition closed_conn_event (o : Z) : partial_handler goE bytes := fun X e remote =>
  match e in goE X return option (X * bytes) with
  | R e =>
      match e in rtE X return option (X * bytes) with
      | RLock _ | RUnlock _ => Some (tt, remote)
      | RGetRemote o' => if o' =? o then Some (remote, remote) else None
      | RLoadHandle o' => if o' =? o then Some (0, remote) else None
      | _ => None
      end
  | C _ => None
  end.

Lemma method_error_quiet {A} s (p : go (A * error)) :
  wp s p (fun _ s' => quiet s s') -> wp s (method_error p) (fun _ s' => quiet s s').
Proof. intros Hp. eapply wp_call; [exact Hp|]. by intros [a err] s' H. Qed.

Lemma run_method_quiet s c ctx m : o_loaded s = true -> (conn_obj c ∉ o_locks s) ->
  wp s (run_method c ctx m) (fun _ s' => quiet s s').
Proof.
  intros Hl Hlock. destruct m; cbn [run_method]; try apply method_error_quiet.
  - apply with_lock_quiet; [done|]. intros l. by apply remote_id_locked_quiet.
  - apply with_handle_quiet. intros h Hh. by apply text_sync_quiet.
  - apply with_handle_quiet. intros h Hh. by apply unit_sync_quiet.
  - apply with_handle_quiet. intros h Hh. by apply (bytes_op_quiet s ctx (connReadDatagram h)).
  - apply with_handle_quiet. intros h Hh. eapply wp_call; [by apply ConnMaxDatagramSize_spec|].
    intros [n err] s' [-> _]. apply quiet_refl.
  - apply with_handle_quiet. intros h Hh. eapply wp_call; [by apply ConnStats_spec|].
    intros [v [e|]] s' [-> _]; apply quiet_refl.
  - apply with_handle_quiet. intros h Hh. eapply wp_call; [by apply text_sync_quiet|].
    by intros [t [e|]] s' Hq.
  - apply with_handle_quiet. intros h Hh.
    eapply wp_call; [by apply (bytes_op_quiet s ctx (connClosed h))|]. by intros [t [e|]] s' Hq.
Qed.

(** ** Lemmas: paths *)

Lemma SplitN_cons w rest sep n : sep ∉ w -> SplitN (w ++ sep :: rest) sep (S n) = w :: SplitN rest sep n.
Proof. intros H. cbn [SplitN]. by rewrite Cut_found. Qed.

(** What the library renders, the method reads. *)
Lemma parse_render_path kind sel micros remote :
  (TAB ∉ kind) -> 0 <= micros < two63 ->
  parse_path (render_path kind sel micros remote) =
    inl (mkPath kind sel remote (micros_duration micros)).
Proof.
  intros Hk Hm. unfold parse_path, render_path. cbn [pathFields Nat.sub].
  rewrite SplitN_cons by done.
  assert (TAB ∉ (if sel then $"1" else $"0")).
  { destruct sel; apply (bool_decide_unpack _); vm_compute; exact I. }
  rewrite SplitN_cons by done.
  rewrite SplitN_cons by (apply decimal_without; apply (bool_decide_unpack _); vm_compute; exact I).
  cbn [SplitN]. rewrite ParseInt_decimal by done. by destruct sel.
Qed.

Lemma parse_lines_map {A B} (parse : bytes -> A + gerror) (render : B -> bytes) (f : B -> A) l :
  Forall (fun b => parse (render b) = inl (f b)) l ->
  parse_lines parse (map render l) = inl (map f l).
Proof. induction 1 as [|b l Hb _ IH]; [done|]. simpl. by rewrite Hb, IH. Qed.

Lemma micros_duration_exact micros :
  0 <= micros <= 9223372036854775 -> micros_duration micros = micros * 1000.
Proof. intros H. apply wrap_i64_id. unfold two63. lia. Qed.

(** ** Lemmas: closing *)

Lemma CloseWithError_spec s c code reason : o_loaded s = true ->
  wp s (CloseWithError c code reason) (fun err s' => s' = s /\ forall e, err = Some e -> is_iroh e).
Proof.
  intros Hl. eapply wp_call; [apply handle_take_spec|].
  intros h s1 [[-> ->]|(Hh & _ & Hf & ->)]; [done|].
  rewrite (proj2 (Z.eqb_neq h 0) Hh).
  eapply wp_call; [by apply (unit_sync_spec (add_handles [h] s) (connClose h code reason))|].
  intros err s2 [-> He]. apply wp_bind, wp_trigger; [simpl; split; [done|set_solver]|].
  intros [] s3 ->. simpl. split; [|done].
  assert (({[h]} ∪ ∅ ∪ o_handles s) ∖ {[h]} = o_handles s) as E by set_solver.
  unfold drop_handle, add_handles. simpl. rewrite E. by destruct s.
Qed.

(** ** The identity cache

    [RemoteID] against a live connection: the cell of the cached identity, and
    a library that answers the [n]-th lookup with [answer n]. *)
Section Cache.
Context (o h : Z) (answer : nat -> Z * bytes * (Z * bytes)).

Record cache := mkCache { cached : EndpointID; lookups : nat }.

Definition cache_event : partial_handler goE cache := fun X e w =>
  match e in goE X return option (X * cache) with
  | R e =>
      match e in rtE X return option (X * cache) with
      | RLock _ | RUnlock _ => Some (tt, w)
      | RGetRemote o' => if o' =? o then Some (cached w, w) else None
      | RSetRemote o' id => if o' =? o then Some (tt, mkCache id (lookups w)) else None
      | RLoadHandle o' => if o' =? o then Some (h, w) else None
      | _ => None
      end
  | C e =>
      match e in cE X return option (X * cache) with
      | COut (connRemoteID h') =>
          if h' =? h then
            let '(rc, id, _) := answer (lookups w) in
            Some ((rc, id, 1), mkCache (cached w) (S (lookups w)))
          else None
      | errorTake _ =>
          let '(_, _, (kind, msg)) := answer (pred (lookups w)) in
          Some ((kind, mkBuf 1 msg), w)
      | freeBytes _ _ => Some (tt, w)
      | _ => None
      end
  end.

(** [n] calls of [RemoteID], one after the other. *)
Fixpoint remote_ids (ep : Endpoint) (n : nat) (w : cache) : option (list (EndpointID * error) * cache) :=
  match n with
  | O => Some ([], w)
  | S n =>
      match prun cache_event (RemoteID (mkConn o ep)) w with
      | Some (r, w') =>
          match remote_ids ep n w' with Some (l, w'') => Some (r :: l, w'') | None => None end
      | None => None
      end
  end.

(** What a failed lookup returns. *)
Definition lookup_failed (n : nat) : EndpointID * error :=
  (zero_bytes EndpointIDSize, Some (NewError (answer n).2.1 (MBytes (answer n).2.2))).

Hypothesis Hh : h <> 0.

Lemma remote_id_cached ep w :
  IsZero (cached w) = false ->
  prun cache_event (RemoteID (mkConn o ep)) w = Some ((cached w, None), w).
Proof. intros Hz. simpl. rewrite Z.eqb_refl. simpl. by rewrite Hz. Qed.

Lemma remote_id_lookup ep w :
  IsZero (cached w) = true ->
  prun cache_event (RemoteID (mkConn o ep)) w =
    let n := lookups w in
    if (answer n).1.1 =? 0
    then Some (((answer n).1.2, None), mkCache (answer n).1.2 (S n))
    else Some (lookup_failed n, mkCache (cached w) (S n)).
Proof.
  intros Hz. unfold lookup_failed. simpl. rewrite !Z.eqb_refl. simpl. rewrite Hz. simpl.
  rewrite Z.eqb_refl. simpl. rewrite (proj2 (Z.eqb_neq h 0) Hh). simpl. rewrite Z.eqb_refl.
  destruct (answer (lookups w)) as [[rc id] [kind msg]] eqn:E. simpl.
  destruct (Z.eqb_spec rc 0) as [->|Hrc]; simpl.
  - by rewrite Z.eqb_refl.
  - unfold rcError. rewrite (proj2 (Z.eqb_neq rc 0) Hrc). simpl. rewrite E. simpl.
    unfold takeBytes, buf_len. simpl. by destruct msg as [|c msg].
Qed.

Lemma remote_ids_cached ep n w :
  IsZero (cached w) = false -> remote_ids ep n w = Some (replicate n (cached w, None), w).
Proof.
  intros Hz. induction n as [|n IH]; [done|]. cbn [remote_ids]. rewrite remote_id_cached by done.
  by rewrite IH.
Qed.

Lemma remote_ids_spec ep fails : forall later w,
  IsZero (cached w) = true ->
  (forall i, (i < fails)%nat -> (answer (lookups w + i)%nat).1.1 <> 0) ->
  (answer (lookups w + fails)%nat).1.1 = 0 ->
  IsZero (answer (lookups w + fails)%nat).1.2 = false ->
  let id := (answer (lookups w + fails)%nat).1.2 in
  remote_ids ep (fails + S later) w =
    Some (map (fun i => lookup_failed (lookups w + i)) (seq 0 fails) ++ replicate (S later) (id, None),
          mkCache id (S (lookups w + fails))).
Proof.
  induction fails as [|fails IH]; intros later w Hz Hf Hok Hid; cbn zeta.
  - rewrite Nat.add_0_r in *. cbn [Nat.add remote_ids]. rewrite remote_id_lookup by done. cbn zeta.
    rewrite Hok. cbn [Z.eqb]. rewrite remote_ids_cached by done. done.
  - cbn [Nat.add remote_ids]. rewrite remote_id_lookup by done. cbn zeta.
    rewrite (proj2 (Z.eqb_neq _ 0) (eq_ind _ (fun n => (answer n).1.1 <> 0) (Hf 0%nat ltac:(lia)) _ (Nat.add_0_r _))).
    rewrite IH; try done; cbn [lookups].
    + replace (S (lookups w) + fails)%nat with (lookups w + S fails)%nat by lia.
      f_equal. f_equal. cbn [seq map app]. rewrite Nat.add_0_r. f_equal. f_equal.
      rewrite <-seq_shift, map_map. apply map_ext. intros i. f_equal. lia.
    + intros i Hi. replace (S (lookups w) + i)%nat with (lookups w + S i)%nat by lia. apply Hf. lia.
    + by replace (S (lookups w) + fails)%nat with (lookups w + S fails)%nat by lia.
    + by replace (S (lookups w) + fails)%nat with (lookups w + S fails)%nat by lia.
Qed.

End Cache.

(** ** Properties *)

(** C23. Opening and accepting streams leaks nothing: each of the four methods
    either returns an error, with no stream made and nothing acquired, or
    returns stream objects that did not exist before, one for each library
    object it obtained (two different ones for a bidirectional stream), whose
    library objects are registered for release, so that the goroutine owes the
    library exactly what it owed before the call. *)
Theorem stream_constructors_leak_nothing (c : Conn) (s : owned) (ctx : Z) :
  o_loaded s = true ->
  (forall p, p = OpenBi c ctx \/ p = AcceptBi c ctx ->
     wp s p (fun '(r, err) s' => quiet s s' /\
       match err with
       | Some _ => r = None /\ o_objs s' = o_objs s
       | None => exists st rt a b, r = Some (st, rt) /\ a <> 0 /\ b <> 0 /\ a <> b /\
           new_object s s' (send_obj st) a /\ new_object s s' (recv_obj rt) b /\
           send_obj st <> recv_obj rt /\ objects_kept s s'
       end)) /\
  wp s (OpenUni c ctx) (fun '(r, err) s' => quiet s s' /\
    match err with
    | Some _ => r = None /\ o_objs s' = o_objs s
    | None => exists st h, r = Some st /\ h <> 0 /\ new_object s s' (send_obj st) h /\ objects_kept s s'
    end) /\
  wp s (AcceptUni c ctx) (fun '(r, err) s' => quiet s s' /\
    match err with
    | Some _ => r = None /\ o_objs s' = o_objs s
    | None => exists rt h, r = Some rt /\ h <> 0 /\ new_object s s' (recv_obj rt) h /\ objects_kept s s'
    end).
Proof.
  intros Hl. split; [|split].
  - intros p [-> | ->]; (apply with_handle_spec; [split; [apply quiet_refl|done]|]; intros h Hh _).
    + by apply (open_bi_spec s ctx (connOpenBi h)).
    + by apply (open_bi_spec s ctx (connAcceptBi h)).
  - apply with_handle_spec; [split; [apply quiet_refl|done]|]. intros h Hh _.
    apply (open_one_spec s ctx (connOpenUni h) (fun h => newSendStream h (conn_obj c))
             (fun e => (None, Some e)) send_obj); try done.
    intros s1 h' Hh'. by apply newSendStream_spec.
  - apply with_handle_spec; [split; [apply quiet_refl|done]|]. intros h Hh _.
    apply (open_one_spec s ctx (connAcceptUni h) (fun h => newRecvStream h (conn_obj c))
             (fun e => (None, Some e)) recv_obj); try done.
    intros s1 h' Hh'. by apply newRecvStream_spec.
Qed.

(** C34. The methods of a connection leave nothing behind, on every path and
    whatever the library answers; and on a connection that was closed each of
    them reports [ErrClosed] without a single call into the library, except
    [RemoteID], which still answers from its cache once it has one. *)
Theorem conn_methods_settle (c : Conn) (s : owned) (ctx : Z) (m : conn_method) :
  o_loaded s = true -> (conn_obj c ∉ o_locks s) ->
  wp s (run_method c ctx m) (fun _ s' => quiet s s') /\
  prun (closed_conn_event (conn_obj c)) (run_method c ctx m) (zero_bytes EndpointIDSize) =
    Some (Some (Sentinel ErrClosed), zero_bytes EndpointIDSize) /\
  (forall id, IsZero id = false ->
     prun (closed_conn_event (conn_obj c)) (RemoteID c) id = Some ((id, None), id)).
Proof.
  intros Hl Hlock. split; [by apply run_method_quiet|]. split.
  - destruct m; simpl; rewrite ?Z.eqb_refl; simpl; rewrite ?Z.eqb_refl; reflexivity.
  - intros id Hid. simpl. rewrite Z.eqb_refl. simpl. by rewrite Hid.
Qed.

(** The peer's identity is looked up until the library answers, and never
    after: over any number of [RemoteID] calls on a connection, each call before
    the first successful lookup makes one lookup and reports its failure, and
    all calls from then on return the same identity with no further call into
    the library. *)
Theorem remote_id_looked_up_once (o h : Z) (answer : nat -> Z * bytes * (Z * bytes))
    (ep : Endpoint) (fails later : nat) :
  h <> 0 ->
  (forall i, (i < fails)%nat -> (answer i).1.1 <> 0) ->
  (answer fails).1.1 = 0 -> IsZero (answer fails).1.2 = false ->
  let id := (answer fails).1.2 in
  remote_ids o h answer ep (fails + S later) (mkCache (zero_bytes EndpointIDSize) 0) =
    Some (map (lookup_failed answer) (seq 0 fails) ++ replicate (S later) (id, None),
          mkCache id (S fails)).
Proof.
  intros Hh Hf Hok Hid. by apply (remote_ids_spec o h answer Hh ep fails later (mkCache _ 0)).
Qed.

(** [Paths] reads back what the library reports: for any list of paths
    rendered one per line (kinds without separators, remotes without newlines
    but with any number of tabs), the report parses without error into the same
    paths in the same order, with each round-trip time converted exactly from
    microseconds as long as it fits a [time.Duration] (292 years); an empty
    report is no paths. *)
Theorem paths_roundtrip (l : list (bytes * bool * Z * bytes)) :
  Forall (fun '(kind, sel, micros, remote) =>
    (TAB ∉ kind) /\ (NL ∉ kind) /\ (NL ∉ remote) /\ 0 <= micros <= 9223372036854775) l ->
  parse_report parse_path
    (join NL (map (fun '(kind, sel, micros, remote) => render_path kind sel micros remote) l)) =
    (map (fun '(kind, sel, micros, remote) => mkPath kind sel remote (micros * 1000)) l, None).
Proof.
  intros Hl. unfold parse_report. destruct l as [|p l]; [done|].
  assert (Hlines : Forall (fun w => NL ∉ w)
    (map (fun '(kind, sel, micros, remote) => render_path kind sel micros remote) (p :: l))).
  { apply Forall_map. eapply Forall_impl; [|exact Hl].
    intros [[[kind sel] micros] remote] (_ & Hk & Hr & _). unfold render_path.
    assert (NL ∉ decimal micros) by
      (apply decimal_without; apply (bool_decide_unpack _); vm_compute; exact I).
    assert (NL ∉ (if sel then $"1" else $"0"))
      by (destruct sel; apply (bool_decide_unpack _); vm_compute; exact I).
    assert (NL <> TAB) by done. set_solver. }
  case_decide as E.
  { exfalso. destruct p as [[[kind sel] micros] remote]. cbn [map] in E.
    apply join_nil in E. unfold render_path in E. by destruct kind. }
  assert (Split (join NL (map (fun '(kind, sel, micros, remote) =>
    render_path kind sel micros remote) (p :: l))) NL = map (fun '(kind, sel, micros, remote) =>
    render_path kind sel micros remote) (p :: l)) as -> by exact (Split_join _ _ _ Hlines).
  rewrite (parse_lines_map parse_path _
    (fun '(kind, sel, micros, remote) => mkPath kind sel remote (micros * 1000))); [done|].
  eapply Forall_impl; [|exact Hl]. intros [[[kind sel] micros] remote] (Hk & _ & _ & Hm).
  rewrite parse_render_path; [by rewrite micros_duration_exact|done|unfold two63; lia].
Qed.

(** Closing a connection frees it once and leaves nothing behind: whichever
    of [Close] and [CloseWithError] takes the handle tells the library and
    frees the object, even when telling it fails, and reports only that
    failure; a second close does nothing. *)
Theorem conn_close_frees_once (c : Conn) (s : owned) (code : Z) (reason : bytes) :
  o_loaded s = true ->
  wp s (CloseWithError c code reason) (fun err s' => s' = s /\ forall e, err = Some e -> is_iroh e) /\
  Conn_Close c = CloseWithError c 0 [] /\
  cell_run (conn_obj c) (CloseWithError c code reason) 0 = Some (None, 0).
Proof.
  intros Hl. split; [by apply CloseWithError_spec|]. split; [done|].
  unfold cell_run. simpl. by rewrite Z.eqb_refl.
Qed.

(** ** Witnesses *)

Definition a_conn : Conn := mkConn 41 (mkEndpoint 40 (zero_bytes EndpointIDSize)).

(** A goroutine that uses it. *)
Definition a_user : owned :=
  mkOwned true ∅ ∅ ∅ ∅ ∅ ∅ ∅ ∅ (<[1 := CtxUser]> ∅) 0 ∅ ∅ {[41 := 8]}.

Example stream_constructors_leak_nothing_witness :
  wp a_user (OpenUni a_conn 1) (fun '(r, err) s' => quiet a_user s' /\
    match err with
    | Some _ => r = None /\ o_objs s' = o_objs a_user
    | None => exists st h, r = Some st /\ h <> 0 /\ new_object a_user s' (send_obj st) h /\
        objects_kept a_user s'
    end).
Proof. apply (stream_constructors_leak_nothing a_conn a_user 1). reflexivity. Defined.

Example conn_methods_settle_witness :
  prun (closed_conn_event 41) (run_method a_conn 1 MPaths) (zero_bytes EndpointIDSize) =
    Some (Some (Sentinel ErrClosed), zero_bytes EndpointIDSize).
Proof.
  apply (conn_methods_settle a_conn a_user 1 MPaths);
    [reflexivity|apply (bool_decide_unpack _); vm_compute; exact I].
Defined.

(** One failed lookup, then a successful one, over three calls. *)
Example remote_id_looked_up_once_witness :
  let answer := fun n : nat => if (n =? 0)%nat then (1, [], (7, $"lost")) else (0, [ch 9], (0, [])) in
  remote_ids 41 8 answer (mkEndpoint 40 []) 3 (mkCache (zero_bytes EndpointIDSize) 0) =
    Some ([(zero_bytes EndpointIDSize, Some (NewError 7 (MBytes $"lost"))); ([ch 9], None); ([ch 9], None)],
          mkCache [ch 9] 2).
Proof.
  apply (remote_id_looked_up_once 41 8
    (fun n : nat => if (n =? 0)%nat then (1, [], (7, $"lost")) else (0, [ch 9], (0, [])))
    (mkEndpoint 40 []) 1 1); [discriminate| |reflexivity|reflexivity].
  intros [|i] Hi; [discriminate|lia].
Defined.

Example paths_roundtrip_witness :
  parse_report parse_path
    (join NL [render_path PathIP true 1234 $"192.0.2.1:5"; render_path PathRelay false 7 ($"r" ++ TAB :: $"x")]) =
    ([mkPath PathIP true $"192.0.2.1:5" 1234000; mkPath PathRelay false ($"r" ++ TAB :: $"x") 7000], None).
Proof.
  apply (paths_roundtrip [(PathIP, true, 1234, $"192.0.2.1:5"); (PathRelay, false, 7, $"r" ++ TAB :: $"x")]).
  repeat apply Forall_cons_2; try apply Forall_nil_2;
    (split; [apply (bool_decide_unpack _); vm_compute; exact I|];
     split; [apply (bool_decide_unpack _); vm_compute; exact I|];
     split; [apply (bool_decide_unpack _); vm_compute; exact I|lia]).
Defined.

Example conn_close_frees_once_witness :
  wp a_user (CloseWithError a_conn 3 $"bye") (fun err s' => s' = a_user /\
    forall e, err = Some e -> is_iroh e).
Proof. apply (conn_close_frees_once a_conn a_user 3 $"bye"). reflexivity. Defined.
