(* ===== verification/Endpoint.v ===== *)
(** Endpoints: [endpoint.go].

    [Options] is built by the caller; [applyOptions] replays it on the library's
    options object.  Addresses are those of any [NetIP]. *)
From S2P Require Import Prelude GoErrors Prog Abi Contract Pump Calls Handle.
From S2P Require Import Deadline Streams GoStrings Keys Netip Addr Conn.
Local Open Scope Z_scope.
Local Open Scope go_scope.

(** ** Options *)

(** [src/endpoint.go:16-29 Preset] *)
Definition PresetN0 : Z := 0.
Definition PresetN0NoRelay : Z := 1.
Definition PresetMinimal : Z := 2.
Definition PresetEmpty : Z := 3.

(** [src/endpoint.go:31-44 Preset.ffi] *)
Definition Preset_ffi (p : Z) : Z * error :=
  if p =? PresetN0 then (ffi_PresetN0, None)
  else if p =? PresetN0NoRelay then (ffi_PresetN0DisableRelay, None)
  else if p =? PresetMinimal then (ffi_PresetMinimal, None)
  else if p =? PresetEmpty then (ffi_PresetEmpty, None)
  else (0, Some (errKind KindInvalidInput "unknown preset %d" [MInt p])).

(** [src/endpoint.go:48-61 RelayMode] *)
Definition RelayFromPreset : Z := 0.
Definition RelayDefault : Z := 1.
Definition RelayDisabled : Z := 2.
Definition RelayStaging : Z := 3.
Definition RelayCustom : Z := 4.

(** The switch of [applyOptions]. *)
Definition relay_mode (m : Z) : Z + gerror :=
  if m =? RelayDefault then inl ffi_RelayDefault
  else if m =? RelayDisabled then inl ffi_RelayDisabled
  else if m =? RelayStaging then inl ffi_RelayStaging
  else if m =? RelayCustom then inl ffi_RelayCustom
  else inr (errKind KindInvalidInput "unknown relay mode %d" [MInt m]).

(** [try_] and the methods below, for any [NetIP]. *)
Section Endpoint.
Context {netip : NetIP}.

(** [src/endpoint.go:65-86 Options] *)
Record Options := mkOptions {
  OptPreset : Z;
  OptSecretKey : option SecretKey;
  OptALPNs : list bytes;
  OptRelayMode : Z;
  OptRelayURLs : list bytes;
  OptBindAddrs : list AddrPort
}.

(** [if err := f(); err != nil { return err }] *)
Definition try_ (p : go error) (q : go error) : go error :=
  err ← p; match err with Some e => Ret (Some e) | None => q end.

(** [for _, x := range l { if err := f(x); err != nil { return err } }] *)
Fixpoint try_each {A} (l : list A) (f : A -> go error) (q : go error) : go error :=
  match l with [] => q | x :: l => try_ (f x) (try_each l f q) end.

(** [src/endpoint.go:130-170 applyOptions] *)
Definition applyOptions (options : Z) (opts : Options) : go error :=
  let bind_addrs :=
    try_each (OptBindAddrs opts) (fun addr => OptionsAddBindAddr options (AddrPort_String addr))
      (Ret None) in
  let relays :=
    if negb (OptRelayMode opts =? RelayFromPreset) then
      match relay_mode (OptRelayMode opts) with
      | inr e => Ret (Some e)
      | inl mode =>
          try_each (OptRelayURLs opts) (OptionsAddRelayURL options)
            (try_ (OptionsSetRelayMode options mode) bind_addrs)
      end
    else bind_addrs in
  let alpns := try_each (OptALPNs opts) (OptionsAddALPN options) relays in
  match OptSecretKey opts with
  | Some key => try_ (OptionsSetSecretKey options key) alpns
  | None => alpns
  end.

(** [src/endpoint.go:99-128 Bind] *)
Definition Bind (ctx : Z) (opts : Options) : go (option Endpoint * error) :=
  let '(preset, err) := Preset_ffi (OptPreset opts) in
  match err with
  | Some e => Ret (None, Some e)
  | None =>
      '(options, err) ← OptionsNew preset;
      match err with
      | Some e => Ret (None, Some e)
      | None =>
          err ← applyOptions options opts;
          match err with
          | Some e => OptionsFree options;; Ret (None, Some e)
          | None =>
              '(h, err) ← EndpointBind ctx options;
              match err with
              | Some e => Ret (None, Some e)
              | None =>
                  o ← rt RNew;
                  handle_set o h;;
                  '(id, err) ← ffi_EndpointID h;
                  match err with
                  | Some e => EndpointFree h;; Ret (None, Some e)
                  | None => rt (RAddCleanup o (endpointFree h));; Ret (Some (mkEndpoint o id), None)
                  end
              end
          end
      end
  end.

(** ** Addresses *)

(** [src/endpoint.go:180-190 Endpoint.Addr] *)
Definition Endpoint_Addr (e : Endpoint) : go (EndpointAddr * error) :=
  with_handle (ep_obj e) (fun err => (zero_addr, Some err)) (fun h =>
    '(text, err) ← ffi_EndpointAddr h;
    match err with Some e => Ret (zero_addr, Some e) | None => decodeAddr text end).

(** [src/endpoint.go:214-220 Endpoint.BoundSockets] One line. *)
Definition parse_socket (line : bytes) : AddrPort + gerror :=
  match ParseAddrPort line with
  | inr err => inr (errKind KindInternal "unparsable bound socket %q: %v" [MQuote line; MBytes err])
  | inl addr => inl addr
  end.

(** [src/endpoint.go:200-222 Endpoint.BoundSockets] *)
Definition BoundSockets (e : Endpoint) : go (list AddrPort * error) :=
  with_handle (ep_obj e) (fun err => ([], Some err)) (fun h =>
    '(text, err) ← EndpointBoundSockets h;
    match err with Some e => Ret ([], Some e) | None => Ret (parse_report parse_socket text) end).

(** [src/endpoint.go:225-233 AddrUsage] *)
Definition AddrActive : bytes := $"active".
Definition AddrInactive : bytes := $"inactive".

(** [src/endpoint.go:237-245 RemoteAddr] *)
Record RemoteAddr := mkRemoteAddr { ra_Kind : PathKind; ra_Usage : bytes; ra_Addr : bytes }.

(** [src/endpoint.go:249-249 remoteAddrFields] *)
Definition remoteAddrFields : nat := 3.

(** [src/endpoint.go:279-289 Endpoint.RemoteAddrs] One line. *)
Definition parse_remote (line : bytes) : RemoteAddr + gerror :=
  match SplitN line TAB (remoteAddrFields - 1) with
  | [kind; usage; addr] => inl (mkRemoteAddr kind usage addr)
  | _ => inr (errKind KindInternal "unparsable remote address %q" [MQuote line])
  end.

(** [src/endpoint.go:265-291 Endpoint.RemoteAddrs] *)
Definition RemoteAddrs (e : Endpoint) (ctx : Z) (id : EndpointID) : go (list RemoteAddr * error) :=
  with_handle (ep_obj e) (fun err => ([], Some err)) (fun h =>
    '(text, err) ← EndpointRemoteInfo ctx h id;
    match err with Some e => Ret ([], Some e) | None => Ret (parse_report parse_remote text) end).

(** [src/rust/irohgo-ffi/src/endpoint.rs:344-362 iroh_endpoint_remote_info] *)
Definition render_remote (kind : bytes) (active : bool) (addr : bytes) : bytes :=
  kind ++ TAB :: (if active then AddrActive else AddrInactive) ++ TAB :: addr.

(** [src/endpoint.go:297-303 Endpoint.Online] *)
Definition Online (e : Endpoint) (ctx : Z) : go error :=
  with_handle (ep_obj e) Some (fun h => EndpointOnline ctx h).

(** [src/endpoint.go:306-312 Endpoint.HomeRelay] *)
Definition HomeRelay (e : Endpoint) : go (bytes * error) :=
  with_handle (ep_obj e) (fun err => ([], Some err)) EndpointHomeRelay.

(** [src/endpoint.go:315-321 Endpoint.Ticket] *)
Definition Endpoint_Ticket (e : Endpoint) : go (Ticket * error) :=
  '(addr, err) ← Endpoint_Addr e;
  match err with Some e => Ret ([], Some e) | None => EndpointAddr_Ticket addr end.

(** ** Connecting *)

(** [src/endpoint.go:324-337 Endpoint.Connect] *)
Definition Connect (e : Endpoint) (ctx : Z) (addr : EndpointAddr) (alpn : bytes) :
    go (option Conn * error) :=
  with_handle (ep_obj e) (fun err => (None, Some err)) (fun h =>
    if decide (alpn = []) then Ret (None, Some (errKind KindALPN "connect requires an alpn" []))
    else
      '(c, err) ← EndpointConnect ctx h (encode addr) alpn;
      match err with
      | Some e => Ret (None, Some e)
      | None => c ← newConn c e; Ret (Some c, None)
      end).

(** [src/endpoint.go:340-346 Endpoint.ConnectTicket] *)
Definition ConnectTicket (e : Endpoint) (ctx : Z) (ticket : Ticket) (alpn : bytes) :
    go (option Conn * error) :=
  '(addr, err) ← Ticket_Addr ticket;
  match err with Some e => Ret (None, Some e) | None => Connect e ctx addr alpn end.

(** [src/endpoint.go:354-364 Endpoint.Accept] *)
Definition Endpoint_Accept (e : Endpoint) (ctx : Z) : go (option Conn * error) :=
  with_handle (ep_obj e) (fun err => (None, Some err)) (fun h =>
    '(c, err) ← EndpointAccept ctx h;
    match err with
    | Some e => Ret (None, Some e)
    | None => c ← newConn c e; Ret (Some c, None)
    end).

(** [src/endpoint.go:367-374 Endpoint.Close] *)
Definition Endpoint_Close (e : Endpoint) (ctx : Z) : go error :=
  h ← handle_take (ep_obj e);
  if h =? 0 then Ret None
  else err ← EndpointClose ctx h; EndpointFree h;; Ret err.
End Endpoint.
Section Theory.
Context {netip : NetIP}.

(** ** The calls [applyOptions] makes

    [option_calls] is what the options ask of the library, in order, with the
    error reported once they are all made; [replay] makes them one by one and
    stops at the first that fails. *)

Definition option_calls (h : Z) (opts : Options) : list unitcall * error :=
  let key := match OptSecretKey opts with Some key => [optionsSetSecretKey h key] | None => [] end in
  let alpns := map (optionsAddALPN h) (OptALPNs opts) in
  let addrs := map (fun a => optionsAddBindAddr h (AddrPort_String a)) (OptBindAddrs opts) in
  if OptRelayMode opts =? RelayFromPreset then (key ++ alpns ++ addrs, None)
  else match relay_mode (OptRelayMode opts) with
       | inr e => (key ++ alpns, Some e)
       | inl mode =>
           (key ++ alpns ++ map (optionsAddRelayURL h) (OptRelayURLs opts) ++
            [optionsSetRelayMode h mode] ++ addrs, None)
       end.

(** [answer f] is the error the library gives to [f], if any. *)
Definition option_answers : Type := unitcall -> option (Z * bytes).

Fixpoint replay (answer : option_answers) (calls : list unitcall) (final : error)
    (log : list unitcall) : error * list unitcall :=
  match calls with
  | [] => (final, log)
  | f :: calls =>
      match answer f with
      | None => replay answer calls final (log ++ [f])
      | Some (kind, msg) => (Some (NewError kind (MBytes msg)), log ++ [f])
      end
  end.

(** The library's side: it logs the calls. *)
Definition option_event (answer : option_answers) : partial_handler goE (list unitcall) :=
  fun X e log =>
    match e in goE X return option (X * list unitcall) with
    | C e =>
        match e in cE X return option (X * list unitcall) with
        | CUnit f => Some (match answer f with None => (0, tt, 0) | Some _ => (1, tt, 1) end, log ++ [f])
        | errorTake _ =>
            match head (rev log) with
            | Some f => match answer f with
                        | Some (kind, msg) => Some ((kind, mkBuf 1 msg), log)
                        | None => None
                        end
            | None => None
            end
        | freeBytes _ _ => Some (tt, log)
        | _ => None
        end
    | R _ => None
    end.

(** ** Lemmas: applying options *)

Lemma run_unit_sync answer f log :
  prun (option_event answer) (unit_sync f) log =
    Some (match answer f with None => None | Some (kind, msg) => Some (NewError kind (MBytes msg)) end,
          log ++ [f]).
Proof.
  simpl. destruct (answer f) as [[kind msg]|] eqn:E; [|done].
  unfold rcError. simpl. rewrite rev_app_distr. simpl. rewrite E. simpl.
  unfold takeBytes, buf_len. simpl. by destruct msg.
Qed.

(** [p] makes [calls] and then reports [final]. *)
Definition makes (answer : option_answers) (p : go error) (calls : list unitcall) (final : error) : Prop :=
  forall log, prun (option_event answer) p log = Some (replay answer calls final log).

Lemma makes_ret answer e : makes answer (Ret e) [] e.
Proof. by intros log. Qed.

Lemma makes_try answer f q calls final :
  makes answer q calls final -> makes answer (try_ (unit_sync f) q) (f :: calls) final.
Proof.
  intros Hq log. unfold try_. rewrite prun_bind, run_unit_sync. cbn [replay].
  destruct (answer f) as [[kind msg]|]; [done|]. apply Hq.
Qed.

Lemma makes_each {A} answer (l : list A) (f : A -> unitcall) q calls final :
  makes answer q calls final ->
  makes answer (try_each l (fun x => unit_sync (f x)) q) (map f l ++ calls) final.
Proof. intros Hq. induction l as [|x l IH]; [done|]. cbn [try_each map app]. by apply makes_try. Qed.

Lemma applyOptions_makes answer h opts :
  makes answer (applyOptions h opts) (option_calls h opts).1 (option_calls h opts).2.
Proof.
  unfold applyOptions, option_calls.
  assert (Haddrs : makes answer
    (try_each (OptBindAddrs opts) (fun addr => OptionsAddBindAddr h (AddrPort_String addr)) (Ret None))
    (map (fun a => optionsAddBindAddr h (AddrPort_String a)) (OptBindAddrs opts)) None).
  { pose proof (makes_each answer (OptBindAddrs opts) (fun a => optionsAddBindAddr h (AddrPort_String a))
      _ _ _ (makes_ret answer None)) as H. by rewrite app_nil_r in H. }
  assert (Hkey : forall q calls final, makes answer q calls final ->
    makes answer (match OptSecretKey opts with
                  | Some key => try_ (OptionsSetSecretKey h key) q | None => q end)
      ((match OptSecretKey opts with Some key => [optionsSetSecretKey h key] | None => [] end) ++ calls) final).
  { intros q calls final Hq. destruct (OptSecretKey opts); [by apply makes_try|done]. }
  destruct (OptRelayMode opts =? RelayFromPreset); simpl negb; cbv iota.
  - by apply Hkey, makes_each.
  - destruct (relay_mode (OptRelayMode opts)) as [mode|e].
    + apply Hkey, makes_each, makes_each. by apply makes_try.
    + cbn [fst snd]. rewrite <-(app_nil_r (map _ _)). apply Hkey, makes_each, makes_ret.
Qed.

Lemma try_quiet s p q :
  wp s p (fun _ s' => s' = s) -> wp s q (fun _ s' => s' = s) -> wp s (try_ p q) (fun _ s' => s' = s).
Proof. intros Hp Hq. eapply wp_call; [exact Hp|]. by intros [e|] s' ->. Qed.

Lemma try_each_quiet {A} s (l : list A) f q :
  (forall x, wp s (f x) (fun _ s' => s' = s)) -> wp s q (fun _ s' => s' = s) ->
  wp s (try_each l f q) (fun _ s' => s' = s).
Proof. intros Hf Hq. induction l as [|x l IH]; [done|]. cbn [try_each]. by apply try_quiet. Qed.

Lemma unit_sync_same s f : o_loaded s = true -> unit_pre f -> wp s (unit_sync f) (fun _ s' => s' = s).
Proof. intros Hl Hp. eapply wp_mono; [by apply unit_sync_spec|]. by intros err s' [-> _]. Qed.

(** What [Options] guarantee by their types. *)
Definition options_ok (opts : Options) : Prop :=
  forall key, OptSecretKey opts = Some key -> length key = SecretKeySize.

Lemma applyOptions_quiet s h opts :
  o_loaded s = true -> h <> 0 -> options_ok opts ->
  wp s (applyOptions h opts) (fun _ s' => s' = s).
Proof.
  intros Hl Hh Hok. unfold applyOptions.
  assert (Haddrs : wp s (try_each (OptBindAddrs opts)
    (fun addr => OptionsAddBindAddr h (AddrPort_String addr)) (Ret None)) (fun _ s' => s' = s)).
  { apply try_each_quiet; [|done]. intros a. by apply unit_sync_same. }
  assert (Hrest : forall q, wp s q (fun _ s' => s' = s) ->
    wp s (match OptSecretKey opts with
          | Some key => try_ (OptionsSetSecretKey h key) (try_each (OptALPNs opts) (OptionsAddALPN h) q)
          | None => try_each (OptALPNs opts) (OptionsAddALPN h) q end) (fun _ s' => s' = s)).
  { intros q Hq. assert (wp s (try_each (OptALPNs opts) (OptionsAddALPN h) q) (fun _ s' => s' = s)).
    { apply try_each_quiet; [|done]. intros a. by apply unit_sync_same. }
    destruct (OptSecretKey opts) as [key|] eqn:E; [|done].
    apply try_quiet; [|done]. apply unit_sync_same; [done|]. split; [done|]. by apply Hok. }
  destruct (OptRelayMode opts =? RelayFromPreset); simpl negb; cbv iota; [by apply Hrest|].
  destruct (relay_mode (OptRelayMode opts)) as [mode|e]; [|by apply Hrest].
  apply Hrest. apply try_each_quiet; [intros u; by apply unit_sync_same|].
  apply try_quiet; [by apply unit_sync_same|done].
Qed.

(** ** Lemmas: Bind *)

(** What a method that makes an endpoint or a connection leaves behind. *)
Definition makes_object {A} (s : owned) (obj : A -> Z) (r : option A) (err : error) (s' : owned) : Prop :=
  quiet s s' /\
  match err with
  | Some _ => r = None
  | None => exists a h, r = Some a /\ h <> 0 /\ new_object s s' (obj a) h
  end.

(** With what becomes of the objects there were. *)
Definition adds_object {A} (s : owned) (obj : A -> Z) (r : option A) (err : error) (s' : owned) : Prop :=
  quiet s s' /\
  match err with
  | Some _ => r = None /\ o_objs s' = o_objs s
  | None => exists a h, r = Some a /\ h <> 0 /\ new_object s s' (obj a) h /\ objects_kept s s'
  end.

Lemma adds_makes {A} s (obj : A -> Z) r err s' : adds_object s obj r err s' -> makes_object s obj r err s'.
Proof.
  intros [Hq H]. split; [done|]. destruct err; [by destruct H|].
  destruct H as (a & h & ? & ? & ? & _). eauto.
Qed.

Lemma wp_adds_makes {A} s (obj : A -> Z) (p : go (option A * error)) :
  wp s p (fun '(r, err) s' => adds_object s obj r err s') ->
  wp s p (fun '(r, err) s' => makes_object s obj r err s').
Proof. intros H. eapply wp_mono; [exact H|]. intros [r err] s'. apply adds_makes. Qed.

(** The end of [Bind]: an endpoint for the library object [h] it was given. *)
Lemma bind_endpoint_spec s h :
  o_loaded s = true -> h <> 0 -> (h ∉ o_handles s) ->
  wp (add_handles [h] s)
    (o ← rt RNew;
     handle_set o h;;
     '(id, err) ← ffi_EndpointID h;
     match err with
     | Some e => EndpointFree h;; Ret (None, Some e)
     | None => rt (RAddCleanup o (endpointFree h));; Ret (Some (mkEndpoint o id), None)
     end)
    (fun '(r, err) s' => makes_object s ep_obj r err s').
Proof.
  intros Hl Hh Hf. apply wp_bind, wp_trigger; [done|]. intros o s1 [Ho ->]. simpl in Ho.
  apply wp_bind, wp_trigger; [done|]. intros [] s2 ->.
  eapply wp_call; [by apply out_sync_spec|].
  assert (Hset : (list_to_set [h] ∪ o_handles s) ∖ {[h]} = o_handles s) by set_solver.
  intros [id [e|]] s3 (-> & _).
  - apply wp_bind, wp_trigger; [simpl; split; [done|set_solver]|]. intros [] s4 ->. simpl.
    split; [|done]. split; [done|]. simpl. exact Hset.
  - apply wp_bind, wp_trigger; [simpl; set_solver|]. intros [] s4 ->. simpl.
    split; [split; [done|exact Hset]|]. exists (mkEndpoint o id), h. split; [done|]. split; [done|].
    split; [done|]. simpl. apply lookup_insert_eq.
Qed.

Lemma Bind_spec s ctx opts :
  options_ok opts -> wp s (Bind ctx opts) (fun '(r, err) s' => makes_object s ep_obj r err s').
Proof.
  intros Hok. unfold Bind. destruct (Preset_ffi (OptPreset opts)) as [preset [e|]].
  { split; [apply quiet_refl|done]. }
  apply wp_bind, loaded_spec; [intros e; split; [apply quiet_refl|done]|].
  set (s0 := set_loaded true s).
  apply wp_bind, wp_trigger; [done|]. intros options s1 (Hpos & Hfresh & ->). cbn [wp].
  assert (Hset : (list_to_set [options] ∪ o_handles s0) ∖ {[options]} = o_handles s0) by set_solver.
  eapply wp_call; [apply applyOptions_quiet; [done|lia|done]|].
  intros [e|] s2 ->.
  { apply wp_bind, wp_trigger; [split; [done|simpl; set_solver]|]. intros [] s3 ->. simpl.
    split; [split; [done|exact Hset]|done]. }
  eapply wp_call.
  { apply (start_handle (add_options options s0) ctx (endpointBind options)); [done| |done].
    simpl. set_solver. }
  intros [h [e|]] s3.
  - intros [-> Hf]. apply quiet_fails in Hf as [Hd Ho]. simpl. split; [|done].
    split; [by transitivity (base (endpointBind options) (add_options options s0))|].
    rewrite Ho. simpl. exact Hset.
  - intros (s4 & Hw & Hh & Hf & ->). pose proof (quiet_waited _ _ _ Hw) as [Hd Ho].
    pose proof (waited_objs _ _ _ Hw) as Hob.
    eapply wp_mono; [apply bind_endpoint_spec; [|lia|done]|].
    { rewrite (waited_loaded _ _ _ Hw). done. }
    intros [r err] s' [[Hd' Ho'] Hr]. split.
    + split.
      * transitivity s4; [|done].
        by transitivity (base (endpointBind options) (add_options options s0)).
      * rewrite Ho', Ho. simpl. exact Hset.
    + destruct err; [done|]. destruct Hr as (a & h' & ? & ? & [Hn1 Hn2]). exists a, h'.
      split; [done|]. split; [done|]. split; [|done]. by rewrite Hob in Hn1.
Qed.

Lemma dial_spec s ctx f ep :
  o_loaded s = true -> start_pre s f -> kind_of f = KHandle -> base f s = s ->
  wp s ('(c, err) ← (op ← call (CStart f); AwaitHandle ctx op);
        match err with
        | Some e => Ret (None, Some e)
        | None => c ← newConn c ep; Ret (Some c, None)
        end) (fun '(r, err) s' => adds_object s conn_obj r err s').
Proof.
  intros Hl Hp Hk Hb. apply (open_one_spec s ctx f (fun h => newConn h ep) (fun e => (None, Some e)) conn_obj); try done.
  intros s1 h Hh. by apply newConn_spec.
Qed.

Lemma Connect_spec s e ctx addr alpn : o_loaded s = true ->
  wp s (Connect e ctx addr alpn) (fun '(r, err) s' => makes_object s conn_obj r err s').
Proof.
  intros Hl. apply with_handle_spec; [split; [apply quiet_refl|done]|]. intros h Hh _.
  case_decide; [split; [apply quiet_refl|done]|].
  by apply wp_adds_makes, (dial_spec s ctx (endpointConnect h _ alpn)).
Qed.

Lemma Endpoint_Accept_adds s e ctx : o_loaded s = true ->
  wp s (Endpoint_Accept e ctx) (fun '(r, err) s' => adds_object s conn_obj r err s').
Proof.
  intros Hl. apply with_handle_spec; [split; [apply quiet_refl|done]|]. intros h Hh _.
  by apply (dial_spec s ctx (endpointAccept h)).
Qed.

Lemma Endpoint_Accept_spec s e ctx : o_loaded s = true ->
  wp s (Endpoint_Accept e ctx) (fun '(r, err) s' => makes_object s conn_obj r err s').
Proof. intros Hl. by apply wp_adds_makes, Endpoint_Accept_adds. Qed.

Lemma ConnectTicket_spec s e ctx ticket alpn : o_loaded s = true ->
  wp s (ConnectTicket e ctx ticket alpn) (fun '(r, err) s' => makes_object s conn_obj r err s').
Proof.
  intros Hl. eapply wp_call; [apply Ticket_Addr_spec|].
  intros [addr [e'|]] s1 [H1 _].
  { split; [by apply steady_quiet|done]. }
  eapply wp_mono; [apply Connect_spec; by eauto with go|].
  intros [r err] s' [[Hd Ho] Hr]. destruct (steady_quiet _ _ H1) as [Hd1 Ho1]. split.
  { split; [by transitivity s1|congruence]. }
  destruct err; [done|]. destruct Hr as (a & h & ? & ? & [Hn1 Hn2]). exists a, h.
  split; [done|]. split; [done|]. split; [|done]. by rewrite (steady_objs _ _ H1) in Hn1.
Qed.

Lemma Endpoint_Close_spec s e ctx : o_loaded s = true -> wp s (Endpoint_Close e ctx) (closed s ctx).
Proof.
  intros Hl. apply taken_spec. intros h Hh Hf.
  by apply (closer_spec s ctx h (endpointClose h) (endpointFree h)).
Qed.

(** ** Lemmas: reports *)

Lemma parse_render_remote kind active addr :
  TAB ∉ kind -> parse_remote (render_remote kind active addr) =
    inl (mkRemoteAddr kind (if active then AddrActive else AddrInactive) addr).
Proof.
  intros Hk. unfold parse_remote, render_remote. cbn [remoteAddrFields Nat.sub].
  rewrite SplitN_cons by done.
  assert (TAB ∉ (if active then AddrActive else AddrInactive)).
  { destruct active; apply (bool_decide_unpack _); vm_compute; exact I. }
  by rewrite SplitN_cons.
Qed.

Lemma parse_report_lines {A B} (parse : bytes -> A + gerror) (render : B -> bytes) (f : B -> A) l :
  Forall (fun b => render b <> [] /\ (NL ∉ render b) /\ parse (render b) = inl (f b)) l ->
  parse_report parse (join NL (map render l)) = (map f l, None).
Proof.
  intros Hl. unfold parse_report. destruct l as [|b l]; [done|].
  case_decide as E.
  { exfalso. apply Forall_cons_1 in Hl as [[Hne _] _]. by apply join_nil in E. }
  assert (Split (join NL (map render (b :: l))) NL = map render (b :: l)) as ->.
  { apply Split_join. change (Forall (fun w => NL ∉ w) (map render (b :: l))). apply Forall_map.
    eapply Forall_impl; [|exact Hl]. by intros b' (_ & ? & _). }
  rewrite (parse_lines_map parse render f); [done|].
  eapply Forall_impl; [|exact Hl]. by intros b' (_ & _ & ?).
Qed.

(** ** Properties *)

(** C24. Making endpoints and connections leaks nothing.  [Bind] frees the
    options object when they cannot be applied, hands it over when they can,
    and frees the endpoint it bound when its identity cannot be read; dialling
    and accepting register what they obtain: on every path of [Bind], [Connect],
    [ConnectTicket] and [Accept] the goroutine ends up owing the library what it
    owed before, and holds a new object for a live library object exactly when
    there is no error. *)
Theorem endpoint_constructors_leak_nothing (s : owned) (ctx : Z) (opts : Options) (e : Endpoint)
    (addr : EndpointAddr) (ticket : Ticket) (alpn : bytes) :
  o_loaded s = true -> options_ok opts ->
  wp s (Bind ctx opts) (fun '(r, err) s' => makes_object s ep_obj r err s') /\
  wp s (Connect e ctx addr alpn) (fun '(r, err) s' => makes_object s conn_obj r err s') /\
  wp s (ConnectTicket e ctx ticket alpn) (fun '(r, err) s' => makes_object s conn_obj r err s') /\
  wp s (Endpoint_Accept e ctx) (fun '(r, err) s' => makes_object s conn_obj r err s').
Proof.
  intros Hl Hok. refine (conj _ (conj _ (conj _ _))).
  - by apply Bind_spec.
  - by apply Connect_spec.
  - by apply ConnectTicket_spec.
  - by apply Endpoint_Accept_spec.
Qed.

(** [applyOptions] asks the library for exactly what the options say: the
    secret key, then every ALPN, then (unless the relay configuration is left to
    the preset) every relay url before the relay mode, then every bind address,
    each list in order, stopping at the first call the library refuses and
    reporting that refusal; a relay mode it does not know is an error after the
    key and the ALPNs, with no relay touched. *)
Theorem apply_options_replays (answer : option_answers) (h : Z) (opts : Options) :
  prun (option_event answer) (applyOptions h opts) [] =
    Some (replay answer (option_calls h opts).1 (option_calls h opts).2 []).
Proof. apply applyOptions_makes. Qed.

(** C36. The endpoint's reports are read back: known addresses of a remote,
    rendered one per line, come back in order with their kind, usage and text
    (which may hold tabs), and bound sockets come back as the addresses whose
    texts were listed; an empty report is an empty list. *)
Theorem endpoint_reports_roundtrip (remotes : list (bytes * bool * bytes)) (sockets : list AddrPort) :
  Forall (fun '(kind, active, addr) => (TAB ∉ kind) /\ (NL ∉ kind) /\ (NL ∉ addr)) remotes ->
  Forall (fun a => addr_valid a /\ NL ∉ AddrPort_String a) sockets ->
  parse_report parse_remote
    (join NL (map (fun '(kind, active, addr) => render_remote kind active addr) remotes)) =
    (map (fun '(kind, active, addr) =>
       mkRemoteAddr kind (if active : bool then AddrActive else AddrInactive) addr) remotes, None) /\
  parse_report parse_socket (join NL (map AddrPort_String sockets)) = (sockets, None).
Proof.
  intros Hr Hs. split.
  - apply parse_report_lines. eapply Forall_impl; [|exact Hr].
    intros [[kind active] addr] (Ht & Hk & Ha). split; [|split; [|by apply parse_render_remote]].
    + unfold render_remote. by destruct kind.
    + unfold render_remote. assert (NL ∉ (if active then AddrActive else AddrInactive))
        by (destruct active; apply (bool_decide_unpack _); vm_compute; exact I).
      assert (NL <> TAB) by done. set_solver.
  - rewrite <-(map_id sockets) at 2. apply parse_report_lines. eapply Forall_impl; [|exact Hs].
    intros a [Hv Hn]. split; [by apply format_trimmed|]. split; [done|].
    unfold parse_socket. by rewrite parse_format.
Qed.

(** Shutting an endpoint down frees it once on every path, and only the
    first [Close] reaches the library; the other operations on a closed endpoint
    report [ErrClosed], and dialling without an ALPN is refused before any call
    into the library. *)
Theorem endpoint_close_frees_once (e : Endpoint) (s : owned) (ctx h : Z) (addr : EndpointAddr) (alpn : bytes) :
  o_loaded s = true -> h <> 0 ->
  wp s (Endpoint_Close e ctx) (closed s ctx) /\
  cell_run (ep_obj e) (Endpoint_Close e ctx) 0 = Some (None, 0) /\
  cell_run (ep_obj e) (Endpoint_Accept e ctx) 0 = Some ((None, Some (Sentinel ErrClosed)), 0) /\
  cell_run (ep_obj e) (Connect e ctx addr alpn) 0 = Some ((None, Some (Sentinel ErrClosed)), 0) /\
  cell_run (ep_obj e) (Connect e ctx addr []) h =
    Some ((None, Some (errKind KindALPN "connect requires an alpn" [])), h).
Proof.
  intros Hl Hh. split; [by apply Endpoint_Close_spec|]. unfold cell_run.
  split; [simpl; by rewrite Z.eqb_refl|]. split; [simpl; by rewrite Z.eqb_refl|].
  split; [simpl; by rewrite Z.eqb_refl|].
  simpl. rewrite Z.eqb_refl. simpl. by rewrite (proj2 (Z.eqb_neq h 0) Hh).
Qed.
End Theory.

(** ** Witnesses *)

Definition an_endpoint : Endpoint := mkEndpoint 41 (zero_bytes EndpointIDSize).
Definition some_options : Options :=
  mkOptions PresetMinimal (Some (zero_bytes SecretKeySize)) [$"echo"; $"chat"] RelayCustom
    [$"https://relay.example/"] [mkAddr4 127 0 0 1 0].

Example endpoint_constructors_leak_nothing_witness :
  wp a_user (Bind 1 some_options) (fun '(r, err) s' => makes_object a_user ep_obj r err s').
Proof.
  apply (endpoint_constructors_leak_nothing a_user 1 some_options an_endpoint zero_addr [] []);
    [reflexivity|]. intros key [= <-]. reflexivity.
Defined.

Example endpoint_reports_roundtrip_witness :
  parse_report parse_remote (join NL [render_remote PathIP true $"192.0.2.1:9"]) =
    ([mkRemoteAddr PathIP AddrActive $"192.0.2.1:9"], None).
Proof.
  apply (endpoint_reports_roundtrip [(PathIP, true, $"192.0.2.1:9")] []);
    [|apply Forall_nil_2].
  apply Forall_cons_2; [|apply Forall_nil_2].
  split; [apply (bool_decide_unpack _); vm_compute; exact I|].
  split; apply (bool_decide_unpack _); vm_compute; exact I.
Defined.

Example endpoint_close_frees_once_witness :
  cell_run 41 (Endpoint_Accept an_endpoint 1) 0 = Some ((None, Some (Sentinel ErrClosed)), 0).
Proof.
  apply (endpoint_close_frees_once an_endpoint a_user 1 8 zero_addr $"echo"); [reflexivity|discriminate].
Defined.

(** The calls of [some_options], all answered. *)
Example some_options_calls :
  prun (option_event (fun _ => None)) (applyOptions 9 some_options) [] =
    Some (None, [optionsSetSecretKey 9 (zero_bytes SecretKeySize); optionsAddALPN 9 $"echo";
      optionsAddALPN 9 $"chat"; optionsAddRelayURL 9 $"https://relay.example/";
      optionsSetRelayMode 9 ffi_RelayCustom; optionsAddBindAddr 9 $"127.0.0.1:0"]).
Proof. reflexivity. Qed.
