(* ===== verification/Shim.v ===== *)
(** The native library's own half: [rust/irohgo-ffi], around the iroh crates.

    [ffi.rs], [ops.rs], [lib.rs] and the entry points of [stream.rs],
    [conn.rs], [endpoint.rs], [keys.rs] and [addr.rs], one definition each, on
    one state: the handle table, the operations, the tasks the runtime still
    has, the completion queue and the memory handed out.

    A call is a computation of the monad [M]: it returns, panics ([ffi_guard]
    turns that into the call's default), or blocks.  It is one step of the
    library, and so is each step of a task: what they share is behind locks
    held only inside one of them.  What iroh answers in a call or a task is an
    argument ([says]), and so is the address the allocator picks.  An answer
    that is not one of the call in question counts as a panic, so nothing is
    assumed by leaving it out.  A [Vec] or [String] longer than [isize::MAX]
    cannot be allocated and panics; the model finds that where the bytes
    leave. *)
From S2P Require Import Prelude GoErrors Prog Abi Contract Pump Calls GoStrings Keys Netip Addr Conn Endpoint.
From S2P Require Import Registry RustAddr.
Local Open Scope Z_scope.
Local Open Scope go_scope.

(** ** State *)

(** [src/rust/irohgo-ffi/src/ops.rs:29-38 OpValue] *)
Inductive OpValue : Set :=
| OVUnit | OVHandle (h : Z) | OVHandle2 (a b : Z) | OVU64 (v : Z) | OVBytes (b : bytes) | OVEof.

(** [src/rust/irohgo-ffi/src/ops.rs:144-149 Op] Its id is its key in [arcs]; its
    abort handle is set as long as the task runs. *)
Record Op := mkOp { cancel_requested : bool; op_result : option (result OpValue) }.

(** The iroh objects a handle can stand for. *)
Inductive objtype : Set := TyEndpoint | TyConn | TySend | TyRecv.
#[export] Instance objtype_eq : EqDecision objtype.
Proof. solve_decision. Defined.

(** [src/rust/irohgo-ffi/src/endpoint.rs:19-19 PRESET_EMPTY] *)
Definition PRESET_EMPTY : Z := 0.
(** [src/rust/irohgo-ffi/src/endpoint.rs:20-20 PRESET_MINIMAL] *)
Definition PRESET_MINIMAL : Z := 1.
(** [src/rust/irohgo-ffi/src/endpoint.rs:21-21 PRESET_N0] *)
Definition PRESET_N0 : Z := 2.
(** [src/rust/irohgo-ffi/src/endpoint.rs:22-22 PRESET_N0_DISABLE_RELAY] *)
Definition PRESET_N0_DISABLE_RELAY : Z := 3.
(** [src/rust/irohgo-ffi/src/endpoint.rs:25-25 RELAY_DEFAULT] *)
Definition RELAY_DEFAULT : Z := 0.
(** [src/rust/irohgo-ffi/src/endpoint.rs:26-26 RELAY_DISABLED] *)
Definition RELAY_DISABLED : Z := 1.
(** [src/rust/irohgo-ffi/src/endpoint.rs:27-27 RELAY_STAGING] *)
Definition RELAY_STAGING : Z := 2.
(** [src/rust/irohgo-ffi/src/endpoint.rs:28-28 RELAY_CUSTOM] *)
Definition RELAY_CUSTOM : Z := 3.

(** [src/rust/irohgo-ffi/src/ffi.rs:44-44 FFI_OK] *)
Definition FFI_OK : Z := 0.
(** [src/rust/irohgo-ffi/src/ffi.rs:45-45 FFI_ERR] *)
Definition FFI_ERR : Z := 1.
(** [src/rust/irohgo-ffi/src/error.rs:69-69 COMPLETION_OK] *)
Definition COMPLETION_OK : Z := 0.
(** [src/rust/irohgo-ffi/src/error.rs:70-70 COMPLETION_ERR] *)
Definition COMPLETION_ERR : Z := 1.
(** [src/rust/irohgo-ffi/src/error.rs:71-71 COMPLETION_CANCELLED] *)
Definition COMPLETION_CANCELLED : Z := 2.
(** [src/rust/irohgo-ffi/src/stream.rs:24-24 NO_STOP_CODE] *)
Definition NO_STOP_CODE : Z := two64 - 1.
(** [src/rust/irohgo-ffi/src/lib.rs:42-42 ABI_VERSION] *)
Definition ABI_VERSION : Z := 5.
(** [src/rust/irohgo-ffi/src/conn.rs:16-16 STATS_LEN] *)
Definition STATS_LEN : nat := 6.

(** ** Rust's strings *)

Definition in_range (lo hi : Z) (c : ascii) : bool :=
  let n := Z.of_nat (nat_of_ascii c) in (lo <=? n) && (n <=? hi).

(** [str::from_utf8]: where the first byte is that is not UTF-8, and the length
    of the bad sequence, unless the text merely ends too soon. *)
Fixpoint utf8_error (i : nat) (s : bytes) : option (nat * option nat) :=
  let cont := in_range 128 191 in
  match s with
  | [] => None
  | a :: s1 =>
      if in_range 0 127 a then utf8_error (S i) s1
      else if negb (in_range 194 244 a) then Some (i, Some 1%nat)
      else
        match s1 with
        | [] => Some (i, None)
        | b :: s2 =>
            if in_range 194 223 a then
              if cont b then utf8_error (2 + i) s2 else Some (i, Some 1%nat)
            else if negb (if in_range 224 224 a then in_range 160 191 b
                          else if in_range 237 237 a then in_range 128 159 b
                          else if in_range 240 240 a then in_range 144 191 b
                          else if in_range 244 244 a then in_range 128 143 b
                          else cont b) then Some (i, Some 1%nat)
            else
              match s2 with
              | [] => Some (i, None)
              | c :: s3 =>
                  if negb (cont c) then Some (i, Some 2%nat)
                  else if in_range 224 239 a then utf8_error (3 + i) s3
                  else
                    match s3 with
                    | [] => Some (i, None)
                    | d :: s4 => if cont d then utf8_error (4 + i) s4 else Some (i, Some 3%nat)
                    end
              end
        end
  end.

(** [Utf8Error]'s text. *)
Definition utf8_text (e : nat * option nat) : bytes :=
  match e.2 with
  | Some n => $"invalid utf-8 sequence of " ++ decimal (Z.of_nat n) ++ $" bytes from index " ++ decimal (Z.of_nat e.1)
  | None => $"incomplete utf-8 byte sequence from index " ++ decimal (Z.of_nat e.1)
  end.

(** [src/rust/irohgo-ffi/src/ffi.rs:73-75 str_arg] *)
Definition str_arg (s : bytes) : result bytes :=
  match utf8_error 0 s with
  | None => inl s
  | Some e => inr (invalid ($"invalid utf-8: " ++ utf8_text e))
  end.

(** A signed number in decimal. *)
Definition decimal_i (n : Z) : bytes := if n <? 0 then ch 45 :: decimal (- n) else decimal n.

(** What the crates compute of their arguments alone. *)
Class IrohCrates {iroh : Iroh} := {
  iroh_version_text : bytes;
  (** [VarInt::from_u64]: what the error displays when the value does not fit. *)
  varint_error : Z -> option bytes;
  ticket_show : raddr -> bytes;
  ticket_parse : bytes -> raddr + bytes;
  public_key : bytes -> bytes;
  sign_with : bytes -> bytes -> bytes;
  verify_error : bytes -> bytes -> bytes -> option bytes;
  (** [Builder::bind_addr], after the addresses already taken. *)
  bind_addr_error : list SocketAddr -> SocketAddr -> option bytes;
  (** [Display] of a transport that is neither an ip nor a relay. *)
  show_transport : transport RelayUrl SocketAddr -> bytes
}.

(** How a call ends. [Blocks]: it does not, in this state. *)
Inductive outcome (A : Type) : Type :=
| Done (a : A)
| Panicked
| Blocks.
Arguments Done {A} a. Arguments Panicked {A}. Arguments Blocks {A}.

Section Shim.
Context {iroh : Iroh} {crates : IrohCrates}.

(** [src/rust/irohgo-ffi/src/endpoint.rs:35-42 Opts] *)
Record Opts := mkOpts {
  preset : Z;
  secret_key_set : option bytes;
  alpns : list bytes;
  relay_mode_set : option Z;
  relay_urls : list RelayUrl;
  bind_addrs : list SocketAddr
}.

(** A slot of the handle table: what the [Arc<dyn Any>] points to. An [Op] is
    shared with its supervisor and is behind its id. *)
Inductive slot : Type :=
| SOp (id : Z)
| SError (e : rerror)
| SOpts (o : Opts)
| SObj (t : objtype).

Definition as_op (s : slot) : option Z := match s with SOp id => Some id | _ => None end.
Definition as_error (s : slot) : option rerror := match s with SError e => Some e | _ => None end.
Definition as_opts (s : slot) : option Opts := match s with SOpts o => Some o | _ => None end.
Definition as_obj (t : objtype) (s : slot) : option unit :=
  match s with SObj t' => if decide (t' = t) then Some tt else None | _ => None end.

(** What a spawned future captures: the options, the parsed address, or the
    arguments of its call. *)
Inductive future : Type :=
| FBind (o : Opts)
| FConnect (addr : raddr) (alpn : bytes)
| FCall (f : startcall).

(** A task and its supervisor: running, joined by the supervisor, and posted
    with the supervisor about to end. *)
Inductive task : Type :=
| TRunning (f : future)
| TFinished (r : result OpValue)
| TPosted.

(** What iroh says. *)
Inductive says : Type :=
| SaysOk
| SaysErr (msg : bytes)                  (* the error's text *)
| SaysLost (msg : bytes)                 (* of a stream: the connection is gone *)
| SaysNone
| SaysNum (n : Z)
| SaysNums (l : list Z)
| SaysBytes (b : bytes)
| SaysAddr (a : raddr)
| SaysSocks (l : list SocketAddr)
| SaysPaths (l : list (transport RelayUrl SocketAddr * bool * Z))
| SaysRemote (l : list (transport RelayUrl SocketAddr * bool))
| SaysPanic.

Record shim := mkShim {
  reg : Registry slot;           (* the registry *)
  arcs : gmap Z Op;              (* the operations some [Arc] keeps alive *)
  tasks : gmap Z task;           (* the supervisors that have not ended *)
  queue : list (Z * Z);          (* [Completions::queue] *)
  shut : bool;                   (* [Completions::shutdown] *)
  mem : gmap Z Z                 (* buffers handed out, and their lengths *)
}.

Definition set_reg x w := mkShim x (arcs w) (tasks w) (queue w) (shut w) (mem w).
Definition set_arcs x w := mkShim (reg w) x (tasks w) (queue w) (shut w) (mem w).
Definition set_tasks x w := mkShim (reg w) (arcs w) x (queue w) (shut w) (mem w).
Definition set_queue x w := mkShim (reg w) (arcs w) (tasks w) x (shut w) (mem w).
Definition set_shut x w := mkShim (reg w) (arcs w) (tasks w) (queue w) x (mem w).
Definition set_mem x w := mkShim (reg w) (arcs w) (tasks w) (queue w) (shut w) x.

Definition shim_start : shim := mkShim registry ∅ ∅ [] false ∅.

(** ** The monad *)

Definition M (A : Type) : Type := shim -> outcome A * shim.

#[export] Instance M_ret : MRet M := fun A a w => (Done a, w).
#[export] Instance M_bind : MBind M := fun A B f m w =>
  match m w with
  | (Done a, w') => f a w'
  | (Panicked, w') => (Panicked, w')
  | (Blocks, w') => (Blocks, w')
  end.

Definition panic {A} : M A := fun w => (Panicked, w).
Definition blocks {A} : M A := fun w => (Blocks, w).
Definition lift {A} (f : shim -> A * shim) : M A := fun w => let '(a, w') := f w in (Done a, w').
Definition modify (f : shim -> shim) : M unit := fun w => (Done tt, f w).

(** [src/rust/irohgo-ffi/src/ffi.rs:23-30 ffi_guard] *)
Definition ffi_guard {A} (default : A) (body : M A) : M A := fun w =>
  match body w with (Panicked, w') => (Done default, w') | r => r end.

(** ** Handles *)

Definition insert (v : slot) : M Z :=
  lift (fun w => let '(h, t) := insert_slot v (reg w) in (h, set_reg t w)).
Definition get {A} (as_A : slot -> option A) (h : Z) : M (result A) :=
  lift (fun w => (get_slot as_A h (reg w), w)).

(** The handles a value owns. *)
Definition owned_handles (v : OpValue) : list Z :=
  match v with OVHandle h => [h] | OVHandle2 a b => [a; b] | _ => [] end.

(** The handles of results are of iroh objects, on which nothing else hangs.
    [locked] is a handle whose shard is locked by this very thread: to lock it
    again blocks for good. *)
Definition release (locked : option Z) (h : Z) : M unit :=
  match locked with
  | Some l => if bool_decide (h <> NULL_HANDLE /\ shard h = shard l) then blocks
              else modify (fun w => set_reg (remove_slot h (reg w)).2 w)
  | None => modify (fun w => set_reg (remove_slot h (reg w)).2 w)
  end.

(** [src/rust/irohgo-ffi/src/ops.rs:46-57 OpValue::release_handles] *)
Definition release_handles (locked : option Z) (v : OpValue) : M unit :=
  match v with
  | OVHandle h => release locked h
  | OVHandle2 a b => release locked a;; release locked b
  | _ => mret tt
  end.

(** [src/rust/irohgo-ffi/src/ops.rs:202-210 Op::drop] When the last [Arc] of an
    operation goes: neither the registry nor its supervisor holds one. *)
Definition drop_op_arc (locked : option Z) (id : Z) : M unit := fun w =>
  if bool_decide (t_slot id (reg w) ≫= as_op = Some id) || bool_decide (is_Some (tasks w !! id))
  then (Done tt, w)
  else
    match arcs w !! id with
    | None => (Done tt, w)
    | Some op =>
        let w := set_arcs (delete id (arcs w)) w in
        match op_result op with
        | Some (inl v) => release_handles locked v w
        | _ => (Done tt, w)
        end
    end.

(** [src/rust/irohgo-ffi/src/registry.rs:90-100 remove] The slot taken out is
    dropped at the end of the expression, before the guard of its shard is. *)
Definition remove (h : Z) : M bool := fun w =>
  let old := t_slot h (reg w) in
  let '(was, t) := remove_slot h (reg w) in
  let w := set_reg t w in
  if was then
    match old with
    | Some (SOp id) => (drop_op_arc (Some h) id;; mret true) w
    | _ => (Done true, w)
    end
  else (Done false, w).

(** ** ffi.rs *)

(** [src/rust/irohgo-ffi/src/ffi.rs:48-54 store_err] *)
Definition store_err (e : rerror) : M (Z * Z) := h ← insert (SError e); mret (FFI_ERR, h).

(** What a fallible call returns and writes: status, [nothing] written, error. *)
Definition fail {X} (nothing : X) (e : rerror) : M (answer X) :=
  '(rc, h) ← store_err e; mret (rc, nothing, h).
Definition okay {X} (x : X) : M (answer X) := mret (FFI_OK, x, 0).

(** [src/rust/irohgo-ffi/src/ffi.rs:33-40 ffi_try] *)
Definition ffi_try {A X} (nothing : X) (r : result A) (k : A -> M (answer X)) : M (answer X) :=
  match r with inl a => k a | inr e => fail nothing e end.

(** [src/rust/irohgo-ffi/src/ffi.rs:81-104 out_bytes] [ptr] is the address the
    allocator returns. *)
Definition out_bytes (ptr : Z) (b : bytes) : M cbuf :=
  if decide (b = []) then mret nil_buf
  else if two63 <=? Z.of_nat (length b) then panic
  else modify (fun w => set_mem (<[ptr := Z.of_nat (length b)]> (mem w)) w);; mret (mkBuf ptr b).

(** [src/rust/irohgo-ffi/src/ffi.rs:110-115 free_bytes] *)
Definition free_bytes (ptr len : Z) : M unit :=
  if (ptr =? 0) || (len =? 0) then mret tt else modify (fun w => set_mem (delete ptr (mem w)) w).

(** ** ops.rs *)

(** [src/rust/irohgo-ffi/src/ops.rs:60-69 runtime] It may fail to be built. *)
Definition runtime (a : says) : M unit := match a with SaysPanic => panic | _ => mret tt end.

(** The status an outcome is posted with. *)
Definition status_of {A} (r : result A) : Z :=
  match r with
  | inl _ => COMPLETION_OK
  | inr e => if decide (e_kind e = ECancelled) then COMPLETION_CANCELLED else COMPLETION_ERR
  end.

(** [src/rust/irohgo-ffi/src/ops.rs:87-93 Completions::push] *)
Definition push (id status : Z) (w : shim) : shim := set_queue (queue w ++ [(id, status)]) w.

Definition set_result (id : Z) (r : option (result OpValue)) (w : shim) : shim :=
  match arcs w !! id with
  | Some op => set_arcs (<[id := mkOp (cancel_requested op) r]> (arcs w)) w
  | None => w
  end.

(** [src/rust/irohgo-ffi/src/ops.rs:165-173 Op::post] *)
Definition post (id : Z) (r : result OpValue) (w : shim) : shim :=
  push id (status_of r) (set_result id (Some r) w).

(** [src/rust/irohgo-ffi/src/ops.rs:182-187 Op::cancel] *)
Definition cancel (id : Z) (w : shim) : shim :=
  match arcs w !! id with
  | Some op => set_arcs (<[id := mkOp true (op_result op)]> (arcs w)) w
  | None => w
  end.

(** [src/rust/irohgo-ffi/src/ops.rs:194-199 Op::take_result] *)
Definition take_result (id : Z) : M (result OpValue) := lift (fun w =>
  match arcs w !! id ≫= op_result with
  | Some r => (r, set_result id None w)
  | None => (inr (internal $"operation has not completed"), w)
  end).

(** [src/rust/irohgo-ffi/src/ops.rs:152-159 Op::new] Published under a reserved
    id. *)
Definition new_op (w : shim) : Z * shim :=
  let '(id, t) := t_reserve (reg w) in
  (id, set_arcs (<[id := mkOp false None]> (arcs w)) (set_reg (t_publish id (SOp id) t) w)).

(** [src/rust/irohgo-ffi/src/ops.rs:213-245 spawn] The task and its supervisor
    go on in the steps below. *)
Definition spawn (f : future) (a : says) : M Z :=
  id ← lift new_op;
  runtime a;;
  modify (fun w => set_tasks (<[id := TRunning f]> (tasks w)) w);; mret id.

(** [src/rust/irohgo-ffi/src/ops.rs:251-257 spawn_ready] *)
Definition spawn_ready (r : result OpValue) : M Z :=
  lift (fun w => let '(id, w) := new_op w in (id, post id r w)).

(** [match r { Ok(x) => x, Err(e) => return ops::spawn_ready(Err(e)) }] *)
Definition or_ready {A} (r : result A) (k : A -> M Z) : M Z :=
  match r with inl x => k x | inr e => spawn_ready (inr e) end.

(** [src/rust/irohgo-ffi/src/ops.rs:106-132 wait] *)
Definition wait (timed_out : bool) : M (Z * Z * Z) := fun w =>
  match queue w with
  | (op, status) :: rest => (Done (1, op, status), set_queue rest w)
  | [] =>
      if shut w then (Done (-1, 0, 0), w)
      else if timed_out then (Done (0, 0, 0), w)
      else (Blocks, w)
  end.

(** ** lib.rs *)

(** [src/rust/irohgo-ffi/src/ops.rs:259-261 get] *)
Definition get_op (op : Z) : M (result Z) := get as_op op.

(** [src/rust/irohgo-ffi/src/lib.rs:45-47 iroh_abi_version] *)
Definition iroh_abi_version : M Z := mret ABI_VERSION.

(** [src/rust/irohgo-ffi/src/lib.rs:56-60 iroh_version] *)
Definition iroh_version (ptr : Z) : M cbuf := ffi_guard nil_buf (out_bytes ptr iroh_version_text).

(** [src/rust/irohgo-ffi/src/lib.rs:66-71 iroh_init] *)
Definition iroh_init (a : says) : M Z := ffi_guard FFI_ERR (runtime a;; mret FFI_OK).

(** [src/rust/irohgo-ffi/src/lib.rs:78-98 iroh_set_log_level] *)
Definition iroh_set_log_level (level : Z) (a : says) : M Z :=
  ffi_guard FFI_ERR
    (if (0 <=? level) && (level <=? 5) then
       match a with SaysOk => mret FFI_OK | SaysErr _ => mret FFI_ERR | _ => panic end
     else mret FFI_ERR).

(** [src/rust/irohgo-ffi/src/lib.rs:102-104 iroh_free_bytes] *)
Definition iroh_free_bytes (ptr len : Z) : M unit := ffi_guard tt (free_bytes ptr len).

(** [src/rust/irohgo-ffi/src/lib.rs:108-110 iroh_debug_handle_count] *)
Definition iroh_debug_handle_count : M Z :=
  ffi_guard 0 (lift (fun w => (Z.of_nat (t_len (reg w)), w))).

(** [src/rust/irohgo-ffi/src/lib.rs:122-138 iroh_completion_wait] *)
Definition iroh_completion_wait (timed_out : bool) : M (Z * Z * Z) := ffi_guard (-1, 0, 0) (wait timed_out).

(** [src/rust/irohgo-ffi/src/lib.rs:142-144 iroh_completion_wake] *)
Definition iroh_completion_wake : M unit := ffi_guard tt (modify (set_shut true)).

(** [src/rust/irohgo-ffi/src/lib.rs:153-159 iroh_op_cancel] *)
Definition iroh_op_cancel (op : Z) : M unit :=
  ffi_guard tt
    (r ← get_op op;
     match r with inl id => modify (cancel id) | inr _ => mret tt end).

(** [src/rust/irohgo-ffi/src/lib.rs:163-167 iroh_op_free] *)
Definition iroh_op_free (op : Z) : M unit := ffi_guard tt (remove op;; mret tt).

(** [src/rust/irohgo-ffi/src/lib.rs:169-171 take] *)
Definition take_op (op : Z) : M (result OpValue) :=
  r ← get_op op;
  match r with inl id => take_result id | inr e => mret (inr e) end.

(** [src/rust/irohgo-ffi/src/lib.rs:175-186 iroh_op_result_handle] *)
Definition iroh_op_result_handle (op : Z) : M (answer Z) :=
  ffi_guard (-1, 0, 0)
    (r ← take_op op;
     match r with
     | inl (OVHandle h) => okay h
     | inl _ => fail 0 (internal $"operation did not yield a handle")
     | inr e => fail 0 e
     end).

(** [src/rust/irohgo-ffi/src/lib.rs:191-211 iroh_op_result_handle2] *)
Definition iroh_op_result_handle2 (op : Z) : M (answer (Z * Z)) :=
  ffi_guard (-1, (0, 0), 0)
    (r ← take_op op;
     match r with
     | inl (OVHandle2 a b) => okay (a, b)
     | inl _ => fail (0, 0) (internal $"operation did not yield a handle pair")
     | inr e => fail (0, 0) e
     end).

(** [src/rust/irohgo-ffi/src/lib.rs:215-230 iroh_op_result_u64] *)
Definition iroh_op_result_u64 (op : Z) : M (answer Z) :=
  ffi_guard (-1, 0, 0)
    (r ← take_op op;
     match r with
     | inl (OVU64 v) => okay v
     | inl OVUnit => okay 0
     | inl _ => fail 0 (internal $"operation did not yield a scalar")
     | inr e => fail 0 e
     end).

(** [src/rust/irohgo-ffi/src/lib.rs:238-265 iroh_op_result_bytes] *)
Definition iroh_op_result_bytes (op ptr : Z) : M (answer (cbuf * Z)) :=
  ffi_guard (-1, (nil_buf, 0), 0)
    (r ← take_op op;
     match r with
     | inl (OVBytes b) => b ← out_bytes ptr b; okay (b, 0)
     | inl OVEof => b ← out_bytes ptr []; okay (b, 1)
     | inl OVUnit => b ← out_bytes ptr []; okay (b, 0)
     | inl _ => fail (nil_buf, 0) (internal $"operation did not yield bytes")
     | inr e => fail (nil_buf, 0) e
     end).

(** [src/rust/irohgo-ffi/src/lib.rs:269-276 iroh_op_result_err] *)
Definition iroh_op_result_err (op : Z) : M (answer unit) :=
  ffi_guard (-1, tt, 0)
    (r ← take_op op; match r with inl _ => okay tt | inr e => fail tt e end).

(** [src/rust/irohgo-ffi/src/lib.rs:285-304 iroh_error_take] *)
Definition iroh_error_take (err ptr : Z) : M (Z * cbuf) :=
  ffi_guard (0, nil_buf)
    (r ← get as_error err;
     '(kind, b) ← match r with
       | inl e => b ← out_bytes ptr (e_msg e); mret (kind_num (e_kind e), b)
       | inr _ => b ← out_bytes ptr $"unknown error handle"; mret (kind_num EInternal, b)
       end;
     remove err;; mret (kind, b)).

(** ** keys.rs *)

(** [src/rust/irohgo-ffi/src/keys.rs:16-22 secret_key] A null pointer is no
    bytes; any other covers 32. *)
Definition secret_key (key : bytes) : result bytes :=
  if decide (length key = SecretKeySize) then inl key
  else inr (mkError EKeyParsing $"secret key must be 32 bytes").

(** [src/rust/irohgo-ffi/src/keys.rs:24-30 endpoint_id] *)
Definition endpoint_id (id : bytes) : result bytes :=
  if decide (length id = EndpointIDSize) then
    match key_bytes id with inl k => inl k | inr e => inr (mkError EKeyParsing e) end
  else inr (mkError EKeyParsing $"endpoint id must be 32 bytes").

(** [src/rust/irohgo-ffi/src/keys.rs:34-39 iroh_secret_key_generate] The array
    filled is Go's, all zeros before. *)
Definition iroh_secret_key_generate (a : says) : M bytes :=
  ffi_guard (zero_bytes SecretKeySize) (match a with SaysBytes key => mret key | _ => panic end).

(** [src/rust/irohgo-ffi/src/keys.rs:43-53 iroh_secret_key_public] *)
Definition iroh_secret_key_public (key : bytes) : M (answer bytes) :=
  let zero := zero_bytes EndpointIDSize in
  ffi_guard (-1, zero, 0) (ffi_try zero (secret_key key) (fun key => okay (public_key key))).

(** [src/rust/irohgo-ffi/src/keys.rs:57-70 iroh_secret_key_sign] *)
Definition iroh_secret_key_sign (key msg : bytes) : M (answer bytes) :=
  let zero := zero_bytes SignatureSize in
  ffi_guard (-1, zero, 0) (ffi_try zero (secret_key key) (fun key => okay (sign_with key msg))).

(** [src/rust/irohgo-ffi/src/keys.rs:74-98 iroh_endpoint_id_verify] *)
Definition iroh_endpoint_id_verify (id msg sig : bytes) : M (answer unit) :=
  ffi_guard (-1, tt, 0)
    (ffi_try tt (endpoint_id id) (fun id =>
     if decide (length sig = SignatureSize) then
       match verify_error id msg sig with
       | Some e => fail tt (mkError EKeyParsing e)
       | None => okay tt
       end
     else fail tt (mkError EKeyParsing $"signature must be 64 bytes"))).

(** [src/rust/irohgo-ffi/src/keys.rs:102-113 iroh_endpoint_id_format] *)
Definition iroh_endpoint_id_format (id : bytes) (ptr : Z) : M (answer cbuf) :=
  ffi_guard (-1, nil_buf, 0)
    (ffi_try nil_buf (endpoint_id id) (fun id => b ← out_bytes ptr (show_key id); okay b)).

(** [src/rust/irohgo-ffi/src/keys.rs:117-133 iroh_endpoint_id_parse] *)
Definition iroh_endpoint_id_parse (s : bytes) : M (answer bytes) :=
  let zero := zero_bytes EndpointIDSize in
  ffi_guard (-1, zero, 0)
    (ffi_try zero (str_arg s) (fun s =>
     match parse_key s with inl id => okay id | inr e => fail zero (mkError EKeyParsing e) end)).

(** ** addr.rs *)

(** [?] on a computation that may panic. *)
Definition or_panic {A} (r : option A) : M A := match r with Some a => mret a | None => panic end.

(** [src/rust/irohgo-ffi/src/addr.rs:122-135 iroh_addr_normalize] *)
Definition iroh_addr_normalize (text : bytes) (ptr : Z) : M (answer cbuf) :=
  ffi_guard (-1, nil_buf, 0)
    (ffi_try nil_buf (str_arg text) (fun text =>
     r ← or_panic (decode_addr text);
     ffi_try nil_buf r (fun addr => b ← out_bytes ptr (encode_addr addr); okay b))).

(** [src/rust/irohgo-ffi/src/addr.rs:139-153 iroh_ticket_encode] *)
Definition iroh_ticket_encode (text : bytes) (ptr : Z) : M (answer cbuf) :=
  ffi_guard (-1, nil_buf, 0)
    (ffi_try nil_buf (str_arg text) (fun text =>
     r ← or_panic (decode_addr text);
     ffi_try nil_buf r (fun addr => b ← out_bytes ptr (ticket_show addr); okay b))).

(** [src/rust/irohgo-ffi/src/addr.rs:157-177 iroh_ticket_decode] *)
Definition iroh_ticket_decode (s : bytes) (ptr : Z) : M (answer cbuf) :=
  ffi_guard (-1, nil_buf, 0)
    (ffi_try nil_buf (str_arg s) (fun s =>
     match ticket_parse (TrimSpace s) with
     | inr e => fail nil_buf (mkError ETicketParsing e)
     | inl addr => b ← out_bytes ptr (encode_addr addr); okay b
     end)).

(** ** conn.rs *)

(** [src/rust/irohgo-ffi/src/conn.rs:18-20 conn] *)
Definition get_conn (h : Z) : M (result unit) := get (as_obj TyConn) h.

(** A future of a connection: its arguments, once the handle is looked up. *)
Definition conn_future (h : Z) (f : startcall) (a : says) : M Z :=
  ffi_guard 0 (r ← get_conn h; or_ready r (fun _ => spawn (FCall f) a)).

(** [src/rust/irohgo-ffi/src/conn.rs:33-47 iroh_conn_open_bi] *)
Definition iroh_conn_open_bi (h : Z) (a : says) : M Z := conn_future h (connOpenBi h) a.
(** [src/rust/irohgo-ffi/src/conn.rs:51-65 iroh_conn_accept_bi] *)
Definition iroh_conn_accept_bi (h : Z) (a : says) : M Z := conn_future h (connAcceptBi h) a.
(** [src/rust/irohgo-ffi/src/conn.rs:69-80 iroh_conn_open_uni] *)
Definition iroh_conn_open_uni (h : Z) (a : says) : M Z := conn_future h (connOpenUni h) a.
(** [src/rust/irohgo-ffi/src/conn.rs:84-95 iroh_conn_accept_uni] *)
Definition iroh_conn_accept_uni (h : Z) (a : says) : M Z := conn_future h (connAcceptUni h) a.
(** [src/rust/irohgo-ffi/src/conn.rs:119-133 iroh_conn_read_datagram] *)
Definition iroh_conn_read_datagram (h : Z) (a : says) : M Z := conn_future h (connReadDatagram h) a.
(** [src/rust/irohgo-ffi/src/conn.rs:278-289 iroh_conn_closed] *)
Definition iroh_conn_closed (h : Z) (a : says) : M Z := conn_future h (connClosed h) a.

(** [src/rust/irohgo-ffi/src/conn.rs:99-115 iroh_conn_send_datagram] *)
Definition iroh_conn_send_datagram (h : Z) (data : bytes) (a : says) : M (answer unit) :=
  ffi_guard (-1, tt, 0)
    (r ← get_conn h;
     ffi_try tt r (fun _ =>
     match a with
     | SaysOk => okay tt
     | SaysErr e => fail tt (mkError EDatagram e)
     | _ => panic
     end)).

(** [src/rust/irohgo-ffi/src/conn.rs:138-148 iroh_conn_max_datagram_size] *)
Definition iroh_conn_max_datagram_size (h : Z) (a : says) : M (answer Z) :=
  ffi_guard (-1, 0, 0)
    (r ← get_conn h;
     ffi_try 0 r (fun _ => match a with SaysNum n => okay n | SaysNone => okay 0 | _ => panic end)).

(** [src/rust/irohgo-ffi/src/conn.rs:152-158 iroh_conn_remote_id] *)
Definition iroh_conn_remote_id (h : Z) (a : says) : M (answer bytes) :=
  let zero := zero_bytes EndpointIDSize in
  ffi_guard (-1, zero, 0)
    (r ← get_conn h; ffi_try zero r (fun _ => match a with SaysBytes id => okay id | _ => panic end)).

(** [src/rust/irohgo-ffi/src/conn.rs:162-173 iroh_conn_alpn] *)
Definition iroh_conn_alpn (h : Z) (a : says) (ptr : Z) : M (answer cbuf) :=
  ffi_guard (-1, nil_buf, 0)
    (r ← get_conn h;
     ffi_try nil_buf r (fun _ =>
     match a with SaysBytes alpn => b ← out_bytes ptr alpn; okay b | _ => panic end)).

(** [src/rust/irohgo-ffi/src/conn.rs:181-207 iroh_conn_stats] [cap] slots of
    Go's, all zeros before; the first six are filled. *)
Definition iroh_conn_stats (h cap : Z) (a : says) : M (answer (list Z)) :=
  let zero := replicate (Z.to_nat cap) 0 in
  ffi_guard (-1, zero, 0)
    (r ← get_conn h;
     ffi_try zero r (fun _ =>
     if cap <? Z.of_nat STATS_LEN then
       fail zero (invalid ($"stats buffer must hold " ++ decimal (Z.of_nat STATS_LEN) ++ $" u64 values"))
     else match a with SaysNums l => okay (l ++ drop STATS_LEN zero) | _ => panic end)).

(** What a transport is called, and the text of its payload. *)
Definition kind_and_text (t : transport RelayUrl SocketAddr) : bytes * bytes :=
  match t with
  | TIp s => ($"ip", show_sock s)
  | TRelay u => ($"relay", show_url u)
  | other => ($"custom", show_transport other)
  end.

(** [src/rust/irohgo-ffi/src/conn.rs:223-254 iroh_conn_paths] *)
Definition iroh_conn_paths (h : Z) (a : says) (ptr : Z) : M (answer cbuf) :=
  ffi_guard (-1, nil_buf, 0)
    (r ← get_conn h;
     ffi_try nil_buf r (fun _ =>
     match a with
     | SaysPaths l =>
         let text := join NL (map (fun '(t, selected, micros) =>
           let '(kind, remote) := kind_and_text t in render_path kind selected micros remote) l) in
         b ← out_bytes ptr text; okay b
     | _ => panic
     end)).

(** [src/rust/irohgo-ffi/src/conn.rs:258-274 iroh_conn_close] *)
Definition iroh_conn_close (h code : Z) (reason : bytes) (a : says) : M (answer unit) :=
  ffi_guard (-1, tt, 0)
    (r ← get_conn h;
     ffi_try tt r (fun _ =>
     match varint_error code with
     | Some e => fail tt (invalid ($"bad close code: " ++ e))
     | None => match a with SaysOk => okay tt | _ => panic end
     end)).

(** [src/rust/irohgo-ffi/src/conn.rs:293-297 iroh_conn_free] *)
Definition iroh_conn_free (h : Z) : M unit := ffi_guard tt (remove h;; mret tt).

(** ** stream.rs *)

(** [src/rust/irohgo-ffi/src/stream.rs:50-52 send] *)
Definition get_send (h : Z) : M (result unit) := get (as_obj TySend) h.
(** [src/rust/irohgo-ffi/src/stream.rs:54-56 recv] *)
Definition get_recv (h : Z) : M (result unit) := get (as_obj TyRecv) h.

(** [src/rust/irohgo-ffi/src/stream.rs:93-113 iroh_send_write] *)
Definition iroh_send_write (h : Z) (data : bytes) (a : says) : M Z :=
  ffi_guard 0 (r ← get_send h; or_ready r (fun _ => spawn (FCall (sendWrite h data)) a)).
(** [src/rust/irohgo-ffi/src/stream.rs:124-138 iroh_send_finish] *)
Definition iroh_send_finish (h : Z) (a : says) : M Z :=
  ffi_guard 0 (r ← get_send h; or_ready r (fun _ => spawn (FCall (sendFinish h)) a)).
(** [src/rust/irohgo-ffi/src/stream.rs:142-157 iroh_send_reset] *)
Definition iroh_send_reset (h code : Z) (a : says) : M Z :=
  ffi_guard 0
    (r ← get_send h;
     or_ready r (fun _ =>
     match varint_error code with
     | Some e => spawn_ready (inr (invalid ($"bad reset code: " ++ e)))
     | None => spawn (FCall (sendReset h code)) a
     end)).
(** [src/rust/irohgo-ffi/src/stream.rs:161-177 iroh_send_set_priority] *)
Definition iroh_send_set_priority (h priority : Z) (a : says) : M Z :=
  ffi_guard 0 (r ← get_send h; or_ready r (fun _ => spawn (FCall (sendSetPriority h priority)) a)).
(** [src/rust/irohgo-ffi/src/stream.rs:182-199 iroh_send_stopped] *)
Definition iroh_send_stopped (h : Z) (a : says) : M Z :=
  ffi_guard 0 (r ← get_send h; or_ready r (fun _ => spawn (FCall (sendStopped h)) a)).
(** [src/rust/irohgo-ffi/src/stream.rs:202-206 iroh_send_free] *)
Definition iroh_send_free (h : Z) : M unit := ffi_guard tt (remove h;; mret tt).
(** [src/rust/irohgo-ffi/src/stream.rs:210-233 iroh_recv_read] *)
Definition iroh_recv_read (h max_len : Z) (a : says) : M Z :=
  ffi_guard 0
    (r ← get_recv h;
     or_ready r (fun _ =>
     if max_len =? 0 then spawn_ready (inr (invalid $"read length must be positive"))
     else spawn (FCall (recvRead h max_len)) a)).
(** [src/rust/irohgo-ffi/src/stream.rs:237-252 iroh_recv_stop] *)
Definition iroh_recv_stop (h code : Z) (a : says) : M Z :=
  ffi_guard 0
    (r ← get_recv h;
     or_ready r (fun _ =>
     match varint_error code with
     | Some e => spawn_ready (inr (invalid ($"bad stop code: " ++ e)))
     | None => spawn (FCall (recvStop h code)) a
     end)).
(** [src/rust/irohgo-ffi/src/stream.rs:255-259 iroh_recv_free] *)
Definition iroh_recv_free (h : Z) : M unit := ffi_guard tt (remove h;; mret tt).

(** ** endpoint.rs *)

(** What is asked of the iroh builder. *)
Inductive RelayMode : Type :=
| RDefault | RDisabled | RStaging | RCustom (urls : list RelayUrl).
Record Builder := mkBuilder {
  b_preset : Z;
  b_secret_key : option bytes;
  b_alpns : option (list bytes);
  b_relay_mode : option RelayMode;
  b_bind_addrs : option (list SocketAddr)
}.

(** [src/rust/irohgo-ffi/src/endpoint.rs:74-78 Opts::into_builder] The loop over
    the addresses to bind. *)
Fixpoint bind_all (taken l : list SocketAddr) : result (list SocketAddr) :=
  match l with
  | [] => inl taken
  | a :: l =>
      match bind_addr_error taken a with
      | Some e => inr (mkError EBind e)
      | None => bind_all (taken ++ [a]) l
      end
  end.

(** [src/rust/irohgo-ffi/src/endpoint.rs:60-68 Opts::into_builder] *)
Definition builder_mode (mode : Z) (urls : list RelayUrl) : result RelayMode :=
  if mode =? RELAY_DEFAULT then inl RDefault
  else if mode =? RELAY_DISABLED then inl RDisabled
  else if mode =? RELAY_STAGING then inl RStaging
  else if mode =? RELAY_CUSTOM then inl (RCustom urls)
  else inr (invalid ($"unknown relay mode " ++ decimal_i mode)).

(** [src/rust/irohgo-ffi/src/endpoint.rs:45-80 Opts::into_builder] *)
Definition into_builder (o : Opts) : result Builder :=
  if negb ((preset o =? PRESET_EMPTY) || (preset o =? PRESET_MINIMAL)
           || (preset o =? PRESET_N0_DISABLE_RELAY) || (preset o =? PRESET_N0))
  then inr (invalid ($"unknown preset " ++ decimal_i (preset o)))
  else
    let alpns := if decide (alpns o = []) then None else Some (alpns o) in
    match match relay_mode_set o with
          | None => inl None
          | Some mode => match builder_mode mode (relay_urls o) with inl m => inl (Some m) | inr e => inr e end
          end with
    | inr e => inr e
    | inl mode =>
        if decide (bind_addrs o = []) then
          inl (mkBuilder (preset o) (secret_key_set o) alpns mode None)
        else
          match bind_all [] (bind_addrs o) with
          | inr e => inr e
          | inl addrs => inl (mkBuilder (preset o) (secret_key_set o) alpns mode (Some addrs))
          end
    end.

(** [src/rust/irohgo-ffi/src/endpoint.rs:83-85 opts] *)
Definition get_opts (h : Z) : M (result Opts) := get as_opts h.
(** [src/rust/irohgo-ffi/src/endpoint.rs:87-89 endpoint] *)
Definition get_endpoint (h : Z) : M (result unit) := get (as_obj TyEndpoint) h.

(** Options are changed behind their mutex, where they are. *)
Definition change_opts (h : Z) (o : Opts) : M unit := modify (fun w => set_reg (t_publish h (SOpts o) (reg w)) w).

(** [src/rust/irohgo-ffi/src/endpoint.rs:94-101 iroh_options_new] *)
Definition iroh_options_new (preset : Z) : M Z :=
  ffi_guard 0 (insert (SOpts (mkOpts preset None [] None [] []))).

(** [src/rust/irohgo-ffi/src/endpoint.rs:104-108 iroh_options_free] *)
Definition iroh_options_free (h : Z) : M unit := ffi_guard tt (remove h;; mret tt).

(** [src/rust/irohgo-ffi/src/endpoint.rs:111-128 iroh_options_set_secret_key] *)
Definition iroh_options_set_secret_key (h : Z) (key : bytes) : M (answer unit) :=
  ffi_guard (-1, tt, 0)
    (if decide (length key = SecretKeySize) then
       r ← get_opts h;
       ffi_try tt r (fun o =>
       change_opts h (mkOpts (preset o) (Some key) (alpns o) (relay_mode_set o) (relay_urls o) (bind_addrs o));;
       okay tt)
     else fail tt (mkError EKeyParsing $"secret key must be 32 bytes")).

(** [src/rust/irohgo-ffi/src/endpoint.rs:131-146 iroh_options_add_alpn] *)
Definition iroh_options_add_alpn (h : Z) (alpn : bytes) : M (answer unit) :=
  ffi_guard (-1, tt, 0)
    (if decide (alpn = []) then fail tt (invalid $"alpn must not be empty")
     else
       r ← get_opts h;
       ffi_try tt r (fun o =>
       change_opts h (mkOpts (preset o) (secret_key_set o) (alpns o ++ [alpn]) (relay_mode_set o) (relay_urls o) (bind_addrs o));;
       okay tt)).

(** [src/rust/irohgo-ffi/src/endpoint.rs:149-155 iroh_options_set_relay_mode] *)
Definition iroh_options_set_relay_mode (h mode : Z) : M (answer unit) :=
  ffi_guard (-1, tt, 0)
    (r ← get_opts h;
     ffi_try tt r (fun o =>
     change_opts h (mkOpts (preset o) (secret_key_set o) (alpns o) (Some mode) (relay_urls o) (bind_addrs o));;
     okay tt)).

(** [src/rust/irohgo-ffi/src/endpoint.rs:158-174 iroh_options_add_relay_url] *)
Definition iroh_options_add_relay_url (h : Z) (url : bytes) : M (answer unit) :=
  ffi_guard (-1, tt, 0)
    (ffi_try tt (str_arg url) (fun url =>
     ffi_try tt (match parse_url url with inl u => inl u | inr e => inr (mkError ERelay e) end) (fun u =>
     r ← get_opts h;
     ffi_try tt r (fun o =>
     change_opts h (mkOpts (preset o) (secret_key_set o) (alpns o) (relay_mode_set o) (relay_urls o ++ [u]) (bind_addrs o));;
     okay tt)))).

(** [src/rust/irohgo-ffi/src/endpoint.rs:177-194 iroh_options_add_bind_addr] *)
Definition iroh_options_add_bind_addr (h : Z) (addr : bytes) : M (answer unit) :=
  ffi_guard (-1, tt, 0)
    (ffi_try tt (str_arg addr) (fun text =>
     ffi_try tt (match parse_sock text with
                 | inl a => inl a
                 | inr e => inr (invalid ($"bad bind address " ++ debug text ++ $": " ++ e))
                 end) (fun a =>
     r ← get_opts h;
     ffi_try tt r (fun o =>
     change_opts h (mkOpts (preset o) (secret_key_set o) (alpns o) (relay_mode_set o) (relay_urls o) (bind_addrs o ++ [a]));;
     okay tt)))).

(** [src/rust/irohgo-ffi/src/endpoint.rs:200-218 iroh_endpoint_bind] *)
Definition iroh_endpoint_bind (options : Z) (a : says) : M Z :=
  ffi_guard 0 (r ← get_opts options; or_ready r (fun o => remove options;; spawn (FBind o) a)).

(** [src/rust/irohgo-ffi/src/endpoint.rs:222-228 iroh_endpoint_id] *)
Definition iroh_endpoint_id (h : Z) (a : says) : M (answer bytes) :=
  let zero := zero_bytes EndpointIDSize in
  ffi_guard (-1, zero, 0)
    (r ← get_endpoint h; ffi_try zero r (fun _ => match a with SaysBytes id => okay id | _ => panic end)).

(** [src/rust/irohgo-ffi/src/endpoint.rs:235-246 iroh_endpoint_addr] *)
Definition iroh_endpoint_addr (h : Z) (a : says) (ptr : Z) : M (answer cbuf) :=
  ffi_guard (-1, nil_buf, 0)
    (r ← get_endpoint h;
     ffi_try nil_buf r (fun _ =>
     match a with SaysAddr addr => b ← out_bytes ptr (encode_addr addr); okay b | _ => panic end)).

(** [src/rust/irohgo-ffi/src/endpoint.rs:255-272 iroh_endpoint_bound_sockets] *)
Definition iroh_endpoint_bound_sockets (h : Z) (a : says) (ptr : Z) : M (answer cbuf) :=
  ffi_guard (-1, nil_buf, 0)
    (r ← get_endpoint h;
     ffi_try nil_buf r (fun _ =>
     match a with SaysSocks l => b ← out_bytes ptr (join NL (map show_sock l)); okay b | _ => panic end)).

(** [src/rust/irohgo-ffi/src/endpoint.rs:294-311 iroh_endpoint_home_relay] *)
Definition iroh_endpoint_home_relay (h : Z) (a : says) (ptr : Z) : M (answer cbuf) :=
  ffi_guard (-1, nil_buf, 0)
    (r ← get_endpoint h;
     ffi_try nil_buf r (fun _ =>
     match a with
     | SaysAddr addr =>
         let urls := omap (fun t => match t with TRelay u => Some u | _ => None end) (r_addrs addr) in
         let url := match urls with u :: _ => show_url u | [] => [] end in
         b ← out_bytes ptr url; okay b
     | _ => panic
     end)).

(** A future of an endpoint: its arguments, once the handle is looked up. *)
Definition endpoint_future (h : Z) (f : startcall) (a : says) : M Z :=
  ffi_guard 0 (r ← get_endpoint h; or_ready r (fun _ => spawn (FCall f) a)).

(** [src/rust/irohgo-ffi/src/endpoint.rs:279-290 iroh_endpoint_online] *)
Definition iroh_endpoint_online (h : Z) (a : says) : M Z := endpoint_future h (endpointOnline h) a.
(** [src/rust/irohgo-ffi/src/endpoint.rs:405-422 iroh_endpoint_accept] *)
Definition iroh_endpoint_accept (h : Z) (a : says) : M Z := endpoint_future h (endpointAccept h) a.
(** [src/rust/irohgo-ffi/src/endpoint.rs:426-437 iroh_endpoint_close] *)
Definition iroh_endpoint_close (h : Z) (a : says) : M Z := endpoint_future h (endpointClose h) a.

(** [src/rust/irohgo-ffi/src/endpoint.rs:325-367 iroh_endpoint_remote_info]
    [copy_from_slice] panics when the lengths differ. *)
Definition iroh_endpoint_remote_info (h : Z) (id : bytes) (a : says) : M Z :=
  ffi_guard 0
    (r ← get_endpoint h;
     or_ready r (fun _ =>
     if decide (length id = EndpointIDSize) then
       match key_bytes id with
       | inr e => spawn_ready (inr (mkError EKeyParsing e))
       | inl _ => spawn (FCall (endpointRemoteInfo h id)) a
       end
     else panic)).

(** [src/rust/irohgo-ffi/src/endpoint.rs:371-398 iroh_endpoint_connect] *)
Definition iroh_endpoint_connect (h : Z) (addr alpn : bytes) (a : says) : M Z :=
  ffi_guard 0
    (or_ready (str_arg addr) (fun text =>
     r ← or_panic (decode_addr text);
     or_ready r (fun addr =>
     r ← get_endpoint h; or_ready r (fun _ => spawn (FConnect addr alpn) a)))).

(** [src/rust/irohgo-ffi/src/endpoint.rs:442-446 iroh_endpoint_free] *)
Definition iroh_endpoint_free (h : Z) : M unit := ffi_guard tt (remove h;; mret tt).

(** ** Futures *)

(** One new iroh object, or an error of kind [k]. *)
Definition new_object_of (k : ErrKind) (t : objtype) (a : says) : M (result OpValue) :=
  match a with
  | SaysOk => h ← insert (SObj t); mret (inl (OVHandle h))
  | SaysErr e => mret (inr (mkError k e))
  | _ => panic
  end.

(** The two halves of a stream. *)
Definition new_pair (a : says) : M (result OpValue) :=
  match a with
  | SaysOk => s ← insert (SObj TySend); r ← insert (SObj TyRecv); mret (inl (OVHandle2 s r))
  | SaysErr e => mret (inr (mkError EConnection e))
  | _ => panic
  end.

Definition new_bytes (b : bytes) : M (result OpValue) :=
  if two63 <=? Z.of_nat (length b) then panic else mret (inl (OVBytes b)).

(** [src/rust/irohgo-ffi/src/stream.rs:58-89 read_err] And [write_err],
    [stopped_err]: a lost connection is told from a failed stream. *)
Definition stream_error (a : says) : M (result OpValue) :=
  match a with
  | SaysErr e => mret (inr (mkError EStream e))
  | SaysLost e => mret (inr (mkError EConnection e))
  | _ => panic
  end.

Definition unit_when (ok : bool) : M (result OpValue) := if ok then mret (inl OVUnit) else panic.
Definition is_ok (a : says) : bool := match a with SaysOk => true | _ => false end.
Definition is_ok_or_err (a : says) : bool := match a with SaysOk | SaysErr _ => true | _ => false end.

(** What a future does when iroh answers: the bodies of the [async move] blocks
    of the calls above. *)
Definition run_future (f : future) (a : says) : M (result OpValue) :=
  match f with
  | FBind o =>
      match into_builder o with
      | inr e => mret (inr e)
      | inl _ => new_object_of EBind TyEndpoint a
      end
  | FConnect _ _ => new_object_of EConnect TyConn a
  | FCall f =>
      match f with
      | endpointBind _ | endpointConnect _ _ _ => panic   (* not captured this way *)
      | endpointOnline _ | endpointClose _ => unit_when (is_ok a)
      | endpointAccept _ =>
          match a with
          | SaysNone => mret (inr (closed_error $"endpoint is closed"))
          | _ => new_object_of EConnect TyConn a
          end
      | endpointRemoteInfo _ _ =>
          match a with
          | SaysNone => new_bytes []
          | SaysRemote l =>
              new_bytes (join NL (map (fun '(t, active) =>
                let '(kind, addr) := kind_and_text t in render_remote kind active addr) l))
          | _ => panic
          end
      | connOpenBi _ | connAcceptBi _ => new_pair a
      | connOpenUni _ => new_object_of EConnection TySend a
      | connAcceptUni _ => new_object_of EConnection TyRecv a
      | connReadDatagram _ =>
          match a with
          | SaysBytes b => new_bytes b
          | SaysErr e => mret (inr (mkError EDatagram e))
          | _ => panic
          end
      | connClosed _ => match a with SaysBytes b => new_bytes b | _ => panic end
      | sendWrite _ _ => match a with SaysNum n => mret (inl (OVU64 n)) | _ => stream_error a end
      | sendFinish _ | sendReset _ _ | recvStop _ _ => unit_when (is_ok_or_err a)
      | sendSetPriority _ _ =>
          match a with
          | SaysOk => mret (inl OVUnit)
          | SaysErr e => mret (inr (mkError EStream e))
          | _ => panic
          end
      | sendStopped _ =>
          match a with
          | SaysNum n => mret (inl (OVU64 n))
          | SaysNone => mret (inl (OVU64 NO_STOP_CODE))
          | _ => stream_error a
          end
      | recvRead _ _ =>
          match a with SaysBytes b => new_bytes b | SaysNone => mret (inl OVEof) | _ => stream_error a end
      end
  end.

(** ** Tasks *)

Definition set_task (id : Z) (t : task) (w : shim) : shim := set_tasks (<[id := t]> (tasks w)) w.

(** The task of [id] runs to its end. *)
Definition task_runs (id : Z) (a : says) (w : shim) : shim :=
  match tasks w !! id with
  | Some (TRunning f) =>
      match run_future f a w with
      | (Done r, w') => set_task id (TFinished r) w'
      | (Panicked, w') => set_task id (TFinished (inr (internal $"operation panicked"))) w'
      | (Blocks, _) => w
      end
  | _ => w
  end.

(** The runtime stops the task of [id], which an abort has asked for. *)
Definition task_stops (id : Z) (w : shim) : shim :=
  match tasks w !! id, arcs w !! id with
  | Some (TRunning _), Some op =>
      if cancel_requested op
      then set_task id (TFinished (inr (mkError ECancelled $"operation cancelled"))) w
      else w
  | _, _ => w
  end.

(** [src/rust/irohgo-ffi/src/ops.rs:234-243 spawn] The supervisor posts. *)
Definition supervisor_posts (id : Z) (w : shim) : shim :=
  match tasks w !! id with
  | Some (TFinished r) => set_task id TPosted (post id r w)
  | _ => w
  end.

(** [src/rust/irohgo-ffi/src/ops.rs:234-243 spawn] The supervisor ends, and
    drops its [Arc]. *)
Definition supervisor_ends (id : Z) (w : shim) : shim :=
  match tasks w !! id with
  | Some TPosted => (drop_op_arc None id (set_tasks (delete id (tasks w)) w)).2
  | _ => w
  end.

(** ** The whole interface *)

Definition start_call (f : startcall) (a : says) : M Z :=
  match f with
  | endpointBind o => iroh_endpoint_bind o a
  | endpointOnline h => iroh_endpoint_online h a
  | endpointRemoteInfo h id => iroh_endpoint_remote_info h id a
  | endpointConnect h addr alpn => iroh_endpoint_connect h addr alpn a
  | endpointAccept h => iroh_endpoint_accept h a
  | endpointClose h => iroh_endpoint_close h a
  | connOpenBi h => iroh_conn_open_bi h a
  | connAcceptBi h => iroh_conn_accept_bi h a
  | connOpenUni h => iroh_conn_open_uni h a
  | connAcceptUni h => iroh_conn_accept_uni h a
  | connReadDatagram h => iroh_conn_read_datagram h a
  | connClosed h => iroh_conn_closed h a
  | sendWrite h data => iroh_send_write h data a
  | sendFinish h => iroh_send_finish h a
  | sendReset h code => iroh_send_reset h code a
  | sendSetPriority h priority => iroh_send_set_priority h priority a
  | sendStopped h => iroh_send_stopped h a
  | recvRead h n => iroh_recv_read h n a
  | recvStop h code => iroh_recv_stop h code a
  end.

Definition unit_call (f : unitcall) (a : says) : M (answer unit) :=
  match f with
  | endpointIDVerify id msg sig => iroh_endpoint_id_verify id msg sig
  | optionsSetSecretKey h key => iroh_options_set_secret_key h key
  | optionsAddALPN h alpn => iroh_options_add_alpn h alpn
  | optionsSetRelayMode h mode => iroh_options_set_relay_mode h mode
  | optionsAddRelayURL h url => iroh_options_add_relay_url h url
  | optionsAddBindAddr h addr => iroh_options_add_bind_addr h addr
  | connSendDatagram h data => iroh_conn_send_datagram h data a
  | connClose h code reason => iroh_conn_close h code reason a
  end.

Definition text_call (f : textcall) (a : says) (ptr : Z) : M (answer cbuf) :=
  match f with
  | endpointIDFormat id => iroh_endpoint_id_format id ptr
  | addrNormalize text => iroh_addr_normalize text ptr
  | ticketEncode text => iroh_ticket_encode text ptr
  | ticketDecode s => iroh_ticket_decode s ptr
  | endpointAddr h => iroh_endpoint_addr h a ptr
  | endpointSockets h => iroh_endpoint_bound_sockets h a ptr
  | endpointHomeRelay h => iroh_endpoint_home_relay h a ptr
  | connALPN h => iroh_conn_alpn h a ptr
  | connPaths h => iroh_conn_paths h a ptr
  end.

Definition out_call (f : outcall) (a : says) : M (answer bytes) :=
  match f with
  | secretKeyPublic key => iroh_secret_key_public key
  | secretKeySign key msg => iroh_secret_key_sign key msg
  | endpointIDParse s => iroh_endpoint_id_parse s
  | endpointID h => iroh_endpoint_id h a
  | connRemoteID h => iroh_conn_remote_id h a
  end.

Definition free_call (f : freecall) : M unit :=
  match f with
  | optionsFree h => iroh_options_free h
  | endpointFree h => iroh_endpoint_free h
  | connFree h => iroh_conn_free h
  | sendFree h => iroh_send_free h
  | recvFree h => iroh_recv_free h
  end.

(** Every C function: [a] is what iroh answers, [ptr] the address a buffer is
    allocated at. *)
Definition shim_call {X} (e : cE X) (a : says) (ptr : Z) : M X :=
  match e in cE X return M X with
  | abiVersion => iroh_abi_version
  | irohVersion => iroh_version ptr
  | initRuntime => iroh_init a
  | setLogLevel level => iroh_set_log_level level a
  | freeBytes p len => iroh_free_bytes p len
  | handleCount => iroh_debug_handle_count
  | completionWait _ => iroh_completion_wait (match a with SaysNone => true | _ => false end)
  | completionWake => iroh_completion_wake
  | opCancel op => iroh_op_cancel op
  | opFree op => iroh_op_free op
  | opResultHandle op => iroh_op_result_handle op
  | opResultHandle2 op => iroh_op_result_handle2 op
  | opResultU64 op => iroh_op_result_u64 op
  | opResultBytes op => iroh_op_result_bytes op ptr
  | opResultErr op => iroh_op_result_err op
  | errorTake err => iroh_error_take err ptr
  | secretKeyGenerate => iroh_secret_key_generate a
  | optionsNew preset => iroh_options_new preset
  | connMaxDatagramSize h => iroh_conn_max_datagram_size h a
  | connStats h cap => iroh_conn_stats h cap a
  | CStart f => start_call f a
  | CUnit f => unit_call f a
  | CText f => text_call f a ptr
  | COut f => out_call f a
  | CFree f => free_call f
  end.
End Shim.
