(* ===== verification/ShimInv.v ===== *)
(** The native library's invariant, and its relation to the contract.

    [winv] is the invariant of [Shim]'s state: handles, operations, tasks and
    queue agree, and a handle in a result nobody collected is in no other.
    [sound w s t] adds what a goroutine owns ([s]) and what any other owns
    ([t]).  The lemmas take the changes the library makes of its state one by
    one: making and dropping handles, operations and buffers. *)
From S2P Require Import Prelude GoErrors Prog Abi Contract Pump Calls GoStrings Keys Netip Addr Conn Endpoint.
From S2P Require Import Registry RustAddr Shim.
Local Open Scope Z_scope.
Local Open Scope go_scope.

Section Inv.
Context {iroh : Iroh} {crates : IrohCrates}.

(** ** What Go sees of the library *)

Definition slots (w : shim) : gmap Z slot := all_slots (reg w).
Definition next_handle (w : shim) : Z := next (reg w).

(** How an operation came out, once its task is over. *)
Definition op_outcome (w : shim) (id : Z) : option (result OpValue) :=
  match tasks w !! id with
  | Some (TRunning _) => None
  | Some (TFinished r) => Some r
  | _ => arcs w !! id ≫= op_result
  end.

(** Handle [h] is in a result nobody has collected. *)
Definition held (w : shim) (h : Z) : Prop :=
  exists id v, op_outcome w id = Some (inl v) /\ h ∈ owned_handles v.

Definition is_object (w : shim) (h : Z) : Prop :=
  match slots w !! h with Some (SObj _) | Some (SOpts _) => True | _ => False end.
Definition is_error (w : shim) (e : Z) : Prop := exists x, slots w !! e = Some (SError x).

(** The supervisor of [op] has posted, or there never was one. *)
Definition over (w : shim) (op : Z) : Prop :=
  match tasks w !! op with Some (TRunning _) | Some (TFinished _) => False | _ => True end.

Definition value_of (r : result OpValue) : opvalue :=
  match r with
  | inl OVUnit => VUnit
  | inl (OVHandle h) => VHandle h
  | inl (OVHandle2 a b) => VHandle2 a b
  | inl (OVU64 n) => VU64 n
  | inl (OVBytes b) => VBytes b
  | inl OVEof => VEof
  | inr _ => VNone
  end.

Definition fits (k : opkind) (r : result OpValue) : Prop :=
  outcome_ok k (status_of r) (value_of r) /\
  match r with inl (OVBytes b) => Z.of_nat (length b) < two63 | _ => True end.

Definition future_kind (f : future) : opkind :=
  match f with FBind _ | FConnect _ _ => KHandle | FCall f => kind_of f end.

(** The completion of [op] is still to be received. *)
Definition queued (w : shim) (op : Z) : Prop := op ∈ (queue w).*1.

(** An operation as Go knows it. *)
Definition op_ok (w : shim) (op : Z) (st : opst) : Prop :=
  slots w !! op = Some (SOp op) /\
  match st with
  | OpRunning k | OpWaiting k =>
      match op_outcome w op with
      | Some r => fits k r /\ (over w op -> queued w op)
      | None => exists f, tasks w !! op = Some (TRunning f) /\ future_kind f = k
      end
  | OpDone k status v =>
      over w op /\
      exists r, op_outcome w op = Some r /\ fits k r /\ status = status_of r /\ v = value_of r
  | OpTaken => over w op /\ op_outcome w op = None
  end.

(** ** The invariant of the library *)

Record winv (w : shim) : Prop := {
  w_sharded : sharded (reg w);
  w_next : 0 < next_handle w < two64;
  w_slots : forall h, is_Some (slots w !! h) -> 0 < h < next_handle w;
  w_op : forall h id, slots w !! h = Some (SOp id) -> id = h /\ is_Some (arcs w !! h);
  w_arcs : forall id, is_Some (arcs w !! id) -> 0 < id < next_handle w;
  w_tasks : forall id, is_Some (tasks w !! id) -> is_Some (arcs w !! id);
  w_held : forall h, held w h -> exists t, slots w !! h = Some (SObj t);
  w_unique : forall id1 id2 v1 v2 h,
    op_outcome w id1 = Some (inl v1) -> op_outcome w id2 = Some (inl v2) ->
    h ∈ owned_handles v1 -> h ∈ owned_handles v2 -> id1 = id2;
  w_nodup : forall id v, op_outcome w id = Some (inl v) -> NoDup (owned_handles v);
  w_queue : forall id status, (id, status) ∈ queue w ->
    0 < id < next_handle w /\ over w id /\
    forall r, arcs w !! id ≫= op_result = Some r -> status = status_of r;
  w_once : NoDup (queue w).*1
}.

(** ** The relation *)

Record rel (w : shim) (s : owned) : Prop := {
  r_ops : forall op st, o_ops s !! op = Some st -> op_ok w op st;
  r_errs : forall e, e ∈ o_errs s -> is_error w e;
  r_handles : forall h, h ∈ o_handles s -> is_object w h /\ ~ held w h;
  r_bufs : forall p n, o_bufs s !! p = Some n -> mem w !! p = Some n
}.

(** Two goroutines own different things. *)
Definition apart (s t : owned) : Prop :=
  (forall op, is_Some (o_ops s !! op) -> o_ops t !! op = None) /\
  (forall e, e ∈ o_errs s -> e ∉ o_errs t) /\
  (forall h, h ∈ o_handles s -> h ∉ o_handles t) /\
  (forall p, is_Some (o_bufs s !! p) -> o_bufs t !! p = None).

Definition sound (w : shim) (s t : owned) : Prop := winv w /\ rel w s /\ rel w t /\ apart s t.

(** ** What iroh documents of its answers *)

Class CratesLaws : Prop := {
  public_key_law : forall k, length (public_key k) = EndpointIDSize;
  sign_law : forall k m, length (sign_with k m) = SignatureSize;
  parse_key_law : forall s k, parse_key s = inl k -> length k = EndpointIDSize
}.

(** A write takes at most what it was given, a read at most what it asked for,
    and numbers fit their types. *)
Definition lawful_future (f : future) (a : says) : Prop :=
  match f, a with
  | FCall (sendWrite _ data), SaysNum n => 0 <= n <= Z.of_nat (length data)
  | FCall (sendStopped _), SaysNum n => 0 <= n < two64
  | FCall (recvRead _ m), SaysBytes b => Z.of_nat (length b) <= m
  | _, _ => True
  end.

Definition lawful_call {X} (e : cE X) (a : says) : Prop :=
  match e, a with
  | secretKeyGenerate, SaysBytes b => length b = SecretKeySize
  | connMaxDatagramSize _, SaysNum n => 0 <= n < two63
  | connStats _ _, SaysNums l => length l = STATS_LEN
  | COut (endpointID _), SaysBytes b | COut (connRemoteID _), SaysBytes b => length b = EndpointIDSize
  | _, _ => True
  end.

(** The counter has [n] ids left. *)
Definition room (n : Z) (w : shim) : Prop := next_handle w + n < two64.

(** ** Lemmas: reading the table *)

Lemma slots_publish w h v : sharded (reg w) ->
  sharded (t_publish h v (reg w)) /\ all_slots (t_publish h v (reg w)) = <[h := v]> (slots w).
Proof. intros H. exact (publish_ok h v (reg w) H). Qed.

Lemma t_slot_slots w h : sharded (reg w) -> t_slot h (reg w) = slots w !! h.
Proof. apply slot_all. Qed.

Lemma remove_slot_spec w h : winv w ->
  (remove_slot h (reg w)).1 = bool_decide (is_Some (slots w !! h)) /\
  sharded (remove_slot h (reg w)).2 /\ next (remove_slot h (reg w)).2 = next_handle w /\
  all_slots (remove_slot h (reg w)).2 = delete h (slots w).
Proof.
  intros W. pose proof (w_sharded w W) as S. unfold remove_slot.
  destruct (Z.eqb_spec h NULL_HANDLE) as [->|Hne]; cbn [fst snd].
  - assert (slots w !! NULL_HANDLE = None) as E.
    { destruct (slots w !! NULL_HANDLE) eqn:E; [|done].
      pose proof (w_slots w W NULL_HANDLE (mk_is_Some _ _ E)). unfold NULL_HANDLE in *. lia. }
    rewrite E. split; [done|]. split; [done|]. split; [done|]. by rewrite delete_id.
  - destruct (drop_ok h (reg w) S) as [S' E]. split; [|done].
    cbn. by rewrite slot_all.
Qed.

Lemma insert_slot_spec w v : winv w -> room 1 w ->
  exists r, insert_slot v (reg w) = (next_handle w, r) /\ sharded r /\
    next r = next_handle w + 1 /\ all_slots r = <[next_handle w := v]> (slots w).
Proof.
  intros W R. pose proof (w_sharded w W) as S. unfold insert_slot. cbn.
  exists (publish (next_handle w) v (mkRegistry (shards (reg w)) (wrap_u64 (next (reg w) + 1)))).
  split; [done|].
  destruct (publish_ok (next_handle w) v (mkRegistry (shards (reg w)) (wrap_u64 (next (reg w) + 1)))) as [S' E].
  { exact S. }
  split; [exact S'|]. split; [|exact E].
  cbn. unfold wrap_u64. pose proof (w_next w W). unfold room, next_handle in *.
  apply Z.mod_small. lia.
Qed.

Lemma get_slot_spec {A} (as_A : slot -> option A) h w : winv w ->
  match get_slot as_A h (reg w) with
  | inl a => exists v, slots w !! h = Some v /\ as_A v = Some a
  | inr _ => True
  end.
Proof.
  intros W. unfold get_slot. destruct (h =? NULL_HANDLE); [done|].
  rewrite t_slot_slots by apply W. destruct (slots w !! h) as [v|]; [|done].
  destruct (as_A v) as [a|] eqn:E; [|done]. by exists v.
Qed.

Lemma get_slot_live {A} (as_A : slot -> option A) h w v a : winv w ->
  slots w !! h = Some v -> as_A v = Some a -> get_slot as_A h (reg w) = inl a.
Proof.
  intros W Hv Ha. unfold get_slot. pose proof (w_slots w W h (mk_is_Some _ _ Hv)).
  rewrite (proj2 (Z.eqb_neq h NULL_HANDLE)) by (unfold NULL_HANDLE; lia).
  rewrite t_slot_slots by apply W. by rewrite Hv, Ha.
Qed.

(** ** Lemmas: what a change leaves alone *)

Definition unowned (t : owned) (h : Z) : Prop :=
  o_ops t !! h = None /\ (h ∉ o_errs t) /\ h ∉ o_handles t.

(** From [w] to [w'] nothing a goroutine can hold on to changes, except the ids
    of [F] and the buffers of [B]. *)
Record keeps (F B : Z -> Prop) (w w' : shim) : Prop := {
  k_object : forall h, ~ F h -> is_object w h -> is_object w' h;
  k_error : forall e, ~ F e -> is_error w e -> is_error w' e;
  k_op : forall op st, ~ F op -> op_ok w op st -> op_ok w' op st;
  k_held : forall h, ~ F h -> is_object w h -> held w' h -> held w h;
  k_mem : forall p n, ~ B p -> mem w !! p = Some n -> mem w' !! p = Some n
}.

Lemma rel_keeps F B w w' t :
  keeps F B w w' -> (forall h, F h -> unowned t h) -> (forall p, B p -> o_bufs t !! p = None) ->
  rel w t -> rel w' t.
Proof.
  intros [Ko Ke Kp Kh Km] HF HB [Ro Re Rh Rb]. constructor.
  - intros op st Hop. apply Kp; [|by apply Ro]. intros D. apply HF in D as (D & _). congruence.
  - intros e He. apply Ke; [|by apply Re]. intros D. by apply HF in D as (_ & D & _).
  - intros h Hh. assert (~ F h) as NF by (intros D; by apply HF in D as (_ & _ & D)).
    apply Rh in Hh as [H1 H2]. split; [by apply Ko|]. intros D. by apply H2, Kh.
  - intros q n Hq. apply Km; [|by apply Rb]. intros D. apply HB in D. congruence.
Qed.

Lemma sound_keeps F B w w' s t :
  sound w s t -> keeps F B w w' -> winv w' ->
  (forall h, F h -> unowned s h /\ unowned t h) ->
  (forall p, B p -> o_bufs s !! p = None /\ o_bufs t !! p = None) ->
  sound w' s t.
Proof.
  intros (W & Rs & Rt & A) K W' HF HB. split; [exact W'|]. split; [|split; [|exact A]].
  - apply (rel_keeps F B w); [exact K| |by apply HB|exact Rs]. intros h Hh. by apply HF.
  - apply (rel_keeps F B w); [exact K| |by apply HB|exact Rt]. intros h Hh. by apply HF.
Qed.

(** Results only go: what calls do to them. *)
Definition shrinks (w w' : shim) : Prop :=
  forall id v, op_outcome w' id = Some (inl v) -> op_outcome w id = Some (inl v).

Lemma shrinks_held w w' h : shrinks w w' -> held w' h -> held w h.
Proof. intros S (id & v & H & Hin). exists id, v. eauto. Qed.

Definition same_slot (x y : option slot) : Prop :=
  y = x \/ exists o o', x = Some (SOpts o) /\ y = Some (SOpts o').

Lemma keeps_view F B w w' :
  (forall h, ~ F h -> is_Some (slots w !! h) -> same_slot (slots w !! h) (slots w' !! h)) ->
  (forall id, ~ F id -> slots w !! id = Some (SOp id) ->
     tasks w' !! id = tasks w !! id /\ arcs w' !! id ≫= op_result = arcs w !! id ≫= op_result) ->
  shrinks w w' ->
  (forall id, ~ F id -> queued w id -> queued w' id) ->
  (forall p n, ~ B p -> mem w !! p = Some n -> mem w' !! p = Some n) ->
  keeps F B w w'.
Proof.
  intros Hs Ho Hr Hq Hm. constructor; [| | | |exact Hm].
  - intros h NF. unfold is_object. destruct (slots w !! h) as [v|] eqn:E; [|done].
    destruct (Hs h NF) as [H|(o & o' & H1 & H2)]; [by rewrite E|rewrite H, E|rewrite H2, H1 in *]; done.
  - intros e NF [x Hx]. exists x. destruct (Hs e NF) as [H|(o & o' & H1 & H2)]; [by rewrite Hx|congruence|congruence].
  - intros op st NF [Hsl Hst]. destruct (Ho op NF Hsl) as [Ht Ha].
    assert (op_outcome w' op = op_outcome w op) as Eo by (unfold op_outcome; by rewrite Ht, Ha).
    split.
    + destruct (Hs op NF) as [H|(o & o' & H1 & H2)]; [by rewrite Hsl|congruence|congruence].
    + unfold over in *. rewrite Eo, Ht. destruct st as [k|k|k status v|]; try exact Hst;
        (destruct (op_outcome w op); [|exact Hst]; destruct Hst as [Hf Hov]; split; [exact Hf|];
         intros H; by apply Hq, Hov).
  - intros h _ _. by apply shrinks_held.
Qed.

(** ** Lemmas: the invariant, change by change *)

Lemma fresh_next w : winv w ->
  slots w !! next_handle w = None /\ arcs w !! next_handle w = None /\
  tasks w !! next_handle w = None /\ next_handle w ∉ (queue w).*1.
Proof.
  intros W. assert (arcs w !! next_handle w = None) as Ea.
  { destruct (arcs w !! next_handle w) eqn:E; [|done].
    pose proof (w_arcs w W _ (mk_is_Some _ _ E)). lia. }
  split_and!; [|exact Ea| |].
  - destruct (slots w !! next_handle w) eqn:E; [|done].
    pose proof (w_slots w W _ (mk_is_Some _ _ E)). lia.
  - destruct (tasks w !! next_handle w) eqn:E; [|done].
    destruct (w_tasks w W _ (mk_is_Some _ _ E)) as [? ?]. congruence.
  - intros ([id st] & E & Hin)%list_elem_of_fmap. simpl in E. subst id.
    pose proof (w_queue w W _ _ Hin). lia.
Qed.

(** The invariant survives a change that makes no new result, when the table,
    the operations and the queue stay in order. *)
Lemma winv_shrinks w w' : winv w ->
  sharded (reg w') -> next_handle w <= next_handle w' < two64 ->
  (forall h v, slots w' !! h = Some v -> slots w !! h = Some v \/
     (0 < h < next_handle w' /\ match v with SOp id => id = h /\ is_Some (arcs w' !! h) | _ => True end)) ->
  (forall id, is_Some (arcs w' !! id) -> is_Some (arcs w !! id) \/ 0 < id < next_handle w') ->
  (forall id, slots w' !! id = Some (SOp id) -> is_Some (arcs w !! id) -> is_Some (arcs w' !! id)) ->
  (forall id, is_Some (tasks w' !! id) -> is_Some (arcs w' !! id)) ->
  shrinks w w' ->
  (forall h, held w' h -> same_slot (slots w !! h) (slots w' !! h)) ->
  (forall id status, (id, status) ∈ queue w' ->
     0 < id < next_handle w' /\ over w' id /\
     forall r, arcs w' !! id ≫= op_result = Some r -> status = status_of r) ->
  NoDup (queue w').*1 ->
  winv w'.
Proof.
  intros W Hsh Hn Hs Ha Hsa Ht Hr Hh Hq Ho. pose proof (w_next w W) as Wn.
  constructor; try done.
  - lia.
  - intros h [v Hv]. apply Hs in Hv as [Hv|[? _]]; [|done].
    pose proof (w_slots w W _ (mk_is_Some _ _ Hv)). lia.
  - intros h id Hv. pose proof Hv as Hv'. apply Hs in Hv as [Hv|[_ ?]]; [|done].
    destruct (w_op w W _ _ Hv) as [-> Hsome]. split; [done|]. by apply Hsa.
  - intros id Hid. apply Ha in Hid as [Hid|?]; [|done]. pose proof (w_arcs w W _ Hid). lia.
  - intros h Hheld. destruct (w_held w W h (shrinks_held _ _ _ Hr Hheld)) as [ty Hty].
    destruct (Hh h Hheld) as [E|(o & o' & E & _)]; [exists ty; congruence|congruence].
  - intros id1 id2 v1 v2 h H1%Hr H2%Hr. by apply (w_unique w W).
  - intros id v H%Hr. by apply (w_nodup w W _ _ H).
Qed.

(** ** The monad *)

(** [m] does not block from [w]; it ends in [Q], or panics in [P]. *)
Definition does {A} (m : M A) (w : shim) (Q : A -> shim -> Prop) (P : shim -> Prop) : Prop :=
  match m w with (Done a, w') => Q a w' | (Panicked, w') => P w' | (Blocks, _) => False end.

Lemma does_bind {A B} (m : M A) (f : A -> M B) w Q P :
  does m w (fun a w' => does (f a) w' Q P) P -> does (m ≫= f) w Q P.
Proof. unfold does, mbind, M_bind. by destruct (m w) as [[a| |] w']. Qed.

Lemma does_mono {A} (m : M A) w (Q Q' : A -> shim -> Prop) (P P' : shim -> Prop) :
  does m w Q P -> (forall a w', Q a w' -> Q' a w') -> (forall w', P w' -> P' w') -> does m w Q' P'.
Proof. unfold does. destruct (m w) as [[a| |] w']; eauto. Qed.

Lemma does_guard {A} (d : A) (m : M A) w Q P :
  does m w Q (Q d) -> does (ffi_guard d m) w Q P.
Proof. unfold does, ffi_guard. by destruct (m w) as [[a| |] w']. Qed.

Lemma does_panic {A} w (Q : A -> shim -> Prop) (P : shim -> Prop) : P w -> does panic w Q P.
Proof. done. Qed.

Lemma does_or_panic {A} (r : option A) w (Q : A -> shim -> Prop) (P : shim -> Prop) :
  (forall a, r = Some a -> Q a w) -> P w -> does (or_panic r) w Q P.
Proof. intros HQ HP. destruct r as [a|]; [by apply HQ|exact HP]. Qed.

Lemma does_get {A} (as_A : slot -> option A) h w Q P : winv w ->
  (forall a v, slots w !! h = Some v -> as_A v = Some a -> Q (inl a) w) ->
  (forall e, Q (inr e) w) -> does (get as_A h) w Q P.
Proof.
  intros W Hl Hr. unfold does, get, lift. pose proof (get_slot_spec as_A h w W) as H.
  destruct (get_slot as_A h (reg w)) as [a|e]; [|done]. destruct H as (v & ? & ?). by eapply Hl.
Qed.

Lemma does_get_live {A} (as_A : slot -> option A) h w v a Q P : winv w ->
  slots w !! h = Some v -> as_A v = Some a -> Q (inl a) w -> does (get as_A h) w Q P.
Proof. intros W Hv Ha HQ. unfold does, get, lift. by rewrite (get_slot_live as_A h w v a). Qed.

(** ** Lemmas: what a goroutine owns *)

Lemma unowned_free w t h : rel w t -> slots w !! h = None -> unowned t h.
Proof.
  intros [Ro Re Rh _] E. split_and!.
  - destruct (o_ops t !! h) eqn:D; [|done]. by destruct (Ro _ _ D) as [? _]; congruence.
  - intros D. by destruct (Re _ D) as [? ?]; congruence.
  - intros D. destruct (Rh _ D) as [D' _]. unfold is_object in D'. by rewrite E in D'.
Qed.

Lemma unowned_object w t h : rel w t -> is_object w h -> h ∉ o_handles t -> unowned t h.
Proof.
  intros [Ro Re _ _] Ho D. unfold is_object in Ho. split_and!; [| |done].
  - destruct (o_ops t !! h) eqn:D'; [|done]. destruct (Ro _ _ D') as [E _]. by rewrite E in Ho.
  - intros D'. destruct (Re _ D') as [x E]. by rewrite E in Ho.
Qed.

Lemma unowned_error w t e : rel w t -> is_error w e -> e ∉ o_errs t -> unowned t e.
Proof.
  intros [Ro _ Rh _] [x E] D. split_and!; [|done|].
  - destruct (o_ops t !! e) eqn:D'; [|done]. destruct (Ro _ _ D') as [E' _]. congruence.
  - intros D'. destruct (Rh _ D') as [Ho _]. unfold is_object in Ho. by rewrite E in Ho.
Qed.

Lemma unowned_op w t op : rel w t -> slots w !! op = Some (SOp op) -> o_ops t !! op = None -> unowned t op.
Proof.
  intros [_ Re Rh _] E D. split_and!; [done| |].
  - intros D'. by destruct (Re _ D') as [x E']; congruence.
  - intros D'. destruct (Rh _ D') as [Ho _]. unfold is_object in Ho. by rewrite E in Ho.
Qed.

(** Owning more, or less. *)
Lemma sound_add_err w s t e : sound w s t -> is_error w e -> unowned t e ->
  sound w (set_errs ({[e]} ∪ o_errs s) s) t.
Proof.
  intros (W & [Ro Re Rh Rb] & Rt & (A1 & A2 & A3 & A4)) He (_ & Ht & _).
  split_and!; [done| |done|].
  - constructor; try done. intros e'. simpl. rewrite elem_of_union, elem_of_singleton.
    intros [->|H]; [done|by apply Re].
  - split_and!; try done. intros e'. simpl. rewrite elem_of_union, elem_of_singleton.
    intros [->|H]; [done|by apply A2].
Qed.

Lemma sound_add_handles w s t hs : sound w s t ->
  Forall (fun h => is_object w h /\ ~ held w h /\ unowned t h) hs -> sound w (add_handles hs s) t.
Proof.
  intros (W & [Ro Re Rh Rb] & Rt & (A1 & A2 & A3 & A4)) Hf.
  split_and!; [done| |done|].
  - constructor; try done. intros h. simpl. rewrite elem_of_union, elem_of_list_to_set.
    intros [H|H]; [|by apply Rh]. by apply (Forall_elem _ _ _ Hf) in H as (? & ? & _).
  - split_and!; try done. intros h. simpl. rewrite elem_of_union, elem_of_list_to_set.
    intros [H|H]; [|by apply A3]. by apply (Forall_elem _ _ _ Hf) in H as (_ & _ & _ & _ & ?).
Qed.

Lemma sound_add_op w s t op st : sound w s t -> op_ok w op st -> o_ops t !! op = None ->
  sound w (add_op op st s) t.
Proof.
  intros (W & [Ro Re Rh Rb] & Rt & (A1 & A2 & A3 & A4)) Hop Ht.
  split_and!; [done| |done|].
  - constructor; try done. intros op' st'. simpl.
    intros [[<- <-]|[_ H]]%lookup_insert_Some; [done|by apply Ro].
  - split_and!; try done. intros op'. simpl. intros [st' [[<- _]|[_ H]]%lookup_insert_Some]; [done|].
    by apply A1.
Qed.

Lemma sound_add_buf w s t p n : sound w s t -> mem w !! p = Some n -> o_bufs t !! p = None ->
  sound w (set_bufs (<[p := n]> (o_bufs s)) s) t.
Proof.
  intros (W & [Ro Re Rh Rb] & Rt & (A1 & A2 & A3 & A4)) Hm Ht.
  split_and!; [done| |done|].
  - constructor; try done. intros p' n'. simpl.
    intros [[<- <-]|[_ H]]%lookup_insert_Some; [done|by apply Rb].
  - split_and!; try done. intros p'. simpl. intros [n' [[<- _]|[_ H]]%lookup_insert_Some]; [done|].
    by apply A4.
Qed.

(** Owning less is always possible. *)
Definition less (s' s : owned) : Prop :=
  o_ops s' ⊆ o_ops s /\ o_errs s' ⊆ o_errs s /\ o_handles s' ⊆ o_handles s /\ o_bufs s' ⊆ o_bufs s.

Lemma sound_less w s s' t : sound w s t -> less s' s -> sound w s' t.
Proof.
  intros (W & [Ro Re Rh Rb] & Rt & (A1 & A2 & A3 & A4)) (L1 & L2 & L3 & L4).
  split_and!; [done| |done|].
  - constructor.
    + intros op st H. by apply Ro, (lookup_weaken _ _ _ _ H L1).
    + intros e H. by apply Re, L2.
    + intros h H. by apply Rh, L3.
    + intros p n H. by apply Rb, (lookup_weaken _ _ _ _ H L4).
  - split_and!.
    + intros op [st H]. apply A1. exists st. exact (lookup_weaken _ _ _ _ H L1).
    + intros e H. by apply A2, L2.
    + intros h H. by apply A3, L3.
    + intros p [n H]. apply A4. exists n. exact (lookup_weaken _ _ _ _ H L4).
Qed.

Lemma less_refl s : less s s.
Proof. by split_and!. Qed.
Lemma less_drop_handle h s : less (drop_handle h s) s.
Proof. split_and!; try done. simpl. set_solver. Qed.
Lemma less_drop_op op s : less (drop_op op s) s.
Proof. split_and!; try done. apply delete_subseteq. Qed.
Lemma less_drop_err e s : less (set_errs (o_errs s ∖ {[e]}) s) s.
Proof. split_and!; try done. simpl. set_solver. Qed.
Lemma less_drop_buf p s : less (set_bufs (delete p (o_bufs s)) s) s.
Proof. split_and!; try done. apply delete_subseteq. Qed.

(** The two goroutines are alike. *)
Lemma sound_sym w s t : sound w s t -> sound w t s.
Proof.
  intros (W & Rs & Rt & (A1 & A2 & A3 & A4)). split; [exact W|]. split; [exact Rt|]. split; [exact Rs|].
  split; [|split; [|split]].
  - intros op [x Hx]. destruct (o_ops s !! op) eqn:E; [|done]. rewrite A1 in Hx; [done|]. by eexists.
  - intros e He D. by apply (A2 e).
  - intros h Hh D. by apply (A3 h).
  - intros p [x Hx]. destruct (o_bufs s !! p) eqn:E; [|done]. rewrite A4 in Hx; [done|]. by eexists.
Qed.

(** The relation looks at four fields only. *)
Lemma sound_fields w s s' t : sound w s t ->
  o_ops s' = o_ops s -> o_errs s' = o_errs s -> o_handles s' = o_handles s -> o_bufs s' = o_bufs s ->
  sound w s' t.
Proof. intros H E1 E2 E3 E4. apply (sound_less w s); [done|]. unfold less. by rewrite E1, E2, E3, E4. Qed.

(** ** Handles and operations are made *)

Lemma shrinks_same w w' : arcs w' = arcs w -> tasks w' = tasks w -> shrinks w w'.
Proof. intros Ea Et id v. unfold op_outcome. by rewrite Ea, Et. Qed.

(** A change of the table alone. *)
Lemma sound_slots F w r s t : sound w s t -> sharded r -> next_handle w <= next r < two64 ->
  (forall h v, all_slots r !! h = Some v -> slots w !! h = Some v \/
     (0 < h < next r /\ match v with SOp _ => False | _ => True end)) ->
  (forall h, ~ F h -> is_Some (slots w !! h) -> same_slot (slots w !! h) (all_slots r !! h)) ->
  (forall h, F h -> unowned s h /\ unowned t h /\ ~ held w h) ->
  sound (set_reg r w) s t.
Proof.
  intros S Hsh Hn Hs Hk HF. pose proof (proj1 S) as W.
  assert (shrinks w (set_reg r w)) as Hshr by by apply shrinks_same.
  apply (sound_keeps F (fun _ => False) w); [exact S| | | |done].
  - apply keeps_view; [exact Hk|done|exact Hshr|done|done].
  - apply (winv_shrinks w); try done.
    + intros h v Hv. destruct (Hs h v Hv) as [?|[? ?]]; [by left|right]. split; [done|by destruct v].
    + by left.
    + apply (w_tasks w W).
    + intros h Hh. assert (held w h) as Hw by exact Hh. apply Hk.
      * intros D. by apply HF in D as (_ & _ & D).
      * destruct (w_held w W h Hw) as [ty E]. by rewrite E.
    + intros id st Hq. destruct (w_queue w W id st Hq) as (? & ? & ?).
      split; [unfold next_handle; simpl; lia|done].
    + apply (w_once w W).
  - intros h Hh. by destruct (HF h Hh) as (? & ? & _).
Qed.

Lemma does_insert v w s t Q P : match v with SOp _ => False | _ => True end ->
  sound w s t -> room 1 w ->
  (forall w' n, n = next_handle w -> sound w' s t -> 0 < n -> unowned s n -> unowned t n ->
     ~ held w' n -> slots w' = <[n := v]> (slots w) -> next_handle w' = n + 1 ->
     arcs w' = arcs w /\ tasks w' = tasks w /\ queue w' = queue w /\ mem w' = mem w -> Q n w') ->
  does (insert v) w Q P.
Proof.
  intros Hv S R HQ. pose proof S as (W & Rs & Rt & _).
  destruct (insert_slot_spec w v W R) as (r & E & Hsh & Hn & Hsl).
  destruct (fresh_next w W) as (Fs & _). pose proof (w_next w W) as Wn.
  unfold does, insert, lift. rewrite E. cbn [fst snd].
  assert (sound (set_reg r w) s t) as S'.
  { apply (sound_slots (fun _ => False)); [exact S|exact Hsh|unfold room in R; lia| | |done].
    - intros h v'. rewrite Hsl. intros [[<- <-]|[_ H]]%lookup_insert_Some; [right|by left].
      split; [lia|done].
    - intros h _ [v' Hv']. left. rewrite Hsl, lookup_insert_ne; [done|]. intros <-. congruence. }
  apply (HQ (set_reg r w) _ eq_refl S'); try done.
  - lia.
  - by eapply unowned_free.
  - by eapply unowned_free.
  - intros D. assert (held w (next_handle w)) as D' by exact D.
    destruct (w_held w W _ D') as [ty ?]. congruence.
Qed.

Lemma does_fail {X} (nothing : X) e w s t Q P : sound w s t -> room 1 w ->
  (forall h w' s', gets_err s h s' -> sound w' s' t -> Q (FFI_ERR, nothing, h) w') ->
  does (fail nothing e) w Q P.
Proof.
  intros S R HQ. unfold fail, store_err. apply does_bind, does_bind.
  apply (does_insert _ w s t); [done|exact S|exact R|].
  intros w' n Hn S' Hpos Us Ut _ Hsl _ _. unfold does. simpl.
  apply (HQ _ _ (set_errs ({[n]} ∪ o_errs s) s)).
  - split; [lia|]. split; [intros _; apply Us|]. by rewrite decide_False by lia.
  - apply sound_add_err; [exact S'| |exact Ut]. exists e. rewrite Hsl. apply lookup_insert_eq.
Qed.

(** One operation moves on: nothing else changes, it yields no new result, and
    it is posted at most once, with its result. *)
Record at_op (n : Z) (w w' : shim) : Prop := {
  a_reg : reg w' = reg w;
  a_mem : mem w' = mem w;
  a_rest : forall id, id <> n -> tasks w' !! id = tasks w !! id /\ arcs w' !! id = arcs w !! id;
  a_known : is_Some (arcs w !! n);
  a_arc : is_Some (tasks w' !! n) \/ slots w !! n = Some (SOp n) -> is_Some (arcs w' !! n);
  a_result : forall v, op_outcome w' n = Some (inl v) -> op_outcome w n = Some (inl v);
  a_queue : queue w' = queue w \/ exists st, queue w' = queue w ++ [(n, st)] /\ (n ∉ (queue w).*1);
  a_posted : forall st, (n, st) ∈ queue w' ->
    over w' n /\ forall r, arcs w' !! n ≫= op_result = Some r -> st = status_of r
}.

Lemma at_op_frame n w w' : at_op n w w' ->
  slots w' = slots w /\ next_handle w' = next_handle w /\ shrinks w w' /\
  (forall x, x ∈ queue w' -> x ∈ queue w \/ x.1 = n) /\ (forall id, queued w id -> queued w' id).
Proof.
  intros [Er _ Ho _ _ Hr Hq _]. split; [unfold slots; by rewrite Er|]. split; [unfold next_handle; by rewrite Er|].
  split.
  { intros id v. destruct (decide (id = n)) as [->|Hne]; [by apply Hr|].
    unfold op_outcome. destruct (Ho id Hne) as [-> ->]. done. }
  unfold queued. destruct Hq as [->|(st & -> & _)]; [by split; [left|]|]. split.
  - intros x. rewrite elem_of_app, list_elem_of_singleton. intros [?| ->]; [by left|by right].
  - intros id. rewrite fmap_app, elem_of_app. by left.
Qed.

Lemma winv_at n w w' : winv w -> at_op n w w' -> winv w'.
Proof.
  intros W H. destruct (at_op_frame n w w' H) as (Es & En & Hshr & Hin & _).
  destruct H as [Er Em Ho Hk Ha _ Hq Hp]. apply (winv_shrinks w); try done.
  - rewrite Er. apply W.
  - rewrite En. pose proof (w_next w W). lia.
  - intros h v. rewrite Es. by left.
  - intros id Hid. left. destruct (decide (id = n)) as [->|Hne]; [done|]. by destruct (Ho id Hne) as [_ <-].
  - intros id Hs Hid. rewrite Es in Hs. destruct (decide (id = n)) as [->|Hne]; [by apply Ha; right|].
    by destruct (Ho id Hne) as [_ ->].
  - intros id Hid. destruct (decide (id = n)) as [->|Hne]; [by apply Ha; left|].
    destruct (Ho id Hne) as [Et ->]. rewrite Et in Hid. by apply (w_tasks w W).
  - intros h _. left. by rewrite Es.
  - intros id st Hx. rewrite En. destruct (decide (id = n)) as [->|Hne].
    + split; [by apply (w_arcs w W)|by apply Hp].
    + destruct (Hin _ Hx) as [Hx'|?]; [|done]. destruct (w_queue w W id st Hx') as (Hb & Hov & Hst).
      destruct (Ho id Hne) as [Et Ea]. split; [done|]. rewrite Ea. split; [|done]. unfold over in *. by rewrite Et.
  - destruct Hq as [->|(st & -> & Hn)]; [apply W|]. rewrite fmap_app.
    apply list.NoDup_app. split; [apply W|]. split; [|apply NoDup_singleton].
    by intros x Hx ->%list_elem_of_singleton.
Qed.

Lemma keeps_at F n w w' : at_op n w w' -> (~ F n -> forall st, op_ok w n st -> op_ok w' n st) ->
  keeps F (fun _ => False) w w'.
Proof.
  intros H Hn. destruct (at_op_frame n w w' H) as (Es & _ & Hshr & _ & Hq). destruct H as [_ Em Ho _ _ _ _ _].
  constructor.
  - intros h _. unfold is_object. by rewrite Es.
  - intros e _. unfold is_error. by rewrite Es.
  - intros op st NF [Hsl Hst]. destruct (decide (op = n)) as [->|Hne]; [by apply Hn|].
    destruct (Ho op Hne) as [Et Ea]. split; [by rewrite Es|]. unfold over, op_outcome in *. rewrite Et, Ea.
    destruct st as [k|k|k status v|]; try exact Hst;
      (destruct (match tasks w !! op with Some (TRunning _) => _ | _ => _ end); [|exact Hst];
       destruct Hst as [Hf Hov]; split; [exact Hf|]; intros H; by apply Hq, Hov).
  - intros h _ _. by apply shrinks_held.
  - intros p k _. by rewrite Em.
Qed.

(** Nobody owns the operation, or its owner can go on as before. *)
Lemma sound_own_op n w w' s t : sound w s t -> unowned s n -> unowned t n -> at_op n w w' -> sound w' s t.
Proof.
  intros S Us Ut H. apply (sound_keeps (fun id => id = n) (fun _ => False) w); [exact S| | | |done].
  - by apply (keeps_at _ n).
  - by apply (winv_at n w); [apply S|].
  - by intros h ->.
Qed.

Lemma sound_at n w w' s t : sound w s t -> at_op n w w' -> (forall st, op_ok w n st -> op_ok w' n st) -> sound w' s t.
Proof.
  intros S H Hn. apply (sound_keeps (fun _ => False) (fun _ => False) w); [exact S| | |done|done].
  - by apply (keeps_at _ n).
  - by apply (winv_at n w); [apply S|].
Qed.

(** What [new_op] does to the tables. *)
Definition op_added (w w' : shim) : Prop :=
  slots w' = <[next_handle w := SOp (next_handle w)]> (slots w) /\
  arcs w' = <[next_handle w := mkOp false None]> (arcs w) /\
  tasks w' = tasks w /\ queue w' = queue w /\ mem w' = mem w /\
  next_handle w' = next_handle w + 1.

Lemma new_op_adds w : winv w -> room 1 w ->
  exists w', new_op w = (next_handle w, w') /\ sharded (reg w') /\ op_added w w'.
Proof.
  intros W R. destruct (insert_slot_spec w (SOp (next_handle w)) W R) as (r & E & Hsh & Hn & Hsl).
  exists (set_arcs (<[next_handle w := mkOp false None]> (arcs w)) (set_reg r w)).
  split; [|by split_and!]. unfold insert_slot in E. unfold new_op. cbn in *. by injection E as <-.
Qed.

(** The new operation has no result, and nobody knew its id. *)
Lemma op_added_results w w' : winv w -> op_added w w' ->
  forall id, arcs w' !! id ≫= op_result = arcs w !! id ≫= op_result.
Proof.
  intros W (_ & Ea & _) id. rewrite Ea. destruct (fresh_next w W) as (_ & Fa & _).
  destruct (decide (id = next_handle w)) as [->|Hne]; [by rewrite lookup_insert_eq, Fa|by rewrite lookup_insert_ne].
Qed.

Lemma op_added_shrinks w w' : winv w -> op_added w w' -> shrinks w w'.
Proof.
  intros W H id v. pose proof (op_added_results w w' W H id) as Er. destruct H as (_ & _ & Et & _).
  unfold op_outcome. by rewrite Er, Et.
Qed.

Lemma winv_op_added w w' : winv w -> room 1 w -> sharded (reg w') -> op_added w w' -> winv w'.
Proof.
  intros W R Hsh H. pose proof (op_added_results w w' W H) as Er. pose proof (op_added_shrinks w w' W H) as Hshr.
  destruct (fresh_next w W) as (Fs & _). pose proof (w_next w W) as Wn.
  destruct H as (Es & Ea & Et & Eq & _ & En). unfold room in R.
  assert (Hkeep : forall id, is_Some (arcs w !! id) -> is_Some (arcs w' !! id)).
  { intros id Hid. rewrite Ea. apply lookup_insert_is_Some'. by right. }
  apply (winv_shrinks w); try done.
  - rewrite En. lia.
  - intros h v. rewrite Es. intros [[<- <-]|[_ H]]%lookup_insert_Some; [right|by left].
    rewrite En, Ea, lookup_insert_eq. split; [lia|]. by split.
  - intros id. rewrite Ea. intros [<-|?]%lookup_insert_is_Some'; [right; rewrite En; lia|by left].
  - intros id _. apply Hkeep.
  - intros id. rewrite Et. intros Hid. by apply Hkeep, (w_tasks w W).
  - intros h Hh. apply (shrinks_held _ _ _ Hshr) in Hh. destruct (w_held w W h Hh) as [ty Hty].
    left. rewrite Es, lookup_insert_ne; [done|]. intros <-. congruence.
  - intros id st. rewrite Eq. intros Hq. destruct (w_queue w W id st Hq) as (? & Ho & ?).
    split; [rewrite En; lia|]. split; [unfold over in *; by rewrite Et|]. by rewrite Er.
  - rewrite Eq. apply (w_once w W).
Qed.

Lemma new_op_spec w s t : sound w s t -> room 1 w ->
  exists w', new_op w = (next_handle w, w') /\ sound w' s t /\ op_added w w'.
Proof.
  intros S R. pose proof S as (W & _). destruct (new_op_adds w W R) as (w' & E & Hsh & H).
  exists w'. split; [exact E|]. split; [|exact H].
  apply (sound_keeps (fun _ => False) (fun _ => False) w); [exact S| |by apply (winv_op_added w)|done|done].
  pose proof (op_added_results w w' W H) as Er. pose proof (op_added_shrinks w w' W H) as Hshr.
  destruct (fresh_next w W) as (Fs & _). destruct H as (Es & _ & Et & Eq & Em & _).
  apply keeps_view; [| |exact Hshr|by intros id _; unfold queued; rewrite Eq|by rewrite Em].
  - intros h _ [v Hv]. left. rewrite Es, lookup_insert_ne; [done|]. intros <-. congruence.
  - intros id _ _. by rewrite Et.
Qed.

(** The state of an operation just published, for its next step. *)
Lemma new_op_ready w s t : sound w s t -> room 1 w ->
  exists w', new_op w = (next_handle w, w') /\ sound w' s t /\ 0 < next_handle w /\
    unowned s (next_handle w) /\ unowned t (next_handle w) /\
    slots w' !! next_handle w = Some (SOp (next_handle w)) /\
    arcs w' !! next_handle w = Some (mkOp false None) /\ tasks w' !! next_handle w = None /\
    next_handle w ∉ (queue w').*1.
Proof.
  intros S R. pose proof S as (W & Rs & Rt & _).
  destruct (new_op_spec w s t S R) as (w' & E & S' & Es & Ea & Et & Eq & _).
  destruct (fresh_next w W) as (Fs & Fa & Ft & Fq). pose proof (w_next w W).
  exists w'. rewrite Es, Ea, Et, Eq, !lookup_insert_eq.
  split_and!; try done; try lia; by (apply (unowned_free w)).
Qed.

(** Starting an operation. *)
Lemma does_spawn f a w s t Q P : sound w s t -> room 1 w ->
  (forall n w', 0 < n -> o_ops s !! n = None ->
     sound w' (add_op n (OpRunning (future_kind f)) s) t -> Q n w') ->
  (forall w', sound w' s t -> P w') -> does (spawn f a) w Q P.
Proof.
  intros S R HQ HP. destruct (new_op_ready w s t S R) as (w1 & E & S1 & Hn & Us & Ut & Hsl & Ha & Ht & Hq).
  unfold spawn. apply does_bind. unfold does at 1, lift. rewrite E.
  set (n := next_handle w) in *. apply does_bind.
  assert (does (runtime a) w1 (fun _ w' => w' = w1) P) as Hrt by (destruct a; first [done|by apply HP]).
  eapply does_mono; [exact Hrt| |done]. intros [] w' ->.
  set (w2 := set_task n (TRunning f) w1).
  change (Q n w2). apply HQ; [done|apply Us|].
  apply sound_add_op; [|split|apply Ut].
  - apply (sound_own_op n w1); [done..|]. constructor; try done; cbn.
    + intros id Hne. by rewrite lookup_insert_ne.
    + intros v. unfold op_outcome. cbn. by rewrite lookup_insert_eq.
    + by left.
    + intros st Hin. destruct Hq. apply list_elem_of_fmap. by exists (n, st).
  - exact Hsl.
  - unfold op_outcome, w2. simpl. rewrite lookup_insert_eq. by exists f.
Qed.

Lemma fits_error k e : fits k (inr e).
Proof.
  split; [|done]. unfold outcome_ok, status_of, StatusOK, StatusErr, StatusCancelled, COMPLETION_ERR, COMPLETION_CANCELLED.
  destruct (decide (e_kind e = ECancelled)); (rewrite decide_False by done); auto.
Qed.

Lemma does_spawn_ready e k w s t Q P : sound w s t -> room 1 w ->
  (forall n w', 0 < n -> o_ops s !! n = None -> sound w' (add_op n (OpRunning k) s) t -> Q n w') ->
  does (spawn_ready (inr e)) w Q P.
Proof.
  intros S R HQ. destruct (new_op_ready w s t S R) as (w1 & E & S1 & Hn & Us & Ut & Hsl & Ha & Ht & Hq).
  unfold does, spawn_ready, lift. rewrite E. set (n := next_handle w) in *.
  set (w2 := post n (inr e) w1).
  assert (Ea : arcs w2 = <[n := mkOp false (Some (inr e))]> (arcs w1)).
  { unfold w2, post, set_result, push. by rewrite Ha. }
  assert (Er : reg w2 = reg w1) by (unfold w2, post, set_result, push; by rewrite Ha).
  assert (Et : tasks w2 = tasks w1) by (unfold w2, post, set_result, push; by rewrite Ha).
  assert (Em : mem w2 = mem w1) by (unfold w2, post, set_result, push; by rewrite Ha).
  assert (Eq : queue w2 = queue w1 ++ [(n, status_of (A := OpValue) (inr e))])
    by (unfold w2, post, set_result, push; by rewrite Ha).
  assert (Eo : op_outcome w2 n = Some (inr e)).
  { unfold op_outcome. rewrite Et, Ht, Ea. by rewrite lookup_insert_eq. }
  apply HQ; [done|apply Us|].
  apply sound_add_op; [|split|apply Ut].
  - apply (sound_own_op n w1); [done..|]. constructor; try done.
    + intros id Hne. rewrite Et, Ea. by rewrite lookup_insert_ne.
    + intros _. rewrite Ea, lookup_insert_eq. by eexists.
    + by rewrite Eo.
    + right. rewrite Eq. by eexists.
    + intros st. rewrite Eq, elem_of_app, list_elem_of_singleton. intros [Hin|[= ->]].
      { destruct Hq. apply list_elem_of_fmap. by exists (n, st). }
      unfold over. rewrite Et, Ht, Ea, lookup_insert_eq. split; [done|]. by intros r [= <-].
  - unfold slots. by rewrite Er.
  - rewrite Eo. split; [apply fits_error|]. intros _. unfold queued.
    rewrite Eq, fmap_app, elem_of_app. right. by left.
Qed.

(** ** Handles and operations go *)

(** A change that no goroutine sees, but for the completion of [op] that was
    received. *)
Lemma sound_unseen (F : Z -> Prop) w w' s t : sound w s t ->
  reg w' = reg w -> tasks w' = tasks w -> mem w' = mem w ->
  (forall id, is_Some (arcs w' !! id) <-> is_Some (arcs w !! id)) ->
  (forall id, arcs w' !! id ≫= op_result = arcs w !! id ≫= op_result) ->
  (forall x, x ∈ queue w' -> x ∈ queue w) -> NoDup (queue w').*1 ->
  (forall id, ~ F id -> queued w id -> queued w' id) ->
  (forall id, F id -> unowned s id /\ unowned t id) ->
  sound w' s t.
Proof.
  intros S Er Et Em Ha Ho Hin Hnd Hq HF. pose proof (proj1 S) as W.
  assert (Es : slots w' = slots w) by (unfold slots; by rewrite Er).
  assert (En : next_handle w' = next_handle w) by (unfold next_handle; by rewrite Er).
  assert (Hshr : shrinks w w') by (intros id v; unfold op_outcome; by rewrite Et, Ho).
  apply (sound_keeps F (fun _ => False) w); [exact S| | |exact HF|done].
  - apply keeps_view; [| |exact Hshr|exact Hq|].
    + intros h _ _. left. by rewrite Es.
    + intros id _ _. by rewrite Et, Ho.
    + intros p n _. by rewrite Em.
  - apply (winv_shrinks w); try done.
    + rewrite Er. apply W.
    + rewrite En. pose proof (w_next w W). lia.
    + intros h v. rewrite Es. by left.
    + intros id Hid%Ha. by left.
    + intros id _ Hid. by apply Ha.
    + intros id. rewrite Et. intros Hid. apply Ha. by apply (w_tasks w W).
    + intros h _. left. by rewrite Es.
    + intros id st Hx%Hin. unfold over. rewrite En, Et, Ho. by apply (w_queue w W).
Qed.

Lemma sound_remove h w s t : sound w s t -> ~ held w h -> unowned s h -> unowned t h ->
  sound (set_reg (remove_slot h (reg w)).2 w) s t.
Proof.
  intros S Hh Us Ut. pose proof (proj1 S) as W. destruct (remove_slot_spec w h W) as (_ & Hsh & Hn & Hsl).
  apply (sound_slots (fun h' => h' = h)); try done.
  - pose proof (w_next w W). lia.
  - intros h' v'. rewrite Hsl. intros [_ H]%lookup_delete_Some. by left.
  - intros h' Hne _. left. rewrite Hsl. by rewrite lookup_delete_ne.
  - by intros h' ->.
Qed.

Lemma does_remove h v w s t Q P : sound w s t ->
  slots w !! h = Some v -> match v with SOp _ => False | _ => True end ->
  ~ held w h -> unowned s h -> unowned t h ->
  (forall w', sound w' s t -> next_handle w' = next_handle w -> Q true w') ->
  does (remove h) w Q P.
Proof.
  intros S Hv Hop Hh Us Ut HQ. pose proof (proj1 S) as W.
  destruct (remove_slot_spec w h W) as (E1 & _ & Hn & _). pose proof (sound_remove h w s t S Hh Us Ut) as S'.
  unfold does, remove. rewrite t_slot_slots by apply W. rewrite Hv.
  destruct (remove_slot h (reg w)) as [was r]. simpl in E1, Hn, S'.
  rewrite bool_decide_eq_true_2 in E1 by by eexists. subst was. destruct v; try done; by apply HQ.
Qed.

Lemma op_ok_arcs w op st : winv w -> op_ok w op st -> is_Some (arcs w !! op).
Proof. intros W [Hsl _]. by destruct (w_op w W _ _ Hsl). Qed.

(** The result of an operation that is over is where it was posted. *)
Lemma over_outcome w op : over w op -> op_outcome w op = arcs w !! op ≫= op_result.
Proof. unfold over, op_outcome. by destruct (tasks w !! op) as [[]|]. Qed.

(** An operation is freed: its slot goes, and it goes too unless its supervisor
    is still there.  Its result owns nothing. *)
Lemma free_op_runs op st w s : winv w -> rel w s -> o_ops s !! op = Some st -> emptied st ->
  over w op /\ slots w !! op = Some (SOp op) /\ is_Some (arcs w !! op) /\
  (forall v, op_outcome w op = Some (inl v) -> owned_handles v = []) /\
  exists a, iroh_op_free op w = (Done tt, set_arcs a (set_reg (remove_slot op (reg w)).2 w)) /\
    (is_Some (tasks w !! op) /\ a = arcs w \/ tasks w !! op = None /\ a = delete op (arcs w)).
Proof.
  intros W Rs Hop Hst. destruct (r_ops w s Rs op st Hop) as [Hsl Hok].
  assert (Hov : over w op) by (destruct st; [done|done|apply Hok|apply Hok]).
  assert (Hempty : forall v, op_outcome w op = Some (inl v) -> owned_handles v = []).
  { intros v Hv. destruct st as [| |k status v'|]; [done|done| |by destruct Hok; congruence].
    destruct Hok as (_ & r & Hr & _ & _ & ->). rewrite Hr in Hv. injection Hv as ->. by destruct v. }
  destruct (w_op w W _ _ Hsl) as [_ [o Ho]].
  split; [exact Hov|]. split; [exact Hsl|]. split; [by eexists|]. split; [exact Hempty|].
  destruct (remove_slot_spec w op W) as (E1 & Hsh & _ & Hsls).
  unfold iroh_op_free, ffi_guard, mbind, M_bind, remove. rewrite t_slot_slots by apply W. rewrite Hsl.
  destruct (remove_slot op (reg w)) as [was r]. cbn in E1, Hsh, Hsls.
  rewrite bool_decide_eq_true_2 in E1 by by eexists. subst was. unfold drop_op_arc.
  assert (Hs1 : slots (set_reg r w) !! op = None).
  { change (slots (set_reg r w)) with (all_slots r). by rewrite Hsls, lookup_delete_eq. }
  unfold mbind, M_bind. rewrite t_slot_slots by exact Hsh. rewrite Hs1. simpl.
  destruct (tasks w !! op) as [tk|] eqn:Et.
  { rewrite bool_decide_eq_true_2 by by eexists. exists (arcs w). split; [done|]. left. split; [by eexists|done]. }
  rewrite bool_decide_eq_false_2 by by intros [? ?]. simpl. rewrite Ho.
  rewrite over_outcome, Ho in Hempty by done. cbn in Hempty. exists (delete op (arcs w)). split; [|by right].
  destruct (op_result o) as [[v|e]|]; [|done|done]. specialize (Hempty v eq_refl). by destruct v.
Qed.

Lemma does_free_op op st w s t Q P : sound w s t ->
  o_ops s !! op = Some st -> emptied st ->
  (forall w', sound w' (drop_op op s) t -> Q tt w') ->
  does (iroh_op_free op) w Q P.
Proof.
  intros S Hop Hst HQ. pose proof S as (W & Rs & Rt & A).
  destruct (free_op_runs op st w s W Rs Hop Hst) as (Hov & Hsl & Ha & Hempty & a & E & Hcase).
  assert (S1 : sound w (drop_op op s) t) by (apply (sound_less w s); [exact S|apply less_drop_op]).
  assert (Us : unowned (drop_op op s) op).
  { apply (unowned_op w); [apply S1|exact Hsl|]. simpl. apply lookup_delete_eq. }
  assert (Ut : unowned t op).
  { apply (unowned_op w); [exact Rt|exact Hsl|]. apply (proj1 A). by eexists. }
  assert (Hnh : ~ held w op).
  { intros Hh. destruct (w_held w W op Hh) as [ty ?]. congruence. }
  pose proof (sound_remove op w _ t S1 Hnh Us Ut) as S2.
  destruct (remove_slot_spec w op W) as (_ & _ & _ & Hsls).
  unfold does. rewrite E. apply HQ. destruct Hcase as [[_ ->]|[Et ->]]; [exact S2|].
  apply (sound_own_op op (set_reg (remove_slot op (reg w)).2 w)); [done..|]. constructor; try done; cbn.
  - intros id Hne. by rewrite lookup_delete_ne.
  - change (slots (set_reg ?r w)) with (all_slots r). rewrite Et, Hsls, lookup_delete_eq. by intros [[? ?]|?].
  - intros v. unfold op_outcome. cbn. by rewrite Et, lookup_delete_eq.
  - by left.
  - intros st' Hin. rewrite lookup_delete_eq. split; [exact Hov|done].
Qed.

(** What is in a result is an object, and nobody's. *)
Lemma held_unowned w u h : winv w -> rel w u -> held w h -> is_object w h /\ unowned u h.
Proof.
  intros W R Hh. destruct (w_held w W h Hh) as [ty Hty].
  assert (is_object w h) as Hobj by (unfold is_object; by rewrite Hty).
  split; [exact Hobj|]. apply (unowned_object w); [exact R|exact Hobj|]. intros D. apply R in D. tauto.
Qed.

(** The operation whose result is taken is the caller's alone. *)
Lemma sound_taken op k status v o w s t : sound w s t -> o_ops s !! op = Some (OpDone k status v) ->
  arcs w !! op = Some o -> sound (set_result op None w) (add_op op OpTaken s) t.
Proof.
  intros S Hop Ea. pose proof S as (_ & Rs & Rt & A). destruct (r_ops w s Rs op _ Hop) as [Hsl (Hov & _)].
  set (w' := set_result op None w).
  assert (Ea' : arcs w' = <[op := mkOp (cancel_requested o) None]> (arcs w))
    by (unfold w', set_result; by rewrite Ea).
  assert (reg w' = reg w /\ tasks w' = tasks w) as [Er Et] by (unfold w', set_result; by rewrite Ea).
  assert (Hov' : over w' op) by (unfold over in *; by rewrite Et).
  assert (Ho' : op_outcome w' op = None) by (rewrite over_outcome by done; by rewrite Ea', lookup_insert_eq).
  assert (S1 : sound w (drop_op op s) t) by (apply (sound_less w s); [exact S|apply less_drop_op]).
  assert (Ut : unowned t op).
  { apply (unowned_op w); [exact Rt|exact Hsl|]. apply (proj1 A). by eexists. }
  assert (Us : unowned (drop_op op s) op).
  { apply (unowned_op w); [apply S1|exact Hsl|]. simpl. apply lookup_delete_eq. }
  assert (S2 : sound w' (drop_op op s) t).
  { apply (sound_own_op op w); [done..|]. constructor; try (unfold w', set_result; by rewrite Ea).
    - intros id Hne. rewrite Et, Ea'. by rewrite lookup_insert_ne.
    - intros _. rewrite Ea', lookup_insert_eq. by eexists.
    - by rewrite Ho'.
    - left. unfold w', set_result. by rewrite Ea.
    - intros st _. rewrite Ea', lookup_insert_eq. by split. }
  apply (sound_less _ (add_op op OpTaken (drop_op op s))).
  - apply sound_add_op; [exact S2| |apply Ut]. split; [unfold slots; by rewrite Er|]. by split.
  - split_and!; try done. simpl. by rewrite insert_delete_eq.
Qed.

(** Collecting a result: it and what it owns are nobody's. *)
Lemma does_take_op op k status v w s t Q P : sound w s t ->
  o_ops s !! op = Some (OpDone k status v) ->
  (forall r w', fits k r -> status = status_of r -> v = value_of r ->
     sound w' (add_op op OpTaken s) t -> next_handle w' = next_handle w -> mem w' = mem w ->
     (forall v', r = inl v' -> NoDup (owned_handles v') /\
        Forall (fun h => is_object w' h /\ ~ held w' h /\ unowned s h /\ unowned t h) (owned_handles v')) ->
     Q r w') ->
  does (take_op op) w Q P.
Proof.
  intros S Hop HQ. pose proof S as (W & Rs & Rt & _).
  destruct (r_ops w s Rs op _ Hop) as [Hsl (Hov & r & Ho & Hf & Hst & Hv)].
  unfold take_op, get_op. apply does_bind. apply (does_get_live _ _ _ (SOp op) op _ _ W Hsl eq_refl).
  pose proof Ho as Ho0. rewrite (over_outcome w op Hov) in Ho.
  unfold does, take_result, lift. rewrite Ho.
  destruct (arcs w !! op) as [o|] eqn:Ea; [|done].
  pose proof (sound_taken op k status v o w s t S Hop Ea) as S'.
  set (w' := set_result op None w) in *.
  assert (Ea' : arcs w' = <[op := mkOp (cancel_requested o) None]> (arcs w))
    by (unfold w', set_result; by rewrite Ea).
  assert (reg w' = reg w /\ tasks w' = tasks w /\ mem w' = mem w) as (Er & Et & Em)
    by (unfold w', set_result; by rewrite Ea).
  apply HQ; try done; [unfold next_handle; by rewrite Er|].
  intros v' ->. split; [by apply (w_nodup w W op)|]. apply list.Forall_forall. intros h Hh.
  assert (held w h) as Hheld by (by exists op, v').
  destruct (held_unowned w s h W Rs Hheld) as [Hobj Us'], (held_unowned w t h W Rt Hheld) as [_ Ut'].
  split; [unfold is_object, slots in *; by rewrite Er|]. split; [|by split].
  intros (id & v2 & H2 & Hin). unfold op_outcome in H2. rewrite Et, Ea' in H2.
  destruct (decide (id = op)) as [->|Hne].
  - rewrite lookup_insert_eq in H2. unfold over in Hov. by destruct (tasks w !! op) as [[]|].
  - rewrite lookup_insert_ne in H2 by done. by apply Hne, (w_unique w W id op v2 v' h).
Qed.

(** ** Buffers, and what touches nothing *)

Lemma sound_mem F w m s t : sound w s t ->
  (forall p n, ~ F p -> mem w !! p = Some n -> m !! p = Some n) ->
  (forall p, F p -> o_bufs s !! p = None /\ o_bufs t !! p = None) ->
  sound (set_mem m w) s t.
Proof.
  intros S Hm HF. pose proof (proj1 S) as W.
  apply (sound_keeps (fun _ => False) F w); [exact S| | |done|exact HF].
  - apply keeps_view; [| |by apply shrinks_same|done|exact Hm]; [intros h _ _; by left|done].
  - by destruct W.
Qed.

(** The allocator: an address not in use. *)
Definition fresh_ptr (w : shim) (ptr : Z) : Prop := 0 < ptr /\ mem w !! ptr = None.

Lemma does_out_bytes ptr b w s t Q P : sound w s t -> fresh_ptr w ptr ->
  (forall c w' s', buf_data c = b -> gets_buf s c s' -> sound w' s' t ->
     reg w' = reg w /\ tasks w' = tasks w /\ arcs w' = arcs w -> Q c w') ->
  P w -> does (out_bytes ptr b) w Q P.
Proof.
  intros S [Hp Hm] HQ HP. pose proof S as (W & Rs & Rt & _). unfold out_bytes.
  destruct (decide (b = [])) as [->|Hne].
  { apply (HQ nil_buf w s); [done| |exact S|done]. split; [done|]. split; [done|]. split; [done|].
    by rewrite decide_True. }
  destruct (Z.leb_spec two63 (Z.of_nat (length b))) as [Hl|Hl]; [exact HP|].
  assert (forall u, rel w u -> o_bufs u !! ptr = None) as Hfree.
  { intros u Ru. destruct (o_bufs u !! ptr) eqn:E; [|done]. apply Ru in E. congruence. }
  apply (HQ _ _ (set_bufs (<[ptr := Z.of_nat (length b)]> (o_bufs s)) s)); [done| | |done].
  - split; [simpl; split; [lia|done]|]. split; [unfold buf_len; simpl; lia|].
    split; [intros _; by apply Hfree|]. by rewrite decide_False.
  - apply sound_add_buf; [|simpl; apply lookup_insert_eq|by apply Hfree].
    apply (sound_mem (fun p => p = ptr)); [exact S| |].
    + intros p n Hne' Hn. by rewrite lookup_insert_ne.
    + intros p ->. split; by apply Hfree.
Qed.

Lemma does_free_bytes ptr len w s t Q P : sound w s t -> o_bufs s !! ptr = Some len ->
  (forall w', sound w' (set_bufs (delete ptr (o_bufs s)) s) t -> Q tt w') ->
  does (iroh_free_bytes ptr len) w Q P.
Proof.
  intros S Hb HQ. assert (S1 : sound w (set_bufs (delete ptr (o_bufs s)) s) t)
    by (apply (sound_less w s); [exact S|apply less_drop_buf]).
  apply does_guard. unfold free_bytes. destruct ((ptr =? 0) || (len =? 0)); [by apply HQ|].
  apply HQ. apply (sound_mem (fun p => p = ptr)); [exact S1| |].
  - intros p n Hne Hn. by rewrite lookup_delete_ne.
  - intros p ->. split; [simpl; apply lookup_delete_eq|]. apply S. by eexists.
Qed.

Lemma sound_cancel op w s t : sound w s t -> sound (cancel op w) s t.
Proof.
  intros S. unfold cancel. destruct (arcs w !! op) as [o|] eqn:E; [|exact S].
  apply (sound_unseen (fun _ => False) w); try done; [| |apply (proj1 S)].
  - intros id. simpl. destruct (decide (id = op)) as [->|Hne].
    + rewrite lookup_insert_eq, E. split; by eexists.
    + by rewrite lookup_insert_ne.
  - intros id. simpl. destruct (decide (id = op)) as [->|Hne].
    + by rewrite lookup_insert_eq, E.
    + by rewrite lookup_insert_ne.
Qed.

Lemma sound_change_opts h o o' w s t : sound w s t -> slots w !! h = Some (SOpts o) ->
  sound (set_reg (t_publish h (SOpts o') (reg w)) w) s t.
Proof.
  intros S Hh. pose proof (proj1 S) as W. pose proof (w_next w W).
  destruct (slots_publish w h (SOpts o') (w_sharded w W)) as [Hsh Hsl].
  apply (sound_slots (fun _ => False)); try done.
  - unfold next_handle in *. simpl. lia.
  - intros h' v'. rewrite Hsl. intros [[<- <-]|[_ H']]%lookup_insert_Some; [right|by left].
    split; [|done]. apply (w_slots w W). by eexists.
  - intros h' _ _. rewrite Hsl. destruct (decide (h' = h)) as [->|Hne].
    + right. rewrite lookup_insert_eq. eauto.
    + left. by rewrite lookup_insert_ne.
Qed.

End Inv.
