(* ===== verification/ShimRefines.v ===== *)
(** The native library keeps the contract its Go side is proved against.

    Every call answers as [Contract.c_post] says and keeps [ShimInv.sound];
    every step of a task keeps it; and a completion taken off the queue is one
    [Contract.completes] allows.  So what [Reference] shows possible the library
    does, for as long as its 64-bit counter has ids left, and it does so for
    each goroutine whatever the others do. *)
From S2P Require Import Prelude GoErrors Prog Abi Contract Pump Calls GoStrings Keys Netip Addr Conn Endpoint.
From S2P Require Import Registry RustAddr Shim ShimInv.
Local Open Scope Z_scope.
Local Open Scope go_scope.

Section Refines.
Context {iroh : Iroh} {crates : IrohCrates}.

(** ** Fallible calls *)

(** What a fallible call answers, with [ok] of what it writes. *)
Definition answers {X} (s t : owned) (ok : X -> Prop) : answer X -> shim -> Prop :=
  fun '(rc, x, e) w' => exists s', gets_rc s rc e s' /\ ok x /\ sound w' s' t.

Lemma answers_ok {X} s t (ok : X -> Prop) x w : sound w s t -> ok x -> answers s t ok (FFI_OK, x, 0) w.
Proof. intros S Hx. exists s. split; [|done]. unfold gets_rc. by rewrite decide_True. Qed.

Lemma answers_fail {X} s t (ok : X -> Prop) x h s' w :
  gets_err s h s' -> sound w s' t -> ok x -> answers s t ok (FFI_ERR, x, h) w.
Proof. intros G S Hx. exists s'. split; [|done]. unfold gets_rc. by rewrite decide_False. Qed.

Lemma gets_no_err s : gets_err s 0 s.
Proof. split; [done|]. split; [done|]. by rewrite decide_True. Qed.

Lemma answers_panic {X} s t (ok : X -> Prop) x w : sound w s t -> ok x -> answers s t ok (-1, x, 0) w.
Proof. intros S Hx. exists s. split; [|done]. unfold gets_rc. rewrite decide_False by done. apply gets_no_err. Qed.

Lemma does_fail_answers {X} (x : X) e ok w s t P : sound w s t -> room 1 w -> ok x ->
  does (fail x e) w (answers s t ok) P.
Proof. intros S R Hx. apply (does_fail _ _ _ s t); [done|done|]. intros h w' s' G S'. by eapply answers_fail. Qed.

Lemma does_try {A X} (x : X) (r : result A) k ok w s t P : sound w s t -> room 1 w -> ok x ->
  (forall a, r = inl a -> does (k a) w (answers s t ok) P) ->
  does (ffi_try x r k) w (answers s t ok) P.
Proof. intros S R Hx Hk. destruct r as [a|e]; [by apply Hk|]. by apply does_fail_answers. Qed.

(** The text calls, which answer with [gets_text]. *)
Definition texts (s t : owned) : answer cbuf -> shim -> Prop :=
  fun '(rc, b, e) w' => exists s', gets_text s rc b e s' /\ sound w' s' t.

Lemma texts_panic s t w : sound w s t -> texts s t (-1, nil_buf, 0) w.
Proof.
  intros S. exists s. split; [|done]. unfold gets_text. rewrite decide_False by done.
  split; [done|apply gets_no_err].
Qed.

Lemma does_fail_texts e w s t P : sound w s t -> room 1 w -> does (fail nil_buf e) w (texts s t) P.
Proof.
  intros S R. apply (does_fail _ _ _ s t); [done|done|]. intros h w' s' G S'. exists s'.
  split; [|done]. unfold gets_text. by rewrite decide_False.
Qed.

Lemma does_try_texts {A} (r : result A) k w s t P : sound w s t -> room 1 w ->
  (forall a, r = inl a -> does (k a) w (texts s t) P) -> does (ffi_try nil_buf r k) w (texts s t) P.
Proof. intros S R Hk. destruct r as [a|e]; [by apply Hk|]. by apply does_fail_texts. Qed.

Lemma does_out_text ptr b w s t P : sound w s t -> fresh_ptr w ptr -> P w ->
  does (b ← out_bytes ptr b; okay b) w (texts s t) P.
Proof.
  intros S F HP. apply does_bind. apply (does_out_bytes _ _ _ s t); [done|done| |done].
  intros c w' s' _ G S' _. exists s'. split; [|done]. unfold gets_text. by rewrite decide_True.
Qed.

(** The calls that start an operation. *)
Definition started (s1 s t : owned) (k : opkind) : Z -> shim -> Prop :=
  fun op w' => op = 0 /\ sound w' s1 t \/
    0 < op /\ o_ops s !! op = None /\ sound w' (add_op op (OpRunning k) s1) t.

Lemma does_spawn_started f a w s1 s t (P : shim -> Prop) : sound w s1 t -> room 1 w -> o_ops s = o_ops s1 ->
  (forall w', sound w' s1 t -> P w') ->
  does (spawn f a) w (started s1 s t (future_kind f)) P.
Proof.
  intros S R E HP. apply (does_spawn _ _ _ s1 t); [done|done| |done].
  intros n w' Hn Hop S'. right. by rewrite E.
Qed.

Lemma does_ready_started {A} (r : result A) g k w s1 s t P : sound w s1 t -> room 1 w -> o_ops s = o_ops s1 ->
  (forall a, r = inl a -> does (g a) w (started s1 s t k) P) ->
  does (or_ready r g) w (started s1 s t k) P.
Proof.
  intros S R E Hg. destruct r as [a|e]; [by apply Hg|].
  apply (does_spawn_ready _ k _ s1 t); [done|done|]. intros n w' Hn Hop S'. right. by rewrite E.
Qed.

(** One step of a call's body. *)
Ltac step :=
  match goal with
  | H : inr _ = inl _ |- _ => discriminate H
  | |- does (ffi_guard _ _) _ _ _ => apply does_guard
  | |- does (mbind _ (out_bytes _ _)) _ (texts _ _) _ => apply does_out_text; [done|done|]
  | |- does (mbind _ _) _ _ _ => apply does_bind
  | |- does (get _ _) _ _ _ => apply does_get; [by match goal with S : sound _ _ _ |- _ => exact (proj1 S) end|intros ? ? ? ?|intros ?]
  | |- does (ffi_try _ _ _) _ (answers _ _ _) _ => apply does_try; [done|done|done|intros ? ?]
  | |- does (ffi_try _ _ _) _ (texts _ _) _ => apply does_try_texts; [done|done|intros ? ?]
  | |- does (fail _ _) _ (answers _ _ _) _ => apply does_fail_answers; [done|done|done]
  | |- does (fail _ _) _ (texts _ _) _ => apply does_fail_texts; [done|done]
  | |- does (okay _) _ (answers _ _ _) _ => apply answers_ok; [done|]
  | |- does panic _ _ _ => apply does_panic
  | |- does (or_panic _) _ _ _ => apply does_or_panic; [intros ? ?|]
  | |- does (or_ready _ _) _ (started _ _ _ _) _ => apply does_ready_started; [done|done|done|intros ? ?]
  | |- does (spawn_ready (inr ?e)) _ (started _ _ _ ?k) _ =>
      apply (does_ready_started (A := Z) (inr e) (fun _ => panic)); [done|done|done|done]
  | |- does (spawn ?f _) _ (started _ _ _ _) _ =>
      apply (does_spawn_started f); [done|done|done|intros ? ?; left; split; done]
  | |- does (if ?b then _ else _) _ _ _ => destruct b eqn:?
  | |- does (match ?x with _ => _ end) _ _ _ => destruct x eqn:?; try done
  | |- answers _ _ _ (-1, _, 0) _ => apply answers_panic; [done|]
  | |- texts _ _ (-1, _, 0) _ => apply texts_panic; done
  end.

Lemma change_opts_answers h o o' a w s t P : sound w s t -> slots w !! h = Some a -> as_opts a = Some o ->
  does (change_opts h o';; okay tt) w (answers s t (fun _ => True)) P.
Proof.
  intros S Ha Ho. destruct a; try done. apply does_bind. apply answers_ok; [|done].
  by eapply sound_change_opts.
Qed.

Ltac opts_step :=
  match goal with
  | H : inl _ = inl _ |- _ => injection H as <-
  | |- does (mbind _ (change_opts _ _)) _ _ _ => eapply change_opts_answers; eassumption
  end.

Lemma unit_call_answers f a w s t : sound w s t -> room 1 w ->
  does (unit_call f a) w (answers s t (fun _ => True)) (fun _ => False).
Proof.
  intros S R. destruct f; cbn [unit_call];
    unfold iroh_endpoint_id_verify, iroh_options_set_secret_key, iroh_options_add_alpn,
      iroh_options_set_relay_mode, iroh_options_add_relay_url, iroh_options_add_bind_addr,
      iroh_conn_send_datagram, iroh_conn_close, get_opts, get_conn;
    repeat first [opts_step | step | done].
Qed.

Lemma text_call_answers f a ptr w s t : sound w s t -> room 1 w -> fresh_ptr w ptr ->
  does (text_call f a ptr) w (texts s t) (fun _ => False).
Proof.
  intros S R F. destruct f; cbn [text_call];
    unfold iroh_endpoint_id_format, iroh_addr_normalize, iroh_ticket_encode, iroh_ticket_decode,
      iroh_endpoint_addr, iroh_endpoint_bound_sockets, iroh_endpoint_home_relay, iroh_conn_alpn,
      iroh_conn_paths, get_endpoint, get_conn;
    repeat first [step | done].
Qed.

(** A handle that Go frees, or consumes. *)
Lemma owned_object w s t h : sound w s t -> h ∈ o_handles s ->
  exists v, slots w !! h = Some v /\ match v with SObj _ | SOpts _ => True | _ => False end /\
    ~ held w h /\ unowned (drop_handle h s) h /\ unowned t h /\ sound w (drop_handle h s) t.
Proof.
  intros S Hh. pose proof S as (W & Rs & Rt & A). destruct (r_handles w s Rs h Hh) as [Ho Hn].
  assert (S1 : sound w (drop_handle h s) t) by (apply (sound_less w s); [exact S|apply less_drop_handle]).
  pose proof Ho as Ho'. unfold is_object in Ho. destruct (slots w !! h) as [v|] eqn:E; [|done].
  exists v. split; [done|]. split; [by destruct v|]. split; [done|]. split; [|split; [|exact S1]].
  - apply (unowned_object w); [apply S1|done|]. simpl. set_solver.
  - apply (unowned_object w); [done|done|]. by apply A.
Qed.

Lemma does_free f h w s t : sound w s t -> h ∈ o_handles s ->
  f = ffi_guard tt (remove h;; mret tt) ->
  does f w (fun _ w' => sound w' (drop_handle h s) t) (fun _ => False).
Proof.
  intros S Hh ->. destruct (owned_object w s t h S Hh) as (v & Hv & Hk & Hn & Us & Ut & S1).
  apply does_guard, does_bind. eapply (does_remove h v); [exact S1|done|by destruct v|done|done|done|].
  intros w' S' _. exact S'.
Qed.

Lemma does_bind_call o a w s t : sound w s t -> room 1 w -> o ∈ o_handles s ->
  does (iroh_endpoint_bind o a) w (started (drop_handle o s) s t KHandle) (fun _ => False).
Proof.
  intros S R Ho. destruct (owned_object w s t o S Ho) as (v & Hv & Hk & Hn & Us & Ut & S1).
  unfold iroh_endpoint_bind, get_opts. apply does_guard. repeat step.
  eapply (does_remove o v); [exact S1|done|by destruct v|done|done|done|].
  intros w' S' Hnx. assert (room 1 w') by (unfold room in *; lia). repeat step.
Qed.

Lemma start_call_started f a w s t : sound w s t -> room 1 w -> start_pre s f ->
  does (start_call f a) w (started (base f s) s t (kind_of f)) (fun _ => False).
Proof.
  intros S R Hpre. destruct f; [by apply does_bind_call, Hpre|..]; cbn [base start_call kind_of];
    unfold iroh_endpoint_online, iroh_endpoint_accept, iroh_endpoint_close, endpoint_future,
      iroh_endpoint_remote_info, iroh_endpoint_connect, iroh_conn_open_bi, iroh_conn_accept_bi,
      iroh_conn_open_uni, iroh_conn_accept_uni, iroh_conn_read_datagram, iroh_conn_closed, conn_future,
      iroh_send_write, iroh_send_finish, iroh_send_reset, iroh_send_set_priority, iroh_send_stopped,
      iroh_recv_read, iroh_recv_stop, get_endpoint, get_conn, get_send, get_recv;
    repeat first [step | left; split; done].
Qed.

Lemma out_call_answers `{!CratesLaws} f a w s t : sound w s t -> room 1 w -> lawful_call (COut f) a ->
  does (out_call f a) w (answers s t (fun x => length x = out_size f)) (fun _ => False).
Proof.
  intros S R L. destruct f; cbn [out_call out_size];
    unfold iroh_secret_key_public, iroh_secret_key_sign, iroh_endpoint_id_parse, iroh_endpoint_id,
      iroh_conn_remote_id, get_endpoint, get_conn; repeat first [step | done].
  - apply public_key_law.
  - apply sign_law.
  - by eapply parse_key_law.
Qed.

(** ** Collectors *)

(** What a successful result of each shape comes from. *)
Lemma value_of_inv r : status_of r = COMPLETION_OK ->
  exists v, r = inl v /\ value_of r <> VNone.
Proof.
  destruct r as [v|e]; [intros _; exists v; by destruct v|].
  unfold status_of. by case_decide.
Qed.

Lemma collects_ok s op k (Qok : owned -> owned -> Prop) s' :
  Qok (add_op op OpTaken s) s' -> collects s op k 0 0 Qok s'.
Proof. intros H. by left. Qed.

Lemma unowned_add_op s op h st : unowned s h -> (h ∉ o_handles (add_op op st s)).
Proof. intros (_ & _ & H). exact H. Qed.

Lemma result_handle_ok op h w s t : sound w s t ->
  o_ops s !! op = Some (OpDone KHandle StatusOK (VHandle h)) ->
  does (iroh_op_result_handle op) w
    (fun x w' => exists s', c_post s (opResultHandle op) x s' /\ sound w' s' t) (fun _ => False).
Proof.
  intros S Hop. apply does_guard, does_bind. eapply does_take_op; [exact S|exact Hop|].
  intros r w' _ Hst Hv S' _ _ Hown.
  destruct (value_of_inv r (eq_sym Hst)) as (v & -> & _). destruct v; try done. injection Hv as <-.
  destruct (Hown _ eq_refl) as [_ Hf]. simpl in Hf.
  exists (add_handles [h] (add_op op OpTaken s)). split.
  - exists h. split; [done|]. apply collects_ok. split; [done|]. split; [|done].
    apply Forall_singleton. apply Forall_singleton in Hf as (_ & _ & Hs & _). by apply unowned_add_op.
  - apply sound_add_handles; [exact S'|]. apply Forall_singleton. apply Forall_singleton in Hf as (? & ? & ? & ?). by split_and!.
Qed.

Lemma result_handle2_ok op a b w s t : sound w s t ->
  o_ops s !! op = Some (OpDone KHandle2 StatusOK (VHandle2 a b)) ->
  does (iroh_op_result_handle2 op) w
    (fun x w' => exists s', c_post s (opResultHandle2 op) x s' /\ sound w' s' t) (fun _ => False).
Proof.
  intros S Hop. apply does_guard, does_bind. eapply does_take_op; [exact S|exact Hop|].
  intros r w' _ Hst Hv S' _ _ Hown.
  destruct (value_of_inv r (eq_sym Hst)) as (v & -> & _). destruct v; try done. injection Hv as <- <-.
  destruct (Hown _ eq_refl) as [_ Hf]. simpl in Hf.
  exists (add_handles [a; b] (add_op op OpTaken s)). split.
  - exists a, b. split; [done|]. apply collects_ok. split_and!; try done.
    eapply Forall_impl; [|exact Hf]. intros h (_ & _ & Hs & _). by apply unowned_add_op.
  - apply sound_add_handles; [exact S'|]. eapply Forall_impl; [|exact Hf]. intros h (? & ? & ? & ?). by split_and!.
Qed.

Lemma result_u64_ok op k n w s t : sound w s t ->
  o_ops s !! op = Some (OpDone k StatusOK (VU64 n)) ->
  does (iroh_op_result_u64 op) w
    (fun x w' => exists s', c_post s (opResultU64 op) x s' /\ sound w' s' t) (fun _ => False).
Proof.
  intros S Hop. apply does_guard, does_bind. eapply does_take_op; [exact S|exact Hop|].
  intros r w' _ Hst Hv S' _ _ _.
  destruct (value_of_inv r (eq_sym Hst)) as (v & -> & _). destruct v; try done. injection Hv as <-.
  exists (add_op op OpTaken s). split; [|exact S']. exists k, n. split; [done|]. by apply collects_ok.
Qed.

Lemma result_bytes_ok op ptr k v w s t : sound w s t -> fresh_ptr w ptr ->
  o_ops s !! op = Some (OpDone k StatusOK v) -> (match v with VBytes _ | VEof => True | _ => False end) ->
  does (iroh_op_result_bytes op ptr) w
    (fun x w' => exists s', c_post s (opResultBytes op) x s' /\ sound w' s' t) (fun _ => False).
Proof.
  intros S F Hop Hv0. apply does_guard, does_bind. eapply does_take_op; [exact S|exact Hop|].
  intros r w' Hfit Hst Hv S' _ Hm _.
  destruct (value_of_inv r (eq_sym Hst)) as (v' & -> & _).
  destruct v'; simpl in Hv; subst v; try done; apply does_bind.
  - unfold out_bytes. destruct (decide (b = [])) as [->|Hne].
    + exists (add_op op OpTaken s). split; [|exact S']. exists k, (VBytes []). split; [done|].
      apply collects_ok. split; [done|]. split; [done|]. split; [done|]. split; [done|]. split; [done|].
      by rewrite decide_True.
    + rewrite (proj2 (Z.leb_gt two63 (Z.of_nat (length b)))) by apply Hfit.
      assert (does (out_bytes ptr b) w' (fun c w1 => exists s1, buf_data c = b /\
        gets_buf (add_op op OpTaken s) c s1 /\ sound w1 s1 t) (fun _ => True)) as Hd.
      { eapply does_out_bytes; [exact S'| | |done].
        - destruct F as [Fp Fm]. split; [done|]. by rewrite Hm.
        - eauto. }
      unfold out_bytes in Hd. rewrite decide_False in Hd by done.
      rewrite (proj2 (Z.leb_gt two63 (Z.of_nat (length b)))) in Hd by apply Hfit.
      destruct Hd as (s1 & Hd & G & S1). exists s1. split; [|exact S1].
      exists k, (VBytes b). split; [done|]. by apply collects_ok.
  - exists (add_op op OpTaken s). split; [|exact S']. exists k, VEof. split; [done|]. by apply collects_ok.
Qed.

Lemma result_err_ok op k status w s t : sound w s t -> room 1 w ->
  o_ops s !! op = Some (OpDone k status VNone) ->
  does (iroh_op_result_err op) w
    (fun x w' => exists s', c_post s (opResultErr op) x s' /\ sound w' s' t) (fun _ => False).
Proof.
  intros S R Hop. apply does_guard, does_bind. eapply does_take_op; [exact S|exact Hop|].
  intros r w' _ _ Hv S' Hn _ _. assert (room 1 w') by (unfold room in *; lia).
  destruct r as [v|e]; [by destruct v|].
  apply (does_fail _ _ _ (add_op op OpTaken s) t); [done|done|]. eauto.
Qed.

Lemma kind_num_range k : 0 <= kind_num k <= 13.
Proof. destruct k; simpl; lia. Qed.

Lemma error_take_ok err ptr w s t : sound w s t -> fresh_ptr w ptr -> err ∈ o_errs s ->
  does (iroh_error_take err ptr) w
    (fun x w' => exists s', c_post s (errorTake err) x s' /\ sound w' s' t) (fun _ => False).
Proof.
  intros S F He. pose proof S as (W & Rs & Rt & A). destruct (r_errs w s Rs err He) as [x Hx].
  set (s0 := set_errs (o_errs s ∖ {[err]}) s).
  assert (S0 : sound w s0 t) by (apply (sound_less w s); [exact S|apply less_drop_err]).
  assert (Ut : unowned t err) by (apply (unowned_error w); [done|by exists x|by apply A]).
  apply does_guard, does_bind. apply (does_get_live _ _ _ (SError x) x); [done|done|done|].
  apply does_bind, does_bind. apply (does_out_bytes _ _ _ s0 t); [exact S0|exact F| |].
  - intros c w1 s1 _ G S1 (Er & Et & Ea). pose proof G as (_ & _ & _ & Es1).
    assert (Hx1 : slots w1 !! err = Some (SError x)) by (unfold slots in *; by rewrite Er).
    assert (Us : unowned s1 err).
    { apply (unowned_error w1); [apply S1|by exists x|]. rewrite Es1. case_decide; simpl; set_solver. }
    unfold does at 1. cbn [fst snd mret M_ret]. apply does_bind.
    eapply (does_remove err (SError x)); [exact S1|done|done| |done|done|].
    + intros Hh. destruct (w_held w1 (proj1 S1) err Hh) as [ty ?]. congruence.
    + intros w2 S2 _. exists s1. split; [|exact S2]. split; [apply kind_num_range|exact G].
  - exists s0. split; [|exact S0]. split; [lia|]. split; [done|]. split; [done|]. split; [done|].
    by rewrite decide_True.
Qed.

(** There are fewer live handles than ids given out. *)
Lemma count_bound w : winv w -> 0 <= Z.of_nat (t_len (reg w)) < two64.
Proof.
  intros W. assert (t_len (reg w) = size (dom (slots w) : gset Z)) as E.
  { rewrite size_dom. exact (len_law (reg w) (w_sharded w W)). }
  pose proof (w_next w W) as Wn.
  assert ((dom (slots w) : gset Z) ⊆ list_to_set (seqZ 1 (next_handle w - 1))) as Hsub.
  { intros h Hh%elem_of_dom. apply elem_of_list_to_set, elem_of_seqZ.
    pose proof (w_slots w W h Hh). lia. }
  apply subseteq_size in Hsub. rewrite size_list_to_set in Hsub by apply NoDup_seqZ.
  rewrite length_seqZ in Hsub. lia.
Qed.

(** ** Every call *)

(** The start of an operation, as the contract has it. *)
Lemma started_starts f s t op w' : started (base f s) s t (kind_of f) op w' ->
  exists s', starts s f op s' /\ sound w' s' t.
Proof.
  intros [[-> S']|(Hn & Hop & S')].
  - exists (base f s). split; [|exact S']. split; [lia|]. by left.
  - exists (add_op op (OpRunning (kind_of f)) (base f s)). split; [|exact S'].
    split; [lia|]. right. split; [lia|]. by split.
Qed.

Lemma options_new_ok p w s t : sound w s t -> room 1 w ->
  does (iroh_options_new p) w (fun h w' => exists s', c_post s (optionsNew p) h s' /\ sound w' s' t) (fun _ => False).
Proof.
  intros S R. pose proof (proj1 S) as W. apply does_guard. eapply (does_insert _ w s t); [done|exact S|exact R|].
  intros w' n Hn S' Hpos Us Ut Hh Hsl _ _. exists (add_options n s). split.
  - split; [done|]. split; [apply Us|done].
  - apply (sound_fields _ (add_handles [n] s)); [|done..]. apply sound_add_handles; [exact S'|]. apply Forall_singleton.
    split; [|by split]. unfold is_object. by rewrite Hsl, lookup_insert_eq.
Qed.

Lemma datagram_size_answers h a w s t : sound w s t -> room 1 w -> lawful_call (connMaxDatagramSize h) a ->
  does (iroh_conn_max_datagram_size h a) w (answers s t (fun n => 0 <= n < two63)) (fun _ => False).
Proof.
  intros S R L. pose proof (proj1 S) as W.
  unfold iroh_conn_max_datagram_size, get_conn. simpl in L. repeat first [step | done].
Qed.

Lemma stats_answers h cap a w s t : sound w s t -> room 1 w -> cap = Z.of_nat StatsLen -> lawful_call (connStats h cap) a ->
  does (iroh_conn_stats h cap a) w (answers s t (fun l => length l = Z.to_nat cap)) (fun _ => False).
Proof.
  intros S R -> L. pose proof (proj1 S) as W.
  unfold iroh_conn_stats, get_conn. simpl in L. repeat first [step | done].
  rewrite length_app, L. done.
Qed.

Lemma shim_call_ok `{!CratesLaws} X (e : cE X) a ptr w s t :
  sound w s t -> c_pre s e -> room 1 w -> fresh_ptr w ptr -> lawful_call e a ->
  does (shim_call e a ptr) w (fun x w' => exists s', c_post s e x s' /\ sound w' s' t) (fun _ => False).
Proof.
  intros S Hpre R F L. pose proof (proj1 S) as W. destruct e; cbn [shim_call].
  - exists s. split; [|exact S]. split; [unfold ABI_VERSION, two64; lia|done].
  - apply does_guard. apply (does_out_bytes _ _ _ s t); [exact S|exact F| |].
    + intros c w' s' _ G S' _. by exists s'.
    + exists s. split; [|exact S]. split; [done|]. split; [done|]. split; [done|]. by rewrite decide_True.
  - destruct a; exists s; by split.
  - unfold iroh_set_log_level. apply does_guard. destruct ((0 <=? level) && (level <=? 5));
      [destruct a|]; exists s; by split.
  - destruct Hpre as [_ Hb]. eapply does_free_bytes; [exact S|exact Hb|].
    intros w' S'. by eexists.
  - exists s. split; [|exact S]. split; [by apply count_bound|done].
  - by destruct Hpre.
  - exists s. split; [done|]. apply (sound_unseen (fun _ => False) w); try done. apply W.
  - unfold iroh_op_cancel, get_op. apply does_guard, does_bind. apply does_get; [exact W| |].
    + intros id v _ _. exists s. split; [done|]. by apply sound_cancel.
    + intros e. exists s. by split.
  - destruct Hpre as [_ (st & Hop & Hst)]. eapply does_free_op; [exact S|exact Hop|exact Hst|].
    intros w' S'. by eexists.
  - destruct Hpre as [_ [h Hop]]. by eapply result_handle_ok.
  - destruct Hpre as [_ (a0 & b0 & Hop)]. by eapply result_handle2_ok.
  - destruct Hpre as [_ (k & v & Hop)]. by eapply result_u64_ok.
  - destruct Hpre as [_ (k & v & Hop & Hv)]. by eapply result_bytes_ok.
  - destruct Hpre as [_ (k & st & Hop & _)]. by eapply result_err_ok.
  - destruct Hpre as [_ He]. by apply error_take_ok.
  - unfold iroh_secret_key_generate. destruct a; try (exists s; by split).
  - by apply options_new_ok.
  - eapply does_mono; [by apply datagram_size_answers| |done].
    intros [[rc n] e] w' (s' & G & Hn & S'). exists s'. by split.
  - destruct Hpre as (_ & _ & Hcap). eapply does_mono; [by apply stats_answers| |done].
    intros [[rc l] e] w' (s' & G & Hl & S'). exists s'. by split.
  - destruct Hpre as [_ Hpre]. eapply does_mono; [by apply start_call_started| |done].
    intros op w' Hs. by apply started_starts.
  - eapply does_mono; [by apply unit_call_answers| |done].
    intros [[rc []] e] w' (s' & G & _ & S'). exists s'. by split.
  - eapply does_mono; [by apply text_call_answers| |done].
    intros [[rc b] e] w' (s' & G & S'). exists s'. by split.
  - eapply does_mono; [by apply out_call_answers| |done].
    intros [[rc out] e] w' (s' & G & Hl & S'). exists s'. by split.
  - destruct Hpre as [_ Hh]. eapply does_mono; [by eapply does_free; [exact S|exact Hh|destruct f]| |done].
    intros [] w' S'. by eexists.
Qed.

(** ** Tasks *)

(** A new object, in nobody's hands. *)
Definition loose (w : shim) (s t : owned) (h : Z) : Prop :=
  (exists ty, slots w !! h = Some (SObj ty)) /\ ~ held w h /\ unowned s h /\ unowned t h.

(** What a future leaves when it is done: [r], and the objects in it. *)
Definition made (w : shim) (s t : owned) (k : opkind) (r : result OpValue) (w' : shim) : Prop :=
  sound w' s t /\ tasks w' = tasks w /\ arcs w' = arcs w /\ queue w' = queue w /\ fits k r /\
  forall v, r = inl v -> NoDup (owned_handles v) /\ Forall (loose w' s t) (owned_handles v).

Lemma made_plain w s t k r : sound w s t -> fits k r ->
  match r with inl v => owned_handles v = [] | inr _ => True end -> made w s t k r w.
Proof.
  intros S Hf Hr. do 4 (split; [done|]). split; [exact Hf|].
  intros v ->. rewrite Hr. split; constructor.
Qed.

Lemma fits_ok k v : value_ok k (value_of (inl v)) ->
  match v with OVBytes b => Z.of_nat (length b) < two63 | _ => True end -> fits k (inl v).
Proof. intros H Hb. split; [|by destruct v]. unfold outcome_ok. by rewrite decide_True. Qed.

Lemma does_new_object ek ty a w s t k : sound w s t -> room 2 w -> k = KHandle ->
  does (new_object_of ek ty a) w (made w s t k) (fun w' => w' = w).
Proof.
  intros S R ->. unfold new_object_of. destruct a; try done.
  - apply does_bind. apply (does_insert _ w s t); [done|exact S|unfold room in *; lia|].
    intros w' n Hn S' Hpos Us Ut Hh Hsl _ (Ea & Et & Eq & _).
    do 4 (split; [done|]). split; [by apply fits_ok|].
    + intros v [= <-]. split; [apply NoDup_singleton|]. apply Forall_singleton.
      split; [exists ty; by rewrite Hsl, lookup_insert_eq|done].
  - apply made_plain; [exact S|apply fits_error|done].
Qed.

Lemma does_new_pair a w s t k : sound w s t -> room 2 w -> k = KHandle2 ->
  does (new_pair a) w (made w s t k) (fun w' => w' = w).
Proof.
  intros S R ->. unfold new_pair. destruct a; try done.
  - apply does_bind. apply (does_insert _ w s t); [done|exact S|unfold room in *; lia|].
    intros w1 n Hn S1 Hpos Us Ut Hh Hsl Hnx (Ea & Et & Eq & _).
    apply does_bind. apply (does_insert _ w1 s t); [done|exact S1|unfold room in *; lia|].
    intros w2 m Hm S2 Hpos2 Us2 Ut2 Hh2 Hsl2 _ (Ea2 & Et2 & Eq2 & _).
    assert (n <> m) as Hne by lia.
    assert (shrinks w1 w2) as Hshr by by apply shrinks_same.
    split; [exact S2|]. do 3 (split; [congruence|]). split; [by apply fits_ok|].
    + intros v [= <-]. split.
      { apply list.NoDup_cons. split; [|apply NoDup_singleton]. by intros ->%list_elem_of_singleton. }
      constructor; [|apply Forall_singleton].
      * split; [exists TySend; by rewrite Hsl2, lookup_insert_ne, Hsl, lookup_insert_eq|].
        split; [|done]. intros D. by apply Hh, (shrinks_held w1 w2).
      * split; [exists TyRecv; by rewrite Hsl2, lookup_insert_eq|done].
  - apply made_plain; [exact S|apply fits_error|done].
Qed.

Lemma does_new_bytes b w s t k : sound w s t ->
  (Z.of_nat (length b) < two63 -> value_ok k (VBytes b)) ->
  does (new_bytes b) w (made w s t k) (fun w' => w' = w).
Proof.
  intros S Hk. unfold new_bytes. destruct (Z.leb_spec two63 (Z.of_nat (length b))); [done|].
  apply made_plain; [exact S| |done]. apply fits_ok; [by apply Hk|done].
Qed.

Lemma made_value w s t k v : sound w s t -> value_ok k (value_of (inl v)) ->
  match v with OVUnit | OVU64 _ | OVEof => True | _ => False end -> made w s t k (inl v) w.
Proof.
  intros S Hk Hv. apply made_plain; [exact S| |by destruct v]. apply fits_ok; [done|by destruct v].
Qed.

Lemma made_error w s t k e : sound w s t -> made w s t k (inr e) w.
Proof. intros S. apply made_plain; [exact S|apply fits_error|done]. Qed.

Lemma run_future_made f a w s t : sound w s t -> room 2 w -> lawful_future f a ->
  does (run_future f a) w (made w s t (future_kind f)) (fun w' => w' = w).
Proof.
  intros S R L. destruct f as [o|ra alpn|f]; cbn [run_future].
  - destruct (into_builder o) as [b|e]; [by apply does_new_object|by apply made_error].
  - by apply does_new_object.
  - destruct f; cbn [future_kind kind_of]; try done; unfold unit_when, stream_error;
      try (destruct a; cbn [is_ok is_ok_or_err]; first
        [ done | by apply does_new_object | by apply does_new_pair
        | apply does_new_bytes; [exact S|intros ?; exact L] | by apply does_new_bytes
        | by apply made_value | by apply made_error ]).
Qed.

(** The supervisor learns how the task ended. *)
Lemma outcome_finished id r w :
  op_outcome (set_task id (TFinished r) w) id = Some r /\
  forall id', id' <> id -> tasks (set_task id (TFinished r) w) !! id' = tasks w !! id' /\
    op_outcome (set_task id (TFinished r) w) id' = op_outcome w id'.
Proof.
  unfold op_outcome. cbn. rewrite lookup_insert_eq. split; [done|]. intros id' H. by rewrite lookup_insert_ne.
Qed.

(** Handle [h] is in result [r]. *)
Definition in_result (r : result OpValue) (h : Z) : Prop := exists v, r = inl v /\ h ∈ owned_handles v.

Lemma held_finished id r w h : held (set_task id (TFinished r) w) h -> in_result r h \/ held w h.
Proof.
  destruct (outcome_finished id r w) as [Hid Hne]. intros (id' & v & Hv & Hh).
  destruct (decide (id' = id)) as [->|H]; [left; exists v; split; [congruence|done]|].
  right. exists id', v. by rewrite <-(proj2 (Hne id' H)).
Qed.

Section Finish.
Context (id : Z) (f : future) (r : result OpValue) (w : shim) (s t : owned).
Hypothesis HS : sound w s t.
Hypothesis Ht : tasks w !! id = Some (TRunning f).
Hypothesis Hnodup : forall v, r = inl v -> NoDup (owned_handles v).
Hypothesis Hloose : forall h, in_result r h -> loose w s t h.

Lemma winv_finish : winv (set_task id (TFinished r) w).
Proof.
  pose proof (proj1 HS) as W. destruct (outcome_finished id r w) as [Hid Hne]. set (w' := set_task _ _ w) in *.
  assert (Huniq : forall id1 v1 v h, op_outcome w' id1 = Some (inl v1) -> r = inl v ->
    h ∈ owned_handles v1 -> h ∈ owned_handles v -> id1 = id).
  { intros id1 v1 v h H1 Hr Hh1 Hh. destruct (decide (id1 = id)) as [|H]; [done|]. exfalso.
    destruct (Hloose h) as (_ & Hn & _); [by exists v|]. apply Hn. exists id1, v1. by rewrite <-(proj2 (Hne id1 H)). }
  constructor; try apply W.
  - intros id' Hid'. apply (w_tasks w W). destruct (decide (id' = id)) as [->|H]; [by rewrite Ht|].
    by rewrite (proj1 (Hne id' H)) in Hid'.
  - intros h Hh. destruct (held_finished id r w h Hh) as [Hf|Hw]; [by destruct (Hloose h Hf)|by apply (w_held w W)].
  - intros id1 id2 v1 v2 h H1 H2 Hh1 Hh2.
    destruct (decide (id1 = id)) as [->|N1]; [|destruct (decide (id2 = id)) as [->|N2]].
    + symmetry. apply (Huniq id2 v2 v1 h); try done. congruence.
    + apply (Huniq id1 v1 v2 h); try done. congruence.
    + rewrite (proj2 (Hne _ N1)) in H1. rewrite (proj2 (Hne _ N2)) in H2. by apply (w_unique w W id1 id2 v1 v2 h).
  - intros id' v Hv. destruct (decide (id' = id)) as [->|H]; [apply Hnodup; congruence|].
    rewrite (proj2 (Hne id' H)) in Hv. by apply (w_nodup w W id').
  - intros id' st Hin. destruct (w_queue w W id' st Hin) as (Hb & Hov & Hr).
    split; [exact Hb|]. split; [|exact Hr]. unfold over in *.
    destruct (decide (id' = id)) as [->|H]; [by rewrite Ht in Hov|by rewrite (proj1 (Hne id' H))].
Qed.

Lemma sound_finish : fits (future_kind f) r -> sound (set_task id (TFinished r) w) s t.
Proof.
  intros Hf. destruct (outcome_finished id r w) as [Hid Hne].
  assert (Hnone : op_outcome w id = None) by (unfold op_outcome; by rewrite Ht).
  assert (Hnov : ~ over w id) by (unfold over; rewrite Ht; tauto).
  apply (sound_keeps (in_result r) (fun _ => False) w); [exact HS| |exact winv_finish| |done].
  - constructor; try done.
    + intros op st _ [Hsl Hst]. split; [exact Hsl|]. destruct (decide (op = id)) as [->|H].
      * rewrite Hid. rewrite Hnone in Hst. unfold over. cbn. rewrite lookup_insert_eq.
        destruct st as [k|k|k status v|]; [| |by destruct Hst..];
          (destruct Hst as (f' & Hf' & <-); split; [congruence|done]).
      * unfold over in *. by rewrite (proj1 (Hne op H)), (proj2 (Hne op H)).
    + intros h NF _ Hh. by destruct (held_finished id r w h Hh).
  - intros h Hh. by destruct (Hloose h Hh) as (_ & _ & ? & ?).
Qed.
End Finish.

Lemma sound_finish_error id f e w s t : sound w s t -> tasks w !! id = Some (TRunning f) ->
  sound (set_task id (TFinished (inr e)) w) s t.
Proof. intros S Ht. apply (sound_finish id f); [done|done|done|by intros h (v & ? & _)|apply fits_error]. Qed.

Lemma task_runs_sound id a w s t : sound w s t -> room 2 w ->
  (forall f, tasks w !! id = Some (TRunning f) -> lawful_future f a) -> sound (task_runs id a w) s t.
Proof.
  intros S R L. unfold task_runs. destruct (tasks w !! id) as [[f| |]|] eqn:Ht; try done.
  pose proof (run_future_made f a w s t S R (L f eq_refl)) as Hd. unfold does in Hd.
  destruct (run_future f a w) as [[r| |] w']; [| |done].
  - destruct Hd as (S' & Et & _ & _ & Hf & Hown). apply (sound_finish id f); [done|by rewrite Et| | |done].
    + intros v Hv. by destruct (Hown v Hv).
    + intros h (v & Hv & Hh). destruct (Hown v Hv) as [_ Hl]. by apply (Forall_elem _ _ _ Hl).
  - subst w'. by apply sound_finish_error with f.
Qed.

Lemma task_stops_sound id w s t : sound w s t -> sound (task_stops id w) s t.
Proof.
  intros S. unfold task_stops. destruct (tasks w !! id) as [[f| |]|] eqn:Ht; try done.
  destruct (arcs w !! id) as [o|]; [|done]. destruct (cancel_requested o); [|done].
  by apply sound_finish_error with f.
Qed.

Lemma supervisor_posts_sound id w s t : sound w s t -> sound (supervisor_posts id w) s t.
Proof.
  intros S. unfold supervisor_posts. destruct (tasks w !! id) as [[f|r|]|] eqn:Ht; try done.
  pose proof S as (W & _). destruct (w_tasks w W id) as [o Ha]; [by rewrite Ht|].
  set (w' := set_task id TPosted (post id r w)).
  assert (Ea : arcs w' = <[id := mkOp (cancel_requested o) (Some r)]> (arcs w))
    by (unfold w', post, set_result, push; by rewrite Ha).
  assert (Er : reg w' = reg w /\ mem w' = mem w /\ tasks w' = <[id := TPosted]> (tasks w) /\
    queue w' = queue w ++ [(id, status_of r)]) by (unfold w', post, set_result, push; by rewrite Ha).
  destruct Er as (Er & Em & Et & Eq).
  assert (Ho : op_outcome w' id = op_outcome w id).
  { unfold op_outcome. by rewrite Et, Ea, !lookup_insert_eq, Ht. }
  assert (Hov : over w' id) by (unfold over; by rewrite Et, lookup_insert_eq).
  assert (Hnov : ~ over w id) by (unfold over; rewrite Ht; tauto).
  assert (Hq : id ∉ (queue w).*1).
  { intros ([id' st] & E & Hin)%list_elem_of_fmap. simpl in E. subst id'.
    by destruct (w_queue w W id st Hin) as (_ & ? & _). }
  apply (sound_at id w); [exact S| |].
  - constructor; try done.
    + intros id' Hne. by rewrite Et, Ea, !lookup_insert_ne.
    + intros _. rewrite Ea, lookup_insert_eq. by eexists.
    + by rewrite Ho.
    + right. by exists (status_of r).
    + intros st. rewrite Eq, elem_of_app, list_elem_of_singleton, Ea, lookup_insert_eq.
      intros [Hin|[= ->]]; [destruct Hq; apply list_elem_of_fmap; by exists (id, st)|].
      split; [exact Hov|]. by intros r' [= <-].
  - intros st [Hsl Hst]. split; [unfold slots in *; by rewrite Er|]. rewrite Ho.
    unfold op_outcome in *. rewrite Ht in *. unfold queued. rewrite Eq, fmap_app.
    destruct st as [k|k|k status v|]; [| |by destruct Hst..]; (split; [apply Hst|]; intros _; apply elem_of_app; right; by left).
Qed.

(** The last [Arc] of an operation goes with its supervisor. *)
Lemma sound_forget id w s t : sound w s t -> tasks w !! id = Some TPosted ->
  slots w !! id <> Some (SOp id) ->
  sound (set_arcs (delete id (arcs w)) (set_tasks (delete id (tasks w)) w)) s t.
Proof.
  intros S Ht Hsl. pose proof S as (W & _). apply (sound_at id w); [exact S| |by intros st [? _]].
  constructor; try done; cbn.
  - intros id' Hne. by rewrite !lookup_delete_ne.
  - apply (w_tasks w W). by rewrite Ht.
  - rewrite lookup_delete_eq. by intros [[? ?]|?].
  - intros v. unfold op_outcome. cbn. by rewrite !lookup_delete_eq.
  - by left.
  - intros st _. unfold over. cbn. by rewrite !lookup_delete_eq.
Qed.

(** The supervisor goes; the registry still has the operation. *)
Lemma sound_unsupervised id w s t : sound w s t -> tasks w !! id = Some TPosted ->
  sound (set_tasks (delete id (tasks w)) w) s t.
Proof.
  intros S Ht. pose proof S as (W & _). set (w' := set_tasks _ _).
  assert (Ho : op_outcome w' id = op_outcome w id).
  { unfold op_outcome, w'. cbn. by rewrite lookup_delete_eq, Ht. }
  assert (Hov : over w' id) by (unfold over, w'; cbn; by rewrite lookup_delete_eq).
  assert (Hov0 : over w id) by (unfold over; by rewrite Ht).
  assert (Harc : is_Some (arcs w !! id)) by (apply (w_tasks w W); by rewrite Ht).
  apply (sound_at id w); [exact S| |].
  - constructor; try done.
    + intros id' Hne. unfold w'. cbn. by rewrite lookup_delete_ne.
    + by rewrite Ho.
    + by left.
    + intros st Hin. split; [exact Hov|]. apply (w_queue w W id st Hin).
  - intros st [Hsl Hst]. split; [exact Hsl|]. rewrite Ho.
    destruct st as [k|k|k status v|]; [| |by destruct Hst..];
      (destruct (op_outcome w id) eqn:E;
       [destruct Hst as [Hf Hq]; split; [exact Hf|]; intros _; by apply Hq|by destruct Hst as (f & Hf & _); congruence]).
Qed.

Lemma supervisor_ends_sound id w s t : sound w s t -> sound (supervisor_ends id w) s t.
Proof.
  intros S. unfold supervisor_ends. destruct (tasks w !! id) as [[f|r|]|] eqn:Ht; try done.
  pose proof S as (W & Rs & Rt & _). unfold drop_op_arc.
  change (reg (set_tasks (delete id (tasks w)) w)) with (reg w).
  change (arcs (set_tasks (delete id (tasks w)) w)) with (arcs w).
  rewrite t_slot_slots by apply W. cbn [tasks set_tasks]. rewrite lookup_delete_eq.
  rewrite (bool_decide_eq_false_2 (is_Some None)) by by intros [? ?]. rewrite orb_false_r.
  destruct (w_tasks w W id) as [o Ha]; [by rewrite Ht|]. rewrite Ha.
  case_bool_decide as Hsl; [by apply sound_unsupervised|].
  assert (slots w !! id <> Some (SOp id)) as Hsl' by (intros E; apply Hsl; by rewrite E).
  pose proof (sound_forget id w s t S Ht Hsl') as S1.
  set (w1 := set_arcs (delete id (arcs w)) (set_tasks (delete id (tasks w)) w)) in *.
  destruct (op_result o) as [[v|e]|] eqn:Er; try done.
  assert (Hout : op_outcome w id = Some (inl v)) by (unfold op_outcome; by rewrite Ht, Ha).
  assert (Hloose : forall h, h ∈ owned_handles v -> ~ held w1 h /\ unowned s h /\ unowned t h).
  { intros h Hh. assert (held w h) as Hw by (by exists id, v).
    split; [|split; by apply (held_unowned w)].
    intros (id' & v' & Hv' & Hin'). unfold op_outcome, w1 in Hv'. simpl in Hv'.
    destruct (decide (id' = id)) as [->|Hne]; [by rewrite !lookup_delete_eq in Hv'|].
    rewrite !lookup_delete_ne in Hv' by done. by apply Hne, (w_unique w W id' id v' v h). }
  destruct v as [|h|a b| | |]; try done.
  - apply sound_remove; [exact S1|by apply Hloose; left..].
  - cbn. apply sound_remove; [apply sound_remove; [exact S1|by apply Hloose; left..]|..].
    + intros D. destruct (Hloose b) as [Hn _]; [by right; left|]. exact (Hn D).
    + by apply Hloose; right; left.
    + by apply Hloose; right; left.
Qed.

(** ** Completions *)

(** The completion of an operation is received by whoever waits for it: it is
    taken off the queue, whatever else is on it. *)
Lemma receive_sound op status q ch k w s t : sound w s t -> (op, status) ∈ queue w ->
  (forall x, x ∈ q -> x ∈ queue w) -> NoDup q.*1 ->
  (forall id, id <> op -> id ∈ (queue w).*1 -> id ∈ q.*1) ->
  o_ops s !! op = Some (OpWaiting k) -> o_chans s !! ch = Some op ->
  exists r, op_outcome w op = Some r /\ status = status_of r /\
    let s' := apply_effect k (value_of r)
      (set_chans (delete ch (o_chans s)) (add_op op (OpDone k status (value_of r)) s)) in
    completes s ch status s' /\ sound (set_queue q w) s' t.
Proof.
  intros S Hq Hin Hnd Hrest Hop Hch. pose proof S as (W & Rs & Rt & A).
  destruct (r_ops w s Rs op _ Hop) as [Hsl Hok].
  destruct (w_queue w W op status Hq) as (_ & Hov & Hst).
  assert (exists r, op_outcome w op = Some r /\ fits k r) as (r & Hr & Hf).
  { destruct (op_outcome w op) as [r|]; [exists r; by destruct Hok|]. destruct Hok as (f & Ht & _).
    unfold over in Hov. by rewrite Ht in Hov. }
  assert (status = status_of r) as -> by (apply Hst; by rewrite <-over_outcome).
  exists r. split; [exact Hr|]. split; [done|]. split.
  { exists op, k, (value_of r). split_and!; [done|done|apply Hf|done]. }
  assert (S1 : sound w (drop_op op s) t) by (apply (sound_less w s); [exact S|apply less_drop_op]).
  assert (Ut : unowned t op) by (apply (unowned_op w); [exact Rt|exact Hsl|apply (proj1 A); by eexists]).
  assert (Us : unowned (drop_op op s) op).
  { apply (unowned_op w); [apply S1|exact Hsl|]. simpl. apply lookup_delete_eq. }
  apply (sound_less _ (add_op op (OpDone k (status_of r) (value_of r)) (drop_op op s))).
  - apply sound_add_op; [|split; [exact Hsl|]|by apply A].
    + apply (sound_unseen (fun id => id = op) w); try done. by intros id ->.
    + split; [exact Hov|]. exists r. split; [exact Hr|]. by split; [exact Hf|].
  - destruct k, r as [[]|]; split_and!; try done; simpl; by rewrite insert_delete_eq.
Qed.

Lemma waiting_queued op k w s t : sound w s t -> o_ops s !! op = Some (OpWaiting k) ->
  ~ over w op \/ queued w op.
Proof.
  intros (_ & Rs & _) Hop. destruct (r_ops w s Rs op _ Hop) as [_ Hok].
  unfold over in *. destruct (op_outcome w op) as [r|].
  - destruct Hok as [_ Hov]. destruct (tasks w !! op) as [[]|]; [left; tauto|left; tauto|right|right]; by apply Hov.
  - left. destruct Hok as (f & -> & _). tauto.
Qed.

Lemma deliver_sound op status q ch k w s t : sound w s t -> queue w = (op, status) :: q ->
  o_ops s !! op = Some (OpWaiting k) -> o_chans s !! ch = Some op ->
  exists s', completes s ch status s' /\ sound (set_queue q w) s' t.
Proof.
  intros S Hq Hop Hch. pose proof (w_once w (proj1 S)) as Hnd. rewrite Hq in Hnd.
  destruct (receive_sound op status q ch k w s t) as (r & _ & _ & H1 & H2); try done; [..|by eexists].
  - rewrite Hq. left.
  - intros x Hx. rewrite Hq. by right.
  - by apply list.NoDup_cons in Hnd as [_ ?].
  - intros id Hne. rewrite Hq. simpl. rewrite elem_of_cons. tauto.
Qed.

(** A step of the library on its own: a task ends, is stopped, is posted, and
    its supervisor goes. *)
Inductive shim_step : shim -> shim -> Prop :=
| SRuns id a w :
    (forall f, tasks w !! id = Some (TRunning f) -> lawful_future f a) -> room 2 w ->
    shim_step w (task_runs id a w)
| SStops id w : shim_step w (task_stops id w)
| SPosts id w : shim_step w (supervisor_posts id w)
| SEnds id w : shim_step w (supervisor_ends id w).

Lemma shim_step_sound w w' s t : sound w s t -> shim_step w w' -> sound w' s t.
Proof.
  intros S H. destruct H; [by apply task_runs_sound|by apply task_stops_sound
    |by apply supervisor_posts_sound|by apply supervisor_ends_sound].
Qed.

(** A goroutine that has loaded the library and nothing else. *)
Definition newcomer : owned := mkOwned true ∅ ∅ ∅ ∅ ∅ ∅ ∅ ∅ ∅ 0 ∅ ∅ ∅.

Lemma sound_start : sound shim_start newcomer newcomer.
Proof.
  assert (Hno : forall h, slots shim_start !! h = None).
  { intros h. change (slots shim_start) with (all_slots (V := slot) registry).
    rewrite (proj1 (proj2 registry_ok)). apply lookup_empty. }
  assert (Hout : forall id, op_outcome shim_start id = None).
  { intros id. unfold op_outcome. cbn [tasks arcs shim_start]. by rewrite !lookup_empty. }
  assert (rel shim_start newcomer) as R by (constructor; intros ? **; done).
  assert (W : winv shim_start).
  { constructor.
    - apply registry_ok.
    - done.
    - intros h [v Hv]. by rewrite Hno in Hv.
    - intros h id Hv. by rewrite Hno in Hv.
    - intros id [v Hv]. by cbn in Hv; rewrite lookup_empty in Hv.
    - intros id [v Hv]. by cbn in Hv; rewrite lookup_empty in Hv.
    - intros h (id & v & Hv & _). by rewrite Hout in Hv.
    - intros id1 id2 v1 v2 h H. by rewrite Hout in H.
    - intros id v H. by rewrite Hout in H.
    - intros id st H. by apply not_elem_of_nil in H.
    - apply NoDup_nil_2. }
  split; [exact W|]. split; [exact R|]. split; [exact R|].
  split_and!; intros x Hx; done.
Qed.

(** ** Properties *)

(** C4. The native library keeps the contract of the ABI.  From any state that
    is in order and has an id left to give out, every one of its 66 entry points,
    called as the contract asks, returns (it neither blocks nor lets a panic out),
    answers as the contract says, and leaves the library in order: for the caller
    with what it owns now, and for any other goroutine with exactly what it owned
    before.  Of [iroh_completion_wait] this says nothing: the contract keeps it
    for the pump, and what it does there is [ShimPump.shim_is_the_pumps_library]. *)
Theorem shim_keeps_contract `{!CratesLaws} X (e : cE X) (a : says) (ptr : Z) (w : shim) (s t : owned) :
  sound w s t -> c_pre s e -> room 1 w -> fresh_ptr w ptr -> lawful_call e a ->
  exists x w' s', shim_call e a ptr w = (Done x, w') /\ c_post s e x s' /\ sound w' s' t.
Proof.
  intros S Hpre R F L. pose proof (shim_call_ok X e a ptr w s t S Hpre R F L) as Hd.
  unfold does in Hd. destruct (shim_call e a ptr w) as [[x| |] w']; [|done|done].
  destruct Hd as (s' & ? & ?). by exists x, w', s'.
Qed.

(** C5. What the library does on its own keeps the contract too.  Whatever tasks
    run, are stopped, are posted or go, nothing any goroutine owns changes under
    it.  An operation a goroutine waits for still has a task to finish and post
    it, or its completion is in the queue, once; and the completion at the head
    of the queue is one the contract allows: of the right shape, with the status
    its result is collected under. *)
Theorem tasks_keep_contract (w w' : shim) (s t : owned) :
  sound w s t -> rtc shim_step w w' ->
  sound w' s t /\ NoDup (queue w').*1 /\
  (forall op k, o_ops s !! op = Some (OpWaiting k) -> ~ over w' op \/ queued w' op) /\
  forall op status q ch k, queue w' = (op, status) :: q ->
    o_ops s !! op = Some (OpWaiting k) -> o_chans s !! ch = Some op ->
    exists s', completes s ch status s' /\ sound (set_queue q w') s' t.
Proof.
  intros S Hr. assert (S' : sound w' s t).
  { induction Hr as [w|w w1 w' H1 _ IH]; [done|]. apply IH. by eapply shim_step_sound. }
  split; [exact S'|]. split; [apply S'|]. split.
  - intros op k Hop. by eapply waiting_queued.
  - intros op status q ch k Hq Hop Hch. by eapply deliver_sound.
Qed.

(** An operation whose result holds a handle of its own shard cannot be freed:
    the result is dropped with the shard still locked, and dropping it locks the
    shard again.  No Go code does this ([Contract.emptied]). *)
Theorem free_of_unclaimed_handle_blocks (op h : Z) (a : says) (ptr : Z) (w : shim) :
  winv w -> slots w !! op = Some (SOp op) -> tasks w !! op = None ->
  op_outcome w op = Some (inl (OVHandle h)) -> shard h = shard op ->
  (shim_call (opFree op) a ptr w).1 = Blocks.
Proof.
  intros W Hsl Ht Ho Hsh. unfold op_outcome in Ho. rewrite Ht in Ho.
  destruct (arcs w !! op) as [o|] eqn:Ea; [|done]. simpl in Ho.
  destruct (remove_slot_spec w op W) as (E1 & Hs & _ & Hd).
  rewrite bool_decide_eq_true_2 in E1 by by eexists.
  assert (Hh : h <> NULL_HANDLE).
  { intros ->. destruct (w_held w W NULL_HANDLE) as [ty Hty].
    { exists op, (OVHandle NULL_HANDLE). split; [|by left]. unfold op_outcome. by rewrite Ht, Ea. }
    pose proof (w_slots w W _ (mk_is_Some _ _ Hty)). unfold NULL_HANDLE in *. lia. }
  cbn [shim_call]. unfold iroh_op_free, ffi_guard, mbind, M_bind, remove.
  rewrite t_slot_slots by apply W. rewrite Hsl.
  destruct (remove_slot op (reg w)) as [was r]. simpl in E1, Hs, Hd. subst was.
  assert (Hgone : t_slot op (reg (set_reg r w)) = None).
  { rewrite (t_slot_slots (set_reg r w) op Hs). unfold slots. cbn [reg set_reg]. by rewrite Hd, lookup_delete_eq. }
  assert (Hdrop : (drop_op_arc (Some op) op (set_reg r w)).1 = Blocks).
  { unfold drop_op_arc. rewrite Hgone. cbn [tasks set_reg arcs mbind option_bind]. rewrite Ht, Ea.
    rewrite (bool_decide_eq_false_2 (None = Some op)) by done.
    rewrite (bool_decide_eq_false_2 (is_Some None)) by by intros [? ?].
    cbn [orb]. rewrite Ho. cbn [release_handles release].
    by rewrite bool_decide_eq_true_2 by by split. }
  unfold mbind, M_bind. by destruct (drop_op_arc (Some op) op (set_reg r w)) as [[[]| |] w1].
Qed.
End Refines.

(** ** A small iroh *)

Definition small_crates : @IrohCrates small_iroh := {|
  iroh_version_text := $"1.0.3";
  varint_error := fun n => if n <? 2 ^ 62 then None else Some $"value too large for varint encoding";
  ticket_show := fun a => show_key (r_id a);
  ticket_parse := fun s => match parse_key s with inl k => inl (from_parts k []) | inr e => inr e end;
  public_key := fun _ => replicate 32 (ch 171);
  sign_with := fun _ _ => replicate 64 (ch 1);
  verify_error := fun _ _ _ => None;
  bind_addr_error := fun _ _ => None;
  show_transport := fun _ => $"custom"
|}.
#[export] Existing Instance small_crates.

Lemma small_parse_key s k : parse_key s = inl k -> length k = EndpointIDSize.
Proof.
  cbn [parse_key small_iroh]. unfold small_key. destruct (hex_decode s) as [k'|]; [|done].
  by case_decide; [intros [= <-]|].
Qed.

#[export] Instance small_crates_laws : CratesLaws.
Proof. split; [done|done|exact small_parse_key]. Qed.


(** ** Runs of the library *)

(** Options are made, and an endpoint bound with them: operation 2. *)
Definition with_options : shim := (shim_call (optionsNew 2) SaysOk 1 shim_start).2.
Definition binding : shim := (shim_call (CStart (endpointBind 1)) SaysOk 1 with_options).2.
Definition binder : owned := add_op 2 (OpRunning KHandle) newcomer.
(** A goroutine waits for it on channel 5. *)
Definition waiter : owned := set_chans {[5 := 2]} (add_op 2 (OpWaiting KHandle) binder).
(** Its task runs, and its supervisor posts. *)
Definition bound : shim := supervisor_posts 2 (task_runs 2 SaysOk binding).

Lemma options_sound : sound with_options (add_options 1 newcomer) newcomer.
Proof.
  pose proof (shim_call_ok _ (optionsNew 2) SaysOk 1 shim_start newcomer newcomer sound_start) as H.
  unfold does in H. destruct H as (s' & (_ & _ & ->) & S'); [done|done|by split|done|exact S'].
Qed.

Lemma binding_sound : sound binding binder newcomer.
Proof.
  pose proof (shim_call_ok _ (CStart (endpointBind 1)) SaysOk 1 with_options _ newcomer options_sound) as H.
  unfold does in H. destruct H as (s' & (_ & Hs) & S'); [split; [done|]; set_solver|done|by split|done|].
  destruct Hs as [[Hc _]|(_ & _ & E)]; [done|]. subst s'. unfold binder. 
  apply (sound_fields _ _ binder) in S'; [exact S'|done..].
Qed.

Lemma waiter_sound : sound binding waiter newcomer.
Proof.
  apply (sound_fields _ (add_op 2 (OpWaiting KHandle) binder)); try done.
  pose proof binding_sound as (_ & Rs & _). apply sound_add_op; [exact binding_sound| |done].
  exact (r_ops _ _ Rs 2 (OpRunning KHandle) eq_refl).
Qed.

Example shim_keeps_contract_witness :
  sound binding binder newcomer /\ c_pre binder (opCancel 2) /\
  exists x w' s', shim_call (opCancel 2) SaysOk 1 binding = (Done x, w') /\
    c_post binder (opCancel 2) x s' /\ sound w' s' newcomer.
Proof.
  split; [exact binding_sound|]. split; [split; [done|by eexists]|].
  apply (shim_keeps_contract unit (opCancel 2) SaysOk 1 binding binder newcomer);
    [exact binding_sound|split; [done|by eexists]|done|by split|done].
Defined.

Example tasks_keep_contract_witness :
  rtc shim_step binding bound /\ queue bound = [(2, StatusOK)] /\
  (~ over bound 2 \/ queued bound 2) /\
  exists s', completes waiter 5 StatusOK s' /\ sound (set_queue [] bound) s' newcomer.
Proof.
  assert (Hr : rtc shim_step binding bound).
  { eapply rtc_l; [apply (SRuns 2 SaysOk binding); [by intros f [= <-]|done]|].
    apply rtc_once, SPosts. }
  pose proof (tasks_keep_contract binding bound waiter newcomer waiter_sound Hr) as (_ & _ & Hw & Hq).
  split; [exact Hr|]. split; [done|]. split; [by apply (Hw 2 KHandle)|].
  by apply (Hq 2 StatusOK [] 5 KHandle).
Defined.

(** Fifteen ids are given out between an operation and the handle it makes, and
    nobody collects the handle: to free the operation then blocks for good. *)
Definition crowded : shim :=
  supervisor_ends 2 (supervisor_posts 2 (task_runs 2 SaysOk
    (Nat.iter 15 (fun w => (shim_call (optionsNew 2) SaysOk 1 w).2) binding))).

Example free_of_crowded_handle_blocks :
  match (shim_call (opFree 2) SaysOk 1 crowded).1 with Blocks => true | _ => false end = true.
Proof. vm_compute. reflexivity. Qed.
