(* ===== verification/ShimIds.v ===== *)
(** What every entry point of the native library does to its counter, its tasks
    and its completion queue.

    A call takes at most one id and a task at most two, so ids last as long as
    the 64-bit counter.  Only a call that starts an operation adds a task, posts
    or asks for an abort among the others: all the rest are [calm]. *)
From S2P Require Import Prelude GoErrors Prog Abi Contract Reference Pump Calls GoStrings Keys Netip Addr Conn Endpoint.
From S2P Require Import Registry RustAddr Shim ShimInv ShimRefines.
Local Open Scope Z_scope.
Local Open Scope go_scope.

Section Ids.
Context {iroh : Iroh} {crates : IrohCrates}.

(** ** What a call takes, and leaves alone *)

(** Tasks, completions and abort requests stay as they are; operations may go. *)
Definition calm (w w' : shim) : Prop :=
  tasks w' = tasks w /\ queue w' = queue w /\ shut w' = shut w /\
  forall id o', arcs w' !! id = Some o' -> cancel_requested o' = true ->
    exists o, arcs w !! id = Some o /\ cancel_requested o = true.

#[export] Instance calm_order : PreOrder calm.
Proof.
  split; [intros w; split_and!; [done..|]; eauto|].
  intros w1 w2 w3 (T1 & Q1 & S1 & F1) (T2 & Q2 & S2 & F2). split_and!; [congruence..|].
  intros id o3 H3 C3. destruct (F2 id o3 H3 C3) as (o2 & H2 & C2). by apply (F1 id o2).
Qed.

Lemma calm_eq w w' : w' = w -> calm w w'.
Proof. by intros ->. Qed.

Lemma calm_less w w' : tasks w' = tasks w -> queue w' = queue w -> shut w' = shut w -> arcs w' ⊆ arcs w -> calm w w'.
Proof.
  intros Ht Hq Hs Ha. split_and!; [done..|]. intros id o' H C. exists o'. split; [|done].
  by eapply lookup_weaken.
Qed.

(** [m] takes at most [n] ids and gives none back; a [c]alm one leaves the rest
    of the library's state alone. *)
Definition adds {A} (c : bool) (n : Z) (m : M A) : Prop :=
  forall w, 0 <= next_handle w ->
    0 <= next_handle (m w).2 <= next_handle w + n /\
    (next_handle w + n < two64 -> next_handle w <= next_handle (m w).2) /\
    (c = true -> calm w (m w).2).


Lemma adds_intro {A} c n (m : M A) :
  (forall w, 0 <= next_handle w ->
     next_handle (m w).2 = next_handle w \/ next_handle (m w).2 = wrap_u64 (next_handle w + 1) /\ 1 <= n) ->
  0 <= n -> (c = true -> forall w, calm w (m w).2) -> adds c n m.
Proof.
  intros H Hn Hc w Hw. split; [|split; [|by auto]]; destruct (H w Hw) as [->|[-> H1]]; try lia; unfold wrap_u64.
  - pose proof (Z.mod_pos_bound (next_handle w + 1) two64 ltac:(unfold two64; lia)).
    pose proof (Z.mod_le (next_handle w + 1) two64 ltac:(lia) ltac:(unfold two64; lia)). lia.
  - intros Hr. rewrite Z.mod_small by lia. lia.
Qed.

Lemma adds_mono {A} c i j (m : M A) : adds c i m -> i <= j -> adds c j m.
Proof. intros H Hij w Hw. destruct (H w Hw) as (H1 & H2 & H3). split; [lia|]. split; [|done]. intros Hr. apply H2. lia. Qed.

Lemma adds_bind {A B} c i j n (m : M A) (f : A -> M B) :
  adds c i m -> (forall a, adds c j (f a)) -> 0 <= j -> i + j <= n -> adds c n (m ≫= f).
Proof.
  intros Hm Hf Hj Hn w Hw. destruct (Hm w Hw) as (H1 & H2 & H3). unfold mbind, M_bind.
  destruct (m w) as [[a| |] w']; cbn [snd] in *; [|split; [lia|]; split; [|done]; intros; apply H2; lia..].
  destruct (Hf a w' ltac:(lia)) as (F1 & F2 & F3). split; [lia|]. split.
  - intros Hr. specialize (H2 ltac:(lia)). etransitivity; [exact H2|]. apply F2. lia.
  - intros E. by transitivity w'; auto.
Qed.

Lemma adds_weaken {A} c n (m : M A) : adds true n m -> adds c n m.
Proof. intros H w Hw. destruct (H w Hw) as (H1 & H2 & H3). split; [done|]. split; [done|]. intros _. by apply H3. Qed.

Lemma adds_guard {A} c n (d : A) (m : M A) : adds c n m -> adds c n (ffi_guard d m).
Proof. intros H w Hw. specialize (H w Hw). unfold ffi_guard. by destruct (m w) as [[a| |] w']. Qed.

Lemma adds_lift {A} c (f : shim -> A * shim) :
  (forall w, next_handle (f w).2 = next_handle w) -> (c = true -> forall w, calm w (f w).2) -> adds c 0 (lift f).
Proof.
  intros H Hc. apply adds_intro; [intros w _; left|done|intros E w]; unfold lift; destruct (f w) eqn:Ef;
    [specialize (H w)|specialize (Hc E w)]; by rewrite Ef in *.
Qed.

Lemma adds_ret {A} c (a : A) : adds c 0 (mret a).
Proof. by apply adds_intro; [left|..|intros ? ?; by apply calm_eq]. Qed.

Lemma adds_panic {A} c : adds c 0 (panic : M A).
Proof. by apply adds_intro; [left|..|intros ? ?; by apply calm_eq]. Qed.

Lemma adds_modify c f : (forall w, next_handle (f w) = next_handle w) -> (c = true -> forall w, calm w (f w)) ->
  adds c 0 (modify f).
Proof. intros H Hc. apply adds_intro; [intros w _; left; apply H|done|exact Hc]. Qed.

Lemma adds_get {A} c (as_A : slot -> option A) h : adds c 0 (get as_A h).
Proof. apply adds_lift; [done|]. intros ? ?. by apply calm_eq. Qed.

Lemma adds_insert c v : adds c 1 (insert v).
Proof. apply adds_intro; [intros w _; by right|done|]. intros _ w. by apply calm_less. Qed.

Lemma adds_new_op c : adds c 1 (lift new_op).
Proof.
  apply adds_intro; [by right|done|]. intros _ w. split_and!; [done..|]. cbn. intros id o'.
  rewrite lookup_insert_Some. intros [[_ <-]|[_ H]] C; [done|by eexists].
Qed.

Lemma set_result_spec id r w : next_handle (set_result id r w) = next_handle w /\ calm w (set_result id r w).
Proof.
  unfold set_result. destruct (arcs w !! id) as [o|] eqn:E; [|by split]. split; [done|].
  split_and!; [done..|]. cbn. intros id' o'. rewrite lookup_insert_Some.
  intros [[<- <-]|[_ H]] C; [by exists o|by eexists].
Qed.

Lemma adds_spawn_ready r : adds false 1 (spawn_ready r).
Proof.
  apply adds_intro; [|done|done]. intros w _. right. split; [|done]. unfold spawn_ready, lift. cbn [new_op t_reserve registry_table reserve fst snd].
  change (next_handle (push ?a ?b ?w)) with (next_handle w). unfold post.
  change (next_handle (push ?a ?b ?w)) with (next_handle w). by rewrite (proj1 (set_result_spec _ _ _)).
Qed.

Lemma adds_runtime c a : adds c 0 (runtime a).
Proof. destruct a; first [apply adds_panic|apply adds_ret]. Qed.

Lemma adds_spawn f a : adds false 1 (spawn f a).
Proof.
  unfold spawn. apply (adds_bind _ 1 0); [apply adds_new_op| |lia|lia]. intros id.
  apply (adds_bind _ 0 0); [apply adds_runtime| |lia|lia]. intros [].
  apply (adds_bind _ 0 0); [by apply adds_modify| |lia|lia]. intros []. apply adds_ret.
Qed.

Lemma next_remove_slot h w : next (remove_slot h (reg w)).2 = next_handle w.
Proof. unfold remove_slot. by destruct (h =? NULL_HANDLE). Qed.

Lemma adds_release c locked h : adds c 0 (release locked h).
Proof.
  assert (adds c 0 (modify (fun w => set_reg (remove_slot h (reg w)).2 w))) as Hm.
  { apply adds_modify; [intros w; apply next_remove_slot|]. intros _ w. by apply calm_less. }
  unfold release. destruct locked as [l|]; [case_bool_decide|]; try exact Hm.
  apply adds_intro; [by left|done|]. intros _ w. by apply calm_eq.
Qed.

Lemma adds_release_handles c locked v : adds c 0 (release_handles locked v).
Proof.
  destruct v; try apply adds_ret; [apply adds_release|].
  apply (adds_bind _ 0 0); [apply adds_release|intros []; apply adds_release|lia|lia].
Qed.

Lemma adds_drop_op_arc c locked id : adds c 0 (drop_op_arc locked id).
Proof.
  intros w Hw. unfold drop_op_arc. destruct (_ || _); [by apply (adds_ret c tt)|].
  destruct (arcs w !! id) as [o|]; [|by apply (adds_ret c tt)].
  assert (Hk : calm w (set_arcs (delete id (arcs w)) w)) by (apply calm_less; [done..|]; apply delete_subseteq).
  destruct (op_result o) as [[v|]|]; [|split; [cbn; unfold next_handle in *; cbn; lia|]; by split..].
  destruct (adds_release_handles c locked v (set_arcs (delete id (arcs w)) w) Hw) as (H1 & H2 & H3).
  split; [exact H1|]. split; [exact H2|]. intros E. etransitivity; [exact Hk|by apply H3].
Qed.

Lemma adds_remove c h : adds c 0 (remove h).
Proof.
  intros w Hw. unfold remove. pose proof (next_remove_slot h w) as Hn.
  destruct (remove_slot h (reg w)) as [was r]. cbn in Hn.
  assert (Hr : next_handle (set_reg r w) = next_handle w) by exact Hn.
  assert (Hk : calm w (set_reg r w)) by by apply calm_less.
  assert (Hdone : forall o : outcome bool, 0 <= next_handle (o, set_reg r w).2 <= next_handle w + 0 /\
    (next_handle w + 0 < two64 -> next_handle w <= next_handle (o, set_reg r w).2) /\ (c = true -> calm w (o, set_reg r w).2)).
  { intros o. cbn [snd]. split; [lia|]. split; [lia|done]. }
  destruct was; [|apply Hdone]. destruct (t_slot h (reg w)) as [[id| | |]|]; try apply Hdone.
  assert (adds c 0 (drop_op_arc (Some h) id;; mret true)) as Hd.
  { apply (adds_bind _ 0 0); [apply adds_drop_op_arc|intros []; apply adds_ret|lia|lia]. }
  destruct (Hd (set_reg r w) ltac:(lia)) as (H1 & H2 & H3). rewrite Hr in *.
  split; [exact H1|]. split; [exact H2|]. intros E. etransitivity; [exact Hk|by apply H3].
Qed.

Lemma adds_out_bytes c ptr b : adds c 0 (out_bytes ptr b).
Proof.
  unfold out_bytes. destruct (decide _); [apply adds_ret|]. destruct (_ <=? _); [apply adds_panic|].
  apply (adds_bind _ 0 0); [apply adds_modify; [done|intros _ w; by apply calm_less]|intros []; apply adds_ret|lia|lia].
Qed.

Lemma adds_take_op c op : adds c 0 (take_op op).
Proof.
  unfold take_op. apply (adds_bind _ 0 0); [apply adds_get| |lia|lia].
  intros [id|e]; [|apply adds_ret].
  apply adds_lift; [intros w|intros _ w]; destruct (arcs w !! id ≫= op_result); try done; apply set_result_spec.
Qed.

Lemma adds_fail {X} c (x : X) e : adds c 1 (fail x e).
Proof.
  unfold fail, store_err. apply (adds_bind _ 1 0); [|intros []; apply adds_ret|lia|lia].
  apply (adds_bind _ 1 0); [apply adds_insert|intros; apply adds_ret|lia|lia].
Qed.

Lemma adds_zero {A} c n (m : M A) : adds c 0 m -> 0 <= n -> adds c n m.
Proof. intros H Hn. by apply (adds_mono _ 0). Qed.

Lemma adds_or_panic {A} c (r : option A) : adds c 0 (or_panic r).
Proof. destruct r; [apply adds_ret|apply adds_panic]. Qed.

Ltac adds_leaf :=
  first [ apply adds_ret | apply adds_panic | apply adds_get | apply adds_out_bytes | apply adds_remove
        | apply adds_take_op | apply adds_or_panic | apply adds_runtime
        | apply adds_modify; [done|first [done|intros _ w; by apply calm_less]]
        | apply adds_lift; [done|intros _ w; by apply calm_eq] ].
Ltac adds_step :=
  match goal with
  | |- adds _ _ (ffi_guard _ _) => apply adds_guard
  | |- adds _ _ (insert _) => apply adds_insert
  | |- adds _ _ (fail _ _) => apply adds_fail
  | |- adds _ _ (spawn _ _) => apply adds_spawn
  | |- adds _ _ (spawn_ready _) => apply adds_spawn_ready
  | |- adds _ _ (okay _) => apply adds_zero; [apply adds_ret|lia]
  | |- adds _ _ (ffi_try _ ?r _) => destruct r; cbn [ffi_try]
  | |- adds _ _ (or_ready ?r _) => destruct r; cbn [or_ready]
  | |- adds _ 0 (mbind _ _) => apply (adds_bind _ 0 0); [| |lia|lia]
  | |- adds _ 2 (mbind _ (insert _)) => apply (adds_bind _ 1 1); [apply adds_insert| |lia|lia]
  | |- adds _ 1 (mbind _ (insert _)) => apply (adds_bind _ 1 0); [apply adds_insert| |lia|lia]
  | |- adds _ 1 (mbind _ _) => apply (adds_bind _ 0 1); [adds_leaf| |lia|lia]
  | |- forall _, _ => intros ?
  | |- adds _ _ (if ?b then _ else _) => destruct b
  | |- adds _ _ (match ?x with _ => _ end) => destruct x
  | |- adds _ 0 _ => adds_leaf
  | |- adds _ _ _ => apply adds_zero; [adds_leaf|lia]
  end.

Lemma adds_error_take c err ptr : adds c 1 (iroh_error_take err ptr).
Proof.
  unfold iroh_error_take. apply adds_guard, (adds_bind _ 0 1); [adds_leaf| |lia|lia]. intros r.
  apply (adds_bind _ 0 1); [by repeat adds_step| |lia|lia]. by repeat adds_step.
Qed.

Lemma adds_op_cancel op : adds false 1 (iroh_op_cancel op).
Proof.
  unfold iroh_op_cancel, get_op. apply adds_guard, (adds_bind _ 0 1); [adds_leaf| |lia|lia].
  intros [id|e]; [|apply adds_zero; [adds_leaf|lia]]. apply adds_zero; [|lia].
  apply adds_modify; [|done]. intros w. unfold cancel. by destruct (arcs w !! id).
Qed.

(** The calls that start, wait, wake or cancel. *)
Definition calls_calm {X} (e : cE X) : bool :=
  match e with CStart _ | completionWait _ | completionWake | opCancel _ => false | _ => true end.

Lemma adds_call {X} (e : cE X) a ptr : adds (calls_calm e) 1 (shim_call e a ptr).
Proof.
  destruct e; cbn [shim_call calls_calm]; try apply adds_error_take; try apply adds_op_cancel;
    try (match goal with
         | |- adds _ _ (start_call ?f _) => destruct f | |- adds _ _ (unit_call ?f _) => destruct f
         | |- adds _ _ (text_call ?f _ _) => destruct f | |- adds _ _ (out_call ?f _) => destruct f
         | |- adds _ _ (free_call ?f) => destruct f
         end);
    cbn [start_call unit_call text_call out_call free_call]; cbv delta [
      iroh_abi_version iroh_version iroh_init iroh_set_log_level iroh_free_bytes free_bytes
      iroh_debug_handle_count iroh_completion_wake iroh_op_free
      iroh_op_result_handle iroh_op_result_handle2 iroh_op_result_u64 iroh_op_result_bytes iroh_op_result_err
      iroh_secret_key_generate iroh_options_new iroh_conn_max_datagram_size iroh_conn_stats
      iroh_endpoint_bind iroh_endpoint_online iroh_endpoint_accept iroh_endpoint_close endpoint_future
      iroh_endpoint_remote_info iroh_endpoint_connect iroh_conn_open_bi iroh_conn_accept_bi
      iroh_conn_open_uni iroh_conn_accept_uni iroh_conn_read_datagram iroh_conn_closed conn_future
      iroh_send_write iroh_send_finish iroh_send_reset iroh_send_set_priority iroh_send_stopped
      iroh_recv_read iroh_recv_stop get_endpoint get_conn get_send get_recv get_opts
      iroh_endpoint_id_verify iroh_options_set_secret_key iroh_options_add_alpn
      iroh_options_set_relay_mode iroh_options_add_relay_url iroh_options_add_bind_addr
      iroh_conn_send_datagram iroh_conn_close change_opts
      iroh_endpoint_id_format iroh_addr_normalize iroh_ticket_encode iroh_ticket_decode
      iroh_endpoint_addr iroh_endpoint_bound_sockets iroh_endpoint_home_relay iroh_conn_alpn iroh_conn_paths
      iroh_secret_key_public iroh_secret_key_sign iroh_endpoint_id_parse iroh_endpoint_id iroh_conn_remote_id
      iroh_options_free iroh_endpoint_free iroh_conn_free iroh_send_free iroh_recv_free]; cbv beta zeta;
    repeat adds_step.
  intros w Hw. unfold iroh_completion_wait, ffi_guard, wait. destruct (queue w) as [|[op st] q].
  - destruct (shut w); [cbn; split; [lia|by split; [lia|]]|]. destruct a; cbn; (split; [lia|by split; [lia|]]).
  - cbn [fst snd]. unfold next_handle in *. cbn. split; [lia|by split; [lia|]].
Qed.

Lemma adds_future f a : adds true 2 (run_future f a).
Proof.
  destruct f as [o|ra alpn|f]; cbn [run_future]; [| |destruct f];
    cbv delta [new_object_of new_pair new_bytes stream_error unit_when]; cbv beta zeta;
    repeat adds_step.
Qed.

End Ids.
