(* ===== verification/ShimPump.v ===== *)
(** The native library is the library of the pump system.

    [PumpSystem] abstracts the library to one state per operation, a queue and a
    flag.  [plays] relates that to the state of [Shim]; every entry point called
    and every step of a task is then a step of [PumpSystem], or none, with the
    same answers.  So what [PumpSystem] proves of completions holds for the
    library as it is written. *)
From S2P Require Import Prelude GoErrors Prog Abi Contract Reference Pump Calls GoStrings Keys Netip Addr Conn Endpoint PumpSystem.
From S2P Require Import Registry RustAddr Shim ShimInv ShimRefines ShimIds.
Local Open Scope Z_scope.
Local Open Scope go_scope.

Section Plays.
Context {iroh : Iroh} {crates : IrohCrates}.

(** [s]'s library is [w]: an operation runs in [s] until its completion is
    posted.  [s] remembers operations, and requests to abort them, that [w] has
    forgotten. *)
Record plays (w : shim) (s : sys) : Prop := {
  p_queue : PumpSystem.queue s = queue w;
  p_stop : stopping s = shut w;
  p_run : forall op, ~ over w op <-> exists c, lib s !! op = Some (LRun c);
  p_cancel : forall op o, arcs w !! op = Some o -> cancel_requested o = true -> ~ over w op ->
    lib s !! op = Some (LRun true);
  p_known : forall op, is_Some (lib s !! op) -> 0 < op < next_handle w
}.

(** What a call that answers [x] is in the pump system: what the pump receives,
    what a goroutine starts or cancels, and otherwise nothing. *)
Definition plays_call {X} (s : sys) (e : cE X) : X -> sys -> Prop :=
  match e in cE X return X -> sys -> Prop with
  | CStart _ => fun op s' =>
      if decide (op = 0) then s' = s
      else rtc env_step s s' /\ threads s' = <[op := Starting]> (threads s)
  | completionWait _ => fun '(rc, op, status) s' => pumpth s = PumpWait ->
      if decide (rc = 1) then PumpSystem.go_step s s' /\ pumpth s' = PumpGot op status
      else if decide (rc = 0) then s' = s else PumpSystem.go_step s s' /\ pumpth s' = PumpStopped
  | completionWake => fun _ s' => rtc env_step s s' /\ stopping s' = true
  | opCancel op => fun _ s' => forall ch, threads s !! op = Some (Cancelling ch) ->
      PumpSystem.go_step s s' /\ threads s' !! op = Some (Draining ch)
  | _ => fun _ s' => s' = s
  end.

(** ** Lemmas: what starting does *)

Definition flags_kept (w w' : shim) : Prop :=
  forall id o', arcs w' !! id = Some o' -> cancel_requested o' = true ->
    exists o, arcs w !! id = Some o /\ cancel_requested o = true.

Definition started (w : shim) (op : Z) (w' : shim) : Prop :=
  op = 0 /\ calm w w' \/
  op = next_handle w /\ next_handle w' = next_handle w + 1 /\ shut w' = shut w /\ flags_kept w w' /\
  ((exists f, tasks w' = <[op := TRunning f]> (tasks w) /\ queue w' = queue w) \/
   (exists r : result OpValue, tasks w' = tasks w /\ queue w' = queue w ++ [(op, status_of r)])).

Definition starts_op (m : M Z) : Prop :=
  forall w, 0 < next_handle w -> next_handle w + 1 < two64 ->
  next_handle w <= next_handle (m w).2 /\
  match m w with
  | (Done op, w') => started w op w'
  | (Panicked, w') => calm w w'
  | (Blocks, _) => True
  end.

Lemma flags_trans w1 w2 w3 : flags_kept w1 w2 -> flags_kept w2 w3 -> flags_kept w1 w3.
Proof. intros H1 H2 id o3 E C. destruct (H2 id o3 E C) as (o2 & E2 & C2). by apply (H1 id o2). Qed.

Lemma started_calm w w1 op w' : calm w w1 -> next_handle w1 = next_handle w -> started w1 op w' -> started w op w'.
Proof.
  intros Hc Hn [[-> H]|(-> & En & Es & Hf & H)]; [left; split; [done|by transitivity w1]|right].
  pose proof Hc as (T & Q & S & F). rewrite Hn in *. split; [done|]. split; [lia|]. split; [congruence|].
  split; [by eapply flags_trans|]. by rewrite T, Q in H.
Qed.

Lemma starts_bind {A} (m : M A) (k : A -> M Z) :
  adds true 0 m -> (forall a, starts_op (k a)) -> starts_op (m ≫= k).
Proof.
  intros Hm Hk w Hw Hr. destruct (Hm w ltac:(lia)) as (H1 & H2 & H3). specialize (H2 ltac:(lia)).
  specialize (H3 eq_refl). unfold mbind, M_bind. destruct (m w) as [[a| |] w1]; cbn [snd] in *; [|done..].
  assert (Hn : next_handle w1 = next_handle w) by lia.
  destruct (Hk a w1 ltac:(lia) ltac:(lia)) as [K1 K2]. split; [lia|].
  destruct (k a w1) as [[op| |] w']; [by eapply started_calm|by transitivity w1|done].
Qed.

Lemma starts_guard (m : M Z) : starts_op m -> starts_op (ffi_guard 0 m).
Proof.
  intros H w Hw Hr. destruct (H w Hw Hr) as [H1 H2]. unfold ffi_guard.
  destruct (m w) as [[op| |] w']; [done| |done]. split; [done|]. by left.
Qed.

Lemma starts_panic : starts_op panic.
Proof. intros w _ _. split; [done|]. by apply calm_eq. Qed.

Lemma new_op_next w : 0 < next_handle w -> next_handle w + 1 < two64 ->
  let '(id, w') := new_op w in id = next_handle w /\ next_handle w' = next_handle w + 1 /\ calm w w' /\
    tasks w' = tasks w.
Proof.
  intros Hw Hr. destruct (adds_new_op true w ltac:(lia)) as (_ & _ & Hc). specialize (Hc eq_refl).
  cbn in Hc |- *. split; [done|]. split; [|by split].
  unfold next_handle. cbn. unfold wrap_u64. rewrite Z.mod_small; [done|]. unfold next_handle in *. lia.
Qed.

Lemma starts_spawn f a : starts_op (spawn f a).
Proof.
  intros w Hw Hr. pose proof (new_op_next w Hw Hr) as H. unfold spawn, mbind, M_bind, lift.
  destruct (new_op w) as [id w1]. destruct H as (-> & Hn & Hc & Ht).
  assert (Hle : next_handle w <= next_handle w1) by lia.
  assert (Hs : started w (next_handle w) (set_tasks (<[next_handle w := TRunning f]> (tasks w1)) w1)).
  { destruct Hc as (_ & Q & S & F). right. split; [done|]. split; [exact Hn|]. split; [exact S|].
    split; [exact F|]. left. exists f. cbn. by rewrite Ht. }
  destruct a; (split; [exact Hle|first [exact Hs|exact Hc]]).
Qed.

Lemma starts_spawn_ready r : starts_op (spawn_ready r).
Proof.
  intros w Hw Hr. pose proof (new_op_next w Hw Hr) as H. unfold spawn_ready, lift.
  destruct (new_op w) as [id w1]. destruct H as (-> & Hn & Hc & Ht).
  destruct (set_result_spec (next_handle w) (Some r) w1) as [Sn Sc].
  assert (Hc2 : calm w (set_result (next_handle w) (Some r) w1)) by by transitivity w1.
  unfold post. set (w2 := set_result (next_handle w) (Some r) w1) in *.
  change (next_handle (push (next_handle w) (status_of r) w2)) with (next_handle w2).
  destruct Hc2 as (T & Q & S & F).
  split; [unfold push; cbn; unfold next_handle in *; cbn; lia|]. right. split; [done|]. split.
  { transitivity (next_handle w2); [done|]. lia. }
  split; [exact S|]. split; [exact F|]. right. exists r. cbn. by rewrite T, Q.
Qed.

Ltac starts_step :=
  match goal with
  | |- starts_op (ffi_guard 0 _) => apply starts_guard
  | |- starts_op (spawn _ _) => apply starts_spawn
  | |- starts_op (spawn_ready _) => apply starts_spawn_ready
  | |- starts_op panic => apply starts_panic
  | |- starts_op (or_ready ?r _) => destruct r; cbn [or_ready]
  | |- starts_op (mbind _ _) =>
      apply starts_bind; [first [apply adds_get | apply adds_remove | apply adds_or_panic]|intros ?]
  | |- starts_op (if ?b then _ else _) => destruct b
  | |- starts_op (match ?x with _ => _ end) => destruct x
  end.

Lemma start_call_starts f a : starts_op (start_call f a).
Proof.
  destruct f; cbn [start_call]; cbv delta [
    iroh_endpoint_bind iroh_endpoint_online iroh_endpoint_accept iroh_endpoint_close endpoint_future
    iroh_endpoint_remote_info iroh_endpoint_connect iroh_conn_open_bi iroh_conn_accept_bi
    iroh_conn_open_uni iroh_conn_accept_uni iroh_conn_read_datagram iroh_conn_closed conn_future
    iroh_send_write iroh_send_finish iroh_send_reset iroh_send_set_priority iroh_send_stopped
    iroh_recv_read iroh_recv_stop get_endpoint get_conn get_send get_recv get_opts]; cbv beta zeta;
    repeat starts_step.
Qed.

(** ** Lemmas: steps are played *)

Lemma over_tasks w w' op : tasks w' = tasks w -> over w' op <-> over w op.
Proof. unfold over. by intros ->. Qed.

Lemma plays_keeps w w' s : queue w' = queue w -> shut w' = shut w -> flags_kept w w' ->
  next_handle w <= next_handle w' -> (forall op, over w' op <-> over w op) -> plays w s -> plays w' s.
Proof.
  intros Q S F Hn Ho [P1 P2 P3 P4 P5]. constructor; [congruence|congruence| | |].
  - intros op. by rewrite Ho.
  - intros op o' E C. rewrite Ho. destruct (F op o' E C) as (o & E' & C'). by apply (P4 op o).
  - intros op H. specialize (P5 op H). lia.
Qed.

Lemma plays_calm w w' s : calm w w' -> next_handle w <= next_handle w' -> plays w s -> plays w' s.
Proof. intros (T & Q & S & F) Hn. apply plays_keeps; try done. intros op. by apply over_tasks. Qed.

(** An operation starts in the library and in the pump system. *)
Lemma plays_spawn w op w' f s : winv w -> plays w s -> op = next_handle w -> next_handle w' = next_handle w + 1 ->
  shut w' = shut w -> flags_kept w w' -> tasks w' = <[op := TRunning f]> (tasks w) -> queue w' = queue w ->
  plays w' (to_phase op Starting (PumpSystem.set_lib (<[op := LRun false]> (lib s)) s)).
Proof.
  intros W [P1 P2 P3 P4 P5] -> Hn Hs Hf Ht Hq. pose proof (w_next w W) as Wn.
  assert (Ho : forall op', op' <> next_handle w -> over w' op' <-> over w op').
  { intros op' Hne. unfold over. by rewrite Ht, lookup_insert_ne by done. }
  constructor; cbn; [congruence|congruence| | |].
  - intros op'. destruct (decide (op' = next_handle w)) as [->|Hne].
    + unfold over. rewrite Ht, !lookup_insert_eq. split; [by eexists|tauto].
    + rewrite Ho, lookup_insert_ne by done. apply P3.
  - intros op' o' E C. destruct (Hf op' o' E C) as (o & E' & C').
    pose proof (w_arcs w W op' (mk_is_Some _ _ E')). rewrite Ho, lookup_insert_ne by lia. by apply (P4 op' o).
  - intros op'. destruct (decide (op' = next_handle w)) as [->|Hne]; [lia|].
    rewrite lookup_insert_ne by done. intros H. specialize (P5 op' H). lia.
Qed.

(** An operation is posted in both, [w'] being what [w] is with it posted. *)
Lemma plays_post w op w' st s : plays w s -> shut w' = shut w -> flags_kept w w' ->
  next_handle w <= next_handle w' -> queue w' = queue w ++ [(op, st)] -> 0 < op < next_handle w' ->
  over w' op -> (forall op', op' <> op -> over w' op' <-> over w op') ->
  plays w' (post_completion op st s).
Proof.
  intros [P1 P2 P3 P4 P5] Hs Hf Hn Hq Hop Hov Ho. constructor; cbn; [congruence|congruence| | |].
  - intros op'. destruct (decide (op' = op)) as [->|Hne].
    + rewrite lookup_insert_eq. split; [tauto|by intros [c ?]].
    + rewrite Ho, lookup_insert_ne by done. apply P3.
  - intros op' o' E C. destruct (Hf op' o' E C) as (o & E' & C'). destruct (decide (op' = op)) as [->|Hne]; [tauto|].
    rewrite Ho, lookup_insert_ne by done. by apply (P4 op' o).
  - intros op'. destruct (decide (op' = op)) as [->|Hne]; [done|].
    rewrite lookup_insert_ne by done. intros H. specialize (P5 op' H). lia.
Qed.

Lemma status_of_known {A} (r : result A) :
  status_of r = StatusOK \/ status_of r = StatusErr \/ status_of r = StatusCancelled.
Proof. unfold status_of. destruct r; [by left|]. case_decide; [by right; right|by right; left]. Qed.

Lemma plays_start w op w' s : winv w -> inv s -> plays w s -> next_handle w <= next_handle w' -> started w op w' ->
  exists s', (if decide (op = 0) then s' = s
              else rtc env_step s s' /\ threads s' = <[op := Starting]> (threads s)) /\ plays w' s'.
Proof.
  intros W I P Hle [[-> Hc]|(Eop & Hn & Hs & Hf & Hk)].
  { exists s. rewrite decide_True by done. split; [done|by eapply plays_calm]. }
  pose proof (w_next w W) as Wn.
  assert (Hlib : lib s !! op = None).
  { apply eq_None_not_Some. intros H. pose proof (p_known w s P op H). lia. }
  set (s1 := to_phase op Starting (PumpSystem.set_lib (<[op := LRun false]> (lib s)) s)).
  assert (Hstep : env_step s s1) by (apply EStart; [lia|done|by apply (inv_known s I)]).
  destruct (decide (op = 0)) as [->|_]; [lia|].
  destruct Hk as [(f & Ht & Hq)|(r & Ht & Hq)].
  { exists s1. split; [split; [by apply rtc_once|done]|]. by eapply plays_spawn. }
  set (wi := mkShim (reg w') (arcs w') (<[op := TRunning (FCall (sendFinish 0))]> (tasks w)) (queue w) (shut w) (mem w')).
  assert (P1 : plays wi s1) by by eapply (plays_spawn w op wi).
  exists (post_completion op (status_of r) s1). split; [split; [|done]|].
  - eapply rtc_l; [exact Hstep|]. apply rtc_once. eapply EComplete; [cbn; apply lookup_insert_eq|apply status_of_known].
  - assert (Htn : tasks w !! op = None).
    { apply eq_None_not_Some. intros H%(w_tasks w W)%(w_arcs w W). lia. }
    apply (plays_post wi op w'); try done.
    + intros id o H C. by exists o.
    + lia.
    + unfold over. by rewrite Ht, Htn.
    + intros op' Hne. unfold over, wi. cbn. by rewrite Ht, lookup_insert_ne by done.
Qed.

Lemma next_room {A} c n (m : M A) w : winv w -> room n w -> adds c n m -> next_handle w <= next_handle (m w).2.
Proof. intros W R H. pose proof (w_next w W). destruct (H w ltac:(lia)) as (_ & H2 & _). by apply H2. Qed.

Lemma over_set_task w w' id t : tasks w' = <[id := t]> (tasks w) -> (t = TPosted <-> over w id) ->
  forall op, over w' op <-> over w op.
Proof.
  intros Ht Hid op. unfold over at 1. rewrite Ht. destruct (decide (op = id)) as [->|Hne].
  - rewrite lookup_insert_eq. destruct t; [|..|tauto]; (split; [done|intros H%Hid; done]).
  - by rewrite lookup_insert_ne.
Qed.

Lemma plays_task_runs id a w s : winv w -> plays w s -> room 2 w -> plays (task_runs id a w) s.
Proof.
  intros W P R. unfold task_runs. destruct (tasks w !! id) as [[f|r|]|] eqn:E; try done.
  pose proof (next_room _ _ _ w W R (adds_future f a)) as Hn. pose proof (w_next w W).
  destruct (adds_future f a w ltac:(lia)) as (_ & _ & (T & Q & S & F)); [done|].
  destruct (run_future f a w) as [o w1]. cbn [snd] in *.
  assert (Hrun : forall r, plays (set_task id (TFinished r) w1) s).
  { intros r. apply (plays_keeps w); try done. apply (over_set_task w _ id (TFinished r)).
    - cbn. by rewrite T.
    - unfold over. by rewrite E. }
  by destruct o.
Qed.

Lemma plays_task_stops id w s : plays w s -> plays (task_stops id w) s.
Proof.
  intros P. unfold task_stops. destruct (tasks w !! id) as [[f|r|]|] eqn:E; try done.
  destruct (arcs w !! id) as [o|]; [|done]. destruct (cancel_requested o); [|done].
  apply (plays_keeps w); try done; [by intros x y; eauto|].
  eapply over_set_task; [done|]. unfold over. by rewrite E.
Qed.

Lemma plays_supervisor_posts id w s : winv w -> plays w s ->
  exists s', (s' = s \/ env_step s s') /\ plays (supervisor_posts id w) s'.
Proof.
  intros W P. unfold supervisor_posts. destruct (tasks w !! id) as [[f|r|]|] eqn:E; try by (exists s; split; [left|]).
  destruct (proj1 (p_run w s P id)) as [c Hc]; [unfold over; rewrite E; tauto|].
  exists (post_completion id (status_of r) s). split; [right; eapply EComplete; [done|apply status_of_known]|].
  destruct (set_result_spec id (Some r) w) as [Sn (T & Q & S & F)]. unfold post.
  set (w1 := set_result id (Some r) w) in *.
  assert (Hid : 0 < id < next_handle w) by (apply (w_arcs w W), (w_tasks w W); by rewrite E).
  assert (Hn : next_handle (set_task id TPosted (push id (status_of r) w1)) = next_handle w) by exact Sn.
  apply (plays_post w); try done.
  - by rewrite Hn.
  - cbn. by rewrite Q.
  - by rewrite Hn.
  - unfold over. cbn. by rewrite lookup_insert_eq.
  - intros op' Hne. unfold over. cbn. by rewrite lookup_insert_ne, T by done.
Qed.

Lemma plays_supervisor_ends id w s : winv w -> plays w s -> plays (supervisor_ends id w) s.
Proof.
  intros W P. unfold supervisor_ends. destruct (tasks w !! id) as [[f|r|]|] eqn:E; try done.
  set (w1 := set_tasks (delete id (tasks w)) w). pose proof (w_next w W) as Wn.
  assert (P1 : plays w1 s).
  { apply (plays_keeps w); try done; [by intros x y; eauto|]. intros op. unfold over, w1. cbn.
    destruct (decide (op = id)) as [->|Hne]; [by rewrite lookup_delete_eq, E|by rewrite lookup_delete_ne]. }
  assert (Hn : next_handle w1 = next_handle w) by done.
  destruct (adds_drop_op_arc true None id w1 ltac:(lia)) as (_ & H2 & H3).
  eapply plays_calm; [by apply H3|apply H2; lia|exact P1].
Qed.

Lemma plays_wait t w x w' s : plays w s -> iroh_completion_wait t w = (Done x, w') ->
  exists s', plays_call s (completionWait 0) x s' /\ plays w' s'.
Proof.
  intros [P1 P2 P3 P4 P5]. unfold iroh_completion_wait, ffi_guard, wait.
  destruct (queue w) as [|[op st] q] eqn:Eq.
  - destruct (shut w) eqn:Es.
    + intros [= <- <-]. exists (set_pumpth PumpStopped s). split; [|by constructor; cbn; rewrite ?Eq, ?Es].
      intros Hp. cbn. split; [|done]. by apply PStop.
    + destruct t; [|done]. intros [= <- <-]. exists s. split; [done|]. by constructor; rewrite ?Eq, ?Es.
  - intros [= <- <-]. exists (set_pumpth (PumpGot op st) (PumpSystem.set_queue q s)).
    split; [|by constructor]. intros Hp. cbn. split; [|done]. by apply PWait.
Qed.

Lemma plays_wake w s : plays w s ->
  exists s', (rtc env_step s s' /\ stopping s' = true) /\ plays (set_shut true w) s'.
Proof.
  intros P. exists (set_stopping true s). split; [split; [|done]|by destruct P; constructor].
  destruct (stopping s) eqn:E; [|by apply rtc_once, EShutdown].
  assert (set_stopping true s = s) as -> by (destruct s; cbn in *; by subst). apply rtc_refl.
Qed.

(** A request to abort, recorded by the pump system whether or not the library
    still knows the operation. *)
Lemma plays_request w w' op s : plays w s ->
  tasks w' = tasks w -> queue w' = queue w -> shut w' = shut w -> next_handle w' = next_handle w ->
  (forall id o', arcs w' !! id = Some o' -> cancel_requested o' = true -> id <> op ->
     exists o, arcs w !! id = Some o /\ cancel_requested o = true) ->
  plays w' (request_cancel op s).
Proof.
  intros [P1 P2 P3 P4 P5] T Q S N F.
  assert (Ho : forall id, over w' id <-> over w id) by (intros id; by apply over_tasks).
  assert (Hl : forall id, (exists c, lib (request_cancel op s) !! id = Some (LRun c)) <-> exists c, lib s !! id = Some (LRun c)).
  { intros id. unfold request_cancel. destruct (lib s !! op) as [[c|st]|] eqn:E; try done. cbn.
    destruct (decide (id = op)) as [->|Hne]; [rewrite lookup_insert_eq, E|by rewrite lookup_insert_ne].
    by split; eexists. }
  destruct (request_cancel_frame s op) as (R1 & _ & _ & R4). constructor.
  - congruence.
  - congruence.
  - intros id. rewrite Ho, Hl. apply P3.
  - intros id o' E C Hr. rewrite Ho in Hr. destruct (decide (id = op)) as [->|Hne].
    + destruct (proj1 (P3 op) Hr) as [c Hc]. unfold request_cancel. rewrite Hc. cbn. apply lookup_insert_eq.
    + destruct (F id o' E C Hne) as (o & E' & C'). pose proof (P4 id o E' C' Hr) as Hid.
      unfold request_cancel. destruct (lib s !! op) as [[c|st]|]; try done. cbn. by rewrite lookup_insert_ne.
  - intros id H. rewrite N. apply P5. unfold request_cancel in H.
    destruct (lib s !! op) as [[c|st]|] eqn:E; try done. cbn in H.
    destruct (decide (id = op)) as [->|Hne]; [by rewrite E|by rewrite lookup_insert_ne in H].
Qed.

Lemma plays_cancel op a ptr w w' x s : winv w -> plays w s -> shim_call (opCancel op) a ptr w = (Done x, w') ->
  exists s', plays_call s (opCancel op) x s' /\ plays w' s'.
Proof.
  intros W P Hc.
  assert (Hw : w' = w \/ w' = cancel op w).
  { cbn [shim_call] in Hc. unfold iroh_op_cancel, ffi_guard, mbind, M_bind, get_op, get, lift in Hc.
    destruct (get_slot as_op op (reg w)) as [id|e] eqn:Eg; cbn in Hc; injection Hc as _ <-; [right|by left].
    unfold get_slot in Eg. destruct (op =? NULL_HANDLE); [done|]. rewrite t_slot_slots in Eg by apply W.
    destruct (slots w !! op) as [sl|] eqn:Es; [|done]. destruct sl as [id'| | |]; try done. cbn in Eg.
    injection Eg as ->. by destruct (w_op w W op id Es) as [-> _]. }
  assert (Hp : plays w' (request_cancel op s)).
  { destruct Hw as [-> | ->]; [by apply (plays_request w); eauto|].
    unfold cancel. destruct (arcs w !! op) as [o|] eqn:E; [|by apply (plays_request w); eauto].
    apply (plays_request w); try done. intros id o' E' C Hne. cbn in E'.
    rewrite lookup_insert_ne in E' by done. by exists o'. }
  assert (Hno : (forall ch, threads s !! op <> Some (Cancelling ch)) ->
    exists s', plays_call s (opCancel op) x s' /\ plays w' s').
  { intros H. exists (request_cancel op s). split; [|done]. intros ch E. by destruct (H ch). }
  destruct (threads s !! op) as [[|ch|ch|ch|st|st|st c]|] eqn:Et; try by apply Hno.
  exists (to_phase op (Draining ch) (request_cancel op s)). split; [|by destruct Hp].
  intros ch' H. rewrite Et in H. injection H as <-. split; [by apply TCancel|apply lookup_insert_eq].
Qed.

Lemma plays_entry X (e : cE X) a ptr w w' x s : winv w -> inv s -> plays w s -> room 1 w ->
  shim_call e a ptr w = (Done x, w') -> exists s', plays_call s e x s' /\ plays w' s'.
Proof.
  intros W I P R Hc. pose proof (w_next w W) as Wn. pose proof (adds_call e a ptr) as Ha.
  pose proof (next_room _ _ _ w W R Ha) as Hn. rewrite Hc in Hn. cbn in Hn.
  assert (Hcalm : calls_calm e = true -> plays w' s).
  { intros E. destruct (Ha w ltac:(lia)) as (_ & _ & K). specialize (K E). rewrite Hc in K.
    by apply (plays_calm w). }
  destruct e; try (exists s; split; [done|]; by apply Hcalm).
  - cbn [shim_call] in Hc. destruct (plays_wait _ _ _ _ _ P Hc) as (s' & H & P'). by exists s'.
  - cbn in Hc. injection Hc as <- <-. destruct (plays_wake w s P) as (s' & H & P'). by exists s'.
  - by eapply plays_cancel.
  - destruct (start_call_starts f a w ltac:(lia) R) as [_ Hs]. cbn [shim_call] in Hc. rewrite Hc in Hs.
    by apply (plays_start w).
Qed.

(** ** Properties *)

(** C10. The native library is the library the pump was proved against.  Start
    both empty.  Then every entry point, called in any order by anyone, and every
    step of a task or its supervisor, is matched by the pump system: what the
    pump's wait receives, in what order and when it is told to stop is what the
    system's pump gets; an operation started, its completion posted, at once or
    by its supervisor, and a request to abort it are the system's own steps; and
    nothing else the library does moves the system. *)
Theorem shim_is_the_pumps_library :
  plays shim_start sys_init /\
  (forall X (e : cE X) a ptr w w' x s, winv w -> reachable s -> plays w s -> room 1 w ->
     shim_call e a ptr w = (Done x, w') -> exists s', plays_call s e x s' /\ plays w' s') /\
  (forall w w' s, winv w -> plays w s -> shim_step w w' ->
     exists s', (s' = s \/ env_step s s') /\ plays w' s').
Proof.
  split; [|split].
  - constructor; try done.
    + intros op. unfold over. cbn. rewrite lookup_empty. split; [tauto|by intros [c ?]].
    + intros op H. cbn in H. rewrite lookup_empty in H. by destruct H.
  - intros X e a ptr w w' x s W Hr P R Hc. by eapply plays_entry; [..|apply inv_reachable| | |].
  - intros w w' s W P H. destruct H as [id a w _ R|id w|id w|id w].
    + exists s. split; [by left|by apply plays_task_runs].
    + exists s. split; [by left|by apply plays_task_stops].
    + by apply plays_supervisor_posts.
    + exists s. split; [by left|by apply plays_supervisor_ends].
Qed.
End Plays.

(** ** Witnesses *)

(** Options are made and an endpoint bound with them: the pump system has
    operation 2 started. *)
Example shim_is_the_pumps_library_witness :
  exists s', (rtc env_step sys_init s' /\ threads s' = <[2 := Starting]> (threads sys_init)) /\ plays binding s'.
Proof.
  destruct shim_is_the_pumps_library as (P0 & Hcall & _).
  destruct (Hcall Z (optionsNew 2) SaysOk 1 shim_start with_options 1 sys_init) as (s1 & -> & P1);
    [apply (proj1 sound_start)|apply rtc_refl|exact P0|reflexivity|reflexivity|].
  exact (Hcall Z (CStart (endpointBind 1)) SaysOk 1 with_options binding 2 sys_init
           (proj1 options_sound) (rtc_refl _ _) P1 eq_refl eq_refl).
Defined.
