(* ===== verification/ShimRuns.v ===== *)
(** Go code run on the native library.

    [shim_handler] serves every event of [Abi]: the C functions by [Shim], the
    channels, contexts, locks and cells of the Go run time as [Reference] does.
    A wait for an operation lets its task run (or be stopped, when that was
    asked for), its supervisor post and end, and takes the completion off the
    queue.  The world counts its events, which bounds the ids given out.

    [go_runs_on_the_shim] turns every theorem proved with [wp] into one about
    such runs; [a_session] is one, computed. *)
From S2P Require Import Prelude GoErrors Prog Abi Contract Reference Pump Calls GoStrings Keys Netip Addr Handle Deadline Streams Conn Endpoint.
From S2P Require Import Registry RustAddr Shim ShimInv ShimRefines ShimIds.
Local Open Scope Z_scope.
Local Open Scope go_scope.

Section Runs.
Context {iroh : Iroh} {crates : IrohCrates}.

(** ** The goroutine's account, kept by the answers *)

Definition got_buf (b : cbuf) (s : owned) : owned :=
  if decide (buf_data b = []) then s else set_bufs (<[buf_ptr b := buf_len b]> (o_bufs s)) s.
Definition got_err (e : Z) (s : owned) : owned :=
  if decide (e = 0) then s else set_errs ({[e]} ∪ o_errs s) s.
Definition got_rc (rc e : Z) (s : owned) : owned := if decide (rc = 0) then s else got_err e s.

(** What a goroutine owns after a call is known from its answer. *)
Definition after {X} (s : owned) (e : cE X) : X -> owned :=
  match e in cE X return X -> owned with
  | irohVersion => fun b => got_buf b s
  | freeBytes ptr _ => fun _ => set_bufs (delete ptr (o_bufs s)) s
  | opFree op => fun _ => drop_op op s
  | opResultHandle op => fun '(rc, h, e) =>
      let s := add_op op OpTaken s in if decide (rc = 0) then add_handles [h] s else got_err e s
  | opResultHandle2 op => fun '(rc, (a, b), e) =>
      let s := add_op op OpTaken s in if decide (rc = 0) then add_handles [a; b] s else got_err e s
  | opResultU64 op => fun '(rc, _, e) => got_rc rc e (add_op op OpTaken s)
  | opResultBytes op => fun '(rc, (b, _), e) =>
      let s := add_op op OpTaken s in if decide (rc = 0) then got_buf b s else got_err e s
  | opResultErr op => fun '(_, _, e) => got_err e (add_op op OpTaken s)
  | errorTake err => fun '(_, b) => got_buf b (set_errs (o_errs s ∖ {[err]}) s)
  | optionsNew _ => fun h => add_options h s
  | connMaxDatagramSize _ => fun '(rc, _, e) => got_rc rc e s
  | connStats _ _ => fun '(rc, _, e) => got_rc rc e s
  | CStart f => fun op =>
      if decide (op = 0) then base f s else add_op op (OpRunning (kind_of f)) (base f s)
  | CUnit _ => fun '(rc, _, e) => got_rc rc e s
  | CText _ => fun '(rc, b, e) => if decide (rc = 0) then got_buf b s else got_err e s
  | COut _ => fun '(rc, _, e) => got_rc rc e s
  | CFree f => fun _ => drop_handle (freed_handle f) s
  | _ => fun _ => s
  end.

Lemma gets_buf_got s b s' : gets_buf s b s' -> s' = got_buf b s.
Proof. by intros (_ & _ & _ & ->). Qed.
Lemma gets_err_got s e s' : gets_err s e s' -> s' = got_err e s.
Proof. by intros (_ & _ & ->). Qed.
Lemma gets_rc_got s rc e s' : gets_rc s rc e s' -> s' = got_rc rc e s.
Proof. unfold gets_rc, got_rc. case_decide; [by intros [_ ->]|apply gets_err_got]. Qed.
Lemma collects_got s op k rc e (ok : owned -> owned -> Prop) s' :
  collects s op k rc e ok s' ->
  if decide (rc = 0) then ok (add_op op OpTaken s) s' else s' = got_err e (add_op op OpTaken s).
Proof.
  intros [(-> & _ & H)|(Hne & _ & H)]; [by rewrite decide_True|]. rewrite decide_False by done.
  by apply gets_err_got.
Qed.

Lemma c_post_after X (e : cE X) s x s' : c_post s e x s' -> s' = after s e x.
Proof.
  destruct e; cbn [c_post after].
  - by intros [_ ->].
  - apply gets_buf_got.
  - by intros ->.
  - by intros ->.
  - by intros ->.
  - by intros [_ ->].
  - by intros ->.
  - by intros ->.
  - by intros ->.
  - by intros ->.
  - destruct x as [[rc h] er]. intros (h0 & _ & Hc%collects_got). case_decide; [by destruct Hc as (_ & _ & ->)|done].
  - destruct x as [[rc [a b]] er]. intros (a0 & b0 & _ & Hc%collects_got).
    case_decide; [by destruct Hc as (_ & _ & _ & ->)|done].
  - destruct x as [[rc v] er]. intros (k & v0 & _ & Hc%collects_got). unfold got_rc.
    case_decide; [by destruct Hc as (_ & ->)|done].
  - destruct x as [[rc [b eof]] er]. intros (k & v0 & _ & Hc%collects_got). case_decide; [|done].
    destruct v0; try done; [by destruct Hc as (_ & _ & ->%gets_buf_got)|].
    destruct Hc as (-> & _ & ->). unfold got_buf. by rewrite decide_True.
  - destruct x as [[rc []] e]. apply gets_err_got.
  - destruct x as [kind b]. intros [_ H]. by apply gets_buf_got.
  - by intros [_ ->].
  - by intros (_ & _ & ->).
  - destruct x as [[rc n] e]. intros [_ H]. by apply gets_rc_got.
  - destruct x as [[rc l] e]. intros [_ H]. by apply gets_rc_got.
  - intros [_ [[-> ->]|(Hne & _ & ->)]]; [by rewrite decide_True|by rewrite decide_False].
  - destruct x as [[rc []] e]. apply gets_rc_got.
  - destruct x as [[rc b] e]. unfold gets_text. case_decide; [intros [_ G]; by apply gets_buf_got|].
    intros [_ G]. by apply gets_err_got.
  - destruct x as [[rc l] e]. intros [_ H]. by apply gets_rc_got.
  - by intros ->.
Qed.

(** ** Completions and handles *)

(** The status posted for [op]: the pump has emptied the queue into its
    tables, where the completions of other operations stay. *)
Definition posted_status (op : Z) (q : list (Z * Z)) : option Z :=
  snd <$> find (fun x => bool_decide (x.1 = op)) q.
Definition without (op : Z) (q : list (Z * Z)) : list (Z * Z) := filter (fun x => x.1 <> op) q.

Lemma posted_status_in op q : op ∈ q.*1 -> exists status, posted_status op q = Some status /\ (op, status) ∈ q.
Proof.
  unfold posted_status. induction q as [|[op' st] q IH]; simpl; [by intros ?%not_elem_of_nil|].
  destruct (decide (op' = op)) as [->|Hne].
  - intros _. rewrite bool_decide_eq_true_2 by done. exists st. split; [done|by left].
  - rewrite bool_decide_eq_false_2 by done. intros [?|Hin]%elem_of_cons; [congruence|].
    destruct (IH Hin) as (status & -> & H). exists status. split; [done|by right].
Qed.

Lemma without_spec op q : NoDup q.*1 ->
  (forall x, x ∈ without op q -> x ∈ q) /\ NoDup (without op q).*1 /\
  (forall id, id <> op -> id ∈ q.*1 -> id ∈ (without op q).*1).
Proof.
  intros Hnd. unfold without. split; [|split].
  - intros x. rewrite list_elem_of_filter. tauto.
  - induction q as [|x q IH]; [done|]. simpl in Hnd. apply list.NoDup_cons in Hnd as [Hx Hnd].
    rewrite filter_cons. case_decide; [|by apply IH]. simpl. apply list.NoDup_cons. split; [|by apply IH].
    intros (y & Ey & [_ Hy]%list_elem_of_filter)%list_elem_of_fmap. apply Hx, list_elem_of_fmap. by exists y.
  - intros id Hne (x & -> & Hx)%list_elem_of_fmap. apply list_elem_of_fmap. exists x.
    split; [done|]. by apply list_elem_of_filter.
Qed.

(** What Go objects own. *)
Definition objects (hs : gset Z) : owned := set_handles hs newcomer.

(** Handles change hands between the goroutine and Go objects. *)
Lemma objects_add h hs : add_handles [h] (objects hs) = objects ({[h]} ∪ hs).
Proof.
  unfold add_handles, objects, set_handles. simpl. f_equal. set_solver.
Qed.

Lemma sound_give w s hs h : sound w s (objects hs) -> h ∈ o_handles s ->
  sound w (drop_handle h s) (objects ({[h]} ∪ hs)).
Proof.
  intros S Hh. destruct (owned_object w s _ h S Hh) as (v & Hv & Hk & Hn & Us & Ut & S1).
  rewrite <-objects_add. apply sound_sym, sound_add_handles; [by apply sound_sym|].
  apply Forall_singleton. split; [|done]. unfold is_object. rewrite Hv. by destruct v.
Qed.

Lemma sound_takeback w s hs h : sound w s (objects hs) -> h ∈ hs ->
  (h ∉ o_handles s) /\ 0 < h /\ sound w (add_handles [h] s) (objects (hs ∖ {[h]})).
Proof.
  intros S%sound_sym Hh. destruct (owned_object w _ s h S Hh) as (v & Hv & Hk & Hn & Us & Ut & S2).
  split; [apply Ut|]. split.
  { pose proof (w_slots w (proj1 S) h (mk_is_Some _ _ Hv)). lia. }
  apply sound_add_handles; [exact (sound_sym _ _ _ S2)|].
  apply Forall_singleton. split; [unfold is_object; rewrite Hv; by destruct v|]. by split.
Qed.

(** ** The world *)

Record rworld := mkWorld {
  rw_lib : shim;               (* the native library *)
  rw_go : owned;               (* the Go run time, and the goroutine's account *)
  rw_objs : gset Z;            (* handles owned by Go objects *)
  rw_count : nat               (* events so far *)
}.

(** iroh: what it answers in a call, in a task, and whether a task that was
    asked to stop still ends first. *)
Context (answer : forall X, cE X -> shim -> says) (answer_task : Z -> shim -> says) (stops : Z -> shim -> bool).

Definition handler_c {X} (e : cE X) (W : rworld) : X * rworld :=
  match shim_call e (answer X e (rw_lib W)) (next_id (dom (mem (rw_lib W)))) (rw_lib W) with
  | (Done x, w') => (x, mkWorld w' (after (rw_go W) e x) (rw_objs W) (S (rw_count W)))
  | (_, w') => ((ref_c e (rw_go W)).1, mkWorld w' (rw_go W) (rw_objs W) (S (rw_count W)))
  end.

(** A wait for [op]: its task ends, its supervisor posts and goes. *)
Definition finish_op (op : Z) (w : shim) : shim :=
  let w := if stops op w then task_stops op w else w in
  supervisor_ends op (supervisor_posts op (task_runs op (answer_task op w) w)).

Definition complete_op (ch : Z) (W : rworld) : Z * rworld :=
  let s := rw_go W in
  match o_chans s !! ch with
  | Some op =>
      match o_ops s !! op with
      | Some (OpWaiting k) =>
          let w := finish_op op (rw_lib W) in
          match posted_status op (queue w), op_outcome w op with
          | Some status, Some r =>
              (status,
               mkWorld (set_queue (without op (queue w)) w)
                 (apply_effect k (value_of r)
                    (set_chans (delete ch (o_chans s)) (add_op op (OpDone k status (value_of r)) s)))
                 (rw_objs W) (S (rw_count W)))
          | _, _ => (StatusOK, mkWorld w s (rw_objs W) (S (rw_count W)))
          end
      | _ => (StatusOK, mkWorld (rw_lib W) s (rw_objs W) (S (rw_count W)))
      end
  | None => (StatusOK, mkWorld (rw_lib W) s (rw_objs W) (S (rw_count W)))
  end.

(** The cells of Go objects own their handles until they are emptied. *)
Definition cell (o : Z) (W : rworld) : Z :=
  let h := default 0 (o_objs (rw_go W) !! o) in if decide (h ∈ rw_objs W) then h else 0.

Definition handler_r {X} (e : rtE X) (W : rworld) : X * rworld :=
  let s := rw_go W in
  let keep s' := mkWorld (rw_lib W) s' (rw_objs W) (S (rw_count W)) in
  match e in rtE X return X * rworld with
  | RSelect ch ctx =>
      match done_with ctx s with
      | Some e => (inr tt, keep (upd_ctx (<[ctx := CtxDone e]> (o_ctx s)) (o_changes s) s))
      | None => let '(status, W') := complete_op ch W in (inl status, W')
      end
  | RRecv ch => complete_op ch W
  | RLoadHandle o => (cell o W, keep s)
  | RSwap o _ =>
      let h := cell o W in
      if decide (h = 0) then (0, keep s)
      else (h, mkWorld (rw_lib W) (add_handles [h] s) (rw_objs W ∖ {[h]}) (S (rw_count W)))
  | RAddCleanup _ f =>
      (tt, mkWorld (rw_lib W) (drop_handle (freed_handle f) s) ({[freed_handle f]} ∪ rw_objs W) (S (rw_count W)))
  | RNew => (next_id (dom (o_objs s)), keep s)
  | RLoad => (None, keep (set_loaded true s))
  | RShutdownGuard => ((None, o_loaded s), keep s)
  | RRegister op =>
      let ch := next_id (dom (o_chans s)) in
      match o_ops s !! op with
      | Some (OpRunning k) =>
          (ch, keep (set_chans (<[ch := op]> (o_chans s)) (add_op op (OpWaiting k) s)))
      | _ => (ch, keep s)
      end
  | RCtxErr ctx =>
      (match o_ctx s !! ctx with Some (CtxDone e) => Some (Sentinel e) | _ => None end, keep s)
  | RStore o v => (tt, keep (set_objs (<[o := v]> (o_objs s)) s))
  | RLock m => (tt, keep (set_locks ({[m]} ∪ o_locks s) s))
  | RUnlock m => (tt, keep (set_locks (o_locks s ∖ {[m]}) s))
  | RArm d =>
      let ctx := next_id (dom (o_ctx s)) in
      let id := next_id (set_map snd (o_armed s)) in
      ((ctx, id), keep (set_ctx (<[ctx := CtxArmed]> (o_ctx s)) (set_armed ({[(d, id)]} ∪ o_armed s) s)))
  | RRelease d id => (tt, keep (set_armed (o_armed s ∖ {[(d, id)]}) s))
  | RSetDeadline _ _ => (tt, keep s)
  | RGetRemote _ => (zeros 32, keep s)
  | RSetRemote _ _ => (tt, keep s)
  end.

Definition shim_handler : handler goE rworld := fun X e W =>
  match e in goE X return X * rworld with C e => handler_c e W | R e => handler_r e W end.

(** ** Lemmas: a wait *)

Lemma tasks_release locked h w : tasks (release locked h w).2 = tasks w.
Proof. unfold release. destruct locked as [l|]; [case_bool_decide|]; done. Qed.

Lemma tasks_drop_op_arc locked id w : tasks (drop_op_arc locked id w).2 = tasks w.
Proof.
  unfold drop_op_arc. destruct (_ || _); [done|]. destruct (arcs w !! id) as [o|]; [|done].
  destruct (op_result o) as [[v|]|]; [|done|done]. destruct v as [|h|a b| | |]; try done.
  - apply (tasks_release locked h (set_arcs (delete id (arcs w)) w)).
  - cbn [release_handles]. unfold mbind, M_bind.
    pose proof (tasks_release locked a (set_arcs (delete id (arcs w)) w)) as Ha.
    destruct (release locked a (set_arcs (delete id (arcs w)) w)) as [[[]| |] w'] eqn:E; cbn in Ha; [|done|done].
    rewrite tasks_release. exact Ha.
Qed.

Lemma over_posts id w : (forall f, tasks w !! id <> Some (TRunning f)) -> over (supervisor_posts id w) id.
Proof.
  intros H. unfold supervisor_posts, over. destruct (tasks w !! id) as [[f|r|]|] eqn:E; [by destruct (H f)| | |].
  - simpl. by rewrite lookup_insert_eq.
  - by rewrite E.
  - by rewrite E.
Qed.

Lemma over_ends id w : over w id -> over (supervisor_ends id w) id.
Proof.
  intros H. unfold supervisor_ends. destruct (tasks w !! id) as [[f|r|]|] eqn:E; try done.
  unfold over. rewrite tasks_drop_op_arc. simpl. by rewrite lookup_delete_eq.
Qed.

Lemma next_task_runs id a w : 0 <= next_handle w -> 0 <= next_handle (task_runs id a w) <= next_handle w + 2.
Proof.
  intros Hw. unfold task_runs. destruct (tasks w !! id) as [[f| |]|]; try lia.
  pose proof (proj1 (adds_future f a w Hw)) as H. destruct (run_future f a w) as [[r| |] w']; cbn in H |- *;
    unfold next_handle in *; cbn; lia.
Qed.

Lemma next_supervisor_posts id w : next_handle (supervisor_posts id w) = next_handle w.
Proof.
  unfold supervisor_posts. destruct (tasks w !! id) as [[| r|]|]; try done.
  change (next_handle (set_result id (Some r) w) = next_handle w). apply set_result_spec.
Qed.

Lemma next_supervisor_ends id w : 0 <= next_handle w -> next_handle (supervisor_ends id w) <= next_handle w.
Proof.
  intros Hw. unfold supervisor_ends. destruct (tasks w !! id) as [[| |]|]; try lia.
  pose proof (proj1 (adds_drop_op_arc true None id (set_tasks (delete id (tasks w)) w) Hw)) as H.
  change (next_handle (set_tasks (delete id (tasks w)) w)) with (next_handle w) in H. lia.
Qed.

Lemma next_task_stops id w : next_handle (task_stops id w) = next_handle w.
Proof.
  unfold task_stops. destruct (tasks w !! id) as [[| |]|]; try done. destruct (arcs w !! id) as [o|]; [|done].
  by destruct (cancel_requested o).
Qed.

Context (Hanswer : forall X (e : cE X) w, lawful_call e (answer X e w)).
Context (Htask : forall op w f, tasks w !! op = Some (TRunning f) -> lawful_future f (answer_task op w)).

Lemma not_running_after op w s t : sound w s t -> room 2 w ->
  forall f, tasks (task_runs op (answer_task op w) w) !! op <> Some (TRunning f).
Proof.
  intros S R f. unfold task_runs. destruct (tasks w !! op) as [[f'| |]|] eqn:E; try congruence.
  pose proof (run_future_made f' (answer_task op w) w s t S R (Htask op w f' E)) as Hd. unfold does in Hd.
  destruct (run_future f' (answer_task op w) w) as [[r| |] w']; [| |done]; simpl; by rewrite lookup_insert_eq.
Qed.

Lemma finish_op_ok op w s t : sound w s t -> room 2 w ->
  sound (finish_op op w) s t /\ over (finish_op op w) op /\
  next_handle (finish_op op w) <= next_handle w + 2.
Proof.
  intros S R. unfold finish_op. set (w1 := if stops op w then task_stops op w else w).
  assert (S1 : sound w1 s t) by (unfold w1; destruct (stops op w); [by apply task_stops_sound|done]).
  assert (N1 : next_handle w1 = next_handle w) by (unfold w1; destruct (stops op w); [apply next_task_stops|done]).
  assert (R1 : room 2 w1) by (unfold room in *; by rewrite N1).
  set (w2 := task_runs op (answer_task op w1) w1).
  assert (S2 : sound w2 s t) by (apply task_runs_sound; [done|done|apply Htask]).
  pose proof (w_next w1 (proj1 S1)) as W1.
  pose proof (next_task_runs op (answer_task op w1) w1 ltac:(lia)) as N2. fold w2 in N2.
  pose proof (next_supervisor_posts op w2) as N3.
  pose proof (next_supervisor_ends op (supervisor_posts op w2)) as N4.
  split; [by apply supervisor_ends_sound, supervisor_posts_sound|]. split; [|lia].
  apply over_ends, over_posts. by eapply not_running_after.
Qed.

(** ** The handler implements the contract *)

Definition run_rel (W : rworld) (s : owned) : Prop :=
  rw_go W = s /\ sound (rw_lib W) s (objects (rw_objs W)) /\
  next_handle (rw_lib W) <= 1 + 3 * Z.of_nat (rw_count W).

(** Few enough events: ids are left for one more. *)
Definition early (W : rworld) : Prop := Z.of_nat (rw_count W) < 2 ^ 62.

Lemma early_room W s : run_rel W s -> early W -> room 3 (rw_lib W).
Proof. intros (_ & _ & H) HE. unfold early, room, two64 in *. lia. Qed.

Lemma room_less i j w : room j w -> i <= j -> room i w.
Proof. unfold room. lia. Qed.

Lemma handler_c_ok `{!CratesLaws} X (e : cE X) W s : run_rel W s -> early W -> c_pre s e ->
  exists s', c_post s e (handler_c e W).1 s' /\ run_rel (handler_c e W).2 s'.
Proof.
  intros HR HE Hpre. pose proof (early_room W s HR HE) as Hroom. destruct HR as (<- & S & N).
  pose proof (w_next _ (proj1 S)) as Wn. unfold handler_c. set (w := rw_lib W) in *.
  set (ptr := next_id (dom (mem w))).
  assert (F : fresh_ptr w ptr) by (split; [apply next_id_pos|apply next_id_fresh_map]).
  pose proof (shim_call_ok X e (answer X e w) ptr w (rw_go W) (objects (rw_objs W)) S Hpre
    (room_less 1 3 w Hroom ltac:(lia)) F (Hanswer X e w)) as Hd.
  pose proof (proj1 (adds_call e (answer X e w) ptr w ltac:(lia))) as Ha.
  unfold does in Hd. destruct (shim_call e (answer X e w) ptr w) as [[x| |] w']; [|done|done].
  destruct Hd as (s' & Hpost & S'). exists s'. split; [exact Hpost|]. cbn in Ha.
  pose proof (c_post_after X e _ x s' Hpost) as ->. split; [done|]. split; [exact S'|]. cbn. lia.
Qed.

Lemma complete_op_ok ch W s : run_rel W s -> early W ->
  (exists op k, o_chans s !! ch = Some op /\ o_ops s !! op = Some (OpWaiting k)) ->
  exists s', completes s ch (complete_op ch W).1 s' /\ run_rel (complete_op ch W).2 s'.
Proof.
  intros HR HE (op & k & Hch & Hop). pose proof (early_room W s HR HE) as Hroom. destruct HR as (<- & S & N).
  unfold complete_op. rewrite Hch, Hop.
  destruct (finish_op_ok op (rw_lib W) _ _ S (room_less 2 3 _ Hroom ltac:(lia))) as (S1 & Hov & N1).
  set (w := finish_op op (rw_lib W)) in *.
  destruct (waiting_queued op k w _ _ S1 Hop) as [?|Hq]; [done|].
  destruct (posted_status_in op (queue w) Hq) as (status & -> & Hin).
  destruct (without_spec op (queue w) (w_once w (proj1 S1))) as (Q1 & Q2 & Q3).
  destruct (receive_sound op status (without op (queue w)) ch k w _ _ S1 Hin Q1 Q2 Q3 Hop Hch)
    as (r & -> & _ & Hc & S2).
  eexists. split; [exact Hc|]. split; [done|]. split; [exact S2|]. cbn. unfold next_handle in *. cbn. lia.
Qed.

(** Events that leave the account alone. *)
Lemma keep_ok W s s' : run_rel W s ->
  o_ops s' = o_ops s -> o_errs s' = o_errs s -> o_handles s' = o_handles s -> o_bufs s' = o_bufs s ->
  run_rel (mkWorld (rw_lib W) s' (rw_objs W) (S (rw_count W))) s'.
Proof.
  intros (<- & S & N) E1 E2 E3 E4. split; [done|]. split; [by apply (sound_fields _ (rw_go W))|]. cbn. lia.
Qed.

Lemma cell_spec o W s : run_rel W s -> cell o W = 0 \/ (cell o W ∈ rw_objs W /\ o_objs s !! o = Some (cell o W)).
Proof.
  intros (<- & S & _). unfold cell. case_decide as D; [|by left].
  destruct (o_objs (rw_go W) !! o) as [h|] eqn:E; simpl in *; [by right|by left].
Qed.

Lemma register_ok op W s : run_rel W s -> early W -> r_pre s (RRegister op) ->
  exists s', r_post s (RRegister op) (handler_r (RRegister op) W).1 s' /\ run_rel (handler_r (RRegister op) W).2 s'.
Proof.
  intros (Ego & HS & HN) HE [k Hop]. cbn [handler_r]. rewrite Ego, Hop. eexists. split.
  - split; [apply next_id_fresh_map|]. by exists k.
  - split; [done|]. split; [|cbn; lia].
    apply (sound_fields _ (add_op op (OpWaiting k) s)); try done.
    pose proof HS as (_ & Rs & _ & A). apply sound_add_op; [exact HS|exact (r_ops _ _ Rs op _ Hop)|].
    apply A. by eexists.
Qed.

Lemma swap_ok o v W s : run_rel W s -> early W -> r_pre s (RSwap o v) ->
  exists s', r_post s (RSwap o v) (handler_r (RSwap o v) W).1 s' /\ run_rel (handler_r (RSwap o v) W).2 s'.
Proof.
  intros HR HE Hpre. pose proof HR as (Ego & HS & HN). cbn [handler_r]. rewrite Ego.
  destruct (cell_spec o W s HR) as [E|[Hin Ho]].
  - rewrite E. rewrite decide_True by done. exists s. split; [|by apply (keep_ok W s)].
    split; [by left|]. split; [done|]. by rewrite decide_True.
  - destruct (sound_takeback (rw_lib W) s (rw_objs W) (cell o W) HS Hin) as (Hn & Hpos & S').
    rewrite decide_False by lia. eexists. split.
    + cbn [fst]. split; [by right|]. split; [done|]. by rewrite decide_False by lia.
    + split; [done|]. split; [exact S'|]. cbn. lia.
Qed.

Lemma handler_r_ok X (e : rtE X) W s : run_rel W s -> early W -> r_pre s e ->
  exists s', r_post s e (handler_r e W).1 s' /\ run_rel (handler_r e W).2 s'.
Proof.
  intros HR HE Hpre. pose proof HR as (Ego & HS & HN).
  destruct e; try (by apply register_ok); try (by apply swap_ok);
    cbn [handler_r r_pre] in *; rewrite ?Ego; try (eexists; split; [|by apply (keep_ok W s)]).
  - split; [apply next_id_fresh_map|done].
  - done.
  - done.
  - (* RSelect *)
    destruct (done_with ctx s) as [e|] eqn:E.
    + eexists. split; [exists e; by apply done_with_spec|]. by apply (keep_ok W s).
    + pose proof (complete_op_ok ch W s HR HE Hpre) as Hc.
      destruct (complete_op ch W) as [status W']. exact Hc.
  - by apply complete_op_ok.
  - cbn. by destruct (o_ctx s !! ctx) as [[]|].
  - done.
  - (* RLoadHandle *)
    split; [|done]. destruct (cell_spec o W s HR) as [->|[_ H]]; [by left|by right].
  - (* RAddCleanup *)
    eexists. split; [done|]. split; [done|]. split; [|cbn; lia]. by apply sound_give.
  - done.
  - done.
  - (* RArm *)
    split; [|split; [|split]].
    + intros H. apply (next_id_fresh (set_map snd (o_armed s))).
      apply elem_of_map. by exists (d, next_id (set_map snd (o_armed s))).
    + apply next_id_fresh_map.
    + pose proof (next_id_pos (dom (o_ctx s))). unfold background. lia.
    + exists CtxArmed. split; [by left|done].
  - done.
  - done.
  - done.
  - done.
Qed.

Lemma count_step X (e : goE X) W : rw_count (shim_handler X e W).2 = S (rw_count W).
Proof.
  destruct e as [X e|X e]; cbn [shim_handler].
  - unfold handler_c. 
    generalize (answer X e (rw_lib W)), (next_id (dom (mem (rw_lib W)))). intros a ptr.
    by destruct (shim_call e a ptr (rw_lib W)) as [[x| |] w'].
  - assert (forall ch, rw_count (complete_op ch W).2 = S (rw_count W)) as Hc.
    { intros ch. unfold complete_op. destruct (o_chans (rw_go W) !! ch) as [op|]; [|done].
      destruct (o_ops (rw_go W) !! op) as [[k|k| |]|]; try done.
      set (w := finish_op op (rw_lib W)).
      by destruct (posted_status op (queue w)), (op_outcome w op). }
    destruct e; cbn [handler_r]; try done.
    + by destruct (o_ops (rw_go W) !! op) as [[| | |]|].
    + destruct (done_with ctx (rw_go W)); [done|]. specialize (Hc ch). by destruct (complete_op ch W).
    + by case_decide.
Qed.

(** ** Properties *)

(** C6. The Go package runs on the native library.  Any program that keeps its
    side of the ABI ([wp], proved here for every function of the package that
    talks to the library), run with the library's own entry points and tasks
    behind its calls, and whatever iroh answers, neither panics nor gets stuck:
    it ends in a result that satisfies its postcondition, with the library still
    in order and its account of what it owns exact, provided the run takes fewer
    than 2^62 events. *)
Theorem go_runs_on_the_shim `{!CratesLaws} {A} (p : go A) (W : rworld) (s : owned) (Q : A -> owned -> Prop) :
  run_rel W s -> wp s p Q -> early (run shim_handler p W).2 ->
  exists a s', (run shim_handler p W).1 = Some a /\ run_rel (run shim_handler p W).2 s' /\ Q a s'.
Proof.
  intros HR Hwp HE. apply (wp_run_while shim_handler early run_rel p) with (s := s); try done.
  - intros X e W'. unfold early. rewrite count_step. lia.
  - intros X e W' s' HR' Hpre HE'. assert (early W') as HE0 by (unfold early in *; rewrite count_step in HE'; lia).
    destruct e as [X e|X e]; [by apply handler_c_ok|by apply handler_r_ok].
Qed.
End Runs.

(** ** A session with a small iroh *)

(** Its answers: everything succeeds; a write takes three bytes at most, and a
    read finds as many of [hello]. *)
Definition small_answer X (e : cE X) (w : shim) : says :=
  match e with
  | secretKeyGenerate => SaysBytes (replicate 32 (ch 7))
  | connMaxDatagramSize _ => SaysNum 1200
  | connStats _ _ => SaysNums (replicate 6 0)
  | COut _ => SaysBytes (replicate 32 (ch 171))
  | CText (endpointAddr _) => SaysAddr (from_parts (replicate 32 (ch 171)) [TIp true])
  | CText (connALPN _) => SaysBytes $"echo"
  | _ => SaysOk
  end.
Definition small_task (op : Z) (w : shim) : says :=
  match tasks w !! op with
  | Some (TRunning (FCall (sendWrite _ data))) => SaysNum (Z.min 3 (Z.of_nat (length data)))
  | Some (TRunning (FCall (recvRead _ m))) =>
      if 0 <=? m then SaysBytes (take (Nat.min 3 (Z.to_nat m)) $"hello") else SaysNone
  | Some (TRunning (FCall (sendStopped _))) => SaysNone
  | Some (TRunning (FCall (connReadDatagram _))) => SaysBytes $"ping"
  | Some (TRunning (FCall (connClosed _))) => SaysBytes $"closed"
  | _ => SaysOk
  end.

Lemma small_answer_lawful X (e : cE X) w : lawful_call e (small_answer X e w).
Proof. destruct e; try done; try (by destruct f). Qed.

Lemma small_task_lawful op w f : tasks w !! op = Some (TRunning f) -> lawful_future f (small_task op w).
Proof.
  intros E. unfold small_task. rewrite E. destruct f as [o|ra alpn|f]; try done.
  destruct f; try done.
  - simpl. lia.
  - match goal with |- context [0 <=? ?m] => destruct (Z.leb_spec 0 m) end; [|done].
    cbn [lawful_future]. rewrite length_take. lia.
Qed.

Abbreviation small_run p W := (run (shim_handler small_answer small_task (fun _ _ => false)) p W).

Definition small_world : rworld := mkWorld shim_start newcomer ∅ 0.

Lemma small_world_ok : run_rel small_world newcomer.
Proof. split; [done|]. split; [apply sound_start|]. reflexivity. Qed.

Definition small_options : Options :=
  mkOptions PresetMinimal (Some (zero_bytes SecretKeySize)) [$"echo"; $"chat"] RelayCustom
    [$"https://relay.example/"] [mkAddr4 127 0 0 1 4433].

(** A session of the Go package: bind, dial, open a stream, write, read, and
    close everything.  It answers with the counts moved, what was read, and the
    number of handles alive in the library before and after. *)
Definition session : go (option (Z * Z * bytes * Z * Z)) :=
  '(ep, _) ← Bind background small_options;
  match ep with
  | None => Ret None
  | Some ep =>
      '(conn, _) ← Connect ep background (mkAddr (replicate 32 (ch 171)) [] [mkAddr4 127 0 0 1 4433] []) $"echo";
      match conn with
      | None => Ret None
      | Some conn =>
          '(streams, _) ← OpenBi conn background;
          match streams with
          | None => Ret None
          | Some (send, recv) =>
              '(n, _) ← WriteContext send background $"hello, world";
              '(m, _, buf) ← ReadContext recv background (zero_bytes 5);
              '(before, _) ← HandleCount;
              SendStream_Close send;;
              RecvStream_Close recv;;
              Conn_Close conn;;
              Endpoint_Close ep background;;
              '(alive, _) ← HandleCount;
              Ret (Some (n, m, buf, before, alive))
          end
      end
  end.

(** What was written is what fits in twelve bytes, three at a time; what was
    read is in the front of the buffer; nothing stays behind. *)
Example a_session :
  match (small_run session small_world).1 with Some r => r | None => None end =
  Some (12, 3, $"hel" ++ [ch 0; ch 0], 4, 0).
Proof. vm_compute. reflexivity. Qed.

Lemma small_options_ok : options_ok small_options.
Proof. intros key [= <-]. reflexivity. Qed.

Definition small_bind : go (option Endpoint * error) := Bind background small_options.

Lemma small_bind_early : early (small_run small_bind small_world).2.
Proof. unfold early. rewrite <-Z.ltb_lt. vm_compute. reflexivity. Qed.

Example go_runs_on_the_shim_witness :
  run_rel small_world newcomer /\ options_ok small_options /\
  exists a s', (small_run small_bind small_world).1 = Some a /\
    run_rel (small_run small_bind small_world).2 s' /\ makes_object newcomer ep_obj a.1 a.2 s'.
Proof.
  split; [exact small_world_ok|]. split; [exact small_options_ok|].
  apply (go_runs_on_the_shim small_answer small_task (fun _ _ => false) small_answer_lawful small_task_lawful
           small_bind small_world newcomer (fun a s' => makes_object newcomer ep_obj a.1 a.2 s')
           small_world_ok).
  - eapply wp_mono; [exact (Bind_spec newcomer background small_options small_options_ok)|].
    by intros [r err] s' H.
  - exact small_bind_early.
Defined.
