(* ===== verification/Creates.v ===== *)
(** Which calls make Go objects.

    A Go object that holds a library object is filled once, by the constructor
    that numbered it.  [creates n p]: the program [p] fills at most [n] cells, each
    of an object it has just numbered, whatever it is answered.  With a
    specification that says one object is there at the end ([makes_object],
    [adds_object]) this gives the cells exactly ([adds_only]): the constructor's
    object is the only one that was added, and a failed constructor added none. *)
From S2P Require Import Prelude GoErrors Prog Abi Contract Reference Pump Calls Handle.
From S2P Require Import Deadline Streams GoStrings Keys Netip Addr Conn Endpoint ShimRuns.
Local Open Scope Z_scope.
Local Open Scope go_scope.

(** ** Lemmas: the objects a call makes *)

(** The object an event fills the cell of, and the one it numbers. *)
Definition stored {X} (e : goE X) : option Z :=
  match e with R e => match e with RStore o _ => Some o | _ => None end | C _ => None end.
Definition numbered {X} (e : goE X) : X -> option Z :=
  match e in goE X return X -> option Z with
  | R e => match e in rtE X return X -> option Z with RNew => Some | _ => fun _ => None end
  | C _ => fun _ => None
  end.

(** [p] fills at most [n] cells, each of an object it has just numbered; [fresh]
    is the last one. *)
Fixpoint creates {A} (fresh : option Z) (n : nat) (p : go A) : Prop :=
  match p with
  | Vis e k =>
      match stored e with
      | None => forall x, creates (numbered e x) n (k x)
      | Some o => fresh = Some o /\ match n with O => False | S n => forall x, creates None n (k x) end
      end
  | _ => True
  end.

Lemma creates_mono {A} (p : go A) : forall fresh n n', (n <= n')%nat -> creates None n p -> creates fresh n' p.
Proof.
  induction p as [a|X e k IH|why]; intros fresh n n' Hn; cbn [creates]; [done| |done].
  destruct (stored e); [by intros [? _]|]. intros H x. specialize (H x).
  assert (forall f, creates f n (k x) -> creates f n' (k x)) as Hm; [|by apply Hm].
  clear IH H. revert n n' Hn. induction (k x) as [a|Y e' k' IH'|why]; intros n n' Hn f; cbn [creates]; [done| |done].
  destruct (stored e'); [|intros H y; by eapply IH'].
  intros [-> H]. split; [done|]. destruct n as [|n]; [done|]. destruct n' as [|n']; [lia|].
  intros y. eapply IH'; [|apply H]. lia.
Qed.

Lemma creates_bind {A B} (p : go A) (f : A -> go B) m : forall fresh n,
  creates fresh n p -> (forall a, creates None m (f a)) -> creates fresh (n + m) (p ≫= f).
Proof.
  unfold mbind, prog_bind. intros fresh n Hp Hf. revert fresh n Hp.
  induction p as [a|X e k IH|why]; intros fresh n; cbn [creates bind]; [|intros H|done].
  - intros _. eapply creates_mono; [|apply Hf]. lia.
  - destruct (stored e); [|by eauto]. destruct H as [-> H]. split; [done|].
    destruct n as [|n]; [done|]. cbn. eauto.
Qed.

(** Calls that make none, and their continuation. *)
Lemma creates_then {A B} (p : go A) (f : A -> go B) n fresh :
  creates None 0 p -> (forall a, creates None n (f a)) -> creates fresh n (p ≫= f).
Proof. intros Hp Hf. apply (creates_bind p f n fresh 0); [|done]. eapply creates_mono; [|done]. lia. Qed.

Lemma fires_objs s ctx e s' : fires s ctx e s' -> o_objs s' = o_objs s.
Proof. by intros (c & n & _ & ->). Qed.

Lemma completes_objs s ch status s' : completes s ch status s' -> o_objs s' = o_objs s.
Proof. intros (op & k & v & _ & _ & _ & ->). by destruct k, v. Qed.

Lemma stored_keeps {X} (e : goE X) s x s' : stored e = None -> post s e x s' -> o_objs s' = o_objs s.
Proof.
  destruct e as [X e|X e].
  - intros _ ->%c_post_after. destruct e; cbn [after]; unfold got_rc, got_err, got_buf;
      repeat (case_decide || case_match); try done; by destruct f.
  - destruct e; cbn; try done; try (by intros _ ->).
    + by intros _ [_ ->].
    + intros _. by destruct x as [e|]; intros ->.
    + destruct x as [err b]. by intros _ [-> _].
    + by intros _ (_ & k & _ & ->).
    + intros _. destruct x; [apply completes_objs|]. intros [e H]. by eapply fires_objs.
    + intros _. apply completes_objs.
    + intros _. destruct (o_ctx s !! ctx) as [[]|], x; intros H; destruct_and?; try (by subst);
        destruct H as (c & _ & H); by eapply fires_objs.
    + by intros _ [_ ->].
    + intros _ (_ & _ & ->). by case_decide.
    + destruct x as [c i]. by intros _ (_ & _ & _ & st & _ & ->).
    + by intros _ [_ ->].
Qed.

Lemma wp_creates {A} (p : go A) : forall fresh n s Q,
  creates fresh n p -> (forall o, fresh = Some o -> o_objs s !! o = None) -> wp s p Q ->
  wp s p (fun a s' => Q a s' /\ objects_kept s s' /\ (size (o_objs s') <= size (o_objs s) + n)%nat).
Proof.
  induction p as [a|X e k IH|why]; intros fresh n s Q; cbn [creates wp].
  - intros _ _ HQ. split; [done|]. split; [by intros o h|lia].
  - intros Hc Hf [Hpre Hk]. split; [done|]. intros x s' Hpost. destruct (stored e) as [o|] eqn:Es.
    + destruct Hc as [-> Hc]. destruct n as [|n]; [done|].
      assert (exists v, o_objs s' = <[o := v]> (o_objs s)) as [v Eo].
      { destruct e as [X e|X e]; [done|]. destruct e; try done. cbn in Es, Hpost. injection Es as ->. subst s'. by eexists. }
      eapply wp_mono; [apply (IH x None n s' Q (Hc x)); [done|by apply Hk]|].
      intros a s2 (HQ & Hkept & Hsize). specialize (Hf o eq_refl). split; [done|]. split.
      * intros o' h Ho. apply Hkept. rewrite Eo, lookup_insert_ne; [done|]. intros <-. congruence.
      * rewrite Eo, map_size_insert_None in Hsize by done. lia.
    + pose proof (stored_keeps e s x s' Es Hpost) as Eo.
      eapply wp_mono; [apply (IH x (numbered e x) n s' Q (Hc x)); [|by apply Hk]|].
      { intros o E. destruct e as [X e|X e]; [done|]. destruct e; try done. cbn in E, Hpost.
        injection E as ->. by destruct Hpost as [? ->]. }
      intros a s2 (HQ & Hkept & Hsize). rewrite Eo in Hsize. split; [done|]. split; [|done].
      intros o' h Ho. apply Hkept. by rewrite Eo.
  - done.
Qed.

Lemma creates_event {X B} (e : goE X) (k : X -> go B) fresh n :
  stored e = None -> (forall x, creates (numbered e x) n (k x)) -> creates fresh n (trigger e ≫= k).
Proof. intros Es H. cbn. by rewrite Es. Qed.

Lemma creates_last {X} (e : goE X) fresh n : stored e = None -> creates fresh n (trigger e).
Proof. intros Es. cbn. by rewrite Es. Qed.

(** A program gone through event by event, and call by call. *)
Ltac creates_step :=
  match goal with
  | |- creates _ _ (Ret _) => exact I
  | |- creates _ _ (Panic _) => exact I
  | |- creates _ _ (match ?x with _ => _ end) => destruct x
  | |- creates _ _ ((match ?x with _ => _ end) ≫= _) => destruct x
  | |- creates _ _ (call _) => apply creates_last; reflexivity
  | |- creates _ _ (rt _) => apply creates_last; reflexivity
  | |- creates _ _ (call _ ≫= _) => apply creates_event; [reflexivity|intros ?; cbn [numbered]]
  | |- creates _ _ (rt _ ≫= _) => apply creates_event; [reflexivity|intros ?; cbn [numbered]]
  | _ => solve [auto with creates]
  | _ => apply creates_then; [solve [auto with creates|repeat creates_step]|intros ?]
  end.
Ltac creates_all := repeat creates_step.

Create HintDb creates.

Lemma creates_less {A} (p : go A) fresh n : creates None 0 p -> creates fresh n p.
Proof. apply creates_mono. lia. Qed.
#[local] Hint Resolve creates_less : creates.

Section Calls.
Context {netip : NetIP}.

Lemma takeBytes_creates b : creates None 0 (takeBytes b).
Proof. unfold takeBytes. creates_all. Qed.
#[local] Hint Resolve takeBytes_creates : creates.

Lemma takeError_creates h : creates None 0 (takeError h).
Proof. unfold takeError. creates_all. Qed.
#[local] Hint Resolve takeError_creates : creates.

Lemma await_creates ctx op : creates None 0 (await ctx op).
Proof. unfold await. creates_all. Qed.
#[local] Hint Resolve await_creates : creates.

Lemma finish_creates op status : creates None 0 (finish op status).
Proof. unfold finish. creates_all. Qed.
#[local] Hint Resolve finish_creates : creates.

Lemma AwaitUnit_creates ctx op : creates None 0 (AwaitUnit ctx op).
Proof. unfold AwaitUnit. creates_all. Qed.
Lemma AwaitHandle_creates ctx op : creates None 0 (AwaitHandle ctx op).
Proof. unfold AwaitHandle. creates_all. Qed.
#[local] Hint Resolve AwaitUnit_creates AwaitHandle_creates : creates.

Lemma rcError_creates rc e : creates None 0 (rcError rc e).
Proof. unfold rcError. creates_all. Qed.
#[local] Hint Resolve rcError_creates : creates.

Lemma unit_sync_creates f : creates None 0 (unit_sync f).
Proof. unfold unit_sync. creates_all. Qed.
Lemma out_sync_creates f : creates None 0 (out_sync f).
Proof. unfold out_sync. creates_all. Qed.
Lemma text_sync_creates f : creates None 0 (text_sync f).
Proof. unfold text_sync, takeString. creates_all. Qed.
#[local] Hint Resolve unit_sync_creates out_sync_creates text_sync_creates : creates.

Lemma loaded_creates {A} (onerr : gerror -> A) p n : creates None n p -> creates None n (loaded onerr p).
Proof. intros H. unfold loaded. creates_step. destruct x; [creates_all|done]. Qed.

Lemma with_handle_creates {A} o (onerr : gerror -> A) p n :
  (forall h, creates None n (p h)) -> creates None n (with_handle o onerr p).
Proof.
  intros H. unfold with_handle. apply creates_then; [unfold handle_get; creates_all|].
  intros [h [e|]]; [creates_all|apply H].
Qed.

Lemma ParseEndpointID_creates t : creates None 0 (ParseEndpointID t).
Proof. apply loaded_creates. creates_all. Qed.
#[local] Hint Resolve ParseEndpointID_creates : creates.

Lemma textCall_creates t f : creates None 0 (textCall t f).
Proof. apply loaded_creates. creates_all. Qed.
#[local] Hint Resolve textCall_creates : creates.

Lemma SetLogLevel_creates level : creates None 0 (SetLogLevel level).
Proof. apply loaded_creates. creates_all. Qed.

Lemma Online_creates e ctx : creates None 0 (Online e ctx).
Proof. apply with_handle_creates. intros h. unfold EndpointOnline. creates_all. Qed.

Lemma decodeAddr_creates t : creates None 0 (decodeAddr t).
Proof. unfold decodeAddr. destruct (Split _ _) as [|[|] ?]; creates_all. Qed.
#[local] Hint Resolve decodeAddr_creates : creates.

Lemma Ticket_creates e : creates None 0 (Endpoint_Ticket e).
Proof.
  apply creates_then; [apply with_handle_creates; intros h; unfold ffi_EndpointAddr; creates_all|].
  intros [a [err|]]; [creates_all|]. unfold EndpointAddr_Ticket, TicketEncode. creates_all.
Qed.

Lemma Endpoint_Close_creates e ctx : creates None 0 (Endpoint_Close e ctx).
Proof. unfold Endpoint_Close, handle_take, EndpointClose, EndpointFree. creates_all. Qed.

Lemma newConn_creates h e : creates None 1 (newConn h e).
Proof. by intros o. Qed.

Lemma Endpoint_Accept_creates e ctx : creates None 1 (Endpoint_Accept e ctx).
Proof.
  apply with_handle_creates. intros h. unfold EndpointAccept. apply creates_then; [creates_all|].
  intros [c [err|]]; [creates_all|]. apply (creates_bind _ _ 0 None 1); [apply newConn_creates|intros c'; creates_all].
Qed.

Lemma try_creates p q : creates None 0 p -> creates None 0 q -> creates None 0 (try_ p q).
Proof. intros Hp Hq. apply creates_then; [exact Hp|]. by intros [e|]. Qed.

Lemma try_each_creates {B} (l : list B) f q :
  (forall x, creates None 0 (f x)) -> creates None 0 q -> creates None 0 (try_each l f q).
Proof. intros Hf Hq. induction l as [|x l IH]; [exact Hq|]. by apply try_creates. Qed.

Lemma applyOptions_creates h opts : creates None 0 (applyOptions h opts).
Proof.
  unfold applyOptions. cbv zeta.
  assert (creates None 0 (try_each (OptBindAddrs opts) (fun addr => OptionsAddBindAddr h (AddrPort_String addr)) (Ret None)))
    as Ha by (apply try_each_creates; [intros x; apply unit_sync_creates|done]).
  assert (forall q, creates None 0 q -> creates None 0
    (match OptSecretKey opts with Some key => try_ (OptionsSetSecretKey h key) q | None => q end)) as Hk.
  { intros q Hq. destruct (OptSecretKey opts); [apply try_creates; [apply unit_sync_creates|done]|done]. }
  apply Hk, try_each_creates; [intros x; apply unit_sync_creates|].
  destruct (negb _); [|exact Ha]. destruct (relay_mode _); [|done].
  apply try_each_creates; [intros x; apply unit_sync_creates|]. apply try_creates; [apply unit_sync_creates|exact Ha].
Qed.

Lemma Bind_creates ctx opts : creates None 1 (Bind ctx opts).
Proof.
  unfold Bind. destruct (Preset_ffi _) as [preset [e|]]; [exact I|]. 
  apply creates_then; [apply loaded_creates; creates_all|]. intros [h [e|]]; [creates_all|].
  apply creates_then; [apply applyOptions_creates|]. intros [e|]; [unfold OptionsFree; creates_all|].
  unfold EndpointBind. apply creates_then; [creates_all|]. intros [ep [e|]]; [creates_all|].
  intros o. split; [done|]. intros []. apply creates_then; [apply out_sync_creates|].
  intros [id [e|]]; unfold EndpointFree; creates_all.
Qed.

End Calls.

(** A map with one key more, at most. *)
Lemma grown_by_one (m m' : gmap Z Z) : (forall o h, m !! o = Some h -> m' !! o = Some h) ->
  (size m' <= size m + 1)%nat -> exists o, forall o', is_Some (m' !! o') -> o' = o \/ is_Some (m !! o').
Proof.
  intros Hk Hs.
  assert (dom m ⊆ dom m') as Hd by (intros o [h Ho]%elem_of_dom; apply elem_of_dom; exists h; by apply Hk).
  pose proof (size_difference _ _ Hd) as HD. rewrite !size_dom in HD.
  destruct (set_choose_or_empty (dom m' ∖ dom m)) as [[o Ho]|He].
  - exists o. intros o' Ho'%elem_of_dom. destruct (decide (o' ∈ dom m)) as [H|H]; [right; by apply elem_of_dom|left].
    apply (size_singleton_inv (dom m' ∖ dom m)); [|by apply elem_of_difference|done].
    assert (size (dom m' ∖ dom m) <> 0)%nat; [|lia]. apply size_non_empty_iff. set_solver.
  - exists 0. intros o' Ho'%elem_of_dom. right. apply elem_of_dom. destruct (decide (o' ∈ dom m)); [done|]. set_solver.
Qed.

(** What a constructor that fills one cell at most leaves of the others. *)
Lemma adds_only {A} (p : go (option A * error)) s (obj : A -> Z) :
  creates None 1 p -> wp s p (fun '(r, err) s' => makes_object s obj r err s') ->
  wp s p (fun '(r, err) s' => quiet s s' /\ match err with
    | Some _ => r = None /\ objects_kept s s' /\
        exists o, forall o', is_Some (o_objs s' !! o') -> o' = o \/ is_Some (o_objs s !! o')
    | None => exists a h, r = Some a /\ h <> 0 /\ o_objs s !! obj a = None /\ o_objs s' = <[obj a := h]> (o_objs s)
    end).
Proof.
  intros Hc Hp. eapply wp_mono.
  - apply (wp_creates p None 1 s (fun x s0 => makes_object s obj x.1 x.2 s0) Hc); [done|].
    eapply wp_mono; [exact Hp|]. by intros [r err].
  - intros [r err] s' (Hm & Hk & Hs). destruct Hm as [Hq Hr]. cbn [fst snd] in *. split; [done|].
    destruct err as [e|]; [split; [done|]; split; [done|]; by apply grown_by_one|].
    destruct Hr as (a & h & -> & Hh & Hn & Ho). exists a, h. split; [done|]. split; [done|]. split; [done|].
    symmetry. apply map_subseteq_size_eq.
    + apply map_subseteq_spec. intros o h'. rewrite lookup_insert_Some. intros [[<- <-]|[_ H]]; [done|by apply Hk].
    + rewrite map_size_insert_None by done. lia.
Qed.

Lemma adds_none {A} (p : go A) s Q : creates None 0 p -> wp s p Q ->
  wp s p (fun a s' => Q a s' /\ o_objs s' = o_objs s).
Proof.
  intros Hc Hp. eapply wp_mono; [by apply (wp_creates p None 0 s Q Hc)|].
  intros a s' (HQ & Hk & Hs). split; [done|]. symmetry. apply map_subseteq_size_eq; [|lia].
  by apply map_subseteq_spec.
Qed.
