(* ===== verification/ShimErrors.v ===== *)
(** Errors on their way from the native library to the caller.

    A Rust error is stored behind a handle ([store_err] of [ffi.rs]), collected
    through [iroh_error_take] by [takeError] of [internal/ffi/errors.go], and
    rebuilt as an [Error] whose kind [errors.Is] compares.  The kinds are numbers
    on the way, and each side has its own table of them. *)
From S2P Require Import Prelude GoErrors Prog Abi Contract Reference Pump Calls GoStrings.
From S2P Require Import Registry RustAddr Shim ShimInv ShimRefines ShimRuns.
Local Open Scope Z_scope.
Local Open Scope go_scope.

(** The sentinel a Go caller knows a Rust kind by: the one of the same name. *)
Definition known_as (k : ErrKind) : sentinel :=
  match k with
  | EInternal => ErrInternal | EInvalidInput => ErrInvalidInput | EKeyParsing => ErrKeyParsing
  | ETicketParsing => ErrTicketParsing | EBind => ErrBind | EConnect => ErrConnect
  | EConnection => ErrConnection | EStream => ErrStream | EDatagram => ErrDatagram
  | EAlpn => ErrALPN | ERelay => ErrRelay | EClosed => ErrClosed
  | ETimeout => ErrTimeout | ECancelled => ErrCancelled
  end.

(** What it reads: its kind's text, then the library's message if there is one. *)
Definition read_as (e : rerror) : gomsg :=
  let kind := MText (sentinel_text (known_as (e_kind e))) in
  if decide (e_msg e = []) then kind else MCat (MCat kind (MText ": ")) (MBytes (e_msg e)).

(** ** Lemmas *)

Lemma sentinel_of_kind k : sentinelFor (kind_num k) = known_as k.
Proof. by destruct k. Qed.

Lemma known_as_inj k1 k2 : known_as k1 = known_as k2 -> k1 = k2.
Proof. by destruct k1, k2. Qed.

Lemma taken_matches e s :
  errors_Is (Some (NewError (kind_num (e_kind e)) (MBytes (e_msg e)))) s = true <-> s = known_as (e_kind e).
Proof.
  change (bool_decide (sentinelFor (kind_num (e_kind e)) = s) = true <-> s = known_as (e_kind e)).
  rewrite bool_decide_eq_true, sentinel_of_kind. by split.
Qed.

Lemma taken_reads e : error_text (NewError (kind_num (e_kind e)) (MBytes (e_msg e))) = read_as e.
Proof.
  unfold NewError, read_as. cbn [error_text]. unfold Error_Error. rewrite sentinel_of_kind. cbn [msg_empty].
  by case_decide as D; [rewrite bool_decide_eq_true_2|rewrite bool_decide_eq_false_2].
Qed.

Section Errors.
Context {iroh : Iroh} {crates : IrohCrates}.
Context (answer : forall X, cE X -> shim -> says) (answer_task : Z -> shim -> says) (stops : Z -> shim -> bool).

Abbreviation run_go := (run (shim_handler answer answer_task stops)).

Lemma sound_nobody w : winv w -> sound w newcomer newcomer.
Proof. intros W. split; [done|]. split; [by constructor|]. split; [by constructor|]. by split_and!. Qed.

Lemma store_err_stores e w : winv w -> room 1 w -> exists w1,
  store_err e w = (Done (FFI_ERR, next_handle w), w1) /\ winv w1 /\
  slots w1 = <[next_handle w := SError e]> (slots w) /\ mem w1 = mem w.
Proof.
  intros W R. assert (does (store_err e) w (fun x w1 => x = (FFI_ERR, next_handle w) /\ winv w1 /\
    slots w1 = <[next_handle w := SError e]> (slots w) /\ mem w1 = mem w) (fun _ => False)) as Hd.
  { apply does_bind. apply (does_insert _ w newcomer newcomer); [done|by apply sound_nobody|done|].
    intros w1 n -> [W1 _] _ _ _ _ Hsl _ (_ & _ & _ & Hm). by split_and!. }
  unfold does in Hd. destruct (store_err e w) as [[x| |] w1]; [|done..]. destruct Hd as (-> & ?). by exists w1.
Qed.

(** The handle's slot is all [iroh_error_take] needs. *)
Lemma error_take_runs e h w ptr : winv w -> slots w !! h = Some (SError e) ->
  Z.of_nat (length (e_msg e)) < two63 -> ptr <> 0 -> exists w',
  iroh_error_take h ptr w =
    (Done (kind_num (e_kind e), if decide (e_msg e = []) then nil_buf else mkBuf ptr (e_msg e)), w') /\
  slots w' = delete h (slots w) /\
  mem w' = (if decide (e_msg e = []) then mem w else <[ptr := Z.of_nat (length (e_msg e))]> (mem w)).
Proof.
  intros W Hh Hlen Hptr.
  assert (Hget : get as_error h w = (Done (inl e), w))
    by (unfold get, lift; by rewrite (get_slot_live as_error h w (SError e) e)).
  assert (Hrem : forall w1, reg w1 = reg w -> exists w', remove h w1 = (Done true, w') /\
    slots w' = delete h (slots w) /\ mem w' = mem w1).
  { intros w1 Er. destruct (remove_slot_spec w h W) as (E1 & _ & _ & E2).
    exists (set_reg (remove_slot h (reg w)).2 w1). unfold remove.
    rewrite Er, t_slot_slots, Hh by apply W. destruct (remove_slot h (reg w)) as [was r]. cbn [fst snd] in *.
    rewrite E1, bool_decide_eq_true_2 by (rewrite Hh; by eexists). by split_and!. }
  unfold iroh_error_take, ffi_guard, mbind, M_bind. rewrite Hget. cbv iota beta. unfold out_bytes.
  case_decide as D; cbn [mret M_ret].
  - destruct (Hrem w eq_refl) as (w' & -> & Hsl & Hm). by exists w'.
  - rewrite (proj2 (Z.leb_gt _ _)) by done. unfold modify, lift, mbind, M_bind. cbn beta iota delta [mret M_ret].
    destruct (Hrem (set_mem (<[ptr := Z.of_nat (length (e_msg e))]> (mem w)) w) eq_refl) as (w' & -> & Hsl & Hm).
    by exists w'.
Qed.

Lemma freed ptr len a p w : ptr <> 0 -> len <> 0 ->
  shim_call (freeBytes ptr len) a p w = (Done tt, set_mem (delete ptr (mem w)) w).
Proof.
  intros H1 H2. cbn [shim_call]. unfold iroh_free_bytes, ffi_guard, free_bytes.
  by rewrite !(proj2 (Z.eqb_neq _ _)).
Qed.

(** [takeError] leaves the library as it was before the error was stored. *)
Lemma takeError_runs e h W : winv (rw_lib W) -> 0 < h -> slots (rw_lib W) !! h = Some (SError e) ->
  Z.of_nat (length (e_msg e)) < two63 -> exists W',
  run_go (takeError h) W = (Some (NewError (kind_num (e_kind e)) (MBytes (e_msg e))), W') /\
  slots (rw_lib W') = delete h (slots (rw_lib W)) /\ mem (rw_lib W') = mem (rw_lib W).
Proof.
  intros Hw Hpos Hh Hlen. set (ptr := next_id (dom (mem (rw_lib W)))).
  assert (Hptr : 0 < ptr) by apply next_id_pos.
  assert (Hfree : mem (rw_lib W) !! ptr = None) by apply next_id_fresh_map.
  destruct (error_take_runs e h (rw_lib W) ptr Hw Hh Hlen ltac:(lia)) as (w1 & E & Hsl & Hm).
  unfold takeError. rewrite (proj2 (Z.eqb_neq _ _)) by lia. rewrite run_bind. cbn [run call trigger shim_handler].
  unfold handler_c at 1. cbn [shim_call]. fold ptr. rewrite E. cbn [run]. unfold takeBytes.
  case_decide as D; cbn [buf_ptr buf_len buf_data nil_buf].
  - rewrite D. eexists. split; [reflexivity|]. by split.
  - rewrite (proj2 (Z.eqb_neq ptr 0)) by lia. unfold buf_len. cbn [buf_data].
    destruct (Z.eqb_spec (Z.of_nat (length (e_msg e))) 0) as [El|Hl].
    { destruct (e_msg e); [done|]. simpl in El. lia. }
    cbn [orb]. rewrite !run_bind. cbn [run call trigger shim_handler].
    unfold handler_c. cbn [rw_lib]. rewrite freed by lia. eexists. split; [reflexivity|].
    cbn. split; [done|]. rewrite Hm. by rewrite delete_insert_id.
Qed.

(** ** Properties *)

(** C38. An error of the native library reaches Go as what it is.  When a C
    function fails with an error of any of the library's kinds and any message
    that fits a buffer, the handle it returns leads [takeError] to an [Error]
    that [errors.Is] matches with the sentinel of the same name and with no other
    value the package compares with, so that a caller tells any two kinds apart;
    it reads as that sentinel's text and then the message; and the library is left
    with no trace of it: neither the handle nor the message's buffer.  A failure
    that comes without a handle, and a kind this version does not know, are
    internal errors. *)
Theorem errors_keep_their_kind (W : rworld) (e : rerror) :
  winv (rw_lib W) -> room 1 (rw_lib W) -> Z.of_nat (length (e_msg e)) < two63 ->
  (exists h w1 g W', store_err e (rw_lib W) = (Done (FFI_ERR, h), w1) /\ h <> 0 /\
     run_go (takeError h) (mkWorld w1 (rw_go W) (rw_objs W) (rw_count W)) = (Some g, W') /\
     (forall s, errors_Is (Some g) s = true <-> s = known_as (e_kind e)) /\
     (forall k, errors_Is (Some g) (known_as k) = true -> k = e_kind e) /\
     error_text g = read_as e /\
     slots (rw_lib W') = slots (rw_lib W) /\ mem (rw_lib W') = mem (rw_lib W)) /\
  (exists g, run_go (takeError 0) W = (Some g, W) /\ forall s, errors_Is (Some g) s = true <-> s = ErrInternal) /\
  (forall k m s, ~ (0 <= k <= 13) -> errors_Is (Some (NewError k m)) s = true <-> s = ErrInternal).
Proof.
  intros Hw R Hlen. split; [|split].
  - destruct (store_err_stores e (rw_lib W) Hw R) as (w1 & E & Hw1 & Hsl & Hm).
    pose proof (w_next _ Hw) as Hn. destruct (fresh_next _ Hw) as (Fs & _).
    destruct (takeError_runs e (next_handle (rw_lib W)) (mkWorld w1 (rw_go W) (rw_objs W) (rw_count W)))
      as (W' & Hrun & Hsl' & Hm'); [done|lia|cbn; by rewrite Hsl, lookup_insert_eq|done|].
    do 4 eexists. split; [exact E|]. split; [lia|]. split; [exact Hrun|]. split; [apply taken_matches|].
    split; [by intros k ?%taken_matches%known_as_inj|]. split; [apply taken_reads|]. cbn in Hsl', Hm'.
    split; [by rewrite Hsl', Hsl, delete_insert_id|by rewrite Hm', Hm].
  - eexists. split; [reflexivity|]. intros s. exact (taken_matches (internal []) s).
  - intros k m s Hk. change (bool_decide (sentinelFor k = s) = true <-> s = ErrInternal).
    rewrite sentinelFor_unknown, bool_decide_eq_true by done. by split.
Qed.
End Errors.

(** ** Witnesses *)

Example errors_keep_their_kind_witness :
  (exists h w1 g W', store_err (mkError ETimeout $"too slow") shim_start = (Done (FFI_ERR, h), w1) /\ h <> 0 /\
     small_run (takeError h) (mkWorld w1 newcomer ∅ 0) = (Some g, W') /\
     (forall s, errors_Is (Some g) s = true <-> s = ErrTimeout) /\
     (forall k, errors_Is (Some g) (known_as k) = true -> k = ETimeout) /\
     error_text g = MCat (MCat (MText "iroh: timed out") (MText ": ")) (MBytes $"too slow") /\
     slots (rw_lib W') = slots shim_start /\ mem (rw_lib W') = mem shim_start).
Proof.
  apply (errors_keep_their_kind small_answer small_task (fun _ _ => false) small_world (mkError ETimeout $"too slow"));
    [apply sound_start|reflexivity|reflexivity].
Defined.
