(* ===== verification/ShimAccount.v ===== *)
(** Whose everything in the native library is.

    [ShimInv.sound] says that what a goroutine owns is in the library;
    [accounted] is the converse: what is in the library somebody owns.  A
    handle belongs to a goroutine, or sits in the result of an operation whose
    owner has yet to collect it; a buffer belongs to whoever must free it; an
    operation outlives its handle only until its supervisor ends.  Every call
    and every task keeps it.

    One thing escapes: an error whose text has 2^63 bytes or more cannot be
    handed out, and [iroh_error_take] then leaves the handle where it is. *)
From S2P Require Import Prelude GoErrors Prog Abi Contract Reference Pump Calls GoStrings Keys Netip Addr Handle Deadline Streams Conn Endpoint.
From S2P Require Import Registry RustAddr Shim ShimInv ShimRefines ShimIds ShimRuns.
Local Open Scope Z_scope.
Local Open Scope go_scope.

Section Account.
Context {iroh : Iroh} {crates : IrohCrates}.

(** ** The account *)

Definition owns (s : owned) (h : Z) : Prop := is_Some (o_ops s !! h) \/ h ∈ o_errs s \/ h ∈ o_handles s.

Definition unreadable (v : slot) : Prop :=
  match v with SError e => two63 <= Z.of_nat (length (e_msg e)) | _ => False end.

(** Operation [id] has not been posted, or holds handles. *)
Definition busy (w : shim) (id : Z) : Prop :=
  ~ over w id \/ exists v, op_outcome w id = Some (inl v) /\ owned_handles v <> [].

(** Handle [h] was given out for options, and to nothing else since. *)
Definition was_opts (w : shim) (h : Z) : Prop :=
  h < next_handle w /\ forall v, slots w !! h = Some v -> exists o, v = SOpts o.

Record accounted (w : shim) (s t : owned) : Prop := {
  a_slots : forall h v, slots w !! h = Some v -> held w h \/ owns s h \/ owns t h \/ unreadable v;
  a_busy : forall id, busy w id -> slots w !! id = Some (SOp id);
  a_arcs : forall id, is_Some (arcs w !! id) -> slots w !! id = Some (SOp id) \/ is_Some (tasks w !! id);
  a_buf : forall p, is_Some (mem w !! p) -> is_Some (o_bufs s !! p) \/ is_Some (o_bufs t !! p);
  a_opts : forall h, h ∈ o_opts s \/ h ∈ o_opts t -> was_opts w h;
  a_real : forall p n, mem w !! p = Some n -> p <> 0 /\ n <> 0
}.

(** When no operation is owned, none is busy: every handle is accounted for by
    name, and an operation left over waits for its supervisor to go. *)
Lemma accounted_idle w s t : sound w s t -> accounted w s t -> o_ops s = ∅ -> o_ops t = ∅ ->
  (forall h v, slots w !! h = Some v -> owns s h \/ owns t h \/ unreadable v) /\
  (forall id, is_Some (arcs w !! id) -> tasks w !! id = Some TPosted).
Proof.
  intros (W & Rs & Rt & _) [As Ab Aa Am _ _] So To.
  assert (Hno : forall u id, rel w u -> o_ops u = ∅ -> slots w !! id = Some (SOp id) -> owns u id -> False).
  { intros u id Ru Hu Hs [H|[H|H]].
    - rewrite Hu, lookup_empty in H. by destruct H.
    - destruct (r_errs w u Ru id H) as [x ?]. congruence.
    - destruct (r_handles w u Ru id H) as [Ho _]. unfold is_object in Ho. by rewrite Hs in Ho. }
  assert (Hnop : forall id, slots w !! id <> Some (SOp id)).
  { intros id Hs. destruct (As id _ Hs) as [D|[D|[D|[]]]]; [|by eapply (Hno s)|by eapply (Hno t)].
    destruct (w_held w W id D) as [ty ?]. congruence. }
  assert (Hop : forall id, ~ busy w id) by (intros id Hb%Ab; by apply Hnop in Hb).
  split.
  - intros h v Hv. destruct (As h v Hv) as [(id & v' & Ho & Hin)|?]; [|done].
    exfalso. apply (Hop id). right. exists v'. split; [done|]. intros E. rewrite E in Hin. by apply not_elem_of_nil in Hin.
  - intros id Ha. destruct (Aa id Ha) as [Hs|[tk Ht]]; [by apply Hnop in Hs|].
    rewrite Ht. destruct tk; [| |done]; destruct (Hop id); left; unfold over; rewrite Ht; tauto.
Qed.

(** ** What a change adds *)

(** From [w] to [w'] the handles of [N] and the buffers of [B] are new to their
    owners, no operation is given up, and what leaves a result leaves the
    library or is in [N]. *)
Record gives (N B : Z -> Prop) (w w' : shim) : Prop := {
  g_slots : forall h v, slots w' !! h = Some v ->
    N h \/ exists v0, slots w !! h = Some v0 /\ (unreadable v0 -> unreadable v);
  g_ops : forall id, slots w !! id = Some (SOp id) -> slots w' !! id = Some (SOp id);
  g_busy : forall id, busy w' id -> busy w id \/ slots w' !! id = Some (SOp id);
  g_held : forall h, held w h -> held w' h \/ N h \/ slots w' !! h = None;
  g_arcs : forall id, is_Some (arcs w' !! id) -> is_Some (arcs w !! id) \/ slots w' !! id = Some (SOp id);
  g_tasks : forall id, is_Some (tasks w !! id) -> is_Some (tasks w' !! id);
  g_mem : forall p, is_Some (mem w' !! p) -> is_Some (mem w !! p) \/ B p;
  g_opts : forall h, was_opts w h -> was_opts w' h;
  g_real : forall p n, mem w' !! p = Some n -> mem w !! p = Some n \/ p <> 0 /\ n <> 0
}.

Abbreviation none := (fun _ : Z => False).

Lemma gives_refl w : gives none none w w.
Proof. constructor; eauto. Qed.

Lemma gives_trans N B N' B' w w1 w2 : gives N B w w1 -> gives N' B' w1 w2 ->
  gives (fun h => N h \/ N' h) (fun p => B p \/ B' p) w w2.
Proof.
  intros [S1 O1 U1 H1 A1 T1 M1 P1 R1] [S2 O2 U2 H2 A2 T2 M2 P2 R2]. constructor; eauto.
  - intros h v Hv. destruct (S2 h v Hv) as [?|(v1 & Hv1 & F)]; [tauto|].
    destruct (S1 h v1 Hv1) as [?|(v0 & Hv0 & F0)]; [tauto|]. right. exists v0. tauto.
  - intros id Hb. destruct (U2 id Hb) as [Hb1|?]; [|tauto]. destruct (U1 id Hb1) as [?|Hs]; [tauto|right; by apply O2].
  - intros h Hh. destruct (H1 h Hh) as [Hh1|[?|Hn]]; [|tauto|].
    + destruct (H2 h Hh1) as [?|[?|?]]; tauto.
    + destruct (slots w2 !! h) as [v|] eqn:E; [|tauto]. destruct (S2 h v E) as [?|(v1 & ? & _)]; [tauto|congruence].
  - intros id Ha. destruct (A2 id Ha) as [Ha1|?]; [|tauto]. destruct (A1 id Ha1) as [?|Hs]; [tauto|right; by apply O2].
  - intros p Hp. destruct (M2 p Hp) as [Hp1|?]; [|tauto]. destruct (M1 p Hp1); tauto.
  - intros p n Hp. destruct (R2 p n Hp) as [Hp1|?]; auto.
Qed.

Lemma gives_mono (N N' B B' : Z -> Prop) w w' : gives N B w w' ->
  (forall h, N h -> N' h) -> (forall p, B p -> B' p) -> gives N' B' w w'.
Proof.
  intros [S1 O1 U1 H1 A1 T1 M1 P1 R1] HN HB. constructor; try done.
  - intros h v Hv. destruct (S1 h v Hv); auto.
  - intros h Hh. destruct (H1 h Hh) as [?|[?|?]]; auto.
  - intros p Hp. destruct (M1 p Hp); auto.
Qed.

(** What is new is the goroutine's: the account still balances. *)
Lemma accounted_gives N B w w' s s' t : accounted w s t -> gives N B w w' ->
  (forall h v, slots w' !! h = Some v -> owns s h -> owns s' h \/ unreadable v) -> (forall h, N h -> owns s' h) ->
  (forall p, is_Some (o_bufs s !! p) -> is_Some (o_bufs s' !! p)) -> (forall p, B p -> is_Some (o_bufs s' !! p)) ->
  (forall h, h ∈ o_opts s' -> h ∈ o_opts s \/ was_opts w' h) ->
  accounted w' s' t.
Proof.
  intros [As Ab Aa Am Ao Ar] [S1 O1 U1 H1 A1 T1 M1 P1 R1] HO HN Hb HB Hp. constructor.
  - intros h v Hv. destruct (S1 h v Hv) as [Hn|(v0 & Hv0 & F)]; [by auto|].
    destruct (As h v0 Hv0) as [Hh|[Ho|[?|?]]]; [|destruct (HO h v Hv Ho); auto|auto..].
    destruct (H1 h Hh) as [?|[?|?]]; [auto..|congruence].
  - intros id Hid. destruct (U1 id Hid); auto.
  - intros id Hid. destruct (A1 id Hid) as [Ha|?]; [|auto]. destruct (Aa id Ha); auto.
  - intros p Hp'. destruct (M1 p Hp') as [Hm|?]; [|auto]. destruct (Am p Hm); auto.
  - intros h [Hh|Hh]; [|by auto]. destruct (Hp h Hh); auto.
  - intros p n H. destruct (R1 p n H); eauto.
Qed.

(** ** The changes one by one *)

Lemma was_opts_new n v w w' h : n = next_handle w -> next_handle w <= next_handle w' ->
  slots w' = <[n := v]> (slots w) -> was_opts w h -> was_opts w' h.
Proof.
  intros -> Hle Es [Hh Ho]. split; [lia|]. intros v'. rewrite Es, lookup_insert_ne by lia. apply Ho.
Qed.

(** One new slot. *)
Lemma gives_new n v w w' : slots w !! n = None -> n = next_handle w -> next_handle w <= next_handle w' ->
  slots w' = <[n := v]> (slots w) ->
  arcs w' = arcs w -> tasks w' = tasks w -> mem w' = mem w -> gives (fun h => h = n) none w w'.
Proof.
  intros Hn En Hle Es Ea Et Em. assert (Eo : forall id, op_outcome w' id = op_outcome w id) by (intros id; unfold op_outcome; by rewrite Et, Ea).
  constructor; unfold held, busy, over; rewrite ?Ea, ?Et, ?Em; eauto using was_opts_new; rewrite ?Es.
  - intros h v'. rewrite lookup_insert_Some. intros [[<- <-]|[_ H]]; [by left|right; eauto].
  - intros id H. rewrite lookup_insert_ne; [done|]. intros <-. congruence.
  - intros id. rewrite Eo. tauto.
  - intros h (id & x & H). left. exists id, x. by rewrite Eo.
Qed.

(** One new operation, without a result. *)
Lemma gives_op n w w' : slots w !! n = None -> n = next_handle w -> next_handle w <= next_handle w' -> op_outcome w n = None -> slots w' = <[n := SOp n]> (slots w) ->
  (forall id, id <> n -> arcs w' !! id = arcs w !! id /\ tasks w' !! id = tasks w !! id) ->
  tasks w !! n = None -> mem w' = mem w -> gives (fun h => h = n) none w w'.
Proof.
  intros Hn En Hle Hno Es Ho Ht Em.
  assert (Eo : forall id, id <> n -> op_outcome w' id = op_outcome w id).
  { intros id Hne. destruct (Ho id Hne) as [Ea Et]. unfold op_outcome. by rewrite Et, Ea. }
  assert (Hsn : slots w' !! n = Some (SOp n)) by (rewrite Es; apply lookup_insert_eq).
  constructor; rewrite ?Em; eauto using was_opts_new.
  - intros h v'. rewrite Es, lookup_insert_Some. intros [[<- <-]|[_ H]]; [by left|right; eauto].
  - intros id H. rewrite Es, lookup_insert_ne; [done|]. intros <-. congruence.
  - intros id. destruct (decide (id = n)) as [->|Hne]; [by right|]. intros Hb. left. unfold busy, over in *.
    destruct (Ho id Hne) as [_ Et]. by rewrite Et, Eo in Hb.
  - intros h (id & x & H & Hin). left. exists id, x. rewrite Eo; [done|]. intros ->. congruence.
  - intros id. destruct (decide (id = n)) as [->|Hne]; [by right|]. destruct (Ho id Hne) as [-> _]. by left.
  - intros id. destruct (decide (id = n)) as [->|Hne]; [rewrite Ht; by intros [? ?]|]. by destruct (Ho id Hne) as [_ ->].
Qed.

(** A slot that is no operation's goes, or changes. *)
Lemma gives_slots w r : next r = next_handle w -> (forall h v, all_slots r !! h = Some v ->
    exists v0, slots w !! h = Some v0 /\ (unreadable v0 -> unreadable v) /\ ((exists o, v0 = SOpts o) -> exists o, v = SOpts o)) ->
  (forall id, slots w !! id = Some (SOp id) -> all_slots r !! id = Some (SOp id)) ->
  gives none none w (set_reg r w).
Proof.
  intros Hn Hs Ho. constructor; eauto.
  - intros h v Hv. right. destruct (Hs h v Hv) as (v0 & ? & ? & _). eauto.
  - intros h [Hh Hp]. split; [cbn; unfold next_handle in *; cbn; lia|].
    intros v Hv. destruct (Hs h v Hv) as (v0 & ? & _ & F). eauto.
Qed.

(** What a fallible call answers, with the buffers of [B] in what it writes. *)
Definition gains {X} (B : X -> Z -> Prop) (w : shim) : answer X -> shim -> Prop :=
  fun '(rc, x, e) w' => gives (fun h => rc <> 0 /\ e <> 0 /\ h = e) (fun p => rc = 0 /\ B x p) w w'.
Definition no_buf {X} (x : X) (p : Z) : Prop := False.
Definition its_buf (b : cbuf) (p : Z) : Prop := buf_data b <> [] /\ p = buf_ptr b.
(** A call that starts an operation. *)
Definition gains_op (w : shim) : Z -> shim -> Prop := fun op w' => gives (fun h => op <> 0 /\ h = op) none w w'.

Lemma gains_plain {X} (B : X -> Z -> Prop) w rc x : gains B w (rc, x, 0) w.
Proof. eapply gives_mono; [apply gives_refl|done|done]. Qed.

Lemma does_fail_gains {X} (B : X -> Z -> Prop) x e w s t P : sound w s t -> room 1 w ->
  does (fail x e) w (gains B w) P.
Proof.
  intros S R. unfold fail, store_err. apply does_bind, does_bind.
  apply (does_insert _ w s t); [done|exact S|exact R|].
  intros w' n -> _ Hn _ _ _ Hsl Hnx (Ea & Et & _ & Em). unfold does. cbn.
  eapply gives_mono; [eapply gives_new; [apply fresh_next, S|done|lia|done..]| |done].
  intros h ->. split; [done|]. split; [lia|done].
Qed.

Lemma does_try_gains {A X} (B : X -> Z -> Prop) (x : X) (r : result A) k w s t P : sound w s t -> room 1 w ->
  (forall a, r = inl a -> does (k a) w (gains B w) P) -> does (ffi_try x r k) w (gains B w) P.
Proof. intros S R Hk. destruct r as [a|e]; [by apply Hk|]. by eapply does_fail_gains. Qed.

Lemma does_out_gives ptr b w Q (P : shim -> Prop) : ptr <> 0 ->
  (forall c w', gives none (its_buf c) w w' -> (exists m, w' = set_mem m w) -> Q c w') ->
  (two63 <= Z.of_nat (length b) -> P w) -> does (out_bytes ptr b) w Q P.
Proof.
  intros Hptr HQ HP. unfold out_bytes. destruct (decide (b = [])) as [->|Hne].
  { apply (HQ nil_buf); [eapply gives_mono; [apply gives_refl|done|done]|]. exists (mem w). by destruct w. }
  destruct (Z.leb_spec two63 (Z.of_nat (length b))) as [Hl|Hl]; [by apply HP|].
  apply HQ; [|by eexists]. constructor; eauto.
  { intros p. cbn. rewrite lookup_insert_is_Some'.     intros [->|?]; [by right|by left]. }
  intros p n. cbn. rewrite lookup_insert_Some. intros [[<- <-]|[_ ?]]; [right|by left].
  split; [done|]. destruct b; [done|cbn; lia].
Qed.

Lemma does_out_gains ptr b w (P : shim -> Prop) : ptr <> 0 -> P w -> does (b ← out_bytes ptr b; okay b) w (gains its_buf w) P.
Proof.
  intros Hptr HP. apply does_bind. apply does_out_gives; [done| |done]. intros c w' G _. cbn.
  eapply gives_mono; [exact G|done|done].
Qed.

Lemma does_spawn_gains f a w s t P : sound w s t -> room 1 w -> a <> SaysPanic -> does (spawn f a) w (gains_op w) P.
Proof.
  intros S R Ha. destruct (new_op_spec w s t S R) as (w1 & E & _ & Es & Ea & Et & _ & Em & Enx).
  pose proof (proj1 S) as W. pose proof (w_next w W). destruct (fresh_next w W) as (Fs & Fa & Ft & _).
  unfold spawn. apply does_bind. unfold does at 1, lift. rewrite E. apply does_bind.
  assert (does (runtime a) w1 (fun _ w' => w' = w1) P) as Hrt by (by destruct a).
  eapply does_mono; [exact Hrt| |done]. intros [] w' ->. unfold does. cbn.
  eapply gives_mono; [apply (gives_op (next_handle w) w); try done; [unfold next_handle in *; cbn; lia|..]| |done].
  - unfold op_outcome. by rewrite Ft, Fa.
  - intros id Hne. cbn. by rewrite Ea, Et, !lookup_insert_ne.
  - intros h ->. split; [lia|done].
Qed.

Lemma does_ready_gains {A} (r : result A) k w s t P : sound w s t -> room 1 w ->
  (forall a, r = inl a -> does (k a) w (gains_op w) P) -> does (or_ready r k) w (gains_op w) P.
Proof.
  intros S R Hk. destruct r as [a|e]; [by apply Hk|]. cbn [or_ready].
  destruct (new_op_spec w s t S R) as (w1 & E & _ & Es & Ea & Et & _ & Em & Enx).
  pose proof (proj1 S) as W. pose proof (w_next w W). destruct (fresh_next w W) as (Fs & Fa & Ft & _).
  unfold does, spawn_ready, lift. rewrite E. unfold post, set_result. rewrite Ea, lookup_insert_eq. cbn.
  eapply gives_mono; [apply (gives_op (next_handle w) w); try done; [unfold next_handle in *; cbn; lia|..]| |done].
  - unfold op_outcome. by rewrite Ft, Fa.
  - intros id Hne. cbn. by rewrite Et, !lookup_insert_ne.
  - intros h ->. split; [lia|done].
Qed.

Lemma change_opts_gains h o o' a w s t P : sound w s t -> slots w !! h = Some a -> as_opts a = Some o ->
  does (change_opts h o';; okay tt) w (gains no_buf w) P.
Proof.
  intros S Ha Ho. destruct a; try done. apply does_bind.
  change (gains no_buf w (FFI_OK, tt, 0) (set_reg (t_publish h (SOpts o') (reg w)) w)).
  destruct (slots_publish w h (SOpts o') (w_sharded w (proj1 S))) as [_ Hsl].
  eapply gives_mono; [apply gives_slots; [done|rewrite Hsl..]|done|done].
  - intros h' v. rewrite lookup_insert_Some. intros [[<- <-]|[_ H]]; eauto 10.
  - intros id H. rewrite lookup_insert_ne; [done|]. intros <-. congruence.
Qed.

(** One step of a call's body. *)
Ltac track :=
  match goal with
  | H : inr _ = inl _ |- _ => discriminate H
  | H : inl _ = inl _ |- _ => injection H as <-
  | |- does (ffi_guard _ _) _ _ _ => apply does_guard
  | |- does (mbind _ (out_bytes _ _)) _ (gains its_buf _) _ => apply does_out_gains; [done|]
  | |- does (mbind _ (change_opts _ _)) _ _ _ => eapply change_opts_gains; eassumption
  | |- does (mbind _ _) _ _ _ => apply does_bind
  | |- does (get _ _) _ _ _ => apply does_get; [by match goal with S : sound _ _ _ |- _ => exact (proj1 S) end|intros ? ? ? ?|intros ?]
  | |- does (ffi_try _ _ _) _ (gains _ _) _ => eapply does_try_gains; [eassumption|done|intros ? ?]
  | |- does (fail _ _) _ (gains _ _) _ => eapply does_fail_gains; [eassumption|done]
  | |- does (okay _) _ (gains _ _) _ => apply gains_plain
  | |- does panic _ _ _ => apply does_panic
  | |- does (or_panic _) _ _ _ => apply does_or_panic; [intros ? ?|]
  | |- does (or_ready _ _) _ (gains_op _) _ => eapply does_ready_gains; [eassumption|done|intros ? ?]
  | |- does (spawn_ready (inr ?e)) _ (gains_op _) _ =>
      eapply (does_ready_gains (A := Z) (inr e) (fun _ => panic)); [eassumption|done|done]
  | |- does (spawn _ _) _ (gains_op _) _ => eapply does_spawn_gains; [eassumption|done|done]
  | |- does (if ?b then _ else _) _ _ _ => destruct b eqn:?
  | |- does (match ?x with _ => _ end) _ _ _ => destruct x eqn:?; try done
  | |- gains _ _ (_, _, 0) _ => apply gains_plain
  | |- gains_op _ 0 _ => eapply gives_mono; [apply gives_refl|done|done]
  end.

(** ** Every call *)

Lemma unit_call_gains f a w s t : sound w s t -> room 1 w ->
  does (unit_call f a) w (gains no_buf w) (fun _ => False).
Proof.
  intros S R. destruct f; cbn [unit_call];
    unfold iroh_endpoint_id_verify, iroh_options_set_secret_key, iroh_options_add_alpn,
      iroh_options_set_relay_mode, iroh_options_add_relay_url, iroh_options_add_bind_addr,
      iroh_conn_send_datagram, iroh_conn_close, get_opts, get_conn; repeat track.
Qed.

Lemma text_call_gains f a ptr w s t : sound w s t -> room 1 w -> ptr <> 0 ->
  does (text_call f a ptr) w (gains its_buf w) (fun _ => False).
Proof.
  intros S R Hptr. destruct f; cbn [text_call];
    unfold iroh_endpoint_id_format, iroh_addr_normalize, iroh_ticket_encode, iroh_ticket_decode,
      iroh_endpoint_addr, iroh_endpoint_bound_sockets, iroh_endpoint_home_relay, iroh_conn_alpn,
      iroh_conn_paths, get_endpoint, get_conn; repeat track.
Qed.

Lemma out_call_gains f a w s t : sound w s t -> room 1 w ->
  does (out_call f a) w (gains no_buf w) (fun _ => False).
Proof.
  intros S R. destruct f; cbn [out_call];
    unfold iroh_secret_key_public, iroh_secret_key_sign, iroh_endpoint_id_parse, iroh_endpoint_id,
      iroh_conn_remote_id, get_endpoint, get_conn; repeat track.
Qed.

Lemma start_call_gains f a w s t : sound w s t -> room 1 w -> a <> SaysPanic ->
  match f with endpointBind _ => False | _ => True end ->
  does (start_call f a) w (gains_op w) (fun _ => False).
Proof.
  intros S R Ha Hf. destruct f; try done; cbn [start_call];
    unfold iroh_endpoint_online, iroh_endpoint_accept, iroh_endpoint_close, endpoint_future,
      iroh_endpoint_remote_info, iroh_endpoint_connect, iroh_conn_open_bi, iroh_conn_accept_bi,
      iroh_conn_open_uni, iroh_conn_accept_uni, iroh_conn_read_datagram, iroh_conn_closed, conn_future,
      iroh_send_write, iroh_send_finish, iroh_send_reset, iroh_send_set_priority, iroh_send_stopped,
      iroh_recv_read, iroh_recv_stop, get_endpoint, get_conn, get_send, get_recv; repeat track.
Qed.

(** The account after a call that was answered so. *)
Lemma accounted_rc {X} w s t rc (x : X) e w' : accounted w s t -> gains no_buf w (rc, x, e) w' ->
  accounted w' (got_rc rc e s) t.
Proof.
  intros HA G. apply (accounted_gives _ _ w w' s _ t HA G); unfold got_rc, got_err, owns.
  - intros h v _ Ho. left. repeat case_decide; simpl; set_solver.
  - intros h (Hrc & He & ->). rewrite !decide_False by done. simpl. set_solver.
  - intros p Hp. by repeat case_decide.
  - by intros p [_ ?].
  - intros h Hh. left. by repeat case_decide.
Qed.

Lemma owns_got_buf b s h : owns (got_buf b s) h <-> owns s h.
Proof. unfold got_buf. by case_decide. Qed.

Lemma accounted_buf B w s t b w' : accounted w s t -> gives none B w w' -> (forall p, B p -> its_buf b p) ->
  accounted w' (got_buf b s) t.
Proof.
  intros HA G HB. apply (accounted_gives _ _ w w' s _ t HA G).
  - intros h v _ Ho. left. by apply owns_got_buf.
  - done.
  - intros p Hp. unfold got_buf. case_decide; [done|]. cbn. apply lookup_insert_is_Some'. by right.
  - intros p Hp%HB. destruct Hp as [Hne ->]. unfold got_buf. rewrite decide_False by done. cbn. rewrite lookup_insert_eq. by eexists.
  - intros h Hh. left. unfold got_buf in Hh. by case_decide.
Qed.

Lemma accounted_text w s t rc b e w' : accounted w s t -> gains its_buf w (rc, b, e) w' ->
  accounted w' (if decide (rc = 0) then got_buf b s else got_err e s) t.
Proof.
  intros HA G. cbn in G. case_decide as D.
  - eapply accounted_buf; [exact HA|eapply (gives_mono _ _ _ (its_buf b)); [exact G|by intros h [? _]|by intros p [_ ?]]|done].
  - assert (gains no_buf w (rc, b, e) w') as G' by (eapply gives_mono; [exact G|done|by intros p [? _]]).
    apply (accounted_rc w s t) in G'; [|done]. unfold got_rc in G'. by rewrite decide_False in G'.
Qed.

Lemma accounted_op w s t op st w' : accounted w s t -> gains_op w op w' ->
  accounted w' (if decide (op = 0) then s else add_op op st s) t.
Proof.
  intros HA G. assert (Ha : forall h, owns s h -> owns (add_op op st s) h).
  { intros h [Ho|Ho]; [left|by right]. cbn. apply lookup_insert_is_Some'. by right. }
  apply (accounted_gives _ _ w w' s _ t HA G).
  - intros h v _ Ho. left. case_decide; auto.
  - intros h [Hne ->]. rewrite decide_False by done. left. cbn. rewrite lookup_insert_eq. by eexists.
  - by case_decide.
  - done.
  - intros h Hh. left. by case_decide.
Qed.

(** A handle that is no operation's, and that its owner gives up. *)
Lemma does_remove_accounted h v w s s' t Q P : winv w -> accounted w s t -> slots w !! h = Some v ->
  match v with SOp _ => False | _ => True end ->
  (forall h', h' <> h -> owns s h' -> owns s' h') -> o_bufs s' = o_bufs s -> o_opts s' = o_opts s ->
  (forall w', accounted w' s' t -> Q true w') -> does (remove h) w Q P.
Proof.
  intros W HA Hv Hop Ho Hb Hp HQ. destruct (remove_slot_spec w h W) as (E1 & _ & En & Hsl).
  unfold does, remove. rewrite t_slot_slots by apply W. rewrite Hv.
  destruct (remove_slot h (reg w)) as [was r]. cbn in E1, En, Hsl.
  rewrite bool_decide_eq_true_2 in E1 by by eexists. subst was.
  assert (accounted (set_reg r w) s' t) as HA'; [|destruct v; try done; by apply HQ].
  apply (accounted_gives none none w _ s _ t HA).
  - apply gives_slots; [exact En|rewrite Hsl..].
    + intros h' v'. rewrite lookup_delete_Some. intros [_ H]. eauto.
    + intros id Hid. rewrite lookup_delete_ne; [done|]. intros <-. rewrite Hv in Hid. by injection Hid as ->.
  - change (slots (set_reg r w)) with (all_slots r). rewrite Hsl.
    intros h' v'. rewrite lookup_delete_Some. intros [Hne _] Hh. left. by apply Ho.
  - done.
  - by rewrite Hb.
  - done.
  - intros h' Hh. left. by rewrite <-Hp.
Qed.

Lemma does_and {A} (m : M A) w (Q Q' : A -> shim -> Prop) (P : shim -> Prop) : does m w Q P -> does m w Q' P ->
  does m w (fun a w' => Q a w' /\ Q' a w') P.
Proof. unfold does. by destruct (m w) as [[a| |] w']. Qed.

Lemma owns_drop_handle h s h' : h' <> h -> owns s h' -> owns (drop_handle h s) h'.
Proof. unfold owns. cbn. set_solver. Qed.

Lemma does_free_accounted h w s t P : sound w s t -> accounted w s t -> h ∈ o_handles s ->
  does (ffi_guard tt (remove h;; mret tt)) w (fun _ w' => accounted w' (drop_handle h s) t) P.
Proof.
  intros S HA Hh. destruct (owned_object w s t h S Hh) as (v & Hv & Hk & _). apply does_guard, does_bind.
  eapply (does_remove_accounted h v); [apply S|exact HA|exact Hv|by destruct v|by apply owns_drop_handle|done|done|done].
Qed.

Lemma does_bind_accounted o a w s t P : sound w s t -> accounted w s t -> room 1 w ->
  o ∈ o_handles s -> o ∈ o_opts s -> a <> SaysPanic ->
  does (iroh_endpoint_bind o a) w
    (fun op w' => accounted w' (if decide (op = 0) then drop_handle o s else add_op op (OpRunning KHandle) (drop_handle o s)) t) P.
Proof.
  intros S HA R Ho Hopt Ha. destruct (owned_object w s t o S Ho) as (v & Hv & Hk & Hn & Us & Ut & S1).
  destruct (a_opts w s t HA o (or_introl Hopt)) as [_ Hv']. destruct (Hv' v Hv) as [opts ->].
  unfold iroh_endpoint_bind, get_opts. apply does_guard, does_bind.
  apply (does_get_live _ _ _ (SOpts opts) opts); [apply S|done|done|]. cbn [or_ready]. apply does_bind.
  eapply does_mono; [apply (does_and _ _ (fun _ w' => sound w' (drop_handle o s) t /\ room 1 w')
    (fun _ w' => accounted w' (drop_handle o s) t))| |by intros ? D; exact D].
  - eapply (does_remove o); [exact S1|exact Hv|done..|].
    intros w' S' Hnx. split; [done|]. unfold room in *. lia.
  - eapply (does_remove_accounted o); [apply S|exact HA|exact Hv|done|by apply owns_drop_handle|done|done|done].
  - intros b w1 [[S' R'] HA']. eapply does_mono; [by eapply does_spawn_gains| |intros ? D; exact D].
    intros op w2 G. by eapply accounted_op.
Qed.

(** Nothing but operations changes, and no result is new. *)
Lemma gives_quiet (N : Z -> Prop) w w' : reg w' = reg w -> mem w' = mem w ->
  (forall id, is_Some (arcs w' !! id) -> is_Some (arcs w !! id)) ->
  (forall id, is_Some (tasks w !! id) -> is_Some (tasks w' !! id)) ->
  (forall id, over w id -> over w' id) ->
  (forall id v, op_outcome w' id = Some (inl v) -> op_outcome w id = Some (inl v)) ->
  (forall id v, op_outcome w id = Some (inl v) ->
     op_outcome w' id = Some (inl v) \/ forall h, h ∈ owned_handles v -> N h) ->
  gives N none w w'.
Proof.
  intros Er Em Ha Ht Hov Hback Hfw. assert (Es : slots w' = slots w) by (unfold slots; by rewrite Er).
  constructor; unfold was_opts, next_handle; rewrite ?Es, ?Er, ?Em; eauto.
  - intros id [Hn|(v & Hv & Hne)]; left; [left; auto|right; eauto].
  - intros h (id & v & Hv & Hin). destruct (Hfw id v Hv) as [?|HN]; [left; by exists id, v|right; left; by apply HN].
Qed.

Lemma outcome_set_result id r w : is_Some (arcs w !! id) ->
  op_outcome (set_result id r w) id =
    match tasks w !! id with Some (TRunning _) => None | Some (TFinished r') => Some r' | _ => r end /\
  forall id', id' <> id -> op_outcome (set_result id r w) id' = op_outcome w id'.
Proof.
  intros [o E]. unfold op_outcome, set_result. rewrite E. cbn. split.
  - rewrite lookup_insert_eq. by destruct (tasks w !! id) as [[]|].
  - intros id' Hne. by rewrite lookup_insert_ne.
Qed.

Lemma set_result_known id r w :
  reg (set_result id r w) = reg w /\ mem (set_result id r w) = mem w /\ tasks (set_result id r w) = tasks w /\
  forall id', is_Some (arcs (set_result id r w) !! id') -> is_Some (arcs w !! id').
Proof.
  unfold set_result. destruct (arcs w !! id) as [o|] eqn:E; [|done]. do 3 (split; [done|]). cbn.
  intros id' H. destruct (decide (id' = id)) as [->|Hne]; [rewrite E; by eexists|by rewrite lookup_insert_ne in H].
Qed.

(** What a result that is taken out owns is the taker's. *)
Lemma does_take_gives op w P : winv w ->
  does (take_op op) w (fun r w' => gives (in_result r) none w w') P.
Proof.
  intros W. unfold take_op, get_op. apply does_bind. apply does_get; [done| |].
  2: { intros e. eapply gives_mono; [apply gives_refl|done|done]. }
  intros id v _ _. unfold does, take_result, lift.
  destruct (arcs w !! id ≫= op_result) as [r|] eqn:E.
  2: { eapply gives_mono; [apply gives_refl|done|done]. }
  assert (is_Some (arcs w !! id)) as Ha by (destruct (arcs w !! id); [by eexists|done]).
  destruct (outcome_set_result id None w Ha) as [Eo En], (set_result_known id None w) as (Er & Em & Et & Hk).
  apply gives_quiet; try done; rewrite ?Et; try done.
  - intros id' H. unfold over in *. by rewrite Et.
  - intros id' v'. destruct (decide (id' = id)) as [->|Hne]; [|by rewrite En].
    rewrite Eo. unfold op_outcome. by destruct (tasks w !! id) as [[]|].
  - intros id' v' Hv. destruct (decide (id' = id)) as [->|Hne]; [|left; by rewrite En].
    rewrite Eo. unfold op_outcome in Hv. destruct (tasks w !! id) as [[]|]; try (by left);
      right; exists v'; (split; [congruence|done]).
Qed.

Lemma take_result_gives op k status v w s t Q P : sound w s t -> accounted w s t ->
  o_ops s !! op = Some (OpDone k status v) ->
  (forall r w', value_of r = v -> sound w' (add_op op OpTaken s) t -> next_handle w' = next_handle w ->
     gives (in_result r) none w w' -> Q r w') ->
  does (take_op op) w Q P.
Proof.
  intros S HA Hop HQ.
  eapply does_mono; [apply (does_and (take_op op) w (fun r w' => value_of r = v /\ sound w' (add_op op OpTaken s) t /\
    next_handle w' = next_handle w) (fun r w' => gives (in_result r) none w w') P)| |intros ? D; exact D].
  - eapply does_take_op; [exact S|exact Hop|]. intros r w' _ _ Hv S' Hn _ _. by split_and!.
  - apply does_take_gives, S.
  - intros r w' [(? & ? & ?) ?]. by apply HQ.
Qed.

Lemma owns_taken op s h : owns s h -> owns (add_op op OpTaken s) h.
Proof. intros [Ho|Ho]; [left|by right]. cbn. apply lookup_insert_is_Some'. by right. Qed.

(** A result that owned nothing. *)
Lemma accounted_taken op r w s t w' : accounted w s t -> gives (in_result r) none w w' ->
  (forall v, r = inl v -> owned_handles v = []) -> accounted w' (add_op op OpTaken s) t.
Proof.
  intros HA G Hr. apply (accounted_gives _ _ w w' s _ t HA G); try done.
  - intros h v _ Ho. left. by apply owns_taken.
  - intros h (v & -> & Hin). rewrite (Hr v eq_refl) in Hin. by apply not_elem_of_nil in Hin.
  - by left.
Qed.

(** A result whose handles are the goroutine's from now on. *)
Lemma accounted_taken_handles op v hs w s t w' : accounted w s t -> gives (in_result (inl v)) none w w' ->
  owned_handles v = hs -> accounted w' (add_handles hs (add_op op OpTaken s)) t.
Proof.
  intros HA G <-. apply (accounted_gives _ _ w w' s _ t HA G); try done.
  - intros h v' _ Ho. left. destruct (owns_taken op s h Ho) as [?|[?|?]]; [by left|by right; left|right; right].
    cbn in *. set_solver.
  - intros h (v' & [= <-] & Hin). right; right. cbn. apply elem_of_union. left. by apply elem_of_list_to_set.
  - by left.
Qed.

(** A collector that fails stores the error. *)
Lemma does_fail_taken {X} op (x : X) e w s t P : sound w (add_op op OpTaken s) t ->
  accounted w (add_op op OpTaken s) t -> room 1 w ->
  does (fail x e) w (fun '(rc, _, e) w' => rc <> 0 /\ accounted w' (got_err e (add_op op OpTaken s)) t) P.
Proof.
  intros S HA R. eapply does_mono; [apply (does_and _ _ (gains no_buf w) (fun '(rc, _, _) _ => rc = FFI_ERR))| |intros ? D; exact D].
  - by eapply does_fail_gains.
  - unfold fail, store_err, does, mbind, M_bind. destruct (insert (SError e) w) as [[h| |] w'] eqn:E; done.
  - intros [[rc x'] e'] w' [G ->]. split; [done|]. apply (accounted_rc _ _ _ _ _ _ _ HA) in G. exact G.
Qed.

(** The state after a call, as [ShimRuns.after] has it. *)
Definition balances {X} (e : cE X) (s t : owned) : X -> shim -> Prop := fun x w' => accounted w' (after s e x) t.

Lemma result_handle_balances op h w s t : sound w s t -> accounted w s t ->
  o_ops s !! op = Some (OpDone KHandle StatusOK (VHandle h)) ->
  does (iroh_op_result_handle op) w (balances (opResultHandle op) s t) (fun _ => False).
Proof.
  intros S HA Hop. apply does_guard, does_bind. eapply take_result_gives; [exact S|exact HA|exact Hop|].
  intros r w' Hv _ _ G. destruct r as [[]|e]; try done. injection Hv as ->.
  by apply (accounted_taken_handles op _ [h] w s t w' HA G).
Qed.

Lemma result_handle2_balances op a b w s t : sound w s t -> accounted w s t ->
  o_ops s !! op = Some (OpDone KHandle2 StatusOK (VHandle2 a b)) ->
  does (iroh_op_result_handle2 op) w (balances (opResultHandle2 op) s t) (fun _ => False).
Proof.
  intros S HA Hop. apply does_guard, does_bind. eapply take_result_gives; [exact S|exact HA|exact Hop|].
  intros r w' Hv _ _ G. destruct r as [[]|e]; try done. injection Hv as -> ->.
  by apply (accounted_taken_handles op _ [a; b] w s t w' HA G).
Qed.

Lemma result_u64_balances op k n w s t : sound w s t -> accounted w s t ->
  o_ops s !! op = Some (OpDone k StatusOK (VU64 n)) ->
  does (iroh_op_result_u64 op) w (balances (opResultU64 op) s t) (fun _ => False).
Proof.
  intros S HA Hop. apply does_guard, does_bind. eapply take_result_gives; [exact S|exact HA|exact Hop|].
  intros r w' Hv _ _ G. destruct r as [[]|e]; try done.
  by apply (accounted_taken op _ w s t w' HA G); intros ? [= <-].
Qed.

Lemma result_bytes_balances op ptr k v w s t : sound w s t -> accounted w s t -> ptr <> 0 ->
  o_ops s !! op = Some (OpDone k StatusOK v) -> match v with VBytes _ | VEof => True | _ => False end ->
  does (iroh_op_result_bytes op ptr) w (balances (opResultBytes op) s t) (fun _ => False).
Proof.
  intros S HA Hptr Hop Hv0. apply does_guard, does_bind. eapply take_result_gives; [exact S|exact HA|exact Hop|].
  intros r w' <- _ _ G. assert (accounted w' (add_op op OpTaken s) t) as HA'.
  { apply (accounted_taken op r w s t w' HA G). intros v ->. by destruct v. }
  destruct r as [[]|e]; try done; apply does_bind, does_out_gives; try done; try (by intros _; apply HA');
    intros c w2 G2 _; cbn; by apply (accounted_buf (its_buf c) w' _ t c w2 HA').
Qed.

Lemma result_err_balances op k status w s t : sound w s t -> accounted w s t -> room 1 w ->
  o_ops s !! op = Some (OpDone k status VNone) ->
  does (iroh_op_result_err op) w (balances (opResultErr op) s t) (fun _ => False).
Proof.
  intros S HA R Hop. apply does_guard, does_bind. eapply take_result_gives; [exact S|exact HA|exact Hop|].
  intros r w' Hv S' Hn G. destruct r as [[]|e]; try done.
  eapply does_mono; [apply (does_fail_taken op tt e w' s t); [exact S'| |unfold room in *; lia]| |intros ? D; exact D].
  - by apply (accounted_taken op _ w s t w' HA G).
  - intros [[rc []] e'] w2 [_ HA2]. exact HA2.
Qed.

Lemma error_take_balances err ptr w s t : sound w s t -> accounted w s t -> ptr <> 0 -> err ∈ o_errs s ->
  does (iroh_error_take err ptr) w (balances (errorTake err) s t) (fun _ => False).
Proof.
  intros S HA Hptr He. pose proof S as (W & Rs & _). destruct (r_errs w s Rs err He) as [x Hx].
  set (s0 := set_errs (o_errs s ∖ {[err]}) s).
  assert (Hs0 : forall h, h <> err -> owns s h -> owns s0 h) by (intros h Hne [?|[?|?]]; unfold owns, s0; cbn; set_solver).
  apply does_guard, does_bind. apply (does_get_live _ _ _ (SError x) x); [done|done|done|].
  apply does_bind, does_bind. apply does_out_gives; [done|..].
  - intros c w1 G [m ->]. apply does_bind.
    assert (accounted (set_mem m w) (got_buf c s) t) as HA1 by by apply (accounted_buf (its_buf c) w s t c _ HA).
    eapply (does_remove_accounted err (SError x) (set_mem m w) (got_buf c s) (got_buf c s0) t); try done.
    + by destruct W.
    + intros h Hne Ho%owns_got_buf. by apply owns_got_buf, Hs0.
    + unfold got_buf. by case_decide.
    + unfold got_buf. by case_decide.
  - intros Hlong. change (accounted w s0 t).
    apply (accounted_gives none none w w s s0 t HA (gives_refl w)); try done; [|by left].
    intros h v Hv Ho. destruct (decide (h = err)) as [->|Hne]; [right|left; by apply Hs0].
    rewrite Hx in Hv. by injection Hv as <-.
Qed.

(** Freeing an operation that is over and owns nothing. *)
Lemma op_free_balances op st w s t : sound w s t -> accounted w s t -> o_ops s !! op = Some st -> emptied st ->
  does (iroh_op_free op) w (balances (opFree op) s t) (fun _ => False).
Proof.
  intros (W & Rs & _) [As Ab Aa Am Ao Ar] Hop Hst.
  destruct (free_op_runs op st w s W Rs Hop Hst) as (Hov & Hsl & Ha & Hempty & a & E & Hcase).
  destruct (remove_slot_spec w op W) as (_ & _ & En & Hsls).
  unfold does. rewrite E. set (w' := set_arcs a _). unfold balances. cbn [after].
  assert (Es : slots w' = delete op (slots w)) by exact Hsls.
  assert (Hne : forall id, id <> op -> op_outcome w' id = op_outcome w id /\ arcs w' !! id = arcs w !! id).
  { intros id H. unfold op_outcome. cbn. destruct Hcase as [[_ ->]|[_ ->]]; [done|]. by rewrite lookup_delete_ne. }
  assert (Hnb : ~ busy w' op).
  { intros [D|(v & Hv & D)]; [by apply D|]. apply D, Hempty. revert Hv. unfold op_outcome. cbn.
    destruct Hcase as [[_ ->]|[-> ->]]; [done|]. by rewrite lookup_delete_eq. }
  constructor.
  - intros h v. rewrite Es, lookup_delete_Some. intros [Hh Hv].
    destruct (As h v Hv) as [(id & v' & Ho & Hin)|[Ho|?]]; [|right; left|by do 2 right].
    + left. exists id, v'. split; [|done]. destruct (decide (id = op)) as [->|H]; [|by rewrite (proj1 (Hne id H))].
      rewrite (Hempty v' Ho) in Hin. by apply not_elem_of_nil in Hin.
    + destruct Ho as [Ho|Ho]; [left|by right]. cbn. by rewrite lookup_delete_ne.
  - intros id Hb. destruct (decide (id = op)) as [->|H]; [done|]. rewrite Es, lookup_delete_ne by done. apply Ab.
    unfold busy, over in *. cbn in Hb. by rewrite (proj1 (Hne id H)) in Hb.
  - intros id Hid. destruct (decide (id = op)) as [->|H].
    + right. destruct Hcase as [[? _]|[_ ->]]; [done|]. cbn in Hid. rewrite lookup_delete_eq in Hid. by destruct Hid.
    + rewrite (proj2 (Hne id H)) in Hid. rewrite Es, lookup_delete_ne by done. by apply Aa.
  - exact Am.
  - intros h Hh. destruct (Ao h Hh) as [Hlt Hv]. split; [unfold next_handle in *; cbn; lia|].
    intros v. rewrite Es, lookup_delete_Some. intros [_ ?]. by apply Hv.
  - exact Ar.
Qed.

(** The runtime starts, when a call needs it. *)
Definition runtime_starts {X} (e : cE X) (a : says) : Prop :=
  match e with CStart _ => a <> SaysPanic | _ => True end.

Lemma balances_same {X} (e : cE X) (x : X) w s t : accounted w s t -> after s e x = s -> balances e s t x w.
Proof. unfold balances. by intros H ->. Qed.

Lemma free_bytes_balances ptr len w s t : sound w s t -> accounted w s t -> o_bufs s !! ptr = Some len ->
  does (iroh_free_bytes ptr len) w (balances (freeBytes ptr len) s t) (fun _ => False).
Proof.
  intros (_ & Rs & _) [As Ab Aa Am Ao Ar] Hb. destruct (Ar ptr len (r_bufs w s Rs ptr len Hb)) as [Hp Hl].
  apply does_guard. unfold free_bytes.
  rewrite (proj2 (Z.eqb_neq ptr 0) Hp), (proj2 (Z.eqb_neq len 0) Hl). cbn [orb].
  constructor; try done.
  - intros p. cbn. intros [n Hn]. apply lookup_delete_Some in Hn as [Hne Hn].
    destruct (Am p (mk_is_Some _ _ Hn)); [left; by rewrite lookup_delete_ne|by right].
  - intros p n. cbn. rewrite lookup_delete_Some. intros [_ Hn]. by apply Ar.
Qed.

Lemma accounted_quiet N w w' s t : accounted w s t -> gives N none w w' -> (forall h, ~ N h) -> accounted w' s t.
Proof. intros HA G HN. apply (accounted_gives _ _ w w' s s t HA G); try done; [by left|by intros h ?%HN|by left]. Qed.

Lemma op_cancel_balances op w s t : winv w -> accounted w s t ->
  does (iroh_op_cancel op) w (balances (opCancel op) s t) (fun _ => False).
Proof.
  intros W HA. unfold iroh_op_cancel, get_op. apply does_guard, does_bind. apply does_get; [exact W| |done].
  intros id v _ _. unfold does, modify, cancel. destruct (arcs w !! id) as [o|] eqn:E; [|done].
  assert (Ho : forall id', (<[id := mkOp true (op_result o)]> (arcs w) !! id') ≫= op_result = arcs w !! id' ≫= op_result).
  { intros id'. destruct (decide (id' = id)) as [->|Hne]; [by rewrite lookup_insert_eq, E|by rewrite lookup_insert_ne]. }
  apply (accounted_quiet none w); [exact HA| |tauto]. apply gives_quiet; try done; unfold op_outcome; cbn.
  - intros id'. rewrite lookup_insert_is_Some'. intros [->|?]; [rewrite E; by eexists|done].
  - intros id' v'. by rewrite Ho.
  - intros id' v'. rewrite Ho. by left.
Qed.

Lemma options_new_balances p w s t : sound w s t -> accounted w s t -> room 1 w ->
  does (iroh_options_new p) w (balances (optionsNew p) s t) (fun _ => False).
Proof.
  intros S HA R. apply does_guard. apply (does_insert _ w s t); [done|exact S|exact R|].
  intros w' n -> _ Hn _ _ _ Hsl Hnx (Ea & Et & _ & Em).
  apply (accounted_gives (fun h => h = next_handle w) none w w' s _ t HA); try done.
  - eapply gives_new; [apply fresh_next, S|done|lia|done..].
  - intros h v _ [?|[?|?]]; left; [by left|by right; left|right; right]. cbn. set_solver.
  - intros h ->. right; right. cbn. set_solver.
  - intros h [->%elem_of_singleton|Hh]%elem_of_union; [right|by left].
    split; [lia|]. intros v. rewrite Hsl, lookup_insert_eq. intros [= <-]. by eexists.
Qed.

Lemma start_call_balances f a w s t : sound w s t -> accounted w s t -> room 1 w -> start_pre s f -> a <> SaysPanic ->
  does (start_call f a) w (balances (CStart f) s t) (fun _ => False).
Proof.
  intros S HA R Hpre Ha. destruct f; [by apply does_bind_accounted; try apply Hpre|..];
    (eapply does_mono; [by eapply start_call_gains| |done]; intros op w' G; by apply (accounted_op w)).
Qed.

Lemma call_balances X (e : cE X) a ptr w s t : sound w s t -> accounted w s t -> c_pre s e -> room 1 w ->
  ptr <> 0 -> runtime_starts e a -> does (shim_call e a ptr) w (balances e s t) (fun _ => False).
Proof.
  intros S HA Hpre R Hptr Ha. destruct e; cbn [shim_call].
  - exact HA.
  - apply does_guard, does_out_gives; [done| |done]. intros c w' G _. by apply (accounted_buf (its_buf c) w).
  - by destruct a.
  - unfold iroh_set_log_level. apply does_guard. destruct ((0 <=? level) && (level <=? 5)); [by destruct a|done].
  - by apply free_bytes_balances; [..|apply Hpre].
  - done.
  - by destruct Hpre.
  - apply (accounted_quiet none w); [exact HA| |tauto]. apply gives_quiet; try done. by left.
  - by apply op_cancel_balances; [apply S|].
  - destruct Hpre as [_ (st & Hop & Hst)]. by eapply op_free_balances.
  - destruct Hpre as [_ [h Hop]]. by eapply result_handle_balances.
  - destruct Hpre as [_ (a0 & b0 & Hop)]. by eapply result_handle2_balances.
  - destruct Hpre as [_ (k & v & Hop)]. by eapply result_u64_balances.
  - destruct Hpre as [_ (k & v & Hop & Hv)]. by eapply result_bytes_balances.
  - destruct Hpre as [_ (k & st & Hop & _)]. by eapply result_err_balances.
  - destruct Hpre as [_ He]. by apply error_take_balances.
  - unfold iroh_secret_key_generate. by destruct a.
  - by apply options_new_balances.
  - assert (does (iroh_conn_max_datagram_size h a) w (gains no_buf w) (fun _ => False)) as Hd
      by (unfold iroh_conn_max_datagram_size, get_conn; repeat track).
    eapply does_mono; [exact Hd| |done]. intros [[rc n] e] w' G. by eapply accounted_rc.
  - assert (does (iroh_conn_stats h cap a) w (gains no_buf w) (fun _ => False)) as Hd
      by (unfold iroh_conn_stats, get_conn; repeat track).
    eapply does_mono; [exact Hd| |done]. intros [[rc l] e] w' G. by eapply accounted_rc.
  - by apply start_call_balances; [..|apply Hpre|].
  - eapply does_mono; [by eapply unit_call_gains| |done].
    intros [[rc []] e] w' G. by eapply accounted_rc.
  - eapply does_mono; [by eapply text_call_gains| |done]. intros [[rc b] e] w' G. by eapply accounted_text.
  - eapply does_mono; [by eapply out_call_gains| |done].
    intros [[rc out] e] w' G. by eapply accounted_rc.
  - destruct Hpre as [_ Hh]. destruct f; by apply does_free_accounted.
Qed.

Lemma owns_objects hs h : owns (objects hs) h <-> h ∈ hs.
Proof.
  unfold owns. cbn. rewrite lookup_empty. split; [|by auto].
  by intros [[? ?]|[?%not_elem_of_empty|?]].
Qed.

Lemma owns_effect k v s h : owns (apply_effect k v s) h <-> owns s h.
Proof. by destruct k, v. Qed.

(** ** Tasks *)

Lemma does_object_gives ek ty a w s t : sound w s t -> room 2 w ->
  does (new_object_of ek ty a) w (fun r w' => gives (in_result r) none w w' /\ tasks w' = tasks w) (fun w' => w' = w).
Proof.
  intros S R. unfold new_object_of. destruct a; try done.
  - apply does_bind. apply (does_insert _ w s t); [done|exact S|by apply (room_less 1 2)|].
    intros w' n -> _ Hn _ _ _ Hsl Hnx (Ea & Et & _ & Em). split; [|exact Et].
    eapply gives_mono; [eapply gives_new; [apply fresh_next, S|done|lia|done..]| |done].
    intros h ->. eexists. split; [done|]. by left.
  - split; [|done]. eapply gives_mono; [apply gives_refl|done|done].
Qed.

Lemma does_pair_gives a w s t : sound w s t -> room 2 w ->
  does (new_pair a) w (fun r w' => gives (in_result r) none w w' /\ tasks w' = tasks w) (fun w' => w' = w).
Proof.
  intros S R. unfold new_pair. destruct a; try done.
  - apply does_bind. apply (does_insert _ w s t); [done|exact S|by apply (room_less 1 2)|].
    intros w1 n -> S1 Hn _ _ _ Hsl Hnx (Ea & Et & _ & Em). apply does_bind.
    apply (does_insert _ w1 s t); [done|exact S1|unfold room in *; lia|].
    intros w2 m -> _ Hm _ _ _ Hsl2 Hnx2 (Ea2 & Et2 & _ & Em2). split; [|by rewrite Et2].
    eapply gives_mono; [eapply (gives_trans _ _ _ _ w w1 w2)| |].
    + eapply gives_new; [apply fresh_next, S|done|lia|done..].
    + eapply gives_new; [apply fresh_next, S1|done|lia|done..].
    + intros h [-> | ->]; eexists; (split; [done|]); [by left|by right; left].
    + by intros p [].
  - split; [|done]. eapply gives_mono; [apply gives_refl|done|done].
Qed.

Lemma does_plain_gives w (r : result OpValue) :
  does (mret r) w (fun r w' => gives (in_result r) none w w' /\ tasks w' = tasks w) (fun w' => w' = w).
Proof. split; [|done]. eapply gives_mono; [apply gives_refl|done|done]. Qed.

Lemma future_gives f a w s t : sound w s t -> room 2 w ->
  does (run_future f a) w (fun r w' => gives (in_result r) none w w' /\ tasks w' = tasks w) (fun w' => w' = w).
Proof.
  intros S R. destruct f as [o|ra alpn|f]; cbn [run_future].
  - destruct (into_builder o) as [b|e]; [by eapply does_object_gives|apply does_plain_gives].
  - by eapply does_object_gives.
  - destruct f; try done; unfold unit_when, stream_error, new_bytes;
      try (destruct a; cbn [is_ok is_ok_or_err]; first
        [ done | by eapply does_object_gives | by eapply does_pair_gives | apply does_plain_gives
        | case_match; [done|apply does_plain_gives] ]).
Qed.

(** A task ends: what it made is in its result. *)
Lemma accounted_finish id f r w w1 s t : accounted w s t -> tasks w !! id = Some (TRunning f) ->
  gives (in_result r) none w w1 -> tasks w1 = tasks w -> accounted (set_task id (TFinished r) w1) s t.
Proof.
  intros [As Ab Aa Am Ao Ar] Ht [S1 O1 U1 H1 A1 T1 M1 P1 R1] Et. set (w' := set_task id (TFinished r) w1).
  destruct (outcome_finished id r w1) as [Hid Hne]. fold w' in Hid, Hne.
  assert (Hid1 : op_outcome w1 id = None) by (unfold op_outcome; by rewrite Et, Ht).
  assert (Hn : forall h, in_result r h -> held w' h) by (intros h (v & -> & Hin); by exists id, v).
  assert (Hb : forall id', busy w' id' -> busy w id' \/ slots w1 !! id' = Some (SOp id')).
  { intros id' Hb. destruct (decide (id' = id)) as [->|H].
    - left. left. unfold over. rewrite Ht. tauto.
    - apply U1. unfold busy, over in *. by rewrite (proj1 (Hne id' H)), (proj2 (Hne id' H)) in Hb. }
  constructor; try done.
  - intros h v Hv. change (slots w') with (slots w1) in Hv.
    destruct (S1 h v Hv) as [?|(v0 & Hv0 & F)]; [left; auto|].
    destruct (As h v0 Hv0) as [Hh|[?|[?|?]]]; [|auto..]. left.
    destruct (H1 h Hh) as [(id' & x & Hx & Hin)|[?|?]]; [|auto|congruence].
    exists id', x. split; [|done]. destruct (decide (id' = id)) as [->|H]; [congruence|]. by rewrite (proj2 (Hne id' H)).
  - intros id' H. change (slots w') with (slots w1). destruct (Hb id' H); auto.
  - intros id' H. change (slots w') with (slots w1). destruct (A1 id' H) as [Ha|?]; [|by left].
    destruct (Aa id' Ha) as [?|Hs]; [left; auto|right]. unfold w'. cbn. apply lookup_insert_is_Some'. right. by apply T1.
  - intros p Hp. destruct (M1 p Hp) as [?|[]]; auto.
  - intros h Hh. by apply P1, Ao.
  - intros p n Hp. destruct (R1 p n Hp); eauto.
Qed.

Lemma task_runs_accounted id a w s t : sound w s t -> accounted w s t -> room 2 w -> accounted (task_runs id a w) s t.
Proof.
  intros S HA R. unfold task_runs. destruct (tasks w !! id) as [[f| |]|] eqn:Ht; try done.
  pose proof (future_gives f a w s t S R) as Hd. unfold does in Hd.
  destruct (run_future f a w) as [[r| |] w1]; [|subst w1|done].
  - destruct Hd as [G Et]. by eapply accounted_finish.
  - eapply accounted_finish; [done|done| |done]. eapply gives_mono; [apply gives_refl|done|done].
Qed.

Lemma task_stops_accounted id w s t : accounted w s t -> accounted (task_stops id w) s t.
Proof.
  intros HA. unfold task_stops. destruct (tasks w !! id) as [[f| |]|] eqn:Ht; try done.
  destruct (arcs w !! id) as [o|]; [|done]. destruct (cancel_requested o); [|done].
  eapply accounted_finish; [done|done| |done]. eapply gives_mono; [apply gives_refl|done|done].
Qed.

Lemma supervisor_posts_accounted id w s t : winv w -> accounted w s t -> accounted (supervisor_posts id w) s t.
Proof.
  intros W HA. unfold supervisor_posts. destruct (tasks w !! id) as [[f|r|]|] eqn:Ht; try done.
  assert (is_Some (arcs w !! id)) as Ha by (apply (w_tasks w W); rewrite Ht; by eexists).
  destruct (outcome_set_result id (Some r) w Ha) as [_ En], (set_result_known id (Some r) w) as (Er & Em & Et & Hk).
  set (w' := set_task id TPosted (post id r w)).
  assert (Hne : forall id', id' <> id -> tasks w' !! id' = tasks w !! id').
  { intros id' H. unfold w'. cbn. by rewrite lookup_insert_ne, Et by done. }
  assert (Hid : tasks w' !! id = Some TPosted) by (unfold w'; cbn; apply lookup_insert_eq).
  assert (Ho : forall id', op_outcome w' id' = op_outcome w id').
  { intros id'. destruct (decide (id' = id)) as [->|H].
    - unfold op_outcome. rewrite Hid, Ht. unfold w', post, set_result. destruct Ha as [o ->]. cbn. by rewrite lookup_insert_eq.
    - rewrite <-(En id' H). unfold op_outcome. by rewrite (Hne id' H), Et. }
  apply (accounted_quiet none w); [exact HA| |tauto]. apply gives_quiet; try done.
  - intros id' H. unfold w'. cbn. apply lookup_insert_is_Some'. right. by rewrite Et.
  - intros id' H. unfold over in *. destruct (decide (id' = id)) as [->|D]; [by rewrite Hid|by rewrite Hne].
  - intros id' v. by rewrite Ho.
  - intros id' v. rewrite Ho. by left.
Qed.

(** The supervisor of an operation goes, and the operation with it when nothing
    else holds it; what it has left owns nothing. *)
Lemma accounted_ended id w w' s t : accounted w s t -> tasks w !! id = Some TPosted ->
  reg w' = reg w -> mem w' = mem w -> tasks w' = delete id (tasks w) ->
  (arcs w' = arcs w /\ slots w !! id = Some (SOp id) \/
   arcs w' = delete id (arcs w) /\ slots w !! id <> Some (SOp id)) -> accounted w' s t.
Proof.
  intros [As Ab Aa Am Ao Ar] Ht Er Em Et Hcase. assert (Es : slots w' = slots w) by (unfold slots; by rewrite Er).
  assert (Hne : forall id', id' <> id -> tasks w' !! id' = tasks w !! id' /\ arcs w' !! id' = arcs w !! id').
  { intros id' H. rewrite Et, lookup_delete_ne by done. split; [done|].
    destruct Hcase as [[-> _]|[-> _]]; [done|by rewrite lookup_delete_ne]. }
  assert (Ho : forall id', id' <> id -> op_outcome w' id' = op_outcome w id').
  { intros id' H. destruct (Hne id' H) as [E1 E2]. unfold op_outcome. by rewrite E1, E2. }
  assert (Hid : slots w !! id = Some (SOp id) /\ op_outcome w' id = op_outcome w id \/
    op_outcome w' id = None /\ forall v, op_outcome w id = Some (inl v) -> owned_handles v = []).
  { destruct Hcase as [[Ea Hs]|[Ea Hs]]; [left|right]; unfold op_outcome; rewrite Et, Ea, lookup_delete_eq, ?Ht.
    - done.
    - split; [by rewrite lookup_delete_eq|]. intros v Hv. destruct (decide (owned_handles v = [])) as [|D]; [done|].
      destruct Hs. apply Ab. right. exists v. split; [|done]. unfold op_outcome. by rewrite Ht. }
  constructor; unfold was_opts, next_handle; rewrite ?Es, ?Er, ?Em; try done.
  - intros h v Hv. destruct (As h v Hv) as [(id' & x & Hx & Hin)|?]; [|by right]. left. exists id', x. split; [|done].
    destruct (decide (id' = id)) as [->|H]; [|by rewrite Ho].
    destruct Hid as [[_ ->]|[_ He]]; [done|]. rewrite (He x Hx) in Hin. by apply not_elem_of_nil in Hin.
  - intros id' [D|(v & Hv & D)].
    + apply Ab. left. destruct (decide (id' = id)) as [->|H]; [unfold over in D; rewrite Et, lookup_delete_eq in D; tauto|].
      unfold over in *. by rewrite (proj1 (Hne id' H)) in D.
    + destruct (decide (id' = id)) as [->|H]; [|rewrite Ho in Hv by done; apply Ab; right; by exists v].
      destruct Hid as [[? _]|[Hn _]]; [done|congruence].
  - intros id' H'. destruct (decide (id' = id)) as [->|H].
    + destruct Hcase as [[_ ?]|[Ea _]]; [by left|]. rewrite Ea, lookup_delete_eq in H'. by destruct H'.
    + destruct (Hne id' H) as [-> E2]. rewrite E2 in H'. by apply Aa.
Qed.

Lemma supervisor_ends_accounted id w s t : winv w -> accounted w s t -> accounted (supervisor_ends id w) s t.
Proof.
  intros W HA. unfold supervisor_ends. destruct (tasks w !! id) as [[f|r|]|] eqn:Ht; try done.
  destruct (w_tasks w W id) as [o Ha]; [rewrite Ht; by eexists|]. unfold drop_op_arc.
  change (reg (set_tasks (delete id (tasks w)) w)) with (reg w).
  change (arcs (set_tasks (delete id (tasks w)) w)) with (arcs w).
  rewrite t_slot_slots by apply W. cbn [tasks set_tasks]. rewrite lookup_delete_eq.
  rewrite (bool_decide_eq_false_2 (is_Some None)) by by intros [? ?]. rewrite orb_false_r, Ha.
  case_bool_decide as Hsl.
  - apply (accounted_ended id w); try done. left. split; [done|].
    destruct (slots w !! id) as [[]|] eqn:E; try done. by injection Hsl as ->.
  - assert (slots w !! id <> Some (SOp id)) as Hs by (intros E; apply Hsl; by rewrite E).
    assert (forall w', w' = set_arcs (delete id (arcs w)) (set_tasks (delete id (tasks w)) w) -> accounted w' s t) as Hend.
    { intros w' ->. apply (accounted_ended id w); try done. by right. }
    destruct (op_result o) as [[v|e]|] eqn:Er; [|by apply Hend..].
    destruct (owned_handles v) as [|h l] eqn:E.
    + by destruct v; try done; apply Hend.
    + destruct Hs. apply (a_busy w s t HA). right. exists v. unfold op_outcome. rewrite Ht, Ha. cbn. by rewrite Er, E.
Qed.

(** Nothing is in an empty library. *)
Lemma start_accounted : accounted shim_start newcomer newcomer.
Proof.
  assert (Hs : forall h, slots shim_start !! h = None).
  { intros h. change (slots shim_start) with (all_slots (V := slot) registry). by rewrite (proj1 (proj2 registry_ok)), lookup_empty. }
  constructor.
  - intros h v. by rewrite Hs.
  - intros id [D|(v & D & _)]; [by destruct D|done].
  - by intros id [? D].
  - by intros p [? D].
  - intros h [D|D]; by apply not_elem_of_empty in D.
  - done.
Qed.
End Account.
