(* ===== verification/ShimLeaks.v ===== *)
(** Nothing is lost between Go and the native library.

    Runs of Go programs on the library ([ShimRuns]) keep the account of
    [ShimAccount]: what a program does not give back, its owner still has. *)
From S2P Require Import Prelude GoErrors Prog Abi Contract Reference Pump Calls GoStrings Keys Netip Addr Handle Deadline Streams Conn Endpoint.
From S2P Require Import Registry RustAddr Shim ShimInv ShimRefines ShimIds ShimRuns ShimAccount.
Local Open Scope Z_scope.
Local Open Scope go_scope.

Section Leaks.
Context {iroh : Iroh} {crates : IrohCrates}.

(** ** Runs *)

Context (answer : forall X, cE X -> shim -> says) (answer_task : Z -> shim -> says) (stops : Z -> shim -> bool).
Context (Hanswer : forall X (e : cE X) w, lawful_call e (answer X e w)).
Context (Htask : forall op w f, tasks w !! op = Some (TRunning f) -> lawful_future f (answer_task op w)).
Context (Hruntime : forall X (e : cE X) w, runtime_starts e (answer X e w)).

Abbreviation run_go p W := (run (shim_handler answer answer_task stops) p W).

(** The library holds what the goroutine and the Go objects own. *)
Definition balanced (W : rworld) : Prop := accounted (rw_lib W) (rw_go W) (objects (rw_objs W)).

Lemma balanced_owns W s' objs : balanced W ->
  (forall h, owns (rw_go W) h \/ h ∈ rw_objs W -> owns s' h \/ h ∈ objs) ->
  o_bufs s' = o_bufs (rw_go W) -> o_opts s' = o_opts (rw_go W) ->
  accounted (rw_lib W) s' (objects objs).
Proof.
  intros [As Ab Aa Am Ao Ar] Ho Hb Hp. constructor; try done.
  - intros h v Hv. destruct (As h v Hv) as [?|[D|[D|?]]]; [by left| | |by do 3 right].
    + destruct (Ho h (or_introl D)); [by right; left|]. right; right; left. by apply owns_objects.
    + apply owns_objects in D. destruct (Ho h (or_intror D)); [by right; left|]. right; right; left. by apply owns_objects.
  - intros p Hp'. destruct (Am p Hp') as [?|?]; [left; by rewrite Hb|by right].
  - intros h [Hh|Hh]; [apply Ao; left; by rewrite <-Hp|apply Ao; by right].
Qed.

Lemma balanced_same W s' n : balanced W ->
  (forall h, owns (rw_go W) h -> owns s' h) -> o_bufs s' = o_bufs (rw_go W) -> o_opts s' = o_opts (rw_go W) ->
  balanced (mkWorld (rw_lib W) s' (rw_objs W) n).
Proof. intros HB Ho Hb Hp. apply (balanced_owns W); try done. intros h [?|?]; [left; auto|by right]. Qed.

Lemma handler_c_balanced `{!CratesLaws} X (e : cE X) W s : run_rel W s -> early W -> balanced W -> c_pre s e ->
  balanced (handler_c answer e W).2.
Proof.
  intros HR HE HB Hpre. pose proof (early_room W s HR HE) as Hroom. destruct HR as (<- & S & N).
  unfold handler_c. set (w := rw_lib W) in *. set (ptr := next_id (dom (mem w))).
  assert (F : fresh_ptr w ptr) by (split; [apply next_id_pos|apply next_id_fresh_map]).
  pose proof (shim_call_ok X e (answer X e w) ptr w (rw_go W) _ S Hpre
    (room_less 1 3 w Hroom ltac:(lia)) F (Hanswer X e w)) as Hd.
  pose proof (call_balances X e (answer X e w) ptr w (rw_go W) _ S HB Hpre
    (room_less 1 3 w Hroom ltac:(lia)) ltac:(destruct F; lia) (Hruntime X e w)) as Hb.
  unfold does in Hd, Hb. destruct (shim_call e (answer X e w) ptr w) as [[x| |] w']; [exact Hb|done|done].
Qed.

Lemma finish_op_accounted op w s t : sound w s t -> accounted w s t -> room 2 w ->
  accounted (finish_op answer_task stops op w) s t.
Proof.
  intros S HA R. unfold finish_op. set (w1 := if stops op w then task_stops op w else w).
  assert (S1 : sound w1 s t) by (unfold w1; destruct (stops op w); [by apply task_stops_sound|done]).
  assert (A1 : accounted w1 s t) by (unfold w1; destruct (stops op w); [by apply task_stops_accounted|done]).
  assert (R1 : room 2 w1).
  { unfold room in *. unfold w1. destruct (stops op w); [|done]. by rewrite next_task_stops. }
  assert (S2 : sound (task_runs op (answer_task op w1) w1) s t) by (apply task_runs_sound; [done|done|apply Htask]).
  apply supervisor_ends_accounted.
  - by apply (supervisor_posts_sound op _ s t).
  - apply supervisor_posts_accounted; [apply S2|by apply task_runs_accounted].
Qed.

Lemma complete_op_balanced ch W s : run_rel W s -> early W -> balanced W ->
  balanced (complete_op answer_task stops ch W).2.
Proof.
  intros HR HE HB. pose proof (early_room W s HR HE) as Hroom. destruct HR as (<- & S & N).
  unfold complete_op. destruct (o_chans (rw_go W) !! ch) as [op|]; [|by apply (balanced_same W)].
  destruct (o_ops (rw_go W) !! op) as [[k|k|k st v|]|]; try by apply (balanced_same W).
  pose proof (finish_op_accounted op (rw_lib W) _ _ S HB (room_less 2 3 _ Hroom ltac:(lia))) as HA.
  set (w := finish_op answer_task stops op (rw_lib W)) in *.
  assert (HB' : balanced (mkWorld w (rw_go W) (rw_objs W) 0)) by exact HA.
  destruct (posted_status op (queue w)) as [status|]; [|exact HA].
  destruct (op_outcome w op) as [r|]; [|exact HA].
  set (s' := apply_effect _ _ _).
  assert (accounted w s' (objects (rw_objs W))) as [As Ab Aa Am Ao Ar]; [|by constructor].
  apply (balanced_owns _ s' (rw_objs W) HB'); [|by destruct k, (value_of r)..].
  intros h [Hh|Hh]; [left|by right]. apply owns_effect. destruct Hh as [Hh|Hh]; [left|by right].
  cbn. apply lookup_insert_is_Some'. by right.
Qed.

Lemma handler_r_balanced X (e : rtE X) W s : run_rel W s -> early W -> balanced W -> r_pre s e ->
  balanced (handler_r answer_task stops e W).2.
Proof.
  intros HR HE HB Hpre. pose proof HR as (Ego & HS & HN).
  destruct e; cbn [handler_r]; try by apply (balanced_same W).
  - destruct (o_ops (rw_go W) !! op) as [[k|k|k st v|]|]; try by apply (balanced_same W).
    apply (balanced_same W); try done. intros h [Hh|Hh]; [left|by right]. cbn. apply lookup_insert_is_Some'. by right.
  - destruct (done_with ctx (rw_go W)); [by apply (balanced_same W)|].
    pose proof (complete_op_balanced ch W s HR HE HB) as Hc. by destruct (complete_op _ _ ch W).
  - by apply (complete_op_balanced ch W s).
  - case_decide; [by apply (balanced_same W)|]. apply (balanced_owns W); try done.
    intros h [Hh|Hh].
    + left. destruct Hh as [?|[?|?]]; [by left|by right; left|right; right]. cbn. set_solver.
    + destruct (decide (h = cell o W)) as [->|Hne]; [left; right; right; cbn; set_solver|right; set_solver].
  - apply (balanced_owns W); try done. intros h [Hh|Hh]; [|right; set_solver].
    destruct (decide (h = freed_handle f)) as [->|Hne]; [right; set_solver|left].
    by apply owns_drop_handle.
Qed.

(** What is in the tables, when no operation is open. *)
Definition only_owned (W : rworld) (s : owned) : Prop :=
  let w := rw_lib W in
  let owned := o_errs s ∪ o_handles s ∪ rw_objs W in
  (forall h v, slots w !! h = Some v -> h ∈ owned \/ unreadable v) /\
  (forall h, h ∈ owned -> is_Some (slots w !! h)) /\
  mem w = o_bufs s /\
  (forall id, is_Some (arcs w !! id) -> tasks w !! id = Some TPosted).

Lemma balanced_only_owned W s : run_rel W s -> balanced W -> o_ops s = ∅ -> only_owned W s.
Proof.
  intros (<- & S & _) HB Ho. destruct (accounted_idle _ _ _ S HB Ho eq_refl) as [Hs Ha].
  pose proof S as (_ & Rs & Rt & _). split; [|split; [|split; [|exact Ha]]].
  - intros h v Hv. destruct (Hs h v Hv) as [[[? D]|D]|[D%owns_objects|?]]; [|left|left|by right].
    + by rewrite Ho, lookup_empty in D.
    + set_solver.
    + set_solver.
  - intros h [[D|D]%elem_of_union|D]%elem_of_union.
    + destruct (r_errs _ _ Rs h D) as [x ->]. by eexists.
    + destruct (r_handles _ _ Rs h D) as [D' _]. unfold is_object in D'. by destruct (slots (rw_lib W) !! h).
    + destruct (r_handles _ _ Rt h D) as [D' _]. unfold is_object in D'. by destruct (slots (rw_lib W) !! h).
  - apply map_eq. intros p. destruct (o_bufs (rw_go W) !! p) as [n|] eqn:E; [by apply (r_bufs _ _ Rs)|].
    destruct (mem (rw_lib W) !! p) as [n|] eqn:Em; [|done].
    destruct (a_buf _ _ _ HB p (mk_is_Some _ _ Em)) as [[? D]|[? D]]; [congruence|].
    cbn in D. by rewrite lookup_empty in D.
Qed.

(** ** Properties *)

(** C7. Nothing is lost between Go and the native library.  Run any program that
    keeps its side of the ABI against the library, whatever iroh answers, from a
    state where the account balances; it balances in the end.  If the program
    left no operation open, the library's handle table then holds the errors and
    objects the goroutine owns, those of the Go objects alive, and nothing else;
    its buffers are those the goroutine must free; and of its operations only
    those are left whose supervisor is about to go.  The runtime is taken to
    start; an error whose text has 2^63 bytes cannot be collected and stays. *)
Theorem nothing_is_lost `{!CratesLaws} {A} (p : go A) (W : rworld) (s : owned) (Q : A -> owned -> Prop) :
  run_rel W s -> balanced W -> wp s p Q -> early (run_go p W).2 ->
  exists a s', (run_go p W).1 = Some a /\ Q a s' /\ run_rel (run_go p W).2 s' /\ balanced (run_go p W).2 /\
    (o_ops s' = ∅ -> only_owned (run_go p W).2 s').
Proof.
  intros HR HB Hwp HE.
  destruct (wp_run_while (shim_handler answer answer_task stops) early (fun W s => run_rel W s /\ balanced W) p) with (w := W) (s := s) (Q := Q)
    as (a & s' & H1 & [H2 H3] & H4); try done.
  - intros X e W'. unfold early. rewrite count_step. lia.
  - intros X e W' s0 [HR' HB'] Hpre HE'. assert (early W') as HE0 by (unfold early in *; rewrite count_step in HE'; lia).
    destruct e as [X e|X e].
    + destruct (handler_c_ok answer Hanswer X e W' s0 HR' HE0 Hpre) as (s' & Hpost & HR2).
      exists s'. split; [done|]. split; [done|]. by apply (handler_c_balanced X e W' s0).
    + destruct (handler_r_ok answer_task stops Htask X e W' s0 HR' HE0 Hpre) as (s' & Hpost & HR2).
      exists s'. split; [done|]. split; [done|]. by apply (handler_r_balanced X e W' s0).
  - exists a, s'. do 4 (split; [done|]). by apply balanced_only_owned.
Qed.
End Leaks.

Lemma small_world_balanced : balanced small_world.
Proof. exact start_accounted. Qed.

Lemma small_runtime_starts X (e : cE X) w : runtime_starts e (small_answer X e w).
Proof. by destruct e. Qed.

(** After [Bind] one handle is alive: the endpoint's. *)
Example nothing_is_lost_witness :
  run_rel small_world newcomer /\ balanced small_world /\ options_ok small_options /\
  exists a s', (small_run small_bind small_world).1 = Some a /\ makes_object newcomer ep_obj a.1 a.2 s' /\
    run_rel (small_run small_bind small_world).2 s' /\ balanced (small_run small_bind small_world).2 /\
    (o_ops s' = ∅ -> only_owned (small_run small_bind small_world).2 s').
Proof.
  split; [exact small_world_ok|]. split; [exact small_world_balanced|]. split; [exact small_options_ok|].
  apply (nothing_is_lost small_answer small_task (fun _ _ => false) small_answer_lawful small_task_lawful small_runtime_starts
           small_bind small_world newcomer (fun a s' => makes_object newcomer ep_obj a.1 a.2 s')
           small_world_ok small_world_balanced).
  - eapply wp_mono; [exact (Bind_spec newcomer background small_options small_options_ok)|].
    by intros [r err] s' H.
  - exact small_bind_early.
Defined.

(** When the runtime cannot be started, the operation just published stays: the
    caller is told 0, and has nothing to free. *)
Example spawn_without_runtime :
  match shim_call (CStart (endpointBind 1)) SaysPanic 1 with_options with
  | (Done op, w) => (op =? 0) && match t_slot 2 (reg w) with Some (SOp id) => id =? 2 | _ => false end
  | _ => false
  end = true.
Proof. vm_compute. reflexivity. Qed.
