(* ===== verification/ShimThreads.v ===== *)
(** Many goroutines share the native library.

    Each goroutine of a pool runs its own Go program and has its own account of
    what it owns; the library, and the handles kept by Go objects, are shared.
    Goroutines step in any order: a C function is called, a completion is taken
    off the queue, a Go object is given a handle or emptied of it, or the Go run
    time answers as its protocol allows; in between, the library's tasks and
    supervisors take steps of their own. *)
From S2P Require Import Prelude GoErrors Prog Abi Contract Reference Pump Calls GoStrings Keys Netip Addr Handle Deadline Streams Conn Endpoint.
From S2P Require Import Registry RustAddr Shim ShimInv ShimRefines ShimIds ShimRuns ShimAccount.
Local Open Scope Z_scope.
Local Open Scope go_scope.

Section Threads.
Context {iroh : Iroh} {crates : IrohCrates}.
Context {A : Type}.

(** The answers iroh is taken to give to a call. *)
Context (may_answer : forall X, cE X -> says -> Prop).

(** ** Steps *)

(** Answers of the run time that concern one goroutine only. *)
Definition local {X} (e : rtE X) : X -> Prop :=
  match e in rtE X return X -> Prop with
  | RSwap _ _ => fun h => h = 0
  | RAddCleanup _ _ | RRecv _ => fun _ => False
  | RSelect _ _ => fun r => match r with inl _ => False | inr _ => True end
  | _ => fun _ => True
  end.

(** The operation whose completion comes on channel [ch] is done. *)
Inductive receives (ch : Z) (w : shim) (s : owned) : Z -> shim -> owned -> Prop :=
| Receives op status k r : (op, status) ∈ queue w -> o_chans s !! ch = Some op ->
    o_ops s !! op = Some (OpWaiting k) -> op_outcome w op = Some r ->
    receives ch w s status (set_queue (without op (queue w)) w)
      (apply_effect k (value_of r) (set_chans (delete ch (o_chans s)) (add_op op (OpDone k status (value_of r)) s))).

(** One step of a goroutine, on the library and the handles of Go objects. *)
Inductive thread_step : shim * gset Z -> go A * owned -> shim * gset Z -> go A * owned -> Prop :=
| TCall X (e : cE X) k a ptr x w w' objs s :
    may_answer X e a -> lawful_call e a -> fresh_ptr w ptr -> room 1 w ->
    shim_call e a ptr w = (Done x, w') ->
    thread_step (w, objs) (Vis (C e) k, s) (w', objs) (k x, after s e x)
| TLocal X (e : rtE X) k x w objs s s' :
    local e x -> r_post s e x s' -> thread_step (w, objs) (Vis (R e) k, s) (w, objs) (k x, s')
| TRecv ch k status w w' objs s s' :
    receives ch w s status w' s' -> thread_step (w, objs) (Vis (R (RRecv ch)) k, s) (w', objs) (k status, s')
| TSelect ch ctx k status w w' objs s s' :
    receives ch w s status w' s' ->
    thread_step (w, objs) (Vis (R (RSelect ch ctx)) k, s) (w', objs) (k (inl status), s')
| TSwap o v k h w objs s :
    h ∈ objs -> o_objs s !! o = Some h ->
    thread_step (w, objs) (Vis (R (RSwap o v)) k, s) (w, objs ∖ {[h]}) (k h, add_handles [h] s)
| TCleanup o f k w objs s :
    thread_step (w, objs) (Vis (R (RAddCleanup o f)) k, s)
      (w, {[freed_handle f]} ∪ objs) (k tt, drop_handle (freed_handle f) s).

Abbreviation pool := (list (go A * owned)).

Inductive pool_step : shim * gset Z * pool -> shim * gset Z * pool -> Prop :=
| PThread i g g' l l' gs : gs !! i = Some g -> thread_step l g l' g' -> pool_step (l, gs) (l', <[i := g']> gs)
| PLib w w' objs gs : shim_step w w' -> pool_step (w, objs, gs) (w', objs, gs).

(** ** The invariant *)

Context (Q : nat -> A -> owned -> Prop).

(** Every goroutine keeps its side of the ABI, and all owners are apart. *)
Record shared (w : shim) (objs : gset Z) (gs : pool) : Prop := {
  sh_lib : sound w (objects objs) newcomer;
  sh_thread : forall i p s, gs !! i = Some (p, s) -> wp s p (Q i) /\ sound w s (objects objs);
  sh_apart : forall i j p q s t, i <> j -> gs !! i = Some (p, s) -> gs !! j = Some (q, t) -> sound w s t
}.

(** What a step of the owner of [s] does to everyone else. *)
Definition trades (w : shim) (s : owned) (objs : gset Z) (w' : shim) (s' : owned) (objs' : gset Z) : Prop :=
  sound w s (objects objs) -> sound w' s' (objects objs') /\
  forall t, sound w s t -> sound w (objects objs) t -> sound w' s' t /\ sound w' (objects objs') t.

Lemma sound_others w s t u : sound w s t -> sound w s u -> apart t u -> sound w t u.
Proof. intros (W & _ & Rt & _) (_ & _ & Ru & _) H. by split_and!. Qed.

(** A step that leaves the Go objects alone. *)
Lemma moves_trade w s w' s' objs : (forall t, sound w s t -> sound w' s' t) -> trades w s objs w' s' objs.
Proof.
  intros H S. split; [by apply H|]. intros t St So. split; [by apply H|].
  apply (sound_others w' s'); [by apply H..|]. apply So.
Qed.

Lemma sound_newcomer w s t : sound w s t -> sound w s newcomer.
Proof.
  intros (W & Rs & _). split; [done|]. split; [done|]. split.
  - by constructor.
  - by split_and!.
Qed.

Lemma shared_thread w objs gs w' objs' i p s p' s' : shared w objs gs -> gs !! i = Some (p, s) ->
  trades w s objs w' s' objs' -> wp s' p' (Q i) -> shared w' objs' (<[i := (p', s')]> gs).
Proof.
  intros [Hl Ht Ha] Hi HT Hwp. destruct (Ht i p s Hi) as [_ So]. destruct (HT So) as [So' Hall].
  assert (Hj : forall j q t, j <> i -> gs !! j = Some (q, t) -> sound w' s' t /\ sound w' (objects objs') t).
  { intros j q t Hne Hj. apply Hall; [by eapply (Ha i j)|]. apply sound_sym. by apply (Ht j q t). }
  constructor.
  - apply (sound_newcomer w' _ s'). by apply sound_sym.
  - intros j q t. rewrite list_lookup_insert_Some. intros [(<- & [= <- <-] & _)|[Hne Hj']]; [done|].
    split; [by apply (Ht j q t)|]. apply sound_sym. by apply (Hj j q t).
  - intros j k q q' t u Hne. rewrite !list_lookup_insert_Some.
    intros [(<- & [= <- <-] & _)|[Hnj Hj']] [(<- & [= <- <-] & _)|[Hnk Hk']]; [done| | |].
    + by apply (Hj k q' u).
    + apply sound_sym. by apply (Hj j q t).
    + apply (sound_others w' s'); [by apply (Hj j q t)|by apply (Hj k q' u)|]. by apply (Ha j k q q' t u).
Qed.

(** ** Every step keeps it *)

Lemma call_trades `{!CratesLaws} X (e : cE X) a ptr x w w' s objs : c_pre s e ->
  lawful_call e a -> fresh_ptr w ptr -> room 1 w -> shim_call e a ptr w = (Done x, w') ->
  sound w s (objects objs) -> c_post s e x (after s e x) /\ trades w s objs w' (after s e x) objs.
Proof.
  intros Hpre L F R E S.
  assert (Hone : forall t, sound w s t -> c_post s e x (after s e x) /\ sound w' (after s e x) t).
  { intros t St. pose proof (shim_call_ok X e a ptr w s t St Hpre R F L) as Hd. unfold does in Hd. rewrite E in Hd.
    destruct Hd as (s' & Hpost & S'). by rewrite <-(c_post_after X e s x s' Hpost). }
  split; [by apply (Hone _ S)|]. apply moves_trade. intros t St. by apply Hone.
Qed.

(** What the run time answers to one goroutine moves nothing; an operation may
    come to be waited for. *)
Lemma local_same X (e : rtE X) x s s' : local e x -> r_pre s e -> r_post s e x s' ->
  exists s0, (s0 = s \/ exists op k, o_ops s !! op = Some (OpRunning k) /\ s0 = add_op op (OpWaiting k) s) /\
    o_ops s' = o_ops s0 /\ o_errs s' = o_errs s0 /\ o_handles s' = o_handles s0 /\ o_bufs s' = o_bufs s0 /\ o_opts s' = o_opts s0.
Proof.
  intros Hl Hpre Hpost.
  assert (Hsame : forall s', o_ops s' = o_ops s -> o_errs s' = o_errs s -> o_handles s' = o_handles s ->
    o_bufs s' = o_bufs s -> o_opts s' = o_opts s -> exists s0,
    (s0 = s \/ exists op k, o_ops s !! op = Some (OpRunning k) /\ s0 = add_op op (OpWaiting k) s) /\
    o_ops s' = o_ops s0 /\ o_errs s' = o_errs s0 /\ o_handles s' = o_handles s0 /\ o_bufs s' = o_bufs s0 /\ o_opts s' = o_opts s0)
    by (intros u ?????; exists s; split; [by left|done]).
  destruct e; cbn in Hl, Hpre, Hpost; try done; try (subst s'; by apply Hsame).
  - destruct Hpost as [_ ->]. by apply Hsame.
  - destruct x; subst s'; by apply Hsame.
  - destruct x as [err b]. destruct Hpost as [-> _]. by apply Hsame.
  - destruct Hpost as (_ & k & Hop & ->). exists (add_op op (OpWaiting k) s). split; [right; by exists op, k|done].
  - destruct x as [|[]]; [done|]. destruct Hpost as (err & c & n & _ & ->). by apply Hsame.
  - destruct (o_ctx s !! ctx) as [[| |err]|], x as [err'|]; try (subst s'; by apply Hsame);
      try (destruct Hpost as [_ ->]; by apply Hsame); destruct Hpost as (c & -> & c' & n & _ & ->); by apply Hsame.
  - destruct Hpost as [_ ->]. by apply Hsame.
  - subst x. destruct Hpost as (_ & _ & ->). by apply Hsame.
  - destruct x as [ctx id]. destruct Hpost as (_ & _ & _ & st & _ & ->). by apply Hsame.
  - destruct Hpost as [_ ->]. by apply Hsame.
Qed.

Lemma local_trades X (e : rtE X) x w s s' objs : local e x -> r_pre s e -> r_post s e x s' -> trades w s objs w s' objs.
Proof.
  intros Hl Hpre Hpost. apply moves_trade. intros t S.
  destruct (local_same X e x s s' Hl Hpre Hpost) as (s0 & Hs0 & E1 & E2 & E3 & E4 & _).
  apply (sound_fields _ s0); try done. destruct Hs0 as [->|(op & k & Hop & ->)]; [done|].
  pose proof S as (_ & Rs & _ & Ap). apply sound_add_op; [exact S|exact (r_ops _ _ Rs op _ Hop)|]. apply Ap. by eexists.
Qed.

Lemma receives_trades ch w s status w' s' objs : receives ch w s status w' s' -> sound w s (objects objs) ->
  completes s ch status s' /\ trades w s objs w' s' objs.
Proof.
  intros [op st k r Hin Hch Hop Hr] S.
  destruct (without_spec op (queue w) (w_once w (proj1 S))) as (Q1 & Q2 & Q3).
  assert (Hone : forall t, sound w s t -> let s' := apply_effect k (value_of r)
      (set_chans (delete ch (o_chans s)) (add_op op (OpDone k st (value_of r)) s)) in
    completes s ch st s' /\ sound (set_queue (without op (queue w)) w) s' t).
  { intros t St. destruct (receive_sound op st (without op (queue w)) ch k w s t St Hin Q1 Q2 Q3 Hop Hch)
      as (r' & Hr' & _ & H). rewrite Hr in Hr'. injection Hr' as <-. exact H. }
  split; [by apply (Hone _ S)|]. apply moves_trade. intros t St. by apply Hone.
Qed.

Lemma swap_trades h w s objs : h ∈ objs -> trades w s objs w (add_handles [h] s) (objs ∖ {[h]}).
Proof.
  intros Hh S. split; [by apply (sound_takeback w s objs h)|]. intros t St So.
  assert (h ∈ o_handles (objects objs)) as Hh' by exact Hh.
  destruct (owned_object w (objects objs) t h So Hh') as (v & Hv & Hk & Hn & _ & Ut & _). split.
  - apply sound_add_handles; [exact St|]. apply Forall_singleton. split; [unfold is_object; rewrite Hv; by destruct v|done].
  - apply (sound_less w (objects objs)); [exact So|]. apply (less_drop_handle h (objects objs)).
Qed.

Lemma cleanup_trades h w s objs : h ∈ o_handles s -> trades w s objs w (drop_handle h s) ({[h]} ∪ objs).
Proof.
  intros Hh S. split; [by apply sound_give|]. intros t St So.
  destruct (owned_object w s t h St Hh) as (v & Hv & Hk & Hn & _ & Ut & S'). split; [exact S'|].
  rewrite <-objects_add. apply sound_add_handles; [exact So|]. apply Forall_singleton.
  split; [unfold is_object; rewrite Hv; by destruct v|done].
Qed.

Definition shared_in (st : shim * gset Z * pool) : Prop := shared st.1.1 st.1.2 st.2.

Lemma thread_step_trades `{!CratesLaws} (R : A -> owned -> Prop) l p s l' p' s' :
  thread_step l (p, s) l' (p', s') -> wp s p R -> sound l.1 s (objects l.2) ->
  wp s' p' R /\ trades l.1 s l.2 l'.1 s' l'.2.
Proof.
  intros Hstep Hwp So. remember (p, s) as g eqn:Eg. remember (p', s') as g' eqn:Eg'.
  destruct Hstep as [X e k a ptr x w w' objs s0 _ L F HR E|X e k x w objs s0 s1 Hl Hpost|ch k status w w' objs s0 s1 Hr
    |ch ctx k status w w' objs s0 s1 Hr|o v k h w objs s0 Hh Ho|o f k w objs s0];
    injection Eg as <- <-; injection Eg' as <- <-; destruct Hwp as [Hpre Hk]; cbn [fst snd] in *.
  - destruct (call_trades X e a ptr x w w' s0 objs Hpre L F HR E So) as [Hpost HT]. by split; [apply Hk|].
  - split; [by apply Hk|by eapply local_trades].
  - destruct (receives_trades ch w s0 status w' s1 objs Hr So) as [Hpost HT]. by split; [apply Hk|].
  - destruct (receives_trades ch w s0 status w' s1 objs Hr So) as [Hpost HT]. by split; [apply Hk|].
  - split; [|by apply swap_trades]. apply Hk. destruct (sound_takeback w s0 objs h So Hh) as (Hn & Hpos & _).
    split; [by right|]. split; [done|]. by rewrite decide_False by lia.
  - split; [by apply Hk|by apply cleanup_trades].
Qed.

Lemma thread_step_shared `{!CratesLaws} i l g l' g' gs : thread_step l g l' g' -> gs !! i = Some g ->
  shared_in (l, gs) -> shared_in (l', <[i := g']> gs).
Proof.
  intros Hstep Hi Hsh. destruct g as [p s], g' as [p' s']. destruct (sh_thread _ _ _ Hsh i p s Hi) as [Hwp So].
  destruct (thread_step_trades (Q i) l p s l' p' s' Hstep Hwp So) as [Hwp' HT]. by eapply shared_thread.
Qed.

Lemma shared_step `{!CratesLaws} st st' : pool_step st st' -> shared_in st -> shared_in st'.
Proof.
  intros [i g g' l l' gs Hi Hstep|w w' objs gs Hlib] Hsh; [by eapply thread_step_shared|].
  destruct Hsh as [Hl Ht Ha]. constructor; cbn [fst snd] in *.
  - by eapply shim_step_sound.
  - intros i p s Hi. destruct (Ht i p s Hi). split; [done|]. by eapply shim_step_sound.
  - intros i j p q s t Hne Hi Hj. eapply shim_step_sound; [|exact Hlib]. by apply (Ha i j p q).
Qed.

(** ** Every goroutine can go on *)

(** [p] waits for the completion that comes on channel [ch]. *)
Inductive waits_on (ch : Z) : go A -> Prop :=
| WRecv k : waits_on ch (Vis (R (RRecv ch)) k)
| WSelect ctx k : waits_on ch (Vis (R (RSelect ch ctx)) k).

(** The C functions return, whatever iroh answers; the rest of the run time has
    an answer. *)
Definition goes_on (l : shim * gset Z) (p : go A) (s : owned) : Prop :=
  match p with
  | Vis (C e) k => forall a ptr, lawful_call e a -> fresh_ptr l.1 ptr -> exists x w', shim_call e a ptr l.1 = (Done x, w')
  | Vis (R e) k => exists l' g', thread_step l (p, s) l' g'
  | _ => False
  end.

(** The operation waited for is one whose task the library can still move. *)
Definition in_flight (w : shim) (s : owned) (ch : Z) : Prop :=
  exists op k w', o_chans s !! ch = Some op /\ o_ops s !! op = Some (OpWaiting k) /\
    shim_step w w' /\ tasks w' !! op <> tasks w !! op.

Lemma local_answer X (e : rtE X) s : r_pre s e ->
  match e with RAddCleanup _ _ | RRecv _ | RSelect _ _ => False | _ => True end ->
  exists x s', local e x /\ r_post s e x s'.
Proof.
  intros Hpre He. destruct e; cbn in Hpre, He |- *; try done.
  - exists (next_id (dom (o_objs s))), s. split; [done|]. split; [apply next_id_fresh_map|done].
  - exists None, (set_loaded true s). done.
  - exists (None, false), s. done.
  - destruct Hpre as [k Hop]. exists (next_id (dom (o_chans s))). eexists. split; [done|].
    split; [apply next_id_fresh_map|]. by exists k.
  - exists (match o_ctx s !! ctx with Some (CtxDone e) => Some (Sentinel e) | _ => None end), s. split; [done|].
    by destruct (o_ctx s !! ctx) as [[]|].
  - exists tt. by eexists.
  - exists 0, s. split; [done|]. by split; [left|].
  - exists 0, s. split; [done|]. split; [by left|]. split; [done|]. by rewrite decide_True.
  - exists tt. by eexists.
  - exists tt. by eexists.
  - exists (next_id (dom (o_ctx s)), next_id (set_map snd (o_armed s))). eexists. split; [done|].
    split; [|split; [apply next_id_fresh_map|split]].
    + intros H. apply (next_id_fresh (set_map snd (o_armed s))). apply elem_of_map. by eexists (_, _).
    + pose proof (next_id_pos (dom (o_ctx s))). unfold background. lia.
    + exists CtxArmed. by split; [left|].
  - exists tt. by eexists.
  - exists tt. by eexists.
  - exists (zero_bytes 32), s. by split.
  - exists tt. by eexists.
Qed.

Lemma waits_progress ch w objs s : sound w s (objects objs) -> room 2 w ->
  (exists op k, o_chans s !! ch = Some op /\ o_ops s !! op = Some (OpWaiting k)) ->
  (exists status w' s', receives ch w s status w' s') \/ in_flight w s ch.
Proof.
  intros S HR (op & k & Hch & Hop). pose proof S as (W & Rs & _).
  destruct (r_ops w s Rs op _ Hop) as [_ Hok].
  destruct (waiting_queued op k w s _ S Hop) as [Hn|Hq].
  - right. unfold over in Hn.
    destruct (tasks w !! op) as [[f|r|]|] eqn:Et; [| |tauto..].
    + exists op, k, (task_runs op SaysPanic w). split; [done|]. split; [done|]. split.
      * constructor; [|done]. intros f' _. by destruct f' as [| |[]].
      * rewrite Et. apply (not_running_after (fun _ _ => SaysPanic)) with (s := s) (t := objects objs); [|done..].
        intros _ _ f' _. by destruct f' as [| |[]].
    + exists op, k, (supervisor_posts op w). split; [done|]. split; [done|]. split; [constructor|].
      unfold supervisor_posts. rewrite Et. cbn. by rewrite lookup_insert_eq.
  - left. destruct (posted_status_in op (queue w) Hq) as (status & _ & Hin).
    destruct (w_queue w W op status Hin) as (_ & Hov & _).
    destruct (op_outcome w op) as [r|] eqn:Er; [by do 3 eexists; econstructor|].
    destruct Hok as (f & Ht & _). unfold over in Hov. by rewrite Ht in Hov.
Qed.

Lemma progress `{!CratesLaws} (R : A -> owned -> Prop) w objs p s :
  wp s p R -> sound w s (objects objs) -> room 2 w ->
  (exists a, p = Ret a /\ R a s) \/ goes_on (w, objs) p s \/ exists ch, waits_on ch p /\ in_flight w s ch.
Proof.
  intros Hwp So HR.
  destruct p as [a|X [X' e|X' e] k|why]; [left; by exists a| | |done]; destruct Hwp as [Hpre _]; right.
  - left. intros a ptr L F. pose proof (shim_call_ok X' e a ptr w s _ So Hpre (room_less 1 2 w HR ltac:(lia)) F L) as Hd.
    unfold does in Hd. cbn [fst]. destruct (shim_call e a ptr w) as [[x| |] w']; [by exists x, w'|done|done].
  - assert (match e with RAddCleanup _ _ | RRecv _ | RSelect _ _ => False | _ => True end \/
            match e with RAddCleanup _ _ | RRecv _ | RSelect _ _ => True | _ => False end) as [He|He]
      by (destruct e; tauto).
    { left. destruct (local_answer X' e s Hpre He) as (x & s' & Hl & Hpost). do 2 eexists. by eapply TLocal. }
    destruct e; try done.
    + destruct (waits_progress ch w objs s So HR Hpre) as [(status & w' & s' & Hr)|Hf].
      * left. do 2 eexists. by eapply TSelect.
      * right. exists ch. split; [constructor|done].
    + destruct (waits_progress ch w objs s So HR Hpre) as [(status & w' & s' & Hr)|Hf].
      * left. do 2 eexists. by eapply TRecv.
      * right. exists ch. split; [constructor|done].
    + left. do 2 eexists. by eapply TCleanup.
Qed.

Lemma thread_progress `{!CratesLaws} w objs gs i p s : shared w objs gs -> room 2 w -> gs !! i = Some (p, s) ->
  (exists a, p = Ret a /\ Q i a s) \/ goes_on (w, objs) p s \/ exists ch, waits_on ch p /\ in_flight w s ch.
Proof. intros Hsh HR Hi. destruct (sh_thread w objs gs Hsh i p s Hi). by apply progress. Qed.

(** ** The account of a pool *)

(** What several owners own together. *)
Definition merged (l : list owned) : owned :=
  foldr (fun s t => mkOwned true (o_ops s ∪ o_ops t) ∅ (o_bufs s ∪ o_bufs t) (o_errs s ∪ o_errs t)
    (o_handles s ∪ o_handles t) (o_opts s ∪ o_opts t) ∅ ∅ ∅ 0 ∅ ∅ ∅) newcomer l.

Lemma union_is_Some {V} (m m' : gmap Z V) k : is_Some ((m ∪ m') !! k) <-> is_Some (m !! k) \/ is_Some (m' !! k).
Proof. rewrite lookup_union. destruct (m !! k), (m' !! k); cbn; split; try tauto; intros; try (by eexists); naive_solver. Qed.

Lemma owns_newcomer h : ~ owns newcomer h.
Proof. unfold owns. cbn. rewrite lookup_empty. by intros [[? ?]|[?%not_elem_of_empty|?%not_elem_of_empty]]. Qed.

Lemma owns_merged l h : owns (merged l) h <-> exists s, s ∈ l /\ owns s h.
Proof.
  induction l as [|s l IH]; cbn [merged foldr].
  - split; [by intros ?%owns_newcomer|by intros (? & ?%not_elem_of_nil & _)].
  - fold (merged l) in *. transitivity (owns s h \/ owns (merged l) h).
    + unfold owns at 1. cbn. rewrite union_is_Some, !elem_of_union. unfold owns. tauto.
    + rewrite IH. setoid_rewrite elem_of_cons. naive_solver.
Qed.

Lemma bufs_merged l p : is_Some (o_bufs (merged l) !! p) <-> exists s, s ∈ l /\ is_Some (o_bufs s !! p).
Proof.
  induction l as [|s l IH]; cbn [merged foldr].
  - cbn. rewrite lookup_empty. split; [by intros [? ?]|by intros (? & ?%not_elem_of_nil & _)].
  - fold (merged l) in *. cbn. rewrite union_is_Some, IH. setoid_rewrite elem_of_cons. naive_solver.
Qed.

Lemma opts_merged l h : h ∈ o_opts (merged l) <-> exists s, s ∈ l /\ h ∈ o_opts s.
Proof.
  induction l as [|s l IH]; cbn [merged foldr].
  - cbn. split; [by intros ?%not_elem_of_empty|by intros (? & ?%not_elem_of_nil & _)].
  - fold (merged l) in *. cbn. rewrite elem_of_union, IH. setoid_rewrite elem_of_cons. naive_solver.
Qed.

Lemma sound_merged w s l : sound w s newcomer -> (forall t, t ∈ l -> sound w s t) -> sound w s (merged l).
Proof.
  intros S0. induction l as [|t l IH]; intros H; [exact S0|]. cbn [merged foldr]. fold (merged l).
  destruct (H t) as (W & Rs & Rt & (A1 & A2 & A3 & A4)); [by left|].
  destruct IH as (_ & _ & Rm & (B1 & B2 & B3 & B4)); [intros u Hu; apply H; by right|].
  split; [done|]. split; [done|]. split.
  - constructor; cbn.
    + intros op st [?|[_ ?]]%lookup_union_Some_raw; [by apply (r_ops _ _ Rt)|by apply (r_ops _ _ Rm)].
    + intros e [?|?]%elem_of_union; [by apply (r_errs _ _ Rt)|by apply (r_errs _ _ Rm)].
    + intros h [?|?]%elem_of_union; [by apply (r_handles _ _ Rt)|by apply (r_handles _ _ Rm)].
    + intros p n [?|[_ ?]]%lookup_union_Some_raw; [by apply (r_bufs _ _ Rt)|by apply (r_bufs _ _ Rm)].
  - split_and!; cbn.
    + intros op Hop. apply lookup_union_None. by split; [apply A1|apply B1].
    + intros e He. apply not_elem_of_union. by split; [apply A2|apply B2].
    + intros h Hh. apply not_elem_of_union. by split; [apply A3|apply B3].
    + intros p Hp. apply lookup_union_None. by split; [apply A4|apply B4].
Qed.

(** The account does not ask which of its two owners owns what. *)
Lemma accounted_owners w s t s' t' : accounted w s t ->
  (forall h, owns s h \/ owns t h -> owns s' h \/ owns t' h) ->
  (forall p, is_Some (o_bufs s !! p) \/ is_Some (o_bufs t !! p) -> is_Some (o_bufs s' !! p) \/ is_Some (o_bufs t' !! p)) ->
  (forall h, h ∈ o_opts s' \/ h ∈ o_opts t' -> h ∈ o_opts s \/ h ∈ o_opts t) -> accounted w s' t'.
Proof.
  intros [As Ab Aa Am Ao Ar] Ho Hb Hp. constructor; auto.
  intros h v Hv. destruct (As h v Hv) as [?|[?|[?|?]]]; [by left| | |by do 3 right];
    (destruct (Ho h) as [?|?]; [auto|by right; left|by right; right; left]).
Qed.

Definition owners (objs : gset Z) (gs : pool) : list owned := objects objs :: map snd gs.
Definition account (w : shim) (objs : gset Z) (gs : pool) : Prop := accounted w newcomer (merged (owners objs gs)).

Lemma account_split w objs gs i p s : gs !! i = Some (p, s) ->
  account w objs gs <-> accounted w s (merged (owners objs (delete i gs))).
Proof.
  intros Hi. assert (Hin : forall u, u ∈ owners objs gs <-> u = s \/ u ∈ owners objs (delete i gs)).
  { intros u. unfold owners. rewrite !elem_of_cons.
    assert (u ∈ map snd gs <-> u ∈ s :: map snd (delete i gs)) as ->; [|rewrite elem_of_cons; tauto].
    change (s :: map snd (delete i gs)) with (map snd ((p, s) :: delete i gs)).
    by apply elem_of_Permutation_proper, fmap_Permutation, delete_Permutation. }
  assert (Hex : forall P : owned -> Prop, (exists u, u ∈ owners objs gs /\ P u) <->
    P s \/ exists u, u ∈ owners objs (delete i gs) /\ P u) by (setoid_rewrite Hin; naive_solver).
  split; intros HA; eapply accounted_owners; try exact HA; intros x;
    rewrite ?owns_merged, ?bufs_merged, ?opts_merged, Hex; cbn; rewrite ?lookup_empty.
  - by intros [?%owns_newcomer|?].
  - by intros [[? ?]|?].
  - by right.
  - by right.
  - by right.
  - by intros [?%not_elem_of_empty|?].
Qed.

(** ** Every step keeps the account *)

Lemma owns_owners objs gs h : owns (merged (owners objs gs)) h <-> h ∈ objs \/ owns (merged (map snd gs)) h.
Proof.
  rewrite !owns_merged. unfold owners. setoid_rewrite elem_of_cons. split.
  - intros (u & [->|Hu] & Ho); [left; by apply owns_objects|right; by exists u].
  - intros [Hh|(u & Hu & Ho)]; [exists (objects objs); split; [by left|by apply owns_objects]|exists u; by split; [right|]].
Qed.

Lemma owners_in objs (gs : pool) u : u ∈ owners objs gs -> u = objects objs \/ exists i p, gs !! i = Some (p, u).
Proof.
  unfold owners. rewrite elem_of_cons. intros [->|([p u'] & -> & Hin)%list_elem_of_fmap]; [by left|right].
  apply list_elem_of_lookup in Hin as [i Hi]. by exists i, p.
Qed.

(** Everyone else, as one owner. *)
Lemma sound_rest w objs gs i p s : shared w objs gs -> gs !! i = Some (p, s) ->
  sound w s (merged (owners objs (delete i gs))).
Proof.
  intros [Hl Ht Ha] Hi. destruct (Ht i p s Hi) as [_ So]. apply sound_merged; [by eapply sound_newcomer|].
  intros u [->|(j & q & Hj)]%owners_in; [done|].
  destruct (decide (j < i)%nat) as [D|D].
  - rewrite list_lookup_delete_lt in Hj by done. apply (Ha i j p q); [lia|done|done].
  - rewrite list_lookup_delete_ge in Hj by lia. apply (Ha i (S j) p q); [lia|done|done].
Qed.

Lemma sound_all w objs gs : shared w objs gs -> sound w newcomer (merged (owners objs gs)).
Proof.
  intros [Hl Ht Ha]. pose proof (sound_sym _ _ _ Hl) as Hl'.
  apply sound_merged; [by eapply sound_newcomer|]. intros u [->|(i & p & Hi)]%owners_in; [done|].
  destruct (Ht i p u Hi) as [_ So]. apply sound_sym. by eapply sound_newcomer.
Qed.

Lemma accounted_receive ch w s status w' s' t : receives ch w s status w' s' -> accounted w s t -> accounted w' s' t.
Proof.
  intros [op st k r Hin Hch Hop Hr] HA. set (s2 := apply_effect _ _ _).
  assert (accounted w s2 t) as [As Ab Aa Am Ao Ar]; [|by constructor].
  assert (Eb : o_bufs s2 = o_bufs s /\ o_opts s2 = o_opts s) by (by destruct k, (value_of r)).
  destruct Eb as [Eb Ep]. apply (accounted_owners w s t); [exact HA|..]; rewrite ?Eb, ?Ep; [|tauto..].
  intros h [[Ho|Ho]|Ho]; [left; apply owns_effect; left|left; apply owns_effect; by right|by right].
  cbn. apply lookup_insert_is_Some'. by right.
Qed.

Lemma accounted_local X (e : rtE X) x w s s' t : local e x -> r_pre s e -> r_post s e x s' ->
  accounted w s t -> accounted w s' t.
Proof.
  intros Hl Hpre Hpost HA. destruct (local_same X e x s s' Hl Hpre Hpost) as (s0 & Hs0 & E1 & E2 & E3 & E4 & E5).
  assert (Hs : (forall h, owns s h -> owns s0 h) /\ o_bufs s0 = o_bufs s /\ o_opts s0 = o_opts s).
  { destruct Hs0 as [->|(op & k & _ & ->)]; [done|]. split; [|done].
    intros h [Ho|Ho]; [left|by right]. cbn. apply lookup_insert_is_Some'. by right. }
  destruct Hs as (Ho & Eb & Ep). apply (accounted_owners w s t); [exact HA|..]; rewrite ?E4, ?E5, ?Eb, ?Ep; [|tauto..].
  intros h [H|H]; [left|by right]. apply Ho in H. unfold owns in *. by rewrite E1, E2, E3.
Qed.

Context (Hruntime : forall X (e : cE X) a, may_answer X e a -> runtime_starts e a).

Definition account_in (st : shim * gset Z * pool) : Prop := account st.1.1 st.1.2 st.2.

Lemma delete_insert_same {V} (i : nat) (v : V) (l : list V) : delete i (<[i := v]> l) = delete i l.
Proof.
  apply list_eq. intros j. rewrite !list_lookup_delete. by case_decide; rewrite list_lookup_insert_ne by lia.
Qed.

(** The handles of Go objects change with a goroutine's. *)
Lemma accounted_exchange w s s' objs objs' (gs : pool) :
  accounted w s (merged (owners objs gs)) ->
  (forall h, owns s h \/ h ∈ objs -> owns s' h \/ h ∈ objs') ->
  o_bufs s' = o_bufs s -> o_opts s' = o_opts s -> accounted w s' (merged (owners objs' gs)).
Proof.
  intros HA Ho Eb Ep. apply (accounted_owners w s (merged (owners objs gs))); [exact HA|..]; rewrite ?Eb, ?Ep.
  - intros h. rewrite !owns_owners. specialize (Ho h). tauto.
  - intros p. rewrite !bufs_merged. unfold owners. setoid_rewrite elem_of_cons. naive_solver.
  - intros p. rewrite !opts_merged. unfold owners. setoid_rewrite elem_of_cons. naive_solver.
Qed.

Lemma thread_step_account `{!CratesLaws} i l g l' g' gs : thread_step l g l' g' -> gs !! i = Some g ->
  shared_in (l, gs) -> account_in (l, gs) -> account_in (l', <[i := g']> gs).
Proof.
  intros Hstep Hi Hsh HA. destruct g as [p s]. destruct (sh_thread _ _ _ Hsh i p s Hi) as [Hwp So].
  destruct g' as [p' s']. unfold account_in in *. cbn [fst snd] in *.
  pose proof (sound_rest _ _ _ i p s Hsh Hi) as S. apply (account_split _ _ _ i p s Hi) in HA. cbn [fst snd] in *.
  apply (account_split _ _ _ i p' s').
  { rewrite list_lookup_insert_eq; [done|]. by eapply lookup_lt_Some. }
  rewrite delete_insert_same.
  remember (p, s) as g eqn:Eg. remember (p', s') as g' eqn:Eg'.
  destruct Hstep as [X e k a ptr x w w' objs s0 Hm L F R E|X e k x w objs s0 s1 Hl Hpost|ch k status w w' objs s0 s1 Hr
    |ch ctx k status w w' objs s0 s1 Hr|o v k h w objs s0 Hh Ho|o f k w objs s0];
    injection Eg as <- <-; injection Eg' as <- <-; destruct Hwp as [Hpre Hk]; cbn [fst snd] in *.
  - pose proof (call_balances X e a ptr w s0 _ S HA Hpre R ltac:(destruct F; lia) (Hruntime X e a Hm)) as Hd.
    unfold does in Hd. by rewrite E in Hd.
  - exact (accounted_local X e x w s0 s1 _ Hl Hpre Hpost HA).
  - by eapply accounted_receive.
  - by eapply accounted_receive.
  - eapply accounted_exchange; [exact HA| |done|done]. intros h' [[?|[?|?]]|Hh'].
    + left. by left.
    + left. by right; left.
    + left. right; right. cbn. set_solver.
    + destruct (decide (h' = h)) as [->|Hne]; [left; right; right; cbn; set_solver|right; set_solver].
  - eapply accounted_exchange; [exact HA| |done|done]. intros h' [Ho|Hh']; [|right; set_solver].
    destruct (decide (h' = freed_handle f)) as [->|Hne]; [right; set_solver|left; by apply owns_drop_handle].
Qed.

Lemma pool_step_account `{!CratesLaws} st st' : pool_step st st' -> shared_in st -> account_in st -> account_in st'.
Proof.
  intros [i g g' l l' gs Hi Hstep|w w' objs gs Hlib] Hsh HA; [by eapply thread_step_account|].
  pose proof (sound_all _ _ _ Hsh) as S. unfold account_in, account in *. cbn [fst snd] in *.
  destruct Hlib as [id a w _ HR|id w|id w|id w].
  - by apply task_runs_accounted.
  - by apply task_stops_accounted.
  - apply supervisor_posts_accounted; [apply S|done].
  - apply supervisor_ends_accounted; [apply S|done].
Qed.

(** Goroutines that have only loaded the library. *)
Lemma shared_start (ps : list (go A)) : (forall i p, ps !! i = Some p -> wp newcomer p (Q i)) ->
  shared_in (shim_start, ∅, map (fun p => (p, newcomer)) ps).
Proof.
  intros Hwp. assert (forall i p s, map (fun p => (p, newcomer)) ps !! i = Some (p, s) -> ps !! i = Some p /\ s = newcomer) as Hin.
  { intros i p s. rewrite list_lookup_fmap. destruct (ps !! i); [by intros [= <- <-]|done]. }
  constructor; cbn [fst snd].
  - exact sound_start.
  - intros i p s [Hi ->]%Hin. split; [by apply Hwp|exact sound_start].
  - intros i j p q s t _ [_ ->]%Hin [_ ->]%Hin. exact sound_start.
Qed.

(** ** Properties *)

(** C8. Goroutines share the native library safely.  Start any number of
    goroutines, each with a program that keeps its side of the ABI and with
    nothing owned in common; let them, and the library's tasks and supervisors,
    take steps in any order.  Then no goroutine ever panics, deadlocks in the
    library or touches what another owns; each that has ended has ended as its
    specification says; and each of the others can go on at once, or waits for an
    operation that the library itself can move. *)
Theorem goroutines_share_the_library `{!CratesLaws} (st st' : shim * gset Z * pool) :
  shared_in st -> rtc pool_step st st' -> room 2 st'.1.1 ->
  (forall i p s, st'.2 !! i = Some (p, s) ->
     (exists a, p = Ret a /\ Q i a s) \/ goes_on st'.1 p s \/ exists ch, waits_on ch p /\ in_flight st'.1.1 s ch) /\
  (forall i j p q s t, i <> j -> st'.2 !! i = Some (p, s) -> st'.2 !! j = Some (q, t) -> apart s t).
Proof.
  intros Hsh Hsteps HR. assert (shared_in st') as Hsh'.
  { clear HR. induction Hsteps as [st|st1 st2 st3 H1 _ IH]; [done|]. apply IH. by eapply shared_step. }
  destruct st' as [[w objs] gs]. cbn [fst snd] in *. split.
  - intros i p s Hi. by apply (thread_progress w objs gs).
  - intros i j p q s t Hne Hi Hj. by destruct (sh_apart _ _ _ Hsh' i j p q s t Hne Hi Hj) as (_ & _ & _ & ?).
Qed.

(** What is in the tables when no goroutine has an operation open. *)
Definition tables_owned (w : shim) (objs : gset Z) (gs : pool) : Prop :=
  (forall h v, slots w !! h = Some v ->
     h ∈ objs \/ (exists i p s, gs !! i = Some (p, s) /\ (h ∈ o_errs s \/ h ∈ o_handles s)) \/ unreadable v) /\
  (forall ptr, is_Some (mem w !! ptr) -> exists i p s, gs !! i = Some (p, s) /\ is_Some (o_bufs s !! ptr)) /\
  (forall id, is_Some (arcs w !! id) -> tasks w !! id = Some TPosted).

Lemma account_tables w objs gs : shared w objs gs -> account w objs gs ->
  (forall i p s, gs !! i = Some (p, s) -> o_ops s = ∅) -> tables_owned w objs gs.
Proof.
  intros Hsh HA Hops. pose proof (sound_all _ _ _ Hsh) as S.
  assert (o_ops (merged (owners objs gs)) = ∅) as Hm.
  { assert (forall l, (forall u, u ∈ l -> o_ops u = ∅) -> o_ops (merged l) = ∅) as H.
    { induction l as [|u l IH]; intros H; [done|]. cbn. fold (merged l).
      rewrite (H u), IH; [by apply map_empty_union|intros; apply H; by right|by left]. }
    apply H. intros u [->|(i & p & Hi)]%owners_in; [done|by eapply Hops]. }
  destruct (accounted_idle w _ _ S HA eq_refl Hm) as [Hs Ha]. split; [|split; [|exact Ha]].
  - intros h v Hv. destruct (Hs h v Hv) as [?%owns_newcomer|[Ho|?]]; [done| |by right; right].
    apply owns_merged in Ho as (u & [->|(i & p & Hi)]%owners_in & Ho); [left; by apply owns_objects|].
    right; left. exists i, p, u. split; [done|]. destruct Ho as [[st Ho]|?]; [|done].
    by rewrite (Hops i p u Hi), lookup_empty in Ho.
  - intros ptr Hp. destruct (a_buf _ _ _ HA ptr Hp) as [[n Hn]|Hb]; [cbn in Hn; by rewrite lookup_empty in Hn|].
    apply bufs_merged in Hb as (u & [->|(i & p & Hi)]%owners_in & Hb); [|by exists i, p, u].
    cbn in Hb. rewrite lookup_empty in Hb. by destruct Hb.
Qed.

(** C9. Goroutines sharing the library lose nothing.  Let any number of
    goroutines, each keeping its side of the ABI, and the library's tasks take
    steps in any order from a state where the account balances, the runtime
    starting whenever an operation asks for it.  The account balances in every
    state they reach.  Once no goroutine has an operation open, every handle in the
    library's table is that of a Go object alive or in the hands of one of the
    goroutines (but for errors too long to be collected), every buffer is one a
    goroutine must still free, and of the operations only those are left whose
    supervisor is about to go. *)
Theorem pool_loses_nothing `{!CratesLaws} (st st' : shim * gset Z * pool) :
  shared_in st -> account_in st -> rtc pool_step st st' ->
  account_in st' /\
  ((forall i p s, st'.2 !! i = Some (p, s) -> o_ops s = ∅) -> tables_owned st'.1.1 st'.1.2 st'.2).
Proof.
  intros Hsh HA Hsteps. assert (shared_in st' /\ account_in st') as [Hsh' HA'].
  { induction Hsteps as [st|st1 st2 st3 H1 _ IH]; [done|].
    apply IH; [by eapply shared_step|by eapply pool_step_account]. }
  split; [done|]. by apply account_tables.
Qed.

End Threads.

(** Two goroutines bind an endpoint each; both have come past [Load]. *)
Abbreviation binders := (list (go (option Endpoint * error) * owned)).
Definition two_goroutines : binders := [(small_bind, newcomer); (small_bind, newcomer)].
Definition makes_endpoint (i : nat) (a : option Endpoint * error) (s : owned) : Prop :=
  makes_object newcomer ep_obj a.1 a.2 s.
Definition starting X (e : cE X) (a : says) : Prop := runtime_starts e a.

Lemma small_bind_wp : wp newcomer small_bind (makes_endpoint 0).
Proof.
  eapply wp_mono; [exact (Bind_spec newcomer background small_options small_options_ok)|]. by intros [r err] s' H.
Qed.

Lemma two_goroutines_shared : shared_in makes_endpoint (shim_start, ∅, two_goroutines).
Proof.
  apply (shared_start makes_endpoint [small_bind; small_bind]). intros [|[|i]] p; intros [= <-]; exact small_bind_wp.
Qed.

Lemma two_goroutines_account : account_in (shim_start, ∅, two_goroutines).
Proof.
  apply (accounted_owners shim_start newcomer newcomer); [exact start_accounted|tauto|tauto|].
  intros h [?|H]; [by left|]. apply opts_merged in H as (u & [->|([|[|i]] & p & Hi)]%owners_in & H); [by left| | |done];
    injection Hi as _ <-; by left.
Qed.

Lemma load_step (gs : binders) (i : nat) : gs !! i = Some (small_bind, newcomer) ->
  exists k : error -> go (option Endpoint * error),
    pool_step starting (shim_start, ∅, gs) (shim_start, ∅, <[i := (k None, newcomer)]> gs).
Proof.
  intros Hi. assert (exists k, small_bind = Vis (R RLoad) k) as [k Ek] by (eexists; reflexivity).
  exists k. rewrite Ek in Hi. eapply PThread; [exact Hi|]. by apply (TLocal _ _ RLoad k None).
Qed.

Lemma both_load : exists gs : binders, rtc (pool_step starting) (shim_start, ∅, two_goroutines) (shim_start, ∅, gs) /\
  length gs = 2%nat /\ forall i p s, gs !! i = Some (p, s) -> s = newcomer.
Proof.
  destruct (load_step two_goroutines 0 eq_refl) as [k1 S1].
  destruct (load_step (<[0%nat := (k1 None, newcomer)]> two_goroutines) 1) as [k2 S2]; [by rewrite list_lookup_insert_ne|].
  exists [(k1 None, newcomer); (k2 None, newcomer)]. split; [|split; [done|]].
  - eapply rtc_l; [exact S1|]. eapply rtc_l; [exact S2|]. apply rtc_refl.
  - intros [|[|i]] p s; by intros [= _ <-].
Qed.

Example goroutines_share_the_library_witness :
  exists gs : binders, rtc (pool_step starting) (shim_start, ∅, two_goroutines) (shim_start, ∅, gs) /\ length gs = 2%nat /\
  (forall i p s, gs !! i = Some (p, s) ->
     (exists a, p = Ret a /\ makes_endpoint i a s) \/ goes_on starting (shim_start, ∅) p s \/
     exists ch, waits_on ch p /\ in_flight shim_start s ch) /\
  (forall i j p q s t, i <> j -> gs !! i = Some (p, s) -> gs !! j = Some (q, t) -> apart s t).
Proof.
  destruct both_load as (gs & Hsteps & Hlen & _). exists gs. split; [exact Hsteps|]. split; [exact Hlen|].
  apply (goroutines_share_the_library starting makes_endpoint _ _ two_goroutines_shared Hsteps). reflexivity.
Defined.

Example pool_loses_nothing_witness :
  exists gs : binders, rtc (pool_step starting) (shim_start, ∅, two_goroutines) (shim_start, ∅, gs) /\ length gs = 2%nat /\
  account_in (shim_start, ∅, gs) /\ tables_owned shim_start ∅ gs.
Proof.
  destruct both_load as (gs & Hsteps & Hlen & Hnew). exists gs. split; [exact Hsteps|]. split; [exact Hlen|].
  destruct (pool_loses_nothing starting makes_endpoint (fun X e a H => H) _ _ two_goroutines_shared
    two_goroutines_account Hsteps) as [HA HT].
  split; [exact HA|]. apply HT. intros i p s Hi. by rewrite (Hnew i p s Hi).
Defined.
