(* ===== verification/ShimOptions.v ===== *)
(** What [Bind] is told reaches the iroh builder.

    Go replays its [Options] on the native library's options object
    ([applyOptions]), which collects them ([Opts]) and turns them into a builder
    when the endpoint is bound ([into_builder]).  Both sides number presets and
    relay modes in their own way. *)
From S2P Require Import Prelude GoErrors Prog Abi Contract Reference Pump Calls GoStrings Keys Netip Addr Handle Deadline Streams Conn Endpoint.
From S2P Require Import Registry RustAddr Shim ShimInv ShimRefines ShimIds ShimRuns.
Local Open Scope Z_scope.
Local Open Scope go_scope.

Section Options.
Context {iroh : Iroh} {crates : IrohCrates} {netip : NetIP}.
Context (answer : forall X, cE X -> shim -> says) (answer_task : Z -> shim -> says) (stops : Z -> shim -> bool).

Abbreviation run_go p W := (run (shim_handler answer answer_task stops) p W).

(** ** What arrives *)

Definition text_ok {A} (parse : bytes -> A + bytes) (text : bytes) : option A :=
  match str_arg text with
  | inl text => match parse text with inl a => Some a | inr _ => None end
  | inr _ => None
  end.

(** The options the library takes: everything in them is well formed. *)
Definition acceptable (opts : Options) : Prop :=
  (forall key, OptSecretKey opts = Some key -> length key = SecretKeySize) /\
  Forall (fun alpn => alpn <> []) (OptALPNs opts) /\
  (OptRelayMode opts <> RelayFromPreset ->
     Forall (fun url => is_Some (text_ok parse_url url)) (OptRelayURLs opts) /\
     exists mode, relay_mode (OptRelayMode opts) = inl mode) /\
  Forall (fun a => is_Some (text_ok parse_sock (AddrPort_String a))) (OptBindAddrs opts).

(** The options object they make. *)
Definition arrived (p : Z) (opts : Options) : Opts :=
  mkOpts p (OptSecretKey opts) (OptALPNs opts)
    (if OptRelayMode opts =? RelayFromPreset then None
     else match relay_mode (OptRelayMode opts) with inl mode => Some mode | inr _ => None end)
    (if OptRelayMode opts =? RelayFromPreset then [] else omap (text_ok parse_url) (OptRelayURLs opts))
    (omap (fun a => text_ok parse_sock (AddrPort_String a)) (OptBindAddrs opts)).

(** The builder they configure, in the words of the Go package. *)
Definition preset_named (p : Z) (b : Z) : Prop :=
  (p = PresetN0 /\ b = PRESET_N0) \/ (p = PresetN0NoRelay /\ b = PRESET_N0_DISABLE_RELAY) \/
  (p = PresetMinimal /\ b = PRESET_MINIMAL) \/ (p = PresetEmpty /\ b = PRESET_EMPTY).

Definition mode_named (opts : Options) (b : option RelayMode) : Prop :=
  (OptRelayMode opts = RelayFromPreset /\ b = None) \/
  (OptRelayMode opts = RelayDefault /\ b = Some RDefault) \/
  (OptRelayMode opts = RelayDisabled /\ b = Some RDisabled) \/
  (OptRelayMode opts = RelayStaging /\ b = Some RStaging) \/
  (OptRelayMode opts = RelayCustom /\ exists urls, b = Some (RCustom urls) /\
     map Some urls = map (text_ok parse_url) (OptRelayURLs opts)).

(** An empty list leaves the preset's. *)
Definition list_named {A} (l : list A) (b : option (list A)) : Prop :=
  (l = [] /\ b = None) \/ (l <> [] /\ b = Some l).

Definition configures (opts : Options) (b : Builder) : Prop :=
  preset_named (OptPreset opts) (b_preset b) /\
  b_secret_key b = OptSecretKey opts /\
  list_named (OptALPNs opts) (b_alpns b) /\
  mode_named opts (b_relay_mode b) /\
  list_named (omap (fun a => text_ok parse_sock (AddrPort_String a)) (OptBindAddrs opts)) (b_bind_addrs b).

(** ** Lemmas: one call *)

(** What an option call changes, if the library takes it. *)
Definition option_effect (f : unitcall) : option (Opts -> Opts) :=
  match f with
  | optionsSetSecretKey _ key =>
      if decide (length key = SecretKeySize) then
        Some (fun o => mkOpts (preset o) (Some key) (alpns o) (relay_mode_set o) (relay_urls o) (bind_addrs o))
      else None
  | optionsAddALPN _ alpn =>
      if decide (alpn = []) then None
      else Some (fun o => mkOpts (preset o) (secret_key_set o) (alpns o ++ [alpn]) (relay_mode_set o) (relay_urls o) (bind_addrs o))
  | optionsSetRelayMode _ mode =>
      Some (fun o => mkOpts (preset o) (secret_key_set o) (alpns o) (Some mode) (relay_urls o) (bind_addrs o))
  | optionsAddRelayURL _ url =>
      u ← text_ok parse_url url;
      Some (fun o => mkOpts (preset o) (secret_key_set o) (alpns o) (relay_mode_set o) (relay_urls o ++ [u]) (bind_addrs o))
  | optionsAddBindAddr _ addr =>
      a ← text_ok parse_sock addr;
      Some (fun o => mkOpts (preset o) (secret_key_set o) (alpns o) (relay_mode_set o) (relay_urls o) (bind_addrs o ++ [a]))
  | _ => None
  end.

Definition option_handle (f : unitcall) : option Z :=
  match f with
  | optionsSetSecretKey h _ | optionsAddALPN h _ | optionsSetRelayMode h _ | optionsAddRelayURL h _
  | optionsAddBindAddr h _ => Some h
  | _ => None
  end.

Lemma unit_call_effect f h o a w : winv w -> slots w !! h = Some (SOpts o) -> option_handle f = Some h ->
  match option_effect f with
  | Some g => unit_call f a w = (Done (FFI_OK, tt, 0), set_reg (t_publish h (SOpts (g o)) (reg w)) w)
  | None => match unit_call f a w with (Done (rc, _, _), _) => rc = FFI_ERR | _ => False end
  end.
Proof.
  intros W Hh Hf.
  assert (Hget : get_opts h w = (Done (inl o), w)).
  { unfold get_opts, get, lift. by rewrite (get_slot_live as_opts h w (SOpts o) o). }
  destruct f; cbn in Hf; try done; injection Hf as ->; cbn [unit_call option_effect];
    unfold iroh_options_set_secret_key, iroh_options_add_alpn, iroh_options_set_relay_mode,
      iroh_options_add_relay_url, iroh_options_add_bind_addr, text_ok.
  - case_decide; [|done]. unfold ffi_guard, mbind, M_bind. by rewrite Hget.
  - case_decide; [done|]. unfold ffi_guard, mbind, M_bind. by rewrite Hget.
  - unfold ffi_guard, mbind, M_bind. by rewrite Hget.
  - destruct (str_arg url) as [u|e]; [|done]. cbn [ffi_try].
    destruct (parse_url u) as [x|e]; [|done]. cbn [ffi_try mbind option_bind].
    unfold ffi_guard, mbind, M_bind. by rewrite Hget.
  - destruct (str_arg addr) as [u|e]; [|done]. cbn [ffi_try].
    destruct (parse_sock u) as [x|e]; [|done]. cbn [ffi_try mbind option_bind].
    unfold ffi_guard, mbind, M_bind. by rewrite Hget.
Qed.

Lemma run_takeError e W : exists err W', run_go (takeError e) W = (Some err, W').
Proof.
  unfold takeError. destruct (e =? 0); [by eexists _, _|]. cbn [run call trigger mbind prog_bind bind shim_handler].
  destruct (handler_c _ (errorTake e) W) as [[kind msg] W1]. unfold takeBytes.
  destruct ((buf_ptr msg =? 0) || (buf_len msg =? 0)); [by eexists _, _|].
  cbn. destruct (handler_c _ (freeBytes _ _) W1) as [[] W2]. by eexists _, _.
Qed.

Lemma run_option f h o W s t : sound (rw_lib W) s t -> slots (rw_lib W) !! h = Some (SOpts o) ->
  option_handle f = Some h ->
  exists err W', run_go (unit_sync f) W = (Some err, W') /\
    match option_effect f with
    | Some g => err = None /\ sound (rw_lib W') s t /\ next_handle (rw_lib W') = next_handle (rw_lib W) /\
        slots (rw_lib W') !! h = Some (SOpts (g o))
    | None => err <> None
    end.
Proof.
  intros HS Hh Hf. pose proof (unit_call_effect f h o (answer _ (CUnit f) (rw_lib W)) _ (proj1 HS) Hh Hf) as He.
  unfold unit_sync. rewrite run_bind. cbn [run call trigger shim_handler]. unfold handler_c. cbn [shim_call].
  destruct (option_effect f) as [g|].
  - rewrite He. cbn. eexists _, _. split; [done|]. split; [done|]. cbn.
    split; [by apply (sound_change_opts h o)|]. split; [done|].
    change (all_slots (t_publish h (SOpts (g o)) (reg (rw_lib W))) !! h = Some (SOpts (g o))).
    rewrite (proj2 (slots_publish _ _ _ (w_sharded _ (proj1 HS)))). apply lookup_insert_eq.
  - destruct (unit_call f _ (rw_lib W)) as [[[[rc []] errh]| |] w']; [|done|done]. subst rc.
    unfold rcError. change (negb (FFI_ERR =? 0)) with true. cbv iota. rewrite run_bind.
    match goal with |- context [run _ (takeError errh) ?W1] => destruct (run_takeError errh W1) as (err & W' & ->) end.
    by eexists _, _.
Qed.

(** ** Lemmas: all of them *)

(** [p] makes the options object into what [g] makes of it when [ok], and
    reports an error when not. *)
Definition puts (h : Z) (p : go error) (ok : Prop) (g : Opts -> Opts) : Prop :=
  forall W o s t, sound (rw_lib W) s t -> slots (rw_lib W) !! h = Some (SOpts o) ->
  exists err W', run_go p W = (Some err, W') /\ (err = None <-> ok) /\
    (err = None -> sound (rw_lib W') s t /\ next_handle (rw_lib W') = next_handle (rw_lib W) /\
       slots (rw_lib W') !! h = Some (SOpts (g o))).

Lemma puts_done h : puts h (Ret None) True (fun o => o).
Proof. intros W o s t S Hh. by exists None, W. Qed.

Lemma puts_error h e : puts h (Ret (Some e)) False (fun o => o).
Proof. intros W o s t S Hh. by exists (Some e), W. Qed.

Lemma puts_iff h p ok ok' g g' : puts h p ok g -> (ok <-> ok') -> (ok -> forall o, g o = g' o) -> puts h p ok' g'.
Proof.
  intros Hp Hok Hg W o s t S Hh. destruct (Hp W o s t S Hh) as (err & W' & E & Hi & Hs).
  exists err, W'. split; [exact E|]. split; [by rewrite Hi|]. intros He. rewrite <-Hg by by apply Hi. by apply Hs.
Qed.

Lemma puts_try h f q ok g : option_handle f = Some h -> puts h q ok g ->
  puts h (try_ (unit_sync f) q) (is_Some (option_effect f) /\ ok)
    (fun o => g (match option_effect f with Some e => e o | None => o end)).
Proof.
  intros Hf Hq W o s t S Hh. destruct (run_option f h o W s t S Hh Hf) as (err & W1 & E & H).
  unfold try_. rewrite run_bind, E. destruct (option_effect f) as [e|].
  - destruct H as (-> & S1 & Hn & Hh1). destruct (Hq W1 (e o) s t S1 Hh1) as (err & W' & Eq & Hi & Hs).
    exists err, W'. split; [exact Eq|]. split; [rewrite Hi; split; [by split; [eexists|]|by intros [_ ?]]|].
    rewrite <-Hn. exact Hs.
  - destruct err as [x|]; [|done]. exists (Some x), W1. split; [done|].
    split; [|done]. split; [done|]. by intros [[? ?] _].
Qed.

Lemma puts_each {A} h (l : list A) (f : A -> unitcall) q ok g :
  (forall x, option_handle (f x) = Some h) -> puts h q ok g ->
  puts h (try_each l (fun x => unit_sync (f x)) q)
    (Forall (fun x => is_Some (option_effect (f x))) l /\ ok)
    (fun o => g (foldl (fun o x => match option_effect (f x) with Some e => e o | None => o end) o l)).
Proof.
  intros Hf Hq. induction l as [|x l IH]; cbn [try_each foldl].
  - eapply puts_iff; [exact Hq| |done]. split; [by split|by intros [_ ?]].
  - eapply puts_iff; [by apply puts_try, IH| |done]. rewrite list.Forall_cons. tauto.
Qed.

(** What the lists of calls come to. *)
Lemma fold_alpns l : Forall (fun alpn => alpn <> []) l -> forall h o,
  foldl (fun o x => match option_effect (optionsAddALPN h x) with Some e => e o | None => o end) o l =
  mkOpts (preset o) (secret_key_set o) (alpns o ++ l) (relay_mode_set o) (relay_urls o) (bind_addrs o).
Proof.
  induction 1 as [|x l Hx _ IH]; intros h o; cbn [foldl]; [rewrite app_nil_r; by destruct o|].
  rewrite IH. cbn [option_effect]. rewrite decide_False by done. cbn. by rewrite <-app_assoc.
Qed.

Lemma fold_urls l : Forall (fun url => is_Some (text_ok parse_url url)) l -> forall h o,
  foldl (fun o x => match option_effect (optionsAddRelayURL h x) with Some e => e o | None => o end) o l =
  mkOpts (preset o) (secret_key_set o) (alpns o) (relay_mode_set o) (relay_urls o ++ omap (text_ok parse_url) l) (bind_addrs o).
Proof.
  induction 1 as [|x l [u Hx] _ IH]; intros h o; cbn [foldl omap list_omap]; [rewrite app_nil_r; by destruct o|].
  rewrite IH. cbn [option_effect]. rewrite Hx. cbn. by rewrite <-app_assoc.
Qed.

Lemma fold_addrs l : Forall (fun a => is_Some (text_ok parse_sock (AddrPort_String a))) l -> forall h o,
  foldl (fun o x => match option_effect (optionsAddBindAddr h (AddrPort_String x)) with Some e => e o | None => o end) o l =
  mkOpts (preset o) (secret_key_set o) (alpns o) (relay_mode_set o) (relay_urls o)
    (bind_addrs o ++ omap (fun a => text_ok parse_sock (AddrPort_String a)) l).
Proof.
  induction 1 as [|x l [u Hx] _ IH]; intros h o; cbn [foldl omap list_omap]; [rewrite app_nil_r; by destruct o|].
  rewrite IH. cbn [option_effect]. rewrite Hx. cbn. by rewrite <-app_assoc.
Qed.

Definition put_addrs (opts : Options) (o : Opts) : Opts :=
  mkOpts (preset o) (secret_key_set o) (alpns o) (relay_mode_set o) (relay_urls o)
    (bind_addrs o ++ omap (fun a => text_ok parse_sock (AddrPort_String a)) (OptBindAddrs opts)).
Definition put_alpns (opts : Options) (o : Opts) : Opts :=
  mkOpts (preset o) (secret_key_set o) (alpns o ++ OptALPNs opts) (relay_mode_set o) (relay_urls o) (bind_addrs o).
Definition put_relays (opts : Options) (mode : Z) (o : Opts) : Opts :=
  mkOpts (preset o) (secret_key_set o) (alpns o) (Some mode)
    (relay_urls o ++ omap (text_ok parse_url) (OptRelayURLs opts)) (bind_addrs o).
Definition put_key (opts : Options) (o : Opts) : Opts :=
  mkOpts (preset o) (match OptSecretKey opts with Some key => Some key | None => secret_key_set o end)
    (alpns o) (relay_mode_set o) (relay_urls o) (bind_addrs o).

Definition addrs_ok (opts : Options) : Prop :=
  Forall (fun a => is_Some (text_ok parse_sock (AddrPort_String a))) (OptBindAddrs opts).
Definition urls_ok (opts : Options) : Prop := Forall (fun url => is_Some (text_ok parse_url url)) (OptRelayURLs opts).
Definition alpns_ok (opts : Options) : Prop := Forall (fun alpn => alpn <> []) (OptALPNs opts).
Definition key_ok (opts : Options) : Prop :=
  forall key, OptSecretKey opts = Some key -> length key = SecretKeySize.

Lemma bind_some_iff {A B} (m : option A) (f : A -> B) : is_Some (x ← m; Some (f x)) <-> is_Some m.
Proof. destruct m as [x|]; cbn; split; intros [y Hy]; try done; by eexists. Qed.

Lemma puts_addrs h opts :
  puts h (try_each (OptBindAddrs opts) (fun a => OptionsAddBindAddr h (AddrPort_String a)) (Ret None))
    (addrs_ok opts) (put_addrs opts).
Proof.
  assert (Hiff : forall a, is_Some (option_effect (optionsAddBindAddr h (AddrPort_String a))) <->
    is_Some (text_ok parse_sock (AddrPort_String a))) by (intros a; apply bind_some_iff).
  eapply puts_iff; [apply (puts_each h _ (fun a => optionsAddBindAddr h (AddrPort_String a))); [done|apply puts_done]| |].
  - unfold addrs_ok. rewrite !list.Forall_forall. naive_solver.
  - intros [H _] o. apply fold_addrs. eapply Forall_impl; [|exact H]. intros a. apply Hiff.
Qed.

Lemma puts_alpns h opts q ok g : puts h q ok g ->
  puts h (try_each (OptALPNs opts) (OptionsAddALPN h) q) (alpns_ok opts /\ ok) (fun o => g (put_alpns opts o)).
Proof.
  intros Hq. assert (Hiff : forall x, is_Some (option_effect (optionsAddALPN h x)) <-> x <> []).
  { intros x. cbn. case_decide; split; [by intros [? ?]|done|done|by eexists]. }
  eapply puts_iff; [by apply (puts_each h _ (optionsAddALPN h))| |].
  - unfold alpns_ok. rewrite !list.Forall_forall. naive_solver.
  - intros [H _] o. cbv beta. rewrite fold_alpns; [done|]. eapply Forall_impl; [|exact H]. intros a. apply Hiff.
Qed.

Lemma puts_relays h opts mode q ok g : puts h q ok g ->
  puts h (try_each (OptRelayURLs opts) (OptionsAddRelayURL h) (try_ (OptionsSetRelayMode h mode) q))
    (urls_ok opts /\ ok) (fun o => g (put_relays opts mode o)).
Proof.
  intros Hq. assert (Hiff : forall x, is_Some (option_effect (optionsAddRelayURL h x)) <-> is_Some (text_ok parse_url x))
    by (intros x; apply bind_some_iff).
  eapply puts_iff.
  { apply (puts_each h _ (optionsAddRelayURL h)); [done|]. by apply (puts_try h (optionsSetRelayMode h mode)). }
  - unfold urls_ok. rewrite !list.Forall_forall. cbn [option_effect]. naive_solver.
  - intros [H _] o. cbv beta. rewrite fold_urls; [done|]. eapply Forall_impl; [|exact H]. intros a. apply Hiff.
Qed.

Lemma puts_key h opts q ok g : puts h q ok g ->
  puts h (match OptSecretKey opts with Some key => try_ (OptionsSetSecretKey h key) q | None => q end)
    (key_ok opts /\ ok) (fun o => g (put_key opts o)).
Proof.
  intros Hq. unfold key_ok, put_key. destruct (OptSecretKey opts) as [key|].
  - eapply puts_iff; [by apply (puts_try h (optionsSetSecretKey h key))| |].
    + cbn [option_effect]. case_decide as D; split.
      * intros [_ H]. split; [by intros k [= <-]|done].
      * intros [_ H]. split; [by eexists|done].
      * by intros [[? ?] _].
      * intros [H _]. by destruct D; apply H.
    + cbn [option_effect]. case_decide as D; [done|]. by intros [[? ?] _].
  - eapply puts_iff; [exact Hq| |by intros _ []]. split; [by split|by intros [_ ?]].
Qed.

Lemma applyOptions_puts h opts : puts h (applyOptions h opts) (acceptable opts) (fun o =>
  put_addrs opts
    (match relay_mode (OptRelayMode opts) with
     | inl mode => fun o => if OptRelayMode opts =? RelayFromPreset then o else put_relays opts mode o
     | inr _ => fun o => o
     end (put_alpns opts (put_key opts o)))).
Proof.
  unfold applyOptions, acceptable. fold (key_ok opts) (alpns_ok opts) (urls_ok opts) (addrs_ok opts).
  destruct (Z.eqb_spec (OptRelayMode opts) RelayFromPreset) as [E|E]; cbn [negb].
  - eapply puts_iff; [by apply puts_key, puts_alpns, puts_addrs| |].
    + tauto.
    + intros _ o. by destruct (relay_mode (OptRelayMode opts)).
  - destruct (relay_mode (OptRelayMode opts)) as [mode|e].
    + eapply puts_iff; [by apply puts_key, puts_alpns, puts_relays, puts_addrs| |done].
      split; [intros (? & ? & ? & ?); do 2 (split; [done|]); split; [split; [done|by eexists]|done]|]. intros (? & ? & H & ?). by destruct (H E).
    + eapply puts_iff; [by apply puts_key, puts_alpns, (puts_error h e)| |by intros (_ & _ & [])].
      split; [by intros (_ & _ & [])|]. intros (_ & _ & H & _). destruct (H E) as [_ [m Hm]]. done.
Qed.

Lemma bind_all_spec l : forall taken,
  match bind_all taken l with inl r => r = taken ++ l | inr e => e_kind e = EBind end.
Proof.
  induction l as [|a l IH]; intros taken; cbn [bind_all]; [by rewrite app_nil_r|].
  destruct (bind_addr_error taken a); [done|]. specialize (IH (taken ++ [a])).
  destruct (bind_all (taken ++ [a]) l); [by rewrite <-app_assoc in IH|done].
Qed.

Lemma omap_some {A B} (f : A -> option B) l : Forall (fun x => is_Some (f x)) l -> map Some (omap f l) = map f l.
Proof. induction 1 as [|x l [y Hx] _ IH]; cbn; [done|]. rewrite Hx. cbn. by rewrite IH. Qed.

(** The modes, from Go's numbers to the builder's. *)
Lemma mode_arrives opts : acceptable opts ->
  exists b, match relay_mode_set (arrived 0 opts) with
            | None => inl None
            | Some mode => match builder_mode mode (relay_urls (arrived 0 opts)) with inl m => inl (Some m) | inr e => inr e end
            end = (inl b : result (option RelayMode)) /\ mode_named opts b.
Proof.
  intros (_ & _ & Hm & _). unfold arrived. cbn. unfold mode_named.
  destruct (Z.eqb_spec (OptRelayMode opts) RelayFromPreset) as [E|E]; [exists None; by split; [|left]|].
  destruct (Hm E) as [Hu [mode Hmode]]. rewrite Hmode. unfold relay_mode in Hmode.
  destruct (Z.eqb_spec (OptRelayMode opts) RelayDefault) as [E1|_]; [injection Hmode as <-; exists (Some RDefault); split; [done|tauto]|].
  destruct (Z.eqb_spec (OptRelayMode opts) RelayDisabled) as [E1|_]; [injection Hmode as <-; exists (Some RDisabled); split; [done|tauto]|].
  destruct (Z.eqb_spec (OptRelayMode opts) RelayStaging) as [E1|_]; [injection Hmode as <-; exists (Some RStaging); split; [done|tauto]|].
  destruct (Z.eqb_spec (OptRelayMode opts) RelayCustom) as [E1|_]; [|done]. injection Hmode as <-.
  exists (Some (RCustom (omap (text_ok parse_url) (OptRelayURLs opts)))). split; [done|].
  do 4 right. split; [done|]. eexists. split; [done|]. by apply omap_some.
Qed.

Lemma preset_arrives opts p : Preset_ffi (OptPreset opts) = (p, None) ->
  preset_named (OptPreset opts) p /\
  negb ((p =? PRESET_EMPTY) || (p =? PRESET_MINIMAL) || (p =? PRESET_N0_DISABLE_RELAY) || (p =? PRESET_N0)) = false.
Proof.
  unfold Preset_ffi, preset_named.
  destruct (Z.eqb_spec (OptPreset opts) PresetN0) as [E|_]; [intros [= <-]; split; [tauto|done]|].
  destruct (Z.eqb_spec (OptPreset opts) PresetN0NoRelay) as [E|_]; [intros [= <-]; split; [tauto|done]|].
  destruct (Z.eqb_spec (OptPreset opts) PresetMinimal) as [E|_]; [intros [= <-]; split; [tauto|done]|].
  destruct (Z.eqb_spec (OptPreset opts) PresetEmpty) as [E|_]; [intros [= <-]; split; [tauto|done]|done].
Qed.

Lemma builder_arrives opts p : Preset_ffi (OptPreset opts) = (p, None) -> acceptable opts ->
  match into_builder (arrived p opts) with inl b => configures opts b | inr e => e_kind e = EBind end.
Proof.
  intros Hp Hok. destruct (preset_arrives opts p Hp) as [Hn Hk]. destruct (mode_arrives opts Hok) as (m & Em & Hm).
  unfold into_builder. cbn [preset arrived]. rewrite Hk.
  change (relay_mode_set (arrived p opts)) with (relay_mode_set (arrived 0 opts)).
  change (relay_urls (arrived p opts)) with (relay_urls (arrived 0 opts)). rewrite Em. unfold arrived. cbn.
  assert (Hal : list_named (OptALPNs opts) (if decide (OptALPNs opts = []) then None else Some (OptALPNs opts))).
  { case_decide; [by left|by right]. }
  unfold configures.
  destruct (decide (omap _ (OptBindAddrs opts) = [])) as [Ha|Ha]; [split; [exact Hn|]; split; [done|]; split; [exact Hal|]; split; [exact Hm|by left]|].
  pose proof (bind_all_spec (omap (fun a => text_ok parse_sock (AddrPort_String a)) (OptBindAddrs opts)) []) as Hb.
  destruct (bind_all [] _) as [r|e]; [|exact Hb]. cbn in Hb. subst r.
  split; [exact Hn|]; split; [done|]; split; [exact Hal|]; split; [exact Hm|by right].
Qed.

Lemma bind_spawns h o w : winv w -> room 1 w -> slots w !! h = Some (SOpts o) ->
  exists op w', iroh_endpoint_bind h SaysOk w = (Done op, w') /\ tasks w' !! op = Some (TRunning (FBind o)).
Proof.
  intros W R Hh. destruct (remove_slot_spec w h W) as (E1 & _).
  unfold iroh_endpoint_bind, ffi_guard, get_opts, get, lift, mbind, M_bind.
  rewrite (get_slot_live as_opts h w (SOpts o) o) by done. cbn [or_ready].
  unfold remove. rewrite t_slot_slots by apply W. rewrite Hh.
  destruct (remove_slot h (reg w)) as [was r]. cbn [fst] in E1. rewrite bool_decide_eq_true_2 in E1 by by eexists.
  subst was. unfold spawn, mbind, M_bind, lift. destruct (new_op (set_reg r w)) as [id w1]. cbn.
  eexists _, _. split; [done|]. cbn. apply lookup_insert_eq.
Qed.

(** The new options object. *)
Lemma new_options p W s t : sound (rw_lib W) s t -> room 2 (rw_lib W) ->
  exists h W1, handler_c answer (optionsNew p) W = (h, W1) /\ sound (rw_lib W1) s t /\
    room 1 (rw_lib W1) /\ slots (rw_lib W1) !! h = Some (SOpts (mkOpts p None [] None [] [])).
Proof.
  intros HS R. unfold handler_c. cbn [shim_call].
  assert (does (iroh_options_new p) (rw_lib W) (fun h w1 => sound w1 s t /\ room 1 w1 /\
    slots w1 !! h = Some (SOpts (mkOpts p None [] None [] []))) (fun _ => False)) as Hd.
  { apply does_guard. apply (does_insert _ (rw_lib W) s t); [done|done|by apply (room_less 1 2)|].
    intros w1 n En S1 _ _ _ _ Hsl Hn _. split; [done|]. split; [unfold room in *; lia|].
    rewrite Hsl. apply lookup_insert_eq. }
  unfold does in Hd. destruct (iroh_options_new p (rw_lib W)) as [[h| |] w1]; [|done|done].
  destruct Hd as (S1 & R1 & Hh). by exists h, (mkWorld w1 (after (rw_go W) (optionsNew p) h) (rw_objs W) (S (rw_count W))).
Qed.

Lemma put_all p opts : acceptable opts ->
  put_addrs opts
    (match relay_mode (OptRelayMode opts) with
     | inl mode => fun o => if OptRelayMode opts =? RelayFromPreset then o else put_relays opts mode o
     | inr _ => fun o => o
     end (put_alpns opts (put_key opts (mkOpts p None [] None [] [])))) = arrived p opts.
Proof.
  intros (_ & _ & Hm & _). unfold arrived, put_addrs, put_relays, put_alpns, put_key.
  destruct (Z.eqb_spec (OptRelayMode opts) RelayFromPreset) as [E|E].
  - by destruct (relay_mode (OptRelayMode opts)), (OptSecretKey opts).
  - destruct (Hm E) as [_ [mode ->]]. by destruct (OptSecretKey opts).
Qed.

(** ** Properties *)

(** C35. The configuration given to [Bind] is the one the iroh builder gets.  The
    library takes the options exactly when they are acceptable: a key of 32
    bytes, no empty ALPN, relay urls and bind addresses it can parse, a relay
    mode the package knows (urls are not looked at when the mode is left to the
    preset); otherwise [applyOptions] reports an error.  When it takes them,
    binding starts a task that holds all of them, in order, under the preset and
    the relay mode named on the Go side; and all that can still keep a builder
    from being made is an address to bind. *)
Theorem options_arrive (W : rworld) (s t : owned) (opts : Options) (p : Z) :
  sound (rw_lib W) s t -> room 2 (rw_lib W) -> Preset_ffi (OptPreset opts) = (p, None) ->
  let '(h, W1) := handler_c answer (optionsNew p) W in
  exists err W2, run_go (applyOptions h opts) W1 = (Some err, W2) /\
    (err = None <-> acceptable opts) /\
    (err = None ->
     (exists op w3, iroh_endpoint_bind h SaysOk (rw_lib W2) = (Done op, w3) /\
        tasks w3 !! op = Some (TRunning (FBind (arrived p opts)))) /\
     match into_builder (arrived p opts) with inl b => configures opts b | inr e => e_kind e = EBind end).
Proof.
  intros HS R Hp. destruct (new_options p W s t HS R) as (h & W1 & E & S1 & R1 & Hh). rewrite E.
  destruct (applyOptions_puts h opts W1 _ s t S1 Hh) as (err & W2 & Ea & Hi & Hok).
  exists err, W2. split; [exact Ea|]. split; [exact Hi|]. intros He.
  destruct (Hok He) as (S2 & Hn & Hh2). rewrite put_all in Hh2 by by apply Hi.
  split; [|by apply builder_arrives, Hi].
  apply (bind_spawns h); [apply S2|by unfold room in *; rewrite Hn|exact Hh2].
Qed.
End Options.

(** A key, two ALPNs, a relay of one's own and an address, all taken; the
    builder says so. *)
Lemma small_acceptable : acceptable small_options.
Proof.
  split; [by intros key [= <-]|]. split; [by repeat constructor|]. split.
  - intros _. split; [|by eexists]. repeat constructor. by eexists.
  - repeat constructor. vm_compute. by eexists.
Qed.

Lemma small_preset : Preset_ffi (OptPreset small_options) = (PRESET_MINIMAL, None).
Proof. reflexivity. Qed.

Example options_arrive_witness :
  Preset_ffi (OptPreset small_options) = (PRESET_MINIMAL, None) /\
  acceptable small_options /\
  let '(h, W1) := handler_c small_answer (optionsNew PRESET_MINIMAL) small_world in
  exists err W2, run (shim_handler small_answer small_task (fun _ _ => false)) (applyOptions h small_options) W1 =
    (Some err, W2) /\
    (err = None <-> acceptable small_options) /\
    (err = None ->
     (exists op w3, iroh_endpoint_bind h SaysOk (rw_lib W2) = (Done op, w3) /\
        tasks w3 !! op = Some (TRunning (FBind (arrived PRESET_MINIMAL small_options)))) /\
     match into_builder (arrived PRESET_MINIMAL small_options) with
     | inl b => configures small_options b
     | inr e => e_kind e = EBind
     end).
Proof.
  split; [exact small_preset|]. split; [exact small_acceptable|].
  apply (options_arrive small_answer small_task (fun _ _ => false) small_world newcomer newcomer).
  - exact (proj1 (proj2 small_world_ok)).
  - reflexivity.
  - exact small_preset.
Defined.
