(* ===== verification/Echo.v ===== *)
(** The echo example, [examples/echo/main.go], as a client of the package: the
    server's [serve], the client's [dial] and their options, with the parts of
    Go's [io] package they use ([io.Copy], [io.ReadAll]).

    How long the server copies is up to its peer, so [Copy] takes a number of
    rounds and [None] is "still copying"; what is proved of it holds for every
    number of rounds.  [rf] is the fuel of each [Read] and [Write] within
    ([Streams.v]).  Logging is the result of [serve].  [listen] and [main] are in
    [EchoMain.v]. *)
From S2P Require Import Prelude GoErrors Prog Abi Contract Reference Pump Calls Handle.
From S2P Require Import Deadline Streams GoStrings Keys Netip Addr Conn Endpoint.
Local Open Scope Z_scope.
Local Open Scope go_scope.

(** ** Go's io *)

Definition ErrShortWrite : gerror := WrapError (MText "short write") None.
Definition errInvalidWrite : gerror := WrapError (MText "invalid write result") None.

(** What a copy reports of the reader's error. *)
Definition reader_error (e : gerror) : error :=
  match e with Sentinel IoEOF => None | _ => Some e end.

(** [io.Copy(dst, src)]: neither side has a method of its own for it, so it is
    the loop over one buffer. *)
Fixpoint copy_buffer (rounds rf : nat) (dst : SendStream) (src : RecvStream) (buf : bytes) (written : Z)
    : go (option (Z * error)) :=
  match rounds with
  | O => Ret None
  | S rounds =>
      '(nr, er, buf) ← Read rf src buf;
      let continue_ (written : Z) : go (option (Z * error)) :=
        match er with
        | Some e => Ret (Some (written, reader_error e))
        | None => copy_buffer rounds rf dst src buf written
        end in
      if 0 <? nr then
        '(nw, ew) ← Write rf dst (take (Z.to_nat nr) buf) 0;
        let '(nw, ew) :=
          if (nw <? 0) || (nr <? nw)
          then (0, match ew with None => Some errInvalidWrite | Some e => Some e end) else (nw, ew) in
        let written := written + nw in
        match ew with
        | Some e => Ret (Some (written, Some e))
        | None =>
            if negb (nr =? nw) then Ret (Some (written, Some ErrShortWrite)) else continue_ written
        end
      else continue_ written
  end.
Definition Copy (rounds rf : nat) (dst : SendStream) (src : RecvStream) : go (option (Z * error)) :=
  copy_buffer rounds rf dst src (zero_bytes (Z.to_nat 32768)) 0.

(** [append] one byte to a full slice and cut it back: the capacity [grow]s. *)
Definition grown (grow : Z -> Z) (n cap : Z) : Z := if n =? cap then grow cap else cap.

(** [io.ReadAll(r)]: [b] is what was read, in a slice of capacity [cap]. *)
Fixpoint read_all (rounds rf : nat) (grow : Z -> Z) (src : RecvStream) (b : bytes) (cap : Z)
    : go (option (bytes * error)) :=
  match rounds with
  | O => Ret None
  | S rounds =>
      '(n, err, p) ← Read rf src (zero_bytes (Z.to_nat (cap - len b)));
      let b := b ++ take (Z.to_nat n) p in
      match err with
      | Some e => Ret (Some (b, reader_error e))
      | None => read_all rounds rf grow src b (grown grow (len b) cap)
      end
  end.
Definition ReadAll (rounds rf : nat) (grow : Z -> Z) (src : RecvStream) : go (option (bytes * error)) :=
  read_all rounds rf grow src [] 512.

(** ** The example *)

(** [src/examples/echo/main.go:29-29 alpn] *)
Definition alpn : bytes := $"iroh-go/echo/1".

(** [src/examples/echo/main.go:115-139 serve] Up to the deferred close: the line
    logged last, with its error. *)
Definition serve_body (rounds rf : nat) (ctx : Z) (conn : Conn) : go (option (option (string * gerror))) :=
  '(_, err) ← RemoteID conn;
  match err with
  | Some e => Ret (Some (Some ("remote id: %v"%string, e)))
  | None =>
      '(r, err) ← AcceptBi conn ctx;
      match r, err with
      | Some (send, recv), None =>
          c ← Copy rounds rf send recv;
          match c with
          | None => Ret None
          | Some (_, Some e) => Ret (Some (Some ("echo: %v"%string, e)))
          | Some (_, None) =>
              err ← SendStream_Close send;
              match err with
              | Some e => Ret (Some (Some ("finish: %v"%string, e)))
              | None => Ret (Some None)
              end
          end
      | _, Some e => Ret (Some (Some ("accept stream: %v"%string, e)))
      | None, None => Panic "nil stream"
      end
  end.

(** [src/examples/echo/main.go:115-139 serve] *)
Definition echo_serve (rounds rf : nat) (ctx : Z) (conn : Conn) : go (option (option (string * gerror))) :=
  r ← serve_body rounds rf ctx conn;
  match r with
  | None => Ret None
  | Some log => Conn_Close conn;; Ret (Some log)
  end.

(** [src/examples/echo/main.go:154-171 dial] From the open stream on: the reply,
    or the error [dial] returns. *)
Definition converse (rounds rf : nat) (grow : Z -> Z) (ctx : Z) (conn : Conn) (message : bytes)
    : go (option (bytes + gerror)) :=
  '(r, err) ← OpenBi conn ctx;
  match r, err with
  | _, Some e => Ret (Some (inr (wrapf "open stream: %w" [] e)))
  | None, None => Panic "nil stream"
  | Some (send, recv), None =>
      '(_, err) ← Write rf send message 0;
      match err with
      | Some e => Ret (Some (inr (wrapf "write: %w" [] e)))
      | None =>
          err ← SendStream_Close send;
          match err with
          | Some e => Ret (Some (inr (wrapf "finish: %w" [] e)))
          | None =>
              r ← ReadAll rounds rf grow recv;
              match r with
              | None => Ret None
              | Some (_, Some e) => Ret (Some (inr (wrapf "read: %w" [] e)))
              | Some (reply, None) => Ret (Some (inl reply))
              end
          end
      end
  end.

(** A [defer] of [q] around [p], which may still be running. *)
Definition deferred {A} (p : go (option A)) (q : go unit) : go (option A) :=
  r ← p; match r with None => Ret None | Some a => q;; Ret (Some a) end.

(** [src/examples/echo/main.go:174-180 shutdown] [ctx] is the one of
    [context.WithTimeout]. *)
Definition shutdown (ctx : Z) (ep : Endpoint) : go unit := Endpoint_Close ep ctx;; Ret tt.

Section Dial.
Context {netip : NetIP}.

Definition loopback : bytes := $"127.0.0.1:0".

(** [src/examples/echo/main.go:68-79 options] *)
Definition options (offline : bool) (alpns : list bytes) : go Options :=
  if offline then
    match ParseAddrPort loopback with
    | inr _ => Panic "netip.MustParseAddrPort"
    | inl a => Ret (mkOptions PresetMinimal None alpns RelayDisabled [] [a])
    end
  else Ret (mkOptions PresetN0 None alpns RelayFromPreset [] []).

(** [src/examples/echo/main.go:141-172 dial] *)
Definition dial (rounds rf : nat) (grow : Z -> Z) (ctx bye : Z) (offline : bool)
    (ticket : Ticket) (message : bytes) : go (option (bytes + gerror)) :=
  opts ← options offline [];
  '(ep, err) ← Bind ctx opts;
  match ep, err with
  | _, Some e => Ret (Some (inr (wrapf "bind: %w" [] e)))
  | None, None => Panic "nil endpoint"
  | Some ep, None =>
      deferred (
        '(conn, err) ← ConnectTicket ep ctx ticket alpn;
        match conn, err with
        | _, Some e => Ret (Some (inr (wrapf "connect: %w" [] e)))
        | None, None => Panic "nil connection"
        | Some conn, None =>
            deferred (converse rounds rf grow ctx conn message) (Conn_Close conn;; Ret tt)
        end) (shutdown bye ep)
  end.

End Dial.

(** ** Lemmas: what every call keeps *)

(** Deadline changes still to come only get fewer, and a loaded library stays. *)
Definition later (s s' : owned) : Prop :=
  (o_changes s' <= o_changes s)%nat /\ (o_loaded s = true -> o_loaded s' = true).

Lemma later_refl s : later s s.
Proof. by split. Qed.

Lemma later_trans s t u : later s t -> later t u -> later s u.
Proof. intros [H1 H2] [H3 H4]. split; [lia|auto]. Qed.

Lemma later_effect k v s : later s (apply_effect k v s).
Proof. destruct k, v; by split. Qed.

Lemma later_buf s b s' : gets_buf s b s' -> later s s'.
Proof. intros (_ & _ & _ & ->). by case_decide. Qed.

Lemma later_err s e s' : gets_err s e s' -> later s s'.
Proof. intros (_ & _ & ->). by case_decide. Qed.

Lemma later_fires s ctx e s' : fires s ctx e s' -> later s s'.
Proof.
  intros (c & n & (_ & _ & _ & H) & ->). split; [|done]. simpl.
  destruct (o_ctx s !! ctx) as [[]|]; repeat case_decide; lia.
Qed.

Lemma later_completes s ch status s' : completes s ch status s' -> later s s'.
Proof. intros (op & k & v & _ & _ & _ & ->). eapply later_trans; [|apply later_effect]. by split. Qed.

Lemma later_collects s op k rc e ok s' :
  (forall s1 s2, ok s1 s2 -> later s1 s2) -> collects s op k rc e ok s' -> later s s'.
Proof.
  intros Hok [(_ & _ & H)|(_ & _ & H)].
  - eapply later_trans; [|by apply Hok]. by split.
  - eapply later_trans; [|by eapply later_err]. by split.
Qed.

Lemma later_starts s f op s' : starts s f op s' -> later s s'.
Proof. intros (_ & [[_ ->]|(_ & _ & ->)]); by destruct f. Qed.

Lemma later_rc s rc e s' : gets_rc s rc e s' -> later s s'.
Proof. unfold gets_rc. case_decide; [intros [_ ->]; apply later_refl|apply later_err]. Qed.

Lemma later_text s rc b e s' : gets_text s rc b e s' -> later s s'.
Proof. unfold gets_text. case_decide; intros [_ Hp]; [by eapply later_buf|by eapply later_err]. Qed.

Lemma later_load s : later s (set_loaded true s).
Proof. by split. Qed.

Create HintDb later.
#[local] Hint Resolve later_refl later_buf later_err later_rc later_text later_fires
  later_completes later_starts later_load : later.
#[local] Hint Extern 5 (later _ _) => (by split) : later.

Ltac open_post :=
  repeat match goal with
  | Ha : _ /\ _ |- _ => destruct Ha
  | He : exists _, _ |- _ => destruct He
  | Hm : match ?x with _ => _ end |- _ => destruct x
  end; subst.

Lemma c_post_later {X} (e : cE X) s x s' : c_post s e x s' -> later s s'.
Proof.
  destruct e; simpl; repeat match goal with x : _ * _ |- _ => destruct x end; intros Hpost;
    open_post; try solve [eauto with later].
  all: try (eapply later_collects; [|eassumption]; simpl; intros; open_post; by eauto with later).
  - eapply later_trans; [|by eapply later_err]. by split.
  - by eapply (later_trans _ (set_errs _ s)), later_buf.
Qed.

Lemma post_later {X} (e : goE X) s (x : X) s' : post s e x s' -> later s s'.
Proof.
  destruct e as [X e|X e]; [apply c_post_later|].
  destruct e; simpl; repeat match goal with x : _ * _ |- _ => destruct x end; intros Hpost;
    try (case_decide; subst); open_post; eauto with later.
  by destruct x.
Qed.

(** Whatever a program does, at its end it is later. *)
Lemma wp_later {A} (p : go A) : forall s (Q : A -> owned -> Prop),
  wp s p Q -> wp s p (fun a s' => Q a s' /\ later s s').
Proof.
  induction p as [a|X e k IH|why]; simpl; intros s Q H; [auto with later| |done].
  destruct H as [Hpre H]. split; [done|]. intros x s' Hpost.
  eapply wp_mono; [by apply IH, H|]. intros a s2 [HQ Hl]. split; [done|].
  exact (later_trans _ _ _ (post_later _ _ _ _ Hpost) Hl).
Qed.

(** ** Lemmas: the copy *)

(** What a copy has moved: [inn] off one stream, of which [out] went to the
    other. *)
Definition copied (s : owned) (dst src : Z) (out inn : bytes) (s' : owned) : Prop :=
  frame s s' /\ moved s s' (only dst out) (only src inn) /\ later s s'.

Lemma copied_nil s dst src : copied s dst src [] [] s.
Proof.
  split; [done|]. split; [|apply later_refl].
  split; intros h; by rewrite only_nil, app_nil_r.
Qed.

Lemma copied_trans s t u dst src o1 i1 o2 i2 :
  copied s dst src o1 i1 t -> copied t dst src o2 i2 u -> copied s dst src (o1 ++ o2) (i1 ++ i2) u.
Proof.
  intros (F1 & M1 & L1) (F2 & M2 & L2). split; [by transitivity t|].
  split; [|by eapply later_trans].
  eapply moved_trans; [exact M1|exact M2|apply only_app|apply only_app].
Qed.

Section Copy.
Context (rf : nat) (dst : SendStream) (src : RecvStream).
Variables (h1 h2 : Z).

Definition ready (s : owned) : Prop :=
  o_loaded s = true /\ (send_obj dst ∉ o_locks s) /\ (recv_obj src ∉ o_locks s) /\
  behind s (send_obj dst) = h1 /\ behind s (recv_obj src) = h2 /\ (o_changes s < rf)%nat.

Lemma copied_ready s out inn s' : ready s -> copied s h1 h2 out inn s' -> ready s'.
Proof.
  intros (R1 & R2 & R3 & R4 & R5 & R6) (F & _ & L).
  pose proof F as ((_ & _ & _ & _ & E & _) & _).
  unfold ready. rewrite E, !(frame_behind _ _ _ F). destruct L as [Lc Ll].
  split_and!; try done; [by apply Ll|lia].
Qed.

Lemma copied_read s p : ready s -> len p < two63 ->
  wp s (Read rf src p) (fun '(n, err, p') s' =>
    filled p p' n /\ copied s h1 h2 [] (take (Z.to_nat n) p') s' /\
    match err with
    | None => True
    | Some e => n = 0 /\ p' = p /\ (e = Sentinel IoEOF \/ stream_error e)
    end).
Proof.
  intros (R1 & R2 & R3 & R4 & R5 & R6) Hp. eapply wp_mono.
  { apply wp_later, (Read_loop_spec src p s); try done. apply moved_refl. }
  intros [[n err] p'] s' [(F & Hfill & M & Herr) L]. rewrite R5 in M.
  split; [done|]. split; [|done]. split; [done|]. split; [|done].
  destruct M as [M1 M2]. split; intros h; [rewrite only_nil; apply M1|apply M2].
Qed.

Lemma copied_write s p : ready s -> len p < two63 ->
  wp s (Write rf dst p 0) (fun '(n, err) s' =>
    0 <= n <= len p /\ copied s h1 h2 (take (Z.to_nat n) p) [] s' /\
    match err with None => n = len p | Some e => stream_error e end).
Proof.
  intros (R1 & R2 & R3 & R4 & R5 & R6) Hp. eapply wp_mono.
  { apply wp_later, (Write_loop_spec dst p s); try done; [unfold len; lia|].
    apply moved_only_nil, moved_refl. }
  intros [n err] s' [(F & Hn & M & Herr) L]. rewrite R4 in M.
  split; [done|]. split; [|done]. split; [done|]. split; [|done].
  destruct M as [M1 M2]. split; intros h; [apply M1|rewrite only_nil; apply M2].
Qed.

(** The result of a copy: its count is what it wrote, a prefix of what it
    read, and all of it unless it reports an error. *)
Definition copy_result (written : Z) (err : error) (out inn : bytes) : Prop :=
  written = len out /\ out `prefix_of` inn /\
  match err with None => out = inn | Some e => stream_error e end.

Lemma copy_buffer_spec s : ready s -> forall rounds buf got s1,
  0 < len buf < two63 -> copied s h1 h2 got got s1 ->
  wp s1 (copy_buffer rounds rf dst src buf (len got)) (fun r s' => exists out inn,
    copied s h1 h2 out inn s' /\ out `prefix_of` inn /\
    match r with None => out = inn | Some (written, err) => copy_result written err out inn end).
Proof.
  intros Hr. induction rounds as [|rounds IH]; intros buf got s1 Hb Hc; simpl; [by exists got, got|].
  eapply wp_call; [apply copied_read; [by eapply copied_ready|lia]|].
  intros [[nr er] buf'] s2 (Hfill & Hc2 & Her).
  destruct Hfill as (Hnr & Hlen & _).
  set (d := take (Z.to_nat nr) buf') in *.
  assert (Hd : len d = nr).
  { unfold d, len in *. rewrite length_take. lia. }
  pose proof (copied_trans _ _ _ _ _ _ _ _ _ Hc Hc2) as Hc3.
  destruct (Z.ltb_spec 0 nr) as [Hpos|Hz].
  - destruct er as [e|]; [lia|].
    eapply wp_call; [apply copied_write; [by eapply copied_ready|lia]|].
    intros [nw ew] s3 (Hnw & Hc4 & Hew). fold d in Hc4. rewrite Hd in *.
    pose proof (copied_trans _ _ _ _ _ _ _ _ _ Hc3 Hc4) as Hc5.
    rewrite !app_nil_r in Hc5.
    rewrite (proj2 (Z.ltb_ge nw 0)), (proj2 (Z.ltb_ge nr nw)) by lia. simpl.
    assert (Hlw : len got + nw = len (got ++ take (Z.to_nat nw) d)).
    { unfold len in *. rewrite length_app, length_take. lia. }
    assert (Hpre : got ++ take (Z.to_nat nw) d `prefix_of` got ++ d)
      by apply prefix_app, prefix_take.
    destruct ew as [e|].
    + simpl. exists (got ++ take (Z.to_nat nw) d), (got ++ d). by split_and!.
    + subst nw. rewrite Z.eqb_refl. simpl.
      assert (Et : take (Z.to_nat nr) d = d) by (apply take_ge; unfold len in *; lia).
      rewrite Et in *. rewrite Hlw. apply IH; [lia|done].
  - assert (nr = 0) as -> by lia.
    assert (d = []) as E by (by destruct d; [|unfold len in Hd; simpl in Hd; lia]).
    rewrite E, !app_nil_r in Hc3. destruct er as [e|]; [|apply IH; [lia|done]].
    destruct Her as (_ & _ & He). simpl. exists got, got. split; [done|]. split; [done|].
    split; [done|]. split; [done|]. destruct He as [->|He]; [done|].
    destruct e as [[]| | |]; simpl; try done; by destruct He as [?|[?|(? & ? & ?)]].
Qed.

Lemma read_all_spec grow s : (forall c, grow c < two63) -> ready s ->
  forall rounds b cap s1, cap < two63 -> copied s h1 h2 [] b s1 ->
  wp s1 (read_all rounds rf grow src b cap) (fun r s' => exists inn,
    copied s h1 h2 [] inn s' /\
    match r with None => True | Some (reply, err) => reply = inn end).
Proof.
  intros Hg Hr. induction rounds as [|rounds IH]; intros b cap s1 Hcap Hc; simpl; [by exists b|].
  eapply wp_call.
  { apply copied_read; [by eapply copied_ready|].
    unfold len, zero_bytes in *. rewrite length_replicate. unfold two63 in *. lia. }
  intros [[n err] p'] s2 (_ & Hc2 & _).
  pose proof (copied_trans _ _ _ _ _ _ _ _ _ Hc Hc2) as Hc3.
  destruct err as [e|]; [by eexists|]. apply IH; [|done].
  unfold grown. by destruct (_ =? _).
Qed.

End Copy.

(** ** Lemmas: serving *)

(** No byte moved on a stream. *)
Definition unmoved (s s' : owned) : Prop := o_sent s' = o_sent s /\ o_rcvd s' = o_rcvd s.

Lemma waited_unmoved s ctx s' : waited s ctx s' -> unmoved s s'.
Proof. by intros [->|(e & c & n & _ & ->)]. Qed.

Lemma RemoteID_spec s c : o_loaded s = true -> (conn_obj c ∉ o_locks s) ->
  wp s (RemoteID c) (fun _ s' => s' = s).
Proof.
  intros Hl Hlock. apply with_lock_spec; [done|].
  assert (Hback : forall s1, s1 = set_locks ({[conn_obj c]} ∪ o_locks s) s ->
    o_locks s1 = {[conn_obj c]} ∪ o_locks s /\ set_locks (o_locks s) s1 = s).
  { intros s1 ->. split; [done|by destruct s]. }
  apply wp_bind, wp_trigger; [done|]. intros remote s1 [_ ->].
  case_match; [by apply Hback|]. apply with_handle_spec; [by apply Hback|]. intros h Hh _.
  eapply wp_call; [by apply (out_sync_spec _ (connRemoteID h))|].
  intros [id [e|]] s2 (-> & _); [by apply Hback|].
  apply wp_bind, wp_trigger; [done|]. intros [] s3 ->. by apply Hback.
Qed.

Lemma new_object_unmoved {A} s h f (mk : Z -> A) :
  freed_handle f = h -> h ∈ o_handles s ->
  wp s (o ← rt RNew; handle_set o h;; rt (RAddCleanup o f);; Ret (mk o)) (fun _ s' =>
    unmoved s s' /\ o_handles s' = o_handles s ∖ {[h]}).
Proof.
  intros Hf Hh. apply wp_bind, wp_trigger; [done|]. intros o s1 [Ho ->].
  apply wp_bind, wp_trigger; [done|]. intros [] s2 ->.
  apply wp_bind, wp_trigger; [simpl; by rewrite Hf|]. intros [] s3 ->. simpl. by rewrite Hf.
Qed.

(** [OpenBi] and [AcceptBi]. *)
Definition bi (f : Z -> startcall) (c : Conn) (ctx : Z) : go (option (SendStream * RecvStream) * error) :=
  with_handle (conn_obj c) (fun e => (None, Some e)) (fun h =>
    r ← (op ← call (CStart (f h)); AwaitHandle2 ctx op); new_bi r c).

Section Bi.
Context (f : Z -> startcall) (c : Conn) (ctx : Z).
Context (Hpre : forall s h, h <> 0 -> start_pre s (f h)).
Context (Hkind : forall h, kind_of (f h) = KHandle2) (Hbase : forall h s, base (f h) s = s).

Lemma bi_unmoved s : o_loaded s = true -> wp s (bi f c ctx) (fun _ s' => unmoved s s').
Proof.
  intros Hl. apply with_handle_spec; [done|]. intros h Hh _.
  eapply wp_call; [apply (start_handle2 s ctx (f h)); by auto|]. rewrite Hbase.
  intros [[a b] [e|]] s1.
  - intros (_ & _ & Hf%op_fails_waited). by apply waited_unmoved in Hf.
  - intros (s2 & Hw%waited_unmoved & Ha & Hb & Hab & _ & _ & ->).
    eapply wp_call; [apply (new_object_unmoved _ a (sendFree a) (fun o => mkSend o (conn_obj c))); set_solver|].
    intros st s3 [[U1 U2] Hh3].
    eapply wp_call; [apply (new_object_unmoved _ b (recvFree b) (fun o => mkRecv o (conn_obj c))); [done|]|].
    { rewrite Hh3. simpl. set_solver. }
    intros r s4 [[U3 U4] _]. destruct Hw. split; simpl in *; congruence.
Qed.

Lemma bi_spec s : o_loaded s = true ->
  wp s (bi f c ctx) (fun '(r, err) s' => quiet s s' /\ unmoved s s' /\ later s s' /\
    match err with
    | Some _ => r = None
    | None => exists st rt a b, r = Some (st, rt) /\ a <> b /\
        behind s' (send_obj st) = a /\ behind s' (recv_obj rt) = b
    end).
Proof.
  intros Hl. eapply wp_mono.
  { apply wp_later, wp_conj; [by apply bi_unmoved|].
    apply (with_handle_spec s (conn_obj c) _ _ (fun '(r, err) s' => quiet s s' /\
      match err with
      | Some _ => r = None
      | None => exists st rt a b, r = Some (st, rt) /\ a <> b /\
          behind s' (send_obj st) = a /\ behind s' (recv_obj rt) = b
      end)).
    - split; [apply quiet_refl|done].
    - intros h Hh _. eapply wp_mono; [apply (open_bi_spec s ctx (f h)); by auto|].
      intros [r [e|]] s' [Hq H]; (split; [done|]); [by destruct H|].
      destruct H as (st & rt & a & b & -> & _ & _ & Hab & [_ Na] & [_ Nb] & _).
      exists st, rt, a, b. unfold behind. by rewrite Na, Nb. }
  intros [r err] s' ((Hu & Hq & H) & Hlt). by split_and!.
Qed.

End Bi.

Lemma frame_quiet s s' : frame s s' -> quiet s s'.
Proof. intros (H1 & H2 & _). by split. Qed.

Lemma closed_copied s dst src err s' :
  closed s background err s' -> later s s' -> copied s dst src [] [] s'.
Proof.
  intros (F & [M1 M2] & _) L. split; [done|]. split; [|done].
  split; intros h; rewrite only_nil; [apply M1|apply M2].
Qed.

(** A conversation over one connection: [out] was written to the one stream and
    [inn] read from the other, and [P] is known of them. *)
Definition exchanged (s : owned) (P : bytes -> bytes -> Prop) (s' : owned) : Prop :=
  quiet s s' /\ exists dst src out inn,
    moved s s' (only dst out) (only src inn) /\ (inn = [] \/ dst <> src) /\ P out inn.

(** What serving comes to: the line logged, or nothing, or not done yet. *)
Definition echoed (r : option (option (string * gerror))) (out inn : bytes) : Prop :=
  out `prefix_of` inn /\ (r = None \/ r = Some None -> out = inn).

(** What dialling comes to: a reply, or an error, or not done yet. *)
Definition answered (message : bytes) (r : option (bytes + gerror)) (out inn : bytes) : Prop :=
  out `prefix_of` message /\ (forall reply, r = Some (inl reply) -> out = message /\ reply = inn).

Lemma exchanged_nothing s (P : bytes -> bytes -> Prop) s' :
  quiet s s' -> unmoved s s' -> P [] [] -> exchanged s P s'.
Proof.
  intros Hq [U1 U2] HP. split; [done|]. exists 0, 0, [], []. split; [|by auto].
  unfold moved, sent_on, rcvd_on. rewrite U1, U2. split; intros h; by rewrite only_nil, app_nil_r.
Qed.

Lemma exchanged_copied s s1 s' dst src out inn (P : bytes -> bytes -> Prop) :
  quiet s s1 -> unmoved s s1 -> dst <> src -> copied s1 dst src out inn s' -> P out inn ->
  exchanged s P s'.
Proof.
  intros [Hd Ho] [U1 U2] Hne (F & [M1 M2] & _) HP.
  apply frame_quiet in F as [Hd' Ho'].
  split; [split; [by transitivity s1|congruence]|]. exists dst, src, out, inn.
  unfold moved, sent_on, rcvd_on in *. rewrite U1 in M1. rewrite U2 in M2. by auto.
Qed.

(** [serve_body], once the stream is accepted. *)
Lemma serve_stream_spec rounds rf (send : SendStream) (recv : RecvStream) s1 h1 h2 :
  ready rf send recv h1 h2 s1 ->
  wp s1 (c ← Copy rounds rf send recv;
        match c with
        | None => Ret None
        | Some (_, Some e) => Ret (Some (Some ("echo: %v"%string, e)))
        | Some (_, None) =>
            err ← SendStream_Close send;
            match err with
            | Some e => Ret (Some (Some ("finish: %v"%string, e)))
            | None => Ret (Some None)
            end
        end) (fun r s' => exists out inn,
          copied s1 h1 h2 out inn s' /\ echoed r out inn).
Proof.
  intros Hr. eapply wp_call.
  { apply (copy_buffer_spec rf send recv h1 h2 s1 Hr rounds _ [] s1); [|apply copied_nil].
    unfold len, zero_bytes. rewrite length_replicate, Z2Nat.id; [done|lia]. }
  intros [[written [e|]]|] s2 (out & inn & Hc & Hp & Hres).
  - exists out, inn. split; [done|]. split; [done|]. by intros [?|?].
  - destruct Hres as (_ & _ & ->). eapply wp_call.
    { eapply wp_later, SendStream_Close_spec. by destruct (copied_ready _ _ _ _ _ _ _ _ _ Hr Hc). }
    intros err s3 [Hcl Hl]. pose proof (closed_copied _ h1 h2 _ _ Hcl Hl) as Hc'.
    pose proof (copied_trans _ _ _ _ _ _ _ _ _ Hc Hc') as Hc3. rewrite app_nil_r in Hc3.
    destruct err; simpl; by exists inn, inn.
  - exists out, inn. by split_and!.
Qed.

(** A stream pair just opened is ready for its calls. *)
Lemma bi_ready rf s s1 st rt a b : o_locks s = ∅ -> (o_changes s < rf)%nat -> o_loaded s = true ->
  quiet s s1 -> later s s1 -> behind s1 (send_obj st) = a -> behind s1 (recv_obj rt) = b ->
  ready rf st rt a b s1.
Proof.
  intros Hlk Hrf Hl [(_ & _ & _ & _ & E & _) _] [Hch Hld] Ha Hb.
  unfold ready. rewrite E, Hlk. split_and!; try done; [by apply Hld|lia].
Qed.

Lemma serve_body_spec rounds rf ctx conn s :
  o_loaded s = true -> o_locks s = ∅ -> (o_changes s < rf)%nat ->
  wp s (serve_body rounds rf ctx conn) (fun r s' => exchanged s (echoed r) s').
Proof.
  intros Hl Hlk Hrf.
  eapply wp_call; [apply RemoteID_spec; [done|by rewrite Hlk]|].
  intros [peer [e|]] s0 ->; [by apply exchanged_nothing|].
  eapply wp_call; [by apply (bi_spec connAcceptBi conn ctx)|].
  intros [r err] s1 (Hq & Hu & Hlt & H).
  destruct err as [e|]; [subst; by apply exchanged_nothing|].
  destruct H as (st & rt & a & b & -> & Hab & Ha & Hb). eapply wp_mono.
  - by eapply serve_stream_spec, bi_ready.
  - intros r s' (out & inn & Hc & He). by eapply exchanged_copied.
Qed.

Lemma echo_serve_spec rounds rf ctx conn s :
  o_loaded s = true -> o_locks s = ∅ -> (o_changes s < rf)%nat ->
  wp s (echo_serve rounds rf ctx conn) (fun r s' => exchanged s (echoed r) s').
Proof.
  intros Hl Hlk Hrf. eapply wp_call; [by apply wp_later, serve_body_spec|].
  intros [log|] s' [He Hlt]; [|exact He].
  eapply wp_call; [apply CloseWithError_spec; by apply Hlt|]. intros err s2 [-> _]. exact He.
Qed.

Lemma converse_spec rounds rf grow ctx conn message s :
  (forall c, grow c < two63) -> len message < two63 ->
  o_loaded s = true -> o_locks s = ∅ -> (o_changes s < rf)%nat ->
  wp s (converse rounds rf grow ctx conn message) (fun r s' => exchanged s (answered message r) s').
Proof.
  intros Hg Hm Hl Hlk Hrf. eapply wp_call; [by apply (bi_spec connOpenBi conn ctx)|].
  intros [r err] s1 (Hq & Hu & Hlt & H).
  destruct err as [e|]; [subst; by apply exchanged_nothing; [..|split; [apply prefix_nil|]]|].
  destruct H as (st & rt & a & b & -> & Hab & Ha & Hb).
  assert (Hr : ready rf st rt a b s1) by by eapply bi_ready.
  eapply wp_call; [by apply (copied_write rf st rt a b)|].
  intros [n err] s2 (Hn & Hc & Herr).
  destruct err as [e|].
  { eapply exchanged_copied; try done. split; [apply prefix_take|done]. }
  subst n. assert (Et : take (Z.to_nat (len message)) message = message)
    by (apply take_ge; unfold len; lia). rewrite Et in Hc.
  pose proof (copied_ready _ _ _ _ _ _ _ _ _ Hr Hc) as Hr2.
  eapply wp_call; [eapply wp_later, SendStream_Close_spec; by destruct Hr2|].
  intros err s3 [Hcl Hl3]. pose proof (closed_copied _ a b _ _ Hcl Hl3) as Hc3.
  pose proof (copied_trans _ _ _ _ _ _ _ _ _ Hc Hc3) as Hc4. rewrite !app_nil_r in Hc4.
  destruct err as [e|]; [by eapply exchanged_copied|].
  pose proof (copied_ready _ _ _ _ _ _ _ _ _ Hr2 Hc3) as Hr3.
  eapply wp_call.
  { apply (read_all_spec rf st rt a b grow s3 Hg Hr3 rounds [] 512 s3); [done|apply copied_nil]. }
  intros r s4 (inn & Hc5 & Hres).
  pose proof (copied_trans _ _ _ _ _ _ _ _ _ Hc4 Hc5) as Hc6. rewrite app_nil_r in Hc6. simpl in Hc6.
  destruct r as [[reply [e|]]|]; eapply exchanged_copied; try done; split; try done.
  intros reply' [= <-]. by subst.
Qed.

Section DialSpec.
Context {netip : NetIP} (loopback_parses : exists a, ParseAddrPort loopback = inl a).

Lemma wp_deferred {A} s (p : go (option A)) (q : go unit) (Q : option A -> owned -> Prop) :
  wp s p (fun r s' => Q r s' /\ forall a, r = Some a -> wp s' q (fun _ => Q r)) ->
  wp s (deferred p q) Q.
Proof.
  intros Hp. eapply wp_call; [exact Hp|]. intros [a|] s' [HQ Hq]; [|exact HQ].
  eapply wp_call; [by apply (Hq a)|]. by intros [] s2.
Qed.

Lemma quiet_trans s t u : quiet s t -> quiet t u -> quiet s u.
Proof. intros [D1 O1] [D2 O2]. split; [by transitivity t|congruence]. Qed.

Lemma dial_spec' rounds rf grow ctx bye offline ticket message s :
  (forall c, grow c < two63) -> len message < two63 ->
  o_loaded s = true -> o_locks s = ∅ -> (o_changes s < rf)%nat ->
  wp s (dial rounds rf grow ctx bye offline ticket message) (fun _ s' => quiet s s').
Proof.
  intros Hg Hm Hl Hlk Hrf.
  assert (Hopts : exists opts, options offline [] = Ret opts /\ options_ok opts).
  { unfold options. destruct offline; [|by eexists].
    destruct loopback_parses as [a ->]. by eexists. }
  destruct Hopts as (opts & Eo & Hok). unfold dial. rewrite Eo. apply wp_bind. cbn [wp].
  eapply wp_call; [by apply wp_later, Bind_spec|].
  intros [ep err] s1 [[Hq1 Hr] L1]. destruct err as [e|]; [by subst|].
  destruct Hr as (ep' & h & -> & _). assert (Hl1 : o_loaded s1 = true) by by apply L1.
  apply wp_deferred. eapply (wp_mono _ _ (fun _ s' => quiet s s' /\ later s1 s')).
  - eapply wp_call; [by apply wp_later, ConnectTicket_spec|].
    intros [conn err] s2 [[Hq2 Hr] L2]. pose proof (quiet_trans _ _ _ Hq1 Hq2) as Hq.
    destruct err as [e|]; [by subst|]. destruct Hr as (conn' & h' & -> & _).
    assert (Hl2 : o_loaded s2 = true) by by apply L2.
    apply wp_deferred. eapply wp_mono.
    + apply wp_later, converse_spec; try done.
      * destruct Hq as [(_ & _ & _ & _ & E & _) _]. congruence.
      * destruct L1, L2. lia.
    + intros r s3 [[Hq3 _] L3]. pose proof (quiet_trans _ _ _ Hq Hq3) as Hq'.
      assert (L' : later s1 s3) by by eapply later_trans. split; [done|].
      intros x ->. eapply wp_call; [apply CloseWithError_spec; by apply L'|]. by intros err s4 [-> _].
  - intros r s3 [Hq3 L3]. split; [done|]. intros x ->.
    eapply wp_call; [apply Endpoint_Close_spec; by apply L3|].
    intros err s4 (F & _). by eapply quiet_trans, frame_quiet.
Qed.

End DialSpec.

(** ** Properties *)

(** C30. The echo example echoes.  While and after the server serves a
    connection, for however many rounds of the copy, it has moved bytes on at
    most two streams: what it wrote to the one is a prefix of what it read from
    the other, and all of it while it is still copying and when it ends without
    an error to log.  A client's exchange, from the open stream on, writes a
    prefix of its message and no other byte, and when it has a reply it wrote
    all of it and the reply is exactly what it read, for any growth of the
    buffer of [io.ReadAll].  Deadline changes, partial writes and errors of the
    library on the way lose, repeat and reorder nothing, and server, exchange
    and the whole of [dial] give back everything they took, on every path. *)
Theorem echo_is_faithful {netip : NetIP} (rounds rf : nat) (grow : Z -> Z) (ctx bye : Z) (offline : bool)
    (conn : Conn) (ticket : Ticket) (message : bytes) (s : owned) :
  (exists a, ParseAddrPort loopback = inl a) -> (forall c, grow c < two63) -> len message < two63 ->
  o_loaded s = true -> o_locks s = ∅ -> (o_changes s < rf)%nat ->
  wp s (echo_serve rounds rf ctx conn) (fun r s' => exchanged s (fun out inn =>
    out `prefix_of` inn /\ (r = None \/ r = Some None -> out = inn)) s') /\
  wp s (converse rounds rf grow ctx conn message) (fun r s' => exchanged s (fun out inn =>
    out `prefix_of` message /\
    (forall reply, r = Some (inl reply) -> out = message /\ reply = inn)) s') /\
  wp s (dial rounds rf grow ctx bye offline ticket message) (fun _ s' => quiet s s').
Proof.
  intros Hip Hg Hm Hl Hlk Hrf. split; [|split].
  - by apply echo_serve_spec.
  - by apply converse_spec.
  - by apply dial_spec'.
Qed.

(** ** Witnesses *)

Example echo_is_faithful_witness :
  wp a_user (echo_serve 100 1 1 a_conn) (fun r s' => exchanged a_user (fun out inn =>
    out `prefix_of` inn /\ (r = None \/ r = Some None -> out = inn)) s') /\
  wp a_user (dial 100 1 (fun c => Z.min (2 * c) (two63 - 1)) 1 2 true $"ticket" $"hello")
    (fun _ s' => quiet a_user s').
Proof.
  destruct (echo_is_faithful 100 1 (fun c => Z.min (2 * c) (two63 - 1)) 1 2 true a_conn
    $"ticket" $"hello" a_user) as (H1 & _ & H3).
  - exists (mkAddr4 127 0 0 1 0). vm_compute. reflexivity.
  - intros c. lia.
  - reflexivity.
  - reflexivity.
  - reflexivity.
  - simpl. lia.
  - exact (conj H1 H3).
Defined.
