(* ===== verification/NetConn.v ===== *)
(** Streams as [net.Conn]s: [netconn.go], the [StreamConn] half.

    A [StreamConn] adds three shared cells to its two streams: the once that
    [Close] and [Reset] share, the error it leaves, and the [closed] channel.
    Their events ([nE]) extend those of the library, so that everything proved
    about the streams carries over through [lift]. *)
From S2P Require Import Prelude GoErrors Prog Abi Contract Reference Pump Calls.
From S2P Require Import Handle Deadline Streams GoStrings Keys Netip Addr Conn.
Local Open Scope Z_scope.
Local Open Scope go_scope.

(** ** Addresses *)

(** [src/netconn.go:27-29 Addr] *)
Record NetAddr := mkNetAddr { addr_ID : EndpointID }.

(** [src/netconn.go:32-32 Addr.Network] *)
Definition Network (a : NetAddr) : bytes := $"iroh".

(** [src/netconn.go:35-40 Addr.String] *)
Definition NetAddr_String (a : NetAddr) : bytes :=
  if IsZero (addr_ID a) then [] else EndpointID_String (addr_ID a).

(** ** Events *)

Inductive nE : Type -> Type :=
| NOnce (o : Z) : nE bool
    (* closeOnce.Do(f): true to the caller that runs f; false to any other, and
       not before f returned *)
| NOnceDone (o : Z) : nE unit       (* f returned *)
| NCloseChan (o : Z) : nE unit      (* close(c.closed) *)
| NClosed (o : Z) : nE bool         (* whether a receive from c.closed is ready *)
| NSetErr (o : Z) (e : error) : nE unit
| NErr (o : Z) : nE error.          (* c.closeErr *)

Inductive ncE : Type -> Type :=
| N {X} (e : nE X) : ncE X
| G {X} (e : goE X) : ncE X.

Abbreviation nc := (prog ncE).

Definition nev {X} (e : nE X) : nc X := trigger (N e).

Fixpoint lift {A} (p : go A) : nc A :=
  match p with
  | Ret a => Ret a
  | Vis e k => Vis (G e) (fun x => lift (k x))
  | Panic why => Panic why
  end.

(** ** StreamConn *)

(** [src/netconn.go:53-62 StreamConn] The cells are at [sc_obj]. *)
Record StreamConn := mkStreamConn {
  sc_obj : Z;
  sc_send : SendStream;
  sc_recv : RecvStream;
  sc_local : EndpointID;
  sc_remote : EndpointID
}.

(** [src/netconn.go:91-103 Conn.streamConn] *)
Definition streamConn (c : Conn) (send : SendStream) (recv : RecvStream) : go (option StreamConn * error) :=
  '(remote, err) ← RemoteID c;
  match err with
  | Some e => Ret (None, Some e)
  | None =>
      o ← rt RNew;
      Ret (Some (mkStreamConn o send recv (Endpoint_ID (conn_endpoint c)) remote), None)
  end.

(** [src/netconn.go:73-79 Conn.OpenConn] *)
Definition OpenConn (c : Conn) (ctx : Z) : go (option StreamConn * error) :=
  '(r, err) ← OpenBi c ctx;
  match r, err with
  | Some (send, recv), None => streamConn c send recv
  | _, err => Ret (None, err)
  end.

(** [src/netconn.go:83-89 Conn.AcceptConn] *)
Definition AcceptConn (c : Conn) (ctx : Z) : go (option StreamConn * error) :=
  '(r, err) ← AcceptBi c ctx;
  match r, err with
  | Some (send, recv), None => streamConn c send recv
  | _, err => Ret (None, err)
  end.

(** [src/netconn.go:122-132 StreamConn.closeAware] What it makes of an error,
    by whether the stream was found closed. *)
Definition close_aware (closed : bool) (err : gerror) : gerror :=
  if closed && (is_error err OsErrDeadlineExceeded || is_error err ErrClosed)
  then Sentinel NetErrClosed else err.

(** [src/netconn.go:121-133 StreamConn.closeAware] *)
Definition closeAware (c : StreamConn) (err : error) : nc error :=
  match err with
  | None => Ret None
  | Some e =>
      if is_error e IoEOF then Ret (Some e)
      else closed ← nev (NClosed (sc_obj c)); Ret (Some (close_aware closed e))
  end.

(** [src/netconn.go:106-109 StreamConn.Read] *)
Definition StreamConn_Read (fuel : nat) (c : StreamConn) (p : bytes) : nc (Z * error * bytes) :=
  '(n, err, p) ← lift (Read fuel (sc_recv c) p);
  err ← closeAware c err;
  Ret (n, err, p).

(** [src/netconn.go:112-115 StreamConn.Write] *)
Definition StreamConn_Write (fuel : nat) (c : StreamConn) (p : bytes) : nc (Z * error) :=
  '(n, err) ← lift (Write fuel (sc_send c) p 0);
  err ← closeAware c err;
  Ret (n, err).

(** [src/netconn.go:140-142 StreamConn.CloseWrite] *)
Definition CloseWrite (c : StreamConn) : nc error := lift (SendStream_Close (sc_send c)).

(** [c.closeOnce.Do(func() { close(c.closed); ...; c.closeErr = ... })] followed
    by [return c.closeErr]. *)
Definition close_with (c : StreamConn) (teardown : go error) : nc error :=
  first ← nev (NOnce (sc_obj c));
  (if first : bool then
     nev (NCloseChan (sc_obj c));;
     err ← lift teardown;
     nev (NSetErr (sc_obj c) err);;
     nev (NOnceDone (sc_obj c))
   else Ret tt);;
  nev (NErr (sc_obj c)).

(** [src/netconn.go:152-152 StreamConn.Close] *)
Definition close_streams (c : StreamConn) : go error :=
  e1 ← RecvStream_Close (sc_recv c);
  e2 ← SendStream_Close (sc_send c);
  Ret (errors_Join [e1; e2]).

(** [src/netconn.go:149-155 StreamConn.Close] *)
Definition StreamConn_Close (c : StreamConn) : nc error := close_with c (close_streams c).

(** [src/netconn.go:164-168 StreamConn.Reset] *)
Definition reset_streams (c : StreamConn) (ctx code : Z) : go error :=
  SetReadDeadline (sc_recv c) pastDeadline;;
  SetWriteDeadline (sc_send c) pastDeadline;;
  e1 ← Stop (sc_recv c) ctx code;
  e2 ← SendStream_Reset (sc_send c) ctx code;
  Ret (errors_Join [e1; e2]).

(** [src/netconn.go:161-171 StreamConn.Reset] *)
Definition StreamConn_Reset (c : StreamConn) (ctx code : Z) : nc error :=
  close_with c (reset_streams c ctx code).

(** [src/netconn.go:174-174 StreamConn.LocalAddr] *)
Definition LocalAddr (c : StreamConn) : NetAddr := mkNetAddr (sc_local c).
(** [src/netconn.go:178-178 StreamConn.RemoteAddr] *)
Definition StreamConn_RemoteAddr (c : StreamConn) : NetAddr := mkNetAddr (sc_remote c).

(** [src/netconn.go:186-188 StreamConn.SetReadDeadline] *)
Definition StreamConn_SetReadDeadline (c : StreamConn) (t : gotime) : go error :=
  SetReadDeadline (sc_recv c) t.
(** [src/netconn.go:191-193 StreamConn.SetWriteDeadline] *)
Definition StreamConn_SetWriteDeadline (c : StreamConn) (t : gotime) : go error :=
  SetWriteDeadline (sc_send c) t.
(** [src/netconn.go:181-183 StreamConn.SetDeadline] *)
Definition SetDeadline (c : StreamConn) (t : gotime) : go error :=
  e1 ← StreamConn_SetReadDeadline c t;
  e2 ← StreamConn_SetWriteDeadline c t;
  Ret (errors_Join [e1; e2]).

(** ** The contract, extended

    Nothing a goroutine owes is in the new cells: any answer is possible. *)
#[export] Instance nc_protocol : Protocol ncE owned := {|
  pre := fun X s e => match e with N _ => True | G e => pre s e end;
  post := fun X s e => match e in ncE X return X -> owned -> Prop with
                       | N _ => fun _ s' => s' = s
                       | G e => post s e end
|}.

(** The cells of one [StreamConn], next to any environment of the library. *)
Inductive once : Set := Fresh | Running | Done.
#[export] Instance once_eq_dec : EqDecision once.
Proof. solve_decision. Defined.
Record cells := mkCells { did : once; is_closed : bool; close_err : error }.
Definition open_cells : cells := mkCells Fresh false None.

(** What an event may answer, and what it does.  [closeOnce.Do] has no answer
    while another caller is in it. *)
Definition cell_event {X} (e : nE X) (c : cells) : X -> cells -> Prop :=
  match e in nE X return X -> cells -> Prop with
  | NOnce _ => fun b c' =>
      did c = Fresh /\ b = true /\ c' = mkCells Running (is_closed c) (close_err c) \/
      did c = Done /\ b = false /\ c' = c
  | NOnceDone _ => fun _ c' => c' = mkCells Done (is_closed c) (close_err c)
  | NCloseChan _ => fun _ c' => c' = mkCells (did c) true (close_err c)
  | NClosed _ => fun b c' => b = is_closed c /\ c' = c
  | NSetErr _ err => fun _ c' => c' = mkCells (did c) (is_closed c) err
  | NErr _ => fun err c' => err = close_err c /\ c' = c
  end.

(** The same for callers that come one after the other, so that none finds
    another in [closeOnce.Do]. *)
Definition cells_handler {W} (h : handler goE W) : handler ncE (cells * W) := fun X e w =>
  match e in ncE X return X * (cells * W) with
  | G e => let '(x, w') := h _ e w.2 in (x, (w.1, w'))
  | N e =>
      match e in nE X return X * (cells * W) with
      | NOnce _ =>
          (bool_decide (did w.1 = Fresh),
           (mkCells (if decide (did w.1 = Fresh) then Running else did w.1) (is_closed w.1) (close_err w.1), w.2))
      | NOnceDone _ => (tt, (mkCells Done (is_closed w.1) (close_err w.1), w.2))
      | NCloseChan _ => (tt, (mkCells (did w.1) true (close_err w.1), w.2))
      | NClosed _ => (is_closed w.1, w)
      | NSetErr _ err => (tt, (mkCells (did w.1) (is_closed w.1) err, w.2))
      | NErr _ => (close_err w.1, w)
      end
  end.

(** ** Lemmas *)

Lemma wp_lift {A} (p : go A) : forall s (Q : A -> owned -> Prop), wp s p Q -> wp s (lift p) Q.
Proof.
  induction p as [a|X e k IH|why]; simpl; intros s Q; [done| |done].
  intros [Hpre Hk]. split; [done|]. intros x s' Hpost. by apply IH, Hk.
Qed.

Lemma run_lift {W A} (h : handler goE W) (p : go A) : forall c w,
  run (cells_handler h) (lift p) (c, w) = ((run h p w).1, (c, (run h p w).2)).
Proof.
  induction p as [a|X e k IH|why]; simpl; intros c w; try done.
  destruct (h X e w) as [x w']. apply IH.
Qed.

Lemma closeAware_spec s c err :
  wp s (closeAware c err) (fun err' s' => s' = s /\
    match err with
    | None => err' = None
    | Some e => exists b, err' = Some (if is_error e IoEOF then e else close_aware b e)
    end).
Proof.
  unfold closeAware. destruct err as [e|]; [|by split].
  destruct (is_error e IoEOF); [split; [done|by exists true]|].
  apply wp_bind, wp_trigger; [done|]. intros b s' ->. split; [done|by exists b].
Qed.

Lemma iroh_not_eof e : is_iroh e -> is_error e IoEOF = false /\ is_error e OsErrDeadlineExceeded = false.
Proof.
  intros (k & m & ->). rewrite !iroh_not_foreign by (apply (bool_decide_unpack _); vm_compute; exact I).
  done.
Qed.

(** The errors of a [net.Conn] read or write. *)
Definition conn_error (e : gerror) : Prop :=
  e = Sentinel NetErrClosed \/ e = Sentinel ErrClosed \/ e = Sentinel OsErrDeadlineExceeded \/ is_iroh e.

Lemma close_aware_stream b e : stream_error e -> is_error e IoEOF = false /\ conn_error (close_aware b e) /\
  (b = true -> is_error (close_aware b e) OsErrDeadlineExceeded = false /\
     is_error (close_aware b e) ErrClosed = false).
Proof.
  intros [->|[->|Hi]].
  - split; [done|]. destruct b; cbn; (split; [unfold conn_error; by auto|done]).
  - split; [done|]. destruct b; cbn; (split; [unfold conn_error; by auto|done]).
  - destruct (iroh_not_eof _ Hi) as [H1 H2]. split; [done|]. unfold close_aware. rewrite H2. simpl.
    destruct b; simpl; [|split; [unfold conn_error; by auto|done]].
    destruct (is_error e ErrClosed) eqn:E; (split; [unfold conn_error; by auto|]); intros _; [done|].
    by rewrite H2, E.
Qed.

Lemma close_with_first {W} (h : handler goE W) c teardown cl w :
  did cl = Fresh ->
  run (cells_handler h) (close_with c teardown) (cl, w) =
    match run h teardown w with
    | (Some err, w') => (Some err, (mkCells Done true err, w'))
    | (None, w') => (None, (mkCells Running true (close_err cl), w'))
    end.
Proof.
  intros Hd. unfold close_with. rewrite run_bind. cbn [run nev trigger cells_handler fst snd]. rewrite Hd.
  rewrite bool_decide_eq_true_2, decide_True by done. rewrite run_bind. cbn [run nev trigger].
  unfold mbind, prog_bind. cbn [bind run nev trigger cells_handler fst snd].
  change (bind (lift teardown) ?f) with (lift teardown ≫= f).
  rewrite run_bind, run_lift. destruct (run h teardown w) as [[err|] w']; done.
Qed.

Lemma close_with_again {W} (h : handler goE W) c teardown cl w :
  did cl = Done ->
  run (cells_handler h) (close_with c teardown) (cl, w) = (Some (close_err cl), (mkCells Done (is_closed cl) (close_err cl), w)).
Proof. intros Hd. unfold close_with. simpl. by rewrite Hd. Qed.

Lemma run_closeAware {W} (h : handler goE W) c err cl w :
  run (cells_handler h) (closeAware c err) (cl, w) =
    (Some (match err with
           | None => None
           | Some e => Some (if is_error e IoEOF then e else close_aware (is_closed cl) e)
           end), (cl, w)).
Proof. destruct err as [e|]; [|done]. simpl. by destruct (is_error e IoEOF). Qed.

Lemma close_streams_spec s c : o_loaded s = true ->
  wp s (close_streams c) (fun err s' => frame s s' /\ moved s s' nothing nothing /\
    match err with
    | None => True
    | Some e => exists es, e = JoinError es /\ Forall is_iroh es /\ es <> []
    end).
Proof.
  intros Hl. eapply wp_call; [by apply RecvStream_Close_spec|].
  intros e1 s1 (Hf1 & Hm1 & _ & He1).
  eapply wp_call; [apply SendStream_Close_spec; by destruct Hf1 as (_ & _ & -> & _)|].
  intros e2 s2 (Hf2 & Hm2 & _ & He2). simpl.
  split; [by transitivity s1|]. split; [by eapply moved_nothing|].
  assert (Hi1 : forall e, e1 = Some e -> is_iroh e) by (intros e E; by eapply io_error_background, He1).
  assert (Hi2 : forall e, e2 = Some e -> is_iroh e) by (intros e E; by eapply io_error_background, He2).
  destruct e1 as [e1|], e2 as [e2|]; simpl; try done; eexists; (split; [done|]); (split; [|done]);
    repeat constructor; auto.
Qed.

(** A teardown of the two streams: what [Close] and [Reset] run once. *)
Inductive teardown : Set := TClose | TReset (ctx code : Z).
Definition run_teardown (c : StreamConn) (t : teardown) : nc error :=
  match t with TClose => StreamConn_Close c | TReset ctx code => StreamConn_Reset c ctx code end.
Definition teardown_body (c : StreamConn) (t : teardown) : go error :=
  match t with TClose => close_streams c | TReset ctx code => reset_streams c ctx code end.

(** Several of them, one after the other. *)
Fixpoint teardowns {W} (h : handler goE W) (c : StreamConn) (ts : list teardown) (w : cells * W)
    : list (option error) * (cells * W) :=
  match ts with
  | [] => ([], w)
  | t :: ts =>
      let '(r, w1) := run (cells_handler h) (run_teardown c t) w in
      let '(rs, w2) := teardowns h c ts w1 in
      (r :: rs, w2)
  end.

Lemma run_teardown_eq c t : run_teardown c t = close_with c (teardown_body c t).
Proof. by destruct t. Qed.

Lemma teardowns_again {W} (h : handler goE W) c ts b err w :
  teardowns h c ts (mkCells Done b err, w) =
    (replicate (length ts) (Some err), (mkCells Done b err, w)).
Proof.
  induction ts as [|t ts IH]; [done|]. cbn [teardowns]. rewrite run_teardown_eq.
  rewrite close_with_again by done. simpl. by rewrite IH.
Qed.

Lemma reset_streams_spec s c ctx code : o_loaded s = true ->
  wp s (reset_streams c ctx code) (fun err s' => frame s s' /\ moved s s' nothing nothing).
Proof.
  intros Hl. apply wp_bind. apply wp_bind, wp_trigger; [done|]. intros [] s1 ->. cbn [wp].
  apply wp_bind. apply wp_bind, wp_trigger; [done|]. intros [] s2 ->. cbn [wp].
  eapply wp_call; [by apply Stop_spec|]. intros e1 s1 (Hf1 & Hm1 & _ & _).
  eapply wp_call; [apply SendStream_Reset_spec; by destruct Hf1 as (_ & _ & -> & _)|].
  intros e2 s2 (Hf2 & Hm2 & _ & _). simpl. split; [by transitivity s1|by eapply moved_nothing].
Qed.

Lemma run_teardown_spec s c t : o_loaded s = true ->
  wp s (run_teardown c t) (fun _ s' => frame s s' /\ moved s s' nothing nothing).
Proof.
  intros Hl. rewrite run_teardown_eq. unfold close_with.
  apply wp_bind, wp_trigger; [done|]. intros b s1 ->. apply wp_bind.
  assert (Hbody : wp s (teardown_body c t) (fun _ s' => frame s s' /\ moved s s' nothing nothing)).
  { destruct t as [|ctx code]; [|by apply reset_streams_spec].
    eapply wp_mono; [by apply close_streams_spec|]. by intros e s' (? & ? & _). }
  eapply wp_mono with (Q := fun _ s' => frame s s' /\ moved s s' nothing nothing).
  - destruct b; [|split; [done|apply moved_refl]].
    apply wp_bind, wp_trigger; [done|]. intros [] s1 ->.
    eapply wp_call; [apply wp_lift, Hbody|]. intros err s1 H.
    apply wp_bind, wp_trigger; [done|]. intros [] s2 ->. apply wp_trigger; [done|]. by intros [] s3 ->.
  - intros [] s1 H. apply wp_trigger; [done|]. by intros e s2 ->.
Qed.

Lemma streamConn_quiet s c send recv : o_loaded s = true -> (conn_obj c ∉ o_locks s) ->
  wp s (streamConn c send recv) (fun _ s' => quiet s s').
Proof.
  intros Hl Hlock. eapply wp_call.
  { apply with_lock_quiet; [done|]. intros l. by apply remote_id_locked_quiet. }
  intros [remote [e|]] s1 Hq; [done|]. apply wp_bind, wp_trigger; [done|]. by intros o s2 [_ ->].
Qed.

(** ** Lemmas: callers of [Close] and [Reset] at once *)

(** One event of a caller; the library answers anything. *)
Definition close_event (p : nc error) (cl : cells) (p' : nc error) (cl' : cells) : Prop :=
  match p with
  | Vis e k =>
      match e in ncE X return (X -> nc error) -> Prop with
      | G _ => fun k => exists x, p' = k x /\ cl' = cl
      | N e => fun k => exists x, cell_event e cl x cl' /\ p' = k x
      end k
  | _ => False
  end.

(** Goroutines that share the cells, one event of one of them at a time. *)
Inductive closer_step : cells * list (nc error) -> cells * list (nc error) -> Prop :=
| CloserStep cl cl' ps i p p' :
    ps !! i = Some p -> close_event p cl p' cl' -> closer_step (cl, ps) (cl', <[i := p']> ps).

Section Closers.
Context (c : StreamConn).

(** What is left to the caller that runs [f], from its teardown on. *)
Definition tearing (td : go error) : nc error :=
  (err ← lift td; nev (NSetErr (sc_obj c) err);; nev (NOnceDone (sc_obj c)));; nev (NErr (sc_obj c)).

(** Where a caller is; [true] is the one that runs [f]. *)
Inductive closing (cl : cells) : bool -> nc error -> Prop :=
| ClStart td : closing cl false (close_with c td)
| ClChan td : closing cl true (Vis (N (NCloseChan (sc_obj c))) (fun _ => tearing td))
| ClRun td : is_closed cl = true -> closing cl true (tearing td)
| ClSet : is_closed cl = true -> closing cl true (nev (NOnceDone (sc_obj c));; nev (NErr (sc_obj c)))
| ClErr : did cl = Done -> is_closed cl = true -> closing cl false (nev (NErr (sc_obj c)))
| ClRet : did cl = Done -> is_closed cl = true -> closing cl false (Ret (close_err cl)).

Definition closers_ok (cl : cells) (runner : option nat) (ps : list (nc error)) : Prop :=
  (did cl = Running <-> is_Some runner) /\ (did cl = Done -> is_closed cl = true) /\
  forall i p, ps !! i = Some p -> closing cl (bool_decide (runner = Some i)) p.

(** Until [f] has returned the others have not got past [closeOnce.Do]. *)
Lemma closing_waits cl cl' p : did cl <> Done -> closing cl false p -> closing cl' false p.
Proof. intros Hd H. inversion H; subst; [apply ClStart|done..]. Qed.

Lemma closers_update cl cl' runner runner' ps i p : closers_ok cl runner ps -> is_Some (ps !! i) ->
  (did cl' = Running <-> is_Some runner') -> (did cl' = Done -> is_closed cl' = true) ->
  closing cl' (bool_decide (runner' = Some i)) p ->
  (runner = None \/ runner = Some i) -> (runner' = None \/ runner' = Some i) -> (cl' = cl \/ did cl <> Done) ->
  closers_ok cl' runner' (<[i := p]> ps).
Proof.
  intros (Hr & Hd & Hp) _ Hr' Hd' Hi Hrun Hrun' Hcl. split; [done|]. split; [done|].
  intros j q. rewrite list_lookup_insert_Some. intros [(<- & <- & _)|[Hne Hj]]; [done|].
  specialize (Hp j q Hj). rewrite bool_decide_eq_false_2 in Hp by (destruct Hrun as [->| ->]; congruence).
  rewrite bool_decide_eq_false_2 by (destruct Hrun' as [->| ->]; congruence).
  destruct Hcl as [->|Hcl]; [done|by eapply closing_waits].
Qed.

(** What an event of the runner leads to, and of another. *)
Lemma closing_runs cl b p p' cl' : closing cl b p -> b = true -> did cl = Running -> close_event p cl p' cl' ->
  (did cl' = Running /\ closing cl' true p') \/
  (did cl' = Done /\ is_closed cl' = true /\ closing cl' false p').
Proof.
  intros [td|td|td Hc|Hc|? ?|? ?] Eb Hd He; try done; cbn in He.
  - destruct He as (x & -> & ->). left. split; [done|]. by apply ClRun.
  - left. destruct td as [err|Y e k|why]; cbn in He; [| |done].
    + destruct He as (x & -> & ->). split; [done|]. by apply ClSet.
    + destruct He as (x & -> & ->). split; [done|]. by apply (ClRun cl (k x)).
  - destruct He as (x & -> & ->). right. split; [done|]. split; [done|]. by apply ClErr.
Qed.

Lemma closing_other cl b p p' cl' : closing cl b p -> b = false -> (did cl = Done -> is_closed cl = true) ->
  close_event p cl p' cl' ->
  (did cl = Fresh /\ did cl' = Running /\ closing cl' true p') \/ (cl' = cl /\ closing cl' false p').
Proof.
  intros [td|td|td Hc|Hc|Hd Hc|Hd Hc] Eb Hdone He; try done; cbn in He.
  - destruct He as (x & [(Hf & -> & ->)|(Hf & -> & ->)] & ->).
    + left. split; [done|]. split; [done|]. apply ClChan.
    + right. split; [done|]. apply ClErr; auto.
  - destruct He as (x & [-> ->] & ->). right. split; [done|]. by apply ClRet.
Qed.

Lemma closer_step_ok cl runner ps cl' ps' : closers_ok cl runner ps -> closer_step (cl, ps) (cl', ps') ->
  exists runner', closers_ok cl' runner' ps'.
Proof.
  intros Hok Hstep. inversion Hstep as [? ? ? i p p' Hi He]; subst. pose proof Hok as (Hr & Hd & Hp).
  assert (is_Some (ps !! i)) as Hsome by (by eexists). pose proof (Hp i p Hi) as Hc.
  case_bool_decide as Ei.
  - destruct (closing_runs cl _ p p' cl' Hc eq_refl) as [[Hd' Hc']|(Hd' & Hcl & Hc')]; [apply Hr; by rewrite Ei|done| |].
    + exists runner. apply (closers_update cl _ runner _ _ _ _ Hok Hsome); rewrite ?Hd', ?Ei; auto.
      * split; [by eexists|done].
      * done.
      * by rewrite bool_decide_eq_true_2.
      * right. rewrite (proj2 Hr) by (by rewrite Ei). done.
    + exists None. apply (closers_update cl _ runner _ _ _ _ Hok Hsome); rewrite ?Hd', ?Ei; auto.
      * split; [done|by intros [? ?]].
      * right. rewrite (proj2 Hr) by (by rewrite Ei). done.
  - destruct (closing_other cl _ p p' cl' Hc eq_refl Hd He) as [(Hf & Hd' & Hc')|[-> Hc']].
    + assert (runner = None) as Hn by (destruct runner; [|done]; rewrite (proj2 Hr) in Hf by (by eexists); done).
      exists (Some i). apply (closers_update cl _ runner _ _ _ _ Hok Hsome); rewrite ?Hd'; auto.
      * split; [by eexists|done].
      * done.
      * by rewrite bool_decide_eq_true_2.
      * right. by rewrite Hf.
    + exists runner. split; [done|]. split; [done|]. intros j q.
      rewrite list_lookup_insert_Some. intros [(<- & <- & _)|[_ Hj]]; [by rewrite bool_decide_eq_false_2|by apply Hp].
Qed.

End Closers.

(** ** Properties *)

(** C29. Reading and writing through a [net.Conn] is as exact as on the stream
    underneath: the bytes reported are the bytes moved, everything taken is
    given back, and the only errors are the end of the stream, [net.ErrClosed],
    a timeout a [net.Error] assertion recognises, a closed handle and the
    library's own. *)
Theorem stream_conn_io_exact (c : StreamConn) (s : owned) (p : bytes) (fuel : nat) :
  o_loaded s = true -> (send_obj (sc_send c) ∉ o_locks s) -> (recv_obj (sc_recv c) ∉ o_locks s) ->
  len p < two63 -> (o_changes s < fuel)%nat ->
  wp s (StreamConn_Write fuel c p) (fun '(n, err) s' =>
    frame s s' /\ 0 <= n <= len p /\
    moved s s' (only (behind s (send_obj (sc_send c))) (take (Z.to_nat n) p)) nothing /\
    match err with None => n = len p | Some e => conn_error e end) /\
  wp s (StreamConn_Read fuel c p) (fun '(n, err, p') s' =>
    frame s s' /\ filled p p' n /\
    moved s s' nothing (only (behind s (recv_obj (sc_recv c))) (take (Z.to_nat n) p')) /\
    match err with
    | None => True
    | Some e => n = 0 /\ p' = p /\ (e = Sentinel IoEOF \/ conn_error e)
    end).
Proof.
  intros Hl Hsl Hrl Hp Hfuel. split.
  - eapply wp_call; [apply wp_lift, (Write_loop_spec (sc_send c) p s); try done|].
    { unfold len. lia. }
    { apply moved_only_nil, moved_refl. }
    intros [n err] s1 (Hf & Hn & Hm & He).
    eapply wp_call; [apply closeAware_spec|]. intros err' s2 [-> Herr]. simpl.
    split; [done|]. split; [done|]. split; [done|].
    destruct err as [e|]; [|by subst]. destruct Herr as [b ->].
    destruct (close_aware_stream b e He) as (-> & Hc & _). exact Hc.
  - eapply wp_call; [apply wp_lift, (Read_loop_spec (sc_recv c) p s); try done|].
    { apply moved_refl. }
    intros [[n err] p'] s1 (Hf & Hfill & Hm & He).
    eapply wp_call; [apply closeAware_spec|]. intros err' s2 [-> Herr]. simpl.
    split; [done|]. split; [done|]. split; [done|].
    destruct err as [e|]; [|by subst]. destruct Herr as [b ->]. destruct He as (-> & -> & He).
    split; [done|]. split; [done|]. destruct He as [->|He]; [by left|]. right.
    destruct (close_aware_stream b e He) as (-> & Hc & _). exact Hc.
Qed.

(** C32. After [Close], a read reports [net.ErrClosed].  Against any library that
    keeps the contract, a [StreamConn.Read] that ends once the stream was closed
    reports, if not the end of the stream, [net.ErrClosed] or a failure of the
    connection: never the timeout that [Close] used to get the stream back, and
    never the package's own [ErrClosed]. *)
Theorem closed_conn_reports_closed {W} (h : handler goE W) (R : W -> owned -> Prop) (w : W)
    (c : StreamConn) (cl : cells) (s : owned) (p : bytes) (fuel : nat) :
  implements h R -> R w s ->
  o_loaded s = true -> (recv_obj (sc_recv c) ∉ o_locks s) -> len p < two63 ->
  (o_changes s < fuel)%nat -> is_closed cl = true ->
  exists n err p', (run (cells_handler h) (StreamConn_Read fuel c p) (cl, w)).1 = Some (n, err, p') /\
    forall e, err = Some e -> e = Sentinel IoEOF \/ e = Sentinel NetErrClosed \/
      (is_iroh e /\ is_error e ErrClosed = false).
Proof.
  intros Himp HR Hl Hlock Hp Hfuel Hcl.
  destruct (wp_run h R (Read fuel (sc_recv c) p) Himp w s
    (fun '(n, err, p') s' => match err with
       | None => True | Some e => n = 0 /\ p' = p /\ (e = Sentinel IoEOF \/ stream_error e) end))
    as ([[n err] p'] & s' & Hrun & _ & He); [done| |].
  { eapply wp_mono; [by apply (Read_loop_spec (sc_recv c) p s); try done; apply moved_refl|].
    by intros [[n err] p'] s' (_ & _ & _ & He). }
  unfold StreamConn_Read. rewrite run_bind, run_lift.
  destruct (run h (Read fuel (sc_recv c) p) w) as [r w']. simpl in Hrun. subst r. cbn [fst snd].
  rewrite run_bind, run_closeAware. rewrite Hcl. eexists _, _, _. split; [reflexivity|].
  intros e0. destruct err as [e|]; [|done]. intros [= <-]. destruct He as (_ & _ & [->|He]); [by left|].
  right. destruct (close_aware_stream true e He) as (-> & Hc & Hclosed).
  destruct (Hclosed eq_refl) as [H1 H2].
  destruct Hc as [->|[E|[E|Hi]]]; [by left|rewrite E in H2; done|rewrite E in H1; done|by right].
Qed.

(** A [net.Conn] is torn down once: of any number of [Close] and [Reset]
    calls, in any order, the first runs the teardown it stands for and every
    call reports that teardown's error, and none of the others touches the
    streams or the library; each teardown leaves nothing behind. *)
Theorem conn_torn_down_once {W} (h : handler goE W) (c : StreamConn) (w : W) (s : owned)
    (t : teardown) (ts : list teardown) (err : error) :
  o_loaded s = true -> (run h (teardown_body c t) w).1 = Some err ->
  teardowns h c (t :: ts) (open_cells, w) =
    (replicate (S (length ts)) (Some err), (mkCells Done true err, (run h (teardown_body c t) w).2)) /\
  wp s (run_teardown c t) (fun _ s' => frame s s' /\ moved s s' nothing nothing).
Proof.
  intros Hl Hrun. split; [|by apply run_teardown_spec].
  cbn [teardowns]. rewrite run_teardown_eq, close_with_first by done.
  destruct (run h (teardown_body c t) w) as [r w']. simpl in Hrun. subst r.
  rewrite teardowns_again. done.
Qed.

(** Callers of [Close] and [Reset] that come at once agree: however their events
    interleave, and whatever the library answers them, all that have returned
    report one error, and none returns before the teardown is over. *)
Theorem concurrent_closers_agree (c : StreamConn) (tds : list (go error)) (cl : cells) (ps : list (nc error)) :
  rtc closer_step (open_cells, map (close_with c) tds) (cl, ps) ->
  forall i e, ps !! i = Some (Ret e) -> did cl = Done /\ is_closed cl = true /\ e = close_err cl.
Proof.
  intros Hsteps. assert (exists runner, closers_ok c cl runner ps) as (runner & _ & _ & Hp).
  { remember (open_cells, map (close_with c) tds) as st eqn:Est. remember (cl, ps) as st' eqn:Est'.
    assert (exists runner, closers_ok c st.1 runner st.2) as Hok.
    { subst st. exists None. split; [split; [done|by intros [? ?]]|]. split; [done|]. intros i p. cbn.
      rewrite list_lookup_fmap. destruct (tds !! i); [|done]. intros [= <-]. apply ClStart. }
    clear Est. revert Est'. induction Hsteps as [st|[cl1 ps1] [cl2 ps2] st3 H1 _ IH]; [by intros ->|].
    destruct Hok as [runner Hok]. apply IH. by eapply closer_step_ok. }
  intros i e Hi. specialize (Hp i _ Hi). remember (Ret e) as p eqn:Ep.
  destruct Hp as [td|td|td Hc|Hc|Hd Hc|Hd Hc]; try done; [by destruct td|]. by injection Ep as <-.
Qed.

(** ** Witnesses *)

Definition a_stream_conn : StreamConn :=
  mkStreamConn 50 (mkSend 40 50) (mkRecv 40 50) (zero_bytes 32) (zero_bytes 32).

Example stream_conn_io_exact_witness :
  wp a_writer (StreamConn_Write 3 a_stream_conn $"hello") (fun '(n, err) s' =>
    frame a_writer s' /\ 0 <= n <= 5 /\
    moved a_writer s' (only 7 (take (Z.to_nat n) $"hello")) nothing /\
    match err with None => n = 5 | Some e => conn_error e end).
Proof.
  apply (stream_conn_io_exact a_stream_conn a_writer $"hello" 3);
    [reflexivity|apply (bool_decide_unpack _); vm_compute; exact I
    |apply (bool_decide_unpack _); vm_compute; exact I|reflexivity|simpl; lia].
Defined.

Example closed_conn_reports_closed_witness :
  exists n err p',
    (run (cells_handler (ref_handler 2)) (StreamConn_Read 3 a_stream_conn $"....")
       (mkCells Done true None, (a_writer, ∅))).1 = Some (n, err, p') /\
    forall e, err = Some e -> e = Sentinel IoEOF \/ e = Sentinel NetErrClosed \/
      (is_iroh e /\ is_error e ErrClosed = false).
Proof.
  apply (closed_conn_reports_closed (ref_handler 2) ref_rel (a_writer, ∅) a_stream_conn
           (mkCells Done true None) a_writer $"...." 3);
    [apply ref_implements| |reflexivity
    |apply (bool_decide_unpack _); vm_compute; exact I|reflexivity|simpl; lia|reflexivity].
  split; [reflexivity|]. intros op st H. discriminate.
Defined.

Example conn_torn_down_once_witness :
  (teardowns (ref_handler 2) a_stream_conn [TClose; TReset 0 5; TClose] (open_cells, (a_writer, ∅))).1 =
    [Some None; Some None; Some None].
Proof.
  exact (f_equal fst (proj1 (conn_torn_down_once (ref_handler 2) a_stream_conn (a_writer, ∅) a_writer
    TClose [TReset 0 5; TClose] None ltac:(reflexivity) ltac:(vm_compute; reflexivity)))).
Defined.

(** A write of five bytes, two at a time. *)
Example write_in_chunks :
  let r := run (ref_handler 2) (Write 1 (mkSend 40 50) $"hello" 0) (a_writer, ∅) in
  r.1 = Some (5, None) /\ sent_on 7 r.2.1 = $"hello".
Proof. split; vm_compute; reflexivity. Qed.
