(* ===== verification/Listener.v ===== *)
(** The listener: [netconn.go], [Listener] and what it runs.

    The bodies of the goroutines ([accept], one [serve] per connection, callers
    of [Accept]) are programs over the events they interact through.  The
    machine [lstep] runs them together, one event of one goroutine at a time: a
    send and a receive on the unbuffered [conns] meet in one step, a [select]
    takes any ready case, and the two critical sections of [errMu] are atomic.
    A goroutine is what is left of its current round; [Ret true] is the end of
    a round of its loop and [Ret false] its return.

    The library is behind four events: [Endpoint.Accept] ([Endpoint.v]),
    [Conn.AcceptConn] and [StreamConn.Close] ([NetConn.v]) and
    [Conn.CloseWithError] ([Conn.v]).  The first two may return anything at any
    time, a new object each time they succeed. *)
From S2P Require Import Prelude GoErrors Prog.
Local Open Scope Z_scope.

(** ** Events *)

Inductive lE : Type -> Type :=
| LAccept : lE (Z + gerror)                   (* l.endpoint.Accept(l.ctx) *)
| LCtxErr : lE bool                           (* l.ctx.Err() != nil *)
| LGo (conn : Z) : lE unit                    (* go l.serve(conn) *)
| LLocked {X} (f : bool -> error -> X * error) : lE X
    (* a critical section of errMu, on l.ctx.Err() != nil and l.err *)
| LCancel : lE unit                           (* l.closeOnce.Do(l.cancel) *)
| LAuthorize (conn : Z) : lE error            (* l.opts.Authorize(conn) *)
| LCloseWithError (conn code : Z) (reason : gomsg) : lE unit
| LAcceptConn (conn : Z) : lE (Z + gerror)    (* conn.AcceptConn(l.ctx) *)
| LOffer (stream : Z) : lE bool
    (* select: l.conns <- stream (true), or <-l.ctx.Done() (false) *)
| LCloseStream (stream : Z) : lE unit         (* stream.Close() *)
| LTake : lE (Z + unit).
    (* select: conn := <-l.conns (inl), or <-l.ctx.Done() (inr) *)

Abbreviation lp := (prog lE).
Definition ev {X} (e : lE X) : lp X := trigger e.

(** ** The code *)

(** [src/netconn.go:196-207 ListenOptions] [None] is a nil [Authorize]; it runs
    once per connection, so a function of the connection is any behaviour. *)
Record ListenOptions := mkListenOptions { Authorize : option (Z -> error) }.

(** [src/netconn.go:45-45 refusedCode] *)
Definition refusedCode : Z := 1.

(** [src/netconn.go:298-301 Listener.Close] *)
Definition Listener_Close : lp error := ev LCancel;; Ret None.

(** [src/netconn.go:307-316 Listener.fail] The critical section. *)
Definition fail_locked (err : gerror) (done : bool) (cur : error) : unit * error :=
  (tt, match cur with
       | None => Some (if done then Sentinel NetErrClosed else err)
       | Some _ => cur
       end).

(** [src/netconn.go:306-318 Listener.fail] *)
Definition fail (err : gerror) : lp unit :=
  ev (LLocked (fail_locked err));; Listener_Close;; Ret tt.

(** [src/netconn.go:246-260 Listener.accept] What a round does with the result
    of [Endpoint.Accept]. *)
Definition after_accept (r : Z + gerror) : lp bool :=
  match r with
  | inr err =>
      done ← ev LCtxErr;
      if (done : bool) || is_error err ErrClosed then fail err;; Ret false
      else Ret true
  | inl conn => ev (LGo conn);; Ret true
  end.

(** [src/netconn.go:244-262 Listener.accept] One round of the loop. *)
Definition accept_round : lp bool := r ← ev LAccept; after_accept r.

(** [src/netconn.go:264-270 Listener.serve] Up to the loop. *)
Definition serve (opts : ListenOptions) (conn : Z) : lp bool :=
  match Authorize opts with
  | Some _ =>
      err ← ev (LAuthorize conn);
      match err with
      | Some e => ev (LCloseWithError conn refusedCode (error_text e));; Ret false
      | None => Ret true
      end
  | None => Ret true
  end.

(** [src/netconn.go:276-281 Listener.serve] The select. *)
Definition offer (stream : Z) : lp bool :=
  sent ← ev (LOffer stream);
  if sent : bool then Ret true else ev (LCloseStream stream);; Ret false.

(** [src/netconn.go:271-282 Listener.serve] One round of the loop. *)
Definition serve_round (conn : Z) : lp bool :=
  r ← ev (LAcceptConn conn);
  match r with inr _ => Ret false | inl stream => offer stream end.

(** [src/netconn.go:320-327 Listener.acceptErr] *)
Definition acceptErr : lp gerror :=
  ev (LLocked (fun _ cur => (match cur with Some e => e | None => Sentinel NetErrClosed end, cur))).

(** [src/netconn.go:287-294 Listener.Accept] *)
Definition Listener_Accept : lp (Z + gerror) :=
  r ← ev LTake;
  match r with inl conn => Ret (inl conn) | inr _ => err ← acceptErr; Ret (inr err) end.

(** ** The machine *)

(** [src/netconn.go:214-225 Listener] With its goroutines, and what happened to
    streams and connections: the connection each accepted stream came in on,
    the connections closed, the streams closed. *)
Record listener := mkListener {
  l_done : bool;                      (* l.ctx is done *)
  l_err : error;
  acceptor : lp bool;
  servers : gmap Z (lp bool);         (* by connection *)
  callers : gmap Z (lp (Z + gerror)); (* callers of Accept *)
  opened : gmap Z Z;
  told : gmap Z (Z * gomsg);
  dropped : list Z
}.

(** [src/netconn.go:229-240 Endpoint.Listener] *)
Definition listener_init : listener := mkListener false None (Ret true) ∅ ∅ ∅ ∅ [].

Definition set_done l := mkListener true (l_err l) (acceptor l) (servers l) (callers l) (opened l) (told l) (dropped l).
Definition set_err e l := mkListener (l_done l) e (acceptor l) (servers l) (callers l) (opened l) (told l) (dropped l).
Definition set_acceptor p l := mkListener (l_done l) (l_err l) p (servers l) (callers l) (opened l) (told l) (dropped l).
Definition set_server c p l := mkListener (l_done l) (l_err l) (acceptor l) (<[c := p]> (servers l)) (callers l) (opened l) (told l) (dropped l).
Definition set_caller t p l := mkListener (l_done l) (l_err l) (acceptor l) (servers l) (<[t := p]> (callers l)) (opened l) (told l) (dropped l).
Definition set_opened st c l := mkListener (l_done l) (l_err l) (acceptor l) (servers l) (callers l) (<[st := c]> (opened l)) (told l) (dropped l).
Definition set_told c x l := mkListener (l_done l) (l_err l) (acceptor l) (servers l) (callers l) (opened l) (<[c := x]> (told l)) (dropped l).
Definition set_dropped st l := mkListener (l_done l) (l_err l) (acceptor l) (servers l) (callers l) (opened l) (told l) (st :: dropped l).

Section Machine.
Context (opts : ListenOptions).

(** What an event may answer, and what it does.  When [closing], the calls
    into the library report failures: their context is done. *)
Definition event (closing : bool) {X} (e : lE X) (l : listener) : X -> listener -> Prop :=
  match e in lE X return X -> listener -> Prop with
  | LAccept => fun r l' => l' = l /\
      match r with inl conn => closing = false /\ servers l !! conn = None | inr _ => True end
  | LCtxErr => fun b l' => l' = l /\ b = l_done l
  | LGo conn => fun _ l' => l' = set_server conn (serve opts conn) l
  | LLocked f => fun x l' => x = (f (l_done l) (l_err l)).1 /\ l' = set_err (f (l_done l) (l_err l)).2 l
  | LCancel => fun _ l' => l' = set_done l
  | LAuthorize conn => fun err l' => l' = l /\
      err = match Authorize opts with Some f => f conn | None => None end
  | LCloseWithError conn code reason => fun _ l' => l' = set_told conn (code, reason) l
  | LAcceptConn conn => fun r l' =>
      match r with
      | inl stream => closing = false /\ opened l !! stream = None /\ l' = set_opened stream conn l
      | inr _ => l' = l
      end
  | LOffer _ => fun b l' => b = false /\ l_done l = true /\ l' = l
  | LCloseStream stream => fun _ l' => l' = set_dropped stream l
  | LTake => fun r l' => r = inr tt /\ l_done l = true /\ l' = l
  end.

(** One event of a goroutine, on its own. *)
Definition moves {A} (closing : bool) (p : lp A) (l : listener) (p' : lp A) (l' : listener) : Prop :=
  match p with
  | Vis e k => exists x, event closing e l x l' /\ p' = k x
  | _ => False
  end.

(** A goroutine at the send, or at the receive, of [conns]. *)
Definition sends (p : lp bool) : option (Z * lp bool) :=
  match p with
  | Vis e k =>
      match e in lE X return (X -> lp bool) -> option (Z * lp bool) with
      | LOffer stream => fun k => Some (stream, k true)
      | _ => fun _ => None
      end k
  | _ => None
  end.
Definition receives (p : lp (Z + gerror)) : option (Z -> lp (Z + gerror)) :=
  match p with
  | Vis e k =>
      match e in lE X return (X -> lp (Z + gerror)) -> option (Z -> lp (Z + gerror)) with
      | LTake => fun k => Some (fun stream => k (inl stream))
      | _ => fun _ => None
      end k
  | _ => None
  end.

(** The goroutines. *)
Inductive gstep (closing : bool) : listener -> listener -> Prop :=
| GAcceptLoop l : acceptor l = Ret true -> gstep closing l (set_acceptor accept_round l)
| GAcceptor l p' l' : moves closing (acceptor l) l p' l' -> gstep closing l (set_acceptor p' l')
| GServeLoop l c : servers l !! c = Some (Ret true) -> gstep closing l (set_server c (serve_round c) l)
| GServer l c p p' l' : servers l !! c = Some p -> moves closing p l p' l' ->
    gstep closing l (set_server c p' l')
| GCaller l t p p' l' : callers l !! t = Some p -> moves closing p l p' l' ->
    gstep closing l (set_caller t p' l')
| GRendezvous l c t p q stream p' k :
    servers l !! c = Some p -> callers l !! t = Some q ->
    sends p = Some (stream, p') -> receives q = Some k ->
    gstep closing l (set_caller t (k stream) (set_server c p' l)).

(** The users: calls of [Accept] and of [Close]. *)
Inductive ustep : listener -> listener -> Prop :=
| UAccept l t : callers l !! t = None -> ustep l (set_caller t Listener_Accept l)
| UClose l : ustep l (set_done l).

Definition lstep (l l' : listener) : Prop := gstep false l l' \/ ustep l l'.
Definition lreachable (l : listener) : Prop := rtc lstep listener_init l.

(** Only users and library calls that have not returned are left. *)
Definition idle (closing : bool) (l : listener) : Prop := forall l', ~ gstep closing l l'.

(** ** The invariant *)

(** A peer [Authorize] lets in. *)
Definition allowed (c : Z) : Prop :=
  match Authorize opts with Some f => f c = None | None => True end.
(** One it refuses, with what its connection is then closed with. *)
Definition refused (c : Z) (x : Z * gomsg) : Prop :=
  exists f e, Authorize opts = Some f /\ f c = Some e /\ x = (refusedCode, error_text e).

(** The error [acceptErr] reports from here on. *)
Definition reported (l : listener) (e : gerror) : Prop :=
  l_done l = true /\ (l_err l = Some e \/ l_err l = None /\ e = Sentinel NetErrClosed).

Inductive accepting (l : listener) (p : lp bool) : Prop :=
| AccLoop : p = Ret true -> accepting l p
| AccWait : p = accept_round -> accepting l p
| AccConn conn : p = after_accept (inl conn) -> servers l !! conn = None -> accepting l p
| AccErr e : p = after_accept (inr e) -> accepting l p
| AccFail e : p = (fail e;; Ret false) -> l_done l = true \/ is_error e ErrClosed = true ->
    accepting l p
| AccClose e : p = ((Listener_Close;; Ret tt);; Ret false) -> l_err l = Some e -> accepting l p
| AccEnd e : p = Ret false -> l_done l = true -> l_err l = Some e -> accepting l p.

Inductive serving (l : listener) (c : Z) (p : lp bool) : Prop :=
| SvStart f : Authorize opts = Some f -> p = serve opts c -> serving l c p
| SvRefuse f e : Authorize opts = Some f -> f c = Some e ->
    p = (ev (LCloseWithError c refusedCode (error_text e));; Ret false) -> serving l c p
| SvLoop : allowed c -> p = Ret true -> serving l c p
| SvAccept : allowed c -> p = serve_round c -> serving l c p
| SvOffer stream : allowed c -> p = offer stream -> opened l !! stream = Some c -> serving l c p
| SvDrop stream : p = (ev (LCloseStream stream);; Ret false) -> allowed c ->
    opened l !! stream = Some c -> l_done l = true -> serving l c p
| SvEnd : p = Ret false -> allowed c -> serving l c p
| SvTold x : p = Ret false -> refused c x -> told l !! c = Some x -> serving l c p.

Inductive calling (l : listener) (p : lp (Z + gerror)) : Prop :=
| ClTake : p = Listener_Accept -> calling l p
| ClErr : p = (err ← acceptErr; Ret (inr err)) -> l_done l = true -> calling l p
| ClGot stream : p = Ret (inl stream) -> calling l p
| ClFailed e : p = Ret (inr e) -> reported l e -> calling l p.

(** The places an accepted stream can be in: with its serve goroutine, with a
    caller of [Accept], closed. *)
Definition holds (stream : Z) (p : lp bool) : nat :=
  match p with
  | Vis e _ =>
      match e with
      | LOffer st | LCloseStream st => if decide (st = stream) then 1 else 0
      | _ => 0
      end
  | _ => 0
  end.
Definition got (stream : Z) (p : lp (Z + gerror)) : nat :=
  match p with Ret (inl st) => if decide (st = stream) then 1 else 0 | _ => 0 end.
Definition closes (stream : Z) (l : list Z) : nat := length (filter (fun st => st = stream) l).

Definition held_by_servers (stream : Z) (l : listener) : nat := msum (holds stream) (servers l).
Definition delivered (stream : Z) (l : listener) : nat := msum (got stream) (callers l).
Definition closed_unserved (stream : Z) (l : listener) : nat := closes stream (dropped l).

Record linv (l : listener) : Prop := {
  li_acceptor : accepting l (acceptor l);
  li_servers : forall c p, servers l !! c = Some p -> serving l c p;
  li_callers : forall t p, callers l !! t = Some p -> calling l p;
  li_opened : forall stream c, opened l !! stream = Some c -> allowed c;
  li_told : forall c x, told l !! c = Some x -> refused c x;
  li_err : forall e, l_err l = Some e -> e = Sentinel NetErrClosed \/ is_error e ErrClosed = true;
  li_dropped : dropped l <> [] -> l_done l = true;
  li_place : forall stream, (held_by_servers stream l + delivered stream l + closed_unserved stream l)%nat =
    match opened l !! stream with Some _ => 1%nat | None => 0%nat end
}.

(** ** Lemmas: what goroutines rely on *)

(** What a step changes for the others. *)
Definition keeps (l l' : listener) : Prop :=
  (l_done l = true -> l_done l' = true) /\
  (forall st c, opened l !! st = Some c -> opened l' !! st = Some c) /\
  (forall c x, told l !! c = Some x -> told l' !! c = Some x) /\
  (forall e, reported l e -> reported l' e) /\
  (forall e, l_err l = Some e -> l_err l' = Some e).

Lemma keeps_refl l : keeps l l.
Proof. by split_and!. Qed.

Lemma keeps_eq l l' : l_done l' = l_done l -> opened l' = opened l -> told l' = told l ->
  l_err l' = l_err l -> keeps l l'.
Proof. intros Ed Eo Et Ee. unfold keeps, reported. by rewrite Ed, Eo, Et, Ee. Qed.

Lemma serving_keeps l l' c p : keeps l l' -> serving l c p -> serving l' c p.
Proof.
  intros (Hd & Ho & Ht & _ & _) [f|f e| | |st|st| |x];
    [eapply SvStart|eapply SvRefuse|eapply SvLoop|eapply SvAccept|eapply SvOffer|eapply SvDrop
    |eapply SvEnd|eapply SvTold]; eauto.
Qed.

Lemma calling_keeps l l' p : keeps l l' -> calling l p -> calling l' p.
Proof.
  intros (Hd & _ & _ & Hr & _) [| |st|e]; [eapply ClTake|eapply ClErr|eapply ClGot|eapply ClFailed]; eauto.
Qed.

Lemma refused_fun c x y : refused c x -> refused c y -> x = y.
Proof. intros (f & e & H1 & H2 & ->) (g & e' & H3 & H4 & ->). naive_solver. Qed.

Lemma accepting_keeps l l' p : keeps l l' ->
  (forall c, servers l !! c = None -> servers l' !! c = None) -> accepting l p -> accepting l' p.
Proof.
  intros (Hd & _ & _ & _ & He) Hs [| |conn|e|e ? [?|?]|e|e];
    [eapply AccLoop|eapply AccWait|eapply AccConn|eapply AccErr|eapply AccFail|eapply AccFail
    |eapply AccClose|eapply AccEnd]; eauto.
Qed.

(** ** Lemmas: the invariant is preserved *)

Lemma linv_init : linv listener_init.
Proof. constructor; simpl; try done. by apply AccLoop. Qed.

Lemma linv_set_acceptor l p : linv l -> accepting l p -> linv (set_acceptor p l).
Proof.
  intros I H. assert (K : keeps l (set_acceptor p l)) by by apply keeps_eq. destruct I.
  constructor; simpl; try done; eauto using accepting_keeps, serving_keeps, calling_keeps.
Qed.

(** Effects on the shared part that no place of a stream depends on. *)
Lemma linv_shared l l' :
  linv l -> keeps l l' -> acceptor l' = acceptor l -> servers l' = servers l ->
  callers l' = callers l -> opened l' = opened l -> dropped l' = dropped l ->
  (forall c x, told l' !! c = Some x -> refused c x) ->
  (forall e, l_err l' = Some e -> e = Sentinel NetErrClosed \/ is_error e ErrClosed = true) ->
  linv l'.
Proof.
  intros I K Ea Es Ec Eo Ed Ht He. pose proof K as (Hd & _). constructor.
  - rewrite Ea. eapply accepting_keeps; [done| |by apply li_acceptor]. by rewrite Es.
  - intros c p Hp. rewrite Es in Hp. by eapply serving_keeps, li_servers.
  - intros t p Hp. rewrite Ec in Hp. by eapply calling_keeps, li_callers.
  - rewrite Eo. apply (li_opened _ I).
  - done.
  - done.
  - rewrite Ed. intros H. by apply Hd, (li_dropped _ I).
  - intros st. unfold held_by_servers, delivered, closed_unserved. rewrite Es, Ec, Eo, Ed. apply (li_place _ I).
Qed.

Lemma linv_set_done l : linv l -> linv (set_done l).
Proof.
  intros I. apply (linv_shared l); try done.
  - split_and!; try done. by intros e [_ H].
  - apply (li_told _ I).
  - apply (li_err _ I).
Qed.

Lemma linv_latch l e : linv l -> l_done l = true \/ is_error e ErrClosed = true ->
  linv (set_err (fail_locked e (l_done l) (l_err l)).2 l).
Proof.
  intros I He. apply (linv_shared l); try done.
  - split_and!; try done.
    + intros e' [Hd [H|[H ->]]]; (split; [done|]); simpl; rewrite H; [by left|]. left. by rewrite Hd.
    + intros e' H. simpl. by rewrite H.
  - apply (li_told _ I).
  - intros e' H. simpl in H. destruct (l_err l) as [e0|] eqn:E.
    + simplify_eq. by apply (li_err _ I).
    + simplify_eq. destruct He as [->|He]; [by left|]. destruct (l_done l); [by left|by right].
Qed.

Lemma linv_set_told l c x : linv l -> refused c x -> linv (set_told c x l).
Proof.
  intros I Hx. apply (linv_shared l); try done.
  - split_and!; try done. intros d y H. simpl. destruct (decide (c = d)) as [->|Hne].
    + rewrite lookup_insert_eq. f_equal. eapply refused_fun; [done|]. by apply (li_told _ I).
    + by rewrite lookup_insert_ne.
  - intros d y. simpl. destruct (decide (c = d)) as [->|Hne].
    + rewrite lookup_insert_eq. by intros [= <-].
    + rewrite lookup_insert_ne by done. apply (li_told _ I).
  - apply (li_err _ I).
Qed.

Lemma holds_serve st c : holds st (serve opts c) = 0%nat.
Proof. unfold serve. by destruct (Authorize opts). Qed.

Lemma serving_start l c : serving l c (serve opts c).
Proof.
  destruct (Authorize opts) as [f|] eqn:E; [by eapply SvStart|].
  apply SvLoop; [unfold allowed; by rewrite E|]. unfold serve. by rewrite E.
Qed.

Lemma linv_spawn l c : linv l -> servers l !! c = None -> accepting l (Ret true) ->
  linv (set_acceptor (Ret true) (set_server c (serve opts c) l)).
Proof.
  intros I Hc Ha.
  assert (K : keeps l (set_acceptor (Ret true) (set_server c (serve opts c) l))) by by apply keeps_eq.
  destruct I. constructor; simpl; try done; eauto using calling_keeps.
  - by apply AccLoop.
  - intros d p. destruct (decide (c = d)) as [->|Hne].
    + rewrite lookup_insert_eq. intros [= <-]. apply serving_start.
    + rewrite lookup_insert_ne by done. eauto using serving_keeps.
  - intros st. rewrite <-li_place0. unfold held_by_servers. simpl.
    by rewrite msum_insert, holds_serve by done.
Qed.

(** A server moves on, and streams with it. *)
Lemma linv_server l l' c p p' :
  linv l -> keeps l l' -> servers l !! c = Some p -> serving l' c p' ->
  acceptor l' = acceptor l -> servers l' = servers l -> callers l' = callers l ->
  told l' = told l -> l_err l' = l_err l ->
  (forall st d, opened l' !! st = Some d -> opened l !! st = Some d \/ allowed d) ->
  (dropped l' <> [] -> l_done l' = true) ->
  (forall st, (holds st p' + closes st (dropped l') + match opened l !! st with Some _ => 1 | None => 0 end =
               holds st p + closes st (dropped l) + match opened l' !! st with Some _ => 1 | None => 0 end)%nat) ->
  linv (set_server c p' l').
Proof.
  intros I K Hc Hp' Ea Es Ec Et Ee Ho Hdr Hpl.
  assert (Hn : forall d, servers l !! d = None -> servers (set_server c p' l') !! d = None).
  { intros d Hd. simpl. rewrite Es, lookup_insert_ne by congruence. done. }
  constructor; simpl.
  - rewrite Ea. eapply accepting_keeps; [exact K|exact Hn|apply (li_acceptor _ I)].
  - rewrite Es. intros d q. destruct (decide (c = d)) as [->|Hne].
    + rewrite lookup_insert_eq. intros [= <-]. eapply (serving_keeps l'); [by apply keeps_eq|done].
    + rewrite lookup_insert_ne by done. intros H. eapply (serving_keeps l); [exact K|]. by apply (li_servers _ I).
  - rewrite Ec. intros t q H. eapply (calling_keeps l); [exact K|]. by apply (li_callers _ I t).
  - intros st d H. destruct (Ho _ _ H); [by eapply (li_opened _ I)|done].
  - rewrite Et. apply (li_told _ I).
  - rewrite Ee. apply (li_err _ I).
  - done.
  - intros st. unfold held_by_servers, delivered, closed_unserved. simpl. rewrite Es, Ec.
    pose proof (li_place _ I st) as H1. pose proof (Hpl st) as H2.
    pose proof (msum_update (holds st) _ _ _ p' Hc) as H3.
    unfold held_by_servers, delivered, closed_unserved in H1. lia.
Qed.

Lemma linv_set_server l c p p' :
  linv l -> servers l !! c = Some p -> serving l c p' -> (forall st, holds st p' = holds st p) ->
  linv (set_server c p' l).
Proof.
  intros I Hc Hp' Hh. eapply (linv_server l l c p); try done; auto using keeps_refl.
  apply (li_dropped _ I).
Qed.

Lemma linv_set_caller l t p p' :
  linv l -> callers l !! t = Some p -> calling l p' -> (forall st, got st p' = got st p) ->
  linv (set_caller t p' l).
Proof.
  intros I Ht Hp' Hg. assert (K : keeps l (set_caller t p' l)) by by apply keeps_eq.
  destruct I. constructor; simpl; try done; eauto using accepting_keeps, serving_keeps.
  - intros d q. destruct (decide (t = d)) as [->|Hne].
    + rewrite lookup_insert_eq. intros [= <-]. by eapply calling_keeps.
    + rewrite lookup_insert_ne by done. eauto using calling_keeps.
  - intros st. rewrite <-li_place0. unfold delivered. simpl.
    pose proof (msum_update (got st) _ _ _ p' Ht) as H3. rewrite Hg in H3. unfold held_by_servers, closed_unserved. simpl. lia.
Qed.

Lemma linv_call l t : linv l -> callers l !! t = None -> linv (set_caller t Listener_Accept l).
Proof.
  intros I Ht. assert (K : keeps l (set_caller t Listener_Accept l)) by by apply keeps_eq.
  destruct I. constructor; simpl; try done; eauto using accepting_keeps, serving_keeps.
  - intros d q. destruct (decide (t = d)) as [->|Hne].
    + rewrite lookup_insert_eq. intros [= <-]. by apply ClTake.
    + rewrite lookup_insert_ne by done. eauto using calling_keeps.
  - intros st. rewrite <-li_place0. unfold delivered. simpl. by rewrite msum_insert.
Qed.

(** A stream goes from the server that offers it to a caller. *)
Lemma linv_deliver l c t stream q : linv l ->
  servers l !! c = Some (offer stream) -> allowed c -> callers l !! t = Some q ->
  (forall st, got st q = 0%nat) ->
  linv (set_caller t (Ret (inl stream)) (set_server c (Ret true) l)).
Proof.
  intros I Hc Ha Ht Hq.
  assert (K : keeps l (set_caller t (Ret (inl stream)) (set_server c (Ret true) l))) by by apply keeps_eq.
  constructor; simpl; try apply I.
  - eapply accepting_keeps; [done| |apply (li_acceptor _ I)]. intros d Hd. simpl.
    by rewrite lookup_insert_ne by congruence.
  - intros d p. destruct (decide (c = d)) as [->|Hne].
    + rewrite lookup_insert_eq. intros [= <-]. by apply SvLoop.
    + rewrite lookup_insert_ne by done. intros H. eapply serving_keeps; [done|]. by apply (li_servers _ I).
  - intros d p. destruct (decide (t = d)) as [->|Hne].
    + rewrite lookup_insert_eq. intros [= <-]. by eapply ClGot.
    + rewrite lookup_insert_ne by done. intros H. eapply calling_keeps; [done|]. by apply (li_callers _ I d).
  - intros st. rewrite <-(li_place _ I st). unfold held_by_servers, delivered, closed_unserved. simpl.
    pose proof (msum_update (holds st) _ _ _ (Ret true) Hc) as H1.
    pose proof (msum_update (got st) _ _ _ (Ret (inl stream)) Ht) as H2.
    rewrite Hq in H2. simpl in H1, H2. case_decide; lia.
Qed.

Lemma acceptor_step closing l p' l' :
  linv l -> moves closing (acceptor l) l p' l' -> linv (set_acceptor p' l').
Proof.
  intros I. pose proof (li_acceptor _ I) as Ha.
  destruct Ha as [->| ->|conn -> Hn|e ->|e -> He|e -> He|e ->]; simpl; try done.
  - intros (r & (-> & Hr) & ->). apply linv_set_acceptor; [done|].
    destruct r as [conn|e]; [by eapply AccConn, Hr|by eapply AccErr].
  - intros ([] & -> & ->). apply linv_spawn; [done|done|by apply AccLoop].
  - intros (b & (-> & ->) & ->). apply linv_set_acceptor; [done|].
    destruct (l_done l || is_error e ErrClosed) eqn:E; [|by apply AccLoop].
    eapply AccFail; [done|]. by apply orb_true_iff.
  - intros (x & (-> & ->) & ->). apply linv_set_acceptor; [by apply linv_latch|].
    destruct (l_err l) as [e'|] eqn:E; eapply AccClose; try done.
  - intros ([] & -> & ->). apply linv_set_acceptor; [by apply linv_set_done|]. by eapply AccEnd.
Qed.

Lemma server_step closing l c p p' l' :
  linv l -> servers l !! c = Some p -> moves closing p l p' l' -> linv (set_server c p' l').
Proof.
  intros I Hc. pose proof (li_servers _ I _ _ Hc) as Hs.
  destruct Hs as [f Hf ->|f e Hf He ->|Ha ->|Ha ->|st Ha -> Ho|st -> Ha Ho Hd| -> Ha|x -> Hx Ht]; simpl; try done.
  - intros H. assert (moves closing (serve opts c) l p' l') as H' by done. clear H.
    unfold serve in H'. rewrite Hf in H'. simpl in H'. destruct H' as (err & (-> & ->) & ->). rewrite Hf.
    eapply linv_set_server; [done|done| |intros st; unfold serve; rewrite Hf; by destruct (f c)].
    destruct (f c) as [e|] eqn:E; [by eapply SvRefuse|]. apply SvLoop; [|done]. unfold allowed. by rewrite Hf.
  - intros ([] & -> & ->).
    assert (Hr : refused c (refusedCode, error_text e)) by (exists f, e; done).
    eapply linv_set_server; [by apply linv_set_told|done| |done].
    eapply SvTold; [done|done|]. simpl. by rewrite lookup_insert_eq.
  - intros (r & Hr & ->). destruct r as [st|e].
    + destruct Hr as (_ & Hst & ->). eapply (linv_server l); try done.
      * split_and!; try done. intros st' d H. simpl. rewrite lookup_insert_ne by congruence. done.
      * eapply SvOffer; [done|done|]. simpl. by rewrite lookup_insert_eq.
      * intros st' d. simpl. destruct (decide (st = st')) as [->|Hne].
        -- rewrite lookup_insert_eq. intros [= <-]. by right.
        -- rewrite lookup_insert_ne by done. by left.
      * apply (li_dropped _ I).
      * intros st'. simpl. destruct (decide (st = st')) as [->|Hne].
        -- rewrite lookup_insert_eq, Hst. lia.
        -- rewrite lookup_insert_ne by done. destruct (opened l !! st'); lia.
    + subst l'. eapply linv_set_server; [done|done|by apply SvEnd|done].
  - intros (b & (-> & Hd & ->) & ->). eapply linv_set_server; [done|done|by eapply SvDrop|done].
  - intros ([] & -> & ->). eapply (linv_server l); try done.
    + by apply SvEnd.
    + by left.
    + intros st'. simpl. unfold closes. rewrite filter_cons. repeat case_decide; simpl; (done || lia).
Qed.

Lemma caller_step closing l t p p' l' :
  linv l -> callers l !! t = Some p -> moves closing p l p' l' -> linv (set_caller t p' l').
Proof.
  intros I Ht. pose proof (li_callers _ I _ _ Ht) as Hs.
  destruct Hs as [->| -> Hd|st ->|e -> He]; simpl; try done.
  - intros (r & (-> & Hd & ->) & ->). eapply linv_set_caller; [done|done|by eapply ClErr|done].
  - intros (x & (-> & ->) & ->). replace (set_err (l_err l) l) with l by by destruct l.
    eapply linv_set_caller; [done|done| |done]. eapply ClFailed; [done|]. split; [done|].
    destruct (l_err l); [by left|by right].
Qed.

Lemma linv_gstep closing l l' : linv l -> gstep closing l l' -> linv l'.
Proof.
  intros I H. destruct H.
  - apply linv_set_acceptor; [done|by apply AccWait].
  - by eapply acceptor_step.
  - pose proof (li_servers _ I _ _ H) as Hs. eapply linv_set_server; [done|done| |done].
    destruct Hs as [f Hf E|f e Hf He E|Ha E|Ha E|st Ha E Ho|st E|E|x E]; try done.
    + unfold serve in E. rewrite Hf in E. discriminate.
    + by apply SvAccept.
  - by eapply server_step.
  - by eapply caller_step.
  - pose proof (li_servers _ I _ _ H) as Hs. pose proof (li_callers _ I _ _ H0) as Hq.
    destruct Hs as [f Hf ->|f e Hf He ->|Ha ->|Ha ->|st Ha -> Ho|st ->| ->|x ->]; try discriminate.
    + unfold serve in H1. rewrite Hf in H1. discriminate.
    + simpl in H1. simplify_eq.
      destruct Hq as [->| ->|st'' ->|e'' ->]; try discriminate. simpl in H2. simplify_eq.
      by eapply linv_deliver.
Qed.

Lemma linv_step l l' : linv l -> lstep l l' -> linv l'.
Proof.
  intros I [H|H]; [by eapply linv_gstep|]. destruct H; [by apply linv_call|by apply linv_set_done].
Qed.

Lemma linv_reachable l : lreachable l -> linv l.
Proof.
  intros H. apply rtc_ind_r with (P := linv) in H; [done|apply linv_init|].
  intros l1 l2 _ Hs I. by eapply linv_step.
Qed.

(** ** Lemmas: who records the error *)

(** The accept loop records an error once, on its way out. *)
Definition latched_last (l : listener) : Prop :=
  l_err l = None \/ acceptor l = ((Listener_Close;; Ret tt);; Ret false) \/ acceptor l = Ret false.

Lemma server_leaves closing l c p p' l' : linv l -> servers l !! c = Some p -> moves closing p l p' l' ->
  l_err l' = l_err l /\ acceptor l' = acceptor l.
Proof.
  intros I Hc. pose proof (li_servers _ I _ _ Hc) as Hs.
  destruct Hs as [f Hf ->|f e Hf He ->|Ha ->|Ha ->|st Ha -> Ho|st -> Ha Ho _| -> Ha|x -> Hx Ht]; simpl; try done.
  - unfold serve. rewrite Hf. simpl. by intros (err & (-> & ->) & ->).
  - by intros ([] & -> & ->).
  - intros ([st|e] & H & ->); [by destruct H as (_ & _ & ->)|by subst].
  - by intros (b & (-> & _ & ->) & ->).
  - by intros ([] & -> & ->).
Qed.

Lemma caller_leaves closing l t p p' l' : linv l -> callers l !! t = Some p -> moves closing p l p' l' ->
  l_err l' = l_err l /\ acceptor l' = acceptor l.
Proof.
  intros I Ht. pose proof (li_callers _ I _ _ Ht) as Hs.
  destruct Hs as [->| -> Hd|st ->|e -> He]; simpl; try done.
  - by intros (r & (-> & Hd & ->) & ->).
  - by intros (x & (-> & ->) & ->).
Qed.

Lemma acceptor_latches closing l p' l' : linv l -> latched_last l -> moves closing (acceptor l) l p' l' ->
  latched_last (set_acceptor p' l') /\ forall e, l_err l = Some e -> l_err l' = Some e.
Proof.
  intros I HL. unfold latched_last in *. pose proof (li_acceptor _ I) as Ha.
  destruct Ha as [E|E|conn E Hn|e E|e E He|e E He|e E]; rewrite E in HL |- *; simpl; try done.
  - intros (r & (-> & Hr) & ->). split; [|done]. left. by destruct HL as [?|[?|?]].
  - intros ([] & -> & ->). split; [|done]. left. by destruct HL as [?|[?|?]].
  - intros (b & (-> & ->) & ->). split; [|done]. left. by destruct HL as [?|[?|?]].
  - intros (x & (-> & ->) & ->). split; [by right; left|]. destruct HL as [->|[?|?]]; [|done..]. done.
  - intros ([] & -> & ->). split; [|done]. by right; right.
Qed.

Lemma gstep_latches closing l l' : linv l -> latched_last l -> gstep closing l l' ->
  latched_last l' /\ forall e, l_err l = Some e -> l_err l' = Some e.
Proof.
  intros I HL H. unfold latched_last in *.
  destruct H as [l E|l p' l' H|l c Hc|l c p p' l' Hc H|l t p p' l' Ht H|l c t p q st p' k Hc Ht Hp Hq].
  - split; [|done]. simpl. rewrite E in HL. left. by destruct HL as [?|[?|?]].
  - destruct (acceptor_latches closing l p' l' I HL H) as [H1 H2]. by split.
  - done.
  - destruct (server_leaves _ _ _ _ _ _ I Hc H) as [E1 E2]. simpl. by rewrite E1, E2.
  - destruct (caller_leaves _ _ _ _ _ _ I Ht H) as [E1 E2]. simpl. by rewrite E1, E2.
  - done.
Qed.

Lemma lstep_latches l l' : linv l -> latched_last l -> lstep l l' ->
  latched_last l' /\ forall e, l_err l = Some e -> l_err l' = Some e.
Proof. intros I HL [H|H]; [by eapply gstep_latches|]. by destruct H. Qed.

Lemma latched_reachable l : lreachable l -> latched_last l.
Proof.
  intros H. assert (linv l /\ latched_last l) as [_ HL]; [|done].
  apply (rtc_ind_r (fun l => linv l /\ latched_last l)) with (x := listener_init) in H; [done| |].
  - split; [apply linv_init|by left].
  - intros l1 l2 _ Hs [I HL]. split; [by eapply linv_step|]. by eapply lstep_latches.
Qed.

Lemma latch_stays l l' e : linv l -> latched_last l -> rtc lstep l l' -> l_err l = Some e ->
  linv l' /\ l_err l' = Some e.
Proof.
  intros I HL H. revert I HL. induction H as [l|l1 l2 l3 H1 _ IH]; [done|]. intros I HL He.
  destruct (lstep_latches _ _ I HL H1) as [HL2 Hs]. apply IH; [by eapply linv_step|done|by apply Hs].
Qed.

(** The error a goroutine is about to record. *)
Definition recording (p : lp bool) : error :=
  match p with
  | Vis e _ => match e with LLocked f => (f false None).2 | _ => None end
  | _ => None
  end.

Lemma failing_reason l e : linv l -> acceptor l = (fail e;; Ret false) ->
  l_done l = true \/ is_error e ErrClosed = true.
Proof.
  intros I E. destruct (li_acceptor _ I) as [E'|E'|conn E' _|e' E'|e' E' He|e' E' _|e' E' _ _];
    rewrite E in E'; apply (f_equal recording) in E'; cbn in E'; try discriminate.
  by injection E' as <-.
Qed.

(** What a call reports from where it failed on. *)
Lemma called_reported l t e : linv l -> callers l !! t = Some (Ret (inr e)) -> reported l e.
Proof.
  intros I H. destruct (li_callers _ I _ _ H) as [E|E|st E|e' E He]; try discriminate. by injection E as <-.
Qed.

(** ** Lemmas: winding down *)

(** How far a goroutine is from its return, once the listener is closed and the
    library calls under its context fail. *)
Definition weight (p : lp bool) : nat :=
  match p with
  | Ret b => if b then 7 else 0
  | Vis e _ =>
      match e with
      | LGo _ => 16 | LAuthorize _ | LOffer _ => 8 | LAcceptConn _ => 6 | LAccept => 5
      | LCtxErr => 4 | LLocked _ => 3 | LCancel => 2 | _ => 1
      end
  | Panic _ => 0
  end.
Definition call_weight (p : lp (Z + gerror)) : nat :=
  match p with Vis e _ => match e with LTake => 2 | _ => 1 end | _ => 0 end.

Definition remaining (l : listener) : nat :=
  (weight (acceptor l) + msum weight (servers l) + msum call_weight (callers l))%nat.

Lemma weight_serve c : (weight (serve opts c) <= 8)%nat.
Proof. unfold serve. destruct (Authorize opts); simpl; lia. Qed.

Lemma server_weight l c p p' : servers l !! c = Some p -> (weight p' < weight p)%nat ->
  (msum weight (<[c := p']> (servers l)) < msum weight (servers l))%nat.
Proof. intros H Hw. pose proof (msum_update weight _ _ _ p' H). lia. Qed.

Lemma caller_weight l t p p' : callers l !! t = Some p -> (call_weight p' < call_weight p)%nat ->
  (msum call_weight (<[t := p']> (callers l)) < msum call_weight (callers l))%nat.
Proof. intros H Hw. pose proof (msum_update call_weight _ _ _ p' H). lia. Qed.

Lemma acceptor_winds l p' l' : linv l -> l_done l = true -> moves true (acceptor l) l p' l' ->
  (remaining (set_acceptor p' l') < remaining l)%nat /\ l_done l' = true.
Proof.
  intros I Hd. unfold remaining. pose proof (li_acceptor _ I) as Ha.
  destruct Ha as [E|E|conn E Hn|e E|e E He|e E He|e E]; rewrite E; simpl; try done.
  - intros ([conn|e] & (-> & Hr) & ->); [by destruct Hr|]. simpl. split; [lia|done].
  - intros ([] & -> & ->). simpl. rewrite msum_insert by done. pose proof (weight_serve conn). split; [lia|done].
  - intros (b & (-> & ->) & ->). rewrite Hd. simpl. split; [lia|done].
  - intros (x & (-> & ->) & ->). simpl. split; [lia|done].
  - intros ([] & -> & ->). simpl. split; [lia|done].
Qed.

Lemma server_winds l c p p' l' : linv l -> l_done l = true -> servers l !! c = Some p ->
  moves true p l p' l' ->
  (weight p' < weight p)%nat /\ l_done l' = true /\ acceptor l' = acceptor l /\
  servers l' = servers l /\ callers l' = callers l.
Proof.
  intros I Hd Hc. pose proof (li_servers _ I _ _ Hc) as Hs.
  destruct Hs as [f Hf ->|f e Hf He ->|Ha ->|Ha ->|st Ha -> Ho|st -> Ha Ho _| -> Ha|x -> Hx Ht]; simpl; try done.
  - unfold serve. rewrite Hf. simpl. intros (err & (-> & ->) & ->). rewrite Hf. destruct (f c); simpl; split_and!; (done || lia).
  - intros ([] & -> & ->). simpl. split_and!; (done || lia).
  - intros ([st|e] & H & ->); [by destruct H|]. subst. simpl. split_and!; (done || lia).
  - intros (b & (-> & _ & ->) & ->). simpl. split_and!; (done || lia).
  - intros ([] & -> & ->). simpl. split_and!; (done || lia).
Qed.

Lemma caller_winds l t p p' l' : linv l -> callers l !! t = Some p -> moves true p l p' l' ->
  (call_weight p' < call_weight p)%nat /\ l_done l' = l_done l /\ acceptor l' = acceptor l /\
  servers l' = servers l /\ callers l' = callers l.
Proof.
  intros I Ht. pose proof (li_callers _ I _ _ Ht) as Hs.
  destruct Hs as [->| -> Hd|st ->|e -> He]; simpl; try done.
  - intros (r & (-> & Hd & ->) & ->). simpl. split_and!; (done || lia).
  - intros (x & (-> & ->) & ->). simpl. split_and!; (done || lia).
Qed.

Lemma meet_weights l c t p q st p' k : linv l ->
  servers l !! c = Some p -> callers l !! t = Some q -> sends p = Some (st, p') -> receives q = Some k ->
  (weight p' < weight p)%nat /\ (call_weight (k st) < call_weight q)%nat.
Proof.
  intros I Hc Ht Hp Hq. split.
  - destruct (li_servers _ I _ _ Hc) as [f Hf ->|f e Hf He ->|Ha ->|Ha ->|st' Ha -> Ho|st' ->| ->|x ->];
      try discriminate; [unfold serve in Hp; rewrite Hf in Hp; discriminate|].
    simpl in Hp. simplify_eq. simpl. lia.
  - destruct (li_callers _ I _ _ Ht) as [->| ->|st' ->|e ->]; try discriminate. simpl in Hq. simplify_eq. simpl. lia.
Qed.

Lemma gstep_winds l l' : linv l -> l_done l = true -> gstep true l l' ->
  (remaining l' < remaining l)%nat /\ l_done l' = true.
Proof.
  intros I Hd H. destruct H as [l E|l p' l' H|l c Hc|l c p p' l' Hc H|l t p p' l' Ht H|l c t p q st p' k Hc Ht Hp Hq].
  - unfold remaining. simpl. rewrite E. simpl. split; [lia|done].
  - by apply acceptor_winds in H.
  - split; [|done]. unfold remaining. simpl.
    pose proof (server_weight l c _ (serve_round c) Hc ltac:(simpl; lia)). lia.
  - destruct (server_winds l c p p' l' I Hd Hc H) as (Hw & Hd' & Ea & Es & Ec). split; [|done].
    unfold remaining. simpl. rewrite Ea, Es, Ec. pose proof (server_weight l c _ _ Hc Hw). lia.
  - destruct (caller_winds l t p p' l' I Ht H) as (Hw & Hd' & Ea & Es & Ec). split; [|by simpl; congruence].
    unfold remaining. simpl. rewrite Ea, Es, Ec. pose proof (caller_weight l t _ _ Ht Hw). lia.
  - split; [|done]. unfold remaining. simpl.
    destruct (meet_weights l c t p q st p' k I Hc Ht Hp Hq) as [Hw Hw'].
    pose proof (server_weight l c _ _ Hc Hw). pose proof (caller_weight l t _ _ Ht Hw'). lia.
Qed.

Lemma winds_bounded n l l' : linv l -> l_done l = true -> nsteps (gstep true) n l l' ->
  (n + remaining l' <= remaining l)%nat /\ l_done l' = true /\ linv l'.
Proof.
  intros I Hd H. induction H as [l|n l1 l2 l3 H _ IH]; [by split; [lia|]|].
  destruct (gstep_winds _ _ I Hd H) as [Hw Hd2]. pose proof (linv_gstep _ _ _ I H) as I2.
  destruct (IH I2 Hd2) as (? & ? & ?). split; [lia|done].
Qed.

Lemma idle_returned l : linv l -> l_done l = true -> idle true l ->
  acceptor l = Ret false /\ (forall c p, servers l !! c = Some p -> p = Ret false) /\
  (forall t p, callers l !! t = Some p -> exists r, p = Ret r).
Proof.
  intros I Hd Hq. split; [|split].
  - destruct (li_acceptor _ I) as [E|E|conn E Hn|e E|e E He|e E He|e E]; [| | | | | |done]; exfalso.
    + eapply Hq. by apply GAcceptLoop.
    + eapply Hq, GAcceptor. rewrite E. exists (inr (Sentinel CtxCanceled)). simpl. done.
    + eapply Hq, GAcceptor. rewrite E. exists tt. simpl. done.
    + eapply Hq, GAcceptor. rewrite E. eexists. simpl. done.
    + eapply Hq, GAcceptor. rewrite E. eexists. simpl. done.
    + eapply Hq, GAcceptor. rewrite E. exists tt. simpl. done.
  - intros c p Hc.
    destruct (li_servers _ I _ _ Hc) as [f Hf ->|f e Hf He ->|Ha ->|Ha ->|st Ha -> Ho|st -> Ha Ho _| -> Ha|x -> Hx Ht];
      try done; exfalso.
    + eapply Hq, GServer; [done|]. unfold serve. rewrite Hf. eexists. simpl. rewrite Hf. done.
    + eapply Hq, GServer; [done|]. exists tt. done.
    + eapply Hq. by apply GServeLoop.
    + eapply Hq, GServer; [done|]. exists (inr (Sentinel CtxCanceled)). done.
    + eapply Hq, GServer; [done|]. exists false. done.
    + eapply Hq, GServer; [done|]. exists tt. done.
  - intros t p Ht. destruct (li_callers _ I _ _ Ht) as [->| -> _|st ->|e -> He]; [| |by eexists..]; exfalso.
    + eapply Hq, GCaller; [done|]. exists (inr tt). done.
    + eapply Hq, GCaller; [done|]. eexists. simpl. done.
Qed.

(** ** Running the machine

    A choice picks a goroutine (and what the library answers it, if it is at a
    library call) or a user's action. *)
Inductive choice : Type :=
| ChAcceptor (r : Z + gerror) | ChServer (c : Z) (r : Z + gerror) | ChCaller (t : Z)
| ChMeet (c t : Z) | ChAccept (t : Z) | ChClose.

Definition answer (r : Z + gerror) {X} (e : lE X) (l : listener) : option (X * listener) :=
  match e in lE X return option (X * listener) with
  | LAccept =>
      match r with
      | inl conn => match servers l !! conn with None => Some (r, l) | Some _ => None end
      | inr _ => Some (r, l)
      end
  | LCtxErr => Some (l_done l, l)
  | LGo conn => Some (tt, set_server conn (serve opts conn) l)
  | LLocked f => Some ((f (l_done l) (l_err l)).1, set_err (f (l_done l) (l_err l)).2 l)
  | LCancel => Some (tt, set_done l)
  | LAuthorize conn => Some (match Authorize opts with Some f => f conn | None => None end, l)
  | LCloseWithError conn code reason => Some (tt, set_told conn (code, reason) l)
  | LAcceptConn conn =>
      match r with
      | inl stream =>
          match opened l !! stream with None => Some (r, set_opened stream conn l) | Some _ => None end
      | inr _ => Some (r, l)
      end
  | LOffer _ => if l_done l then Some (false, l) else None
  | LCloseStream stream => Some (tt, set_dropped stream l)
  | LTake => if l_done l then Some (inr tt, l) else None
  end.

Definition advance {A} (r : Z + gerror) (p : lp A) (l : listener) : option (lp A * listener) :=
  match p with
  | Vis e k => '(x, l') ← answer r e l; Some (k x, l')
  | _ => None
  end.

Definition lexec (ch : choice) (l : listener) : option listener :=
  match ch with
  | ChAcceptor r =>
      match acceptor l with
      | Ret true => Some (set_acceptor accept_round l)
      | p => '(p', l') ← advance r p l; Some (set_acceptor p' l')
      end
  | ChServer c r =>
      p ← servers l !! c;
      match p with
      | Ret true => Some (set_server c (serve_round c) l)
      | p => '(p', l') ← advance r p l; Some (set_server c p' l')
      end
  | ChCaller t => p ← callers l !! t; '(p', l') ← advance (inl 0) p l; Some (set_caller t p' l')
  | ChMeet c t =>
      p ← servers l !! c; q ← callers l !! t; '(stream, p') ← sends p; k ← receives q;
      Some (set_caller t (k stream) (set_server c p' l))
  | ChAccept t => match callers l !! t with None => Some (set_caller t Listener_Accept l) | Some _ => None end
  | ChClose => Some (set_done l)
  end.

Fixpoint lrun (chs : list choice) (l : listener) : option listener :=
  match chs with [] => Some l | ch :: chs => l' ← lexec ch l; lrun chs l' end.

Lemma answer_event r X (e : lE X) l x l' : answer r e l = Some (x, l') -> event false e l x l'.
Proof. destruct e; simpl; intros H; repeat case_match; by simplify_eq. Qed.

Lemma advance_moves {A} r (p : lp A) l p' l' : advance r p l = Some (p', l') -> moves false p l p' l'.
Proof.
  destruct p as [a|X e k|why]; simpl; try done. destruct (answer r e l) as [[x l1]|] eqn:E; simpl; [|done].
  intros [= <- <-]. exists x. split; [|done]. by eapply answer_event.
Qed.

Lemma lexec_step ch l l' : lexec ch l = Some l' -> lstep l l'.
Proof.
  destruct ch as [r|c r|t|c t|t|]; simpl; intros H.
  - left. assert (D : acceptor l = Ret true \/ advance r (acceptor l) l ≫= (fun '(p', l') => Some (set_acceptor p' l')) = Some l').
    { destruct (acceptor l) as [[]|X e k|]; auto. }
    destruct D as [E|D].
    + rewrite E in H. simplify_eq. by apply GAcceptLoop.
    + apply bind_Some in D as ([p' l1] & D & [= <-]). apply GAcceptor. by eapply advance_moves.
  - left. apply bind_Some in H as (p & Hp & H).
    assert (D : p = Ret true /\ l' = set_server c (serve_round c) l \/
      advance r p l ≫= (fun '(p', l') => Some (set_server c p' l')) = Some l').
    { destruct p as [[]|X e k|]; auto. left. by simplify_eq. }
    destruct D as [[-> ->]|D]; [by apply GServeLoop|].
    apply bind_Some in D as ([p' l1] & D & [= <-]). eapply GServer; [done|]. by eapply advance_moves.
  - left. apply bind_Some in H as (p & Hp & H). apply bind_Some in H as ([p' l1] & H & [= <-]).
    eapply GCaller; [done|]. by eapply advance_moves.
  - left. apply bind_Some in H as (p & Hp & H). apply bind_Some in H as (q & Hq & H).
    apply bind_Some in H as ([st p'] & Hs & H). apply bind_Some in H as (k & Hk & [= <-]). by eapply GRendezvous.
  - right. destruct (callers l !! t) eqn:E; simplify_eq. by apply UAccept.
  - right. simplify_eq. apply UClose.
Qed.

Lemma lrun_steps chs : forall l l', lrun chs l = Some l' -> rtc lstep l l'.
Proof.
  induction chs as [|ch chs IH]; simpl; intros l l' H; [by simplify_eq|].
  apply bind_Some in H as (l1 & H1 & H). eapply rtc_l; [by eapply lexec_step|by apply IH].
Qed.

Lemma lrun_reachable chs : forall l l', lreachable l -> lrun chs l = Some l' -> lreachable l'.
Proof.
  induction chs as [|ch chs IH]; simpl; intros l l' Hr H; [by simplify_eq|].
  apply bind_Some in H as (l1 & H1 & H). eapply IH; [|done]. eapply rtc_r; [done|]. by eapply lexec_step.
Qed.

Definition ran (o : option listener) : bool := match o with Some _ => true | None => false end.

Lemma ran_reachable chs l : lreachable l -> ran (lrun chs l) = true -> lreachable (default l (lrun chs l)).
Proof.
  intros Hl H. destruct (lrun chs l) as [l'|] eqn:E; [|done]. by eapply lrun_reachable.
Qed.

End Machine.

(** ** Properties *)

(** C14. A refused peer never reaches the server: every stream any goroutine has
    taken from a connection, delivered ones included, came in on a connection
    [Authorize] let in; a connection is closed with an error only when
    [Authorize] refused it, with the refusal code and the refusal's own text;
    and the goroutine of a refused connection does not return without having
    closed it so. *)
Theorem refused_peers_never_served (opts : ListenOptions) (l : listener) :
  lreachable opts l ->
  (forall stream c, opened l !! stream = Some c -> allowed opts c) /\
  (forall t stream, callers l !! t = Some (Ret (inl stream)) ->
     exists c, opened l !! stream = Some c /\ allowed opts c) /\
  (forall c x, told l !! c = Some x -> refused opts c x) /\
  (forall c x, servers l !! c = Some (Ret false) -> refused opts c x -> told l !! c = Some x).
Proof.
  intros Hr%linv_reachable. split; [apply (li_opened _ _ Hr)|]. split; [|split; [apply (li_told _ _ Hr)|]].
  - intros t st Ht.
    assert (1 <= delivered st l)%nat.
    { unfold delivered. rewrite (msum_take (got st) _ _ _ Ht). simpl. rewrite decide_True by done. lia. }
    pose proof (li_place _ _ Hr st) as Hp. destruct (opened l !! st) as [c|] eqn:E; [|lia].
    exists c. split; [done|]. by eapply (li_opened _ _ Hr).
  - intros c x Hc Hx. destruct (li_servers _ _ Hr _ _ Hc) as [f Hf E|f e Hf He E|Ha E|Ha E|st Ha E Ho|st E|E Ha|y E Hy Ht];
      try discriminate.
    + unfold serve in E. rewrite Hf in E. discriminate.
    + destruct Hx as (f & e & Hf & He & _). unfold allowed in Ha. rewrite Hf in Ha. congruence.
    + rewrite Ht. f_equal. by eapply refused_fun.
Qed.

(** C15. No stream is lost or served twice: an accepted stream is in exactly one
    place (with the goroutine that accepted it and is offering or closing it,
    with one caller of [Accept], or closed), and a stream is closed unserved
    only once the listener is closed. *)
Theorem streams_go_to_one_place (opts : ListenOptions) (l : listener) (stream : Z) :
  lreachable opts l ->
  (held_by_servers stream l + delivered stream l + closed_unserved stream l)%nat =
    (match opened l !! stream with Some _ => 1 | None => 0 end)%nat /\
  (stream ∈ dropped l -> l_done l = true).
Proof.
  intros Hr%linv_reachable. split; [apply (li_place _ _ Hr)|].
  intros Hd. apply (li_dropped _ _ Hr). intros E. rewrite E in Hd. by apply not_elem_of_nil in Hd.
Qed.

(** C26. One peer cannot end the service for all: while the listener is open, a
    failure of [Endpoint.Accept] that is not the closing of the endpoint sends
    the accept loop round again, touching nothing; the loop returns only with the
    listener closed and the reason recorded, which is [net.ErrClosed] or the
    endpoint's closing; and it then closes the listener itself. *)
Theorem accept_loop_survives_peers (opts : ListenOptions) (l : listener) (e : gerror) :
  lreachable opts l ->
  (is_error e ErrClosed = false -> l_done l = false ->
     forall p' l', moves opts false (after_accept (inr e)) l p' l' -> p' = Ret true /\ l' = l) /\
  (acceptor l = Ret false -> l_done l = true /\
     exists e0, l_err l = Some e0 /\ (e0 = Sentinel NetErrClosed \/ is_error e0 ErrClosed = true)).
Proof.
  intros Hr%linv_reachable. split.
  - intros He Hd p' l' (b & (-> & ->) & ->). rewrite Hd, He. done.
  - intros E. destruct (li_acceptor _ _ Hr) as [E'|E'|conn E' Hn|e' E'|e' E' He|e' E' He|e' E' Hd He];
      rewrite E in E'; try discriminate. split; [done|]. exists e'. split; [done|]. by apply (li_err _ _ Hr).
Qed.

(** C27. All callers of [Accept] are told the same thing: the errors any two calls
    return, however they interleave with the closing of the listener and the
    failing of the endpoint, are equal; they are returned only by a closed
    listener; and they are [net.ErrClosed], or the closing of the endpoint if
    that came first. *)
Theorem accept_errors_agree (opts : ListenOptions) (l : listener) (t1 t2 : Z) (e1 e2 : gerror) :
  lreachable opts l ->
  callers l !! t1 = Some (Ret (inr e1)) -> callers l !! t2 = Some (Ret (inr e2)) ->
  e1 = e2 /\ l_done l = true /\ (e1 = Sentinel NetErrClosed \/ is_error e1 ErrClosed = true).
Proof.
  intros Hr%linv_reachable H1 H2.
  destruct (called_reported _ _ _ _ Hr H1) as [Hd D1], (called_reported _ _ _ _ Hr H2) as [_ D2].
  split; [destruct D1 as [?|[? ->]], D2 as [?|[? ->]]; congruence|]. split; [done|].
  destruct D1 as [D1|[_ ->]]; [by apply (li_err _ _ Hr)|by left].
Qed.

(** C25. A closed listener leaves no goroutine behind: once it is closed and the
    library calls under its context fail, the goroutines can take at most
    [remaining l] more steps, and when none can move the accept loop, every
    serve goroutine and every call of [Accept] has returned. *)
Theorem closed_listener_winds_down (opts : ListenOptions) (l : listener) :
  lreachable opts l -> l_done l = true ->
  forall n l', nsteps (gstep opts true) n l l' ->
  (n <= remaining l)%nat /\
  (idle opts true l' ->
     acceptor l' = Ret false /\ (forall c p, servers l' !! c = Some p -> p = Ret false) /\
     (forall t p, callers l' !! t = Some p -> exists r, p = Ret r)).
Proof.
  intros Hr%linv_reachable Hd n l' H. destruct (winds_bounded _ _ _ _ Hr Hd H) as (Hn & Hd' & I').
  split; [lia|]. intros Hq. by eapply idle_returned.
Qed.

(** C40. Which error a closed listener's [Accept] reports is decided where [fail]
    records it.  Until the accept loop has recorded an error, a call of [Accept]
    that fails reports [net.ErrClosed].  When [fail] records, with the failure
    [e] of [Endpoint.Accept], then from there on every call of [Accept], one that
    already failed and one made after [Listener.Close] included, reports
    [net.ErrClosed] if the listener was closed by then, and [e] if it was not;
    and in that case [e] is the closing of the endpoint. *)
Theorem accept_error_decided_by_fail (opts : ListenOptions) (l : listener) :
  lreachable opts l ->
  (forall t e, l_err l = None -> callers l !! t = Some (Ret (inr e)) -> e = Sentinel NetErrClosed) /\
  (forall e p1 l1 l', acceptor l = (fail e;; Ret false) -> moves opts false (acceptor l) l p1 l1 ->
     rtc (lstep opts) (set_acceptor p1 l1) l' ->
     (l_done l = false -> is_error e ErrClosed = true) /\
     forall t e', callers l' !! t = Some (Ret (inr e')) ->
       e' = if l_done l then Sentinel NetErrClosed else e).
Proof.
  intros Hr. pose proof (linv_reachable _ _ Hr) as I. pose proof (latched_reachable _ _ Hr) as HL. split.
  - intros t e He Ht. destruct (called_reported _ _ _ _ I Ht) as [_ [?|[_ ->]]]; [congruence|done].
  - intros e p1 l1 l' E Hm Hsteps. split.
    { intros Hd. destruct (failing_reason _ _ _ I E); [congruence|done]. }
    intros t e' Ht. destruct (acceptor_latches _ _ _ _ _ I HL Hm) as [HL1 _].
    pose proof (acceptor_step _ _ _ _ _ I Hm) as I1. rewrite E in Hm. destruct Hm as (x & (_ & ->) & ->).
    assert (l_err l = None) as Hn by (unfold latched_last in HL; rewrite E in HL; by destruct HL as [?|[?|?]]).
    destruct (latch_stays _ _ _ (if l_done l then Sentinel NetErrClosed else e) I1 HL1 Hsteps) as [I' He].
    { simpl. by rewrite Hn. }
    destruct (called_reported _ _ _ _ I' Ht) as [_ [?|[? _]]]; congruence.
Qed.

(** ** Witnesses *)

(** Connection 1 is let in and its stream 9 is served; connection 2 is refused;
    the listener is closed and two calls report it. *)
Definition refusal : gerror := WrapError (MText "not you") None.
Definition demo_opts : ListenOptions := mkListenOptions (Some (fun c => if c =? 2 then Some refusal else None)).
Definition demo_choices : list choice :=
  [ ChAcceptor (inl 0); ChAcceptor (inl 1); ChAcceptor (inl 0);
    ChServer 1 (inl 0); ChServer 1 (inl 0); ChServer 1 (inl 9); ChAccept 4; ChMeet 1 4;
    ChAcceptor (inl 0); ChAcceptor (inl 2); ChAcceptor (inl 0); ChServer 2 (inl 0); ChServer 2 (inl 0);
    ChAccept 5; ChClose; ChCaller 5; ChCaller 5; ChAccept 6; ChCaller 6; ChCaller 6 ].
Definition demo : listener := default listener_init (lrun demo_opts demo_choices listener_init).

Lemma demo_reachable : lreachable demo_opts demo.
Proof. apply ran_reachable; [constructor|vm_compute; reflexivity]. Qed.

Example refused_peers_never_served_witness :
  told demo !! 2 = Some (refusedCode, error_text refusal) /\
  exists c, opened demo !! 9 = Some c /\ allowed demo_opts c.
Proof.
  destruct (refused_peers_never_served demo_opts demo demo_reachable) as (_ & H1 & _ & H2). split.
  - apply H2; [reflexivity|]. exists (fun c => if c =? 2 then Some refusal else None), refusal.
    split; [reflexivity|split; reflexivity].
  - apply (H1 4). reflexivity.
Defined.

Example streams_go_to_one_place_witness :
  (held_by_servers 9 demo + delivered 9 demo + closed_unserved 9 demo)%nat = 1%nat.
Proof. exact (proj1 (streams_go_to_one_place demo_opts demo 9 demo_reachable)). Defined.

Example accept_loop_survives_peers_witness :
  moves demo_opts false (after_accept (inr (IrohError KindALPN (MText "no such alpn")))) listener_init
    (Ret true) listener_init /\
  forall p' l', moves demo_opts false (after_accept (inr (IrohError KindALPN (MText "no such alpn"))))
    listener_init p' l' -> p' = Ret true /\ l' = listener_init.
Proof.
  split; [exists false; split; [split; reflexivity|reflexivity]|].
  apply (proj1 (accept_loop_survives_peers demo_opts listener_init
    (IrohError KindALPN (MText "no such alpn")) (rtc_refl _ _))); reflexivity.
Defined.

Example accept_errors_agree_witness :
  callers demo !! 5 = Some (Ret (inr (Sentinel NetErrClosed))) /\
  Sentinel NetErrClosed = Sentinel NetErrClosed /\ l_done demo = true /\
  (Sentinel NetErrClosed = Sentinel NetErrClosed \/ is_error (Sentinel NetErrClosed) ErrClosed = true).
Proof.
  split; [reflexivity|].
  apply (accept_errors_agree demo_opts demo 5 6); [apply demo_reachable|reflexivity|reflexivity].
Defined.

(** A listener closed at once: its accept loop returns in five steps. *)
Definition closed_at_once : listener := set_done listener_init.
Definition wound_down : listener :=
  set_acceptor (Ret false) (set_done (set_acceptor ((Listener_Close;; Ret tt);; Ret false)
    (set_err (Some (Sentinel NetErrClosed)) (set_acceptor (fail (Sentinel CtxCanceled);; Ret false)
      (set_acceptor (after_accept (inr (Sentinel CtxCanceled))) (set_acceptor accept_round closed_at_once)))))).

Lemma winding : nsteps (gstep demo_opts true) 5 closed_at_once wound_down.
Proof.
  eapply nsteps_l; [by apply GAcceptLoop|].
  eapply nsteps_l; [apply GAcceptor; exists (inr (Sentinel CtxCanceled)); repeat split|].
  eapply nsteps_l; [apply GAcceptor; exists true; repeat split|].
  eapply nsteps_l; [apply GAcceptor; exists tt; repeat split|].
  eapply nsteps_l; [apply GAcceptor; exists tt; repeat split|].
  constructor.
Qed.

Example closed_listener_winds_down_witness :
  (5 <= remaining closed_at_once)%nat /\ acceptor wound_down = Ret false.
Proof.
  split; [|reflexivity].
  exact (proj1 (closed_listener_winds_down demo_opts closed_at_once
    (rtc_once _ _ (or_intror (UClose listener_init))) eq_refl 5%nat wound_down winding)).
Defined.

(** The endpoint is closed; the accept loop is about to record it. *)
Definition endpoint_closing : list choice :=
  [ ChAcceptor (inl 0); ChAcceptor (inr (Sentinel ErrClosed)); ChAcceptor (inl 0) ].
Definition failing (closed : bool) : listener :=
  default listener_init (lrun demo_opts (endpoint_closing ++ if closed then [ChClose] else []) listener_init).
(** It records it, the listener is closed, and [Accept] is called. *)
Definition recorded (closed : bool) : listener :=
  set_acceptor ((Listener_Close;; Ret tt);; Ret false)
    (set_err (Some (if closed then Sentinel NetErrClosed else Sentinel ErrClosed)) (failing closed)).
Definition called_late (closed : bool) : listener :=
  default listener_init (lrun demo_opts [ChAcceptor (inl 0); ChClose; ChAccept 4; ChCaller 4; ChCaller 4] (recorded closed)).

Lemma failing_reachable closed : lreachable demo_opts (failing closed).
Proof. destruct closed; (apply ran_reachable; [constructor|vm_compute; reflexivity]). Qed.

Lemma failing_fails closed : acceptor (failing closed) = (fail (Sentinel ErrClosed);; Ret false).
Proof. destruct closed; vm_compute; reflexivity. Qed.

Lemma called_late_reached closed : rtc (lstep demo_opts) (recorded closed) (called_late closed).
Proof.
  apply (lrun_steps demo_opts [ChAcceptor (inl 0); ChClose; ChAccept 4; ChCaller 4; ChCaller 4]).
  destruct closed; vm_compute; reflexivity.
Qed.

(** If [Listener.Close] came after, the comment on [Accept] does not hold: what
    it reports is not [net.ErrClosed]. *)
Example accept_error_decided_by_fail_witness :
  (callers (called_late false) !! 4 = Some (Ret (inr (Sentinel ErrClosed))) /\
   Sentinel ErrClosed = (if l_done (failing false) then Sentinel NetErrClosed else Sentinel ErrClosed) /\
   l_done (called_late false) = true /\ errors_Is (Some (Sentinel ErrClosed)) NetErrClosed = false) /\
  (callers (called_late true) !! 4 = Some (Ret (inr (Sentinel NetErrClosed))) /\
   Sentinel NetErrClosed = (if l_done (failing true) then Sentinel NetErrClosed else Sentinel ErrClosed)).
Proof.
  assert (H : forall closed t e', callers (called_late closed) !! t = Some (Ret (inr e')) ->
    e' = if l_done (failing closed) then Sentinel NetErrClosed else Sentinel ErrClosed).
  { intros closed.
    destruct (proj2 (accept_error_decided_by_fail demo_opts (failing closed) (failing_reachable closed))
      (Sentinel ErrClosed) ((Listener_Close;; Ret tt);; Ret false)
      (set_err (Some (if closed then Sentinel NetErrClosed else Sentinel ErrClosed)) (failing closed))
      (called_late closed)) as [_ H].
    - apply failing_fails.
    - rewrite failing_fails. exists tt. destruct closed; (split; [split|]; vm_compute; reflexivity).
    - apply called_late_reached.
    - exact H. }
  split; split; [vm_compute; reflexivity| |vm_compute; reflexivity|].
  - split; [apply (H false 4); vm_compute; reflexivity|]. split; vm_compute; reflexivity.
  - apply (H true 4). vm_compute. reflexivity.
Defined.
