(* ===== verification/LibFiles.v ===== *)
(** Finding and extracting the native library: [internal/lib/lib.go], with
    [LibraryPath] and [LibraryPlatform] of [iroh.go].

    The functions are programs over the operating system's calls ([osE]).  They
    are proved against a rely-guarantee protocol: the state is the file system
    as this process sees it, every call may find it changed by the other
    processes extracting the same library (the rely), and what this process
    does to it is limited to its own temporary file and to the installation of
    complete copies (the guarantee), which is exactly what the others rely on.

    [GOOS] and the separator-dependent [filepath.Join] and [filepath.Dir] are
    the platform's; [sha256.Sum256] is any function. *)
From S2P Require Import Prelude GoErrors Prog GoStrings.
Local Open Scope Z_scope.
Local Open Scope go_scope.

(** ** Constants *)

(** [src/internal/lib/lib.go:23-23 EnvLibrary] *)
Definition EnvLibrary : bytes := $"IROH_GO_LIBRARY".
(** [src/internal/lib/lib.go:26-26 EnvCacheDir] *)
Definition EnvCacheDir : bytes := $"IROH_GO_CACHE_DIR".
(** [src/internal/lib/lib.go:32-32 EnvVerify] *)
Definition EnvVerify : bytes := $"IROH_GO_VERIFY_LIB".
(** [src/internal/lib/lib.go:43-43 embeddedName] *)
Definition embeddedName : bytes := $"lib/iroh_go.lib".

(** ** Events *)

(** A call that yields a value or an error. *)
Abbreviation fallible A := (A + gerror)%type.

Inductive osE : Type -> Type :=
| OGetenv (key : bytes) : osE bytes
| OStat (path : bytes) : osE (fallible Z)               (* info.Size() *)
| OReadFile (path : bytes) : osE (fallible bytes)
| OMkdirAll (dir : bytes) : osE error
| OCreateTemp (dir pattern : bytes) : osE (fallible bytes)   (* tmp.Name() *)
| OWrite (name data : bytes) : osE error                (* tmp.Write *)
| OClose (name : bytes) : osE error                     (* tmp.Close *)
| OChmod (name : bytes) : osE error
| ORename (from to : bytes) : osE error
| ORemove (name : bytes) : osE unit
| OUserCacheDir : osE (fallible bytes)
| OTempDir : osE bytes
| ODlopen (path : bytes) : osE (fallible Z)             (* purego.Dlopen *)
| OLoadLibrary (path : bytes) : osE (fallible Z).       (* syscall.LoadLibrary *)

Abbreviation os := (prog osE).
Definition sys {X} (e : osE X) : os X := trigger e.

(** The files of the per-platform module: [None] where there is none. *)
Definition embedded_fs : Type := bytes -> fallible bytes.

Section Lib.
Context (GOOS GOARCH : bytes) (Join : list bytes -> bytes) (Dir : bytes -> bytes) (Sum256 : bytes -> bytes).
Context (embedded : option embedded_fs) (platform : bytes).

(** ** The code *)

(** [src/internal/lib/lib.go:51-51 Platform] *)
Definition Platform : bytes := platform.

(** [src/internal/lib/lib.go:68-79 libraryFilename] *)
Definition libraryFilename : fallible bytes :=
  if bool_decide (GOOS = $"darwin" \/ GOOS = $"ios") then inl $"libiroh_go.dylib"
  else if bool_decide (GOOS = $"windows") then inl $"iroh_go.dll"
  else if bool_decide (GOOS = $"linux" \/ GOOS = $"android" \/ GOOS = $"freebsd" \/ GOOS = $"netbsd")
  then inl $"libiroh_go.so"
  else inr (plainf "iroh: unsupported operating system %q" [MQuote GOOS]).

(** [strings.IndexAny(s, chars)], [None] for -1. *)
Fixpoint IndexAny (s : bytes) (chars : bytes) : option nat :=
  match s with
  | [] => None
  | c :: s => if decide (c ∈ chars) then Some O else S <$> IndexAny s chars
  end.

(** [src/internal/lib/lib.go:124-142 embeddedHash] *)
Definition embeddedHash (fs : embedded_fs) (data : bytes) : fallible bytes :=
  match fs (embeddedName ++ $".sha256") with
  | inl raw =>
      let got := TrimSpace raw in
      let got := match IndexAny got [SP; TAB] with
                 | Some i => if (0 <? i)%nat then take i got else got
                 | None => got
                 end in
      if negb (length got =? 64)%nat then
        inr (plainf "iroh: embedded sha256 sidecar is malformed (%d chars)" [MInt (Z.of_nat (length got))])
      else
        let want := hex_encode (Sum256 data) in
        if decide (want <> got) then
          inr (plainf "iroh: embedded library does not match its sha256 sidecar (have %s, want %s)"
                 [MBytes want; MBytes got])
        else inl got
  | inr _ => inl (hex_encode (Sum256 data))
  end.

(** [src/internal/lib/lib.go:145-169 usable] *)
Definition usable (path : bytes) (size : Z) (want : bytes) : os (bool * error) :=
  info ← sys (OStat path);
  match info with
  | inr err =>
      if is_error err FsErrNotExist then Ret (false, None)
      else Ret (false, Some (wrapf "iroh: inspecting cached library %s: %w" [MBytes path] err))
  | inl n =>
      if negb (n =? size) then Ret (false, None)
      else
        verify ← sys (OGetenv EnvVerify);
        if decide (verify = []) then Ret (true, None)
        else
          onDisk ← sys (OReadFile path);
          match onDisk with
          | inr err => Ret (false, Some (wrapf "iroh: verifying cached library %s: %w" [MBytes path] err))
          | inl d =>
              let got := hex_encode (Sum256 d) in
              if decide (got <> want) then
                Ret (false, Some (plainf "iroh: cached library %s is corrupt (have %s, want %s)"
                                    [MBytes path; MBytes got; MBytes want]))
              else Ret (true, None)
          end
  end.

(** [src/internal/lib/lib.go:193-201 writeAtomic] The rename. *)
Definition rename_into (name path data : bytes) : os error :=
  err ← sys (ORename name path);
  match err with
  | None => Ret None
  | Some e =>
      info ← sys (OStat path);
      match info with
      | inl n =>
          if n =? Z.of_nat (length data) then Ret None
          else Ret (Some (wrapf "iroh: installing library at %s: %w" [MBytes path] e))
      | inr _ => Ret (Some (wrapf "iroh: installing library at %s: %w" [MBytes path] e))
      end
  end.

(** [src/internal/lib/lib.go:180-201 writeAtomic] From the temporary file's
    name on, without the deferred removal. *)
Definition fill_and_rename (name path data : bytes) : os error :=
  err ← sys (OWrite name data);
  match err with
  | Some e =>
      sys (OClose name);;
      Ret (Some (wrapf "iroh: writing library to %s: %w" [MBytes name] e))
  | None =>
      err ← sys (OClose name);
      match err with
      | Some e => Ret (Some (wrapf "iroh: closing %s: %w" [MBytes name] e))
      | None =>
          err ← (if decide (GOOS = $"windows") then Ret None else sys (OChmod name));
          match err with
          | Some e => Ret (Some (wrapf "iroh: making %s executable: %w" [MBytes name] e))
          | None =>
              rename_into name path data
          end
      end
  end.

(** [src/internal/lib/lib.go:173-202 writeAtomic] *)
Definition writeAtomic (path data : bytes) : os error :=
  tmp ← sys (OCreateTemp (Dir path) $".iroh_go-*");
  match tmp with
  | inr err => Ret (Some (wrapf "iroh: creating temporary library file: %w" [] err))
  | inl name =>
      err ← fill_and_rename name path data;
      sys (ORemove name);;
      Ret err
  end.

(** [src/internal/lib/lib.go:204-212 cacheRoot] *)
Definition cacheRoot : os bytes :=
  d ← sys (OGetenv EnvCacheDir);
  if decide (d <> []) then Ret d
  else
    d ← sys OUserCacheDir;
    match d with inl d => Ret d | inr _ => sys OTempDir end.

(** [want[:16]] *)
Definition first16 (want : bytes) : os bytes :=
  if (length want <? 16)%nat then Panic "slice bounds out of range" else Ret (take 16 want).

(** [src/internal/lib/lib.go:81-120 extract] *)
Definition extract : os (bytes * error) :=
  match embedded with
  | None => Ret ([], Some (Sentinel (ErrNoEmbeddedLibrary GOOS GOARCH)))
  | Some fs =>
      match fs embeddedName with
      | inr err =>
          Ret ([], Some (WrapError (MFmt "%w: run `make lib` to build one: %v"
            [MText (sentinel_text (ErrNoEmbeddedLibrary GOOS GOARCH)); error_text err]) (Some (Sentinel (ErrNoEmbeddedLibrary GOOS GOARCH)))))
      | inl data =>
          match embeddedHash fs data with
          | inr err => Ret ([], Some err)
          | inl want =>
              match libraryFilename with
              | inr err => Ret ([], Some err)
              | inl filename =>
                  root ← cacheRoot;
                  short ← first16 want;
                  let dir := Join [root; $"iroh-go"; platform ++ $"-" ++ short] in
                  err ← sys (OMkdirAll dir);
                  match err with
                  | Some e => Ret ([], Some (wrapf "iroh: creating library cache %s: %w" [MBytes dir] e))
                  | None =>
                      let path := Join [dir; filename] in
                      '(ok, err) ← usable path (Z.of_nat (length data)) want;
                      match err with
                      | Some e => Ret ([], Some e)
                      | None =>
                          if ok : bool then Ret (path, None)
                          else
                            err ← writeAtomic path data;
                            match err with
                            | Some e => Ret ([], Some e)
                            | None => Ret (path, None)
                            end
                      end
                  end
              end
          end
      end
  end.

(** [src/internal/lib/lib.go:55-63 Path] *)
Definition Path : os (bytes * error) :=
  p ← sys (OGetenv EnvLibrary);
  if decide (p <> []) then
    info ← sys (OStat p);
    match info with
    | inr err => Ret ([], Some (wrapf "iroh: %s=%s: %w" [MBytes EnvLibrary; MBytes p] err))
    | inl _ => Ret (p, None)
    end
  else extract.

(** [src/internal/lib/open_unix.go:12-24 Open] *)
Definition Open : os (Z * error) :=
  '(path, err) ← Path;
  match err with
  | Some e => Ret (0, Some e)
  | None =>
      handle ← sys (ODlopen path);
      match handle with
      | inr err => Ret (0, Some (wrapf "iroh: loading %s: %w" [MBytes path] err))
      | inl handle => Ret (handle, None)
      end
  end.

(** [src/internal/lib/open_windows.go:11-21 Open] *)
Definition Open_windows : os (Z * error) :=
  '(path, err) ← Path;
  match err with
  | Some e => Ret (0, Some e)
  | None =>
      handle ← sys (OLoadLibrary path);
      match handle with
      | inr err => Ret (0, Some (wrapf "iroh: loading %s: %w" [MBytes path] err))
      | inl handle => Ret (handle, None)
      end
  end.

(** [src/iroh.go:76-76 LibraryPath] *)
Definition LibraryPath : os (bytes * error) := Path.
(** [src/iroh.go:80-80 LibraryPlatform] *)
Definition LibraryPlatform : bytes := Platform.

End Lib.

(** ** The protocol

    [Good p d]: the file [p] is one that installations of the library [d] write.
    The hash in the path makes it a function of the path. *)
Section Protocol.
Context (Good : bytes -> bytes -> Prop).
Context (Good_fun : forall p d d', Good p d -> Good p d' -> d = d').

Definition target (p : bytes) : Prop := exists d, Good p d.

(** The file system, and the temporary file of this process. *)
Record fstate := mkFs { files : gmap bytes bytes; mine : option bytes }.

(** What the other processes may have done to it: complete copies may have been
    installed; what is neither a target nor this process's own file may have
    changed in any way. *)
Definition drift (s s' : fstate) : Prop :=
  mine s' = mine s /\
  (forall t, mine s = Some t -> files s' !! t = files s !! t) /\
  (forall p d, Good p d -> files s' !! p = files s !! p \/ files s' !! p = Some d).

(** What a call does, on its own. *)
Definition effect {X} (s : fstate) (e : osE X) : X -> fstate -> Prop :=
  match e in osE X return X -> fstate -> Prop with
  | OStat p => fun x s' => s' = s /\
      match x with
      | inl n => exists c, files s !! p = Some c /\ n = Z.of_nat (length c)
      | inr err => is_error err FsErrNotExist = true -> files s !! p = None
      end
  | OReadFile p => fun x s' => s' = s /\ forall d, x = inl d -> files s !! p = Some d
  | OCreateTemp _ _ => fun x s' =>
      match x with
      | inl name => files s !! name = None /\ ~ target name /\
                    s' = mkFs (<[name := []]> (files s)) (Some name)
      | inr _ => s' = s
      end
  | OWrite name data => fun x s' => exists old n, files s !! name = Some old /\
      (x = None -> n = length data) /\
      s' = mkFs (<[name := old ++ take n data]> (files s)) (mine s)
  | ORename from to => fun x s' =>
      match x with
      | None => exists d, files s !! from = Some d /\
                s' = mkFs (<[to := d]> (delete from (files s))) (mine s)
      | Some _ => s' = s
      end
  | ORemove name => fun _ s' => s' = mkFs (delete name (files s)) None
  | OGetenv _ | OMkdirAll _ | OClose _ | OChmod _ | OUserCacheDir | OTempDir
  | ODlopen _ | OLoadLibrary _ => fun _ s' => s' = s
  end.

Definition os_pre {X} (s : fstate) (e : osE X) : Prop :=
  match e with
  | OCreateTemp _ _ => mine s = None
  | OWrite name _ => mine s = Some name /\ ~ target name /\ is_Some (files s !! name)
  | OClose name | OChmod name => mine s = Some name
  | ORename from to => mine s = Some from /\ ~ target from /\
      exists d, files s !! from = Some d /\ Good to d
  | ORemove name => mine s = Some name /\ ~ target name
  | _ => True
  end.

Definition os_post {X} (s : fstate) (e : osE X) (x : X) (s' : fstate) : Prop :=
  exists s1, drift s s1 /\ effect s1 e x s'.

#[export] Instance os_protocol : Protocol osE fstate := {| pre := @os_pre; post := @os_post |}.

(** A target is complete as soon as its size is right: "only truncation is a
    real risk". *)
Definition sane (s : fstate) : Prop :=
  forall p d c, Good p d -> files s !! p = Some c -> length c = length d -> c = d.

(** ** Lemmas: interference *)

Lemma drift_refl s : drift s s.
Proof. split; [done|]. split; [done|]. by left. Qed.

Lemma drift_trans s t u : drift s t -> drift t u -> drift s u.
Proof.
  intros (M1 & F1 & G1) (M2 & F2 & G2). split; [by rewrite M2|]. split.
  - intros p Hp. rewrite F2 by by rewrite M1. by apply F1.
  - intros p d Hd. destruct (G2 p d Hd) as [->|H]; [by apply G1|by right].
Qed.

Lemma drift_sane s s' : drift s s' -> sane s -> sane s'.
Proof.
  intros (_ & _ & G) Hs p d c Hd Hc Hl. destruct (G p d Hd) as [E|E]; rewrite E in Hc.
  - by eapply Hs.
  - by simplify_eq.
Qed.

Lemma drift_installed s s' p d : drift s s' -> Good p d -> files s !! p = Some d -> files s' !! p = Some d.
Proof. intros (_ & _ & G) Hd H. destruct (G p d Hd) as [->|H']; done. Qed.

Lemma os_pre_drift {X} (e : osE X) s s' : drift s s' -> os_pre s e -> os_pre s' e.
Proof.
  intros (M & F & _). destruct e; simpl; try done; rewrite ?M; try done.
  - intros (Hm & Ht & Hf). by rewrite (F _ Hm).
  - intros (Hm & Ht & d & Hf & Hd). rewrite (F _ Hm). eauto.
Qed.

(** A program stays correct when the others move before it. *)
Lemma wp_drift {A} (p : os A) (Q : A -> fstate -> Prop) : forall s s',
  (forall a s s', drift s s' -> Q a s -> Q a s') -> drift s s' -> wp s p Q -> wp s' p Q.
Proof.
  induction p as [a|X e k IH|why]; intros s s' HQ Hd; [by apply HQ| |done].
  intros [Hpre Hk]. split; [by eapply os_pre_drift|].
  intros x s2 (s1 & Hd1 & He). apply Hk. exists s1. split; [by eapply drift_trans|done].
Qed.

(** The guarantee is the others' rely. *)
Lemma effect_drift {X} (e : osE X) x s s' m :
  os_pre s e -> effect s e x s' ->
  (forall t, m = Some t -> ~ target t /\ mine s <> Some t /\ mine s' <> Some t) ->
  drift (mkFs (files s) m) (mkFs (files s') m).
Proof.
  intros Hpre He Hm. destruct e; simpl in *; try (subst; apply drift_refl);
    try (match type of He with _ /\ _ => destruct He as [E _]; rewrite E; apply drift_refl end).
  - destruct x as [name|err]; [|subst; apply drift_refl]. destruct He as (Hn & Ht & ->).
    split; [done|]. simpl. split.
    + intros t E. destruct (Hm t E) as (_ & _ & Hne). simpl in Hne. rewrite lookup_insert_ne by congruence. done.
    + intros p d Hd. left. rewrite lookup_insert_ne; [done|]. intros ->. apply Ht. by exists d.
  - destruct He as (old & n & Hf & Hx & ->), Hpre as (Hmine & Hnt & _). split; [done|]. simpl. split.
    + intros t E. destruct (Hm t E) as (_ & Hne & _). rewrite lookup_insert_ne by congruence. done.
    + intros p d Hd. left. rewrite lookup_insert_ne; [done|]. intros ->. apply Hnt. by exists d.
  - destruct x as [err|]; [subst; apply drift_refl|]. destruct He as (d & Hf & ->), Hpre as (Hmine & Hnt & d' & Hf' & Hg).
    assert (d' = d) as -> by congruence. split; [done|]. simpl. split.
    + intros t E. destruct (Hm t E) as (Ht & Hne & _). rewrite lookup_insert_ne, lookup_delete_ne; [done|congruence|].
      intros ->. apply Ht. by exists d.
    + intros p d0 Hd. destruct (decide (to = p)) as [->|Hp].
      * right. rewrite lookup_insert_eq. f_equal. by eapply Good_fun.
      * left. rewrite lookup_insert_ne, lookup_delete_ne; [done| |done]. intros ->. apply Hnt. by exists d0.
  - destruct Hpre as (Hmine & Hnt). subst. split; [done|]. simpl. split.
    + intros t E. destruct (Hm t E) as (_ & Hne & _). rewrite lookup_delete_ne by congruence. done.
    + intros p d Hd. left. rewrite lookup_delete_ne; [done|]. intros ->. apply Hnt. by exists d.
Qed.

(** ** Lemmas: one process *)

Definition settled (s : fstate) : Prop := mine s = None /\ sane s.
Definition installed (path data : bytes) (s : fstate) : Prop := files s !! path = Some data.

Lemma settled_drift s s' : drift s s' -> settled s -> settled s'.
Proof. intros Hd [Hm Hs]. split; [by destruct Hd as (-> & _)|by eapply drift_sane]. Qed.

(** A call that only observes. *)
Definition observes {X} (e : osE X) : Prop := forall s x s', effect s e x s' -> s' = s.

Lemma wp_observe {X A} (e : osE X) (f : X -> os A) s (Q : A -> fstate -> Prop) :
  observes e -> os_pre s e ->
  (forall x s', drift s s' -> effect s' e x s' -> wp s' (f x) Q) -> wp s (x ← sys e; f x) Q.
Proof.
  intros Ho Hpre Hk. apply wp_bind, wp_trigger; [done|]. intros x s' (s1 & Hd & He).
  pose proof (Ho _ _ _ He) as E. subst. by apply Hk.
Qed.

Section OneProcess.
Context (GOOS GOARCH : bytes) (Join : list bytes -> bytes) (Dir : bytes -> bytes) (Sum256 : bytes -> bytes).

Lemma usable_spec s path data want : settled s -> Good path data ->
  wp s (usable Sum256 path (Z.of_nat (length data)) want) (fun '(ok, err) s' => settled s' /\
    (ok = true -> err = None /\ installed path data s')).
Proof.
  intros Hs Hg. apply wp_observe; [by intros ? ? ? [-> _]|done|].
  intros info s1 Hd1 [_ Hinfo]. pose proof (settled_drift _ _ Hd1 Hs) as Hs1.
  destruct info as [n|err]; [|destruct (is_error err FsErrNotExist); by split].
  destruct Hinfo as (c & Hc & ->). destruct (Z.eqb_spec (Z.of_nat (length c)) (Z.of_nat (length data))) as [E|E]; [|by split].
  assert (c = data) as -> by (eapply (proj2 Hs1); [done|done|lia]). simpl negb. cbv iota.
  apply wp_observe; [by intros ? ? ? ->|done|]. intros verify s2 Hd2 _.
  pose proof (settled_drift _ _ Hd2 Hs1) as Hs2. pose proof (drift_installed _ _ _ _ Hd2 Hg Hc) as Hc2.
  cbv beta. case_decide; [by split|].
  apply wp_observe; [by intros ? ? ? [-> _]|done|]. intros onDisk s3 Hd3 _.
  pose proof (settled_drift _ _ Hd3 Hs2). pose proof (drift_installed _ _ _ _ Hd3 Hg Hc2).
  cbv beta zeta. destruct onDisk; [case_decide|]; by split.
Qed.

(** The temporary file is this process's to write, rename and remove. *)
Definition holds (name : bytes) (s : fstate) : Prop :=
  mine s = Some name /\ ~ target name /\ sane s.

Lemma holds_drift name s s' : drift s s' -> holds name s -> holds name s' /\ files s' !! name = files s !! name.
Proof.
  intros Hd (Hm & Ht & Hs). pose proof Hd as (M & F & _). split; [|by apply F].
  split; [by rewrite M|]. split; [done|by eapply drift_sane].
Qed.

Lemma sane_other s s' name : ~ target name ->
  (forall p, p <> name -> files s' !! p = files s !! p) -> sane s -> sane s'.
Proof.
  intros Ht E Hs p d c Hd Hc. rewrite E in Hc; [by apply (Hs p)|]. intros ->. apply Ht. by exists d.
Qed.

Lemma rename_spec s name path data : holds name s -> files s !! name = Some data -> Good path data ->
  wp s (rename_into name path data)
    (fun err s' => holds name s' /\ (err = None -> installed path data s')).
Proof.
  intros Hh Hf Hg. pose proof Hh as (Hm & Ht & Hs). apply wp_bind, wp_trigger; [simpl; eauto|].
  intros err s2 (s1 & Hd & He). destruct (holds_drift _ _ _ Hd Hh) as [Hh1 Hf1]. rewrite Hf in Hf1.
  destruct err as [e|].
  - simpl in He. subst s2. apply wp_observe; [by intros ? ? ? [-> _]|done|].
    intros info s3 Hd3 [_ Hinfo]. destruct (holds_drift _ _ _ Hd3 Hh1) as [Hh3 _].
    destruct info as [n|err]; [|by split]. destruct Hinfo as (c & Hc & ->). cbv beta iota.
    destruct (Z.eqb_spec (Z.of_nat (length c)) (Z.of_nat (length data))) as [E|E]; [|by split].
    split; [done|]. intros _. destruct Hh3 as (_ & _ & Hs3). unfold installed.
    rewrite Hc. f_equal. eapply Hs3; [done|done|lia].
  - destruct He as (d & Hd' & ->). assert (d = data) as -> by congruence.
    split; [|intros _; apply lookup_insert_eq]. destruct Hh1 as (Hm1 & _ & Hs1).
    split; [done|]. split; [done|]. intros p d c Hp. simpl. destruct (decide (path = p)) as [->|Hne].
    + rewrite lookup_insert_eq. intros [= <-] _. by eapply Good_fun.
    + rewrite lookup_insert_ne by done. rewrite lookup_delete_ne; [by apply Hs1|].
      intros ->. apply Ht. by exists d.
Qed.

Lemma fill_and_rename_spec s name path data : holds name s -> files s !! name = Some [] -> Good path data ->
  wp s (fill_and_rename GOOS name path data)
    (fun err s' => holds name s' /\ (err = None -> installed path data s')).
Proof.
  intros Hh Hf Hg. pose proof Hh as (Hm & Ht & _). unfold fill_and_rename.
  apply wp_bind, wp_trigger; [simpl; rewrite Hf; eauto|].
  intros err s2 (s1 & Hd & old & n & Hold & Hn & ->). destruct (holds_drift _ _ _ Hd Hh) as [Hh1 Hf1].
  assert (old = []) as -> by congruence. clear Hold. simpl app.
  assert (Hh2 : holds name (mkFs (<[name := take n data]> (files s1)) (mine s1))).
  { destruct Hh1 as (Hm1 & _ & Hs1). split; [done|]. split; [done|].
    apply (sane_other s1 _ name); [done| |done]. intros p Hp. simpl. by rewrite lookup_insert_ne. }
  destruct err as [e|].
  { apply wp_observe; [by intros ? ? ? ->|apply Hh2|]. intros x s3 Hd3 _.
    destruct (holds_drift _ _ _ Hd3 Hh2) as [Hh3 _]. by split. }
  rewrite (Hn eq_refl), firstn_all in Hh2 |- *.
  apply wp_observe; [by intros ? ? ? ->|apply Hh2|]. intros err s3 Hd3 _.
  destruct (holds_drift _ _ _ Hd3 Hh2) as [Hh3 Hf3]. simpl in Hf3. rewrite lookup_insert_eq in Hf3.
  cbv beta. destruct err as [e|]; [by split|].
  assert (Hren : forall s4 err, holds name s4 -> files s4 !! name = Some data ->
    wp s4 (match err with
           | Some e => Ret (Some (wrapf "iroh: making %s executable: %w" [MBytes name] e))
           | None => rename_into name path data end) (fun err s' => holds name s' /\ (err = None -> installed path data s'))).
  { intros s4 [e|] H4 F4; [by split|]. by apply rename_spec. }
  case_decide.
  - by apply (Hren s3 None).
  - apply wp_observe; [by intros ? ? ? ->|apply Hh3|]. intros err s4 Hd4 _.
    destruct (holds_drift _ _ _ Hd4 Hh3) as [Hh4 Hf4]. apply (Hren s4 err); [done|congruence].
Qed.

Lemma writeAtomic_spec s path data : settled s -> Good path data ->
  wp s (writeAtomic GOOS Dir path data) (fun err s' => settled s' /\ (err = None -> installed path data s')).
Proof.
  intros Hs Hg. apply wp_bind, wp_trigger; [apply Hs|]. intros tmp s2 (s1 & Hd & He).
  pose proof (settled_drift _ _ Hd Hs) as Hs1. destruct tmp as [name|err]; [|simpl in He; subst; by split].
  destruct He as (Hn & Ht & ->).
  assert (Hh : holds name (mkFs (<[name := []]> (files s1)) (Some name))).
  { split; [done|]. split; [done|]. apply (sane_other s1 _ name); [done| |apply Hs1]. simpl.
    intros p Hp. by rewrite lookup_insert_ne. }
  eapply wp_call; [apply fill_and_rename_spec; [done|apply lookup_insert_eq|done]|].
  intros err s3 [Hh3 Hi]. pose proof Hh3 as (Hm3 & _ & _). apply wp_bind, wp_trigger; [done|].
  intros [] s5 (s4 & Hd4 & ->). destruct (holds_drift _ _ _ Hd4 Hh3) as [(_ & _ & Hs4) _].
  split.
  - split; [done|]. apply (sane_other s4 _ name); [done| |done]. intros p Hp. simpl. by rewrite lookup_delete_ne.
  - intros E. specialize (Hi E). unfold installed. simpl. rewrite lookup_delete_ne.
    + by eapply drift_installed.
    + intros ->. apply Ht. by exists data.
Qed.

Lemma IndexAny_none w chars : Forall (fun c => c ∉ chars) w -> IndexAny w chars = None.
Proof. induction 1 as [|c w Hc _ IH]; [done|]. simpl. by rewrite decide_False, IH by done. Qed.

Lemma IndexAny_app w c t chars : Forall (fun c => c ∉ chars) w -> c ∈ chars ->
  IndexAny (w ++ c :: t) chars = Some (length w).
Proof.
  intros Hw Hc. induction Hw as [|d w Hd _ IH]; simpl; [by rewrite decide_True|].
  by rewrite decide_False, IH by done.
Qed.

Lemma hex_not_blank w : Forall (fun c => c ∉ [SP; TAB]) (hex_encode w).
Proof.
  eapply list.Forall_impl; [apply hex_encode_digits|]. intros c Hc. simpl.
  apply (Forall_elem (fun c => c ∉ [SP; TAB]) hex_digits); [|done].
  apply (bool_decide_unpack _). vm_compute. exact I.
Qed.

Lemma embeddedHash_spec fs data want :
  embeddedHash Sum256 fs data = inl want -> want = hex_encode (Sum256 data).
Proof. unfold embeddedHash. intros H. repeat (case_match; simplify_eq); try done; symmetry; by apply dec_stable. Qed.

Context (Sum256_length : forall d, length (Sum256 d) = 32%nat).

(** Where an installation puts a library. *)
Definition cache_path (platform root filename data : bytes) : bytes :=
  Join [Join [root; $"iroh-go"; platform ++ $"-" ++ take 16 (hex_encode (Sum256 data))]; filename].

(** An embedded copy whose installations are among those [Good] describes. *)
Definition described (embedded : option embedded_fs) (platform : bytes) : Prop :=
  forall fs data filename root, embedded = Some fs -> fs embeddedName = inl data ->
    libraryFilename GOOS = inl filename -> Good (cache_path platform root filename data) data.

(** A successful extraction. *)
Definition extracted (r : bytes * error) (s : fstate) : Prop :=
  mine s = None /\
  match r.2 with None => exists data, Good r.1 data /\ installed r.1 data s | Some _ => r.1 = [] end.

Lemma extracted_drift r s s' : drift s s' -> extracted r s -> extracted r s'.
Proof.
  intros Hd [Hm H]. split; [by destruct Hd as (-> & _)|]. destruct (r.2); [done|].
  destruct H as (data & Hg & Hi). exists data. split; [done|]. by eapply drift_installed.
Qed.

Lemma cacheRoot_spec s : settled s -> wp s cacheRoot (fun _ s' => settled s').
Proof.
  intros Hs. apply wp_observe; [by intros ? ? ? ->|done|]. intros d s1 Hd1 _.
  pose proof (settled_drift _ _ Hd1 Hs) as Hs1. cbv beta. case_decide; [done|].
  apply wp_observe; [by intros ? ? ? ->|done|]. intros u s2 Hd2 _.
  pose proof (settled_drift _ _ Hd2 Hs1) as Hs2. destruct u; [done|]. cbn [wp].
  apply wp_trigger; [done|]. intros t s4 (s3 & Hd3 & ->). by eapply settled_drift.
Qed.

Lemma extract_spec s embedded platform : settled s -> described embedded platform ->
  wp s (extract GOOS GOARCH Join Dir Sum256 embedded platform) extracted.
Proof.
  intros Hs Hdesc. unfold extract, extracted.
  destruct embedded as [fs|] eqn:Efs; [|by split; [apply Hs|]].
  destruct (fs embeddedName) as [data|err] eqn:Edata; [|by split; [apply Hs|]].
  destruct (embeddedHash Sum256 fs data) as [want|err] eqn:Ehash; [|by split; [apply Hs|]].
  apply embeddedHash_spec in Ehash. subst want.
  destruct (libraryFilename GOOS) as [filename|err] eqn:Ename; [|by split; [apply Hs|]].
  eapply wp_call; [by apply cacheRoot_spec|]. intros root s1 Hs1. cbv beta.
  assert (first16 (hex_encode (Sum256 data)) = Ret (take 16 (hex_encode (Sum256 data)))) as ->.
  { unfold first16. rewrite hex_encode_length, Sum256_length. done. }
  apply wp_bind. cbn [wp]. cbv zeta.
  pose proof (Hdesc fs data filename root eq_refl Edata Ename) as Hg. unfold cache_path in Hg.
  apply wp_observe; [by intros ? ? ? ->|done|]. intros merr s2 Hd2 _.
  pose proof (settled_drift _ _ Hd2 Hs1) as Hs2. cbv beta. destruct merr as [e|]; [by split; [apply Hs2|]|].
  eapply wp_call; [by apply usable_spec|]. intros [ok uerr] s3 [Hs3 Hok]. cbv beta iota.
  destruct uerr as [e|]; [by split; [apply Hs3|]|]. destruct ok.
  - split; [apply Hs3|]. exists data. split; [done|]. by apply Hok.
  - eapply wp_call; [by apply writeAtomic_spec|]. intros werr s4 [Hs4 Hw]. cbv beta.
    destruct werr as [e|]; [by split; [apply Hs4|]|]. split; [apply Hs4|]. exists data. split; [done|by apply Hw].
Qed.

End OneProcess.

(** ** Many processes *)

(** The disk, and the processes with their temporary files and what is left of
    their programs. *)
Record cluster := mkCluster {
  disk : gmap bytes bytes;
  procs : gmap Z (option bytes * os (bytes * error))
}.

Section Cluster.
Context (GOOS GOARCH : bytes) (Join : list bytes -> bytes) (Dir : bytes -> bytes) (Sum256 : bytes -> bytes).
Context (Sum256_length : forall d, length (Sum256 d) = 32%nat).

(** A process starts to extract some version, makes one call, or is killed.  A
    temporary file's name is not that of another running process. *)
Inductive kstep : cluster -> cluster -> Prop :=
| KStart c i embedded platform :
    procs c !! i = None -> described GOOS Join Sum256 embedded platform ->
    kstep c (mkCluster (disk c)
      (<[i := (None, extract GOOS GOARCH Join Dir Sum256 embedded platform)]> (procs c)))
| KCall c i m X (e : osE X) k x s' :
    procs c !! i = Some (m, Vis e k) -> effect (mkFs (disk c) m) e x s' ->
    (forall j t q, j <> i -> procs c !! j = Some (Some t, q) -> mine s' <> Some t) ->
    kstep c (mkCluster (files s') (<[i := (mine s', k x)]> (procs c)))
| KKill c i : kstep c (mkCluster (disk c) (delete i (procs c))).

Definition kreachable (disk0 : gmap bytes bytes) (c : cluster) : Prop :=
  rtc kstep (mkCluster disk0 ∅) c.

Record kinv (disk0 : gmap bytes bytes) (c : cluster) : Prop := {
  ki_drift : drift (mkFs disk0 None) (mkFs (disk c) None);
  ki_procs : forall i m p, procs c !! i = Some (m, p) -> wp (mkFs (disk c) m) p extracted;
  ki_mine : forall i t p, procs c !! i = Some (Some t, p) -> ~ target t;
  ki_distinct : forall i j t p q, procs c !! i = Some (Some t, p) ->
    procs c !! j = Some (Some t, q) -> i = j
}.

Lemma effect_mine {X} (e : osE X) x s s' t : effect s e x s' -> mine s' = Some t ->
  mine s = Some t \/ ~ target t.
Proof.
  destruct e; simpl; intros He Ht;
    try (subst; by left); try (destruct He as [E _]; subst; by left).
  - destruct x as [name|err]; [|subst; by left]. destruct He as (_ & Hn & ->). simpl in Ht. simplify_eq. by right.
  - destruct He as (old & n & _ & _ & ->). by left.
  - destruct x as [err|]; [subst; by left|]. destruct He as (d & _ & ->). by left.
Qed.

Lemma kinv_start disk0 c i embedded platform : sane (mkFs disk0 None) -> kinv disk0 c ->
  procs c !! i = None -> described GOOS Join Sum256 embedded platform ->
  kinv disk0 (mkCluster (disk c) (<[i := (None, extract GOOS GOARCH Join Dir Sum256 embedded platform)]> (procs c))).
Proof.
  intros Hsane [Hd Hp Hm Hx] Hi Hdesc. constructor; simpl; [done|..].
  - intros j m p. destruct (decide (i = j)) as [->|Hne].
    + rewrite lookup_insert_eq. intros [= <- <-]. apply extract_spec; [done| |done].
      split; [done|]. by eapply drift_sane.
    + rewrite lookup_insert_ne by done. apply Hp.
  - intros j t p. rewrite lookup_insert_Some. intros [[_ H]|[_ H]]; [done|by eapply Hm].
  - intros j1 j2 t p q. rewrite !lookup_insert_Some. intros [[_ H]|[_ H1]] [[_ H']|[_ H2]]; try done. by eapply Hx.
Qed.

Lemma kinv_call disk0 c i m X (e : osE X) k x s' : kinv disk0 c ->
  procs c !! i = Some (m, Vis e k) -> effect (mkFs (disk c) m) e x s' ->
  (forall j t q, j <> i -> procs c !! j = Some (Some t, q) -> mine s' <> Some t) ->
  kinv disk0 (mkCluster (files s') (<[i := (mine s', k x)]> (procs c))).
Proof.
  intros [Hd Hp Hm Hx] Hi He Hfresh. destruct (Hp _ _ _ Hi) as [Hpre Hk].
  assert (Hothers : forall j m' q, j <> i -> procs c !! j = Some (m', q) ->
    drift (mkFs (disk c) m') (mkFs (files s') m')).
  { intros j m' q Hj Hq. apply (effect_drift _ _ _ _ m' Hpre He). intros t ->.
    split; [by eapply Hm|]. split; [|by eapply Hfresh].
    simpl. intros ->. apply Hj. by eapply Hx. }
  constructor; simpl.
  - eapply drift_trans; [done|]. by apply (effect_drift _ _ _ _ None Hpre He).
  - intros j m' p. destruct (decide (i = j)) as [->|Hne].
    + rewrite lookup_insert_eq. intros [= <- <-].
      replace (mkFs (files s') (mine s')) with s' by by destruct s'.
      apply Hk. exists (mkFs (disk c) m). split; [apply drift_refl|done].
    + rewrite lookup_insert_ne by done. intros Hq. eapply wp_drift; [apply extracted_drift|by eapply Hothers|by eapply Hp].
  - intros j t p. rewrite lookup_insert_Some. intros [[<- [= E _]]|[_ H]]; [|by eapply Hm].
    destruct (effect_mine _ _ _ _ _ He E) as [E'|]; [|done]. simpl in E'. subst. by eapply Hm.
  - intros j1 j2 t p q. rewrite !lookup_insert_Some.
    intros [[<- [= E1 _]]|[Hne1 H1]] [[<- [= E2 _]]|[Hne2 H2]]; [done| | |by eapply Hx].
    + exfalso. by eapply Hfresh.
    + exfalso. by eapply Hfresh.
Qed.

Lemma kinv_reachable disk0 c : sane (mkFs disk0 None) -> kreachable disk0 c -> kinv disk0 c.
Proof.
  intros Hsane H. apply rtc_ind_r with (P := kinv disk0) in H; [done| |].
  - constructor; simpl; try done. apply drift_refl.
  - intros c1 c2 _ Hs I. destruct Hs as [cl i emb plat Hi Hdesc|cl i m X e k x s' Hi He Hf|cl i].
    + by apply kinv_start.
    + by eapply kinv_call.
    + destruct I as [Hd Hp Hm Hx]. constructor; simpl; [done|..].
      * intros j m p [_ H2]%lookup_delete_Some. by apply (Hp j).
      * intros j t p [_ H2]%lookup_delete_Some. by eapply Hm.
      * intros j1 j2 t p q [_ H1]%lookup_delete_Some [_ H2]%lookup_delete_Some. by eapply Hx.
Qed.

End Cluster.

(** ** Running a process alone *)

(** An operating system where everything works: [cache] is configured, the next
    temporary file is [tmp], [verify] is the value of [EnvVerify]. *)
Definition working_os (cache tmp verify : bytes) : handler osE fstate := fun X e s =>
  match e in osE X return X * fstate with
  | OGetenv key =>
      (if decide (key = EnvCacheDir) then cache else if decide (key = EnvVerify) then verify else [], s)
  | OStat p => (match files s !! p with Some c => inl (Z.of_nat (length c)) | None => inr (Sentinel FsErrNotExist) end, s)
  | OReadFile p => (match files s !! p with Some c => inl c | None => inr (Sentinel FsErrNotExist) end, s)
  | OMkdirAll _ | OClose _ | OChmod _ => (None, s)
  | OCreateTemp _ _ =>
      match files s !! tmp with
      | None => (inl tmp, mkFs (<[tmp := []]> (files s)) (Some tmp))
      | Some _ => (inr (WrapError (MText "file exists") None), s)
      end
  | OWrite name data => (None, mkFs (<[name := default [] (files s !! name) ++ data]> (files s)) (mine s))
  | ORename from to =>
      match files s !! from with
      | Some d => (None, mkFs (<[to := d]> (delete from (files s))) (mine s))
      | None => (Some (Sentinel FsErrNotExist), s)
      end
  | ORemove name => (tt, mkFs (delete name (files s)) None)
  | OUserCacheDir => (inl cache, s)
  | OTempDir => ([], s)
  | ODlopen _ | OLoadLibrary _ => (inl 1, s)
  end.

Lemma working_os_effect cache tmp verify X (e : osE X) s : ~ target tmp -> os_pre s e ->
  effect s e (working_os cache tmp verify X e s).1 (working_os cache tmp verify X e s).2.
Proof.
  intros Ht Hpre. destruct e; simpl; try done.
  - split; [done|]. destruct (files s !! path) as [c|]; [by exists c|done].
  - split; [done|]. intros d. destruct (files s !! path) as [c|]; simpl; intros E; by simplify_eq.
  - destruct (files s !! tmp) eqn:E; simpl; [done|]. by split_and!.
  - destruct Hpre as (_ & _ & old & Hold). exists old, (length data). rewrite Hold, firstn_all. by split_and!.
  - destruct (files s !! from) eqn:E; simpl; [eauto|done].
Qed.

Lemma run_alone cache tmp verify i : ~ target tmp -> forall (p : os (bytes * error)) s Q,
  wp s p Q -> exists r s', run (working_os cache tmp verify) p s = (Some r, s') /\
  forall GOOS GOARCH Join Dir Sum256,
    rtc (kstep GOOS GOARCH Join Dir Sum256) (mkCluster (files s) {[i := (mine s, p)]})
      (mkCluster (files s') {[i := (mine s', Ret r)]}).
Proof.
  intros Ht p. induction p as [a|X e k IH|why]; intros s Q Hwp; [|destruct Hwp as [Hpre Hk]|done].
  { exists a, s. split; [done|]. intros. constructor. }
  pose proof (working_os_effect cache tmp verify X e s Ht Hpre) as He.
  destruct (IH (working_os cache tmp verify X e s).1 (working_os cache tmp verify X e s).2 Q)
    as (r & s' & Hrun & Hrtc).
  { apply Hk. exists s. split; [apply drift_refl|done]. }
  exists r, s'. simpl. destruct (working_os cache tmp verify X e s) as [x s1]. split; [done|]. intros.
  eapply rtc_l; [|apply Hrtc].
  replace {[i := (mine s1, k x)]} with
    (<[i := (mine s1, k x)]> (procs (mkCluster (files s) {[i := (mine s, Vis e k)]}))) by (simpl; by rewrite insert_singleton_eq).
  eapply KCall; [simpl; by rewrite lookup_singleton_eq|by destruct s|].
  intros j t q Hj. simpl. by rewrite lookup_singleton_ne.
Qed.

End Protocol.

(** ** Properties *)

(** C16. Extraction is safe under concurrency and crashes: whatever processes of
    whatever versions start, run, fail or are killed at any point, interleaved
    call by call on one file system, a cache path never holds anything but what
    it held at first or the complete library that belongs there; a process that
    reports success for a path finds the complete library at it; none panics;
    and a process that returned has removed its temporary file.  As [usable]
    documents, a file that is at a cache path to begin with and has the
    library's size is taken to be the library ([sane]). *)
Theorem concurrent_extraction_safe (Good : bytes -> bytes -> Prop) (GOOS GOARCH : bytes)
    (Join : list bytes -> bytes) (Dir Sum256 : bytes -> bytes) (disk0 : gmap bytes bytes) (c : cluster) :
  (forall p d d', Good p d -> Good p d' -> d = d') ->
  (forall d, length (Sum256 d) = 32%nat) ->
  sane Good (mkFs disk0 None) ->
  kreachable Good GOOS GOARCH Join Dir Sum256 disk0 c ->
  (forall p d, Good p d -> disk c !! p = disk0 !! p \/ disk c !! p = Some d) /\
  (forall i m path, procs c !! i = Some (m, Ret (path, None)) ->
     exists d, Good path d /\ disk c !! path = Some d) /\
  (forall i m r, procs c !! i = Some (m, Ret r) -> m = None) /\
  (forall i m why, procs c !! i <> Some (m, Panic why)).
Proof.
  intros Hfun Hlen Hsane Hr. destruct (kinv_reachable Good Hfun GOOS GOARCH Join Dir Sum256 Hlen _ _ Hsane Hr) as [Hd Hp _ _].
  split; [apply Hd|]. split; [|split].
  - intros i m path H. destruct (Hp _ _ _ H) as [_ (d & Hg & Hi)]. by exists d.
  - intros i m r H. by destruct (Hp _ _ _ H).
  - intros i m why H. by specialize (Hp _ _ _ H).
Qed.

(** A cached library is reused on exactly the documented terms: a missing or
    truncated file never, a file of the right size always when verification is
    off, and with [IROH_GO_VERIFY_LIB] set only if its bytes hash to the
    embedded hash, a mismatch being an error and not a reason to overwrite. *)
Theorem usable_decides (Sum256 : bytes -> bytes) (path want verify tmp : bytes) (size : Z) (s : fstate) :
  run (working_os [] tmp verify) (usable Sum256 path size want) s =
    (Some (match files s !! path with
           | None => (false, None)
           | Some d =>
               if negb (Z.of_nat (length d) =? size) then (false, None)
               else if decide (verify = []) then (true, None)
               else if decide (hex_encode (Sum256 d) = want) then (true, None)
               else (false, Some (plainf "iroh: cached library %s is corrupt (have %s, want %s)"
                                    [MBytes path; MBytes (hex_encode (Sum256 d)); MBytes want]))
           end), s).
Proof.
  unfold usable. rewrite run_bind. cbn [run sys trigger working_os].
  destruct (files s !! path) as [d|] eqn:E; [|done].
  destruct (negb (Z.of_nat (length d) =? size)); [done|].
  rewrite run_bind. cbn [run sys trigger working_os].
  rewrite (decide_False (P := EnvVerify = EnvCacheDir)) by (intros Hk; vm_compute in Hk; discriminate).
  rewrite (decide_True (P := EnvVerify = EnvVerify)) by done.
  case_decide; [done|]. rewrite run_bind. cbn [run sys trigger working_os]. rewrite E. cbv zeta.
  destruct (decide (hex_encode (Sum256 d) = want)) as [Hh|Hh];
    [rewrite decide_False by (intros Hn; by apply Hn)|rewrite decide_True by done]; done.
Qed.

(** The hash that names the cache directory is the hash of the embedded
    library: [embeddedHash] yields nothing else, takes a [sha256sum] sidecar
    that agrees (bare, or followed by the file's name), and reports one that
    disagrees or is malformed as an error. *)
Theorem embedded_hash_is_checked (Sum256 : bytes -> bytes) (fs : embedded_fs) (data : bytes) :
  (forall d, length (Sum256 d) = 32%nat) ->
  (forall want, embeddedHash Sum256 fs data = inl want -> want = hex_encode (Sum256 data)) /\
  (forall raw name, fs (embeddedName ++ $".sha256") = inl raw ->
     TrimSpace raw = hex_encode (Sum256 data) \/
     TrimSpace raw = hex_encode (Sum256 data) ++ SP :: SP :: name ->
     embeddedHash Sum256 fs data = inl (hex_encode (Sum256 data))) /\
  (forall raw, fs (embeddedName ++ $".sha256") = inl raw ->
     (SP ∉ TrimSpace raw) -> (TAB ∉ TrimSpace raw) -> TrimSpace raw <> hex_encode (Sum256 data) ->
     exists err, embeddedHash Sum256 fs data = inr err).
Proof.
  intros Hlen. split; [apply embeddedHash_spec|].
  assert (H64 : length (hex_encode (Sum256 data)) = 64%nat) by by rewrite hex_encode_length, Hlen.
  assert (Hhex : IndexAny (hex_encode (Sum256 data)) [SP; TAB] = None) by apply IndexAny_none, hex_not_blank.
  split.
  - intros raw name E [Et|Et]; unfold embeddedHash; rewrite E; cbv zeta; rewrite Et.
    + rewrite Hhex, H64. simpl. by rewrite decide_False by (intros H; by apply H).
    + rewrite IndexAny_app by (apply hex_not_blank || set_solver). rewrite take_app_length, H64. simpl. rewrite H64. simpl. by rewrite decide_False by (intros H; by apply H).
  - intros raw E Hsp Htab Hne. unfold embeddedHash. rewrite E. cbv zeta.
    rewrite IndexAny_none by (apply list.Forall_forall; intros c Hc [->|[->|[]%not_elem_of_nil]%elem_of_cons]%elem_of_cons; done).
    case_match; [by eexists|]. rewrite decide_True by congruence. by eexists.
Qed.

(** ** Witnesses *)

(** A machine with one cache path, one library and an identity for a hash. *)
Definition one_good (p d : bytes) : Prop := p = $"/c/libiroh_go.so" /\ d = $"LIB".
Definition some_sum (d : bytes) : bytes := replicate 32 (ch 7).
Definition some_join (l : list bytes) : bytes :=
  match l with [_; f] => $"/c/" ++ f | _ => $"/c" end.
Definition one_library : embedded_fs := fun name =>
  if decide (name = embeddedName) then inl $"LIB" else inr (Sentinel FsErrNotExist).

Lemma one_described : described one_good $"linux" some_join some_sum (Some one_library) $"linux_amd64".
Proof.
  intros fs data filename root [= <-] Hd Hf. vm_compute in Hd, Hf. simplify_eq. by split.
Qed.

Lemma one_run : exists c, kreachable one_good $"linux" $"amd64" some_join (fun d => d) some_sum
    {[ $"/c/libiroh_go.so" := $"LI" ]} c /\ procs c !! 1 = Some (None, Ret ($"/c/libiroh_go.so", None)).
Proof.
  assert (Ht : ~ target one_good $"/c/tmp") by (intros (d & H & _); vm_compute in H; discriminate).
  assert (Hs : sane one_good (mkFs {[ $"/c/libiroh_go.so" := $"LI" ]} None)).
  { intros p d c [-> ->]. simpl. rewrite lookup_singleton_eq. intros [= <-] H. vm_compute in H. discriminate. }
  destruct (run_alone one_good $"/c" $"/c/tmp" [] 1 Ht
    (extract $"linux" $"amd64" some_join (fun d => d) some_sum (Some one_library) $"linux_amd64")
    (mkFs {[ $"/c/libiroh_go.so" := $"LI" ]} None) (extracted one_good)) as (r & s' & Hrun & Hrtc).
  { apply extract_spec; [by intros p d d' [_ ->] [_ ->]|done|by split|apply one_described]. }
  exists (mkCluster (files s') {[1 := (mine s', Ret r)]}). split.
  - eapply rtc_l; [|apply Hrtc].
    exact (KStart one_good $"linux" $"amd64" some_join (fun d => d) some_sum
      (mkCluster {[ $"/c/libiroh_go.so" := $"LI" ]} ∅) 1 (Some one_library) $"linux_amd64" eq_refl one_described).
  - simpl. rewrite lookup_singleton_eq. vm_compute in Hrun. injection Hrun as <- <-. reflexivity.
Qed.

Example concurrent_extraction_safe_witness :
  exists c, procs c !! 1 = Some (None, Ret ($"/c/libiroh_go.so", None)) /\
    exists d, one_good $"/c/libiroh_go.so" d /\ disk c !! $"/c/libiroh_go.so" = Some d.
Proof.
  destruct one_run as (c & Hr & Hc). exists c. split; [exact Hc|].
  refine (proj1 (proj2 (concurrent_extraction_safe one_good $"linux" $"amd64" some_join (fun d => d) some_sum _ c
    _ _ _ Hr)) 1 None $"/c/libiroh_go.so" Hc).
  - intros p d d' [_ ->] [_ ->]. reflexivity.
  - reflexivity.
  - intros p d c' [-> ->]. simpl. rewrite lookup_singleton_eq. intros [= <-] H. vm_compute in H. discriminate.
Defined.

Example embedded_hash_is_checked_witness :
  embeddedHash some_sum one_library $"LIB" = inl (hex_encode (some_sum $"LIB")) /\
  hex_encode (some_sum $"LIB") = hex_encode (some_sum $"LIB").
Proof.
  split; [reflexivity|].
  apply (proj1 (embedded_hash_is_checked some_sum one_library $"LIB" ltac:(reflexivity))). reflexivity.
Defined.
