(* ===== verification/Embed.v ===== *)
(** Which native library a build embeds: the build constraints of
    [internal/lib/embed_*.go] and [open_*.go], and the modules under [libs/].

    A build is what the go command knows: [GOOS], [GOARCH] and the two tags of
    this repository.  A file is in the build when its [go:build] line and the
    constraint its name implies ([_GOOS_GOARCH.go]) both hold; [linux] also
    holds for android and [darwin] for ios. *)
From S2P Require Import Prelude GoErrors Prog GoStrings LibFiles.
Local Open Scope Z_scope.
Local Open Scope go_scope.

(** ** Builds and constraints *)

Record build := mkBuild { goos : bytes; goarch : bytes; musl : bool; iroh_nolibs : bool }.

Inductive constraint : Set :=
| Tag (t : bytes) | Not (c : constraint) | And (a b : constraint) | Or (a b : constraint).

Declare Scope constraint_scope.
Delimit Scope constraint_scope with constraint.
Notation "a && b" := (And a b) : constraint_scope.
Notation "a || b" := (Or a b) : constraint_scope.
Notation "! c" := (Not c) (at level 35, right associativity) : constraint_scope.

(** The tags a build satisfies. *)
Definition has_tag (b : build) (t : bytes) : bool :=
  bool_decide (t = goos b) || bool_decide (t = goarch b) ||
  (bool_decide (t = $"linux") && bool_decide (goos b = $"android")) ||
  (bool_decide (t = $"darwin") && bool_decide (goos b = $"ios")) ||
  (bool_decide (t = $"musl") && musl b) ||
  (bool_decide (t = $"iroh_nolibs") && iroh_nolibs b).

Fixpoint holds_in (b : build) (c : constraint) : bool :=
  match c with
  | Tag t => has_tag b t
  | Not c => negb (holds_in b c)
  | And c d => holds_in b c && holds_in b d
  | Or c d => holds_in b c || holds_in b d
  end.

Abbreviation linux := (Tag $"linux").
Abbreviation darwin := (Tag $"darwin").
Abbreviation windows := (Tag $"windows").
Abbreviation amd64 := (Tag $"amd64").
Abbreviation arm64 := (Tag $"arm64").
Abbreviation tag_musl := (Tag $"musl").
Abbreviation nolibs := (Tag $"iroh_nolibs").

(** ** The modules under [libs/] *)

(** A module's [Platform]; its [Lib] is the embedded directory. *)
Record plat := mkPlat { plat_Platform : bytes }.

(** [src/libs/linux_amd64/lib.go:5-15 Platform] *)
Definition libs_linux_amd64 : plat := mkPlat $"linux_amd64".
(** [src/libs/linux_amd64_musl/lib.go:5-15 Platform] *)
Definition libs_linux_amd64_musl : plat := mkPlat $"linux_amd64_musl".
(** [src/libs/linux_arm64/lib.go:5-15 Platform] *)
Definition libs_linux_arm64 : plat := mkPlat $"linux_arm64".
(** [src/libs/linux_arm64_musl/lib.go:5-15 Platform] *)
Definition libs_linux_arm64_musl : plat := mkPlat $"linux_arm64_musl".
(** [src/libs/darwin_amd64/lib.go:5-15 Platform] *)
Definition libs_darwin_amd64 : plat := mkPlat $"darwin_amd64".
(** [src/libs/darwin_arm64/lib.go:5-15 Platform] *)
Definition libs_darwin_arm64 : plat := mkPlat $"darwin_arm64".
(** [src/libs/windows_amd64/lib.go:5-15 Platform] *)
Definition libs_windows_amd64 : plat := mkPlat $"windows_amd64".
(** [src/libs/windows_arm64/lib.go:5-15 Platform] *)
Definition libs_windows_arm64 : plat := mkPlat $"windows_arm64".

(** ** The files *)

(** A file of the package: its constraint, and what its [init] assigns to
    [embedded] and [platform]. *)
Record embed_file := mkFile { file_constraint : constraint; file_init : option plat }.

(** [src/internal/lib/embed_linux_amd64.go:1-10 init] *)
Definition embed_linux_amd64 : embed_file :=
  mkFile ((linux && amd64 && !tag_musl && !nolibs) && (linux && amd64))%constraint (Some libs_linux_amd64).
(** [src/internal/lib/embed_linux_amd64_musl.go:1-10 init] *)
Definition embed_linux_amd64_musl : embed_file :=
  mkFile (linux && amd64 && tag_musl && !nolibs)%constraint (Some libs_linux_amd64_musl).
(** [src/internal/lib/embed_linux_arm64.go:1-10 init] *)
Definition embed_linux_arm64 : embed_file :=
  mkFile ((linux && arm64 && !tag_musl && !nolibs) && (linux && arm64))%constraint (Some libs_linux_arm64).
(** [src/internal/lib/embed_linux_arm64_musl.go:1-10 init] *)
Definition embed_linux_arm64_musl : embed_file :=
  mkFile (linux && arm64 && tag_musl && !nolibs)%constraint (Some libs_linux_arm64_musl).
(** [src/internal/lib/embed_darwin_amd64.go:1-10 init] *)
Definition embed_darwin_amd64 : embed_file :=
  mkFile ((darwin && amd64 && !nolibs) && (darwin && amd64))%constraint (Some libs_darwin_amd64).
(** [src/internal/lib/embed_darwin_arm64.go:1-10 init] *)
Definition embed_darwin_arm64 : embed_file :=
  mkFile ((darwin && arm64 && !nolibs) && (darwin && arm64))%constraint (Some libs_darwin_arm64).
(** [src/internal/lib/embed_windows_amd64.go:1-10 init] *)
Definition embed_windows_amd64 : embed_file :=
  mkFile ((windows && amd64 && !nolibs) && (windows && amd64))%constraint (Some libs_windows_amd64).
(** [src/internal/lib/embed_windows_arm64.go:1-10 init] *)
Definition embed_windows_arm64 : embed_file :=
  mkFile ((windows && arm64 && !nolibs) && (windows && arm64))%constraint (Some libs_windows_arm64).
(** [src/internal/lib/embed_none.go:1-6 embed_none] *)
Definition embed_none : embed_file :=
  mkFile (nolibs || !((linux && (amd64 || arm64)) || (darwin && (amd64 || arm64)) ||
                      (windows && (amd64 || arm64))))%constraint None.

Definition embed_files : list embed_file :=
  [embed_linux_amd64; embed_linux_amd64_musl; embed_linux_arm64; embed_linux_arm64_musl;
   embed_darwin_amd64; embed_darwin_arm64; embed_windows_amd64; embed_windows_arm64; embed_none].

(** The two files that define [Open]. *)
Definition open_unix_constraint : constraint := (!windows)%constraint.
Definition open_windows_constraint : constraint := (windows && windows)%constraint.

(** The files in a build, and the platform it embeds. *)
Definition built (b : build) : list embed_file :=
  List.filter (fun f => holds_in b (file_constraint f)) embed_files.
Definition embedded_platform (b : build) : option bytes :=
  match built b with [f] => plat_Platform <$> file_init f | _ => None end.

(** ** What a build should embed *)

Definition os_family (os : bytes) : option bytes :=
  if bool_decide (os = $"linux" \/ os = $"android") then Some $"linux"
  else if bool_decide (os = $"darwin" \/ os = $"ios") then Some $"darwin"
  else if bool_decide (os = $"windows") then Some $"windows"
  else None.
Definition expected_platform (b : build) : option bytes :=
  if iroh_nolibs b then None
  else
    os ← os_family (goos b);
    if bool_decide (goarch b = $"amd64" \/ goarch b = $"arm64") then
      Some (os ++ $"_" ++ goarch b ++ if musl b && bool_decide (os = $"linux") then $"_musl" else [])
    else None.

(** A build the go command can make: an operating system and an architecture by
    their own names, neither of which is a tag of this repository. *)
Definition go_build (b : build) : Prop :=
  (goos b ∉ [ $"amd64"; $"arm64"; $"musl"; $"iroh_nolibs" ]) /\
  (goarch b ∉ [ $"linux"; $"android"; $"darwin"; $"ios"; $"windows"; $"musl"; $"iroh_nolibs" ]).

(** ** Lemmas *)

Ltac closed_tags :=
  repeat match goal with
  | |- context [bool_decide (lit ?x = lit ?y)] =>
      let v := eval vm_compute in (bool_decide (lit x = lit y)) in
      change (bool_decide (lit x = lit y)) with v
  end.

Ltac refute_tags :=
  repeat match goal with
  | |- context [bool_decide ?P] => rewrite (bool_decide_false P) by intuition congruence
  end.

(** What a tag that is no architecture, or no operating system, means. *)
Lemma tag_os b t : t <> goarch b ->
  (t = $"linux" \/ t = $"darwin" \/ t = $"windows") ->
  has_tag b t = bool_decide (t = goos b) || (bool_decide (t = $"linux") && bool_decide (goos b = $"android")) ||
    (bool_decide (t = $"darwin") && bool_decide (goos b = $"ios")).
Proof.
  intros Ha Ht. unfold has_tag. rewrite (bool_decide_false _ Ha).
  destruct Ht as [->|[->| ->]]; closed_tags; cbn [andb orb]; by rewrite ?orb_false_r.
Qed.

Lemma tag_arch b t : t <> goos b -> (t = $"amd64" \/ t = $"arm64") ->
  has_tag b t = bool_decide (t = goarch b).
Proof.
  intros Ho Ht. unfold has_tag. rewrite (bool_decide_false _ Ho).
  destruct Ht as [->| ->]; closed_tags; cbn [andb orb]; by rewrite ?orb_false_r.
Qed.

Lemma tag_flag b : go_build b -> has_tag b $"musl" = musl b /\ has_tag b $"iroh_nolibs" = iroh_nolibs b.
Proof.
  intros [Ho Ha]. unfold has_tag.
  rewrite (bool_decide_false ($"musl" = goos b)), (bool_decide_false ($"musl" = goarch b)),
    (bool_decide_false ($"iroh_nolibs" = goos b)), (bool_decide_false ($"iroh_nolibs" = goarch b)) by set_solver.
  closed_tags. cbn [andb orb]. by rewrite orb_false_r.
Qed.

(** The three operating systems with libraries, and the rest. *)
Lemma os_cases b : go_build b ->
  (has_tag b $"linux" = true /\ has_tag b $"darwin" = false /\ has_tag b $"windows" = false /\ os_family (goos b) = Some $"linux" /\ exists n, libraryFilename (goos b) = inl n) \/
  (has_tag b $"linux" = false /\ has_tag b $"darwin" = true /\ has_tag b $"windows" = false /\ os_family (goos b) = Some $"darwin" /\ exists n, libraryFilename (goos b) = inl n) \/
  (has_tag b $"linux" = false /\ has_tag b $"darwin" = false /\ has_tag b $"windows" = true /\ os_family (goos b) = Some $"windows" /\ exists n, libraryFilename (goos b) = inl n) \/
  (has_tag b $"linux" = false /\ has_tag b $"darwin" = false /\ has_tag b $"windows" = false /\ os_family (goos b) = None).
Proof.
  intros [Ho Ha]. rewrite !tag_os by (set_solver || auto). unfold os_family, libraryFilename.
  destruct (decide (goos b = $"linux")) as [->|H1]; [left; split_and!; [reflexivity..|by eexists]|].
  destruct (decide (goos b = $"android")) as [->|H2]; [left; split_and!; [reflexivity..|by eexists]|].
  destruct (decide (goos b = $"darwin")) as [->|H3]; [right; left; split_and!; [reflexivity..|by eexists]|].
  destruct (decide (goos b = $"ios")) as [->|H4]; [right; left; split_and!; [reflexivity..|by eexists]|].
  destruct (decide (goos b = $"windows")) as [->|H5];
    [right; right; left; split_and!; [reflexivity..|by eexists]|].
  right. right. right. closed_tags. by refute_tags.
Qed.

Lemma arch_cases b : go_build b ->
  (has_tag b $"amd64" = true /\ has_tag b $"arm64" = false /\ goarch b = $"amd64") \/ (has_tag b $"amd64" = false /\ has_tag b $"arm64" = true /\ goarch b = $"arm64") \/
  (has_tag b $"amd64" = false /\ has_tag b $"arm64" = false /\ goarch b <> $"amd64" /\ goarch b <> $"arm64").
Proof.
  intros [Ho Ha]. rewrite !tag_arch by (set_solver || auto).
  destruct (decide (goarch b = $"amd64")) as [->|H1]; [left; by split_and!|].
  destruct (decide (goarch b = $"arm64")) as [->|H2]; [right; left; by split_and!|].
  right. right. by refute_tags.
Qed.

Lemma built_one b : length (built b) = 1%nat -> exists f, built b = [f] /\ f ∈ embed_files.
Proof.
  intros Hl. assert (Hin : forall f, f ∈ built b -> f ∈ embed_files).
  { intros f. rewrite !list_elem_of_In. by intros [H _]%filter_In. }
  destruct (built b) as [|f [|]]; try done. exists f. split; [done|]. apply Hin. by left.
Qed.

Lemma filter_concat {A} (p : A -> bool) l :
  List.filter p l = concat (map (fun a => if p a then [a] else []) l).
Proof. induction l as [|a l IH]; simpl; [done|]. rewrite IH. by destruct (p a). Qed.

(** The tags a build is made from decide everything. *)
Lemma built_platform b : go_build b ->
  length (built b) = 1%nat /\ embedded_platform b = expected_platform b.
Proof.
  intros Hb. pose proof (os_cases b Hb) as Hos. pose proof (arch_cases b Hb) as Harch.
  destruct (tag_flag b Hb) as [Hm Hn]. unfold embedded_platform, expected_platform, built, embed_files.
  rewrite filter_concat.
  cbn [map file_constraint embed_linux_amd64 embed_linux_amd64_musl embed_linux_arm64
    embed_linux_arm64_musl embed_darwin_amd64 embed_darwin_arm64 embed_windows_amd64
    embed_windows_arm64 embed_none holds_in]. rewrite Hm, Hn.
  destruct Hos as [(-> & -> & -> & -> & _)|[(-> & -> & -> & -> & _)|[(-> & -> & -> & -> & _)|(-> & -> & -> & ->)]]];
    (destruct Harch as [(-> & -> & ->)|[(-> & -> & ->)|(-> & -> & H1 & H2)]];
     [| |rewrite (bool_decide_false (goarch b = $"amd64" \/ goarch b = $"arm64")) by tauto]);
    destruct (musl b), (iroh_nolibs b); vm_compute; by split.
Qed.

(** ** Properties *)

(** C39. Every build has exactly one answer to which library it embeds: whatever
    the operating system, the architecture and the tags, one and only one of
    the nine [embed_*.go] files and one of the two [open_*.go] files is in the
    build; the platform embedded is the one that was built for (android counts
    as linux, ios as darwin), none where there is no library or [iroh_nolibs] is
    set; and a build that embeds a library knows the file name to extract it
    under. *)
Theorem every_build_embeds_its_platform (b : build) :
  go_build b ->
  (exists f, built b = [f] /\ f ∈ embed_files) /\
  holds_in b open_unix_constraint = negb (holds_in b open_windows_constraint) /\
  embedded_platform b = expected_platform b /\
  (is_Some (embedded_platform b) -> exists name, libraryFilename (goos b) = inl name).
Proof.
  intros Hb. destruct (built_platform b Hb) as [Hone Heq].
  split; [by apply built_one|]. split; [|split; [exact Heq|]].
  - unfold open_unix_constraint, open_windows_constraint. cbn [holds_in].
    by destruct (has_tag b $"windows").
  - rewrite Heq. unfold expected_platform.
    destruct (os_cases b Hb) as [(_ & _ & _ & _ & H)|[(_ & _ & _ & _ & H)|[(_ & _ & _ & _ & H)|(_ & _ & _ & ->)]]];
      [intros _; exact H..|]. intros [p Hp]. destruct (iroh_nolibs b); discriminate Hp.
Qed.

(** Android on arm64 embeds the linux library. *)
Example every_build_embeds_its_platform_witness :
  embedded_platform (mkBuild $"android" $"arm64" false false) = Some $"linux_arm64".
Proof.
  refine (proj1 (proj2 (proj2 (every_build_embeds_its_platform (mkBuild $"android" $"arm64" false false) _)))).
  split; apply (bool_decide_unpack _); vm_compute; exact I.
Defined.
