(* ===== verification/Load.v ===== *)
(** Loading the library: [Load] and [load] of [internal/ffi/ffi.go].

    The library's side of loading is an event each: opening it ([lib.Open],
    [LibFiles.v]), looking a symbol up ([purego.RegisterLibFunc], which panics
    when it is missing), and the two functions called during loading.  A call
    through a field of the function table that was never registered is a nil
    call and panics; [load] recovers from both. *)
From S2P Require Import Prelude GoErrors Prog Abi.
Local Open Scope Z_scope.

(** ** Events *)

Inductive ldE : Type -> Type :=
| DOpen : ldE (Z + gerror)                       (* lib.Open() *)
| DRegister (f : api_fn) (name : string) : ldE (option string)
    (* RegisterLibFunc: the value it panics with, if it does *)
| DBound (f : api_fn) : ldE bool                 (* whether the field is set *)
| DAbiVersion : ldE Z
| DInitRuntime : ldE Z
| DStartPump : ldE unit                          (* startPump() *)
| DOnce : ldE bool                               (* loadOnce.Do: whether to run it *)
| DSetErr (err : error) : ldE unit               (* loadErr = ... *)
| DGetErr : ldE error.

Abbreviation ld := (prog ldE).
Definition dev {X} (e : ldE X) : ld X := trigger e.

(** ** The code *)

(** [defer func() { if r := recover(); r != nil { err = f(r) } }()] *)
Fixpoint recovering {A} (p : ld A) (f : string -> A) : ld A :=
  match p with
  | Ret a => Ret a
  | Vis e k => Vis e (fun x => recovering (k x) f)
  | Panic why => Ret (f why)
  end.

Definition RegisterLibFunc (f : api_fn) (name : string) : ld unit :=
  r ← dev (DRegister f name);
  match r with Some why => Panic why | None => Ret tt end.

(** A call through a field of the function table. *)
Definition through {X} (f : api_fn) (e : ldE X) : ld X :=
  b ← dev (DBound f);
  if b : bool then dev e else Panic "invalid memory address or nil pointer dereference".

Definition bindingErr (why : string) : gerror :=
  WrapError (MFmt "iroh: binding library symbols: %v" [MText why]) None.
Definition versionErr (got : Z) : gerror :=
  WrapError (MFmt "iroh: library at ABI version %d, these bindings need %d; the native library is out of step with the Go code (run `make lib`, or update the libs/* modules)"
    [MInt got; MInt ABIVersion]) None.
Definition runtimeErr : gerror := WrapError (MFmt "iroh: library failed to start its runtime" []) None.

Fixpoint register_all (order : list (string * api_fn)) : ld unit :=
  match order with
  | [] => Ret tt
  | (name, f) :: order => RegisterLibFunc f name;; register_all order
  end.

(** [src/internal/ffi/ffi.go:184-200 load] What runs under the deferred
    recovery; [order] is the order the map of symbols is iterated in. *)
Definition load_body (order : list (string * api_fn)) : ld error :=
  RegisterLibFunc f_abiVersion "iroh_abi_version";;
  got ← through f_abiVersion DAbiVersion;
  if negb (got =? ABIVersion) then Ret (Some (versionErr got))
  else
    register_all order;;
    rc ← through f_initRuntime DInitRuntime;
    if negb (rc =? 0) then Ret (Some runtimeErr)
    else dev DStartPump;; Ret None.

(** [src/internal/ffi/ffi.go:165-201 load] *)
Definition load (order : list (string * api_fn)) : ld error :=
  handle ← dev DOpen;
  match handle with
  | inr err => Ret (Some err)
  | inl _ => recovering (load_body order) (fun why => Some (bindingErr why))
  end.

(** [src/internal/ffi/ffi.go:158-163 Load] *)
Definition Load (order : list (string * api_fn)) : ld error :=
  first ← dev DOnce;
  (if first : bool then err ← load order; dev (DSetErr err) else Ret tt);;
  dev DGetErr.

(** ** A library to load *)

Record library := mkLibrary {
  lib_handle : Z + gerror;              (* what lib.Open returns *)
  lib_missing : string -> option string; (* the panic of a missing symbol *)
  lib_abi : Z;
  lib_rc : Z                            (* what iroh_init returns *)
}.

(** The variables of the package, and what was started. *)
Record package := mkPackage {
  bound : list api_fn; inits : nat; pumps : nat; once : bool; loadErr : error
}.
Definition unloaded : package := mkPackage [] 0 0 false None.

Definition loader (L : library) : handler ldE package := fun X e w =>
  match e in ldE X return X * package with
  | DOpen => (lib_handle L, w)
  | DRegister f name =>
      match lib_missing L name with
      | Some why => (Some why, w)
      | None => (None, mkPackage (f :: bound w) (inits w) (pumps w) (once w) (loadErr w))
      end
  | DBound f => (bool_decide (f ∈ bound w), w)
  | DAbiVersion => (lib_abi L, w)
  | DInitRuntime => (lib_rc L, mkPackage (bound w) (S (inits w)) (pumps w) (once w) (loadErr w))
  | DStartPump => (tt, mkPackage (bound w) (inits w) (S (pumps w)) (once w) (loadErr w))
  | DOnce => (negb (once w), mkPackage (bound w) (inits w) (pumps w) true (loadErr w))
  | DSetErr err => (tt, mkPackage (bound w) (inits w) (pumps w) (once w) err)
  | DGetErr => (loadErr w, w)
  end.

(** The first symbol of [order] the library lacks. *)
Fixpoint first_missing (L : library) (order : list (string * api_fn)) : option string :=
  match order with
  | [] => None
  | (name, _) :: order => match lib_missing L name with Some why => Some why | None => first_missing L order end
  end.

(** Several calls of [Load], one after the other. *)
Fixpoint loads (L : library) (orders : list (list (string * api_fn))) (w : package)
    : list (option error) * package :=
  match orders with
  | [] => ([], w)
  | o :: orders =>
      let '(r, w1) := run (loader L) (Load o) w in
      let '(rs, w2) := loads L orders w1 in (r :: rs, w2)
  end.

(** ** Lemmas *)

Definition set_bound (b : list api_fn) (w : package) : package :=
  mkPackage b (inits w) (pumps w) (once w) (loadErr w).

Lemma run_register_all L (rest : ld error) f : forall order w, exists b,
  run (loader L) (recovering (register_all order;; rest) f) w =
    match first_missing L order with
    | Some why => (Some (f why), set_bound b w)
    | None => run (loader L) (recovering rest f) (set_bound (reverse order.*2 ++ bound w) w)
    end.
Proof.
  induction order as [|[name g] order IH]; intros w.
  - exists []. simpl. by destruct w.
  - simpl. destruct (lib_missing L name) as [why|] eqn:E.
    + exists (bound w). by destruct w.
    + destruct (IH (set_bound (g :: bound w) w)) as [b Hb]. exists b. unfold set_bound in Hb at 1. simpl in Hb.
      etransitivity; [exact Hb|]. unfold set_bound. simpl. by rewrite reverse_cons, <-app_assoc.
Qed.

Lemma first_missing_none L order :
  first_missing L order = None <-> forall name f, (name, f) ∈ order -> lib_missing L name = None.
Proof.
  induction order as [|[name f] order IH]; simpl.
  - split; [intros _ name f H; by apply not_elem_of_nil in H|done].
  - destruct (lib_missing L name) as [why|] eqn:E.
    + split; [done|]. intros H. rewrite (H name f) in E by by left. done.
    + rewrite IH. split; intros H n g; [intros [[= -> ->]|Hin]%elem_of_cons; [done|by eapply H]|].
      intros Hin. apply (H n g). by right.
Qed.

Lemma first_missing_some L order why :
  first_missing L order = Some why -> exists name f, (name, f) ∈ order /\ lib_missing L name = Some why.
Proof.
  induction order as [|[name f] order IH]; simpl; [done|]. destruct (lib_missing L name) as [why'|] eqn:E.
  - intros [= ->]. exists name, f. split; [by left|done].
  - intros H. destruct (IH H) as (n & g & Hin & Hm). exists n, g. split; [by right|done].
Qed.

(** What loading comes to. *)
Definition outcome (L : library) (order : list (string * api_fn)) : error :=
  match lib_handle L with
  | inr err => Some err
  | inl _ =>
      match lib_missing L "iroh_abi_version" with
      | Some why => Some (bindingErr why)
      | None =>
          if negb (lib_abi L =? ABIVersion) then Some (versionErr (lib_abi L))
          else match first_missing L order with
               | Some why => Some (bindingErr why)
               | None => if negb (lib_rc L =? 0) then Some runtimeErr else None
               end
      end
  end.

Lemma order_binds order f : Permutation order symbols -> f ∈ reverse order.*2.
Proof.
  intros Hp. apply elem_of_reverse. rewrite Hp. apply symbols_cover.
Qed.

(** What loading leaves behind. *)
Definition left_behind (L : library) (err : error) (w w' : package) : Prop :=
  match err with
  | None => inits w' = S (inits w) /\ pumps w' = S (pumps w) /\ forall f, f ∈ bound w'
  | Some e => pumps w' = pumps w /\ (inits w' = inits w \/ e = runtimeErr) /\
      (forall h, lib_handle L = inl h -> e = versionErr (lib_abi L) -> bound w' = [f_abiVersion])
  end.

Lemma run_load L order w : Permutation order symbols -> bound w = [] ->
  exists w', run (loader L) (load order) w = (Some (outcome L order), w') /\
    once w' = once w /\ loadErr w' = loadErr w /\ left_behind L (outcome L order) w w'.
Proof.
  intros Hp Hb. unfold load, outcome. rewrite run_bind. cbn [run dev trigger loader].
  destruct (lib_handle L) as [h|e] eqn:Eh.
  2: { exists w. split; [done|]. split_and!; [done|done|]. split_and!; [done|by left|]. intros h Hh. congruence. }
  unfold load_body, RegisterLibFunc at 1, through at 1. simpl.
  destruct (lib_missing L "iroh_abi_version") as [why|] eqn:Em.
  { simpl. exists w. split; [done|]. unfold left_behind; by split_and!; auto. }
  simpl. destruct (negb (lib_abi L =? ABIVersion)) eqn:Ev; simpl.
  { eexists. split; [reflexivity|]. rewrite Hb. unfold left_behind. by split_and!; auto. }
  match goal with |- context [run _ (recovering (_ ≫= fun _ => ?r) ?f) ?w0] =>
    destruct (run_register_all L r f order w0) as [b ->] end.
  destruct (first_missing L order) as [why|] eqn:Efm.
  { eexists. split; [reflexivity|]. unfold left_behind; by split_and!; auto. }
  simpl. rewrite bool_decide_true by (apply elem_of_app; left; by apply order_binds).
  simpl. destruct (negb (lib_rc L =? 0)); simpl.
  - eexists. split; [reflexivity|]. unfold left_behind; by split_and!; auto.
  - eexists. split; [reflexivity|]. unfold left_behind. split_and!; auto. intros f. simpl. apply elem_of_app. left. by apply order_binds.
Qed.

Lemma outcome_none L order : Permutation order symbols ->
  outcome L order = None <->
    (exists h, lib_handle L = inl h) /\ lib_abi L = ABIVersion /\ lib_rc L = 0 /\
    forall f name, bound_symbol f = Some name -> lib_missing L name = None.
Proof.
  intros Hp. unfold outcome. destruct (lib_handle L) as [h|e]; [|split; [done|by intros ([? ?] & _)]].
  assert (Hall : first_missing L order = None <->
    forall f name, bound_symbol f = Some name -> lib_missing L name = None).
  { rewrite first_missing_none. split.
    - intros H f name Hf. destruct (bound_symbol_spec f) as (n & Hn & Hin).
      assert (n = name) as -> by congruence. apply (H name f). by rewrite Hp.
    - intros H name f Hin. rewrite Hp in Hin. apply (H f). destruct (bound_symbol_spec f) as (n & Hn & Hin').
      pose proof (NoDup_fmap_row snd symbols _ _ symbols_fields_NoDup Hin Hin' eq_refl). by simplify_eq. }
  destruct (lib_missing L "iroh_abi_version") as [why|] eqn:Em.
  { split; [done|]. intros (_ & _ & _ & H). rewrite (H f_abiVersion) in Em; [done|reflexivity]. }
  destruct (Z.eqb_spec (lib_abi L) ABIVersion) as [Ha|Ha]; simpl; [|split; [done|naive_solver]].
  destruct (first_missing L order) as [why|] eqn:Ef.
  { split; [done|]. intros (_ & _ & _ & H). by apply Hall in H. }
  destruct (Z.eqb_spec (lib_rc L) 0) as [Hr|Hr]; simpl; [|split; [done|naive_solver]].
  split; [|done]. intros _. split; [by exists h|]. split; [done|]. split; [done|by apply Hall].
Qed.

Lemma run_Load L order w : once w = true -> run (loader L) (Load order) w = (Some (loadErr w), w).
Proof. intros Ho. unfold Load. rewrite run_bind. simpl. rewrite Ho. simpl. by destruct w; simpl in *; subst. Qed.

Lemma loads_again L orders w : once w = true ->
  loads L orders w = (replicate (length orders) (Some (loadErr w)), w).
Proof.
  intros Ho. induction orders as [|o orders IH]; [done|]. cbn [loads]. rewrite run_Load by done. by rewrite IH.
Qed.

(** ** Properties *)

(** C33. Loading ends well or not at all.  Whatever the library and whatever the
    order the symbols are bound in, [load] returns (a missing symbol or a nil
    function is an error, not a crash); it succeeds exactly when the library
    opens, speaks this ABI, exports every symbol and starts its runtime, and
    then every function of the table is bound and the runtime and the pump were
    started once; a library at another ABI version is reported as that, whatever
    symbols it lacks, with nothing but the version looked up; and any number of
    calls of [Load] load once and report the same. *)
Theorem load_checks_before_use (L : library) (order : list (string * api_fn))
    (orders : list (list (string * api_fn))) :
  Permutation order symbols ->
  (outcome L order = None <->
     (exists h, lib_handle L = inl h) /\ lib_abi L = ABIVersion /\ lib_rc L = 0 /\
     forall f name, bound_symbol f = Some name -> lib_missing L name = None) /\
  exists w', loads L (order :: orders) unloaded =
      (replicate (S (length orders)) (Some (outcome L order)), w') /\
    loadErr w' = outcome L order /\ left_behind L (outcome L order) unloaded w'.
Proof.
  intros Hp. split; [by apply outcome_none|].
  destruct (run_load L order (mkPackage [] 0 0 true None) Hp eq_refl) as (w1 & Hrun & Ho & _ & Hleft).
  exists (mkPackage (bound w1) (inits w1) (pumps w1) (once w1) (outcome L order)).
  split; [|split; [done|exact Hleft]].
  cbn [loads]. unfold Load at 1. rewrite run_bind. cbn [run dev trigger loader].
  simpl once; simpl negb; cbv iota. change (mkPackage _ _ _ true _) with (mkPackage [] 0 0 true None).
  rewrite run_bind, run_bind, Hrun. cbn [run dev trigger loader]. by rewrite loads_again.
Qed.

(** ** Witness *)

(** A library of another version that lacks every symbol but the version. *)
Definition stale : library :=
  mkLibrary (inl 1) (fun name => if decide (name = "iroh_abi_version"%string) then None else Some name) 4 0.

Example load_checks_before_use_witness :
  outcome stale symbols = Some (versionErr 4) /\
  exists w', loads stale [symbols; symbols] unloaded =
      ([Some (Some (versionErr 4)); Some (Some (versionErr 4))], w') /\
    loadErr w' = Some (versionErr 4) /\ left_behind stale (Some (versionErr 4)) unloaded w'.
Proof.
  split; [reflexivity|].
  exact (proj2 (load_checks_before_use stale symbols [symbols] (Permutation_refl symbols))).
Defined.
