(* ===== verification/Iroh.v ===== *)
(** The package entry points, [iroh.go]: what a program calls before it has an
    endpoint.  [LibraryPath] and [LibraryPlatform] are in [LibFiles.v]. *)
From S2P Require Import Prelude GoErrors Prog Abi Contract Pump Calls.
Local Open Scope Z_scope.

(** [src/iroh.go:47-47 LogLevel] An [int32]. *)
Definition LogLevel : Type := Z.

(** [src/iroh.go:50-50 LogOff] *)
Definition LogOff : LogLevel := 0.
(** [src/iroh.go:51-51 LogError] *)
Definition LogError : LogLevel := 1.
(** [src/iroh.go:52-52 LogWarn] *)
Definition LogWarn : LogLevel := 2.
(** [src/iroh.go:53-53 LogInfo] *)
Definition LogInfo : LogLevel := 3.
(** [src/iroh.go:54-54 LogDebug] *)
Definition LogDebug : LogLevel := 4.
(** [src/iroh.go:55-55 LogTrace] *)
Definition LogTrace : LogLevel := 5.

(** [src/iroh.go:62-64 SetLogLevel] *)
Definition SetLogLevel (level : LogLevel) : go error := Calls.SetLogLevel level.

(** [src/iroh.go:72-72 IrohVersion] *)
Definition IrohVersion : go (bytes * error) := Calls.IrohVersion.

(** [src/rust/irohgo-ffi/src/lib.rs:80-88 iroh_set_log_level] The library's
    reading of a level. *)
Definition directive (level : LogLevel) : option string :=
  match level with
  | 0 => Some "off" | 1 => Some "error" | 2 => Some "warn"
  | 3 => Some "info" | 4 => Some "debug" | 5 => Some "trace"
  | _ => None
  end%string.

(** ** Lemmas *)

(** Both sides name the levels alike. *)
Lemma directives :
  map directive [LogOff; LogError; LogWarn; LogInfo; LogDebug; LogTrace] =
    map Some ["off"; "error"; "warn"; "info"; "debug"; "trace"]%string.
Proof. reflexivity. Qed.
