(* ===== verification/EchoMain.v ===== *)
(** The rest of the echo example: [listen], whose accept loop starts one
    goroutine per peer, and [main], up to how the process exits.

    [listen] and [main] are programs over the events of the package's Go code
    and one of their own, [SpServe]: the statement [go serve(ctx, conn)].  They
    are proved here against what a goroutine may hand to another; the process in
    which the goroutines run next to each other is in [EchoProcess.v].

    The contexts of [signal.NotifyContext] and [context.WithTimeout] are
    arguments, and so are the parsed flags.  A process listens until it is
    interrupted: the accept loop takes a number of rounds, and [ended] tells
    whether it is over. *)
From S2P Require Import Prelude GoErrors Prog Abi Contract Reference Pump Calls Handle.
From S2P Require Import Deadline Streams GoStrings Keys Netip Addr Conn Endpoint Creates Iroh Echo.
Local Open Scope Z_scope.
Local Open Scope go_scope.

(** ** The code *)

(** What the goroutine of [main] does: what any Go code of the package does, and
    [go serve(ctx, conn)]. *)
Inductive spE : Type -> Type :=
| SpGo {X} (e : goE X) : spE X
| SpServe (ctx : Z) (conn : Conn) : spE unit.
Abbreviation sp := (prog spE).

(** A call of a function of the package. *)
Fixpoint on_go {A} (p : go A) : sp A :=
  match p with
  | Ret a => Ret a
  | Vis e k => Vis (SpGo e) (fun x => on_go (k x))
  | Panic why => Panic why
  end.

(** [src/examples/echo/main.go:103-112 listen] What [listen] returns once the
    loop is over. *)
Fixpoint accept_peers (rounds : nat) (ctx : Z) (ep : Endpoint) : sp (option error) :=
  match rounds with
  | O => Ret None
  | S rounds =>
      '(conn, err) ← on_go (Endpoint_Accept ep ctx);
      match conn, err with
      | _, Some e =>
          done ← on_go (rt (RCtxErr ctx));
          match done with
          | Some _ => Ret (Some None)
          | None => Ret (Some (Some (wrapf "accept: %w" [] e)))
          end
      | None, None => Panic "nil connection"
      | Some conn, None =>
          trigger (SpServe ctx conn);;
          accept_peers rounds ctx ep
      end
  end.

(** What [listen] logged and printed, and what it returned. *)
Record listening := mkListening {
  offline_for : error;             (* "continuing without a relay: %v" *)
  printed : option (bytes * Ticket); (* the short id and the ticket *)
  ended : option error
}.

Section Main.
Context {netip : NetIP}.

(** [src/examples/echo/main.go:81-113 listen] [online] and [bye] are the
    contexts of [Online] and of [shutdown]. *)
Definition listen (rounds : nat) (ctx online bye : Z) (offline : bool) : sp listening :=
  opts ← on_go (options offline [alpn]);
  '(ep, err) ← on_go (Bind ctx opts);
  match ep, err with
  | _, Some e => Ret (mkListening None None (Some (Some (wrapf "bind: %w" [] e))))
  | None, None => Panic "nil endpoint"
  | Some ep, None =>
      r ← (warned ← (if offline then Ret None else on_go (Online ep online));
           '(ticket, err) ← on_go (Endpoint_Ticket ep);
           match err with
           | Some e => Ret (mkListening warned None (Some (Some (wrapf "ticket: %w" [] e))))
           | None =>
               ended ← accept_peers rounds ctx ep;
               Ret (mkListening warned (Some (Short (ep_id ep), ticket)) ended)
           end);
      match ended r with
      | None => Ret r
      | Some _ => on_go (shutdown bye ep);; Ret r
      end
  end.

(** How the process ends. *)
Inductive exit : Type :=
| ExitUsage             (* flag.Usage, os.Exit(2) *)
| ExitFatal (e : gerror) (* log.Fatal *)
| ExitOK.

Definition exit_with (err : error) : exit := match err with Some e => ExitFatal e | None => ExitOK end.

Definition exit_after (r : option (bytes + gerror)) : option exit :=
  match r with Some (inl _) => Some ExitOK | Some (inr e) => Some (ExitFatal e) | None => None end.

(** [flag.Arg(i)] *)
Definition Arg (args : list bytes) (i : nat) : bytes := default [] (args !! i).

(** [src/examples/echo/main.go:49-65 main] The switch. *)
Definition command (rounds rf : nat) (grow : Z -> Z) (ctx online bye : Z) (offline : bool)
    (args : list bytes) : sp (option exit) :=
  if decide (Arg args 0 = $"listen") then
    r ← listen rounds ctx online bye offline;
    Ret (exit_with <$> ended r)
  else if decide (Arg args 0 = $"dial") then
    if (length args <? 3)%nat then Ret (Some ExitUsage)
    else
      r ← on_go (dial rounds rf grow ctx bye offline (Arg args 1) (Arg args 2));
      Ret (exit_after r)
  else Ret (Some ExitUsage).

(** [src/examples/echo/main.go:38-66 main] From the parsed flags on.  [None]: it
    is still listening, or still waiting for its reply. *)
Definition main (rounds rf : nat) (grow : Z -> Z) (ctx online bye : Z) (offline verbose : bool)
    (args : list bytes) : sp (option exit) :=
  (if verbose then on_go (SetLogLevel LogDebug) else Ret None);;
  command rounds rf grow ctx online bye offline args.

End Main.

(** ** What [main]'s goroutine owes *)

(** Its account, and the peers it has started a goroutine for.  A connection
    handed to [serve] is one whose library object is known, which no other
    goroutine serves, and the library is loaded. *)
#[export] Instance sp_protocol : Protocol spE (owned * list Conn) := {|
  pre := fun X st e => match e with
    | SpGo e => pre st.1 e
    | SpServe _ conn => o_loaded st.1 = true /\ (conn_obj conn ∉ map conn_obj st.2) /\
        exists h, h <> 0 /\ o_objs st.1 !! conn_obj conn = Some h
    end;
  post := fun X st e => match e in spE X return X -> owned * list Conn -> Prop with
    | SpGo e => fun x st' => post st.1 e x st'.1 /\ st'.2 = st.2
    | SpServe _ conn => fun _ st' => st' = (st.1, st.2 ++ [conn])
    end
|}.

(** Every Go object made but one, the endpoint's, is a connection that a
    goroutine of its own was started for. *)
Definition all_served (s : owned) (peers : list Conn) : Prop :=
  exists ep, NoDup (ep :: map conn_obj peers) /\
    (forall c, c ∈ peers -> is_Some (o_objs s !! conn_obj c)) /\
    (forall o, is_Some (o_objs s !! o) -> o ∈ ep :: map conn_obj peers).

Definition interrupted (ctx : Z) (s : owned) : Prop := exists e, o_ctx s !! ctx = Some (CtxDone e).

(** ** Lemmas *)

Lemma wp_on_go {A} (p : go A) : forall s l (Q : A -> owned -> Prop), wp s p Q ->
  wp (s, l) (on_go p) (fun a st => Q a st.1 /\ st.2 = l).
Proof.
  induction p as [a|X e k IH|why]; intros s l Q; cbn [on_go wp]; [done| |done].
  intros [Hpre Hk]. split; [done|]. intros x [s' l'] [Hpost El]. cbn [fst snd] in *. subst l'. by apply IH, Hk.
Qed.

(** A call of a function of the package, with what follows it. *)
Lemma wp_call_go {A B} (p : go A) (f : A -> sp B) s l (P : A -> owned -> Prop) Q :
  wp s p P -> (forall a s', P a s' -> wp (s', l) (f a) Q) -> wp (s, l) (on_go p ≫= f) Q.
Proof.
  intros Hp Hf. eapply wp_call; [by apply wp_on_go|].
  intros a [s' l'] [HP El]. cbn [fst snd] in *. subst l'. by apply Hf.
Qed.

Lemma ctx_err_spec s ctx :
  wp s (rt (RCtxErr ctx)) (fun err s' => waited s ctx s' /\ (err <> None -> interrupted ctx s')).
Proof.
  apply wp_trigger; [done|]. intros err s' H. simpl in H.
  destruct (o_ctx s !! ctx) as [[| |e]|] eqn:E.
  3:{ destruct H as [-> ->]. split; [by left|]. intros _. by exists e. }
  all: destruct err as [x|]; [|subst; by split; [left|]].
  all: destruct H as (c & -> & Hf); split; [right; by exists c|]; intros _; exists c.
  all: destruct Hf as (c' & n & (_ & _ & -> & _) & ->); simpl; by rewrite lookup_insert_eq.
Qed.

Lemma all_served_objs s s' l : o_objs s' = o_objs s -> all_served s l -> all_served s' l.
Proof. intros E. unfold all_served. by rewrite E. Qed.

(** The same with the endpoint known to be there. *)
Definition serving (ep : Z) (s : owned) (peers : list Conn) : Prop :=
  NoDup (ep :: map conn_obj peers) /\ forall o, is_Some (o_objs s !! o) <-> o ∈ ep :: map conn_obj peers.

Lemma serving_all ep s l : serving ep s l -> all_served s l.
Proof.
  intros [Hnd Hall]. exists ep. split; [done|]. split; [|intros o; apply Hall].
  intros c Hc. apply Hall. right. by apply list_elem_of_fmap_2.
Qed.

Lemma serving_objs ep s s' l : o_objs s' = o_objs s -> serving ep s l -> serving ep s' l.
Proof. intros E. unfold serving. by rewrite E. Qed.

(** One more connection, and a goroutine for it. *)
Lemma serving_one ep s s' l c h : o_objs s !! conn_obj c = None -> o_objs s' = <[conn_obj c := h]> (o_objs s) ->
  serving ep s l -> serving ep s' (l ++ [c]).
Proof.
  intros Hnew E [Hnd Hall]. unfold serving. rewrite map_app, app_comm_cons. cbn [map]. split.
  - apply list.NoDup_app. split; [done|]. split; [|apply NoDup_singleton].
    intros o Ho ->%list_elem_of_singleton. apply Hall in Ho as [h' Ho]. congruence.
  - intros o. rewrite E, lookup_insert_is_Some', elem_of_app, list_elem_of_singleton, Hall. naive_solver.
Qed.

Lemma accept_peers_spec rounds ctx ep : forall s l, o_loaded s = true -> serving (ep_obj ep) s l ->
  wp (s, l) (accept_peers rounds ctx ep) (fun ended '(s', l') =>
    quiet s s' /\ later s s' /\ serving (ep_obj ep) s' l' /\ (ended = Some None -> interrupted ctx s')).
Proof.
  induction rounds as [|rounds IH]; intros s l Hl Hs; cbn [accept_peers].
  { split; [apply quiet_refl|]. split; [apply later_refl|]. by split. }
  eapply wp_call_go.
  { apply wp_later, wp_conj; [by apply (Endpoint_Accept_adds s ep ctx)|].
    apply adds_only; [apply Endpoint_Accept_creates|by apply wp_adds_makes, Endpoint_Accept_adds]. }
  intros [conn err] s1 [[[Hq Hr] [_ Hr']] Hlt]. destruct err as [e|].
  - destruct Hr as [-> Ho]. eapply wp_call_go; [by apply wp_later, ctx_err_spec|].
    intros done s2 [[Hw Hi] Hlt2]. pose proof (waited_objs _ _ _ Hw) as Ho2.
    assert (quiet s s2) by (eapply quiet_trans, quiet_waited; eauto).
    assert (later s s2) by by eapply later_trans.
    assert (serving (ep_obj ep) s2 l) by (apply (serving_objs _ s); [congruence|done]).
    destruct done; (split; [done|]; split; [done|]; split; [done|]); [|done].
    intros _. by apply Hi.
  - destruct Hr' as (c & h & -> & Hh & Hn & Ho).
    apply wp_bind, wp_trigger.
    { split; [by apply Hlt|]. split; cbn [fst snd]; [|exists h; split; [done|]; rewrite Ho; apply lookup_insert_eq].
      intros Hin. destruct Hs as [_ Hall]. destruct (proj2 (Hall (conn_obj c))) as [h' Hc]; [by right|congruence]. }
    intros [] st ->. cbn [fst snd]. eapply wp_mono.
    { apply IH; [by apply Hlt|by eapply serving_one]. }
    intros en [s2 l2] (Hq2 & Hlt2 & H). split; [by eapply quiet_trans|]. split; [by eapply later_trans|done].
Qed.

Section MainSpec.
Context {netip : NetIP} (loopback_parses : exists a, ParseAddrPort loopback = inl a).

Lemma options_spec offline alpns : exists opts, options offline alpns = Ret opts /\ options_ok opts.
Proof.
  unfold options. destruct offline; [|by eexists]. destruct loopback_parses as [a ->]. by eexists.
Qed.

(** Calls of [listen] that make no object. *)
Definition settled {A} (s : owned) (_ : A) (s' : owned) : Prop := (quiet s s' /\ o_objs s' = o_objs s) /\ later s s'.

Lemma settled_refl {A} s (a : A) : settled s a s.
Proof. split; [|apply later_refl]. by split; [apply quiet_refl|]. Qed.

Lemma Endpoint_Ticket_settled s e : o_loaded s = true -> wp s (Endpoint_Ticket e) (settled s).
Proof.
  intros Hl. apply wp_later, adds_none; [apply Ticket_creates|]. unfold Endpoint_Ticket.
  eapply wp_call; [apply wp_later, (with_handle_quiet s); intros h Hh|].
  - eapply wp_call; [by apply wp_later, text_sync_quiet|]. intros [text [e'|]] s1 [Hq L]; [done|].
    eapply wp_mono; [apply decodeAddr_spec|]. intros [a err] s2 [Hs _].
    by eapply quiet_trans, steady_quiet.
  - intros [addr [e'|]] s1 [Hq L]; [done|]. unfold EndpointAddr_Ticket.
    eapply wp_call; [by apply textCall_steady|]. intros [t [e'|]] s2 Hs; simpl; by eapply quiet_trans, steady_quiet.
Qed.

Lemma Online_settled s e ctx : o_loaded s = true -> wp s (Online e ctx) (settled s).
Proof.
  intros Hl. apply wp_later, adds_none; [apply Online_creates|].
  apply with_handle_quiet. intros h Hh. by apply unit_op_quiet.
Qed.

Lemma shutdown_spec bye ep s : o_loaded s = true ->
  wp s (shutdown bye ep) (fun _ s' => exists err, closed s bye err s').
Proof. intros Hl. eapply wp_call; [by apply Endpoint_Close_spec|]. intros err s' H. by exists err. Qed.

Lemma interrupted_moves ctx s bye s' : ctx_moves s bye s' -> interrupted ctx s -> interrupted ctx s'.
Proof.
  intros [[E _]|(e & _ & _ & E & _)] [x Hx]; unfold interrupted; rewrite E; [by exists x|].
  destruct (decide (ctx = bye)) as [->|Hne]; [rewrite lookup_insert_eq; by eexists|].
  rewrite lookup_insert_ne by done. by exists x.
Qed.

(** What [listen] comes to. *)
Definition listened (s : owned) (ctx : Z) (r : listening) (st : owned * list Conn) : Prop :=
  quiet s st.1 /\ all_served st.1 st.2 /\ (ended r = Some None -> interrupted ctx st.1).

(** The body of [listen], once the endpoint is bound. *)
Lemma listen_bound_spec rounds ctx online (offline : bool) ep s l : o_loaded s = true -> serving (ep_obj ep) s l ->
  wp (s, l) (warned ← (if offline then Ret None else on_go (Online ep online));
        '(ticket, err) ← on_go (Endpoint_Ticket ep);
        match err with
        | Some e => Ret (mkListening warned None (Some (Some (wrapf "ticket: %w" [] e))))
        | None =>
            ended ← accept_peers rounds ctx ep;
            Ret (mkListening warned (Some (Short (ep_id ep), ticket)) ended)
        end) (fun r '(s', l') =>
    quiet s s' /\ later s s' /\ serving (ep_obj ep) s' l' /\ (ended r = Some None -> interrupted ctx s')).
Proof.
  intros Hl Hs. eapply (wp_call _ _ _ (fun x st => settled s x st.1 /\ st.2 = l)).
  { destruct offline; [by split; [apply settled_refl|]|]. by apply wp_on_go, Online_settled. }
  intros warned [s1 l1] [[[Hq1 Ho1] Hlt1] El]. cbn [fst snd] in *. subst l1.
  eapply wp_call_go; [by apply Endpoint_Ticket_settled, Hlt1|].
  intros [ticket err] s2 [[Hq2 Ho2] Hlt2]. pose proof (quiet_trans _ _ _ Hq1 Hq2) as Hq.
  pose proof (later_trans _ _ _ Hlt1 Hlt2) as Hlt.
  apply (serving_objs _ _ s2) in Hs; [|congruence].
  destruct err as [e|]; [by split_and!|].
  eapply wp_call; [by apply accept_peers_spec; [apply Hlt|]|]. intros end_ [s3 l3] (Hq3 & Hlt3 & H).
  split; [by eapply quiet_trans|]. by split; [eapply later_trans|].
Qed.

Lemma all_served_none s : o_objs s = ∅ -> all_served s [].
Proof.
  intros E. exists 0. split; [apply NoDup_singleton|]. split; [by intros c ?%not_elem_of_nil|].
  intros o. rewrite E, lookup_empty. by intros [? ?].
Qed.

Lemma listen_spec rounds ctx online bye offline s : o_loaded s = true -> o_objs s = ∅ ->
  wp (s, []) (listen rounds ctx online bye offline) (listened s ctx).
Proof.
  intros Hl Ho. destruct (options_spec offline [alpn]) as (opts & Eo & Hok). unfold listen. rewrite Eo.
  apply wp_bind. cbn [wp on_go]. eapply wp_call_go.
  { apply wp_later, (adds_only _ _ ep_obj); [apply Bind_creates|by apply Bind_spec]. }
  intros [ep err] s1 [[Hq1 Hr] L1].
  destruct err as [e|].
  { destruct Hr as (-> & _ & o & Hr). split; [done|]. split; [|done]. exists o. split; [apply NoDup_singleton|].
    split; [by intros c ?%not_elem_of_nil|]. intros o' [->|H]%Hr; [by left|]. rewrite Ho, lookup_empty in H. by destruct H. }
  destruct Hr as (ep' & h & -> & Hh & Hn & Hr). rewrite Ho in Hr.
  eapply wp_call.
  { apply listen_bound_spec; [by apply L1|]. split; [apply NoDup_singleton|]. intros o.
    rewrite Hr, lookup_insert_is_Some', lookup_empty, list_elem_of_singleton. split; [by intros [->|[? ?]]|by left]. }
  intros r [s2 l2] (Hq2 & Hlt2 & Hsv & Hi). pose proof (quiet_trans _ _ _ Hq1 Hq2) as Hq.
  destruct (ended r) as [err|] eqn:Ee.
  2:{ split; [done|]. split; [by eapply serving_all|]. cbn. by rewrite Ee. }
  eapply wp_call_go; [by apply shutdown_spec, Hlt2, L1|].
  intros [] s3 [err' (F & _ & Hm & _)]. pose proof F as (_ & _ & _ & Eo3).
  split; [by eapply quiet_trans, frame_quiet|]. split; [by eapply serving_all, serving_objs|].
  rewrite Ee. intros Hn'. by eapply interrupted_moves, Hi.
Qed.

(** What the usage text is for. *)
Definition misused (args : list bytes) : Prop :=
  Arg args 0 <> $"listen" /\ (Arg args 0 = $"dial" -> (length args < 3)%nat).

(** What the process leaves when [main] is over. *)
Definition commanded (s : owned) (ctx : Z) (args : list bytes) (x : option exit) (st : owned * list Conn) : Prop :=
  quiet s st.1 /\ (x = Some ExitUsage <-> misused args) /\
  (Arg args 0 <> $"listen" -> st.2 = []) /\
  (Arg args 0 = $"listen" -> all_served st.1 st.2 /\ (x = Some ExitOK -> interrupted ctx st.1)).

Lemma command_spec rounds rf grow ctx online bye offline args s :
  (forall c, grow c < two63) -> len (Arg args 2) < two63 ->
  o_loaded s = true -> o_locks s = ∅ -> (o_changes s < rf)%nat -> o_objs s = ∅ ->
  wp (s, []) (command rounds rf grow ctx online bye offline args) (commanded s ctx args).
Proof.
  intros Hg Hm Hl Hlk Hrf Ho. unfold command. case_decide as E1.
  { eapply wp_call; [by apply listen_spec|]. intros r [s' l] (Hq & Hs & Hi). split; [done|]. split; [|split; [done|]].
    - split; [by destruct (ended r) as [[]|]|]. by intros [].
    - intros _. split; [done|]. intros H. apply Hi. by destruct (ended r) as [[]|]. }
  case_decide as E2; [|split; [apply quiet_refl|]; split; [by split|done]].
  destruct (Nat.ltb_spec (length args) 3) as [Hlt|Hge].
  { split; [apply quiet_refl|]. split; [by split|done]. }
  eapply wp_call_go; [by apply dial_spec'|]. intros r s' Hq. split; [done|]. split; [|done].
  split; [by destruct r as [[]|]|]. intros [_ H]. specialize (H E2). lia.
Qed.

Lemma SetLogLevel_settled s level : wp s (SetLogLevel level) (settled s).
Proof.
  apply wp_later, adds_none; [by apply SetLogLevel_creates|].
  apply loaded_quiet. apply wp_bind, wp_trigger; [done|]. intros rc s1 ->. by case_match.
Qed.

Lemma main_spec rounds rf grow ctx online bye offline verbose args s :
  (forall c, grow c < two63) -> len (Arg args 2) < two63 ->
  o_loaded s = true -> o_locks s = ∅ -> (o_changes s < rf)%nat -> o_objs s = ∅ ->
  wp (s, []) (main rounds rf grow ctx online bye offline verbose args) (commanded s ctx args).
Proof.
  intros Hg Hm Hl Hlk Hrf Ho. eapply (wp_call _ _ _ (fun x st => settled s x st.1 /\ st.2 = [])).
  { destruct verbose; [by apply wp_on_go, SetLogLevel_settled|]. by split; [apply settled_refl|]. }
  intros err [s1 l1] [[[Hq Ho1] [Hch Hl1]] El]. cbn [fst snd] in *. subst l1. pose proof Hq as [(_ & _ & _ & _ & Elk & _) _].
  eapply wp_mono; [apply command_spec; try done|].
  - by apply Hl1.
  - congruence.
  - lia.
  - congruence.
  - intros x st (Hq2 & H). split; [by eapply quiet_trans|exact H].
Qed.

End MainSpec.
