(* ===== verification/EchoProcess.v ===== *)
(** The echo process: [main]'s goroutine, a goroutine of [serve] for each peer,
    and the native library they share.

    The goroutines take their steps in any order, with those of the library's
    tasks in between, as in [ShimThreads.v]; the statement [go serve(ctx, conn)]
    adds one.  A goroutine starts with an account of its own, in which it is told
    the objects and the contexts its creator knows, and owns nothing.  When
    [main] returns the process is over, whatever its goroutines were doing. *)
From S2P Require Import Prelude GoErrors Prog Abi Contract Reference Pump Calls GoStrings Keys Netip Addr Handle Deadline Streams Conn Endpoint.
From S2P Require Import Registry RustAddr Shim ShimInv ShimRefines ShimIds ShimRuns ShimThreads Echo EchoMain.
Local Open Scope Z_scope.
Local Open Scope go_scope.

(** What a goroutine knows that [s]'s owner has started. *)
Definition told (s : owned) : owned :=
  mkOwned (o_loaded s) ∅ ∅ ∅ ∅ ∅ ∅ ∅ ∅ (o_ctx s) 0 ∅ ∅ (o_objs s).

Abbreviation server := (go (option (option (string * gerror))) * owned)%type.

(** [main] has returned. *)
Definition exited (p : sp (option exit)) : bool := match p with Ret (Some _) => true | _ => false end.

Section Process.
Context {netip : NetIP} {iroh : Iroh} {crates : IrohCrates}.

Record process := mkProcess {
  p_lib : shim * gset Z;                    (* the library, and the handles of Go objects *)
  p_main : sp (option exit) * owned;        (* [main]'s goroutine *)
  p_peers : list (Conn * server)            (* the goroutines of [serve], with their connections *)
}.

(** The answers iroh is taken to give, and what the process was started with. *)
Context (may_answer : forall X, cE X -> says -> Prop).
Context (rounds rf : nat) (grow : Z -> Z) (ctx online bye : Z) (offline verbose : bool) (args : list bytes).

(** ** Steps *)

(** [src/examples/echo/main.go:111-111 listen] [MainServes] is the statement
    [go serve(ctx, conn)]. *)
Inductive process_step : process -> process -> Prop :=
| MainGoes l l' X (e : goE X) k x s s' ps :
    thread_step may_answer l (trigger e, s) l' (Ret x, s') ->
    process_step (mkProcess l (Vis (SpGo e) k, s) ps) (mkProcess l' (k x, s') ps)
| MainServes l c conn k s ps :
    process_step (mkProcess l (Vis (SpServe c conn) k, s) ps)
      (mkProcess l (k tt, s) (ps ++ [(conn, (echo_serve rounds rf c conn, told s))]))
| PeerGoes l l' m i conn g g' ps :
    exited m.1 = false -> ps !! i = Some (conn, g) -> thread_step may_answer l g l' g' ->
    process_step (mkProcess l m ps) (mkProcess l' m (<[i := (conn, g')]> ps))
| LibGoes w w' objs m ps :
    exited m.1 = false -> shim_step w w' ->
    process_step (mkProcess (w, objs) m ps) (mkProcess (w', objs) m ps).

(** A process that has loaded the library. *)
Definition launched : process :=
  mkProcess (shim_start, ∅) (main rounds rf grow ctx online bye offline verbose args, newcomer) [].

(** ** The invariant *)

Definition accounts (st : process) : list owned := (p_main st).2 :: map (fun p => p.2.2) (p_peers st).
Definition conns (st : process) : list Conn := map fst (p_peers st).

(** Owners of different things, next to the Go objects: a pool of goroutines with
    nothing left to do. *)
Definition holder (s : owned) : go unit * owned := (Ret tt, s).
Definition all_apart (l : shim * gset Z) (ss : list owned) : Prop :=
  shared (A := unit) (fun _ _ _ => True) l.1 l.2 (map holder ss).

(** What a goroutine of [serve] has left to do. *)
Definition server_ok (g : server) : Prop :=
  exists s0, wp g.2 g.1 (fun r s' => exchanged (told s0) (echoed r) s').

Record process_ok (st : process) : Prop := {
  ok_apart : all_apart (p_lib st) (accounts st);
  ok_main : wp ((p_main st).2, conns st) (p_main st).1 (commanded newcomer ctx args);
  ok_peers : Forall (fun p => server_ok p.2) (p_peers st);
  ok_conns : NoDup (map conn_obj (conns st))
}.

(** ** Every step keeps it *)

Lemma holders (ss : list owned) i p s : map holder ss !! i = Some (p, s) <-> p = Ret tt /\ ss !! i = Some s.
Proof. rewrite list_lookup_fmap. unfold holder. destruct (ss !! i); naive_solver. Qed.

Lemma all_apart_sound l ss i s : all_apart l ss -> ss !! i = Some s -> sound l.1 s (objects l.2).
Proof. intros Hsh Hi. eapply (sh_thread _ _ _ _ Hsh i (Ret tt)). by apply holders. Qed.

Lemma all_apart_step l ss l' i s s' : all_apart l ss -> ss !! i = Some s -> trades l.1 s l.2 l'.1 s' l'.2 ->
  all_apart l' (<[i := s']> ss).
Proof.
  intros Hsh Hi HT. unfold all_apart. rewrite list_fmap_insert.
  eapply shared_thread; [exact Hsh|by apply holders|exact HT|done].
Qed.

Lemma all_apart_lib `{!CratesLaws} w w' objs ss : all_apart (w, objs) ss -> shim_step w w' -> all_apart (w', objs) ss.
Proof.
  intros Hsh Hstep.
  exact (shared_step may_answer _ (w, objs, map holder ss) (w', objs, map holder ss) (PLib _ _ _ _ _ Hstep) Hsh).
Qed.

Lemma sound_told w s t u : sound w t u -> sound w t (told s).
Proof.
  intros H%sound_newcomer%sound_sym. apply sound_sym. by apply (sound_fields w newcomer).
Qed.

Lemma all_apart_more l ss s : all_apart l ss -> all_apart l (ss ++ [told s]).
Proof.
  intros [Hl Ht Ha]. pose proof (sound_told _ s _ _ Hl) as Hnew.
  assert (Hin : forall i p u, map holder (ss ++ [told s]) !! i = Some (p, u) ->
    map holder ss !! i = Some (p, u) \/ (i = length ss /\ p = Ret tt /\ u = told s)).
  { intros i p u [-> Hi]%holders. apply lookup_app_Some in Hi as [Hi|[Hge Hi]]; [left; by apply holders|right].
    apply list_lookup_singleton_Some in Hi as [? <-]. split; [lia|done]. }
  assert (Hold : forall i p u, map holder ss !! i = Some (p, u) -> sound l.1 u (told s)).
  { intros i p u Hi. destruct (Ht i p u Hi) as [_ H]. by eapply sound_told. }
  constructor.
  - done.
  - intros i p u [Hi|(_ & -> & ->)]%Hin; [by apply (Ht i)|]. split; [done|]. apply sound_sym, Hnew.
  - intros i j p q u t Hne [Hi|(-> & _ & ->)]%Hin [Hj|(-> & _ & ->)]%Hin; [by apply (Ha i j p q)| | |done].
    + by eapply Hold.
    + apply sound_sym. by eapply Hold.
Qed.

(** The goroutine of [serve] that [main]'s starts. *)
Lemma server_starts s conn c : (0 < rf)%nat -> o_loaded s = true -> server_ok (echo_serve rounds rf c conn, told s).
Proof. intros Hrf Hl. exists s. by apply echo_serve_spec. Qed.

Lemma process_step_ok `{!CratesLaws} st st' : (0 < rf)%nat -> process_step st st' -> process_ok st -> process_ok st'.
Proof.
  intros Hrf Hstep [Ha Hm Hp Hc].
  destruct Hstep as [l l' X e k x s s' ps Hs|l c conn k s ps|l l' m i conn g g' ps _ Hi Hs|w w' objs m ps _ Hs];
    unfold accounts, conns in *; cbn [p_lib p_main p_peers fst snd] in *.
  - pose proof (all_apart_sound _ _ 0 s Ha eq_refl) as So. destruct Hm as [Hpre Hk].
    destruct (thread_step_trades may_answer (fun x s' => wp (s', map fst ps) (k x) (commanded newcomer ctx args))
      l (trigger e) s l' (Ret x) s' Hs) as [Hwp HT]; [|exact So|].
    { split; [exact Hpre|]. intros y u Hpost. by apply Hk. }
    constructor; [|exact Hwp|exact Hp|exact Hc]. exact (all_apart_step _ _ l' 0 s s' Ha eq_refl HT).
  - destruct Hm as [(Hl & Hnew & _) Hk]. cbn [fst snd] in *.
    constructor; unfold accounts, conns; cbn [p_lib p_main p_peers fst snd].
    + rewrite map_app, app_comm_cons. by apply all_apart_more.
    + rewrite map_app. by apply Hk.
    + apply Forall_app. split; [done|]. apply list.Forall_singleton. by apply server_starts.
    + rewrite !map_app. apply list.NoDup_app. split; [done|]. split; [|apply NoDup_singleton].
      by intros o Ho ->%list_elem_of_singleton.
  - destruct g as [p s], g' as [p' s']. destruct (Forall_lookup_1 _ _ _ _ Hp Hi) as [s0 Hwp]. cbn [fst snd] in *.
    assert (Hi' : (m.2 :: map (fun p => p.2.2) ps) !! S i = Some s).
    { change (map (fun p => p.2.2) ps !! i = Some s). by rewrite list_lookup_fmap, Hi. }
    pose proof (all_apart_sound _ _ _ _ Ha Hi') as So.
    destruct (thread_step_trades may_answer _ l p s l' p' s' Hs Hwp So) as [Hwp' HT].
    assert (Ec : map fst (<[i := (conn, (p', s'))]> ps) = map fst ps).
    { rewrite list_fmap_insert. apply list_insert_id. by rewrite list_lookup_fmap, Hi. }
    constructor; unfold accounts, conns; cbn [p_lib p_main p_peers fst snd]; rewrite ?Ec; [|done| |done].
    + rewrite list_fmap_insert. exact (all_apart_step _ _ l' (S i) s s' Ha Hi' HT).
    + apply Forall_insert; [done|]. by exists s0.
  - constructor; unfold accounts, conns; [by eapply all_apart_lib|done..].
Qed.

Lemma steps_ok `{!CratesLaws} st st' : (0 < rf)%nat -> rtc process_step st st' -> process_ok st -> process_ok st'.
Proof.
  intros Hrf. induction 1 as [st|st1 st2 st3 H1 _ IH]; [done|]. intros H0. by eapply IH, process_step_ok.
Qed.

Lemma launched_ok : (exists a, ParseAddrPort loopback = inl a) -> (forall c, grow c < two63) ->
  len (Arg args 2) < two63 -> (0 < rf)%nat -> process_ok launched.
Proof.
  intros Hip Hg Hm Hrf. constructor; cbn; [|by apply main_spec|done|apply NoDup_nil_2].
  constructor; cbn.
  - exact sound_start.
  - intros i p s. rewrite list_lookup_singleton_Some. intros [_ [= <- <-]]. by split; [|exact sound_start].
  - intros i j p q s t Hne. rewrite !list_lookup_singleton_Some. intros [-> _] [-> _]. done.
Qed.

Lemma all_apart_apart l ss : all_apart l ss ->
  forall i j s t, i <> j -> ss !! i = Some s -> ss !! j = Some t -> apart s t.
Proof.
  intros Hsh i j s t Hne Hi Hj. eapply (sh_apart _ _ _ _ Hsh i j (Ret tt) (Ret tt)); [done|by apply holders..].
Qed.

Lemma peer_account st i conn p s : p_peers st !! i = Some (conn, (p, s)) -> accounts st !! S i = Some s.
Proof.
  intros Hi. change (map (fun p => p.2.2) (p_peers st) !! i = Some s). by rewrite list_lookup_fmap, Hi.
Qed.

(** ** Runs of [main] on the library

    [ShimRuns.shim_handler] serves [main]'s goroutine on its own: what it does is
    a run of the process in which no other goroutine has had a turn yet. *)

Context (answer : forall X, cE X -> shim -> says) (answer_task : Z -> shim -> says) (stops : Z -> shim -> bool).
Context (Hanswer : forall X (e : cE X) w, lawful_call e (answer X e w)).
Context (Htask : forall op w f, tasks w !! op = Some (TRunning f) -> lawful_future f (answer_task op w)).
Context (Hmay : forall X (e : cE X) w, may_answer X e (answer X e w)).

Abbreviation handle e W := (shim_handler answer answer_task stops _ e W).

Lemma finish_op_steps op w : room 2 w -> rtc shim_step w (finish_op answer_task stops op w).
Proof.
  intros HR. unfold finish_op. set (w1 := if stops op w then task_stops op w else w).
  assert (N1 : next_handle w1 = next_handle w) by (unfold w1; destruct (stops op w); [apply next_task_stops|done]).
  assert (rtc shim_step w w1) as H1 by (unfold w1; destruct (stops op w); [apply rtc_once, SStops|apply rtc_refl]).
  etransitivity; [exact H1|]. eapply rtc_l; [constructor; [apply Htask|by unfold room in *; rewrite N1]|].
  eapply rtc_l; [apply SPosts|]. apply rtc_once. apply SEnds.
Qed.

Lemma complete_op_run ch W s : run_rel W s -> early W ->
  (exists op k, o_chans s !! ch = Some op /\ o_ops s !! op = Some (OpWaiting k)) ->
  exists w1 s', rtc shim_step (rw_lib W) w1 /\
    completes s ch (complete_op answer_task stops ch W).1 s' /\
    run_rel (complete_op answer_task stops ch W).2 s' /\
    receives ch w1 s (complete_op answer_task stops ch W).1 (rw_lib (complete_op answer_task stops ch W).2) s' /\
    rw_objs (complete_op answer_task stops ch W).2 = rw_objs W.
Proof.
  intros HR HE Hex. destruct (complete_op_ok answer_task stops Htask ch W s HR HE Hex) as (s1 & Hc1 & HR1).
  revert Hc1 HR1. destruct Hex as (op & k & Hch & Hop).
  pose proof (early_room W s HR HE) as Hroom. destruct HR as (<- & S & N).
  unfold complete_op. rewrite Hch, Hop. pose proof (room_less 2 3 _ Hroom ltac:(lia)) as HR2.
  destruct (finish_op_ok answer_task stops Htask op (rw_lib W) _ _ S HR2) as (S1 & Hov & N1).
  pose proof (finish_op_steps op (rw_lib W) HR2) as Hsteps. set (w := finish_op answer_task stops op (rw_lib W)) in *.
  destruct (waiting_queued op k w _ _ S1 Hop) as [?|Hq]; [done|].
  destruct (posted_status_in op (queue w) Hq) as (status & -> & Hin).
  destruct (without_spec op (queue w) (w_once w (proj1 S1))) as (Q1 & Q2 & Q3).
  destruct (receive_sound op status (without op (queue w)) ch k w _ _ S1 Hin Q1 Q2 Q3 Hop Hch)
    as (r & Er & _ & Hc & S2). rewrite Er. intros Hc1 HR1.
  exists w, s1. split; [exact Hsteps|]. split; [exact Hc1|]. split; [exact HR1|]. split; [|done].
  destruct HR1 as [<- _]. by apply (Receives ch w (rw_go W) op status k r).
Qed.

Lemma handler_step `{!CratesLaws} X (e : goE X) W s : run_rel W s -> early W -> Prog.pre s e ->
  exists w1 s', rtc shim_step (rw_lib W) w1 /\ Prog.post s e (handle e W).1 s' /\ run_rel (handle e W).2 s' /\
    forall A (k : X -> go A), thread_step may_answer (w1, rw_objs W) (Vis e k, s)
      (rw_lib (handle e W).2, rw_objs (handle e W).2) (k (handle e W).1, s').
Proof.
  intros HR HE Hpre. destruct e as [X e|X e]; cbn [shim_handler Prog.pre Prog.post abi_protocol] in *.
  - destruct (handler_c_ok answer Hanswer X e W s HR HE Hpre) as (s' & Hpost & HR').
    exists (rw_lib W), s'. split; [apply rtc_refl|]. split; [exact Hpost|]. split; [exact HR'|].
    pose proof (early_room W s HR HE) as Hroom. destruct HR as (<- & S & N). pose proof (w_next _ (proj1 S)) as Wn.
    revert Hpost. unfold handler_c. set (w := rw_lib W) in *. set (ptr := next_id (dom (mem w))).
    assert (F : fresh_ptr w ptr) by (split; [apply next_id_pos|apply next_id_fresh_map]).
    pose proof (shim_call_ok X e (answer X e w) ptr w (rw_go W) (objects (rw_objs W)) S Hpre
      (room_less 1 3 w Hroom ltac:(lia)) F (Hanswer X e w)) as Hd. unfold does in Hd.
    destruct (shim_call e (answer X e w) ptr w) as [[x| |] w'] eqn:E; [|done|done].
    intros Hpost A k. pose proof (c_post_after X e _ _ s' Hpost) as ->.
    eapply TCall; [apply Hmay|apply Hanswer|exact F|by apply (room_less 1 3)|exact E].
  - destruct (handler_r_ok answer_task stops Htask X e W s HR HE Hpre) as (s' & Hpost & HR').
    assert (Hlocal : local e (handler_r answer_task stops e W).1 ->
      rw_lib (handler_r answer_task stops e W).2 = rw_lib W -> rw_objs (handler_r answer_task stops e W).2 = rw_objs W ->
      exists w1 s', rtc shim_step (rw_lib W) w1 /\ r_post s e (handler_r answer_task stops e W).1 s' /\
        run_rel (handler_r answer_task stops e W).2 s' /\
        forall A (k : X -> go A), thread_step may_answer (w1, rw_objs W) (Vis (R e) k, s)
          (rw_lib (handler_r answer_task stops e W).2, rw_objs (handler_r answer_task stops e W).2)
          (k (handler_r answer_task stops e W).1, s')).
    { intros Hl El Eo. exists (rw_lib W), s'. split; [apply rtc_refl|]. split; [exact Hpost|]. split; [exact HR'|].
      intros A k. rewrite El, Eo. by apply TLocal. }
    destruct e; try (by apply Hlocal).
    + apply Hlocal; [done|..]; cbn; by destruct (o_ops (rw_go W) !! op) as [[]|].
    + revert Hlocal. pose proof (complete_op_run ch W s HR HE Hpre) as Hc. cbn [handler_r] in *.
      destruct (done_with ctx0 (rw_go W)) as [e|]; [intros Hlocal; by apply Hlocal|intros _].
      destruct Hc as (w1 & s1 & Hsteps & Hc & HR1 & Hrecv & Eo).
      destruct (complete_op answer_task stops ch W) as [status W']. cbn [fst snd] in *.
      exists w1, s1. split; [exact Hsteps|]. split; [exact Hc|]. split; [exact HR1|].
      intros A k. rewrite Eo. by apply TSelect.
    + destruct (complete_op_run ch W s HR HE Hpre) as (w1 & s1 & Hsteps & Hc & HR1 & Hrecv & Eo).
      exists w1, s1. split; [exact Hsteps|]. split; [exact Hc|]. split; [exact HR1|].
      intros A k. cbn [handler_r]. rewrite Eo. by apply TRecv.
    + revert Hlocal Hpost HR'. pose proof (cell_spec o W s HR) as Hcell. pose proof (proj1 HR) as Ego.
      cbn [handler_r]. case_decide as D; [intros Hlocal _ _; by apply Hlocal|intros _ Hpost HR'].
      destruct Hcell as [?|[Hin Ho]]; [done|]. cbn [fst snd rw_lib rw_objs] in *.
      exists (rw_lib W), s'. split; [apply rtc_refl|]. split; [exact Hpost|]. split; [exact HR'|].
      intros A k. destruct Hpost as (_ & _ & ->). rewrite decide_False by done. by apply TSwap.
    + exists (rw_lib W), s'. split; [apply rtc_refl|]. split; [exact Hpost|]. split; [exact HR'|].
      intros A k. cbn in Hpost. subst s'. apply TCleanup.
Qed.

Definition sp_handler : handler spE (rworld * list (Conn * server)) := fun X e st =>
  match e in spE X return X * (rworld * list (Conn * server)) with
  | SpGo e => let '(x, W) := handle e st.1 in (x, (W, st.2))
  | SpServe c conn => (tt, (st.1, st.2 ++ [(conn, (echo_serve rounds rf c conn, told (rw_go st.1)))]))
  end.

Lemma sp_count {A} (p : sp A) : forall st, (rw_count st.1 <= rw_count (run sp_handler p st).2.1)%nat.
Proof.
  induction p as [a|X e k IH|why]; intros st; cbn [run]; [done| |done].
  destruct (sp_handler X e st) as [x st'] eqn:E. etransitivity; [|apply IH].
  destruct e as [X e|c conn]; cbn [sp_handler] in E; [|by injection E as <- <-].
  pose proof (count_step answer answer_task stops X e st.1) as Hc.
  destruct (shim_handler answer answer_task stops X e st.1) as [y W]. injection E as <- <-. cbn in *. lia.
Qed.

Lemma go_count {A} (p : go A) : forall W,
  (rw_count W <= rw_count (run (shim_handler answer answer_task stops) p W).2)%nat.
Proof.
  induction p as [a|X e k IH|why]; intros W; cbn [run]; [done| |done].
  pose proof (count_step answer answer_task stops X e W) as Hc.
  destruct (shim_handler answer answer_task stops X e W) as [x W1]. etransitivity; [|apply IH]. cbn in *. lia.
Qed.

Lemma lib_steps w w' objs m ps : exited m.1 = false -> rtc shim_step w w' ->
  rtc process_step (mkProcess (w, objs) m ps) (mkProcess (w', objs) m ps).
Proof.
  intros Hm. induction 1 as [w|w w1 w2 Hs _ IH]; [apply rtc_refl|]. eapply rtc_l; [by apply LibGoes|exact IH].
Qed.

Lemma main_runs `{!CratesLaws} (p : sp (option exit)) : forall W s ps (Q : option exit -> owned * list Conn -> Prop),
  run_rel W s -> wp (s, map fst ps) p Q -> early (run sp_handler p (W, ps)).2.1 ->
  let '(r, (W', ps')) := run sp_handler p (W, ps) in
  exists x, r = Some x /\ rtc process_step (mkProcess (rw_lib W, rw_objs W) (p, s) ps)
    (mkProcess (rw_lib W', rw_objs W') (Ret x, rw_go W') ps').
Proof.
  induction p as [a|X e k IH|why]; intros W s ps Q HR Hwp HE; cbn [run] in *; [|destruct Hwp as [Hpre Hk]|done].
  - exists a. destruct HR as [-> _]. split; [done|apply rtc_refl].
  - destruct e as [X e|c conn]; cbn [sp_handler fst snd] in *.
    + pose proof (count_step answer answer_task stops X e W) as Hc. assert (early W) as HE0.
      { destruct (shim_handler answer answer_task stops X e W) as [x W1]. cbn [snd] in Hc.
        pose proof (sp_count (k x) (W1, ps)) as Hc'. cbn [fst] in Hc'. unfold early in *. lia. }
      destruct (handler_step X e W s HR HE0 Hpre) as (w1 & s1 & Hlib & Hpost & HR1 & Hstep).
      destruct (shim_handler answer answer_task stops X e W) as [x W1]. cbn [fst snd] in *.
      specialize (IH x W1 s1 ps Q HR1 (Hk x (s1, map fst ps) (conj Hpost eq_refl)) HE).
      destruct (run sp_handler (k x) (W1, ps)) as [r [W' ps']].
      destruct IH as (y & -> & Hsteps). exists y. split; [done|].
      etransitivity; [by apply lib_steps|]. eapply rtc_l; [eapply MainGoes, Hstep|exact Hsteps].
    + pose proof (proj1 HR) as Ego. rewrite Ego in *. set (g := (echo_serve rounds rf c conn, told s)) in *.
      assert (map fst (ps ++ [(conn, g)]) = map fst ps ++ [conn]) as Em by apply map_app.
      specialize (IH tt W s (ps ++ [(conn, g)]) Q HR). rewrite Em in IH.
      specialize (IH (Hk tt (s, map fst ps ++ [conn]) eq_refl) HE).
      destruct (run sp_handler (k tt) (W, ps ++ [(conn, g)])) as [r [W' ps']].
      destruct IH as (y & -> & Hsteps). exists y. split; [done|].
      eapply rtc_l; [apply MainServes|exact Hsteps].
Qed.

(** The same for a goroutine of [serve]. *)
Lemma peer_runs `{!CratesLaws} (p : go (option (option (string * gerror)))) : forall W s m i conn ps
    (Q : option (option (string * gerror)) -> owned -> Prop),
  exited m.1 = false -> (i < length ps)%nat -> run_rel W s -> wp s p Q ->
  early (run (shim_handler answer answer_task stops) p W).2 ->
  let '(r, W') := run (shim_handler answer answer_task stops) p W in
  exists x, r = Some x /\
    rtc process_step (mkProcess (rw_lib W, rw_objs W) m (<[i := (conn, (p, s))]> ps))
      (mkProcess (rw_lib W', rw_objs W') m (<[i := (conn, (Ret x, rw_go W'))]> ps)).
Proof.
  induction p as [a|X e k IH|why]; intros W s m i conn ps Q Hm Hi HR Hwp HE; cbn [run] in *;
    [|destruct Hwp as [Hpre Hk]|done].
  - exists a. destruct HR as [-> _]. split; [done|apply rtc_refl].
  - pose proof (count_step answer answer_task stops X e W) as Hc. assert (early W) as HE0.
    { destruct (shim_handler answer answer_task stops X e W) as [x W1]. cbn [snd] in Hc.
      pose proof (go_count (k x) W1) as Hc'. unfold early in *. lia. }
    destruct (handler_step X e W s HR HE0 Hpre) as (w1 & s1 & Hlib & Hpost & HR1 & Hstep).
    destruct (shim_handler answer answer_task stops X e W) as [x W1]. cbn [fst snd] in *.
    specialize (IH x W1 s1 m i conn ps Q Hm Hi HR1 (Hk x s1 Hpost) HE).
    destruct (run (shim_handler answer answer_task stops) (k x) W1) as [r W'].
    destruct IH as (y & -> & Hsteps). exists y. split; [done|].
    transitivity (mkProcess (w1, rw_objs W) m (<[i := (conn, (Vis e k, s))]> ps)); [by apply lib_steps|].
    eapply rtc_l; [|exact Hsteps].
    rewrite <-(list_insert_insert_eq ps i (conn, (k x, s1)) (conn, (Vis e k, s))).
    eapply PeerGoes; [done|by apply list_lookup_insert_eq|]. apply Hstep.
Qed.

Lemma server_runs `{!CratesLaws} l m ps i conn p s count : process_ok (mkProcess l m ps) -> exited m.1 = false ->
  ps !! i = Some (conn, (p, s)) -> next_handle l.1 <= 1 + 3 * Z.of_nat count ->
  let '(r, W') := run (shim_handler answer answer_task stops) p (mkWorld l.1 s l.2 count) in
  early W' -> exists x, r = Some x /\
    rtc process_step (mkProcess l m ps)
      (mkProcess (rw_lib W', rw_objs W') m (<[i := (conn, (Ret x, rw_go W'))]> ps)).
Proof.
  intros [Ha _ Hp _] Hm Hi HN. destruct (Forall_lookup_1 _ _ _ _ Hp Hi) as [s0 Hwp].
  pose proof (all_apart_sound _ _ _ _ Ha (peer_account (mkProcess l m ps) _ _ _ _ Hi)) as S.
  cbn [fst snd p_lib] in *.
  assert (run_rel (mkWorld l.1 s l.2 count) s) as HR by (by split_and!).
  pose proof (peer_runs p _ s m i conn ps _ Hm (lookup_lt_Some _ _ _ Hi) HR Hwp) as H1.
  destruct (run (shim_handler answer answer_task stops) p (mkWorld l.1 s l.2 count)) as [r W']. intros HE.
  destruct (H1 HE) as (x & -> & Hsteps). exists x. split; [done|].
  rewrite list_insert_id in Hsteps by done. by destruct l.
Qed.

(** ** Properties *)

(** [main]'s goroutine can go on, or waits for an operation that the library
    itself can move. *)
Definition main_goes_on (l : shim * gset Z) (p : sp (option exit)) (s : owned) : Prop :=
  match p with
  | Vis (SpGo e) _ =>
      goes_on may_answer l (trigger e) s \/ exists ch, waits_on ch (trigger e) /\ in_flight l.1 s ch
  | Vis (SpServe _ _) _ => True
  | _ => False
  end.

Lemma main_progress `{!CratesLaws} st : process_ok st -> room 2 (p_lib st).1 ->
  (exists x, (p_main st).1 = Ret x /\ commanded newcomer ctx args x ((p_main st).2, conns st)) \/
  main_goes_on (p_lib st) (p_main st).1 (p_main st).2.
Proof.
  intros [Ha Hm _ _] HR. pose proof (all_apart_sound _ _ 0 _ Ha eq_refl) as So.
  destruct st as [[w objs] [p s] ps]. cbn [p_lib p_main fst snd] in *.
  destruct p as [x|X [X' e|c conn] k|why]; cbn [main_goes_on]; [left; by exists x|right|by right|done].
  destruct Hm as [Hpre _].
  destruct (progress may_answer (fun _ _ => True) w objs (trigger e) s) as [(x & Hx & _)|Hgo];
    [|exact So|exact HR|done|exact Hgo].
  by split.
Qed.

(** C31. The echo process serves every peer it accepts.  Start it with any flags
    and arguments and let [main]'s goroutine, the goroutines it starts and the
    library's tasks take steps in any order.  Then no two goroutines serve the
    same connection or own anything in common, and none panics, deadlocks in the
    library or breaks its side of the ABI: each has ended, can go on, or waits
    for an operation that the library itself can move.  A goroutine of [serve]
    that has ended owes nothing and has written to its peer a prefix of what it
    read from it, all of it unless it logged an error.  When [listen] is over,
    or however many peers it has been at it for, each Go object it has made but
    one, its endpoint, is a connection that a goroutine of its own was started
    for, and these are all the goroutines there are; without an error it ends
    only when its context is done.  The process exits with its usage text exactly
    when it is told neither to listen nor to dial with a ticket and a message. *)
Theorem listen_serves_each_peer `{!CratesLaws} (st : process) :
  (exists a, ParseAddrPort loopback = inl a) -> (forall c, grow c < two63) -> len (Arg args 2) < two63 ->
  (0 < rf)%nat -> rtc process_step launched st -> room 2 (p_lib st).1 ->
  NoDup (map conn_obj (conns st)) /\
  (forall i j s t, i <> j -> accounts st !! i = Some s -> accounts st !! j = Some t -> apart s t) /\
  (forall i conn p s, p_peers st !! i = Some (conn, (p, s)) ->
     (exists r s0, p = Ret r /\
        exchanged (told s0) (fun out inn => out `prefix_of` inn /\ (r = None \/ r = Some None -> out = inn)) s) \/
     goes_on may_answer (p_lib st) p s \/ exists ch, waits_on ch p /\ in_flight (p_lib st).1 s ch) /\
  ((exists x, (p_main st).1 = Ret x /\ quiet newcomer (p_main st).2 /\
      (x = Some ExitUsage <-> Arg args 0 <> $"listen" /\ (Arg args 0 = $"dial" -> (length args < 3)%nat)) /\
      (Arg args 0 <> $"listen" -> conns st = []) /\
      (Arg args 0 = $"listen" -> all_served (p_main st).2 (conns st) /\
         (x = Some ExitOK -> exists e, o_ctx (p_main st).2 !! ctx = Some (CtxDone e)))) \/
   main_goes_on (p_lib st) (p_main st).1 (p_main st).2).
Proof.
  intros Hip Hg Hm Hrf Hsteps HR.
  destruct (steps_ok launched st Hrf Hsteps (launched_ok Hip Hg Hm Hrf)) as [Ha Hmain Hp Hc].
  split; [done|]. split; [by apply (all_apart_apart _ _ Ha)|]. split.
  - intros i conn p s Hi. destruct (Forall_lookup_1 _ _ _ _ Hp Hi) as [s0 Hwp].
    assert (accounts st !! S i = Some s) as Hacc by (by apply peer_account in Hi).
    destruct (progress may_answer _ _ (p_lib st).2 p s Hwp (all_apart_sound _ _ _ _ Ha Hacc) HR) as [(r & -> & HQ)|Hgo].
    + left. by exists r, s0.
    + right. by destruct (p_lib st).
  - destruct (main_progress st) as [(x & Ex & Hq & Hu & Hn & Hs)|Hgo]; [by constructor|done|left|by right].
    by exists x.
Qed.

End Process.

(** ** A process with a small iroh *)

Definition any_answer X (e : cE X) (a : says) : Prop := True.
Definition small_grow (c : Z) : Z := Z.min (2 * c) (two63 - 1).

Definition small_main : sp (option exit) := main 2 1 small_grow 1 2 3 false true [$"listen"].
Definition small_listened : option (option exit) * (rworld * list (Conn * server)) :=
  run (sp_handler 2 1 small_answer small_task (fun _ _ => false)) small_main (small_world, []).

(** [main] accepts two peers; the goroutine of the first echoes for two rounds. *)
Definition first_peer : Conn * server := default (a_conn, (Ret None, newcomer)) (small_listened.2.2 !! 0%nat).
Definition first_world : rworld :=
  mkWorld (rw_lib small_listened.2.1) first_peer.2.2 (rw_objs small_listened.2.1) (rw_count small_listened.2.1).
Definition small_served := small_run first_peer.2.1 first_world.

Lemma small_main_early : early small_listened.2.1.
Proof. unfold early. rewrite <-Z.ltb_lt. vm_compute. reflexivity. Qed.

Lemma small_loopback : exists a, ParseAddrPort loopback = inl a.
Proof. exists (mkAddr4 127 0 0 1 0). vm_compute. reflexivity. Qed.

Lemma small_grow_bound c : small_grow c < two63.
Proof. unfold small_grow. lia. Qed.

(** Two peers accepted, the goroutine of the first after its rounds. *)
Abbreviation small_steps := (rtc (process_step any_answer 2 1)).
Abbreviation small_launched := (launched 2 1 small_grow 1 2 3 false true [$"listen"]).

Lemma small_accepts : exists s, small_steps small_launched
  (mkProcess (rw_lib small_listened.2.1, rw_objs small_listened.2.1) (Ret None, s) small_listened.2.2).
Proof.
  pose proof (main_runs any_answer 2 1 small_answer small_task (fun _ _ => false)
    small_answer_lawful small_task_lawful (fun _ _ _ => I) small_main small_world newcomer []
    (commanded newcomer 1 [$"listen"]) small_world_ok) as H.
  assert (small_listened.1 = Some None) as Er by (vm_compute; reflexivity).
  fold small_listened in H. revert Er H. pose proof small_main_early as HE. revert HE.
  destruct small_listened as [r [W ps]]. cbn [fst snd]. intros HE -> H.
  destruct H as (x & [= <-] & Hsteps); [|exact HE|by exists (rw_go W)].
  apply main_spec; [exact small_loopback|exact small_grow_bound|reflexivity|reflexivity|reflexivity|cbn; lia|reflexivity].
Qed.

Lemma small_first : length small_listened.2.2 = 2%nat /\ small_listened.2.2 !! 0%nat = Some first_peer.
Proof.
  assert (length small_listened.2.2 = 2%nat) as Hlen by (vm_compute; reflexivity). split; [done|].
  unfold first_peer. destruct (small_listened.2.2 !! 0%nat) as [g|] eqn:E; [done|].
  apply lookup_ge_None in E. lia.
Qed.

Lemma small_served_facts : small_served.1 = Some None /\ early small_served.2 /\ room 2 (rw_lib small_served.2) /\
  next_handle (rw_lib small_listened.2.1) <= 1 + 3 * Z.of_nat (rw_count small_listened.2.1) /\
  sent_on 10 (rw_go small_served.2) = $"helhel".
Proof.
  unfold early, room. rewrite <-!Z.ltb_lt, <-Z.leb_le.
  split; [vm_compute; reflexivity|]. split; [vm_compute; reflexivity|]. split; [vm_compute; reflexivity|].
  split; vm_compute; reflexivity.
Qed.

(** Two peers accepted, and the goroutine of the first after its rounds. *)
Lemma small_serves : exists st, small_steps small_launched st /\ length (p_peers st) = 2%nat /\ room 2 (p_lib st).1 /\
  exists conn s, p_peers st !! 0%nat = Some (conn, (Ret None, s)) /\ sent_on 10 s = $"helhel".
Proof.
  destruct small_accepts as [s Hsteps]. destruct small_first as [Hlen Hi].
  destruct small_served_facts as (Er & HE & HR & HN & Hsent).
  pose proof (steps_ok any_answer 2 1 small_grow 1 3 [$"listen"] _ _ ltac:(lia) Hsteps) as Hok.
  assert (first_peer = (first_peer.1, (first_peer.2.1, first_peer.2.2))) as Ef by (by destruct first_peer as [? [? ?]]).
  rewrite Ef in Hi.
  pose proof (server_runs any_answer 2 1 small_grow 1 3 [$"listen"] small_answer small_task (fun _ _ => false)
    small_answer_lawful small_task_lawful (fun _ _ _ => I) (rw_lib small_listened.2.1, rw_objs small_listened.2.1)
    (Ret None, s) small_listened.2.2 0 first_peer.1 first_peer.2.1 first_peer.2.2 (rw_count small_listened.2.1)) as H.
  specialize (H (Hok (launched_ok 2 1 small_grow 1 2 3 false true [$"listen"] small_loopback small_grow_bound
    ltac:(reflexivity) ltac:(lia))) eq_refl Hi HN).
  cbn [fst snd] in H. fold first_world small_served in H. revert H Er HE HR Hsent.
  destruct small_served as [r W']. cbn [fst snd]. intros H Er HE HR Hsent.
  destruct (H HE) as (x & Ex & Hserved). rewrite Er in Ex. injection Ex as <-.
  eexists. split; [etransitivity; [exact Hsteps|exact Hserved]|]. cbn [p_peers p_lib fst].
  split; [by rewrite length_insert|]. split; [exact HR|].
  exists first_peer.1, (rw_go W'). split; [|exact Hsent].
  apply list_lookup_insert_eq. rewrite Hlen. lia.
Qed.

(** ** Witnesses *)

Example listen_serves_each_peer_witness :
  exists st, small_steps small_launched st /\ length (p_peers st) = 2%nat /\
    NoDup (map conn_obj (conns st)) /\
    exists conn p s, p_peers st !! 0%nat = Some (conn, (p, s)) /\ p = Ret None /\ sent_on 10 s = $"helhel" /\
      ((exists r s0, p = Ret r /\
          exchanged (told s0) (fun out inn => out `prefix_of` inn /\ (r = None \/ r = Some None -> out = inn)) s) \/
       goes_on any_answer (p_lib st) p s \/ exists ch, waits_on ch p /\ in_flight (p_lib st).1 s ch).
Proof.
  destruct small_serves as (st & Hsteps & Hlen & HR & conn & s & Hi & Hs).
  destruct (listen_serves_each_peer any_answer 2 1 small_grow 1 2 3 false true [$"listen"] st
    small_loopback small_grow_bound eq_refl (le_n 1) Hsteps HR) as (Hnd & _ & Hpeers & _).
  exists st. split; [exact Hsteps|]. split; [exact Hlen|]. split; [exact Hnd|].
  exists conn, (Ret None), s. split; [exact Hi|]. split; [reflexivity|]. split; [exact Hs|].
  exact (Hpeers 0%nat conn (Ret None) s Hi).
Defined.
